(* ===== verification/_CoqProject ===== *)
-Q . S2P
Prelude.v
Text.v
Keccak.v
Merkle.v
Epoch.v
Group.v
Bindings.v
FrostLib.v
Frost.v
FrostSerde.v
Hashing.v
Secrets.v
Messages.v
Snapshots.v
Configuration.v
Provider.v
StateMachine.v
Node.v
Blocks.v
Events.v
Watch.v
Anchors.v
ToyNode.v
Indexing.v
TxTypes.v
TxStorage.v
TxQueue.v
ToyTx.v
Driver.v
ToyDriver.v
Verdicts.v
Sentinel.v
Votes.v
ToySentinel.v
Batches.v
Coverage.v
Checks.v
Cow.v
Poisoning.v
Engine.v
ToyEngine.v
Headers.v
Rulings.v
ToyRulings.v
SentinelDeployment.v
ToyLives.v
Service.v
State.v
KeyGen.v
Signing.v
Validator.v
Clock.v
Sessions.v
Gate.v
Rounds.v
Agreement.v
Retention.v
Deployment.v
Shares.v
Toy.v
ToyDeployment.v
ToyShares.v
Guarantees.v
Witnesses.v
