(* ===== verification/Prelude.v ===== *)
(** * Safenet: a verification library for the offchain services

    This library models the offchain services of Safenet, the Rust crates under
    [src/crates/], and proves what makes them correct. It is a shallow embedding:
    a function of the code is a function here, with its branches in the source's
    order; state is passed explicitly; errors are values of [result] or [option].

    ** The program

    A service is a deterministic state machine over the chain. The core crate
    follows a node ([index/]), feeds every update to a reorg-aware machine that
    snapshots its state per block ([state/]), runs the effects the machine asks
    for ([effects.rs]), encodes its actions into transactions and sees them
    included ([tx/]), all wired by [driver.rs]. The validator crate is such a
    machine: with the other validators it generates a group key per epoch (FROST
    distributed key generation, with complaints and timeouts), signs the epoch
    rollovers and the transactions an oracle approved, and keeps its secrets in a
    store outside the snapshots. The sentinel crate is another: it asks an engine
    whether a proposed transaction is secure, commits and reveals its vote on the
    oracle's contract, and claims its bond. The sentinel-engine crate is that
    engine: it flattens a transaction's batches into calls, runs a chain of checks
    over them, and adds up what each check vouches for to a verdict.

    ** The files

    Shared.
    - [Prelude]: notations, tactics, the [result] type, machine integers, byte
      strings, ordered views of maps and sets.
    - [Text]: splitting strings, and reading and writing integers, as the standard
      library does.
    - [Messages]: what the indexer reports and what a transition consumes and
      emits ([core/src/index/], [core/src/state/mod.rs]); [apply_transition] is the
      interface every service implements.
    - [Keccak], [FrostLib], [Bindings], [Node] and the classes [Serde],
      [Events], [Executor], [Signer], [TxNode], [EffectHandler], [ActionEncoder],
      [Engine], [Http], [PointSerde], [SolEventInterface], [SentinelCrypto], [MapOrder], [MultiSendAbi], [CallAbi], [LogAbi],
      [OrderHash], [OrderApi]: third-party code, the node, the engine and the order
      service, as parameters; their laws, in classes of their own, are documented
      behaviour. [Toy], [ToyNode], [ToyTx], [ToyDriver], [ToySentinel],
      [ToyEngine], [ToyRulings], [ToyLives], [ToyDeployment] and [ToyShares] instantiate them to evaluate the library
      and its witnesses.

    Core ([src/crates/core/src/]).
    - [Snapshots]: [state/storage.rs], the table as a map.
    - [Configuration], [Provider]: [serialization.rs] and [config.rs];
      [provider/mod.rs] and [index/clock.rs].
    - [StateMachine]: [state/mod.rs]; its specification keeps the history of
      messages instead of a state, and marks of it instead of snapshots.
    - [Blocks], [Events], [Watch]: [index/blocks.rs], [index/events.rs] with
      [bloom.rs], [index/mod.rs]. A watcher is a record; a poll returns what it
      emits, the watcher after it and the number of the next request.
    - [Indexing]: what they guarantee together.
    - [Anchors]: the snapshots a machine that follows the watcher holds, and why
      every rollback but that of the first block of all finds its own.
    - [TxTypes]: [tx/types.rs], [fees.rs], [bundle.rs], [config.rs], [signer.rs].
    - [TxStorage]: [tx/storage.rs], its two tables and each query.
    - [TxQueue]: [tx/mod.rs], a state monad over the queue, the number of the next
      request and the log of what was broadcast.
    - [Driver]: [effects.rs] and [driver.rs]; a run is a sequence of polls,
      completions of effects and collections of their results, in any order.

    Validator ([src/crates/validator/src/]).
    - [Merkle], [Epoch], [Group], [Hashing]: [merkle.rs], [consensus/].
    - [Frost]: [frost/], one Module per file; [FrostSerde]: [frost/serialization.rs],
      how what key generation verified is persisted.
    - [Secrets]: [secrets/store.rs], its tables as maps.
    - [Service]: [service/action.rs] and [service/effect.rs].
    - [State], [KeyGen], [Signing], [Validator]: [state/], one definition per
      handler; [validator_transition] dispatches to them in the code's order.
    - [Clock], [Sessions], [Gate], [Rounds], [Retention]: invariants of that
      machine over every history of messages.
    - [Agreement]: what is public of a validator's state, the protocol that any
      account follows, and when a validator follows it.
    - [Deployment]: [main.rs] and [service/mod.rs], the assembled service and its
      startup, run by the driver; [Shares]: its lives over its database, and the
      nonces in them.
    - [Guarantees]: what follows for the whole service; [Witnesses] applies it to
      concrete runs.

    Sentinel ([src/crates/sentinel/src/]).
    - [Verdicts]: [engine.rs], [verdicts.rs], [effect.rs]: rules and their text, the
      store as a map, the handler of the sentinel's effect.
    - [Sentinel]: [service.rs] with [state.rs], [action.rs], [hashing.rs] and
      [bindings.rs]; the order a [HashMap] is iterated in is a parameter.
    - [Votes]: the transition as one machine per request, and its guarantees.
    - [SentinelDeployment]: [main.rs] and the assembled service, its lives under the
      driver, and that each is a history of [Rulings].

    Sentinel engine ([src/crates/sentinel-engine/src/]).
    - [Batches]: [engine/transaction.rs], [contracts/multi_send.rs] and the parser
      of [engine/proposal.rs]; its specification is the relation [makes].
    - [Coverage]: [engine/coverage.rs], [rule.rs], [mod.rs] and the interface of a
      check ([checkers/mod.rs]), a function of the proposal and its context.
    - [Checks], [Cow], [Poisoning]: [checkers/], one definition per check, with
      [contracts/target_effects.rs]; the specification of [Poisoning] is the Safe's
      history, block by block, instead of requests for it.
    - [Engine]: the chain [main.rs] deploys, and what its verdicts mean.
    - [Headers]: [api/extractors.rs] and the headers the sentinel's client sets.
    - [Rulings]: [api/mod.rs], the sentinel's client of it, and the two services
      together, over histories with reorganizations, restarts and failing requests.

    ** What the theorems show

    - The deployed validator signs only what was approved on the chain it follows
      (C1), and with a pair of nonces once, through restarts (C2); a ceremony has one
      pair (C6). Validators that follow one chain agree (C5).
    - The deployed sentinel votes as its engine's verdict on a transaction proposed
      for its request (C3), and a secure verdict bounds what a transaction does (C4).
    - The state machine refines the replay of the canonical chain, through
      reorganizations, failures and restarts (C7, C8). The driver composes it with
      the indexer and the queue: they never get out of step, the snapshot of every
      rollback is there but for that of the first block followed, and every command is
      carried out once (C9, C10).
    - The validator's sessions, epochs and rounds stay consistent and end (C11, C13
      to C16), the index of signature ids misses no session, and a round restarts
      when a deadline passed and not before; its secrets outlive what needs them (C12).
    - The transaction queue keeps its tables consistent and loses nothing, bounds
      what is in flight, sends at fresh nonces, replaces with sufficient fees, and
      its execution markers follow the chain (C17 to C23).
    - The indexer emits one ordered stream over one chain, fetches every log once,
      whatever the strategy, and starts (C24 to C28).
    - The sentinel reveals the votes it committed to (C29), keeps to the first
      verdict on a request (C30), forgets no bond but in one case (C31), and ends
      every request with at most six commands, its bond's approval included (C32).
    - The engine checks the calls a Safe will make (C33), its verdict is the sum of
      its checks (C34), failing requests only make it abstain (C35), and an
      approval of CoW Swap's relayer comes with one order of the same token (C36).
    - The cryptographic marshalling is faithful: shares reach their recipient (C37),
      and trees bind what they commit to up to an explicit collision, level by level
      as the length of a proof says, for its verification does not check it (C38, C39);
      published commitments verify. [FrostSerde] shows that whatever was verified
      can be persisted.
    - A configuration value means what is written in it (C40); [Headers] shows that
      the engine reads what the sentinel's client sets, and [Provider] that a request
      is counted once and no error carries a URL.

    ** Bounds and fuel

    Integers are [Z]; where the code wraps, saturates, checks or converts, so does
    the model ([wrap_u16], [wrap_u64], [sat_add], [checked_add], [to_i64]).
    Loops over data are structural, but for [decode_entries], [chunks_from] and
    [substitute_from], whose fuel, the length of the payload, the number of chunks
    and the length of the value, is proved enough, and [decimal], for twenty digits. Otherwise only the loops that wait for the node take fuel: the scan of
    [BlockWatcher::new] and its retries, the wait for the next block, and a drain of
    the event watcher. [watcher_starts] and [blocks_drained] show that enough fuel
    exists once the node answers; elsewhere running out is [None], which the
    theorems do not count as a result. A node answers each
    numbered request arbitrarily, so every interleaving of requests with the
    chain's growth and reorganizations is covered.

    ** Not modelled

    - Third-party code: elliptic curves and FROST itself, Keccak-256, ABI and
      RLP encodings, the generated EIP-712 hashes and event decoders, SQLite's
      own failures, JSON.
    - Input and output without logic: TOML, logging, the metrics but the count of
      requests, signals, timers and retry delays, connecting to a node or a database.
    - An effect is performed at once over what its handler holds; a poll of the
      indexer is not cancelled halfway; a process ends between the events of its
      driver, not within one.
    - The labels of a claim, which only name metrics. A check's requests all see one history of the chain.
*)

From Stdlib Require Export ZArith Lia.
From stdpp Require Export base tactics option list gmap sorting.

#[global] Open Scope Z_scope.
#[export] Set Default Goal Selector "!".

(** ** Scopes and automation of the development *)

Declare Scope safenet_scope.
Delimit Scope safenet_scope with safenet.
#[global] Open Scope safenet_scope.

(** [safenet] collects the lemmas that close the routine side conditions. *)
Create HintDb safenet.

(** Splits the first [match] or [if] found in the goal, then in a hypothesis. *)
Ltac split_match :=
  match goal with
  | |- context [match ?x with _ => _ end] => destruct x eqn:?
  | H : context [match ?x with _ => _ end] |- _ => destruct x eqn:?
  end.

(** Repeatedly splits and simplifies; every goal a handler's branch. *)
Ltac branches := repeat (split_match; simplify_eq/=); simplify_eq/=.

(** [lia] knows Euclidean division by constants. *)
Ltac Zify.zify_post_hook ::= Z.div_mod_to_equations.

(** ** Machine integers

    An unsigned machine integer of width [w] is the [Z] in [0, 2^w) it denotes. *)

Abbreviation u16_max := 65535 (only parsing).
Abbreviation u64_max := 18446744073709551615 (only parsing).
Abbreviation u128_max := 340282366920938463463374607431768211455 (only parsing).
Abbreviation i64_max := 9223372036854775807 (only parsing).

Definition wrap_u16 (z : Z) : Z := z mod 65536.
Definition wrap_u64 (z : Z) : Z := z mod 18446744073709551616.

Definition is_u16 (z : Z) : Prop := 0 <= z <= u16_max.
Definition is_u64 (z : Z) : Prop := 0 <= z <= u64_max.
Definition is_u256 (z : Z) : Prop := 0 <= z < 2 ^ 256.

(** [u64::saturating_add], [u64::saturating_mul], [u64::saturating_sub]. *)
Definition sat_add (a b : Z) : Z := Z.min u64_max (a + b).
Definition sat_mul (a b : Z) : Z := Z.min u64_max (a * b).
Definition sat_sub (a b : Z) : Z := Z.max 0 (a - b).

(** [u64::checked_add] and [u64::checked_sub]. *)
Definition checked_add (a b : Z) : option Z :=
  if decide (a + b <= u64_max) then Some (a + b) else None.
Definition checked_sub (a b : Z) : option Z :=
  if decide (0 <= a - b) then Some (a - b) else None.

(** [u64::div_ceil] on non-negative operands with a positive divisor. *)
Definition div_ceil (a b : Z) : Z := if decide (a mod b = 0) then a / b else a / b + 1.

(** [i64::try_from] of an unsigned value. *)
Definition to_i64 (z : Z) : option Z := if decide (z <= i64_max) then Some z else None.

#[global] Arguments wrap_u16 : simpl never.
#[global] Arguments wrap_u64 : simpl never.
#[global] Arguments sat_add : simpl never.
#[global] Arguments sat_mul : simpl never.
#[global] Arguments sat_sub : simpl never.
#[global] Arguments div_ceil : simpl never.

Lemma sat_add_le a b : sat_add a b <= u64_max.
Proof. unfold sat_add. lia. Qed.

Lemma sat_add_gt a b : 0 < b -> a < u64_max -> a < sat_add a b.
Proof. unfold sat_add. lia. Qed.

Lemma sat_add_ge a b : 0 <= b -> a <= u64_max -> a <= sat_add a b.
Proof. unfold sat_add. lia. Qed.

Lemma sat_add_is_u64 a b : 0 <= a -> 0 <= b -> is_u64 (sat_add a b).
Proof. unfold is_u64, sat_add. lia. Qed.

Lemma wrap_u16_small z : is_u16 z -> wrap_u16 z = z.
Proof. unfold is_u16, wrap_u16. intros. apply Z.mod_small. lia. Qed.

Lemma wrap_u64_small z : is_u64 z -> wrap_u64 z = z.
Proof. unfold is_u64, wrap_u64. intros. apply Z.mod_small. lia. Qed.

Lemma div_ceil_spec a b : 0 <= a -> 0 < b -> a <= b * div_ceil a b < a + b.
Proof.
  intros Ha Hb. unfold div_ceil.
  pose proof (Z.div_mod a b ltac:(lia)) as Hdm.
  pose proof (Z.mod_pos_bound a b Hb). case_decide; nia.
Qed.

Lemma checked_add_Some a b c : checked_add a b = Some c -> c = a + b /\ c <= u64_max.
Proof. unfold checked_add. intros H. case_decide; simplify_eq. lia. Qed.

Lemma checked_sub_Some a b c : checked_sub a b = Some c -> c = a - b /\ 0 <= c.
Proof. unfold checked_sub. intros H. case_decide; simplify_eq. lia. Qed.

Lemma to_i64_Some a b : to_i64 a = Some b -> b = a /\ a <= i64_max.
Proof. unfold to_i64. intros H. case_decide; simplify_eq. lia. Qed.

#[export] Hint Resolve sat_add_le sat_add_is_u64 : safenet.

(** ** Fallible code *)

(** Rust's [Result]. *)
Inductive result (E A : Type) : Type :=
| Ok (a : A)
| Err (e : E).
Arguments Ok {E A} a.
Arguments Err {E A} e.

#[export] Instance result_ret E : MRet (result E) := fun _ a => Ok a.
#[export] Instance result_bind E : MBind (result E) :=
  fun _ _ f r => match r with Ok a => f a | Err e => Err e end.
#[export] Instance result_fmap E : FMap (result E) :=
  fun _ _ f r => match r with Ok a => Ok (f a) | Err e => Err e end.

Definition is_ok {E A} (r : result E A) : bool := if r is Ok _ then true else false.
Definition map_err {E E' A} (f : E -> E') (r : result E A) : result E' A :=
  match r with Ok a => Ok a | Err e => Err (f e) end.
Definition ok_or {E A} (o : option A) (e : E) : result E A :=
  match o with Some a => Ok a | None => Err e end.

(** [Iterator::collect::<Result<Vec<_>, _>>()] over already mapped items. *)
Fixpoint collect_results {E A} (l : list (result E A)) : result E (list A) :=
  match l with
  | [] => Ok []
  | r :: l => a ← r; l ← collect_results l; Ok (a :: l)
  end.

Lemma bind_Ok {E A B} (r : result E A) (f : A -> result E B) b :
  r ≫= f = Ok b <-> exists a, r = Ok a /\ f a = Ok b.
Proof.
  destruct r; split; intros H; eauto; [| |]; try done; by destruct H as (? & [=] & ?); subst.
Qed.

Lemma bind_Err {E A B} (r : result E A) (f : A -> result E B) e :
  r ≫= f = Err e <-> r = Err e \/ exists a, r = Ok a /\ f a = Err e.
Proof.
  destruct r; split; intros H; eauto.
  - by destruct H as [[=]|(? & [= <-] & ?)].
  - left. by injection H as ->.
  - by destruct H as [[= ->]|(? & [=] & ?)].
Qed.

Lemma map_err_Ok {E E' A} (f : E -> E') (r : result E A) a :
  map_err f r = Ok a <-> r = Ok a.
Proof. destruct r; simpl; split; intros; by simplify_eq. Qed.

Lemma ok_or_Ok {E A} (o : option A) (e : E) a : ok_or o e = Ok a <-> o = Some a.
Proof. destruct o; simpl; split; intros; by simplify_eq. Qed.

Lemma fmap_Ok {E A B} (f : A -> B) (r : result E A) b :
  f <$> r = Ok b <-> exists a, r = Ok a /\ b = f a.
Proof.
  destruct r; simpl; split; intros H; try (destruct H as (? & ? & ?)); simplify_eq; eauto.
Qed.

Lemma collect_results_Ok {E A} (l : list (result E A)) l' :
  collect_results l = Ok l' <-> l = Ok <$> l'.
Proof.
  revert l'. induction l as [|r l IH]; intros l'; simpl.
  - split; [intros; simplify_eq; done|]. destruct l'; done.
  - destruct r as [a|e]; simpl; [|split; [done|destruct l'; done]].
    unfold mbind, result_bind. split.
    + destruct (collect_results l) as [k|] eqn:Hk; [|done].
      intros; simplify_eq/=. f_equal. by apply IH.
    + destruct l' as [|b l']; [done|]. simpl. intros; simplify_eq.
      by rewrite (proj2 (IH l')).
Qed.

(** Resolves a chain of binds that returned [Ok], naming nothing. *)
Ltac result_simpl :=
  repeat match goal with
  | H : _ ≫= _ = Ok _ |- _ => apply bind_Ok in H as (? & ? & ?)
  | H : map_err _ _ = Ok _ |- _ => rewrite map_err_Ok in H
  | H : ok_or _ _ = Ok _ |- _ => rewrite ok_or_Ok in H
  | H : _ <$> _ = Ok _ |- _ => apply fmap_Ok in H as (? & ? & ?)
  end; simplify_eq/=.

(** ** Bytes

    A byte is a [Z] in [0, 256); a fixed array of bytes ([B256], [Address],
    [[u8; 32]]) is the big-endian integer it encodes, and a byte string the
    list of its bytes. *)

Abbreviation bytes := (list Z).

(** The [n] big-endian bytes of [z]. *)
Fixpoint be_bytes (n : nat) (z : Z) : bytes :=
  match n with
  | O => []
  | S n => be_bytes n (z / 256) ++ [z mod 256]
  end.

(** The integer a byte string encodes in big-endian order. *)
Definition from_be (l : bytes) : Z := foldl (fun acc b => 256 * acc + b) 0 l.

Lemma length_be_bytes n z : length (be_bytes n z) = n.
Proof.
  revert z. induction n as [|n IH]; intros z; simpl; [done|].
  rewrite length_app, IH. simpl. lia.
Qed.

Lemma from_be_snoc l b : from_be (l ++ [b]) = 256 * from_be l + b.
Proof. unfold from_be. by rewrite foldl_app. Qed.

Lemma from_be_be_bytes n z : 0 <= z < 256 ^ Z.of_nat n -> from_be (be_bytes n z) = z.
Proof.
  revert z. induction n as [|n IH]; intros z Hz.
  { change (256 ^ Z.of_nat 0) with 1 in Hz. replace z with 0 by lia. done. }
  cbn [be_bytes]. rewrite from_be_snoc.
  rewrite Nat2Z.inj_succ, Z.pow_succ_r in Hz by lia.
  rewrite IH.
  - pose proof (Z.div_mod z 256). lia.
  - split; [apply Z.div_pos; lia|apply Z.div_lt_upper_bound; lia].
Qed.

Lemma be_bytes_inj n a b :
  0 <= a < 256 ^ Z.of_nat n -> 0 <= b < 256 ^ Z.of_nat n ->
  be_bytes n a = be_bytes n b -> a = b.
Proof.
  intros Ha Hb H. rewrite <- (from_be_be_bytes n a), <- (from_be_be_bytes n b) by done.
  by rewrite H.
Qed.

Lemma be_bytes_range n z : Forall (fun b => 0 <= b < 256) (be_bytes n z).
Proof.
  revert z. induction n as [|n IH]; intros z; simpl; [constructor|].
  apply Forall_app; split; [apply IH|]. constructor; [|constructor].
  apply Z.mod_pos_bound. lia.
Qed.

(** Two fixed-width fields concatenated in front of equal-length tails. *)
Lemma be_bytes_app_inj n a b k l :
  be_bytes n a ++ k = be_bytes n b ++ l -> be_bytes n a = be_bytes n b /\ k = l.
Proof.
  intros H. apply app_inj_1 in H; [done|]. by rewrite !length_be_bytes.
Qed.

Lemma from_be_app l k : from_be (l ++ k) = from_be l * 256 ^ Z.of_nat (length k) + from_be k.
Proof.
  induction k as [|b k IH] using rev_ind.
  { simpl. rewrite app_nil_r. change (256 ^ Z.of_nat 0) with 1. unfold from_be at 3. simpl. lia. }
  rewrite app_assoc, !from_be_snoc, IH, length_app. simpl length.
  replace (Z.of_nat (length k + 1)) with (Z.succ (Z.of_nat (length k))) by lia.
  rewrite Z.pow_succ_r by lia. lia.
Qed.

Lemma from_be_be_bytes_mod n z : from_be (be_bytes n z) = z mod 256 ^ Z.of_nat n.
Proof.
  revert z. induction n as [|n IH]; intros z.
  { change (256 ^ Z.of_nat 0) with 1. rewrite Z.mod_1_r. done. }
  cbn [be_bytes]. rewrite from_be_snoc, IH, Nat2Z.inj_succ, Z.pow_succ_r by lia.
  rewrite Z.rem_mul_r by lia. lia.
Qed.

(** ** Ordered maps and sets

    A [BTreeMap] is a [gmap] and a [BTreeSet] a [gset]; where the code walks one
    in key order, it is walked through the sorted lists below. *)

Definition sorted_elements (s : gset Z) : list Z := merge_sort Z.le (elements s).

Definition sorted_keys {V} (m : gmap Z V) : list Z := sorted_elements (dom m).

(** [BTreeMap::iter]. *)
Definition sorted_entries {V} (m : gmap Z V) : list (Z * V) :=
  omap (fun k => pair k <$> m !! k) (sorted_keys m).

(** [BTreeMap::values] and [BTreeMap::into_values]. *)
Definition sorted_values {V} (m : gmap Z V) : list V := (sorted_entries m).*2.

Lemma elem_of_sorted_elements (s : gset Z) x : x ∈ sorted_elements s <-> x ∈ s.
Proof.
  unfold sorted_elements.
  rewrite (merge_sort_Permutation Z.le (elements s)). apply elem_of_elements.
Qed.

Lemma NoDup_sorted_elements (s : gset Z) : NoDup (sorted_elements s).
Proof.
  unfold sorted_elements.
  rewrite (merge_sort_Permutation Z.le (elements s)). apply NoDup_elements.
Qed.

Lemma length_sorted_elements (s : gset Z) : length (sorted_elements s) = size s.
Proof.
  unfold sorted_elements.
  by rewrite (merge_sort_Permutation Z.le (elements s)).
Qed.

#[export] Instance Zle_total : Total Z.le.
Proof. intros x y. lia. Qed.

Lemma sorted_elements_le (s : gset Z) : StronglySorted Z.le (sorted_elements s).
Proof.
  apply StronglySorted_merge_sort; [|apply _]. intros x y z. apply Z.le_trans.
Qed.

Lemma StronglySorted_le_lt (l : list Z) :
  NoDup l -> StronglySorted Z.le l -> StronglySorted Z.lt l.
Proof.
  induction l as [|x l IH]; intros Hnd Hs; [constructor|].
  apply NoDup_cons in Hnd as [Hx Hnd]. inversion Hs as [|? ? Hs' Hall]; subst.
  constructor; [by apply IH|].
  rewrite Forall_forall in Hall |- *. intros y Hy.
  specialize (Hall y Hy). assert (x <> y) by (by intros ->). lia.
Qed.

Lemma sorted_elements_lt (s : gset Z) : StronglySorted Z.lt (sorted_elements s).
Proof.
  apply StronglySorted_le_lt; [apply NoDup_sorted_elements|apply sorted_elements_le].
Qed.

(** The last element of a sorted list is its maximum. *)
Lemma last_sorted_max (l : list Z) m :
  StronglySorted Z.lt l -> last l = Some m -> m ∈ l /\ forall k, k ∈ l -> k <= m.
Proof.
  intros Hs. induction Hs as [|x l Hs IH Hall]; [done|]. rewrite last_cons.
  destruct (last l) as [y|] eqn:E; intros [= <-].
  - destruct (IH eq_refl) as [Hin Hle]. rewrite Forall_forall in Hall. split; [by right|].
    intros k [->|Hk]%elem_of_cons; [|by apply Hle]. specialize (Hall y Hin). lia.
  - apply last_None in E. subst l. split; [by left|]. intros k Hk%list_elem_of_singleton. lia.
Qed.

Lemma elem_of_sorted_keys {V} (m : gmap Z V) k : k ∈ sorted_keys m <-> is_Some (m !! k).
Proof. unfold sorted_keys. by rewrite elem_of_sorted_elements, elem_of_dom. Qed.

Lemma elem_of_sorted_entries {V} (m : gmap Z V) k v :
  (k, v) ∈ sorted_entries m <-> m !! k = Some v.
Proof.
  unfold sorted_entries. rewrite list_elem_of_omap. split.
  - intros (k' & _ & H). apply fmap_Some in H as (v' & Hv & ?). by simplify_eq.
  - intros H. exists k. split; [apply elem_of_sorted_keys; eauto|]. by rewrite H.
Qed.

Lemma sorted_entries_keys {V} (m : gmap Z V) : (sorted_entries m).*1 = sorted_keys m.
Proof.
  unfold sorted_entries.
  assert (forall l, (forall k, k ∈ l -> is_Some (m !! k)) ->
    (omap (fun k => pair k <$> m !! k) l).*1 = l) as Haux.
  { induction l as [|k l IH]; intros Hl; [done|]. simpl.
    destruct (Hl k ltac:(left)) as [v ->]. simpl. f_equal. apply IH.
    intros k' Hk'. apply Hl. by right. }
  apply Haux. intros k. apply elem_of_sorted_keys.
Qed.

Lemma elem_of_sorted_values {V} (m : gmap Z V) v :
  v ∈ sorted_values m <-> exists k, m !! k = Some v.
Proof.
  unfold sorted_values. rewrite list_elem_of_fmap. split.
  - intros ([k v'] & -> & H). exists k. by apply elem_of_sorted_entries.
  - intros [k H]. exists (k, v). split; [done|]. by apply elem_of_sorted_entries.
Qed.

(** The number of elements of [s] strictly below [x]: [s.range(..x).count()]. *)
Definition rank (s : gset Z) (x : Z) : nat :=
  length (filter (fun y => y < x) (sorted_elements s)).

Lemma filter_above (l : list Z) x :
  Forall (fun y => x <= y) l -> filter (fun y => y < x) l = [].
Proof.
  induction 1 as [|y l Hy Hl IH]; [done|]. rewrite filter_cons.
  rewrite decide_False by lia. done.
Qed.

Lemma sorted_lookup_rank_list (l : list Z) x :
  StronglySorted Z.lt l -> x ∈ l -> l !! length (filter (fun y => y < x) l) = Some x.
Proof.
  induction 1 as [|y l Hs IH Hall]; intros Hx; [by apply not_elem_of_nil in Hx|].
  rewrite filter_cons. apply elem_of_cons in Hx as [->|Hx].
  - rewrite decide_False by lia.
    rewrite filter_above; [done|].
    eapply Forall_impl; [exact Hall|]. simpl. lia.
  - rewrite Forall_forall in Hall. rewrite decide_True by (by apply Hall).
    simpl. by apply IH.
Qed.

(** The element of rank [rank s x] in ascending order is [x] itself. *)
Lemma sorted_lookup_rank (s : gset Z) x :
  x ∈ s -> sorted_elements s !! rank s x = Some x.
Proof.
  intros Hx. apply sorted_lookup_rank_list; [apply sorted_elements_lt|].
  by apply elem_of_sorted_elements.
Qed.

(** ** Counting in sets *)

Lemma subseteq_size_le (X Y : gset Z) : X ⊆ Y -> (size X <= size Y)%nat.
Proof. apply subseteq_size. Qed.

(** Two subsets of a set that together outnumber it share an element. *)
Lemma quorum_intersection (U X Y : gset Z) :
  X ⊆ U -> Y ⊆ U -> (size U < size X + size Y)%nat -> exists x, x ∈ X /\ x ∈ Y.
Proof.
  intros HX HY Hsz. destruct (decide (X ∩ Y = ∅)) as [He|Hne].
  - assert (size (X ∪ Y) = size X + size Y)%nat as Hu by (apply size_union; set_solver).
    pose proof (subseteq_size (X ∪ Y) U ltac:(set_solver)). lia.
  - apply set_choose_L in Hne as [x Hx]. exists x. set_solver.
Qed.

(** A subset at least as large as its superset is that superset. *)
Lemma subseteq_full (X Y : gset Z) : X ⊆ Y -> (size Y <= size X)%nat -> X = Y.
Proof. intros. by apply set_subseteq_size_eq. Qed.

(** ** Filtered lists *)

Lemma filter_fmap {A B} (f : A -> B) (P : B -> Prop) `{!forall x, Decision (P x)} (l : list A) :
  filter P (f <$> l) = f <$> filter (fun a => P (f a)) l.
Proof.
  induction l as [|a l IH]; [done|].
  rewrite fmap_cons, !filter_cons. case_decide; simpl; by rewrite IH.
Qed.

Lemma filter_ext_in {A} (P Q : A -> Prop) `{!forall x, Decision (P x)}
    `{!forall x, Decision (Q x)} (l : list A) :
  (forall x, x ∈ l -> P x <-> Q x) -> filter P l = filter Q l.
Proof.
  induction l as [|a l IH]; intros Hl; [done|].
  rewrite !filter_cons. rewrite IH by (intros x Hx; apply Hl; by right).
  pose proof (Hl a ltac:(left)). repeat case_decide; tauto.
Qed.

(** A filtered map keeps the keys that pass. *)
Lemma lookup_filter_true {V} (P : Z * V -> Prop) `{!forall e, Decision (P e)} (m : gmap Z V) k :
  (forall v, m !! k = Some v -> P (k, v)) -> filter P m !! k = m !! k.
Proof.
  intros HP. destruct (m !! k) as [v|] eqn:E.
  - apply map_lookup_filter_Some. auto.
  - apply map_lookup_filter_None. by left.
Qed.

Lemma filter_none {A} (P : A -> Prop) `{!forall x, Decision (P x)} (l : list A) :
  Forall (fun x => ~ P x) l -> filter P l = [].
Proof. induction 1 as [|x l Hx _ IH]; [done|]. by rewrite filter_cons, decide_False. Qed.

Lemma filter_every {A} (P : A -> Prop) `{!forall x, Decision (P x)} (l : list A) :
  Forall P l -> filter P l = l.
Proof. induction 1 as [|x l Hx _ IH]; [done|]. by rewrite filter_cons, decide_True, IH. Qed.

(** The position of an element in a list without duplicates. *)
Lemma list_find_eq_Some {A B} `{EqDecision B} (f : A -> B) (l : list A) a :
  a ∈ l -> (forall b, b ∈ l -> f b = f a -> b = a) ->
  exists i, fst <$> list_find (fun b => f b = f a) l = Some i /\ l !! i = Some a.
Proof.
  intros Ha Hinj.
  destruct (list_find (fun b => f b = f a) l) as [[i b]|] eqn:E.
  - apply list_find_Some in E as (Hb & Hf & _).
    assert (b = a) as -> by (apply Hinj; [by eapply list_elem_of_lookup_2|done]).
    by exists i.
  - apply list_find_None in E. rewrite Forall_forall in E. by destruct (E a Ha).
Qed.
