(* ===== verification/Text.v ===== *)
(** The parts of the standard library's strings and of its reading and writing of
    integers that the services rely on: [str::split_once], [str::strip_prefix],
    and the [FromStr] and [Display] of the unsigned integers. *)

From Stdlib Require Import String Ascii.
From S2P Require Import Prelude.

(** ** Pieces of strings *)

(** [str::split_once] for a character, of which [str::find] is the first half. *)
Fixpoint split_once (sep : ascii) (s : string) : option (string * string) :=
  match s with
  | EmptyString => None
  | String c s =>
      if ascii_dec c sep then Some (EmptyString, s)
      else '(a, b) ← split_once sep s; Some (String c a, b)
  end.
Definition strip_prefix (c : ascii) (s : string) : option string :=
  match s with String c' s => if ascii_dec c' c then Some s else None | EmptyString => None end.

Fixpoint all_chars (p : ascii -> bool) (s : string) : bool :=
  match s with EmptyString => true | String c s => p c && all_chars p s end.
Definition no_char (sep : ascii) (s : string) : bool := all_chars (fun c => if ascii_dec c sep then false else true) s.

Lemma app_cons_s c a b : (String c a ++ b)%string = String c (a ++ b)%string.
Proof. done. Qed.
Lemma app_assoc_s (a b c : string) : (a ++ b ++ c)%string = ((a ++ b) ++ c)%string.
Proof. induction a as [|x a IH]; [done|]. rewrite ?app_cons_s. simpl. by rewrite IH. Qed.
Lemma app_nil_s (a : string) : (a ++ EmptyString)%string = a.
Proof. induction a as [|x a IH]; [done|]. rewrite ?app_cons_s. simpl. by rewrite IH. Qed.
Lemma length_app_s (a b : string) : String.length (a ++ b)%string = (String.length a + String.length b)%nat.
Proof. induction a as [|x a IH]; [done|]. rewrite ?app_cons_s. simpl. by rewrite IH. Qed.

Lemma split_once_app sep a b : no_char sep a = true -> split_once sep (a ++ String sep b)%string = Some (a, b).
Proof.
  induction a as [|c a IH]; intros Ha; rewrite ?app_cons_s; simpl.
  - by destruct (ascii_dec sep sep).
  - unfold no_char in Ha. simpl in Ha. destruct (ascii_dec c sep); [done|]. by rewrite IH.
Qed.
Lemma split_once_None sep s : split_once sep s = None <-> no_char sep s = true.
Proof.
  induction s as [|c s IH]; [done|]. unfold no_char in *. simpl. destruct (ascii_dec c sep); [done|]. simpl.
  rewrite <- IH. by destruct (split_once sep s) as [[]|].
Qed.
Lemma split_once_Some sep s a b : split_once sep s = Some (a, b) -> s = (a ++ String sep b)%string /\ no_char sep a = true.
Proof.
  revert a. induction s as [|c s IH]; intros a Hs; [done|]. simpl in Hs. destruct (ascii_dec c sep) as [->|Hne].
  - by injection Hs as <- <-.
  - destruct (split_once sep s) as [[a' b']|]; [|done]. injection Hs as <- <-.
    destruct (IH a' eq_refl) as [-> Ha]. split; [done|]. unfold no_char in *. simpl. by destruct (ascii_dec c sep).
Qed.
Lemma strip_prefix_Some c s t : strip_prefix c s = Some t -> s = String c t.
Proof. destruct s as [|c' s]; [done|]. simpl. destruct (ascii_dec c' c) as [->|]; [|done]. by intros [= ->]. Qed.
Lemma strip_prefix_cons c t : strip_prefix c (String c t) = Some t.
Proof. simpl. by destruct (ascii_dec c c). Qed.

(** ** Numbers *)

Definition u32_max : Z := 4294967295.
Definition digit (d : Z) : ascii := ascii_of_N (Z.to_N (48 + d)).

(** The decimal notation of a number below [10 ^ fuel], before [rest]. *)
Fixpoint decimal_onto (fuel : nat) (n : Z) (rest : string) : string :=
  match fuel with
  | O => rest
  | S fuel =>
      let rest := String (digit (n mod 10)) rest in
      if decide (n < 10) then rest else decimal_onto fuel (n / 10) rest
  end.

(** [Display] of the unsigned integers; a [u64] has at most twenty digits. *)
Definition decimal (n : Z) : string := decimal_onto 20 n EmptyString.

(** The value of an ASCII digit. *)
Definition digit_value (c : ascii) : option Z :=
  let n := Z.of_N (N_of_ascii c) in
  if decide (48 <= n <= 57) then Some (n - 48) else None.

(** The digits of an integer up to [max], with its checked arithmetic. *)
Fixpoint parse_digits (max acc : Z) (s : string) : option Z :=
  match s with
  | EmptyString => Some acc
  | String c s =>
      d ← digit_value c;
      let acc := acc * 10 + d in
      if decide (acc <= max) then parse_digits max acc s else None
  end.

(** [str::parse] to an unsigned integer: an optional sign, then at least one digit. *)
Definition parse_uint (max : Z) (s : string) : option Z :=
  match s with
  | EmptyString => None
  | String c rest =>
      let s := if ascii_dec c "+" then rest else s in
      match s with EmptyString => None | _ => parse_digits max 0 s end
  end.
Abbreviation parse_u32 := (parse_uint u32_max).
Abbreviation parse_u64 := (parse_uint u64_max).

(** ** What is read is what is written *)

Fixpoint digits_only (s : string) : Prop :=
  match s with EmptyString => True | String c s => is_Some (digit_value c) /\ digits_only s end.

(** The number digits stand for, after those of [acc]. *)
Fixpoint value_onto (acc : Z) (s : string) : Z :=
  match s with
  | EmptyString => acc
  | String c s => value_onto (acc * 10 + default 0 (digit_value c)) s
  end.

Lemma digit_value_digit d : 0 <= d < 10 -> digit_value (digit d) = Some d.
Proof.
  intros Hd. unfold digit_value, digit. rewrite N_ascii_embedding by lia. rewrite Z2N.id by lia.
  rewrite decide_True by lia. f_equal. lia.
Qed.

Lemma digit_value_range c d : digit_value c = Some d -> 0 <= d < 10.
Proof. unfold digit_value. case_decide; [|done]. intros [= <-]. lia. Qed.

Lemma value_onto_ge acc s : 0 <= acc -> acc <= value_onto acc s.
Proof.
  revert acc. induction s as [|c s IH]; intros acc Ha; [simpl; lia|]. cbn [value_onto].
  assert (0 <= default 0 (digit_value c)) as Hd.
  { destruct (digit_value c) as [d|] eqn:E; simpl; [|lia]. apply digit_value_range in E. lia. }
  specialize (IH (acc * 10 + default 0 (digit_value c)) ltac:(lia)). lia.
Qed.

(** Reading digits is their value, or nothing when it does not fit. *)
Lemma parse_digits_Some max acc s n : 0 <= acc <= max ->
  parse_digits max acc s = Some n <-> digits_only s /\ value_onto acc s = n /\ n <= max.
Proof.
  revert acc. induction s as [|c s IH]; intros acc Ha; cbn [parse_digits digits_only value_onto].
  { split; [intros [= <-]; repeat split; lia|]. by intros (_ & -> & _). }
  destruct (digit_value c) as [d|] eqn:E; cbn [mbind option_bind default].
  - pose proof (digit_value_range _ _ E). case_decide as Hm.
    + rewrite IH by lia. naive_solver.
    + split; [done|]. intros (_ & Hv & Hn).
      pose proof (value_onto_ge (acc * 10 + d) s ltac:(lia)). simpl in Hv. lia.
  - split; [done|]. by intros ([[? [=]] _] & _).
Qed.

(** A text is read as [n] exactly when it is digits, after at most one sign, whose
    value is [n], and [n] fits. *)
Lemma parse_uint_Some max s n : 0 <= max ->
  parse_uint max s = Some n <->
  exists ds, (s = ds \/ s = String "+" ds) /\ ds <> EmptyString /\ digits_only ds /\ value_onto 0 ds = n /\ n <= max.
Proof.
  intros Hm. unfold parse_uint. destruct s as [|c s].
  { split; [done|]. by intros (ds & [<-|[=]] & ? & _). }
  destruct (ascii_dec c "+") as [->|Hc].
  - assert (forall t, digits_only (String "+" t) -> False) as Hsign by (by intros t [[? [=]] _]).
    destruct s as [|c' s].
    + split; [done|]. intros (ds & [<-|[= <-]] & ? & Hd & _); [|done]. by apply Hsign in Hd.
    + rewrite parse_digits_Some by lia. split.
      * intros Hp. exists (String c' s). naive_solver.
      * intros (ds & [<-|[= <-]] & ? & Hd & Hv); [by apply Hsign in Hd|done].
  - rewrite parse_digits_Some by lia. split.
    + intros Hp. exists (String c s). naive_solver.
    + intros (ds & [<-|[= -> _]] & ? & Hd & Hv); done.
Qed.

Lemma decimal_digits fuel n rest :
  0 <= n -> digits_only rest -> digits_only (decimal_onto fuel n rest).
Proof.
  revert n rest. induction fuel as [|fuel IH]; intros n rest Hn Hr; cbn [decimal_onto]; [done|].
  assert (digits_only (String (digit (n mod 10)) rest)) as Hd.
  { split; [|done]. eexists. apply digit_value_digit. lia. }
  case_decide; [done|]. apply IH; [lia|done].
Qed.

Lemma decimal_onto_cons fuel n c rest : exists c' s, decimal_onto fuel n (String c rest) = String c' s.
Proof.
  revert n c rest. induction fuel as [|fuel IH]; intros n c rest; cbn [decimal_onto]; [by eexists _, _|].
  case_decide; [by eexists _, _|]. apply IH.
Qed.

Lemma decimal_onto_S fuel n rest : exists c s, decimal_onto (S fuel) n rest = String c s.
Proof. cbn [decimal_onto]. case_decide; [by eexists _, _|]. apply decimal_onto_cons. Qed.

Lemma value_decimal fuel n rest : 0 <= n < 10 ^ Z.of_nat fuel -> (0 < fuel)%nat ->
  value_onto 0 (decimal_onto fuel n rest) = value_onto n rest.
Proof.
  revert n rest. induction fuel as [|fuel IH]; intros n rest Hn Hf; [lia|]. cbn [decimal_onto].
  assert (value_onto (n / 10) (String (digit (n mod 10)) rest) = value_onto n rest) as Hstep.
  { cbn [value_onto]. rewrite digit_value_digit by lia. f_equal. unfold default, from_option, id. lia. }
  rewrite Nat2Z.inj_succ, Z.pow_succ_r in Hn by lia. case_decide as Hlt.
  - rewrite <- Hstep. by rewrite (Z.div_small n 10) by lia.
  - rewrite <- Hstep. destruct fuel as [|fuel]; [simpl in Hn; lia|]. apply IH; lia.
Qed.

Lemma parse_decimal max n : 0 <= n <= max -> n <= u64_max -> parse_uint max (decimal n) = Some n.
Proof.
  intros Hn Hu. apply parse_uint_Some; [lia|]. exists (decimal n). split; [by left|]. split; [|split_and!].
  - unfold decimal. by destruct (decimal_onto_S 19 n EmptyString) as (c & s & ->).
  - apply decimal_digits; [lia|done].
  - unfold decimal. rewrite value_decimal; [done|lia|lia].
  - lia.
Qed.

Lemma digits_no_char c s : digit_value c = None -> digits_only s -> no_char c s = true.
Proof.
  intros Hc. unfold no_char. induction s as [|c' s IH]; [done|]. intros [[d Hd] Hs]. simpl.
  destruct (ascii_dec c' c) as [->|]; [by rewrite Hc in Hd|]. by apply IH.
Qed.
