(* ===== verification/Keccak.v ===== *)
(** The hash function every component shares: [alloy::primitives::keccak256],
    a third-party primitive, is the parameter of the class [Keccak]; nothing is
    assumed of it but its range. Where a property of the code rests on collision
    resistance, the theorem exhibits a collision among the strings the code
    hashed instead of excluding it. *)

From Stdlib Require String Ascii.
From S2P Require Import Prelude.

Class Keccak := { keccak256 : bytes -> Z }.

(** A digest is 32 bytes. *)
Class KeccakLaws `{Keccak} : Prop := {
  keccak256_range l : 0 <= keccak256 l < 2 ^ 256
}.

(** A text is hashed as its bytes; a function's selector is the first four bytes
    of the hash of its signature. *)
Fixpoint string_bytes (s : String.string) : bytes :=
  match s with
  | String.EmptyString => []
  | String.String c s => Z.of_N (Ascii.N_of_ascii c) :: string_bytes s
  end.
Definition selector `{Keccak} (signature : String.string) : bytes :=
  take 4 (be_bytes 32 (keccak256 (string_bytes signature))).

(** Two different strings of [strings] with the same digest. A digest is shorter
    than the strings it hashes, so collisions exist; what an adversary needs is
    one among the strings that were hashed, which the theorems name. *)
Definition collision_among `{Keccak} (strings : list bytes) : Prop :=
  exists a b, a ∈ strings /\ b ∈ strings /\ a <> b /\ keccak256 a = keccak256 b.

(** A string of [strings] whose digest is the zero word. *)
Definition zero_among `{Keccak} (strings : list bytes) : Prop :=
  exists a, a ∈ strings /\ keccak256 a = 0.

(** Equal digests come from equal strings, or from a collision of the two. *)
Lemma keccak256_inj_or_collision `{Keccak} (a b : bytes) :
  keccak256 a = keccak256 b -> a = b \/ collision_among [a; b].
Proof.
  intros He. destruct (decide (a = b)) as [->|Hne]; [by left|].
  right. exists a, b. split_and!; try done; set_solver.
Qed.

Lemma collision_among_mono `{Keccak} (l k : list bytes) :
  l ⊆ k -> collision_among l -> collision_among k.
Proof. intros Hs (a & b & Ha & Hb & Hne & He). exists a, b. set_solver. Qed.

Lemma zero_among_mono `{Keccak} (l k : list bytes) : l ⊆ k -> zero_among l -> zero_among k.
Proof. intros Hs (a & Ha & He). exists a. set_solver. Qed.

(** A concrete hash to evaluate the development on: a polynomial in the bytes of
    the string, modulo a prime. *)
#[local] Definition toy_digest (l : bytes) : Z :=
  foldl (fun h b => h * 257 + b + 1) 7 l mod (2 ^ 255 - 19).

Definition toy_keccak : Keccak := {| keccak256 := toy_digest |}.

Lemma toy_keccak_laws : @KeccakLaws toy_keccak.
Proof.
  constructor. intros l. unfold keccak256, toy_keccak, toy_digest.
  match goal with |- _ <= ?z mod ?p < _ => pose proof (Z.mod_pos_bound z p) end. lia.
Qed.
