(* ===== verification/Merkle.v ===== *)
(** Sorted-pair Keccak-256 Merkle trees, [crates/validator/src/merkle.rs]: the
    tree of the participants of a group and of the signers of a selection. *)

From S2P Require Import Prelude Keccak.

Section Merkle.
Context {KEC : Keccak}.

(** Hashes a pair of nodes with canonical (ascending) ordering. *)
Definition hash_pair (a b : Z) : Z :=
  let '(lo, hi) := if decide (a <= b) then (a, b) else (b, a) in
  keccak256 (be_bytes 32 lo ++ be_bytes 32 hi).

(** One round of pairing: the missing right node of the last pair is zero. *)
Definition next_level (level : list Z) : list Z :=
  let pairs := Nat.div2 (S (length level)) in
  (fun i => hash_pair (default 0 (level !! (i * 2)%nat))
                      (default 0 (level !! (i * 2 + 1)%nat))) <$> seq 0 pairs.

(** A Merkle tree: its levels, leaves first. *)
Abbreviation MerkleTree := (list (list Z)).

(** The levels above [level]: the loop of [MerkleTree::build]. *)
Fixpoint build_levels (fuel : nat) (level : list Z) : MerkleTree :=
  match fuel with
  | O => [level]
  | S fuel =>
      if decide (1 < length level)%nat
      then level :: build_levels fuel (next_level level)
      else [level]
  end.

(** [MerkleTree::build]. Every round at least halves the level, so as many
    rounds as there are leaves always reach the root ([build_reaches_root]). *)
Definition build (leaves : list Z) : MerkleTree := build_levels (length leaves) leaves.

Definition height (tree : MerkleTree) : nat := length tree.

Definition root (tree : MerkleTree) : Z := default 0 (last tree ≫= head).

(** The sibling hashes from [current] up to the root. *)
Fixpoint proof_path (levels : list (list Z)) (current : nat) : list Z :=
  match levels with
  | [] => []
  | level :: levels =>
      let sibling := Nat.lxor current 1 in
      default 0 (level !! sibling) :: proof_path levels (Nat.shiftr current 1)
  end.

Definition proof (tree : MerkleTree) (index : nat) : list Z :=
  proof_path (take (height tree - 1) tree) index.

(** [MerkleRoot::verify]. *)
Definition verify (root leaf : Z) (proof : list Z) : bool :=
  bool_decide (root = foldl hash_pair leaf proof).

(** ** The rounds of [build] *)

Lemma hash_pair_comm a b : hash_pair a b = hash_pair b a.
Proof.
  unfold hash_pair. repeat case_decide; try done; [|lia].
  by replace b with a by lia.
Qed.

Lemma length_next_level l : length (next_level l) = Nat.div2 (S (length l)).
Proof. unfold next_level. by rewrite length_fmap, length_seq. Qed.

Lemma next_level_shorter l : (1 < length l)%nat -> (length (next_level l) < length l)%nat.
Proof.
  intros. rewrite length_next_level, Nat.div2_div. apply Nat.Div0.div_lt_upper_bound. lia.
Qed.

Lemma next_level_lookup l i :
  (i < Nat.div2 (S (length l)))%nat ->
  next_level l !! i =
    Some (hash_pair (default 0 (l !! (i * 2)%nat)) (default 0 (l !! (i * 2 + 1)%nat))).
Proof.
  intros Hi. unfold next_level. rewrite list_lookup_fmap.
  rewrite (proj2 (lookup_seq 0 _ i i)); [done|lia].
Qed.

Lemma lxor_1_even k : Nat.lxor (2 * k) 1 = (2 * k + 1)%nat.
Proof.
  apply Nat.bits_inj. intros [|n]; rewrite Nat.lxor_spec.
  - by rewrite Nat.testbit_even_0, Nat.testbit_odd_0.
  - rewrite Nat.testbit_even_succ, Nat.testbit_odd_succ by lia.
    change 1%nat with (2 * 0 + 1)%nat. rewrite Nat.testbit_odd_succ by lia.
    by rewrite Nat.bits_0, xorb_false_r.
Qed.

Lemma lxor_1_odd k : Nat.lxor (2 * k + 1) 1 = (2 * k)%nat.
Proof. by rewrite <- lxor_1_even, Nat.lxor_assoc, Nat.lxor_nilpotent, Nat.lxor_0_r. Qed.

(** The parent of node [i] hashes it with its sibling. *)
Lemma next_level_parent l i x :
  l !! i = Some x ->
  next_level l !! Nat.shiftr i 1 =
    Some (hash_pair x (default 0 (l !! Nat.lxor i 1))).
Proof.
  intros Hx. pose proof (lookup_lt_Some _ _ _ Hx) as Hlt.
  rewrite Nat.shiftr_div_pow2. change (2 ^ 1)%nat with 2%nat.
  rewrite next_level_lookup.
  2: { rewrite Nat.div2_div. pose proof (Nat.div_mod_eq i 2).
       pose proof (Nat.div_mod_eq (S (length l)) 2).
       pose proof (Nat.mod_upper_bound i 2). pose proof (Nat.mod_upper_bound (S (length l)) 2).
       lia. }
  f_equal. pose proof (Nat.div_mod_eq i 2) as Hdm.
  destruct (Nat.Even_or_Odd i) as [[k Hk]|[k Hk]].
  - assert (i / 2 = k)%nat as -> by (rewrite Hk, Nat.mul_comm; by apply Nat.div_mul).
    replace (k * 2)%nat with i by lia. rewrite Hx.
    by rewrite Hk, lxor_1_even.
  - assert (i / 2 = k)%nat as ->.
    { rewrite Hk. rewrite Nat.mul_comm, Nat.div_add_l by lia. simpl. lia. }
    replace (k * 2 + 1)%nat with i by lia. rewrite Hx. rewrite hash_pair_comm. simpl.
    by rewrite Hk, lxor_1_odd, (Nat.mul_comm k 2).
Qed.

Lemma build_levels_cons fuel l : exists t, build_levels fuel l = l :: t.
Proof. destruct fuel; simpl; [eauto|]. case_decide; eauto. Qed.

Lemma build_levels_last fuel l :
  (length l <= fuel)%nat -> exists r, last (build_levels fuel l) = Some r /\ (length r <= 1)%nat.
Proof.
  revert l. induction fuel as [|fuel IH]; intros l Hl; simpl.
  { exists l. split; [done|lia]. }
  case_decide as Hd; [|exists l; split; [done|lia]].
  pose proof (next_level_shorter l Hd).
  destruct (IH (next_level l) ltac:(lia)) as (r & Hr & Hle).
  exists r. split; [|done]. rewrite last_cons. by rewrite Hr.
Qed.

Lemma root_cons l t : t <> [] -> root (l :: t) = root t.
Proof.
  intros Ht. unfold root. rewrite last_cons. destruct (last t) eqn:E; [done|].
  by apply last_None in E.
Qed.

Lemma proof_cons l t i :
  t <> [] -> proof (l :: t) i = default 0 (l !! Nat.lxor i 1) :: proof t (Nat.shiftr i 1).
Proof.
  intros Ht. unfold proof, height. destruct t as [|l' t]; [done|].
  simpl length. replace (S (S (length t)) - 1)%nat with (S (S (length t) - 1)) by lia. done.
Qed.

Lemma build_levels_proof fuel l i x :
  (length l <= fuel)%nat -> l !! i = Some x ->
  foldl hash_pair x (proof (build_levels fuel l) i) = root (build_levels fuel l).
Proof.
  revert l i x. induction fuel as [|fuel IH]; intros l i x Hl Hx.
  { apply lookup_lt_Some in Hx. lia. }
  pose proof (lookup_lt_Some _ _ _ Hx) as Hlt. simpl. case_decide as Hd.
  - pose proof (next_level_shorter l Hd).
    destruct (build_levels_cons fuel (next_level l)) as [t Ht].
    assert (build_levels fuel (next_level l) <> []) as Hne by (by rewrite Ht).
    rewrite root_cons, proof_cons by done. simpl.
    apply IH; [lia|]. by apply next_level_parent.
  - destruct l as [|y [|z l]]; simpl in *; [lia| |lia].
    destruct i; simplify_eq/=. done.
Qed.

Lemma length_proof tree i : length (proof tree i) = (height tree - 1)%nat.
Proof.
  unfold proof. assert (forall ls j, length (proof_path ls j) = length ls) as Hp.
  { induction ls as [|l ls IH]; intros j; simpl; [done|]. by rewrite IH. }
  rewrite Hp, length_take. unfold height. lia.
Qed.

(** ** Inclusion proofs are complete and sound *)

(** The string [hash_pair] hashes. *)
Definition pair_string (a b : Z) : bytes :=
  if decide (a <= b) then be_bytes 32 a ++ be_bytes 32 b else be_bytes 32 b ++ be_bytes 32 a.

(** The strings hashed to pair a level, to build a tree, and to verify a proof. *)
Definition level_strings (level : list Z) : list bytes :=
  (fun i => pair_string (default 0 (level !! (i * 2)%nat)) (default 0 (level !! (i * 2 + 1)%nat)))
  <$> seq 0 (Nat.div2 (S (length level))).
Definition tree_strings (tree : MerkleTree) : list bytes :=
  mjoin (level_strings <$> take (height tree - 1) tree).
Fixpoint proof_strings (leaf : Z) (proof : list Z) : list bytes :=
  match proof with
  | [] => []
  | sibling :: proof => pair_string leaf sibling :: proof_strings (hash_pair leaf sibling) proof
  end.

Lemma hash_pair_string a b : hash_pair a b = keccak256 (pair_string a b).
Proof. unfold hash_pair, pair_string. by case_decide. Qed.

(** A node of the level above is the hash of one of this level's strings, of two
    nodes each of which is in this level or the zero padding. *)
Lemma elem_of_next_level l y :
  y ∈ next_level l ->
  exists a b, y = hash_pair a b /\ pair_string a b ∈ level_strings l /\
    (a ∈ l \/ a = 0) /\ (b ∈ l \/ b = 0).
Proof.
  unfold next_level. intros (i & -> & Hi)%list_elem_of_fmap.
  assert (forall j : nat, default 0 (l !! j) ∈ l \/ default 0 (l !! j) = 0) as Hd.
  { intros j. destruct (l !! j) as [z|] eqn:E; simpl; [|by right].
    left. by eapply list_elem_of_lookup_2. }
  eexists _, _. split; [done|]. split; [|split; apply Hd].
  unfold level_strings. apply list_elem_of_fmap. eauto.
Qed.

Lemma hash_pair_inj_or_collision a b c d :
  is_u256 a -> is_u256 b -> is_u256 c -> is_u256 d ->
  hash_pair a b = hash_pair c d ->
  a = c \/ a = d \/ collision_among [pair_string a b; pair_string c d].
Proof.
  unfold is_u256. change (2 ^ 256) with (256 ^ Z.of_nat 32). intros Ha Hb Hc Hd He.
  rewrite !hash_pair_string in He. apply keccak256_inj_or_collision in He as [He|?]; [|tauto].
  unfold pair_string in He. repeat case_decide; apply be_bytes_app_inj in He as [H1 H2];
    apply be_bytes_inj in H1; try done; apply be_bytes_inj in H2; try done; tauto.
Qed.

(** What breaking a tree takes of the strings that were hashed. *)
Definition hash_broken (strings : list bytes) : Prop :=
  collision_among strings \/ zero_among strings.

Lemma hash_broken_mono l k : l ⊆ k -> hash_broken l -> hash_broken k.
Proof.
  intros Hs [Hc|Hz]; [left; by eapply collision_among_mono|right; by eapply zero_among_mono].
Qed.

Lemma node_range l a : Forall is_u256 l -> a ∈ l \/ a = 0 -> is_u256 a.
Proof.
  intros Hl [Ha| ->]; [by eapply Forall_forall in Ha|]. unfold is_u256. lia.
Qed.

Lemma tree_strings_cons l t : t <> [] -> tree_strings (l :: t) = level_strings l ++ tree_strings t.
Proof.
  intros Ht. unfold tree_strings, height. destruct t as [|k t]; [done|].
  simpl. by rewrite Nat.sub_0_r.
Qed.

Lemma hash_pair_range `{!KeccakLaws} a b : is_u256 (hash_pair a b).
Proof. rewrite hash_pair_string. apply keccak256_range. Qed.

Lemma next_level_nonempty l : l <> [] -> next_level l <> [].
Proof.
  intros Hl Hn. apply (f_equal length) in Hn. rewrite length_next_level in Hn.
  destruct l as [|? [|]]; [done| |]; simpl in Hn; lia.
Qed.

Lemma build_levels_sound `{!KeccakLaws} fuel l x p :
  (length l <= fuel)%nat -> l <> [] ->
  is_u256 x -> Forall is_u256 l -> Forall is_u256 p ->
  length p = (height (build_levels fuel l) - 1)%nat ->
  foldl hash_pair x p = root (build_levels fuel l) ->
  x ∈ l \/ x = 0 \/ hash_broken (proof_strings x p ++ tree_strings (build_levels fuel l)).
Proof.
  revert l x p. induction fuel as [|fuel IH]; intros l x p Hl Hne Hx Hall Hp Hlen Hf.
  { destruct l; simpl in *; [done|lia]. }
  simpl in Hlen, Hf |- *. case_decide as Hd.
  - pose proof (next_level_shorter l Hd) as Hsh.
    destruct (build_levels_cons fuel (next_level l)) as [t Ht].
    assert (build_levels fuel (next_level l) <> []) as Hb by (by rewrite Ht).
    rewrite root_cons in Hf by done. rewrite tree_strings_cons by done.
    unfold height in Hlen. rewrite Ht in Hlen. simpl in Hlen.
    destruct p as [|s p]; [done|]. simpl in Hlen, Hf. inversion Hp as [|? ? Hs Hp']; subst.
    assert (Forall is_u256 (next_level l)) as Hnl.
    { apply Forall_forall. intros y (a & b & -> & _)%elem_of_next_level. apply hash_pair_range. }
    assert (length p = (height (build_levels fuel (next_level l)) - 1)%nat) as Hlen'.
    { unfold height. rewrite Ht. simpl. lia. }
    destruct (IH (next_level l) (hash_pair x s) p ltac:(lia) (next_level_nonempty l Hne)
                (hash_pair_range _ _) Hnl Hp' Hlen' Hf) as [Hin|[Hz|Hbr]].
    + apply elem_of_next_level in Hin as (a & b & He & Hstr & Ha & Hb').
      pose proof (node_range _ _ Hall Ha) as Hra. pose proof (node_range _ _ Hall Hb') as Hrb.
      destruct (hash_pair_inj_or_collision x s a b Hx Hs Hra Hrb He) as [->|[->|Hcol]];
        [tauto|tauto|]. right; right; left. eapply collision_among_mono; [|exact Hcol].
      simpl. set_solver.
    + right; right; right. exists (pair_string x s). rewrite hash_pair_string in Hz.
      split; [simpl; set_solver|done].
    + right; right. eapply hash_broken_mono; [|exact Hbr]. simpl. set_solver.
  - unfold height in Hlen. simpl in Hlen. destruct p; [|done]. simpl in Hf.
    destruct l as [|y [|z l]]; simpl in *; [done| |lia].
    left. rewrite Hf. apply list_elem_of_singleton. done.
Qed.

(** [build] reaches a level of at most one node: its fuel is enough. *)
Lemma build_reaches_root (leaves : list Z) :
  exists r, last (build leaves) = Some r /\ (length r <= 1)%nat.
Proof. by apply build_levels_last. Qed.

(** Every leaf's proof verifies against the root. *)
Lemma proof_verifies (leaves : list Z) i x :
  leaves !! i = Some x -> verify (root (build leaves)) x (proof (build leaves) i) = true.
Proof.
  intros Hx. unfold verify. apply bool_decide_eq_true.
  symmetry. by apply build_levels_proof.
Qed.

Lemma build_nonempty fuel l r : l <> [] -> last (build_levels fuel l) = Some r -> r <> [].
Proof.
  revert l. induction fuel as [|fuel IH]; intros l Hl; simpl; [by intros [= <-]|].
  case_decide; [|by intros [= <-]]. rewrite last_cons.
  destruct (last (build_levels fuel (next_level l))) eqn:E; [|by apply last_None in E; destruct fuel; simpl in E; try case_decide].
  intros [= <-]. eapply IH; [|exact E]. by apply next_level_nonempty.
Qed.

(** C38: a Merkle tree is built in finitely many rounds, whatever its leaves, to a
    single root, and the proof at every leaf's index has the tree's height and
    verifies that leaf against the root. *)
Theorem merkle_proofs_verify (leaves : list Z) :
  leaves <> [] ->
  (exists r, last (build leaves) = Some [r] /\ root (build leaves) = r) /\
  forall i x, leaves !! i = Some x ->
    length (proof (build leaves) i) = (height (build leaves) - 1)%nat /\
    verify (root (build leaves)) x (proof (build leaves) i) = true.
Proof.
  intros Hne. split.
  - destruct (build_reaches_root leaves) as (r & Hr & Hle).
    pose proof (build_nonempty _ _ _ Hne Hr). destruct r as [|y [|]]; simpl in *; [done| |lia].
    exists y. split; [done|]. unfold root. by rewrite Hr.
  - intros i x Hx. split; [apply length_proof|by apply proof_verifies].
Qed.

(** Each level is the bottom of a tree of its own, to the same root. *)
Lemma build_levels_drop `{!KeccakLaws} i fuel l :
  (length l <= fuel)%nat -> l <> [] -> Forall is_u256 l -> (i < height (build_levels fuel l))%nat ->
  exists fuel' level, build_levels fuel l !! i = Some level /\
    (length level <= fuel')%nat /\ level <> [] /\ Forall is_u256 level /\
    height (build_levels fuel' level) = (height (build_levels fuel l) - i)%nat /\
    root (build_levels fuel' level) = root (build_levels fuel l) /\
    tree_strings (build_levels fuel' level) ⊆ tree_strings (build_levels fuel l).
Proof.
  revert fuel l. induction i as [|i IH]; intros fuel l Hl Hne Hall Hi.
  { exists fuel, l. destruct (build_levels_cons fuel l) as [t Ht]. split; [by rewrite Ht|]. split_and!; [done..|lia|done|done]. }
  destruct fuel as [|fuel]; simpl in Hi |- *; [unfold height in Hi; simpl in Hi; lia|].
  case_decide as Hd; [|unfold height in Hi; simpl in Hi; lia].
  pose proof (next_level_shorter l Hd) as Hsh. destruct (build_levels_cons fuel (next_level l)) as [t Ht].
  assert (build_levels fuel (next_level l) <> []) as Hb by (by rewrite Ht).
  assert (Forall is_u256 (next_level l)) as Hnl.
  { apply Forall_forall. intros y (a & b & -> & _)%elem_of_next_level. apply hash_pair_range. }
  destruct (IH fuel (next_level l)) as (fuel' & level & H1 & H2 & H3 & H4 & H5 & H6 & H7);
    [lia|by apply next_level_nonempty|done|unfold height in *; simpl in Hi; lia|].
  exists fuel', level. rewrite root_cons, tree_strings_cons by done.
  split_and!; [done..| |done|set_solver]. rewrite H5. unfold height. simpl. lia.
Qed.

Lemma proof_strings_app x p q : proof_strings x (p ++ q) = proof_strings x p ++ proof_strings (foldl hash_pair x p) q.
Proof. revert x. induction p as [|s p IH]; intros x; [done|]. simpl. by rewrite IH. Qed.

Lemma foldl_hash_range `{!KeccakLaws} x p : is_u256 x -> is_u256 (foldl hash_pair x p).
Proof. revert x. induction p as [|s p IH]; intros x Hx; [done|]. apply IH, hash_pair_range. Qed.

(** What a proof proves, whatever its length: the node it stands for, once the
    siblings below the leaves are hashed in, is on the level as far below the root
    as the proof is long. *)
Lemma verify_level `{!KeccakLaws} (leaves : list Z) x p :
  leaves <> [] -> is_u256 x -> Forall is_u256 leaves -> Forall is_u256 p ->
  verify (root (build leaves)) x p = true ->
  let top := (height (build leaves) - 1)%nat in
  let node := foldl hash_pair x (take (length p - top) p) in
  (exists level, build leaves !! (top - length p)%nat = Some level /\ (node ∈ level \/ node = 0)) \/
  hash_broken (proof_strings x p ++ tree_strings (build leaves)).
Proof.
  intros Hne Hx Hl Hp Hv top node. unfold verify in Hv. apply bool_decide_eq_true in Hv.
  assert (0 < height (build leaves))%nat as Hh.
  { unfold height, build. destruct (build_levels_cons (length leaves) leaves) as [t ->]. simpl. lia. }
  destruct (build_levels_drop (top - length p) (length leaves) leaves ltac:(done) Hne Hl) as
    (fuel & level & Hlev & Hlen & Hnl & Hall & Hhe & Hro & Hst); [unfold build in *; lia|].
  set (k := (length p - top)%nat) in *. assert (p = take k p ++ drop k p) as Hsplit by (by rewrite take_drop).
  rewrite Hsplit, foldl_app in Hv. rewrite Hsplit, Forall_app in Hp. destruct Hp as [Hp1 Hp2].
  assert (is_u256 node) as Hn by (by apply foldl_hash_range).
  destruct (build_levels_sound fuel level node (drop k p) Hlen Hnl Hn Hall Hp2) as [Hin|[Hz|Hb]].
  - rewrite length_drop, Hhe. unfold build in *. lia.
  - by rewrite Hro.
  - left. exists level. split; [done|by left].
  - left. exists level. split; [done|by right].
  - right. eapply hash_broken_mono; [|exact Hb].
    assert (proof_strings x p = proof_strings x (take k p) ++ proof_strings node (drop k p)) as ->
      by (unfold node; by rewrite <- proof_strings_app, take_drop).
    intros str. rewrite !elem_of_app. specialize (Hst str). unfold build. tauto.
Qed.

(** C39: a proof places its word on the level of the tree its length says. [verify]
    does not look at the length of a proof: a word with a valid proof of the tree's
    height is one of the leaves, with a shorter proof it is a node of the level as
    far below the root as the proof is long, and with a longer proof it is hashed up
    to one of the leaves; but for the zero padding, and unless the strings hashed to
    build the tree and to verify the proof contain a collision or a preimage of
    zero. *)
Theorem proof_sound `{!KeccakLaws} (leaves : list Z) x p :
  leaves <> [] -> is_u256 x -> Forall is_u256 leaves -> Forall is_u256 p ->
  verify (root (build leaves)) x p = true ->
  let top := (height (build leaves) - 1)%nat in
  let broken := hash_broken (proof_strings x p ++ tree_strings (build leaves)) in
  (length p = top -> x ∈ leaves \/ x = 0 \/ broken) /\
  ((length p < top)%nat ->
     (exists level, build leaves !! (top - length p)%nat = Some level /\ (x ∈ level \/ x = 0)) \/ broken) /\
  ((top < length p)%nat ->
     let node := foldl hash_pair x (take (length p - top) p) in node ∈ leaves \/ node = 0 \/ broken).
Proof.
  intros Hne Hx Hl Hp Hv top broken. pose proof (verify_level leaves x p Hne Hx Hl Hp Hv) as Hsound.
  fold top broken in Hsound. cbv zeta in Hsound.
  assert (build leaves !! 0%nat = Some leaves) as H0.
  { unfold build. by destruct (build_levels_cons (length leaves) leaves) as [t ->]. }
  split_and!; intros Hlen.
  - rewrite Hlen, Nat.sub_diag in Hsound. destruct Hsound as [(level & Hlev & Hin)|Hb]; [|tauto].
    rewrite H0 in Hlev. injection Hlev as <-. simpl in Hin. tauto.
  - replace (length p - top)%nat with 0%nat in Hsound by lia. exact Hsound.
  - cbv zeta. replace (top - length p)%nat with 0%nat in Hsound by lia. destruct Hsound as [(level & Hlev & Hin)|Hb]; [|tauto].
    rewrite H0 in Hlev. injection Hlev as <-. tauto.
Qed.

End Merkle.
