(* ===== verification/Epoch.v ===== *)
(** Epoch numbers and identifiers, [crates/validator/src/consensus/epoch.rs]. A
    [NonZeroU64] is the [Z] it denotes; that it is positive is part of the
    invariants. *)

From S2P Require Import Prelude.

(** The next epoch number for [block]: [NonZeroU64::MIN.saturating_add]. *)
Definition next_number (block blocks_per_epoch : Z) : Z :=
  let number := block / blocks_per_epoch in
  sat_add 1 number.

Module EpochId.

Inductive t := Genesis | Number (number : Z).

#[global] Instance eq_dec : EqDecision t.
Proof. solve_decision. Defined.

Definition from_raw (value : Z) : t := if decide (value = 0) then Genesis else Number value.

Definition raw_value (e : t) : Z := match e with Genesis => 0 | Number number => number end.

Definition number (e : t) : option Z :=
  match e with Genesis => None | Number number => Some number end.

(** [Ord::cmp]: epochs are ordered by their raw value. *)
Definition cmp (a b : t) : comparison := Z.compare (raw_value a) (raw_value b).

(** [Ord::min]. *)
Definition min (a b : t) : t := match cmp a b with Gt => b | _ => a end.

(** The identifiers the code can build: a [Number] is a non-zero [u64]. *)
Definition valid (e : t) : Prop :=
  match e with Genesis => True | Number number => 1 <= number <= u64_max end.

Lemma from_raw_raw_value e : valid e -> from_raw (raw_value e) = e.
Proof. destruct e; simpl; [done|]. intros. unfold from_raw. rewrite decide_False; [done|lia]. Qed.

Lemma raw_value_from_raw z : raw_value (from_raw z) = z.
Proof. unfold from_raw. case_decide; simpl; lia. Qed.

Lemma raw_value_inj a b : valid a -> valid b -> raw_value a = raw_value b -> a = b.
Proof.
  intros Ha Hb He. by rewrite <- (from_raw_raw_value a), <- (from_raw_raw_value b), He.
Qed.

Lemma raw_value_min a b : raw_value (min a b) = Z.min (raw_value a) (raw_value b).
Proof. unfold min, cmp. destruct (Z.compare_spec (raw_value a) (raw_value b)); lia. Qed.

Lemma from_raw_valid z : is_u64 z -> valid (from_raw z).
Proof. unfold from_raw, valid, is_u64. case_decide; lia. Qed.

End EpochId.

(** ** The block clock *)

Lemma next_number_pos block bpe : 0 <= block -> 0 < bpe -> 1 <= next_number block bpe.
Proof.
  intros. unfold next_number, sat_add. pose proof (Z.div_pos block bpe). lia.
Qed.

Lemma next_number_le block bpe : next_number block bpe <= u64_max.
Proof. apply sat_add_le. Qed.

Lemma next_number_mono b b' bpe :
  0 < bpe -> b <= b' -> next_number b bpe <= next_number b' bpe.
Proof.
  intros. unfold next_number, sat_add. pose proof (Z.div_le_mono b b' bpe). lia.
Qed.

(** The first block whose next epoch lies past [n] is the one epoch [n] starts at. *)
Lemma next_number_gt block bpe n :
  0 <= block -> 0 < bpe -> 0 <= n < u64_max ->
  n < next_number block bpe <-> n * bpe <= block.
Proof.
  intros Hb Hp Hn. unfold next_number, sat_add. split.
  - intros H. assert (n <= block / bpe) by lia.
    pose proof (Z.mul_div_le block bpe Hp). nia.
  - intros H. assert (n <= block / bpe) by (apply Z.div_le_lower_bound; lia). lia.
Qed.

(** Blocks and epochs agree. For any block the code can see, the next epoch is
    a valid identifier, it is the first whose first block is past this one (short
    of the largest representable epoch), it never goes back as blocks advance, and
    identifiers survive the raw encoding the contracts use, in order. *)
Theorem epoch_clock block block' blocks_per_epoch :
  is_u64 block -> is_u64 block' -> 1 <= blocks_per_epoch <= u64_max -> block <= block' ->
  let n := next_number block blocks_per_epoch in
  EpochId.valid (EpochId.Number n) /\ n <= next_number block' blocks_per_epoch /\
  (n < u64_max -> (n - 1) * blocks_per_epoch <= block < n * blocks_per_epoch) /\
  (forall e, EpochId.valid e -> EpochId.from_raw (EpochId.raw_value e) = e) /\
  (forall e e', EpochId.valid e -> EpochId.valid e' ->
     EpochId.min e e' = e <-> EpochId.raw_value e <= EpochId.raw_value e').
Proof.
  intros Hb Hb' Hp Hle n. unfold is_u64 in *.
  pose proof (next_number_pos block blocks_per_epoch) as Hpos.
  pose proof (next_number_le block blocks_per_epoch) as Hmax.
  pose proof (next_number_mono block block' blocks_per_epoch) as Hmono.
  pose proof (next_number_gt block blocks_per_epoch n) as Hgt.
  pose proof (next_number_gt block blocks_per_epoch (n - 1)) as Hgt'.
  split_and!; [subst n; simpl; lia|subst n; lia|subst n; lia|by intros; apply EpochId.from_raw_raw_value|].
  intros e e' He He'. pose proof (EpochId.raw_value_min e e') as Hm. split.
  - intros H. rewrite H in Hm. lia.
  - intros H. unfold EpochId.min, EpochId.cmp. destruct (Z.compare_spec (EpochId.raw_value e) (EpochId.raw_value e')); [done..|lia].
Qed.
