(* ===== verification/Group.v ===== *)
(** Key-generation group derivation, [crates/validator/src/consensus/group.rs]:
    the participant set of an epoch, its thresholds, and the deterministic group
    identifier the validators and the coordinator contract agree on. *)

From S2P Require Import Prelude Keccak Merkle Epoch.

(** [config::Participant]: an account and the epoch window it is active in. *)
Record Participant := {
  address : Z;
  active_from : Z;
  active_before : option Z
}.

(** [group::Epoch]: what a participant set is computed for. *)
Module GroupEpoch.
Inductive t :=
| Genesis (salt : Z)
| Number (consensus number : Z) (excluded : gset Z).
End GroupEpoch.

(** The FROST signing threshold for a group of [count] participants. *)
Definition group_threshold (count : Z) : Z := count / 2 + 1.

(** The minimum number of participants for a viable group, computed in 32 bits
    and cast back to 16. *)
Definition min_participants (count : Z) : Z :=
  let min := wrap_u16 (count * 2 / 3 + 1) in
  Z.max 2 min.

(** A participant set. *)
Record ParticipantSet := {
  addresses : gset Z;
  set_excluded : gset Z;
  set_context : Z
}.

(** A key generation group. *)
Record Group := {
  id : Z;
  group_root : Z;
  participants : gset Z;
  excluded : gset Z;
  count : Z;
  threshold : Z;
  context : Z
}.

#[export] Instance Group_eq_dec : EqDecision Group.
Proof. solve_decision. Defined.

Definition parameters (g : Group) : Z * Z * Z * Z :=
  (group_root g, count g, threshold g, context g).

Definition size_of (g : Group) : Z * Z := (count g, threshold g).

(** [Group::also_exclude]. *)
Definition also_exclude (g : Group) (also_excluded : gset Z) : gset Z :=
  excluded g ∪ also_excluded.

(** [Group::exclude_all_others]. *)
Definition exclude_all_others (g : Group) (include_only : list Z) : gset Z :=
  let to_exclude := foldl (fun s include => s ∖ {[include]}) (participants g) include_only in
  also_exclude g to_exclude.

Section Group.
Context {KEC : Keccak}.

(** [abi.encode(bytes32, uint16, uint16, bytes32)], hashed, its low 64 bits
    masked to zero. *)
Definition group_id (participants_root count threshold context : Z) : Z :=
  let buffer :=
    be_bytes 32 participants_root
      ++ repeat 0 30 ++ be_bytes 2 count
      ++ repeat 0 30 ++ be_bytes 2 threshold
      ++ be_bytes 32 context in
  Z.shiftl (Z.shiftr (keccak256 buffer) 64) 64.

(** [encodePacked(uint32 version, address consensus, uint64 epoch)]. *)
Definition group_context (consensus epoch : Z) : Z :=
  from_be (be_bytes 4 0 ++ be_bytes 20 consensus ++ be_bytes 8 epoch).

(** The bytes of ["genesis"]. *)
Definition genesis_prefix : bytes := [103; 101; 110; 101; 115; 105; 115].

Definition genesis_context (salt : Z) : Z :=
  if decide (salt = 0) then 0 else keccak256 (genesis_prefix ++ be_bytes 32 salt).

(** Whether [p] is in the default set of [epoch]. *)
Definition is_active (epoch : GroupEpoch.t) (p : Participant) : bool :=
  match epoch with
  | GroupEpoch.Genesis _ => bool_decide (active_from p = 0)
  | GroupEpoch.Number _ number _ =>
      bool_decide (active_from p <= number) &&
      match active_before p with None => true | Some before => bool_decide (number < before) end
  end.

(** The addresses, the exclusions and the context an epoch starts from. *)
Definition default_set (ps : list Participant) (epoch : GroupEpoch.t) : gset Z * gset Z * Z :=
  let addresses := list_to_set (address <$> filter (fun p => is_active epoch p = true) ps) in
  match epoch with
  | GroupEpoch.Genesis salt => (addresses, ∅, genesis_context salt)
  | GroupEpoch.Number consensus number excluded => (addresses, excluded, group_context consensus number)
  end.

(** [u16::try_from] of a set's size. *)
Definition u16_size (s : gset Z) : option Z :=
  if decide (Z.of_nat (size s) <= u16_max) then Some (Z.of_nat (size s)) else None.

(** [group::participants_set]. *)
Definition participants_set (ps : list Participant) (epoch : GroupEpoch.t) : option ParticipantSet :=
  let '(addresses, excluded, context) := default_set ps epoch in
  total ← u16_size addresses;
  let addresses := addresses ∖ excluded in
  count ← u16_size addresses;
  if decide (min_participants total <= count) then
    Some {| addresses := addresses; set_excluded := excluded; set_context := context |}
  else None.

(** The participants tree over the sorted addresses. *)
Definition participants_tree (participants : gset Z) : list (list Z) :=
  build (sorted_elements participants).

(** [ParticipantSet::group_and_participants_tree]. The [expect] on the length
    never fires: a set is only built with a size that fits ([participants_set_u16]). *)
Definition group_and_participants_tree (s : ParticipantSet) : Group * list (list Z) :=
  let tree := participants_tree (addresses s) in
  let count := Z.of_nat (size (addresses s)) in
  let threshold := group_threshold count in
  let context := set_context s in
  ({| id := group_id (root tree) count threshold context;
      group_root := root tree;
      participants := addresses s;
      excluded := set_excluded s;
      count := count;
      threshold := threshold;
      context := context |}, tree).

Definition group (s : ParticipantSet) : Group := (group_and_participants_tree s).1.

(** [ParticipantSet::participate_as]: the group and the proof of participation. *)
Definition participate_as (s : ParticipantSet) (address : Z) : option (Group * list Z) :=
  if decide (address ∈ addresses s) then
    let index := rank (addresses s) address in
    let '(group, tree) := group_and_participants_tree s in
    Some (group, proof tree index)
  else None.

(** ** Thresholds *)

Lemma group_threshold_majority c : 0 <= c -> c < 2 * group_threshold c.
Proof. intros. unfold group_threshold. lia. Qed.

Lemma group_threshold_le c : 2 <= c -> group_threshold c <= c.
Proof. intros. unfold group_threshold. lia. Qed.

Lemma min_participants_spec c :
  0 <= c <= u16_max -> min_participants c = Z.max 2 (2 * c / 3 + 1).
Proof.
  intros Hc. unfold min_participants. rewrite wrap_u16_small, (Z.mul_comm c 2); [done|].
  unfold is_u16. lia.
Qed.

Lemma min_participants_two_thirds c n :
  0 <= c <= u16_max -> min_participants c <= n -> 2 <= n /\ 2 * c < 3 * n.
Proof.
  intros Hc. rewrite min_participants_spec by done. intros.
  lia.
Qed.

(** ** Participant sets *)

Lemma u16_size_Some (s : gset Z) n : u16_size s = Some n <-> n = Z.of_nat (size s) /\ n <= u16_max.
Proof.
  unfold u16_size. case_decide as Hd; split.
  - intros [= <-]. done.
  - by intros [-> _].
  - done.
  - intros [-> ?]. lia.
Qed.

(** The default participants of an epoch. *)
Definition default_addresses (ps : list Participant) (epoch : GroupEpoch.t) : gset Z :=
  (default_set ps epoch).1.1.

Lemma participants_set_Some ps epoch s :
  participants_set ps epoch = Some s <->
  s = {| addresses := default_addresses ps epoch ∖ (default_set ps epoch).1.2;
         set_excluded := (default_set ps epoch).1.2;
         set_context := (default_set ps epoch).2 |} /\
  Z.of_nat (size (default_addresses ps epoch)) <= u16_max /\
  min_participants (Z.of_nat (size (default_addresses ps epoch))) <= Z.of_nat (size (addresses s)).
Proof.
  unfold participants_set, default_addresses. destruct (default_set ps epoch) as [[a x] c]. simpl.
  assert (size (a ∖ x) <= size a)%nat as Hsz by (apply subseteq_size; set_solver).
  split.
  - intros (t & Ht & Hb)%bind_Some. apply bind_Some in Hb as (n & Hn & Hb).
    apply u16_size_Some in Ht as [-> Ht], Hn as [-> Hn]. case_decide; simplify_eq. done.
  - intros (-> & Ht & Hm). simpl in Hm.
    assert (u16_size a = Some (Z.of_nat (size a))) as -> by (by apply u16_size_Some).
    assert (u16_size (a ∖ x) = Some (Z.of_nat (size (a ∖ x)))) as ->
      by (apply u16_size_Some; lia).
    simpl. by rewrite decide_True.
Qed.

(** What every group the code derives satisfies. *)
Record group_ok (g : Group) : Prop := {
  ok_count : count g = Z.of_nat (size (participants g));
  ok_u16 : count g <= u16_max;
  ok_two : 2 <= count g;
  ok_threshold : threshold g = group_threshold (count g);
  ok_root : group_root g = root (participants_tree (participants g));
  ok_id : id g = group_id (group_root g) (count g) (threshold g) (context g);
  ok_disjoint : participants g ## excluded g
}.

Lemma participants_set_u16 ps epoch s :
  participants_set ps epoch = Some s ->
  2 <= Z.of_nat (size (addresses s)) <= u16_max /\ addresses s ## set_excluded s.
Proof.
  intros (-> & Ht & Hm)%participants_set_Some. simpl in *.
  assert (size (default_addresses ps epoch ∖ (default_set ps epoch).1.2)
          <= size (default_addresses ps epoch))%nat as Hsz by (apply subseteq_size; set_solver).
  split; [|set_solver].
  apply min_participants_two_thirds in Hm; lia.
Qed.

Lemma group_ok_group ps epoch s : participants_set ps epoch = Some s -> group_ok (group s).
Proof.
  intros Hset. apply participants_set_u16 in Hset as [Hs Hd].
  split; simpl; try done; lia.
Qed.

Lemma participate_as_Some s a g poap :
  participate_as s a = Some (g, poap) ->
  a ∈ addresses s /\ g = group s /\
  poap = proof (participants_tree (addresses s)) (rank (addresses s) a).
Proof. unfold participate_as. intros. case_decide; simplify_eq/=. done. Qed.

Lemma participate_as_is_Some s a : is_Some (participate_as s a) <-> a ∈ addresses s.
Proof.
  unfold participate_as. case_decide as Hd; simpl; split; intros H; eauto; [|done].
  by destruct H.
Qed.

Lemma foldl_difference (l : list Z) (s : gset Z) x :
  x ∈ foldl (fun s i => s ∖ {[i]}) s l <-> x ∈ s /\ x ∉ l.
Proof.
  revert s. induction l as [|y l IH]; intros s; simpl.
  { set_solver. }
  rewrite IH. set_solver.
Qed.

Lemma elem_of_exclude_all_others g l x :
  x ∈ exclude_all_others g l <-> x ∈ excluded g \/ (x ∈ participants g /\ x ∉ l).
Proof.
  unfold exclude_all_others, also_exclude. by rewrite elem_of_union, foldl_difference.
Qed.

Lemma group_threshold_range g :
  group_ok g -> 2 <= threshold g <= count g /\ count g < 2 * threshold g.
Proof.
  intros [? ? ? Ht _ _]. rewrite Ht.
  pose proof (group_threshold_le (count g)). pose proof (group_threshold_majority (count g)).
  unfold group_threshold in *. lia.
Qed.

Lemma group_id_low_bits r c t x : Z.land (group_id r c t x) (Z.ones 64) = 0.
Proof.
  unfold group_id. apply Z.bits_inj'. intros n Hn.
  rewrite Z.land_spec, Z.bits_0. destruct (decide (n < 64)).
  - by rewrite Z.shiftl_spec_low by lia.
  - by rewrite Z.ones_spec_high, andb_false_r by lia.
Qed.

Lemma group_context_inj c c' e e' :
  0 <= c < 2 ^ 160 -> 0 <= c' < 2 ^ 160 -> is_u64 e -> is_u64 e' ->
  group_context c e = group_context c' e' -> c = c' /\ e = e'.
Proof.
  unfold group_context, is_u64. intros Hc Hc' He He' H.
  rewrite !from_be_app, !length_app, !length_be_bytes, !from_be_be_bytes_mod in H.
  change (0 mod 256 ^ Z.of_nat 4) with 0 in H.
  change (256 ^ Z.of_nat 20) with (2 ^ 160) in H. change (256 ^ Z.of_nat 8) with (2 ^ 64) in H.
  rewrite !Z.mod_small in H by lia. lia.
Qed.

(** The hashed parameters of a group. *)
Definition group_buffer (participants_root count threshold context : Z) : bytes :=
  be_bytes 32 participants_root
    ++ repeat 0 30 ++ be_bytes 2 count
    ++ repeat 0 30 ++ be_bytes 2 threshold
    ++ be_bytes 32 context.

Lemma group_buffer_inj r c t x r' c' t' x' :
  is_u256 r -> is_u256 r' -> is_u16 c -> is_u16 c' -> is_u16 t -> is_u16 t' ->
  is_u256 x -> is_u256 x' ->
  group_buffer r c t x = group_buffer r' c' t' x' -> r = r' /\ c = c' /\ t = t' /\ x = x'.
Proof.
  unfold is_u256, is_u16. intros Hr Hr' Hc Hc' Ht Ht' Hx Hx' H. unfold group_buffer in H.
  apply be_bytes_app_inj in H as [H1 H]. apply app_inv_head, be_bytes_app_inj in H as [H2 H].
  apply app_inv_head, be_bytes_app_inj in H as [H3 H4].
  change (2 ^ 256) with (256 ^ Z.of_nat 32) in *.
  split_and!; eapply be_bytes_inj; try done; change (256 ^ Z.of_nat 2) with 65536; lia.
Qed.

(** A viable group can sign, and cannot sign twice. A participant set is only
    built for more than two thirds of the participants configured for the epoch,
    and at least two; its group's threshold is reachable, and any two quorums of
    it share a participant. A set is refused exactly when there are too few
    participants, or too many to count. *)
Theorem participants_set_viable ps epoch :
  let all := default_addresses ps epoch in
  let excl := (default_set ps epoch).1.2 in
  match participants_set ps epoch with
  | Some s =>
      participants (group s) = all ∖ excl /\ excluded (group s) = excl /\
      2 * Z.of_nat (size all) < 3 * count (group s) /\
      count (group s) = Z.of_nat (size (participants (group s))) /\
      2 <= threshold (group s) <= count (group s) /\
      forall X Y, X ⊆ participants (group s) -> Y ⊆ participants (group s) ->
        threshold (group s) <= Z.of_nat (size X) -> threshold (group s) <= Z.of_nat (size Y) ->
        exists a, a ∈ X /\ a ∈ Y
  | None =>
      u16_max < Z.of_nat (size all) \/ Z.of_nat (size (all ∖ excl)) < 2 \/
      3 * Z.of_nat (size (all ∖ excl)) <= 2 * Z.of_nat (size all)
  end.
Proof.
  intros all excl. destruct (participants_set ps epoch) as [s|] eqn:E.
  - pose proof (group_ok_group _ _ _ E) as Hok. apply participants_set_Some in E as (Hs & Hu & Hm).
    pose proof (group_threshold_range _ Hok) as [Ht Hmaj]. pose proof (ok_count _ Hok) as Hc.
    apply min_participants_two_thirds in Hm; [|lia].
    split; [by rewrite Hs|]. split; [by rewrite Hs|]. split; [rewrite Hc; apply Hm|].
    split; [done|]. split; [done|]. intros X Y HX HY HtX HtY.
    eapply quorum_intersection; [exact HX|exact HY|lia].
  - destruct (decide (Z.of_nat (size all) <= u16_max)) as [Hu|]; [|left; lia]. right.
    destruct (decide (min_participants (Z.of_nat (size all)) <= Z.of_nat (size (all ∖ excl)))) as [H|H].
    + exfalso. assert (is_Some (participants_set ps epoch)) as [s Hs]; [|congruence].
      eexists. apply participants_set_Some. split; [reflexivity|]. by split.
    + rewrite min_participants_spec in H by lia. lia.
Qed.

(** A participant can prove that it is one. Exactly the members of a set take
    part, and the proof they publish places their address under the participants
    root their group's identifier commits to. *)
Theorem participation_proved ps epoch s a :
  participants_set ps epoch = Some s ->
  (a ∈ participants (group s) <-> is_Some (participate_as s a)) /\
  forall g poap, participate_as s a = Some (g, poap) ->
    g = group s /\ verify (group_root g) a poap = true.
Proof.
  intros Hs. split; [by rewrite participate_as_is_Some|].
  intros g poap (Ha & -> & ->)%participate_as_Some. split; [done|].
  apply proof_verifies. by apply sorted_lookup_rank.
Qed.

(** The group identifier binds the group. Its low 64 bits are free for the
    coordinator, and two groups of one identifier have the same participants root,
    count, threshold and context, unless the strings hashed for them collide in
    the 192 bits kept; for groups of numbered epochs the same context is the same
    contract and epoch. *)
Theorem group_id_binds r c t x r' c' t' x' :
  is_u256 r -> is_u256 r' -> is_u16 c -> is_u16 c' -> is_u16 t -> is_u16 t' ->
  is_u256 x -> is_u256 x' ->
  Z.land (group_id r c t x) (Z.ones 64) = 0 /\
  (group_id r c t x = group_id r' c' t' x' ->
   (r = r' /\ c = c' /\ t = t' /\ x = x') \/
   (group_buffer r c t x <> group_buffer r' c' t' x' /\
    keccak256 (group_buffer r c t x) / 2 ^ 64 = keccak256 (group_buffer r' c' t' x') / 2 ^ 64)) /\
  (forall k k' e e', 0 <= k < 2 ^ 160 -> 0 <= k' < 2 ^ 160 -> is_u64 e -> is_u64 e' ->
   x = group_context k e -> x' = group_context k' e' -> x = x' -> k = k' /\ e = e').
Proof.
  intros Hr Hr' Hc Hc' Ht Ht' Hx Hx'. split; [apply group_id_low_bits|]. split.
  - unfold group_id. intros H.
    destruct (decide (group_buffer r c t x = group_buffer r' c' t' x')) as [He|He];
      [left; by apply group_buffer_inj|right; split; [done|]].
    rewrite <-!Z.shiftr_div_pow2 by lia. rewrite !Z.shiftl_mul_pow2 in H by lia.
    by apply Z.mul_cancel_r in H.
  - intros k k' e e' Hk Hk' He He' -> -> H. by apply group_context_inj.
Qed.

End Group.
