(* ===== verification/Bindings.v ===== *)
(** The contract types, events and calls of [crates/validator/src/bindings.rs],
    field by field. The ABI encoding of a call is produced by the [sol!] macro,
    a third-party code generator: it is the parameter [Abi]. *)

From S2P Require Import Prelude.

(** ** Structs shared by events and calls *)

Module Sol.

Record Point := MkPoint { x : Z; y : Z }.

Record Signature := MkSignature { sig_r : Point; sig_z : Z }.

Inductive Operation := CALL | DELEGATECALL.

(** [tx.operation as u8]. *)
Definition operation_byte (o : Operation) : Z := match o with CALL => 0 | DELEGATECALL => 1 end.

Record SafeTransaction := MkSafeTransaction {
  chainId : Z; safe : Z; to : Z; value : Z; data : bytes; operation : Operation;
  safeTxGas : Z; baseGas : Z; gasPrice : Z; gasToken : Z; refundReceiver : Z; nonce : Z
}.

Record KeyGenCommitment := MkKeyGenCommitment {
  q : Point; pop : Signature; c : list Point; pok : Signature
}.

Record KeyGenSecretShare := MkKeyGenSecretShare { share_y : Point; share_f : list Z }.

Record SignNonces := MkSignNonces { d : Point; e : Point }.

Record SignSelection := MkSignSelection { selection_r : Point; selection_root : Z }.

Record SignatureShare := MkSignatureShare { r : Point; z : Z; l : Z }.

Record Callback := MkCallback { target : Z; callback_context : bytes }.

#[export] Instance Point_eq_dec : EqDecision Point.
Proof. solve_decision. Defined.
#[export] Instance Callback_eq_dec : EqDecision Callback.
Proof. solve_decision. Defined.

End Sol.

(** ** The events the validator watches *)

Module Consensus.
Record EpochStaged := {
  es_activeEpoch : Z; es_proposedEpoch : Z; es_rolloverBlock : Z; es_groupId : Z;
  es_groupKey : Sol.Point; es_signatureId : Z; es_attestation : Sol.Signature
}.
Record TransactionProposed := {
  tp_safeTxHash : Z; tp_safeId : Z; tp_oracle : Z; tp_epoch : Z;
  tp_oracleData : bytes; tp_transaction : Sol.SafeTransaction
}.
Record TransactionAttested := {
  ta_safeTxHash : Z; ta_safeId : Z; ta_oracle : Z; ta_epoch : Z;
  ta_oracleDataHash : Z; ta_signatureId : Z; ta_attestation : Sol.Signature
}.
Record EpochProposed := {
  ep_activeEpoch : Z; ep_proposedEpoch : Z; ep_rolloverBlock : Z; ep_groupId : Z;
  ep_groupKey : Sol.Point
}.
Record ValidatorStakerSet := { vs_validator : Z; vs_staker : Z }.
Inductive ConsensusEvents :=
| EpochProposedEvent (e : EpochProposed)
| EpochStagedEvent (e : EpochStaged)
| TransactionProposedEvent (e : TransactionProposed)
| TransactionAttestedEvent (e : TransactionAttested)
| ValidatorStakerSetEvent (e : ValidatorStakerSet).
End Consensus.

Module Coordinator.
Record KeyGen := {
  kg_gid : Z; kg_participants : Z; kg_count : Z; kg_threshold : Z; kg_context : Z
}.
Record KeyGenCommitted := {
  kc_gid : Z; kc_participant : Z; kc_commitment : Sol.KeyGenCommitment; kc_committed : bool
}.
Record KeyGenSecretShared := {
  ks_gid : Z; ks_participant : Z; ks_share : Sol.KeyGenSecretShare; ks_shared : bool
}.
Record KeyGenConfirmed := { kf_gid : Z; kf_participant : Z; kf_confirmed : bool }.
Record KeyGenComplained := {
  kp_gid : Z; kp_plaintiff : Z; kp_accused : Z; kp_compromised : bool
}.
Record KeyGenComplaintResponded := {
  kr_gid : Z; kr_plaintiff : Z; kr_accused : Z; kr_secretShare : Z
}.
Record Sign := {
  sg_initiator : Z; sg_gid : Z; sg_message : Z; sg_sid : Z; sg_sequence : Z
}.
Record SignCommittedNonces := { sn_sid : Z; sn_participant : Z; sn_nonces : Sol.SignNonces }.
Record SignShared := {
  ss_sid : Z; ss_selectionRoot : Z; ss_participant : Z; ss_z : Z
}.
Record SignCompleted := { sc_sid : Z; sc_selectionRoot : Z; sc_signature : Sol.Signature }.
Inductive CoordinatorEvents :=
| KeyGenEvent (e : KeyGen)
| KeyGenCommittedEvent (e : KeyGenCommitted)
| KeyGenSecretSharedEvent (e : KeyGenSecretShared)
| KeyGenConfirmedEvent (e : KeyGenConfirmed)
| KeyGenComplainedEvent (e : KeyGenComplained)
| KeyGenComplaintRespondedEvent (e : KeyGenComplaintResponded)
| SignEvent (e : Sign)
| SignCommittedNoncesEvent (e : SignCommittedNonces)
| SignSharedEvent (e : SignShared)
| SignCompletedEvent (e : SignCompleted).
End Coordinator.

Module Oracle.
Record OracleResult := {
  or_requestId : Z; or_proposer : Z; or_result : bytes; or_approved : bool
}.
End Oracle.

(** ** Calls *)

Inductive Call :=
| keyGenAndCommitCall (participants count threshold context : Z) (poap : list Z)
    (commitment : Sol.KeyGenCommitment)
| keyGenSecretShareCall (gid : Z) (share : Sol.KeyGenSecretShare)
| keyGenComplainCall (gid accused : Z)
| keyGenComplaintResponseCall (gid plaintiff secretShare : Z)
| keyGenConfirmCall (gid : Z)
| keyGenConfirmWithCallbackCall (gid : Z) (callback : Sol.Callback)
| signCall (gid message : Z)
| signCommitNoncesCall (sid : Z) (nonces : Sol.SignNonces)
| signShareWithCallbackCall (sid : Z) (selection : Sol.SignSelection) (share : Sol.SignatureShare)
    (proof : list Z) (callback : Sol.Callback)
| attestTransactionCall (epoch oracle oracleDataHash chainId safe safeTxStructHash signatureId : Z)
| stageEpochCall (proposedEpoch rolloverBlock groupId signatureId : Z)
| setValidatorStakerCall (staker : Z).

Class Abi := {
  abi_encode : Call -> bytes;
  (** [(u64, u64)::abi_encode]. *)
  abi_encode_u64_pair : Z -> Z -> bytes
}.
