(* ===== verification/FrostLib.v ===== *)
(** The third-party cryptography the validator is built on ([frost_secp256k1],
    [frost_core], [k256]), as parameters: nothing here is defined, and nothing
    is assumed beyond the laws of [FrostLaws], each the documented behaviour of
    one function. A FROST [Identifier] and a [[u8; 32]] are the integers they
    encode. *)

From S2P Require Import Prelude.

(** The errors of [frost_core::Error] the code builds or forwards. *)
Inductive FrostError :=
| UnknownIdentifier
| IncorrectCommitment
| IncorrectPackage
| IncorrectNumberOfShares
| MalformedVerifyingKey
| MalformedScalar
| MalformedElement
| InvalidIdentityElement
| OtherFrostError (code : Z).

Class FrostLib := {
  (** [k256]. *)
  Scalar : Type;
  ProjectivePoint : Type;
  Scalar_eq_dec :: EqDecision Scalar;
  ProjectivePoint_eq_dec :: EqDecision ProjectivePoint;
  scalar_to_bytes : Scalar -> Z;
  scalar_from_repr : Z -> option Scalar;
  IDENTITY : ProjectivePoint;
  GENERATOR : ProjectivePoint;
  point_add : ProjectivePoint -> ProjectivePoint -> ProjectivePoint;
  point_mul : ProjectivePoint -> Scalar -> ProjectivePoint;
  (** The affine coordinates of the uncompressed SEC1 encoding. *)
  point_affine : ProjectivePoint -> Z * Z;
  (** Decoding the uncompressed SEC1 encoding of two coordinates. *)
  point_from_encoded : Z -> Z -> option ProjectivePoint;
  hash_to_field : list bytes -> list bytes -> Scalar;
  (** The random number generator of the [rand] crate. *)
  Rng : Type;
  fill_bytes : Rng -> Z * Rng;
  (** [frost_core::keys::dkg]. *)
  Identifier_derive : Z -> Z;
  Round1Secret : Type;
  round1_identifier : Round1Secret -> Z;
  round1_commitment : Round1Secret -> list ProjectivePoint;
  Round2Secret : Type;
  round2_identifier : Round2Secret -> Z;
  round2_commitment : Round2Secret -> list ProjectivePoint;
  round2_secret_share : Round2Secret -> Scalar;
  compute_proof_of_knowledge :
    Z -> list Scalar -> list ProjectivePoint -> Rng ->
    result FrostError (ProjectivePoint * Scalar) * Rng;
  verify_proof_of_knowledge :
    Z -> list ProjectivePoint -> ProjectivePoint * Scalar -> result FrostError unit;
  dkg_part1 : Z -> Z -> Z -> Rng ->
    result FrostError (Round1Secret * (list ProjectivePoint * (ProjectivePoint * Scalar))) * Rng;
  dkg_part2 :
    Round1Secret -> gmap Z (list ProjectivePoint * (ProjectivePoint * Scalar)) ->
    result FrostError (Round2Secret * gmap Z Scalar);
  (** Returns the key package: identifier, signing share, verifying share,
      verifying key and minimum number of signers. *)
  dkg_part3 :
    Round2Secret -> gmap Z (list ProjectivePoint * (ProjectivePoint * Scalar)) ->
    gmap Z Scalar -> result FrostError (Z * Scalar * ProjectivePoint * ProjectivePoint * Z);
  sum_commitments : list (list ProjectivePoint) -> result FrostError (list ProjectivePoint);
  VerifyingKey_from_commitment : list ProjectivePoint -> result FrostError ProjectivePoint;
  VerifyingShare_from_commitment : Z -> list ProjectivePoint -> ProjectivePoint;
  (** [SecretShare::new(identifier, signing_share, commitment).verify()]. *)
  SecretShare_verify : Z -> Scalar -> list ProjectivePoint -> result FrostError unit;
  (** [frost_core::round1] and [round2]. *)
  LibNonces : Type;
  nonces_new : Scalar -> Rng -> LibNonces * Rng;
  nonces_commitments : LibNonces -> ProjectivePoint * ProjectivePoint;
  round2_sign :
    gmap Z (ProjectivePoint * ProjectivePoint) * Z -> LibNonces ->
    Z * Scalar * ProjectivePoint * ProjectivePoint * Z -> result FrostError Z;
  compute_binding_factor_list :
    gmap Z (ProjectivePoint * ProjectivePoint) * Z -> ProjectivePoint ->
    result FrostError (gmap Z Scalar);
  derive_interpolating_value :
    Z -> gmap Z (ProjectivePoint * ProjectivePoint) * Z -> result FrostError Scalar;
  compute_group_commitment :
    gmap Z (ProjectivePoint * ProjectivePoint) * Z -> gmap Z Scalar ->
    result FrostError ProjectivePoint
}.

(** Documented behaviour of the primitives. *)
Class FrostLaws `{FrostLib} : Prop := {
  (** Scalars are encoded canonically. *)
  scalar_roundtrip s : scalar_from_repr (scalar_to_bytes s) = Some s;
  scalar_range s : is_u256 (scalar_to_bytes s);
  (** An uncompressed encoding decodes to its point; no point of the curve has
      coordinates (0, 0), and the identity has no affine coordinates. *)
  affine_roundtrip p : p <> IDENTITY ->
    point_from_encoded (point_affine p).1 (point_affine p).2 = Some p;
  affine_nonzero p : p <> IDENTITY -> point_affine p <> (0, 0);
  affine_range p : is_u256 (point_affine p).1;
  (** Diffie-Hellman: scalar multiplications of the generator commute. *)
  mul_comm a b : point_mul (point_mul GENERATOR a) b = point_mul (point_mul GENERATOR b) a;
  (** The second round keeps the participant of the first. *)
  part2_identifier s p s2 shares :
    dkg_part2 s p = Ok (s2, shares) -> round2_identifier s2 = round1_identifier s
}.

Abbreviation KeyPackage := (Z * Scalar * ProjectivePoint * ProjectivePoint * Z)%type.
Abbreviation Round1Package := (list ProjectivePoint * (ProjectivePoint * Scalar))%type.
Abbreviation SigningCommitments := (ProjectivePoint * ProjectivePoint)%type.

(** [KeyPackage]'s getters. *)
Definition kp_identifier `{FrostLib} (k : KeyPackage) : Z := k.1.1.1.1.
Definition kp_signing_share `{FrostLib} (k : KeyPackage) : Scalar := k.1.1.1.2.
Definition kp_verifying_key `{FrostLib} (k : KeyPackage) : ProjectivePoint := k.1.2.
Definition kp_min_signers `{FrostLib} (k : KeyPackage) : Z := k.2.
