(* ===== verification/Frost.v ===== *)
(** The Safenet layer over FROST, [crates/validator/src/frost/]: marshalling to
    the contract's types ([Marshal]), the ECDH channel for secret shares
    ([Ecdh]), the rounds of distributed key generation ([Keygen]) and signature
    shares ([Sign]). The cryptography itself is the parameter [FrostLib]. *)

From S2P Require Import Prelude Keccak Merkle Bindings FrostLib.

(** [frost::error::Error]. *)
Inductive Error :=
| Unexpected (cause : FrostError)
| ParticipantError (cause : FrostError) (culprit : Z).

Definition err_unexpected {A} (r : result FrostError A) : result Error A :=
  map_err Unexpected r.
Definition err_with_culprit {A} (culprit : Z) (r : result FrostError A) : result Error A :=
  map_err (fun cause => ParticipantError cause culprit) r.

Module Marshal.
Section Marshal.
Context {FL : FrostLib}.

Definition solidity_point (point : ProjectivePoint) : Sol.Point :=
  if decide (point = IDENTITY) then Sol.MkPoint 0 0
  else let '(x, y) := point_affine point in Sol.MkPoint x y.

Definition solidity_scalar (scalar : Scalar) : Z := scalar_to_bytes scalar.

Definition solidity_signature (signature : ProjectivePoint * Scalar) : Sol.Signature :=
  Sol.MkSignature (solidity_point signature.1) (solidity_scalar signature.2).

(** An encryption package is a public key point and its proof of possession. *)
Definition solidity_commitment
    (encryption_package : ProjectivePoint * (ProjectivePoint * Scalar))
    (package : Round1Package) : Sol.KeyGenCommitment :=
  let q := solidity_point encryption_package.1 in
  let pop := solidity_signature encryption_package.2 in
  let c := solidity_point <$> package.1 in
  let pok := solidity_signature package.2 in
  Sol.MkKeyGenCommitment q pop c pok.

Definition solidity_secret_share (verifying_share : ProjectivePoint)
    (encrypted_secret_shares : list Z) : Sol.KeyGenSecretShare :=
  Sol.MkKeyGenSecretShare (solidity_point verifying_share) encrypted_secret_shares.

Definition solidity_sign_nonces (commitments : SigningCommitments) : Sol.SignNonces :=
  Sol.MkSignNonces (solidity_point commitments.1) (solidity_point commitments.2).

Definition frost_scalar (scalar : Z) : result FrostError Scalar :=
  ok_or (scalar_from_repr scalar) MalformedScalar.

(** The zero point decodes to the identity. *)
Definition frost_point (point : Sol.Point) : result FrostError ProjectivePoint :=
  if decide (Sol.x point = 0 /\ Sol.y point = 0) then Ok IDENTITY
  else ok_or (point_from_encoded (Sol.x point) (Sol.y point)) MalformedElement.

Definition frost_signature (r : Sol.Point) (z : Z)
    : result FrostError (ProjectivePoint * Scalar) :=
  r ← frost_point r; z ← frost_scalar z; Ok (r, z).

Definition frost_commitment (commitment : Sol.KeyGenCommitment)
    : result FrostError ((ProjectivePoint * (ProjectivePoint * Scalar)) * Round1Package) :=
  q ← frost_point (Sol.q commitment);
  pop ← frost_signature (Sol.sig_r (Sol.pop commitment)) (Sol.sig_z (Sol.pop commitment));
  coefficients ← collect_results (frost_point <$> Sol.c commitment);
  pok ← frost_signature (Sol.sig_r (Sol.pok commitment)) (Sol.sig_z (Sol.pok commitment));
  Ok ((q, pop), (coefficients, pok)).

Definition frost_signing_commitments (nonces : Sol.SignNonces)
    : result FrostError SigningCommitments :=
  hiding ← frost_point (Sol.d nonces);
  binding ← frost_point (Sol.e nonces);
  if decide (hiding = IDENTITY \/ binding = IDENTITY) then Err MalformedElement
  else Ok (hiding, binding).

Context {LAWS : FrostLaws}.

Lemma frost_point_solidity p : frost_point (solidity_point p) = Ok p.
Proof.
  unfold frost_point, solidity_point. destruct (decide (p = IDENTITY)) as [->|Hp]; [done|].
  pose proof (affine_roundtrip p Hp) as Hr. pose proof (affine_nonzero p Hp) as Hn.
  destruct (point_affine p) as [x y]; simpl in *.
  rewrite decide_False by (intros [-> ->]; done). by rewrite Hr.
Qed.

Lemma frost_scalar_solidity s : frost_scalar (solidity_scalar s) = Ok s.
Proof. unfold frost_scalar, solidity_scalar. by rewrite scalar_roundtrip. Qed.

Lemma frost_signature_solidity s :
  frost_signature (Sol.sig_r (solidity_signature s)) (Sol.sig_z (solidity_signature s)) = Ok s.
Proof.
  unfold frost_signature, solidity_signature. simpl.
  rewrite frost_point_solidity. simpl. rewrite frost_scalar_solidity. by destruct s.
Qed.

Lemma collect_points_solidity ps : collect_results (frost_point <$> (solidity_point <$> ps)) = Ok ps.
Proof.
  apply collect_results_Ok. rewrite <- list_fmap_compose. apply list_fmap_ext.
  intros _ p _. apply frost_point_solidity.
Qed.

Lemma frost_commitment_solidity ep pkg :
  frost_commitment (solidity_commitment ep pkg) = Ok (ep, pkg).
Proof.
  unfold frost_commitment, solidity_commitment.
  cbn -[frost_signature frost_point solidity_signature solidity_point].
  rewrite frost_point_solidity. cbn -[frost_signature solidity_signature].
  rewrite frost_signature_solidity. cbn -[frost_signature solidity_signature].
  rewrite collect_points_solidity. cbn -[frost_signature solidity_signature].
  rewrite frost_signature_solidity. by destruct ep, pkg.
Qed.

End Marshal.
End Marshal.

Module Ecdh.
Section Ecdh.
Context {FL : FrostLib}.

Definition public_key (encryption_key : Scalar) : ProjectivePoint :=
  point_mul GENERATOR encryption_key.

(** [msg XOR (receiver_pubkey * sender_privkey).x], bytewise on 32 bytes. *)
Definition ecdh (sender_privkey : Scalar) (receiver_pubkey : ProjectivePoint) (msg : Z) : Z :=
  let shared_secret := (point_affine (point_mul receiver_pubkey sender_privkey)).1 in
  Z.lxor msg shared_secret.

(** The bytes of ["FROST-secp256k1-SHA256-v1"] and of ["enc"]. *)
Definition context_string : bytes :=
  [70; 82; 79; 83; 84; 45; 115; 101; 99; 112; 50; 53; 54; 107; 49; 45; 83; 72; 65; 50; 53; 54; 45;
   118; 49].
Definition enc_discriminant : bytes := [101; 110; 99].

Definition hash_to_scalar (discriminant msg : bytes) : Scalar :=
  hash_to_field [msg] [context_string; discriminant].

(** [EncryptionKey::generate]. *)
Definition generate (rng : Rng) : Scalar * Rng :=
  let '(entropy, rng) := fill_bytes rng in
  (hash_to_scalar enc_discriminant (be_bytes 32 entropy), rng).

(** [EncryptionKey::package]: the public key and its proof of possession. *)
Definition package (encryption_key : Scalar) (identifier : Z) (rng : Rng)
    : result FrostError (ProjectivePoint * (ProjectivePoint * Scalar)) * Rng :=
  let public_key := public_key encryption_key in
  let '(proof, rng) :=
    compute_proof_of_knowledge identifier [encryption_key] [public_key] rng in
  (proof_of_possession ← proof; Ok (public_key, proof_of_possession), rng).

(** [EncryptionPublicKey::from_point]. *)
Definition from_point (point : ProjectivePoint) : result FrostError ProjectivePoint :=
  if decide (point = IDENTITY) then Err InvalidIdentityElement else Ok point.

(** [Package::verified_public_key]. *)
Definition verified_public_key (package : ProjectivePoint * (ProjectivePoint * Scalar))
    (identifier : Z) : result FrostError ProjectivePoint :=
  public_key ← from_point package.1;
  _ ← verify_proof_of_knowledge identifier [public_key] package.2;
  Ok public_key.

(** Both ends of the channel derive the same secret, and XOR undoes itself. *)
Lemma ecdh_roundtrip {LAWS : FrostLaws} a b msg :
  ecdh b (public_key a) (ecdh a (public_key b) msg) = msg.
Proof.
  unfold ecdh, public_key. rewrite (mul_comm a b), Z.lxor_assoc, Z.lxor_nilpotent.
  apply Z.lxor_0_r.
Qed.

End Ecdh.
End Ecdh.

Module Keygen.
Section Keygen.
Context {FL : FrostLib}.

(** [participants::identifier]. *)
Definition identifier (address : Z) : Z := Identifier_derive address.

Record Secrets := MkSecrets {
  encryption_key : Scalar;
  encryption_package : ProjectivePoint * (ProjectivePoint * Scalar);
  secret_package : Round1Secret;
  proof_of_knowledge : ProjectivePoint * Scalar
}.

(** [Secrets::commitment]. *)
Definition commitment (s : Secrets) : Sol.KeyGenCommitment :=
  let round1_package := (round1_commitment (secret_package s), proof_of_knowledge s) in
  Marshal.solidity_commitment (encryption_package s) round1_package.

(** [setup]: the generator is threaded through every sampling step. *)
Definition setup (rng : Rng) (me count threshold : Z) : result Error Secrets * Rng :=
  let identifier := identifier me in
  let '(encryption_key, rng) := Ecdh.generate rng in
  match Ecdh.package encryption_key identifier rng with
  | (Err e, rng) => (Err (Unexpected e), rng)
  | (Ok encryption_package, rng) =>
      match dkg_part1 identifier count threshold rng with
      | (Err e, rng) => (Err (Unexpected e), rng)
      | (Ok (secret_package, package), rng) =>
          (Ok (MkSecrets encryption_key encryption_package secret_package package.2), rng)
      end
  end.

Record VerifiedCommitment := MkVerifiedCommitment {
  encryption_public_key : ProjectivePoint;
  package : Round1Package
}.

Definition verify_commitment (participant : Z) (commitment : Sol.KeyGenCommitment)
    : result Error VerifiedCommitment :=
  let identifier := identifier participant in
  err_with_culprit participant (
    '(encryption_package, package) ← Marshal.frost_commitment commitment;
    encryption_public_key ← Ecdh.verified_public_key encryption_package identifier;
    _ ← verify_proof_of_knowledge identifier package.1 package.2;
    Ok (MkVerifiedCommitment encryption_public_key package)).

Record GroupCommitments := MkGroupCommitments {
  commitments : gmap Z VerifiedCommitment;
  gc_group_commitment : list ProjectivePoint;
  verifying_key : ProjectivePoint
}.

Definition group_key (g : GroupCommitments) : Sol.Point :=
  Marshal.solidity_point (verifying_key g).

Definition group_commitment (commitments : gmap Z VerifiedCommitment)
    : result FrostError (list ProjectivePoint) :=
  sum_commitments ((fun verified => (package verified).1) <$> sorted_values commitments).

Definition group_commitments (commitments : gmap Z VerifiedCommitment)
    : result Error GroupCommitments :=
  gc ← err_unexpected (group_commitment commitments);
  verifying_key ← err_unexpected (VerifyingKey_from_commitment gc);
  Ok (MkGroupCommitments commitments gc verifying_key).

Record SharingState := MkSharingState {
  sh_encryption_key : Scalar;
  sh_secret_package : Round2Secret;
  peer_packages_map : gmap Z Scalar;
  sh_group_commitments : GroupCommitments
}.

(** [peer_packages]: the items keyed by identifier, split into the peers' and
    mine. *)
Definition peer_packages {T P} (me : Z) (items : gmap Z T) (select : T -> P)
    : result Error (gmap Z P * P) :=
  let peers : gmap Z P :=
    list_to_map (rev ((fun '(participant, item) => (identifier participant, select item))
                        <$> sorted_entries items)) in
  mine ← err_unexpected (ok_or (peers !! me) UnknownIdentifier);
  Ok (delete me peers, mine).

Definition generate_secret_shares (secrets : Secrets) (commitments : gmap Z VerifiedCommitment)
    : result Error (SharingState * Sol.KeyGenSecretShare) :=
  '(round1_peer_packages, round1_me_package) ←
    peer_packages (round1_identifier (secret_package secrets)) commitments package;
  err_unexpected (
    '(secret_package2, round2_packages) ← dkg_part2 (secret_package secrets) round1_peer_packages;
    if decide (round1_me_package.1 ≠ round2_commitment secret_package2)
    then Err IncorrectCommitment
    else
      gc ← group_commitment commitments;
      let verifying_share :=
        VerifyingShare_from_commitment (round1_identifier (secret_package secrets)) gc in
      verifying_key ← VerifyingKey_from_commitment gc;
      encrypted_shares ← collect_results (
        (fun '(peer, encryption_public_key) =>
           signing_share ← ok_or (round2_packages !! peer) UnknownIdentifier;
           Ok (Ecdh.ecdh (encryption_key secrets) encryption_public_key
                 (scalar_to_bytes signing_share)))
        <$> filter (fun e => e.1 ≠ round2_identifier secret_package2)
              ((fun '(participant, commitment) =>
                  (identifier participant, encryption_public_key commitment))
               <$> sorted_entries commitments));
      let share := Marshal.solidity_secret_share verifying_share encrypted_shares in
      Ok (MkSharingState (encryption_key secrets) secret_package2 round2_packages
            (MkGroupCommitments commitments gc verifying_key), share)).

(** [verify_secret_share]: the encrypted shares, in canonical publishing order. *)
Definition verify_secret_share (g : GroupCommitments) (participant : Z)
    (share : Sol.KeyGenSecretShare) : result Error (list Z) :=
  if decide (commitments g !! participant = None) then Err (Unexpected UnknownIdentifier)
  else
    let identifier := identifier participant in
    _ ← err_with_culprit participant (
      y ← Marshal.frost_point (Sol.share_y share);
      let verifying_share :=
        VerifyingShare_from_commitment identifier (gc_group_commitment g) in
      if decide (y ≠ verifying_share) then Err MalformedVerifyingKey else Ok ());
    Ok (Sol.share_f share).

(** A validated signing share ([VerifiedShare]). *)
Definition VerifiedShare_new (me peer : Z) (commitment : list ProjectivePoint)
    (secret_share : Z) : result Error Scalar :=
  err_with_culprit peer (
    signing_share ← Marshal.frost_scalar secret_share;
    _ ← SecretShare_verify me signing_share commitment;
    Ok signing_share).

(** The position of the first key, other than [participant], whose identifier
    is [me]. *)
Definition share_index (me participant : Z) (commitments : gmap Z VerifiedCommitment)
    : option nat :=
  fst <$> list_find (fun address => identifier address = me)
            (filter (fun address => address ≠ participant) (sorted_keys commitments)).

Definition verify_encrypted_secret_share (sharing_state : SharingState) (participant : Z)
    (encrypted_shares : list Z) : result Error Scalar :=
  let me := round2_identifier (sh_secret_package sharing_state) in
  '(commitment, secret_share) ←
    (if decide (identifier participant = me) then
       Ok (round2_commitment (sh_secret_package sharing_state),
           scalar_to_bytes (round2_secret_share (sh_secret_package sharing_state)))
     else
       let commitments := commitments (sh_group_commitments sharing_state) in
       err_unexpected (
         round1 ← ok_or (commitments !! participant) UnknownIdentifier;
         index ← ok_or (share_index me participant commitments) UnknownIdentifier;
         encrypted_share ← ok_or (encrypted_shares !! index) IncorrectNumberOfShares;
         Ok ((package round1).1,
             Ecdh.ecdh (sh_encryption_key sharing_state) (encryption_public_key round1)
               encrypted_share)));
  VerifiedShare_new me participant commitment secret_share.

Definition verify_revealed_secret_share (g : GroupCommitments) (plaintiff accused : Z)
    (secret_share : Z) : result Error Scalar :=
  round1 ← err_unexpected (ok_or (commitments g !! accused) UnknownIdentifier);
  VerifiedShare_new (identifier plaintiff) accused (package round1).1 secret_share.

Definition reveal_secret_share (sharing_state : SharingState) (peer : Z) : result Error Z :=
  err_unexpected (ok_or
    (Marshal.solidity_scalar <$> peer_packages_map sharing_state !! identifier peer)
    UnknownIdentifier).

(** [KeyShare] wraps the library's key package. *)
Record KeyShare := MkKeyShare { as_key_package : KeyPackage }.

Definition group_threshold (k : KeyShare) : Z := kp_min_signers (as_key_package k).

Definition finalize (sharing_state : SharingState) (shares : gmap Z Scalar)
    : result Error KeyShare :=
  let me := round2_identifier (sh_secret_package sharing_state) in
  '(round1_peer_packages, _) ←
    peer_packages me (commitments (sh_group_commitments sharing_state)) package;
  '(round2_peer_packages, round2_me_package) ← peer_packages me shares (fun share => share);
  if decide (round2_me_package ≠ round2_secret_share (sh_secret_package sharing_state))
  then Err (Unexpected IncorrectPackage)
  else
    key_package ← err_unexpected (
      dkg_part3 (sh_secret_package sharing_state) round1_peer_packages round2_peer_packages);
    Ok (MkKeyShare key_package).

(** ** The channel delivers the share it encrypts *)

(** The participants of a ceremony have distinct identifiers. *)
Definition distinct_identifiers (commitments : gmap Z VerifiedCommitment) : Prop :=
  forall a b, is_Some (commitments !! a) -> is_Some (commitments !! b) ->
    identifier a = identifier b -> a = b.

Lemma generate_secret_shares_Ok secrets cm sh share :
  generate_secret_shares secrets cm = Ok (sh, share) ->
  exists s2 packages gc key shares,
    sh = MkSharingState (encryption_key secrets) s2 packages (MkGroupCommitments cm gc key) /\
    share = Marshal.solidity_secret_share
      (VerifyingShare_from_commitment (round1_identifier (secret_package secrets)) gc) shares /\
    (exists peers, dkg_part2 (secret_package secrets) peers = Ok (s2, packages)) /\
    ((fun '(peer, encryption_public_key) =>
        signing_share ← ok_or (packages !! peer) UnknownIdentifier;
        Ok (Ecdh.ecdh (encryption_key secrets) encryption_public_key
              (scalar_to_bytes signing_share)))
     <$> filter (fun e => e.1 ≠ round2_identifier s2)
           ((fun '(participant, commitment) =>
               (identifier participant, encryption_public_key commitment))
            <$> sorted_entries cm)) = Ok <$> shares.
Proof.
  unfold generate_secret_shares. intros Hg.
  apply bind_Ok in Hg as ([peers mine] & _ & Hg). unfold err_unexpected in Hg.
  rewrite map_err_Ok in Hg. apply bind_Ok in Hg as ([s2 packages] & Hp2 & Hg).
  case_decide; [done|].
  apply bind_Ok in Hg as (gc & _ & Hg). apply bind_Ok in Hg as (key & _ & Hg).
  apply bind_Ok in Hg as (shares & Hs & Hg). apply collect_results_Ok in Hs.
  injection Hg as <- <-. eexists s2, packages, gc, key, shares. eauto.
Qed.

(** The peers a sender encrypts to, in the order their shares are published. *)
Lemma published_order cm a :
  distinct_identifiers cm -> is_Some (cm !! a) ->
  filter (fun e : Z * ProjectivePoint => e.1 ≠ identifier a)
    ((fun '(participant, commitment) =>
        (identifier participant, encryption_public_key commitment)) <$> sorted_entries cm) =
  (fun '(participant, commitment) =>
     (identifier participant, encryption_public_key commitment))
  <$> filter (fun e : Z * VerifiedCommitment => e.1 ≠ a) (sorted_entries cm).
Proof.
  intros Hinj Ha. rewrite filter_fmap. f_equal. apply filter_ext_in.
  intros [k v] Hk%elem_of_sorted_entries. simpl. split.
  - by intros H ->.
  - intros H He. apply H. apply Hinj; eauto.
Qed.

Lemma sorted_entries_filter_keys {V} (m : gmap Z V) a :
  (filter (fun e : Z * V => e.1 ≠ a) (sorted_entries m)).*1 =
  filter (fun k => k ≠ a) (sorted_keys m).
Proof. by rewrite <- sorted_entries_keys, filter_fmap. Qed.

(** The sender [a] encrypted its share for [b] at the position [b] looks at. *)
Lemma published_lookup cm a b ca cb secrets s2 (packages : gmap Z Scalar) shares :
  distinct_identifiers cm -> cm !! a = Some ca -> cm !! b = Some cb -> a ≠ b ->
  round2_identifier s2 = identifier a ->
  ((fun '(peer, encryption_public_key) =>
      signing_share ← ok_or (packages !! peer) UnknownIdentifier;
      Ok (Ecdh.ecdh (encryption_key secrets) encryption_public_key
            (scalar_to_bytes signing_share)))
   <$> filter (fun e => e.1 ≠ round2_identifier s2)
         ((fun '(participant, commitment) =>
             (identifier participant, encryption_public_key commitment))
          <$> sorted_entries cm)) = Ok (E := FrostError) <$> shares ->
  exists index s,
    share_index (identifier b) a cm = Some index /\ packages !! identifier b = Some s /\
    shares !! index =
      Some (Ecdh.ecdh (encryption_key secrets) (encryption_public_key cb) (scalar_to_bytes s)).
Proof.
  intros Hinj Ha Hb Hne Hid Hs. rewrite Hid, published_order in Hs by eauto.
  destruct (list_find_eq_Some identifier (filter (fun k => k ≠ a) (sorted_keys cm)) b)
    as (i & Hi & Hlk).
  { apply list_elem_of_filter. split; [done|]. apply elem_of_sorted_keys. eauto. }
  { intros k [_ Hk%elem_of_sorted_keys]%list_elem_of_filter He. apply Hinj; eauto. }
  exists i. rewrite <- sorted_entries_filter_keys in Hlk.
  rewrite list_lookup_fmap in Hlk. apply fmap_Some in Hlk as ([k v] & Hlk & ->). simpl in *.
  assert (v = cb) as ->.
  { apply list_elem_of_lookup_2 in Hlk. apply list_elem_of_filter in Hlk as [_ Hk].
    apply elem_of_sorted_entries in Hk. by simplify_eq. }
  apply (f_equal (.!! i)) in Hs. rewrite !list_lookup_fmap, Hlk in Hs. simpl in Hs.
  destruct (packages !! identifier k) as [s|] eqn:Ek; simpl in Hs.
  - exists s. split; [exact Hi|]. split; [done|].
    destruct (shares !! i) as [sh|]; simplify_eq/=. done.
  - by destruct (shares !! i).
Qed.

(** C37: a secret share reaches its recipient. In a ceremony of distinct
    identifiers, where the keys of [a] and [b] are the ones they committed to, what
    [b] decrypts at the position it computes in [a]'s published shares is exactly
    the share [a] sampled for [b], validated against [a]'s commitment; and when [b]
    complains, [a] reveals that same share and everyone validates it alike. *)
Theorem share_delivered {LAWS : FrostLaws} cm a b ca cb sa sb sha shb share shareb :
  distinct_identifiers cm -> cm !! a = Some ca -> cm !! b = Some cb -> a ≠ b ->
  round1_identifier (secret_package sa) = identifier a ->
  round1_identifier (secret_package sb) = identifier b ->
  encryption_public_key ca = Ecdh.public_key (encryption_key sa) ->
  encryption_public_key cb = Ecdh.public_key (encryption_key sb) ->
  generate_secret_shares sa cm = Ok (sha, share) ->
  generate_secret_shares sb cm = Ok (shb, shareb) ->
  exists s,
    peer_packages_map sha !! identifier b = Some s /\
    reveal_secret_share sha b = Ok (scalar_to_bytes s) /\
    verify_encrypted_secret_share shb a (Sol.share_f share) =
      VerifiedShare_new (identifier b) a (package ca).1 (scalar_to_bytes s) /\
    verify_revealed_secret_share (sh_group_commitments shb) b a (scalar_to_bytes s) =
      VerifiedShare_new (identifier b) a (package ca).1 (scalar_to_bytes s).
Proof.
  intros Hinj Ha Hb Hne Hia Hib Hpa Hpb Hga Hgb.
  apply generate_secret_shares_Ok in Hga as (s2 & packages & gc & key & shares & -> & -> & [p Hp] & Hs).
  apply generate_secret_shares_Ok in Hgb as (t2 & packages' & gc' & key' & shares' & -> & -> & [p' Hp'] & _).
  apply part2_identifier in Hp, Hp'. rewrite Hia in Hp. rewrite Hib in Hp'.
  destruct (published_lookup cm a b ca cb sa s2 packages shares) as (i & s & Hix & Hpk & Hsh);
    try done.
  exists s. simpl. split; [done|]. split; [|split].
  - unfold reveal_secret_share. simpl. by rewrite Hpk.
  - unfold verify_encrypted_secret_share. simpl. rewrite Hp'.
    rewrite decide_False by (intros He; apply Hne; apply Hinj; eauto).
    rewrite Ha, Hix. simpl. rewrite Hsh. simpl. rewrite Hpb, Hpa. by rewrite Ecdh.ecdh_roundtrip.
  - unfold verify_revealed_secret_share. simpl. by rewrite Ha.
Qed.

End Keygen.
End Keygen.

Module Sign.
Section Sign.
Context {KEC : Keccak} {FL : FrostLib}.

(** [SigningNonces]: the secret nonce pair of one ceremony. *)
Record SigningNonces := MkSigningNonces { lib_nonces : LibNonces }.

Definition generate (key_share : Keygen.KeyShare) (rng : Rng) : SigningNonces * Rng :=
  let signing_share := kp_signing_share (Keygen.as_key_package key_share) in
  let '(nonces, rng) := nonces_new signing_share rng in
  (MkSigningNonces nonces, rng).

(** [SigningNonces::commitments]. *)
Definition commitments (nonces : SigningNonces) : Sol.SignNonces :=
  Marshal.solidity_sign_nonces (nonces_commitments (lib_nonces nonces)).

Record CommittedNonces := MkCommittedNonces { committed_commitments : SigningCommitments }.

Definition verify_committed_nonces (participant : Z) (nonces : Sol.SignNonces)
    : result Error CommittedNonces :=
  commitments ← err_with_culprit participant (Marshal.frost_signing_commitments nonces);
  Ok (MkCommittedNonces commitments).

(** The onchain artifacts of one [signShare] submission. *)
Record SignatureShareResult := MkSignatureShareResult {
  selection : Sol.SignSelection;
  share : Sol.SignatureShare;
  inclusion : list Z
}.

Definition signer_leaf (participant : Z) (r : Sol.Point) (l : Z) (group_r : Sol.Point) : Z :=
  let buf :=
    repeat 0 12 ++ be_bytes 20 participant
      ++ be_bytes 32 (Sol.x r) ++ be_bytes 32 (Sol.y r) ++ be_bytes 32 l
      ++ be_bytes 32 (Sol.x group_r) ++ be_bytes 32 (Sol.y group_r) in
  keccak256 buf.

(** A signer's entry of the selection: address, commitment share and Lagrange
    coefficient. *)
Definition signer_entry (signing_package : gmap Z SigningCommitments * Z)
    (binding_factors : gmap Z Scalar) (entry : Z * CommittedNonces)
    : result FrostError (Z * (Z * Sol.Point * Z)) :=
  let '(address, committed) := entry in
  let identifier := Keygen.identifier address in
  binding_factor ← ok_or (binding_factors !! identifier) UnknownIdentifier;
  interpolating_value ← derive_interpolating_value identifier signing_package;
  let commitment_share :=
    point_add (committed_commitments committed).1
      (point_mul (committed_commitments committed).2 binding_factor) in
  let r := Marshal.solidity_point commitment_share in
  let l := Marshal.solidity_scalar interpolating_value in
  Ok (identifier, (address, r, l)).

Definition leaf_of (group_r : Sol.Point) (signer : Z * Sol.Point * Z) : Z :=
  let '(address, r, l) := signer in signer_leaf address r l group_r.

Definition signature_share (key_share : Keygen.KeyShare) (nonces : SigningNonces)
    (committed : gmap Z CommittedNonces) (message : Z) : result Error SignatureShareResult :=
  let key_package := Keygen.as_key_package key_share in
  let group_public_key := kp_verifying_key key_package in
  let commitments : gmap Z SigningCommitments :=
    list_to_map (rev ((fun '(address, committed) =>
      (Keygen.identifier address, committed_commitments committed)) <$> sorted_entries committed)) in
  let signing_package := (commitments, message) in
  err_unexpected (
    signature_share ← round2_sign signing_package (lib_nonces nonces) key_package;
    binding_factors ← compute_binding_factor_list signing_package group_public_key;
    entries ← collect_results (signer_entry signing_package binding_factors
                                 <$> sorted_entries committed);
    let signers : gmap Z (Z * Sol.Point * Z) := list_to_map (rev entries) in
    group_commitment ← compute_group_commitment signing_package binding_factors;
    let group_r := Marshal.solidity_point group_commitment in
    let leaves := leaf_of group_r <$> sorted_values signers in
    let tree := build leaves in
    let selection := Sol.MkSignSelection group_r (root tree) in
    '(_, r, l) ← ok_or (signers !! kp_identifier key_package) UnknownIdentifier;
    let share := Sol.MkSignatureShare r signature_share l in
    let index := rank (dom signers) (kp_identifier key_package) in
    let proof := proof tree index in
    Ok (MkSignatureShareResult selection share proof)).

(** A published signature share is verifiable. When a share is computed, the
    proof published with it places the leaf of the signer's own address, commitment
    share and coefficient under the published selection root, and that signer is
    one that committed nonces. *)
Theorem signature_share_included key_share nonces committed message res :
  signature_share key_share nonces committed message = Ok res ->
  exists address,
    is_Some (committed !! address) /\
    Keygen.identifier address = kp_identifier (Keygen.as_key_package key_share) /\
    verify (Sol.selection_root (selection res))
      (signer_leaf address (Sol.r (share res)) (Sol.l (share res)) (Sol.selection_r (selection res)))
      (inclusion res) = true.
Proof.
  unfold signature_share, err_unexpected. rewrite map_err_Ok. intros Hs.
  apply bind_Ok in Hs as (z & _ & Hs). apply bind_Ok in Hs as (factors & _ & Hs).
  apply bind_Ok in Hs as (entries & He & Hs). apply collect_results_Ok in He.
  apply bind_Ok in Hs as (gcom & _ & Hs). apply bind_Ok in Hs as ([[address r] l] & Hm & Hs).
  apply ok_or_Ok in Hm. injection Hs as <-. simpl.
  set (signers := list_to_map (rev entries) : gmap Z (Z * Sol.Point * Z)) in *.
  set (me := kp_identifier _) in *.
  assert ((me, (address, r, l)) ∈ entries) as Hin.
  { apply elem_of_list_to_map_2 in Hm. apply list_elem_of_In, in_rev in Hm. by apply list_elem_of_In. }
  apply list_elem_of_lookup_1 in Hin as [i Hi].
  apply (f_equal (.!! i)) in He. rewrite !list_lookup_fmap, Hi in He. simpl in He.
  destruct (sorted_entries committed !! i) as [[a cn]|] eqn:Ea; [|done]. simpl in He.
  injection He as He. apply bind_Ok in He as (bf & _ & He).
  apply bind_Ok in He as (iv & _ & He). injection He as Hid -> _ _.
  exists address. split; [|split; [done|]].
  { apply list_elem_of_lookup_2 in Ea. apply elem_of_sorted_entries in Ea. eauto. }
  apply (proof_verifies _ (rank (dom signers) me)).
  rewrite list_lookup_fmap. unfold sorted_values. rewrite list_lookup_fmap.
  assert (me ∈ dom signers) as Hd by (apply elem_of_dom; eauto).
  pose proof (sorted_lookup_rank _ _ Hd) as Hr.
  change (sorted_elements (dom signers)) with (sorted_keys signers) in Hr.
  rewrite <- sorted_entries_keys, list_lookup_fmap in Hr.
  apply fmap_Some in Hr as ([k v] & Hk & Hkm). simpl in Hkm. subst k. rewrite Hk. simpl.
  apply list_elem_of_lookup_2, elem_of_sorted_entries in Hk. by simplify_eq.
Qed.

(** What a validator publishes, every validator accepts. A key generation
    commitment decodes to the package it was made from and verifies when its
    proofs do, and nonce commitments decode to the pair's, neither point being the
    identity. *)
Theorem published_commitments_verify {LAWS : FrostLaws} participant (secrets : Keygen.Secrets)
    (nonces : SigningNonces) :
  (Keygen.encryption_package secrets).1 <> IDENTITY ->
  verify_proof_of_knowledge (Keygen.identifier participant)
    [(Keygen.encryption_package secrets).1] (Keygen.encryption_package secrets).2 = Ok () ->
  verify_proof_of_knowledge (Keygen.identifier participant)
    (round1_commitment (Keygen.secret_package secrets)) (Keygen.proof_of_knowledge secrets) = Ok () ->
  (nonces_commitments (lib_nonces nonces)).1 <> IDENTITY ->
  (nonces_commitments (lib_nonces nonces)).2 <> IDENTITY ->
  Keygen.verify_commitment participant (Keygen.commitment secrets) =
    Ok (Keygen.MkVerifiedCommitment (Keygen.encryption_package secrets).1
          (round1_commitment (Keygen.secret_package secrets), Keygen.proof_of_knowledge secrets)) /\
  verify_committed_nonces participant (commitments nonces) =
    Ok (MkCommittedNonces (nonces_commitments (lib_nonces nonces))).
Proof.
  intros Hid Hpop Hpok Hd He. split.
  - unfold Keygen.verify_commitment, Keygen.commitment. rewrite Marshal.frost_commitment_solidity.
    simpl. unfold Ecdh.verified_public_key, Ecdh.from_point. rewrite decide_False by done. simpl.
    rewrite Hpop. simpl. by rewrite Hpok.
  - unfold verify_committed_nonces, commitments, Marshal.frost_signing_commitments,
      Marshal.solidity_sign_nonces. simpl. rewrite !Marshal.frost_point_solidity. simpl.
    rewrite decide_False by tauto. by destruct (nonces_commitments (lib_nonces nonces)).
Qed.

End Sign.
End Sign.
