(* ===== verification/FrostSerde.v ===== *)
(** How key generation is persisted, [crates/validator/src/frost/serialization.rs]
    with the [Serialize] and [Deserialize] of [ecdh.rs] and [keygen.rs]. A verified
    commitment sits in the state between two blocks, so it must serialize and read
    back whatever its author put in it. *)

From S2P Require Import Prelude Bindings FrostLib Frost.

(** The encodings of third-party types: compressed SEC1 points, of which the
    identity is one; FROST's signatures and verifying keys, of whose encodings it
    is not. *)
Class PointSerde `{FrostLib} := {
  to_encoded_point : ProjectivePoint -> bytes;
  from_encoded_point : bytes -> option ProjectivePoint;
  signature_to_bytes : ProjectivePoint * Scalar -> option bytes;
  signature_from_bytes : bytes -> option (ProjectivePoint * Scalar);
  verifying_key_to_bytes : ProjectivePoint -> option bytes;
  verifying_key_from_bytes : bytes -> option ProjectivePoint
}.
Class PointSerdeLaws `{PointSerde} : Prop := {
  encoded_roundtrip p : from_encoded_point (to_encoded_point p) = Some p;
  signature_roundtrip s : s.1 <> IDENTITY ->
    exists b, signature_to_bytes s = Some b /\ signature_from_bytes b = Some s;
  verifying_key_roundtrip p : p <> IDENTITY ->
    exists b, verifying_key_to_bytes p = Some b /\ verifying_key_from_bytes b = Some p;
  (** A proof of knowledge is a challenge over the encoding of its nonce. *)
  proof_nonce_encodes id c s : verify_proof_of_knowledge id c s = Ok tt -> s.1 <> IDENTITY
}.

(** [de::Error], and FROST's error as one. *)
Inductive DeError := InvalidEncoding | InvalidFrost (e : FrostError).

Section Serde.
Context {FL : FrostLib} {PS : PointSerde}.

(** [serialization::vss_commitment]. *)
Definition vss_serialize (commitment : list ProjectivePoint) : list bytes := to_encoded_point <$> commitment.
Definition vss_deserialize (coefficients : list bytes) : result DeError (list ProjectivePoint) :=
  collect_results ((fun b => ok_or (from_encoded_point b) InvalidEncoding) <$> coefficients).

(** [serialization::round1_package]. *)
Record SerializedRound1 := MkSerializedRound1 { s_commitment : list bytes; s_proof_of_knowledge : bytes }.
Definition round1_serialize (package : Round1Package) : option SerializedRound1 :=
  proof ← signature_to_bytes package.2; Some (MkSerializedRound1 (vss_serialize package.1) proof).
Definition round1_deserialize (p : SerializedRound1) : result DeError Round1Package :=
  commitment ← vss_deserialize (s_commitment p);
  proof ← ok_or (signature_from_bytes (s_proof_of_knowledge p)) InvalidEncoding;
  Ok (commitment, proof).

(** [EncryptionPublicKey]. *)
Definition encryption_public_key_serialize (key : ProjectivePoint) : bytes := to_encoded_point key.
Definition encryption_public_key_deserialize (encoded : bytes) : result DeError ProjectivePoint :=
  point ← ok_or (from_encoded_point encoded) InvalidEncoding;
  map_err InvalidFrost (Ecdh.from_point point).

(** [ecdh::Package]. *)
Record SerializedPackage := MkSerializedPackage { s_public_key_point : bytes; s_proof_of_possession : bytes }.
Definition package_serialize (package : ProjectivePoint * (ProjectivePoint * Scalar)) : option SerializedPackage :=
  proof ← signature_to_bytes package.2; Some (MkSerializedPackage (to_encoded_point package.1) proof).
Definition package_deserialize (p : SerializedPackage) : result DeError (ProjectivePoint * (ProjectivePoint * Scalar)) :=
  proof ← ok_or (signature_from_bytes (s_proof_of_possession p)) InvalidEncoding;
  point ← ok_or (from_encoded_point (s_public_key_point p)) InvalidEncoding;
  Ok (point, proof).

(** The derived implementations of [VerifiedCommitment] and [GroupCommitments]. *)
Record SerializedCommitment := MkSerializedCommitment { s_encryption_public_key : bytes; s_package : SerializedRound1 }.
Definition verified_serialize (v : Keygen.VerifiedCommitment) : option SerializedCommitment :=
  package ← round1_serialize (Keygen.package v);
  Some (MkSerializedCommitment (encryption_public_key_serialize (Keygen.encryption_public_key v)) package).
Definition verified_deserialize (s : SerializedCommitment) : result DeError Keygen.VerifiedCommitment :=
  key ← encryption_public_key_deserialize (s_encryption_public_key s);
  package ← round1_deserialize (s_package s);
  Ok (Keygen.MkVerifiedCommitment key package).

Record SerializedGroup := MkSerializedGroup {
  s_commitments : list (Z * SerializedCommitment); s_group_commitment : list bytes; s_verifying_key : bytes
}.
Definition group_serialize (g : Keygen.GroupCommitments) : option SerializedGroup :=
  commitments ← mapM (fun e => pair e.1 <$> verified_serialize e.2) (sorted_entries (Keygen.commitments g));
  key ← verifying_key_to_bytes (Keygen.verifying_key g);
  Some (MkSerializedGroup commitments (vss_serialize (Keygen.gc_group_commitment g)) key).
Definition group_deserialize (s : SerializedGroup) : result DeError Keygen.GroupCommitments :=
  commitments ← collect_results ((fun e => pair e.1 <$> verified_deserialize e.2) <$> s_commitments s);
  gc ← vss_deserialize (s_group_commitment s);
  key ← ok_or (verifying_key_from_bytes (s_verifying_key s)) InvalidEncoding;
  Ok (Keygen.MkGroupCommitments (list_to_map commitments) gc key).

Section Persistence.
Context {PL : PointSerdeLaws}.

Lemma vss_roundtrip commitment : vss_deserialize (vss_serialize commitment) = Ok commitment.
Proof using PL.
  unfold vss_deserialize, vss_serialize. apply collect_results_Ok. rewrite <- list_fmap_compose.
  apply list_fmap_ext. intros i p _. cbn. by rewrite encoded_roundtrip.
Qed.

Lemma round1_roundtrip (package : Round1Package) : package.2.1 <> IDENTITY ->
  exists s, round1_serialize package = Some s /\ round1_deserialize s = Ok package.
Proof using PL.
  intros (b & Hb & Hs)%signature_roundtrip. unfold round1_serialize. rewrite Hb. eexists. split; [done|].
  unfold round1_deserialize. cbn [s_commitment s_proof_of_knowledge]. rewrite vss_roundtrip. cbn [mbind result_bind].
  rewrite Hs. by destruct package.
Qed.

Lemma package_roundtrip package : package.2.1 <> IDENTITY ->
  exists s, package_serialize package = Some s /\ package_deserialize s = Ok package.
Proof using PL.
  intros (b & Hb & Hs)%signature_roundtrip. unfold package_serialize. rewrite Hb. eexists. split; [done|].
  unfold package_deserialize. cbn. rewrite Hs, encoded_roundtrip. by destruct package.
Qed.

Lemma key_roundtrip key : key <> IDENTITY ->
  encryption_public_key_deserialize (encryption_public_key_serialize key) = Ok key.
Proof using PL.
  intros Hk. unfold encryption_public_key_deserialize, encryption_public_key_serialize. rewrite encoded_roundtrip.
  cbn. unfold Ecdh.from_point. by rewrite decide_False.
Qed.

Lemma key_nonidentity encoded key : encryption_public_key_deserialize encoded = Ok key -> key <> IDENTITY.
Proof.
  unfold encryption_public_key_deserialize. intros (p & _ & Hp)%bind_Ok. unfold Ecdh.from_point in Hp.
  case_decide; [done|]. by injection Hp as <-.
Qed.

Lemma verified_nonidentity participant c v : Keygen.verify_commitment participant c = Ok v ->
  Keygen.encryption_public_key v <> IDENTITY /\ (Keygen.package v).2.1 <> IDENTITY.
Proof using PL.
  unfold Keygen.verify_commitment, err_with_culprit, map_err.
  destruct (Marshal.frost_commitment c) as [[ep package]|]; [|done]. cbn [mbind result_bind].
  unfold Ecdh.verified_public_key, Ecdh.from_point. case_decide as Hi; [done|]. cbn [mbind result_bind].
  destruct (verify_proof_of_knowledge _ [_] _); [|done]. cbn [mbind result_bind].
  destruct (verify_proof_of_knowledge _ package.1 _) as [[]|] eqn:Hp; [|done]. cbn [mbind result_bind].
  intros [= <-]. split; [done|]. by eapply proof_nonce_encodes.
Qed.

Lemma verified_roundtrip v : Keygen.encryption_public_key v <> IDENTITY -> (Keygen.package v).2.1 <> IDENTITY ->
  exists s, verified_serialize v = Some s /\ verified_deserialize s = Ok v.
Proof using PL.
  intros Hk (s & Hs & Hd)%round1_roundtrip. unfold verified_serialize. rewrite Hs. eexists. split; [done|].
  unfold verified_deserialize. cbn [s_encryption_public_key s_package]. rewrite key_roundtrip by done.
  cbn [mbind result_bind]. rewrite Hd. by destruct v.
Qed.

Lemma list_to_sorted_map {V} (m : gmap Z V) : list_to_map (sorted_entries m) = m.
Proof.
  assert (NoDup (sorted_entries m).*1) as Hnd by (rewrite sorted_entries_keys; apply NoDup_sorted_elements).
  apply map_eq. intros k. destruct (m !! k) as [v|] eqn:Hv.
  - apply elem_of_list_to_map_1; [done|]. by apply elem_of_sorted_entries.
  - apply not_elem_of_list_to_map_1. rewrite sorted_entries_keys, elem_of_sorted_keys, Hv. by intros [? ?].
Qed.

(** A map's entries serialize one by one. *)
Lemma entries_roundtrip (l : list (Z * Keygen.VerifiedCommitment)) :
  Forall (fun e => exists s, verified_serialize e.2 = Some s /\ verified_deserialize s = Ok e.2) l ->
  exists k, mapM (fun e => pair e.1 <$> verified_serialize e.2) l = Some k /\
    collect_results ((fun e => pair e.1 <$> verified_deserialize e.2) <$> k) = Ok l.
Proof.
  induction 1 as [|[id v] l (s & Hs & Hd) _ (k & Hk & Hl)]; [by exists []|]. exists ((id, s) :: k). cbn in *.
  rewrite Hs. cbn. rewrite Hk. split; [done|]. rewrite Hd. cbn. by rewrite Hl.
Qed.

(** What key generation keeps in the state survives it. A commitment that was
    verified serializes and reads back as itself, whatever coefficients its author
    chose, the identity among them; so does the group's commitment, as long as the
    group's key is a key; and no encryption key is ever read back as the identity. *)
Theorem commitments_persist :
  (forall participant c v, Keygen.verify_commitment participant c = Ok v ->
    exists s, verified_serialize v = Some s /\ verified_deserialize s = Ok v) /\
  (forall cs g, map_Forall (fun participant v => exists c, Keygen.verify_commitment participant c = Ok v) cs ->
    Keygen.group_commitments cs = Ok g -> Keygen.verifying_key g <> IDENTITY ->
    exists s, group_serialize g = Some s /\ group_deserialize s = Ok g) /\
  (forall encoded key, encryption_public_key_deserialize encoded = Ok key -> key <> IDENTITY).
Proof using PL.
  split_and!.
  - intros participant c v [Hk Hp]%verified_nonidentity. by apply verified_roundtrip.
  - intros cs g Hcs Hg Hkey.
    assert (Keygen.commitments g = cs) as Hc.
    { unfold Keygen.group_commitments in Hg. apply bind_Ok in Hg as (gc & _ & Hg). apply bind_Ok in Hg as (k & _ & Hg). by injection Hg as <-. }
    destruct (entries_roundtrip (sorted_entries (Keygen.commitments g))) as (k & Hk & Hl).
    { apply Forall_forall. intros [id v] Hin%elem_of_sorted_entries. rewrite Hc in Hin.
      destruct (Hcs id v Hin) as (c & [Hn Hp]%verified_nonidentity). by apply verified_roundtrip. }
    destruct (verifying_key_roundtrip _ Hkey) as (b & Hb & Hd). unfold group_serialize. rewrite Hk, Hb. eexists.
    split; [done|]. unfold group_deserialize. cbn [s_commitments s_group_commitment s_verifying_key]. rewrite Hl.
    cbn [mbind result_bind]. rewrite vss_roundtrip. cbn [mbind result_bind]. rewrite Hd, list_to_sorted_map. by destruct g.
  - apply key_nonidentity.
Qed.
End Persistence.
End Serde.
