(* ===== verification/Hashing.v ===== *)
(** EIP-712 hashing of the packets validators attest,
    [crates/validator/src/consensus/hashing.rs]. The [SolStruct] hashes are
    produced by the [sol!] macro and are parameters; the transaction proposal
    hash is spelled out by the code and is spelled out here. *)

From S2P Require Import Prelude Keccak Bindings Epoch.

(** The classic Safe [SafeTx] struct. *)
Record SafeTx := {
  stx_to : Z; stx_value : Z; stx_data : bytes; stx_operation : Z; stx_safeTxGas : Z;
  stx_baseGas : Z; stx_gasPrice : Z; stx_gasToken : Z; stx_refundReceiver : Z; stx_nonce : Z
}.

(** [SafeTx::from]. *)
Definition SafeTx_from (tx : Sol.SafeTransaction) : SafeTx := {|
  stx_to := Sol.to tx;
  stx_value := Sol.value tx;
  stx_data := Sol.data tx;
  stx_operation := Sol.operation_byte (Sol.operation tx);
  stx_safeTxGas := Sol.safeTxGas tx;
  stx_baseGas := Sol.baseGas tx;
  stx_gasPrice := Sol.gasPrice tx;
  stx_gasToken := Sol.gasToken tx;
  stx_refundReceiver := Sol.refundReceiver tx;
  stx_nonce := Sol.nonce tx
|}.

(** The generated EIP-712 implementations, per struct. *)
Class Eip712 := {
  Eip712Domain : Type;
  (** [Eip712Domain::new(None, None, Some(chain_id), Some(contract), None)]. *)
  domain_new : Z -> Z -> Eip712Domain;
  separator : Eip712Domain -> Z;
  safe_tx_eip712_hash_struct : SafeTx -> Z;
  safe_tx_eip712_signing_hash : SafeTx -> Eip712Domain -> Z;
  (** [TransactionProposal::eip712_encode_type] as bytes. *)
  transaction_proposal_encode_type : bytes;
  (** [EpochRollover] fields, in order, and the domain. *)
  epoch_rollover_signing_hash : Z -> Z -> Z -> Z -> Z -> Eip712Domain -> Z
}.

Section Hashing.
Context {KEC : Keccak} {EIP : Eip712}.

Definition safe_tx_struct_hash (tx : Sol.SafeTransaction) : Z := safe_tx_eip712_hash_struct (SafeTx_from tx).

Definition safe_tx_hash (tx : Sol.SafeTransaction) : Z :=
  let domain := domain_new (Sol.chainId tx) (Sol.safe tx) in
  safe_tx_eip712_signing_hash (SafeTx_from tx) domain.

(** [ConsensusDomain::new]. *)
Definition ConsensusDomain_new (chain consensus : Z) : Eip712Domain := domain_new chain consensus.

(** The bytes hashed into a proposal's struct hash. *)
Definition transaction_proposal_data (epoch : EpochId.t)
    (oracle oracle_data_hash safe_tx_hash : Z) : bytes :=
  let type_hash := keccak256 transaction_proposal_encode_type in
  be_bytes 32 type_hash ++ be_bytes 32 (EpochId.raw_value epoch) ++ be_bytes 32 oracle
    ++ be_bytes 32 oracle_data_hash ++ be_bytes 32 safe_tx_hash.

Definition transaction_proposal_hash (domain : Eip712Domain) (epoch : EpochId.t)
    (oracle oracle_data_hash safe_tx_hash : Z) : Z :=
  let data := transaction_proposal_data epoch oracle oracle_data_hash safe_tx_hash in
  let struct_hash := keccak256 data in
  let message := [0x19; 0x01] ++ be_bytes 32 (separator domain) ++ be_bytes 32 struct_hash in
  keccak256 message.

Definition transaction_packet_hash (domain : Eip712Domain) (epoch : EpochId.t) (oracle : Z)
    (oracle_data : bytes) (tx : Sol.SafeTransaction) : Z :=
  transaction_proposal_hash domain epoch oracle (keccak256 oracle_data) (safe_tx_hash tx).

Definition epoch_rollover_hash (domain : Eip712Domain) (active_epoch : EpochId.t)
    (proposed_epoch rollover_block : Z) (group_key : Sol.Point) : Z :=
  epoch_rollover_signing_hash (EpochId.raw_value active_epoch) proposed_epoch rollover_block
    (Sol.x group_key) (Sol.y group_key) domain.

(** The string whose digest a proposal's message is. *)
Definition transaction_proposal_string (domain : Eip712Domain) (epoch : EpochId.t)
    (oracle oracle_data_hash safe_tx_hash : Z) : bytes :=
  [0x19; 0x01] ++ be_bytes 32 (separator domain)
    ++ be_bytes 32 (keccak256 (transaction_proposal_data epoch oracle oracle_data_hash safe_tx_hash)).

(** A message commits to its proposal. Two transaction proposals of one domain
    with the same message have the same epoch, oracle, oracle data hash and Safe
    transaction hash, or two of the strings hashed for them collide. *)
Theorem transaction_proposal_hash_inj {LAWS : KeccakLaws} domain e e' o o' d d' s s' :
  is_u256 (EpochId.raw_value e) -> is_u256 (EpochId.raw_value e') -> is_u256 o -> is_u256 o' ->
  is_u256 d -> is_u256 d' -> is_u256 s -> is_u256 s' ->
  transaction_proposal_hash domain e o d s = transaction_proposal_hash domain e' o' d' s' ->
  (EpochId.raw_value e = EpochId.raw_value e' /\ o = o' /\ d = d' /\ s = s') \/
  collision_among [transaction_proposal_string domain e o d s;
                   transaction_proposal_string domain e' o' d' s';
                   transaction_proposal_data e o d s; transaction_proposal_data e' o' d' s'].
Proof.
  unfold is_u256. intros He He' Ho Ho' Hd Hd' Hs Hs' H. unfold transaction_proposal_hash in H.
  apply keccak256_inj_or_collision in H as [H|Hc];
    [|right; eapply collision_among_mono; [|exact Hc];
      unfold transaction_proposal_string; set_solver].
  apply app_inv_head in H. apply be_bytes_app_inj in H as [_ H].
  change (2 ^ 256) with (256 ^ Z.of_nat 32) in *.
  apply be_bytes_inj in H; [|apply keccak256_range..].
  apply keccak256_inj_or_collision in H as [H|Hc];
    [|right; eapply collision_among_mono; [|exact Hc]; set_solver].
  left. unfold transaction_proposal_data in H. apply be_bytes_app_inj in H as [_ H].
  apply be_bytes_app_inj in H as [H1 H]. apply be_bytes_app_inj in H as [H2 H].
  apply be_bytes_app_inj in H as [H3 H4].
  split_and!; by eapply be_bytes_inj.
Qed.

End Hashing.
