(* ===== verification/Secrets.v ===== *)
(** The reorg-resistant secret store, [crates/validator/src/secrets/store.rs]:
    its two SQLite tables as maps over their primary keys, the reconciliation
    marker as an option, and each query as the update it performs. A database or
    JSON failure aborts the transaction and leaves the tables as they were; it is
    not modelled, so the only error left is the integer conversion. *)

From S2P Require Import Prelude Bindings FrostLib Frost.

(** The error of a block number past the database's integer range. *)
Inductive StoreError := Overflow.

(** The secrets a reconciliation keeps for a group. *)
Inductive RetainedSecrets := Nonces | All.

#[export] Instance RetainedSecrets_eq_dec : EqDecision RetainedSecrets.
Proof. solve_decision. Defined.

(** Rows removed by a collection, by kind. *)
Record Pruned := MkPruned { pruned_keygen : Z; pruned_signing_nonces : Z }.

Section Secrets.
Context {FL : FrostLib}.

Record KeygenRow := MkKeygenRow {
  kr_secrets : Keygen.Secrets;
  kr_delete_at_block : option Z
}.

Record NoncesRow := MkNoncesRow {
  nr_group_id : Z;
  nr_address : Z;
  nr_nonces : option Sign.SigningNonces;
  nr_delete_at_block : option Z
}.

Record SecretStore := MkSecretStore {
  keygen_secrets : gmap (Z * Z) KeygenRow;
  signing_nonces : gmap Z NoncesRow;
  reconciliation : option Z
}.

(** The tables as they are created. *)
Definition empty_store : SecretStore := MkSecretStore ∅ ∅ None.

(** Existing secrets are returned, and their scheduled deletion cancelled; only
    a missing row is inserted. *)
Definition store_keygen_secrets (s : SecretStore) (group me : Z) (secrets : Keygen.Secrets)
    : SecretStore * Keygen.Secrets :=
  match keygen_secrets s !! (group, me) with
  | Some existing =>
      (MkSecretStore (<[(group, me) := MkKeygenRow (kr_secrets existing) None]> (keygen_secrets s))
         (signing_nonces s) (reconciliation s), kr_secrets existing)
  | None =>
      (MkSecretStore (<[(group, me) := MkKeygenRow secrets None]> (keygen_secrets s))
         (signing_nonces s) (reconciliation s), secrets)
  end.

(** [INSERT ... ON CONFLICT DO NOTHING], then the commitments of the stored
    pair, unless it was already used. *)
Definition store_signing_nonces (s : SecretStore) (group signature_id me : Z)
    (nonces : Sign.SigningNonces) : SecretStore * option Sol.SignNonces :=
  let rows :=
    match signing_nonces s !! signature_id with
    | Some _ => signing_nonces s
    | None => <[signature_id := MkNoncesRow group me (Some nonces) None]> (signing_nonces s)
    end in
  let stored := rows !! signature_id ≫= nr_nonces in
  (MkSecretStore (keygen_secrets s) rows (reconciliation s), Sign.commitments <$> stored).

Definition clear_nonces (row : NoncesRow) : NoncesRow :=
  MkNoncesRow (nr_group_id row) (nr_address row) None (nr_delete_at_block row).

(** Takes the pair and clears it, keeping the row. *)
Definition take_signing_nonces (s : SecretStore) (signature_id : Z)
    : SecretStore * option Sign.SigningNonces :=
  match signing_nonces s !! signature_id ≫= nr_nonces with
  | Some nonces =>
      (MkSecretStore (keygen_secrets s) (alter clear_nonces signature_id (signing_nonces s))
         (reconciliation s), Some nonces)
  | None => (s, None)
  end.

(** [schedule_absent_groups] on one row: a retained group is unscheduled, an
    absent one keeps the deletion block it already has. *)
Definition reschedule (block : Z) (retained : gset Z) (group : Z) (delete_at : option Z)
    : option Z :=
  if decide (group ∈ retained) then None
  else match delete_at with Some b => Some b | None => Some block end.

Definition reschedule_keygen (block : Z) (retained : gset Z) (rows : gmap (Z * Z) KeygenRow)
    : gmap (Z * Z) KeygenRow :=
  map_imap (fun '(group, _) row =>
    Some (MkKeygenRow (kr_secrets row)
            (reschedule block retained group (kr_delete_at_block row)))) rows.

Definition reschedule_nonces (block : Z) (retained : gset Z) (rows : gmap Z NoncesRow)
    : gmap Z NoncesRow :=
  (fun row => MkNoncesRow (nr_group_id row) (nr_address row) (nr_nonces row)
     (reschedule block retained (nr_group_id row) (nr_delete_at_block row))) <$> rows.

(** Reconciliations are ordered by the block they were computed for. *)
Definition schedule_group_secrets_deletion (s : SecretStore) (block : Z)
    (retained : gmap Z RetainedSecrets) : result StoreError (SecretStore * bool) :=
  block ← ok_or (to_i64 block) Overflow;
  let keygen : gset Z := dom (filter (fun e => e.2 = All) retained) in
  let nonces : gset Z := dom retained in
  let accepted :=
    match reconciliation s with Some last => bool_decide (last <= block) | None => true end in
  if accepted then
    Ok (MkSecretStore (reschedule_keygen block keygen (keygen_secrets s))
          (reschedule_nonces block nonces (signing_nonces s)) (Some block), true)
  else Ok (s, false).

(** [delete_at_block <= safe], never true of a row with none. *)
Definition due (safe : Z) (delete_at : option Z) : Prop :=
  match delete_at with Some b => b <= safe | None => False end.

#[export] Instance due_dec safe d : Decision (due safe d).
Proof. destruct d; simpl; apply _. Defined.

Definition prune_scheduled_secrets (s : SecretStore) (safe : Z)
    : result StoreError (SecretStore * Pruned) :=
  safe ← ok_or (to_i64 safe) Overflow;
  let keygen := filter (fun e => ¬ due safe (kr_delete_at_block e.2)) (keygen_secrets s) in
  let nonces := filter (fun e => ¬ due safe (nr_delete_at_block e.2)) (signing_nonces s) in
  Ok (MkSecretStore keygen nonces (reconciliation s),
      MkPruned (Z.of_nat (size (keygen_secrets s) - size keygen))
        (Z.of_nat (size (signing_nonces s) - size nonces))).

(** ** Histories of the store *)

(** The operations the effect handler performs, in the order it performs them. *)
Inductive StoreOp :=
| StoreKeygen (group me : Z) (secrets : Keygen.Secrets)
| StoreNonces (group signature_id me : Z) (nonces : Sign.SigningNonces)
| TakeNonces (signature_id : Z)
| Schedule (block : Z) (retained : gmap Z RetainedSecrets)
| Prune (safe : Z).

(** What an operation reveals of the nonces of one ceremony. *)
Inductive StoreOut :=
| Committed (signature_id : Z) (nonces : option Sol.SignNonces)
| Taken (signature_id : Z) (nonces : option Sign.SigningNonces)
| Silent.

Definition store_step (s : SecretStore) (op : StoreOp) : SecretStore * StoreOut :=
  match op with
  | StoreKeygen group me secrets => ((store_keygen_secrets s group me secrets).1, Silent)
  | StoreNonces group sid me nonces =>
      let '(s, out) := store_signing_nonces s group sid me nonces in (s, Committed sid out)
  | TakeNonces sid => let '(s, out) := take_signing_nonces s sid in (s, Taken sid out)
  | Schedule block retained =>
      (match schedule_group_secrets_deletion s block retained with
       | Ok (s', _) => s' | Err _ => s end, Silent)
  | Prune safe =>
      (match prune_scheduled_secrets s safe with Ok (s', _) => s' | Err _ => s end, Silent)
  end.

Fixpoint store_run (s : SecretStore) (ops : list StoreOp) : SecretStore * list StoreOut :=
  match ops with
  | [] => (s, [])
  | op :: ops =>
      let '(s, out) := store_step s op in
      let '(s, outs) := store_run s ops in (s, out :: outs)
  end.

(** The secrets handed out for ceremony [sid]. *)
Definition taken_of (sid : Z) (outs : list StoreOut) : list Sign.SigningNonces :=
  omap (fun out => match out with
                   | Taken sid' n => if decide (sid' = sid) then n else None
                   | _ => None end) outs.

(** The commitments published for ceremony [sid]. *)
Definition committed_of (sid : Z) (outs : list StoreOut) : list Sol.SignNonces :=
  omap (fun out => match out with
                   | Committed sid' n => if decide (sid' = sid) then n else None
                   | _ => None end) outs.

(** Every reconciliation keeps [group], and ceremony [sid] belongs to it. *)
Definition keeps (group sid : Z) (op : StoreOp) : Prop :=
  match op with
  | StoreNonces g sid' _ _ => sid' = sid -> g = group
  | Schedule _ retained => is_Some (retained !! group)
  | _ => True
  end.

(** The row of [sid] belongs to [group] and is not scheduled for deletion. *)
Definition kept_row (group : Z) (row : option NoncesRow) : Prop :=
  match row with
  | Some row => nr_group_id row = group /\ nr_delete_at_block row = None
  | None => True
  end.

(** The first pair the operations offer to ceremony [sid]. *)
Fixpoint first_offer (sid : Z) (ops : list StoreOp) : option Sign.SigningNonces :=
  match ops with
  | StoreNonces _ sid' _ nonces :: ops =>
      if decide (sid' = sid) then Some nonces else first_offer sid ops
  | _ :: ops => first_offer sid ops
  | [] => None
  end.

(** ** The row of a ceremony *)

Lemma store_step_nonces_ne s op sid :
  (forall g me n, op ≠ StoreNonces g sid me n) -> op ≠ TakeNonces sid ->
  forall group, keeps group sid op -> kept_row group (signing_nonces s !! sid) ->
  signing_nonces (store_step s op).1 !! sid = signing_nonces s !! sid /\
  taken_of sid [(store_step s op).2] = [] /\ committed_of sid [(store_step s op).2] = [].
Proof.
  intros Hs Ht group Hk Hrow.
  destruct op as [g me k|g sid' me n|sid'|block retained|safe]; simpl in *.
  - unfold store_keygen_secrets. by destruct (keygen_secrets s !! (g, me)).
  - assert (sid' ≠ sid) by (intros <-; by destruct (Hs g me n)).
    unfold store_signing_nonces. simpl. rewrite decide_False by done.
    destruct (signing_nonces s !! sid'); simpl; [done|]. by rewrite lookup_insert_ne.
  - assert (sid' ≠ sid) by (intros <-; done).
    unfold take_signing_nonces. destruct (_ ≫= _); simpl; rewrite decide_False by done; [|done].
    by rewrite lookup_alter_ne.
  - split; [|done]. unfold schedule_group_secrets_deletion.
    destruct (ok_or (to_i64 block) Overflow) as [b|]; simpl; [|done].
    destruct (match reconciliation s with Some _ => _ | None => _ end); simpl; [|done].
    unfold reschedule_nonces. rewrite lookup_fmap.
    destruct (signing_nonces s !! sid) as [row|]; simpl; [|done]. destruct Hrow as [<- Hd].
    unfold reschedule. rewrite decide_True by (by apply elem_of_dom).
    f_equal. destruct row; simpl in *. by subst.
  - split; [|done]. unfold prune_scheduled_secrets.
    destruct (ok_or (to_i64 safe) Overflow) as [b|]; simpl; [|done].
    destruct (signing_nonces s !! sid) as [row|] eqn:E; simpl.
    + apply map_lookup_filter_Some. split; [done|]. destruct Hrow as [_ Hd]. simpl. rewrite Hd.
      by intros [].
    + apply map_lookup_filter_None. by left.
Qed.

Lemma store_op_cases sid op :
  (exists g me n, op = StoreNonces g sid me n) \/ op = TakeNonces sid \/
  ((forall g me n, op ≠ StoreNonces g sid me n) /\ op ≠ TakeNonces sid).
Proof.
  destruct op as [g me k|g sid' me n|sid'|block retained|safe];
    try (by right; right; split; [intros ???|]); destruct (decide (sid' = sid)) as [->|Hne];
    [by eauto| |by eauto|]; right; right; split; try congruence; intros ???; congruence.
Qed.

Lemma store_step_kept s op group sid :
  keeps group sid op -> kept_row group (signing_nonces s !! sid) ->
  kept_row group (signing_nonces (store_step s op).1 !! sid).
Proof.
  intros Hk Hrow.
  destruct (store_op_cases sid op) as [(g & me & n & ->)|[->|[Hs Ht]]].
  { simpl in *. specialize (Hk eq_refl) as ->.
    destruct (signing_nonces s !! sid) eqn:E; simpl; rewrite ?E; [done|].
    by rewrite lookup_insert_eq. }
  { simpl. unfold take_signing_nonces. destruct (_ ≫= _); simpl; [|done].
    rewrite lookup_alter_eq. by destruct (signing_nonces s !! sid). }
  by destruct (store_step_nonces_ne s op sid) with group as (-> & _ & _).
Qed.

(** The secrets left to hand out for a row, before any operation of [ops]: the
    pair it still holds, or the first one [ops] offers when there is no row. *)
Definition pending (row : option NoncesRow) (sid : Z) (ops : list StoreOp)
    : option Sign.SigningNonces :=
  match row with
  | Some row => nr_nonces row
  | None => first_offer sid ops
  end.

(** While the group is retained, ceremony [sid] only ever sees one pair: it is
    handed out at most once, and nothing else is ever committed to. *)
Lemma store_run_single_pair group sid ops s :
  Forall (keeps group sid) ops -> kept_row group (signing_nonces s !! sid) ->
  let outs := (store_run s ops).2 in
  (length (taken_of sid outs) <= 1)%nat /\
  Forall (fun n => pending (signing_nonces s !! sid) sid ops = Some n) (taken_of sid outs) /\
  Forall (fun c => Sign.commitments <$> pending (signing_nonces s !! sid) sid ops = Some c)
    (committed_of sid outs).
Proof.
  revert s. induction ops as [|op ops IH]; intros s Hk Hrow.
  { simpl. split; [lia|]. split; constructor. }
  inversion Hk as [|? ? Hop Hops]; subst.
  pose proof (store_step_kept s op group sid Hop Hrow) as Hrow'.
  pose proof (IH (store_step s op).1 Hops Hrow') as IH'. clear IH. revert IH'.
  cbn [store_run].
  destruct (store_op_cases sid op) as [(g & me & n & ->)|[->|[Hs Ht]]].
  { clear Hrow Hrow' Hop Hk. simpl. unfold store_signing_nonces. simpl.
    destruct (signing_nonces s !! sid) as [row|] eqn:E; simpl.
    all: destruct (store_run _ ops) as [s' outs] eqn:R; simpl;
      rewrite ?E, ?lookup_insert_eq, ?decide_True by done; simpl; intros (H1 & H2 & H3).
    - destruct (nr_nonces row) eqn:En; simpl; split_and!; try done. by constructor.
    - split_and!; try done. by constructor. }
  { clear Hrow' Hop Hk. simpl. unfold take_signing_nonces.
    destruct (signing_nonces s !! sid) as [row|] eqn:E; simpl.
    - destruct (nr_nonces row) as [n|] eqn:En; simpl;
        destruct (store_run _ ops) as [s' outs] eqn:R; simpl; rewrite decide_True by done;
        rewrite ?lookup_alter_eq, E; simpl; rewrite ?En; intros (H1 & H2 & H3).
      + assert (taken_of sid outs = []) as Hnil.
        { destruct (taken_of sid outs) as [|m l]; [done|]. by inversion H2. }
        change (omap _ outs) with (taken_of sid outs). rewrite Hnil.
        change (omap _ outs) with (committed_of sid outs).
        split; [simpl; lia|]. split; [by repeat constructor|].
        eapply Forall_impl; [exact H3|]. by intros.
      + done.
    - destruct (store_run _ ops) as [s' outs] eqn:R; simpl; rewrite decide_True, E by done.
      intros (H1 & H2 & H3). done. }
  destruct (store_step_nonces_ne s op sid) with group as (Heq & Htk & Hcm); try done.
  destruct (store_step s op) as [s1 out]. cbn [fst snd] in *. rewrite Heq.
  destruct (store_run s1 ops) as [s2 outs]. cbn [fst snd].
  assert (taken_of sid (out :: outs) = taken_of sid outs) as ->.
  { change (out :: outs) with ([out] ++ outs). unfold taken_of in *. by rewrite omap_app, Htk. }
  assert (committed_of sid (out :: outs) = committed_of sid outs) as ->.
  { change (out :: outs) with ([out] ++ outs). unfold committed_of in *. by rewrite omap_app, Hcm. }
  assert (pending (signing_nonces s !! sid) sid (op :: ops) =
          pending (signing_nonces s !! sid) sid ops) as ->; [|done].
  unfold pending. destruct (signing_nonces s !! sid); [done|].
  destruct op as [| g' sid' me' n' | | |]; simpl; try done.
  rewrite decide_False; [done|]. intros <-. by apply (Hs g' me' n').
Qed.

(** ** Reconciliation and collection *)

(** Collecting removes no row of a group the last reconciliation retained, and
    with all its secrets retained, no key generation row either. *)
Lemma prune_keeps_retained s s1 s2 block safe retained p :
  schedule_group_secrets_deletion s block retained = Ok (s1, true) ->
  prune_scheduled_secrets s1 safe = Ok (s2, p) ->
  (forall sid row, signing_nonces s !! sid = Some row -> is_Some (retained !! nr_group_id row) ->
    nr_nonces <$> signing_nonces s2 !! sid = Some (nr_nonces row)) /\
  (forall group me row, keygen_secrets s !! (group, me) = Some row ->
    retained !! group = Some All ->
    kr_secrets <$> keygen_secrets s2 !! (group, me) = Some (kr_secrets row)).
Proof.
  unfold schedule_group_secrets_deletion, prune_scheduled_secrets. intros H1 H2.
  result_simpl. case_match; simplify_eq/=. split.
  - intros sid row Hrow Hin.
    eapply (fmap_Some_2 nr_nonces _ (MkNoncesRow _ _ _ _)).
    apply map_lookup_filter_Some. unfold reschedule_nonces. rewrite lookup_fmap, Hrow. split; [done|].
    simpl. unfold reschedule. rewrite decide_True by (by apply elem_of_dom). intros [].
  - intros group me row Hrow Hin.
    eapply (fmap_Some_2 kr_secrets _ (MkKeygenRow _ _)).
    apply map_lookup_filter_Some. unfold reschedule_keygen. rewrite map_lookup_imap, Hrow.
    split; [done|]. simpl. unfold reschedule. rewrite decide_True; [by intros []|].
    apply elem_of_dom. exists All. by apply map_lookup_filter_Some.
Qed.

(** A reconciliation older than the last accepted one changes nothing. *)
Lemma schedule_stale s block last retained :
  reconciliation s = Some last -> block < last -> block <= i64_max ->
  schedule_group_secrets_deletion s block retained = Ok (s, false).
Proof.
  intros Hr Hlt Hmax. unfold schedule_group_secrets_deletion, to_i64.
  rewrite decide_True by done. simpl. rewrite Hr. by rewrite bool_decide_false by lia.
Qed.

(** A deletion once scheduled is never postponed by a later reconciliation. *)
Lemma reschedule_keeps_deadline block retained group b :
  reschedule block retained group (Some b) = None \/
  reschedule block retained group (Some b) = Some b.
Proof. unfold reschedule. case_decide; eauto. Qed.

(** Stored key generation secrets are never replaced. *)
Lemma store_keygen_secrets_existing s group me secrets row :
  keygen_secrets s !! (group, me) = Some row ->
  (store_keygen_secrets s group me secrets).2 = kr_secrets row.
Proof. intros H. unfold store_keygen_secrets. by rewrite H. Qed.

Lemma store_keygen_secrets_stored s group me secrets :
  let out := store_keygen_secrets s group me secrets in
  kr_secrets <$> keygen_secrets out.1 !! (group, me) = Some out.2.
Proof.
  unfold store_keygen_secrets. destruct (keygen_secrets s !! (group, me)) as [row|]; simpl;
    by rewrite lookup_insert_eq.
Qed.

(** ** Deletions wait for the safe block *)

(** Reconciliations are of blocks from [floor] up, collections of blocks below. *)
Definition waits (floor : Z) (op : StoreOp) : Prop :=
  match op with Schedule block _ => floor <= block | Prune safe => safe < floor | _ => True end.

(** A deletion block that is not below [floor]. *)
Definition not_before (floor : Z) (delete_at : option Z) : Prop :=
  match delete_at with Some b => floor <= b | None => True end.

Lemma reschedule_not_before floor block retained group d :
  floor <= block -> not_before floor d -> not_before floor (reschedule block retained group d).
Proof. intros Hb Hd. unfold reschedule. case_decide; [done|]. by destruct d. Qed.

Lemma not_before_not_due floor safe d : safe < floor -> not_before floor d -> ~ due safe d.
Proof. destruct d; simpl; lia. Qed.

Lemma store_step_waits_nonces floor s op sid row :
  waits floor op -> signing_nonces s !! sid = Some row -> not_before floor (nr_delete_at_block row) ->
  exists row', signing_nonces (store_step s op).1 !! sid = Some row' /\
    not_before floor (nr_delete_at_block row') /\ nr_group_id row' = nr_group_id row /\
    (op <> TakeNonces sid -> nr_nonces row' = nr_nonces row).
Proof.
  intros Hw Hrow Hd. destruct op as [g me k|g sid' me n|sid'|block retained|safe]; simpl.
  - unfold store_keygen_secrets. destruct (keygen_secrets s !! (g, me)); simpl; eauto.
  - exists row. split_and!; try done. unfold store_signing_nonces. simpl.
    destruct (signing_nonces s !! sid') eqn:E; [done|].
    destruct (decide (sid' = sid)) as [->|Hne]; [congruence|]. by rewrite lookup_insert_ne.
  - unfold take_signing_nonces.
    destruct (signing_nonces s !! sid' ≫= nr_nonces) as [n|]; simpl; [|eauto].
    destruct (decide (sid' = sid)) as [->|Hne].
    + rewrite lookup_alter_eq, Hrow. eexists. by split_and!.
    + rewrite lookup_alter_ne by done. eauto.
  - unfold schedule_group_secrets_deletion. destruct (to_i64 block) as [b'|] eqn:E; simpl; [|eauto].
    apply to_i64_Some in E as [-> _].
    match goal with |- context [if ?accepted then _ else _] => destruct accepted end; simpl; [|eauto].
    unfold reschedule_nonces. rewrite lookup_fmap, Hrow. eexists. split_and!; [done| |done|done].
    simpl. by apply reschedule_not_before.
  - unfold prune_scheduled_secrets. destruct (to_i64 safe) as [b'|] eqn:E; simpl; [|eauto].
    apply to_i64_Some in E as [-> _]. exists row. split_and!; try done.
    apply map_lookup_filter_Some. split; [done|]. by apply (not_before_not_due floor).
Qed.

Lemma store_step_waits_keygen floor s op key row :
  waits floor op -> keygen_secrets s !! key = Some row -> not_before floor (kr_delete_at_block row) ->
  exists row', keygen_secrets (store_step s op).1 !! key = Some row' /\
    not_before floor (kr_delete_at_block row') /\ kr_secrets row' = kr_secrets row.
Proof.
  intros Hw Hrow Hd. destruct op as [g me k|g sid' me n|sid'|block retained|safe]; simpl.
  - unfold store_keygen_secrets. destruct (decide ((g, me) = key)) as [<-|Hne].
    + rewrite Hrow. simpl. rewrite lookup_insert_eq. eexists. by split_and!.
    + exists row. split_and!; try done.
      destruct (keygen_secrets s !! (g, me)); simpl; rewrite lookup_insert_ne by exact Hne; exact Hrow.
  - eauto.
  - unfold take_signing_nonces. destruct (signing_nonces s !! sid' ≫= nr_nonces); simpl; eauto.
  - unfold schedule_group_secrets_deletion. destruct (to_i64 block) as [b'|] eqn:E; simpl; [|eauto].
    apply to_i64_Some in E as [-> _].
    match goal with |- context [if ?accepted then _ else _] => destruct accepted end; simpl; [|eauto].
    unfold reschedule_keygen. rewrite map_lookup_imap, Hrow. destruct key as [g me].
    eexists. split_and!; [done| |done]. simpl. by apply reschedule_not_before.
  - unfold prune_scheduled_secrets. destruct (to_i64 safe) as [b'|] eqn:E; simpl; [|eauto].
    apply to_i64_Some in E as [-> _]. exists row. split_and!; try done.
    apply map_lookup_filter_Some. split; [done|]. by apply (not_before_not_due floor).
Qed.

Lemma store_run_cons s op ops :
  (store_run s (op :: ops)).1 = (store_run (store_step s op).1 ops).1.
Proof. cbn [store_run]. destruct (store_step s op) as [s' out]. cbn [fst]. by destruct (store_run s' ops). Qed.

(** Nothing a reorganization could bring back is deleted. As long as
    reconciliations are of blocks from [floor] up and collections of blocks below
    it, whatever groups the reconciliations drop and in whatever order the
    operations come, a nonce row or key generation secret that was not scheduled
    for deletion below [floor] is still there, with its pair unless that very pair
    was used. *)
Theorem deletions_wait floor ops s :
  Forall (waits floor) ops ->
  (forall sid row, signing_nonces s !! sid = Some row -> not_before floor (nr_delete_at_block row) ->
     exists row', signing_nonces (store_run s ops).1 !! sid = Some row' /\
       nr_group_id row' = nr_group_id row /\
       (TakeNonces sid ∉ ops -> nr_nonces row' = nr_nonces row)) /\
  (forall key row, keygen_secrets s !! key = Some row -> not_before floor (kr_delete_at_block row) ->
     exists row', keygen_secrets (store_run s ops).1 !! key = Some row' /\
       kr_secrets row' = kr_secrets row).
Proof.
  intros Hw. split.
  - intros sid. revert s. induction Hw as [|op ops Hop _ IH]; intros s row Hrow Hd; [by exists row|].
    rewrite store_run_cons.
    destruct (store_step_waits_nonces floor s op sid row Hop Hrow Hd) as (r1 & Hr1 & Hd1 & Hg1 & Hn1).
    destruct (IH _ r1 Hr1 Hd1) as (r2 & Hr2 & Hg2 & Hn2). exists r2.
    split_and!; [done|congruence|]. rewrite not_elem_of_cons. intros [Ho Hin].
    rewrite Hn2 by done. by apply Hn1.
  - intros key. revert s. induction Hw as [|op ops Hop _ IH]; intros s row Hrow Hd; [by exists row|].
    rewrite store_run_cons.
    destruct (store_step_waits_keygen floor s op key row Hop Hrow Hd) as (r1 & Hr1 & Hd1 & Hs1).
    destruct (IH _ r1 Hr1 Hd1) as (r2 & Hr2 & Hs2). exists r2. by rewrite Hs2.
Qed.

End Secrets.
