(* ===== verification/Messages.v ===== *)
(** The vocabulary the core library and the services share: what the indexer
    reports ([crates/core/src/index/]), and the messages and commands of a state
    transition ([crates/core/src/state/mod.rs]). *)

From S2P Require Import Prelude.

(** ** Index updates *)

Record EventBlock := MkEventBlock { block_number : Z; block_timestamp : Z }.

Record EventLog (E : Type) := MkEventLog {
  log_block : EventBlock;
  log_index : Z;
  log_address : Z;
  log_data : E
}.
Arguments MkEventLog {E} _ _ _ _.
Arguments log_block {E} _.
Arguments log_index {E} _.
Arguments log_address {E} _.
Arguments log_data {E} _.

(** A batch of logs and the inclusive block range they were fetched for. *)
Record EventUpdate (E : Type) := MkEventUpdate {
  blocks_start : Z;
  blocks_last : Z;
  logs : list (EventLog E)
}.
Arguments MkEventUpdate {E} _ _ _.
Arguments blocks_start {E} _.
Arguments blocks_last {E} _.
Arguments logs {E} _.

Module BlockUpdate.
Inductive t :=
| Warp (from to : Z)
| Uncle (number : Z)
| New (number hash timestamp logs_bloom : Z).
End BlockUpdate.

Record BlockStatus := MkBlockStatus { latest : Z; safe : Z }.

Module Update.
Inductive t (E : Type) :=
| Block (update : BlockUpdate.t)
| Logs (update : EventUpdate E).
Arguments Block {E} update.
Arguments Logs {E} update.
End Update.

(** ** State transitions *)

Module Message.
Inductive t (Event Resume : Type) :=
| NewBlock (block : Z)
| Event (log : EventLog Event)
| Resume (result : Resume).
Arguments NewBlock {Event Resume} block.
Arguments Event {Event Resume} log.
Arguments Resume {Event Resume} result.
End Message.

Module Command.
Inductive t (Action Effect : Type) :=
| Action (action : Action)
| Effect (effect : Effect).
Arguments Action {Action Effect} action.
Arguments Effect {Action Effect} effect.
End Command.

(** The trait every service implements. It has no error: a transition always
    returns a state. *)
Class StateTransition (S Event Action Effect Resume : Type) :=
  apply_transition :
    S -> Message.t Event Resume -> S * list (Command.t Action Effect).

Section Run.
Context {S Event Action Effect Resume : Type} {ST : StateTransition S Event Action Effect Resume}.

(** The state after a history of messages, and the commands emitted on the way. *)
Definition run (state : S) (messages : list (Message.t Event Resume)) : S :=
  foldl (fun s m => (apply_transition s m).1) state messages.

Fixpoint emitted (state : S) (messages : list (Message.t Event Resume))
    : list (Command.t Action Effect) :=
  match messages with
  | [] => []
  | m :: messages =>
      (apply_transition state m).2 ++ emitted (apply_transition state m).1 messages
  end.

Lemma run_app s h k : run s (h ++ k) = run (run s h) k.
Proof. unfold run. by rewrite foldl_app. Qed.

Lemma emitted_app s h k : emitted s (h ++ k) = emitted s h ++ emitted (run s h) k.
Proof.
  revert s. induction h as [|m h IH]; intros s; simpl; [done|]. by rewrite IH, (assoc_L (++)).
Qed.

End Run.
