(* ===== verification/Snapshots.v ===== *)
(** The snapshot store, [crates/core/src/state/storage.rs]: the [snapshots]
    table as a map from block numbers to JSON texts. [serde_json] is a third
    party: its encoding is the parameter [Serde]. A failing database is not
    modelled; every other error is. *)

From S2P Require Import Prelude Messages.

Inductive StorageError :=
| Serialization
| BlockNumberOverflow
| MissingSnapshot (block : Z).

(** [serde_json::to_string] and [from_str] for one state type. *)
Class Serde (S : Type) := {
  Json : Type;
  to_string : S -> option Json;
  from_str : Json -> option S
}.

(** A state serializes, and reads back as itself. *)
Class SerdeLaws (S : Type) `{Serde S} : Prop := {
  serde_roundtrip s : exists j, to_string s = Some j /\ from_str j = Some s
}.

Section Snapshots.
Context {S : Type} {SER : Serde S}.

Abbreviation SnapshotStore := (gmap Z Json).

(** [SELECT MAX(block_number)] and [MIN(block_number)]. *)
Definition max_block (st : SnapshotStore) : option Z := last (sorted_keys st).
Definition min_block (st : SnapshotStore) : option Z := head (sorted_keys st).

Definition current (st : SnapshotStore) : result StorageError (option (Z * S)) :=
  match max_block st with
  | None => Ok None
  | Some block_number =>
      match st !! block_number with
      | None => Ok None
      | Some state =>
          state ← ok_or (from_str state) Serialization;
          Ok (Some (block_number, state))
      end
  end.

Definition status (st : SnapshotStore) : option BlockStatus :=
  match min_block st, max_block st with
  | Some safe, Some latest => Some (MkBlockStatus latest safe)
  | _, _ => None
  end.

Definition commit (st : SnapshotStore) (block_number : Z) (state : S)
    : result StorageError SnapshotStore :=
  state ← ok_or (to_string state) Serialization;
  block_number ← ok_or (to_i64 block_number) BlockNumberOverflow;
  Ok (<[block_number := state]> st).

(** The transaction is dropped, and the table unchanged, on any error. *)
Definition reorg (st : SnapshotStore) (uncle : Z)
    : result StorageError (SnapshotStore * (Z * S)) :=
  parent ← ok_or (checked_sub uncle 1) BlockNumberOverflow;
  uncle ← ok_or (to_i64 uncle) BlockNumberOverflow;
  let st := filter (fun e => ¬ uncle <= e.1) st in
  parent_key ← ok_or (to_i64 parent) BlockNumberOverflow;
  state ← ok_or (st !! parent_key) (MissingSnapshot parent);
  state ← ok_or (from_str state) Serialization;
  Ok (st, (parent, state)).

Definition prune (st : SnapshotStore) (safe_block : Z) : result StorageError SnapshotStore :=
  safe_block ← ok_or (to_i64 safe_block) BlockNumberOverflow;
  let below_max k := match max_block st with Some m => bool_decide (k < m) | None => false end in
  Ok (filter (fun e => ¬ (e.1 < safe_block /\ below_max e.1 = true)) st).

(** ** The bounds of the store *)

Lemma max_block_Some st m :
  max_block st = Some m -> is_Some (st !! m) /\ forall k, is_Some (st !! k) -> k <= m.
Proof.
  intros H. apply last_sorted_max in H as [Hin Hle]; [|apply sorted_elements_lt].
  split; [by apply elem_of_sorted_keys|]. intros k Hk. apply Hle. by apply elem_of_sorted_keys.
Qed.

Lemma max_block_None st : max_block st = None -> st = ∅.
Proof.
  intros H. apply last_None in H. apply map_eq. intros k. rewrite lookup_empty.
  destruct (st !! k) eqn:E; [|done]. exfalso.
  assert (k ∈ sorted_keys st) as Hk by (apply elem_of_sorted_keys; eauto).
  rewrite H in Hk. by apply not_elem_of_nil in Hk.
Qed.

Lemma max_block_is st m :
  is_Some (st !! m) -> (forall k, is_Some (st !! k) -> k <= m) -> max_block st = Some m.
Proof.
  intros Hm Hle. destruct (max_block st) as [m'|] eqn:E.
  - apply max_block_Some in E as [Hm' Hle']. specialize (Hle m' Hm'). specialize (Hle' m Hm).
    f_equal. lia.
  - apply max_block_None in E. subst st. by destruct Hm.
Qed.

(** Pruning keeps the resume point, and every rollback anchor from [safe] up. *)
Lemma prune_lookup st safe st' :
  prune st safe = Ok st' ->
  max_block st' = max_block st /\
  (forall k, safe <= k -> st' !! k = st !! k) /\
  (forall k j, st' !! k = Some j -> st !! k = Some j).
Proof.
  unfold prune. intros H. result_simpl. apply to_i64_Some in H as [-> _].
  set (below := fun k => match max_block st with Some m => bool_decide (k < m) | None => false end).
  change (filter _ st) with (filter (fun e : Z * Json => ¬ (e.1 < safe /\ below e.1 = true)) st).
  set (P := fun e : Z * Json => ¬ (e.1 < safe /\ below e.1 = true)).
  assert (forall k j, filter P st !! k = Some j -> st !! k = Some j) as Hsub
    by (by intros k j [? _]%map_lookup_filter_Some).
  split_and!; [| |done].
  - destruct (max_block st) as [m|] eqn:E.
    + pose proof E as E'. apply max_block_Some in E' as [[j Hj] Hle]. apply max_block_is.
      * exists j. apply map_lookup_filter_Some. split; [done|]. unfold P, below. simpl.
        rewrite bool_decide_false by lia. by intros [_ ?].
      * intros k [j' Hk]. apply Hle. exists j'. by apply Hsub.
    + apply max_block_None in E. subst st. rewrite map_filter_empty. done.
  - intros k Hk. destruct (st !! k) as [j|] eqn:E.
    + apply map_lookup_filter_Some. split; [done|]. unfold P. simpl. lia.
    + apply map_lookup_filter_None. by left.
Qed.

(** Collecting old snapshots loses nothing that can still be needed. After a
    collection up to block [safe] the store resumes from the same snapshot as
    before, a reorganization of any block above [safe] rolls back to the same
    state (or fails the same way), and nothing is in the store that was not. *)
Theorem collection_keeps_anchors st safe st' :
  prune st safe = Ok st' ->
  current st' = current st /\
  (forall uncle, safe < uncle -> snd <$> reorg st' uncle = snd <$> reorg st uncle) /\
  st' ⊆ st.
Proof.
  intros H. apply prune_lookup in H as (Hm & Hk & Hs). split_and!.
  - unfold current. rewrite Hm. destruct (max_block st) as [m|] eqn:E; [|done].
    destruct (max_block_Some _ _ E) as [[j Hj] _]. rewrite Hj.
    destruct (max_block_Some st' m) as [[j' Hj'] _]; [congruence|]. rewrite Hj'.
    pose proof (Hs _ _ Hj'). by simplify_eq.
  - intros uncle Hu. unfold reorg. destruct (checked_sub uncle 1) as [parent|] eqn:E; [|done].
    apply checked_sub_Some in E as [-> _]. simpl. unfold ok_or.
    destruct (to_i64 uncle) as [u|] eqn:Eu; [|done]. apply to_i64_Some in Eu as [-> _]. simpl.
    destruct (to_i64 (uncle - 1)) as [q|] eqn:Eq; [|done]. apply to_i64_Some in Eq as [-> _]. simpl.
    rewrite !(lookup_filter_true (fun e : Z * Json => ¬ uncle <= e.1)) by (simpl; lia).
    rewrite (Hk (uncle - 1)) by lia. destruct (st !! (uncle - 1)) as [j|]; [|done]. simpl.
    by destruct (from_str j).
  - apply map_subseteq_spec. exact Hs.
Qed.

End Snapshots.
