(* ===== verification/Configuration.v ===== *)
(** Configuration: the values of [crates/core/src/serialization.rs], in which every
    [${NAME}] is replaced by an environment variable and every [$$] by a dollar,
    and the position that [crates/core/src/config.rs] keeps of an error instead of
    the file's contents. How the result's buffer grows is left out. *)

From Stdlib Require Import String Ascii.
From S2P Require Import Prelude Text.

(** ** The position of an error *)

(** The contents are UTF-8: a character is its first byte. *)
Definition newline : Z := 10.
Definition starts_char (b : Z) : bool := negb (bool_decide (128 <= b < 192)).
Definition chars_count (s : bytes) : nat := length (filter (fun b => starts_char b = true) s).

(** What follows the last newline, if there is one: [rfind] and the slice. *)
Fixpoint after_newline (s : bytes) : option bytes :=
  match s with
  | [] => None
  | b :: s =>
      match after_newline s with
      | Some line => Some line
      | None => if decide (b = newline) then Some s else None
      end
  end.

(** [ParseError::new]: the line and the column of the span's start. *)
Definition error_position (contents : bytes) (span : option nat) : option (nat * nat) :=
  (fun start =>
    let before := take (Nat.min start (length contents)) contents in
    (length (filter (fun b => b = newline) before) + 1,
     chars_count (default before (after_newline before)) + 1)%nat) <$> span.

Lemma after_newline_None s : newline ∉ s -> after_newline s = None.
Proof.
  induction s as [|b s IH]; [done|]. intros Hs. cbn [after_newline]. rewrite IH by set_solver.
  rewrite decide_False; [done|]. set_solver.
Qed.
Lemma after_newline_app s line : newline ∉ line -> after_newline (s ++ newline :: line) = Some line.
Proof.
  intros Hl. induction s as [|b s IH]; cbn [app after_newline]; [|by rewrite IH].
  rewrite after_newline_None by done. by rewrite decide_True.
Qed.

(** The lines before an error, whole, and the part of its own before it. *)
Fixpoint join_lines (lines : list bytes) (line : bytes) : bytes :=
  match lines with [] => line | l :: lines => l ++ newline :: join_lines lines line end.

Lemma join_lines_snoc lines l line : join_lines (lines ++ [l]) line = join_lines lines l ++ newline :: line.
Proof. induction lines as [|l' lines IH]; [done|]. cbn [app join_lines]. rewrite IH. by rewrite <- app_assoc. Qed.

(** The position counts lines and characters from one. *)
Lemma error_position_spec lines line rest :
  Forall (fun l => newline ∉ l) lines -> newline ∉ line ->
  error_position (join_lines lines line ++ rest) (Some (length (join_lines lines line))) =
    Some (length lines + 1, chars_count line + 1)%nat.
Proof.
  intros Hls Hl. unfold error_position. cbn [fmap option_fmap option_map]. rewrite length_app, Nat.min_l by lia.
  rewrite take_app_length.
  assert (forall l : bytes, newline ∉ l -> filter (fun b => b = newline) l = []) as Hnone.
  { intros l Hn. induction l as [|b l IH]; [done|]. rewrite filter_cons_False by set_solver. apply IH. set_solver. }
  assert (length (filter (fun b => b = newline) (join_lines lines line)) = length lines) as ->.
  { clear rest. induction Hls as [|l lines Hll _ IH]; cbn [join_lines length]; [by rewrite Hnone|].
    rewrite filter_app, filter_cons_True, length_app, Hnone by done. cbn [length]. by rewrite IH. }
  do 2 f_equal. f_equal. destruct lines as [|l lines _] using rev_ind; [by rewrite after_newline_None|].
  by rewrite join_lines_snoc, after_newline_app.
Qed.

(** ** Values *)

(** [env::VarError], and what [substitute] fails with. *)
Inductive VarError := NotPresent | NotUnicode.
Inductive SubstituteError :=
| UnterminatedReference
| InvalidName (name : string)
| VariableNotSet (name : string)
| VariableNotUnicode (name : string)
| UnexpectedDollar.

Definition between (a b : ascii) (c : ascii) : bool := bool_decide (N_of_ascii a <= N_of_ascii c <= N_of_ascii b)%N.
Definition is_ascii_alphabetic (c : ascii) : bool := between "a" "z" c || between "A" "Z" c.
Definition is_ascii_alphanumeric (c : ascii) : bool := is_ascii_alphabetic c || between "0" "9" c.
Definition is_underscore (c : ascii) : bool := if ascii_dec c "_" then true else false.

Definition is_valid_name (name : string) : bool :=
  match name with
  | EmptyString => false
  | String c name =>
      (is_ascii_alphabetic c || is_underscore c) &&
      all_chars (fun c => is_ascii_alphanumeric c || is_underscore c) name
  end.

Section Substitute.
Context (var : string -> result VarError string).

(** A variable's value, or why there is none. *)
Definition variable (name : string) : result SubstituteError string :=
  match var name with
  | Ok value => Ok value
  | Err NotPresent => Err (VariableNotSet name)
  | Err NotUnicode => Err (VariableNotUnicode name)
  end.

(** The loop of [substitute]; every round takes a dollar off the rest, so the
    length of the value bounds them. *)
Fixpoint substitute_from (fuel : nat) (acc rest : string) : result SubstituteError string :=
  match fuel with
  | O => Ok (acc ++ rest)%string
  | S fuel =>
      match split_once "$" rest with
      | None => Ok (acc ++ rest)%string
      | Some (before, rest) =>
          let acc := (acc ++ before)%string in
          match strip_prefix "$" rest with
          | Some tail => substitute_from fuel (acc ++ "$") tail
          | None =>
              match strip_prefix "{" rest with
              | Some tail =>
                  '(name, tail) ← (match split_once "}" tail with Some r => Ok r | None => Err UnterminatedReference end);
                  if negb (is_valid_name name) then Err (InvalidName name)
                  else
                    value ← variable name;
                    substitute_from fuel (acc ++ value) tail
              | None => Err UnexpectedDollar
              end
          end
      end
  end.
Definition substitute (value : string) : result SubstituteError string :=
  substitute_from (S (String.length value)) EmptyString value.
End Substitute.

(** ** Values as their author writes them *)

(** A value is text, escaped dollars and references. *)
Inductive Segment := Text (text : string) | EscapedDollar | Reference (name : string).

Definition segment_ok (seg : Segment) : Prop :=
  match seg with
  | Text text => no_char "$" text = true
  | EscapedDollar => True
  | Reference name => is_valid_name name = true
  end.
Definition print_segment (seg : Segment) : string :=
  match seg with
  | Text text => text
  | EscapedDollar => "$$"
  | Reference name => String "$" (String "{" (name ++ String "}" EmptyString))
  end.
Fixpoint print (segs : list Segment) : string :=
  match segs with [] => EmptyString | seg :: segs => (print_segment seg ++ print segs)%string end.

Section Meaning.
Context (var : string -> result VarError string).

Definition segment_meaning (seg : Segment) : result SubstituteError string :=
  match seg with
  | Text text => Ok text
  | EscapedDollar => Ok "$"%string
  | Reference name => variable var name
  end.
Fixpoint meaning (segs : list Segment) : result SubstituteError string :=
  match segs with
  | [] => Ok EmptyString
  | seg :: segs => value ← segment_meaning seg; rest ← meaning segs; Ok (value ++ rest)%string
  end.

(** Why what follows a dollar is not a segment, or not one that has a value. *)
Inductive broken : string -> SubstituteError -> Prop :=
| broken_dollar tail : strip_prefix "$" tail = None -> strip_prefix "{" tail = None -> broken tail UnexpectedDollar
| broken_reference tail : no_char "}" tail = true -> broken (String "{" tail) UnterminatedReference
| broken_name name tail : no_char "}" name = true -> is_valid_name name = false ->
    broken (String "{" (name ++ String "}" tail)) (InvalidName name)
| broken_variable name tail e : is_valid_name name = true -> variable var name = Err e ->
    broken (String "{" (name ++ String "}" tail)) e.

(** A valid name closes no reference. *)
Lemma valid_name_char c : is_ascii_alphanumeric c || is_underscore c = true -> c <> "}"%char.
Proof. intros H ->. vm_compute in H. discriminate H. Qed.
Lemma valid_name_closed name : is_valid_name name = true -> no_char "}" name = true.
Proof.
  assert (forall s, all_chars (fun c => is_ascii_alphanumeric c || is_underscore c) s = true -> no_char "}" s = true) as Hall.
  { induction s as [|c s IH]; [done|]. unfold no_char in *. simpl. intros [Hc Hs]%andb_true_iff.
    apply valid_name_char in Hc. destruct (ascii_dec c "}"); [done|]. by apply IH. }
  destruct name as [|c name]; [done|]. simpl. intros [Hc Hn]%andb_true_iff. apply (Hall (String c name)). simpl.
  rewrite Hn, andb_true_r. unfold is_ascii_alphanumeric. destruct (is_ascii_alphabetic c), (is_underscore c), (between _ _ c); done.
Qed.

(** ** The loop *)

(** Any fuel beyond the length of the rest is as good as any other. *)
Lemma fuel_enough n : forall rest fuel fuel' acc, (String.length rest <= n)%nat ->
  (String.length rest < fuel)%nat -> (String.length rest < fuel')%nat ->
  substitute_from var fuel acc rest = substitute_from var fuel' acc rest.
Proof.
  induction n as [n IH] using lt_wf_ind. intros rest fuel fuel' acc Hn Hf Hf'.
  destruct fuel as [|fuel], fuel' as [|fuel']; try lia. cbn [substitute_from].
  destruct (split_once "$" rest) as [[before r]|] eqn:E; [|done]. apply split_once_Some in E as [-> _].
  rewrite length_app_s in Hn, Hf, Hf'. simpl in Hn, Hf, Hf'.
  destruct (strip_prefix "$" r) as [tail|] eqn:E1.
  { apply strip_prefix_Some in E1 as ->. simpl in *. apply (IH (String.length tail)); lia. }
  destruct (strip_prefix "{" r) as [tail|] eqn:E2; [|done]. apply strip_prefix_Some in E2 as ->.
  destruct (split_once "}" tail) as [[name tail']|] eqn:E3; [|done]. apply split_once_Some in E3 as [-> _].
  simpl in *. rewrite length_app_s in *. simpl in *. destruct (negb _); [done|].
  destruct (variable var name); [|done]. cbn [mbind result_bind]. apply (IH (String.length tail')); lia.
Qed.

Definition run (acc rest : string) : result SubstituteError string :=
  substitute_from var (S (String.length rest)) acc rest.

Lemma run_fuel fuel acc rest : (String.length rest < fuel)%nat -> substitute_from var fuel acc rest = run acc rest.
Proof. intros Hf. apply (fuel_enough (String.length rest)); lia. Qed.

Lemma run_plain acc rest : no_char "$" rest = true -> run acc rest = Ok (acc ++ rest)%string.
Proof. intros Hn. unfold run. cbn [substitute_from]. by rewrite (proj2 (split_once_None _ _) Hn). Qed.

Lemma split_once_text text rest : no_char "$" text = true ->
  split_once "$" (text ++ rest)%string = (fun r => ((text ++ r.1)%string, r.2)) <$> split_once "$" rest.
Proof.
  induction text as [|c text IH]; intros Ht.
  { change ("" ++ rest)%string with rest. by destruct (split_once "$" rest) as [[]|]. }
  rewrite app_cons_s. unfold no_char in Ht. simpl in *. destruct (ascii_dec c "$"); [done|]. rewrite IH by done.
  by destruct (split_once "$" rest) as [[]|].
Qed.

Lemma run_text acc text rest : no_char "$" text = true -> run acc (text ++ rest)%string = run (acc ++ text)%string rest.
Proof.
  intros Ht. unfold run. cbn [substitute_from]. rewrite split_once_text by done.
  destruct (split_once "$" rest) as [[before r]|] eqn:E; [|by rewrite app_assoc_s]. cbn [fmap option_fmap option_map fst snd].
  apply split_once_Some in E as [-> _].
  assert (String.length r < String.length (text ++ before ++ String "$" r)%string)%nat as H1
    by (rewrite !length_app_s; simpl; lia).
  assert (String.length r < String.length (before ++ String "$" r)%string)%nat as H2
    by (rewrite length_app_s; simpl; lia).
  destruct (strip_prefix "$" r) as [tail|] eqn:E1.
  { apply strip_prefix_Some in E1 as ->. simpl in H1, H2. rewrite !run_fuel by lia. by rewrite !app_assoc_s. }
  destruct (strip_prefix "{" r) as [tail|] eqn:E2; [|done]. apply strip_prefix_Some in E2 as ->.
  destruct (split_once "}" tail) as [[name tail']|] eqn:E3; [|done]. apply split_once_Some in E3 as [-> _].
  simpl in H1, H2. rewrite length_app_s in H1, H2. simpl in H1, H2. cbn [mbind result_bind].
  destruct (negb _); [done|]. destruct (variable var name); [|done]. cbn [mbind result_bind]. rewrite !run_fuel by lia. by rewrite !app_assoc_s.
Qed.

(** What follows a dollar. *)
Lemma run_dollar acc rest : run acc (String "$" rest) =
  match strip_prefix "$" rest with
  | Some tail => run (acc ++ "$")%string tail
  | None =>
      match strip_prefix "{" rest with
      | Some tail =>
          '(name, tail) ← (match split_once "}" tail with Some r => Ok r | None => Err UnterminatedReference end);
          if negb (is_valid_name name) then Err (InvalidName name)
          else value ← variable var name; run (acc ++ value)%string tail
      | None => Err UnexpectedDollar
      end
  end.
Proof.
  unfold run at 1. cbn [substitute_from].
  change (split_once "$" (String "$" rest)) with (Some (EmptyString, rest)). cbn iota beta. rewrite app_nil_s.
  destruct (strip_prefix "$" rest) as [tail|] eqn:E1.
  { apply strip_prefix_Some in E1 as ->. apply run_fuel. simpl. lia. }
  destruct (strip_prefix "{" rest) as [tail|] eqn:E2; [|done]. apply strip_prefix_Some in E2 as ->.
  destruct (split_once "}" tail) as [[name tail']|] eqn:E3; [|done]. apply split_once_Some in E3 as [-> _].
  cbn [mbind result_bind]. destruct (negb _); [done|]. destruct (variable var name); [|done]. cbn [mbind result_bind].
  apply run_fuel. simpl. rewrite length_app_s. simpl. lia.
Qed.

Lemma run_reference acc name rest : is_valid_name name = true ->
  run acc (String "$" (String "{" (name ++ String "}" rest))) = (value ← variable var name; run (acc ++ value)%string rest).
Proof.
  intros Hn. rewrite run_dollar. rewrite strip_prefix_cons.
  change (strip_prefix "$" (String "{" (name ++ String "}" rest))) with (@None string). cbn iota beta.
  rewrite split_once_app by (by apply valid_name_closed). cbn [mbind result_bind]. by rewrite Hn.
Qed.

(** ** Segments *)

Lemma run_segments acc segs rest : Forall segment_ok segs ->
  run acc (print segs ++ rest)%string = (out ← meaning segs; run (acc ++ out)%string rest).
Proof.
  revert acc. induction segs as [|seg segs IH]; intros acc Hok; cbn [print meaning mbind result_bind].
  { by rewrite app_nil_s. }
  apply Forall_cons in Hok as [Hseg Hok]. rewrite <- app_assoc_s.
  assert (run acc (print_segment seg ++ print segs ++ rest)%string =
    (value ← segment_meaning seg; run (acc ++ value)%string (print segs ++ rest)%string)) as ->.
  { destruct seg as [text| |name]; cbn [print_segment segment_meaning mbind result_bind].
    - by apply run_text.
    - rewrite !app_cons_s, run_dollar. by rewrite strip_prefix_cons.
    - rewrite !app_cons_s, <- app_assoc_s, app_cons_s. change ("" ++ ?s)%string with s. by apply run_reference. }
  destruct (segment_meaning seg) as [value|e]; [|done]. cbn [mbind result_bind]. rewrite IH by done.
  destruct (meaning segs) as [out|e]; [|done]. cbn [mbind result_bind]. by rewrite app_assoc_s.
Qed.

Lemma run_broken acc tail e : broken tail e -> run acc (String "$" tail) = Err e.
Proof.
  intros Hb. rewrite run_dollar. destruct Hb as [tail H1 H2|tail Hn|name tail Hn Hv|name tail e Hv Hvar].
  - by rewrite H1, H2.
  - rewrite strip_prefix_cons. change (strip_prefix "$" (String "{" tail)) with (@None string). cbn iota beta.
    by rewrite (proj2 (split_once_None _ _) Hn).
  - rewrite strip_prefix_cons. change (strip_prefix "$" (String "{" ?s)) with (@None string). cbn iota beta.
    rewrite split_once_app by done. cbn [mbind result_bind]. by rewrite Hv.
  - rewrite strip_prefix_cons. change (strip_prefix "$" (String "{" ?s)) with (@None string). cbn iota beta.
    rewrite split_once_app by (by apply valid_name_closed). cbn [mbind result_bind]. by rewrite Hv, Hvar.
Qed.
End Meaning.

(** ** What a substitution is *)

Section Substitution.
Context (var : string -> result VarError string).

(** Every value is segments up to its end or to a dollar that starts none. *)
Definition malformed (tail : string) : Prop :=
  (strip_prefix "$" tail = None /\ strip_prefix "{" tail = None) \/
  (exists tail', tail = String "{" tail' /\ no_char "}" tail' = true) \/
  (exists name tail', tail = String "{" (name ++ String "}" tail') /\ no_char "}" name = true /\ is_valid_name name = false).

Lemma malformed_broken tail : malformed tail -> exists e, broken var tail e.
Proof.
  intros [[H1 H2]|[(t & -> & H)|(name & t & -> & H1 & H2)]]; eexists.
  - by apply broken_dollar.
  - by apply broken_reference.
  - by apply broken_name.
Qed.

Lemma decompose value : exists segs, Forall segment_ok segs /\
  (value = print segs \/ exists tail, value = (print segs ++ String "$" tail)%string /\ malformed tail).
Proof.
  remember (String.length value) as n eqn:Hn. revert value Hn. induction n as [n IH] using lt_wf_ind. intros value ->.
  destruct (split_once "$" value) as [[before r]|] eqn:E.
  2: { apply split_once_None in E. exists [Text value]. split; [by repeat constructor|]. left. cbn. by rewrite app_nil_s. }
  apply split_once_Some in E as [-> Hb].
  assert (forall seg rest, segment_ok seg -> String "$" r = (print_segment seg ++ rest)%string ->
    (String.length rest < String.length (before ++ String "$" r)%string)%nat ->
    exists segs, Forall segment_ok segs /\ ((before ++ String "$" r)%string = print segs \/
      exists tail, (before ++ String "$" r)%string = (print segs ++ String "$" tail)%string /\ malformed tail)) as Hseg.
  { intros seg rest Hs Heq Hl. destruct (IH _ Hl rest eq_refl) as (segs & Hok & Hv). rewrite Heq.
    exists (Text before :: seg :: segs). split; [by repeat constructor|]. cbn [print print_segment].
    destruct Hv as [->|(tail & -> & Hm)]; [by left|right]. exists tail. split; [|done]. by rewrite <- !app_assoc_s. }
  assert (malformed r -> exists segs, Forall segment_ok segs /\ ((before ++ String "$" r)%string = print segs \/
      exists tail, (before ++ String "$" r)%string = (print segs ++ String "$" tail)%string /\ malformed tail)) as Hmal.
  { intros Hm. exists [Text before]. split; [by repeat constructor|]. right. exists r. split; [|done].
    cbn [print print_segment]. by rewrite app_nil_s. }
  rewrite length_app_s in Hseg. simpl in Hseg.
  destruct (strip_prefix "$" r) as [tail|] eqn:E1.
  { apply strip_prefix_Some in E1 as ->. apply (Hseg EscapedDollar tail); [done|done|simpl; lia]. }
  destruct (strip_prefix "{" r) as [tail|] eqn:E2; [|apply Hmal; by left]. apply strip_prefix_Some in E2 as ->.
  destruct (split_once "}" tail) as [[name tail']|] eqn:E3.
  2: { apply Hmal. right; left. exists tail. split; [done|]. by apply split_once_None. }
  apply split_once_Some in E3 as [-> Hname]. destruct (is_valid_name name) eqn:Hv.
  - apply (Hseg (Reference name) tail'); [done| |simpl; rewrite length_app_s; simpl; lia].
    cbn [print_segment]. by rewrite !app_cons_s, <- app_assoc_s, app_cons_s.
  - apply Hmal. right; right. by exists name, tail'.
Qed.

(** Segments without a meaning have a first reference without a value. *)
Lemma meaning_Err segs e : meaning var segs = Err e ->
  exists before name after out, segs = before ++ Reference name :: after /\ meaning var before = Ok out /\ variable var name = Err e.
Proof.
  induction segs as [|seg segs IH]; intros Hm; [done|]. cbn [meaning] in Hm.
  destruct (segment_meaning var seg) as [value|e'] eqn:Es; cbn [mbind result_bind] in Hm.
  - destruct (meaning var segs) as [rest|e'] eqn:Em; [done|]. injection Hm as <-.
    destruct (IH eq_refl) as (before & name & after & out & -> & Hb & Hv).
    exists (seg :: before), name, after, (value ++ out)%string. split_and!; [done| |done]. cbn [meaning]. by rewrite Es, Hb.
  - injection Hm as <-. destruct seg as [| |name]; [done|done|]. by exists [], name, segs, EmptyString.
Qed.

Lemma print_app segs segs' : print (segs ++ segs') = (print segs ++ print segs')%string.
Proof. induction segs as [|seg segs IH]; [done|]. cbn [app print]. by rewrite IH, app_assoc_s. Qed.

Lemma substitute_run value : substitute var value = run var EmptyString value.
Proof. done. Qed.

Lemma substitute_segments segs rest : Forall segment_ok segs ->
  substitute var (print segs ++ rest)%string = (out ← meaning var segs; run var out rest).
Proof. intros Hok. rewrite substitute_run, run_segments by done. by destruct (meaning var segs). Qed.

(** C40: a configuration value means what is written in it. Substitution succeeds on exactly
    the values that are text without dollars, escaped dollars and references to
    variables that have a value, and gives the text with those values in their
    place, which are not substituted again; otherwise it names the first dollar
    that is neither, or the first variable that has none. *)
Theorem substitute_spec value :
  (forall out, substitute var value = Ok out <->
    exists segs, Forall segment_ok segs /\ value = print segs /\ meaning var segs = Ok out) /\
  (forall e, substitute var value = Err e <->
    exists segs tail out, Forall segment_ok segs /\ value = (print segs ++ String "$" tail)%string /\
      meaning var segs = Ok out /\ broken var tail e).
Proof.
  assert (forall segs out, Forall segment_ok segs -> meaning var segs = Ok out -> substitute var (print segs) = Ok out) as Hok.
  { intros segs out Hs Hm. rewrite <- (app_nil_s (print segs)), substitute_segments, Hm by done. cbn [mbind result_bind].
    rewrite run_plain by done. by rewrite app_nil_s. }
  assert (forall segs tail out e, Forall segment_ok segs -> meaning var segs = Ok out -> broken var tail e ->
    substitute var (print segs ++ String "$" tail)%string = Err e) as Herr.
  { intros segs tail out e Hs Hm Hb. rewrite substitute_segments, Hm by done. by apply run_broken. }
  assert ((exists segs out, Forall segment_ok segs /\ value = print segs /\ meaning var segs = Ok out) \/
    (exists segs tail out e, Forall segment_ok segs /\ value = (print segs ++ String "$" tail)%string /\
      meaning var segs = Ok out /\ broken var tail e)) as Hcases.
  { destruct (decompose value) as (segs & Hs & Hv). destruct (meaning var segs) as [out|e] eqn:Hm.
    - destruct Hv as [->|(tail & -> & [e Hb]%malformed_broken)]; [by left; exists segs, out|right]. by exists segs, tail, out, e.
    - right. destruct (meaning_Err _ _ Hm) as (before & name & after & out & -> & Hb & Hvar).
      apply Forall_app in Hs as [Hs [Hn _]%Forall_cons].
      assert (exists rest, value = (print (before ++ Reference name :: after) ++ rest)%string) as [rest ->].
      { destruct Hv as [->|(tail & -> & _)]; [exists EmptyString; by rewrite app_nil_s|by eexists]. }
      exists before, (String "{" (name ++ String "}" (print after ++ rest))), out, e. split_and!; [done| |done|by apply broken_variable].
      rewrite print_app. cbn [print print_segment]. rewrite <- !app_assoc_s, !app_cons_s, <- !app_assoc_s. done. }
  split; [intros out|intros e]; split.
  - intros Ho. destruct Hcases as [(segs & out' & Hs & -> & Hm)|(segs & tail & out' & e & Hs & -> & Hm & Hb)].
    + exists segs. rewrite (Hok _ _ Hs Hm) in Ho. by injection Ho as <-.
    + by rewrite (Herr _ _ _ _ Hs Hm Hb) in Ho.
  - intros (segs & Hs & -> & Hm). by apply Hok.
  - intros He. destruct Hcases as [(segs & out' & Hs & -> & Hm)|(segs & tail & out' & e' & Hs & -> & Hm & Hb)].
    + by rewrite (Hok _ _ Hs Hm) in He.
    + rewrite (Herr _ _ _ _ Hs Hm Hb) in He. injection He as <-. by exists segs, tail, out'.
  - intros (segs & tail & out & Hs & -> & Hm & Hb). by eapply Herr.
Qed.
End Substitution.
