(* ===== verification/Provider.v ===== *)
(** The provider, [crates/core/src/provider/mod.rs]: the transport that counts
    requests and keeps the node's URL out of errors; and the wait of
    [crates/core/src/index/clock.rs]. *)

From Stdlib Require Import String.
From S2P Require Import Prelude.

(** ** The clock *)

(** [Clock::sleep_until]: the milliseconds it sleeps, if it does. *)
Definition sleep_until (now target : Z) : option Z := if decide (now < target) then Some (target - now) else None.

Lemma sleep_until_reached now target : now + default 0 (sleep_until now target) = Z.max now target.
Proof. unfold sleep_until. case_decide; simpl; lia. Qed.

(** ** Transport errors *)

(** [RpcError] and [TransportErrorKind], as far as they are told apart: a custom
    error of the HTTP client, another custom error, or anything else. An HTTP
    error may name the URL it was for. *)
Record HttpError (D : Type) := MkHttpError { http_url : option string; http_detail : D }.
Arguments MkHttpError {D} _ _.
Arguments http_url {D} _.
Arguments http_detail {D} _.
Inductive TransportError (D O : Type) :=
| CustomHttp (e : HttpError D)
| CustomOther (e : O)
| OtherError (e : O).
Arguments CustomHttp {D O} e.
Arguments CustomOther {D O} e.
Arguments OtherError {D O} e.

Definition without_url {D O} (e : TransportError D O) : TransportError D O :=
  match e with
  | CustomHttp e => CustomHttp (MkHttpError None (http_detail e))
  | CustomOther e => CustomOther e
  | OtherError e => OtherError e
  end.

(** ** Requests *)

Inductive RpcRequestResult := RpcSuccess | RpcFailure.
#[export] Instance RpcRequestResult_eq_dec : EqDecision RpcRequestResult.
Proof. solve_decision. Defined.

(** Requests of a packet by their id, and responses, each a success or not. *)
Abbreviation RequestPacket := (list (Z * string)).
Abbreviation ResponsePacket := (list (Z * bool)).
Abbreviation Statuses := (gmap Z (string * RpcRequestResult)).

(** Every request is a failure until it is answered. *)
Definition initial_statuses (requests : RequestPacket) : Statuses :=
  foldl (fun m r => <[r.1 := (r.2, RpcFailure)]> m) ∅ requests.
Definition record_response (m : Statuses) (response : Z * bool) : Statuses :=
  match m !! response.1 with
  | Some (method, _) => <[response.1 := (method, if response.2 then RpcSuccess else RpcFailure)]> m
  | None => m
  end.

(** The statuses once the packet is answered, or is not. *)
Definition final_statuses {D O} (response : result (TransportError D O) ResponsePacket) (m : Statuses) : Statuses :=
  match response with Ok responses => foldl record_response m responses | Err _ => m end.

(** [ObservabilityTransport::call]: the counters that are incremented, one per
    request, and what the caller gets. *)
Definition call {D O} (inner : RequestPacket -> result (TransportError D O) ResponsePacket) (requests : RequestPacket)
    : list (string * RpcRequestResult) * result (TransportError D O) ResponsePacket :=
  let response := map_err without_url (inner requests) in
  (snd <$> map_to_list (final_statuses response (initial_statuses requests)), response).

Lemma initial_statuses_lookup requests : NoDup requests.*1 ->
  initial_statuses requests = list_to_map ((fun r => (r.1, (r.2, RpcFailure))) <$> requests).
Proof.
  unfold initial_statuses.
  assert (forall m : Statuses, NoDup requests.*1 -> (forall id, id ∈ requests.*1 -> m !! id = None) ->
    foldl (fun m r => <[r.1 := (r.2, RpcFailure)]> m) m requests =
      list_to_map ((fun r => (r.1, (r.2, RpcFailure))) <$> requests) ∪ m) as Hgen.
  { induction requests as [|[id method] requests IH]; intros m Hn Hm; [cbn; by rewrite map_empty_union|]. cbn in *.
    apply NoDup_cons in Hn as [Hid Hn]. rewrite IH; [|done|].
    - rewrite <- insert_union_r; [|].
      + by rewrite insert_union_l.
      + apply not_elem_of_list_to_map_1. rewrite <- list_fmap_compose. done.
    - intros id' Hin. rewrite lookup_insert_ne by (by intros ->). apply Hm. by right. }
  intros Hn. rewrite Hgen; [by rewrite map_union_empty|done|]. intros. apply lookup_empty.
Qed.

(** The last response to a request, if there is one. *)
Definition answer_of (id : Z) (responses : ResponsePacket) : option bool :=
  foldl (fun a r => if decide (r.1 = id) then Some r.2 else a) None responses.
Definition outcome_of (a : option bool) : RpcRequestResult := match a with Some true => RpcSuccess | _ => RpcFailure end.

Lemma record_responses_lookup responses (m : Statuses) id method r :
  m !! id = Some (method, r) ->
  foldl record_response m responses !! id =
    Some (method, foldl (fun r (x : Z * bool) => if decide (x.1 = id) then (if x.2 then RpcSuccess else RpcFailure) else r) r responses).
Proof.
  revert m r. induction responses as [|[id' ok] responses IH]; intros m r Hm; [done|]. cbn [foldl fst snd]. apply IH.
  unfold record_response. cbn [fst snd]. destruct (decide (id' = id)) as [->|Hne].
  - rewrite Hm. by rewrite lookup_insert_eq.
  - destruct (m !! id') as [[]|]; [|done]. by rewrite lookup_insert_ne.
Qed.

Lemma record_responses_dom responses (m : Statuses) : dom (foldl record_response m responses) = dom m.
Proof.
  revert m. induction responses as [|[id ok] responses IH]; intros m; [done|]. cbn [foldl]. rewrite IH.
  unfold record_response. cbn [fst snd]. destruct (m !! id) as [[]|] eqn:E; [|done].
  rewrite dom_insert_L. apply elem_of_dom_2 in E. set_solver.
Qed.

Lemma outcome_fold id responses a :
  foldl (fun r (x : Z * bool) => if decide (x.1 = id) then (if x.2 then RpcSuccess else RpcFailure) else r) (outcome_of a) responses =
  outcome_of (foldl (fun a r => if decide (r.1 = id) then Some r.2 else a) a responses).
Proof.
  revert a. induction responses as [|[id' ok] responses IH]; intros a; [done|]. cbn [foldl fst snd].
  case_decide; [|apply IH]. rewrite <- IH. by destruct ok.
Qed.

Definition final_outcome {D O} (response : result (TransportError D O) ResponsePacket) (id : Z) : RpcRequestResult :=
  match response with Ok responses => outcome_of (answer_of id responses) | Err _ => RpcFailure end.

Lemma keys_with {A} (f : Z * string -> A) (requests : RequestPacket) : ((fun r => (r.1, f r)) <$> requests).*1 = requests.*1.
Proof. by rewrite <- list_fmap_compose. Qed.

Lemma final_statuses_eq {D O} (response : result (TransportError D O) ResponsePacket) requests : NoDup requests.*1 ->
  final_statuses response (initial_statuses requests) =
    list_to_map ((fun r => (r.1, (r.2, final_outcome response r.1))) <$> requests).
Proof.
  intros Hn. apply map_eq. intros id. destruct (decide (id ∈ requests.*1)) as [Hid|Hid].
  - apply list_elem_of_fmap in Hid as ([id' method] & -> & Hr). cbn [fst].
    assert (initial_statuses requests !! id' = Some (method, RpcFailure)) as Hi.
    { rewrite initial_statuses_lookup by done. apply elem_of_list_to_map_1; [by rewrite keys_with|].
      apply list_elem_of_fmap. by exists (id', method). }
    transitivity (Some (method, final_outcome response id')).
    + unfold final_statuses, final_outcome. destruct response as [responses|e]; [|done].
      rewrite (record_responses_lookup _ _ _ _ _ Hi). do 2 f_equal. apply (outcome_fold id' responses None).
    + symmetry. apply elem_of_list_to_map_1; [by rewrite keys_with|]. apply list_elem_of_fmap. by exists (id', method).
  - transitivity (@None (string * RpcRequestResult)).
    + apply not_elem_of_dom.
      assert (dom (final_statuses response (initial_statuses requests)) = dom (initial_statuses requests)) as ->
        by (destruct response; [by apply record_responses_dom|done]).
      rewrite initial_statuses_lookup by done. apply not_elem_of_dom, not_elem_of_list_to_map_1. by rewrite keys_with.
    + symmetry. apply not_elem_of_list_to_map_1. by rewrite keys_with.
Qed.

(** A request with an id of its own is counted once, under its method, as a success
    when the last response to it was one; and no error carries a URL. *)
Lemma call_spec {D O} inner requests (counted : list (string * RpcRequestResult)) (response : result (TransportError D O) ResponsePacket) :
  NoDup requests.*1 -> call inner requests = (counted, response) ->
  counted ≡ₚ (fun r => (r.2, final_outcome response r.1)) <$> requests /\
  response = map_err without_url (inner requests) /\
  (forall e, response = Err (CustomHttp e) -> http_url e = None).
Proof.
  intros Hn Hcall. unfold call in Hcall. injection Hcall as <- <-. split_and!; [|done|].
  - rewrite final_statuses_eq by done. rewrite map_to_list_to_map by (by rewrite keys_with). by rewrite <- list_fmap_compose.
  - intros e. destruct (inner requests) as [|[e'| |]]; cbn; [done| |done|done]. by intros [= <-].
Qed.
