(* ===== verification/StateMachine.v ===== *)
(** The reorg-aware state machine, [crates/core/src/state/mod.rs], and its
    specification: a machine that keeps the history of messages instead of a
    state, and marks of that history instead of snapshots. The machine refines
    the specification, and the specification replays the canonical chain. *)

From S2P Require Import Prelude Messages Snapshots.

Inductive MachineError :=
| Storage (e : StorageError)
| EndOfChain
| BadUpdate
| Poisoned.

(** [state::Status]. *)
Inductive Status :=
| Initialized
| BlockPending (pending : Z)
| BlockApplied (pending : Z)
| BlockEvents (latest : Z)
| WarpEvents (range_start range_last : Z).

#[export] Instance Status_eq_dec : EqDecision Status.
Proof. solve_decision. Defined.

Definition next_block (number : Z) : result MachineError Z :=
  ok_or (checked_add number 1) EndOfChain.

Definition block_range (from to : Z) : result MachineError (Z * Z) :=
  if decide (from <= to) then Ok (from, to) else Err BadUpdate.

(** [range.start == sub.start && range.contains(&sub.last)]. *)
Definition is_next_in_range (start last sub_start sub_last : Z) : bool :=
  bool_decide (start = sub_start /\ start <= sub_last <= last).

(** Strictly increasing [(block, index)] positions. *)
Definition log_lt {E} (a b : EventLog E) : Prop :=
  block_number (log_block a) < block_number (log_block b) \/
  (block_number (log_block a) = block_number (log_block b) /\ log_index a < log_index b).

(** [is_sorted_by] compares neighbours. *)
Fixpoint is_sorted {E} (logs : list (EventLog E)) : bool :=
  match logs with
  | a :: (b :: _) as rest =>
      (bool_decide (block_number (log_block a) < block_number (log_block b)) ||
       bool_decide (block_number (log_block a) = block_number (log_block b) /\
                    log_index a < log_index b)) && is_sorted rest
  | _ => true
  end.

Definition in_range {E} (start last : Z) (log : EventLog E) : bool :=
  bool_decide (start <= block_number (log_block log) <= last).

Section StateMachine.
Context {S Event Action Effect Resume : Type}
        {ST : StateTransition S Event Action Effect Resume} {SER : Serde S}.

Abbreviation Commands := (list (Command.t Action Effect)).
Abbreviation Message := (Message.t Event Resume).
Abbreviation Update := (Update.t Event).

(** [inner] is [None] once an update failed: the machine is poisoned. *)
Record StateMachine := MkStateMachine {
  inner : option (S * Status);
  snapshots : gmap Z Json
}.

Definition with_init (snapshots : gmap Z Json) (init : S) : result MachineError StateMachine :=
  current ← map_err Storage (current snapshots);
  inner ←
    match current with
    | Some (latest, state) =>
        pending ← ok_or (checked_add latest 1) EndOfChain;
        Ok (state, BlockPending pending)
    | None => Ok (init, Initialized)
    end;
  Ok (MkStateMachine (Some inner) snapshots).

Definition accumulate_transition (state : S) (commands : Commands) (message : Message)
    : S * Commands :=
  let '(state, new_commands) := apply_transition state message in
  (state, commands ++ new_commands).

(** [logs.next_if(|log| log.block.number == block)], until it does not. *)
Fixpoint apply_logs (block : Z) (state : S) (commands : Commands) (logs : list (EventLog Event))
    : S * Commands * list (EventLog Event) :=
  match logs with
  | log :: rest =>
      if decide (block_number (log_block log) = block) then
        let '(state, commands) := accumulate_transition state commands (Message.Event log) in
        apply_logs block state commands rest
      else (state, commands, logs)
  | [] => (state, commands, [])
  end.

Fixpoint apply_blocks (warping : bool) (blocks : list Z) (state : S) (commands : Commands)
    (logs : list (EventLog Event)) : S * Commands :=
  match blocks with
  | [] => (state, commands)
  | block :: blocks =>
      let '(state, commands) :=
        if warping then accumulate_transition state commands (Message.NewBlock block)
        else (state, commands) in
      let '(state, commands, logs) := apply_logs block state commands logs in
      apply_blocks warping blocks state commands logs
  end.

(** The blocks of an inclusive range, in order. *)
Definition block_list (start last : Z) : list Z := seqZ start (last - start + 1).

(** What a successful update leaves behind. *)
Abbreviation Step := (S * Status * gmap Z Json * Commands)%type.

Definition handle_logs (snapshots : gmap Z Json) (state : S) (status : Status)
    (update : EventUpdate Event) : result MachineError Step :=
  let start := blocks_start update in
  let last := blocks_last update in
  if negb (is_sorted (logs update)) || negb (forallb (in_range start last) (logs update))
  then Err BadUpdate
  else
    let warping := match status with WarpEvents _ _ => true | _ => false end in
    let '(state, commands) :=
      apply_blocks warping (block_list start last) state [] (logs update) in
    status ←
      match status with
      | WarpEvents _ range_last =>
          if decide (last < range_last) then
            next ← next_block last;
            '(from, to) ← block_range next range_last;
            Ok (WarpEvents from to)
          else pending ← next_block last; Ok (BlockPending pending)
      | _ => pending ← next_block last; Ok (BlockPending pending)
      end;
    snapshots ← map_err Storage (commit snapshots last state);
    match status with
    | BlockPending pending =>
        let '(state, commands) :=
          accumulate_transition state commands (Message.NewBlock pending) in
        Ok (state, BlockApplied pending, snapshots, commands)
    | _ => Ok (state, status, snapshots, commands)
    end.

(** The guards of [handle_update]'s arms. *)
Definition warp_ready (status : Status) (from : Z) : bool :=
  match status with Initialized => true | BlockPending pending => bool_decide (pending = from)
  | _ => false end.
Definition uncle_ready (status : Status) (number : Z) : bool :=
  match status with
  | BlockPending pending | BlockApplied pending => bool_decide (number < pending)
  | BlockEvents latest => bool_decide (number <= latest)
  | _ => false
  end.
Definition new_ready (status : Status) (number : Z) : bool :=
  match status with
  | Initialized => true
  | BlockPending pending | BlockApplied pending => bool_decide (pending = number)
  | _ => false
  end.
Definition logs_ready (status : Status) (start last : Z) : bool :=
  match status with
  | BlockEvents latest => is_next_in_range latest latest start last
  | WarpEvents range_start range_last => is_next_in_range range_start range_last start last
  | _ => false
  end.

Definition try_update (snapshots : gmap Z Json) (state : S) (status : Status) (update : Update)
    : result MachineError Step :=
  match update with
  | Update.Block (BlockUpdate.Warp from to) =>
      if warp_ready status from then
        '(from, to) ← block_range from to;
        Ok (state, WarpEvents from to, snapshots, [])
      else Err BadUpdate
  | Update.Block (BlockUpdate.Uncle number) =>
      if uncle_ready status number then
        '(snapshots, (_, state)) ← map_err Storage (reorg snapshots number);
        Ok (state, BlockPending number, snapshots, [])
      else Err BadUpdate
  | Update.Block (BlockUpdate.New number _ _ _) =>
      if new_ready status number then
        let '(state, commands) :=
          match status with
          | BlockApplied _ => (state, [])
          | _ => apply_transition state (Message.NewBlock number)
          end in
        Ok (state, BlockEvents number, snapshots, commands)
      else Err BadUpdate
  | Update.Logs update =>
      if logs_ready status (blocks_start update) (blocks_last update)
      then handle_logs snapshots state status update
      else Err BadUpdate
  end.

Definition handle_update (m : StateMachine) (update : Update)
    : StateMachine * result MachineError Commands :=
  match inner m with
  | None => (m, Err Poisoned)
  | Some (state, status) =>
      match try_update (snapshots m) state status update with
      | Ok (state, status, snapshots, commands) =>
          (MkStateMachine (Some (state, status)) snapshots, Ok commands)
      | Err e => (MkStateMachine None (snapshots m), Err e)
      end
  end.

Definition handle_resume (m : StateMachine) (resume : Resume)
    : StateMachine * result MachineError Commands :=
  match inner m with
  | None => (m, Err Poisoned)
  | Some (state, status) =>
      let '(state, commands) := apply_transition state (Message.Resume resume) in
      (MkStateMachine (Some (state, status)) (snapshots m), Ok commands)
  end.

(** [StateMachine::prune]; its error leaves the machine as it was. *)
Definition machine_prune (m : StateMachine) (safe : Z) : StateMachine * result MachineError unit :=
  match prune (snapshots m) safe with
  | Ok snapshots => (MkStateMachine (inner m) snapshots, Ok ())
  | Err e => (m, Err (Storage e))
  end.

(** ** The specification: a history and its marks *)

Record Spec := MkSpec {
  history : list Message;
  spec_status : Status;
  marks : gmap Z (list Message)
}.

(** The messages of a range of blocks: each block's transition, when it was not
    applied before, then its logs. *)
Definition block_messages (warping : bool) (block : Z) (logs : list (EventLog Event))
    : list Message :=
  (if warping then [Message.NewBlock block] else [])
    ++ (Message.Event <$> filter (fun log => block_number (log_block log) = block) logs).

Definition range_messages (warping : bool) (start last : Z) (logs : list (EventLog Event))
    : list Message :=
  mjoin ((fun block => block_messages warping block logs) <$> block_list start last).

(** A block number fits the database's integers. *)
Definition storable (block : Z) : bool := bool_decide (block <= i64_max).

(** One update: the new specification state and the messages it applies, or
    [None] when the update is an error. *)
Definition spec_update (sp : Spec) (update : Update) : option (Spec * list Message) :=
  match update with
  | Update.Block (BlockUpdate.Warp from to) =>
      if warp_ready (spec_status sp) from && bool_decide (from <= to)
      then Some (MkSpec (history sp) (WarpEvents from to) (marks sp), []) else None
  | Update.Block (BlockUpdate.Uncle number) =>
      if uncle_ready (spec_status sp) number && storable number && bool_decide (1 <= number) then
        match marks sp !! (number - 1) with
        | Some h =>
            Some (MkSpec h (BlockPending number) (filter (fun e => ¬ number <= e.1) (marks sp)), [])
        | None => None
        end
      else None
  | Update.Block (BlockUpdate.New number _ _ _) =>
      if new_ready (spec_status sp) number then
        let messages :=
          match spec_status sp with BlockApplied _ => [] | _ => [Message.NewBlock number] end in
        Some (MkSpec (history sp ++ messages) (BlockEvents number) (marks sp), messages)
      else None
  | Update.Logs update =>
      let start := blocks_start update in
      let last := blocks_last update in
      if logs_ready (spec_status sp) start last && is_sorted (logs update)
         && forallb (in_range start last) (logs update) && storable last
      then
        let warping := match spec_status sp with WarpEvents _ _ => true | _ => false end in
        let messages := range_messages warping start last (logs update) in
        let h := history sp ++ messages in
        let marks := <[last := h]> (marks sp) in
        match spec_status sp with
        | WarpEvents _ range_last =>
            if decide (last < range_last)
            then Some (MkSpec h (WarpEvents (last + 1) range_last) marks, messages)
            else Some (MkSpec (h ++ [Message.NewBlock (last + 1)]) (BlockApplied (last + 1)) marks,
                       messages ++ [Message.NewBlock (last + 1)])
        | _ => Some (MkSpec (h ++ [Message.NewBlock (last + 1)]) (BlockApplied (last + 1)) marks,
                     messages ++ [Message.NewBlock (last + 1)])
        end
      else None
  end.

Definition spec_resume (sp : Spec) (resume : Resume) : Spec :=
  MkSpec (history sp ++ [Message.Resume resume]) (spec_status sp) (marks sp).

(** ** The machine applies the messages of a range *)

Lemma accumulate_run state commands m :
  accumulate_transition state commands m = (run state [m], commands ++ emitted state [m]).
Proof.
  unfold accumulate_transition. simpl. destruct (apply_transition state m) as [s c]. simpl.
  by rewrite app_nil_r.
Qed.

(** Logs in block order, from [b] up. *)
Definition ordered (b : Z) (logs : list (EventLog Event)) : Prop :=
  StronglySorted (fun a b => block_number (log_block a) <= block_number (log_block b)) logs /\
  Forall (fun log => b <= block_number (log_block log)) logs.

Lemma is_sorted_ordered b last (logs : list (EventLog Event)) :
  is_sorted logs = true -> forallb (in_range b last) logs = true -> ordered b logs.
Proof.
  intros Hs Hr. split.
  - apply Sorted_StronglySorted; [intros x y z; lia|].
    clear Hr. induction logs as [|x [|y logs] IH]; [constructor|by repeat constructor|].
    simpl in Hs. apply andb_true_iff in Hs as [Hxy Hs]. constructor; [by apply IH|].
    constructor. apply orb_true_iff in Hxy as [H|H]; apply bool_decide_eq_true in H; lia.
  - apply Forall_forall. intros x Hx. rewrite forallb_forall in Hr.
    apply list_elem_of_In in Hx. specialize (Hr x Hx). apply bool_decide_eq_true in Hr. lia.
Qed.

Lemma ordered_above b (logs : list (EventLog Event)) log rest :
  logs = log :: rest -> ordered b logs -> block_number (log_block log) ≠ b ->
  Forall (fun log => b < block_number (log_block log)) logs.
Proof.
  intros -> [Hs Hb] Hne. inversion Hs as [|? ? _ Hall]; subst. inversion Hb; subst.
  constructor; [lia|]. eapply Forall_impl; [exact Hall|]. simpl. lia.
Qed.

Lemma apply_logs_run b state commands (logs : list (EventLog Event)) :
  ordered b logs ->
  apply_logs b state commands logs =
    (run state (Message.Event <$> filter (fun log => block_number (log_block log) = b) logs),
     commands ++ emitted state
       (Message.Event <$> filter (fun log => block_number (log_block log) = b) logs),
     filter (fun log => block_number (log_block log) ≠ b) logs).
Proof.
  revert state commands. induction logs as [|log logs IH]; intros state commands Ho.
  { simpl. by rewrite app_nil_r. }
  cbn [apply_logs]. rewrite !filter_cons. destruct (decide (block_number (log_block log) = b)) as [He|Hne].
  - rewrite (decide_False (P := _ ≠ b)) by (by intros H).
    rewrite accumulate_run, IH.
    + f_equal. f_equal. simpl. by rewrite app_nil_r, (assoc_L (++)).
    + destruct Ho as [Hs Hb]. split; [by inversion Hs|by inversion Hb].
  - pose proof (ordered_above b _ log logs eq_refl Ho Hne) as Hab.
    apply Forall_cons in Hab as [_ Hab]. rewrite decide_True by done.
    rewrite filter_none, filter_every.
    + simpl. by rewrite app_nil_r.
    + eapply Forall_impl; [exact Hab|]. simpl. lia.
    + eapply Forall_impl; [exact Hab|]. simpl. lia.
Qed.

Lemma ordered_rest b (logs : list (EventLog Event)) :
  ordered b logs -> ordered (b + 1) (filter (fun log => block_number (log_block log) ≠ b) logs).
Proof.
  intros [Hs Hb]. induction Hs as [|log logs Hs IH Hall]; [by repeat constructor|].
  apply Forall_cons in Hb as [Hlog Hb]. destruct (IH Hb) as [IH1 IH2]. rewrite filter_cons.
  case_decide; [|done]. split; constructor; try done; [|lia].
  rewrite Forall_forall in Hall |- *. intros x [_ Hx]%list_elem_of_filter. by apply Hall.
Qed.

Lemma block_messages_rest w b b' (logs : list (EventLog Event)) :
  b' ≠ b ->
  block_messages w b' (filter (fun log => block_number (log_block log) ≠ b) logs) =
  block_messages w b' logs.
Proof.
  intros Hne. unfold block_messages. f_equal. f_equal. rewrite list_filter_filter.
  apply list_filter_iff. intros x. split; [tauto|]. intros ->. done.
Qed.

(** The loop over the blocks runs exactly the messages of the range. *)
Lemma apply_blocks_run w n b state commands (logs : list (EventLog Event)) :
  ordered b logs ->
  let messages := mjoin ((fun block => block_messages w block logs) <$> seqZ b (Z.of_nat n)) in
  apply_blocks w (seqZ b (Z.of_nat n)) state commands logs =
    (run state messages, commands ++ emitted state messages).
Proof.
  revert b state commands logs. induction n as [|n IH]; intros b state commands logs Ho.
  { simpl. by rewrite app_nil_r. }
  rewrite seqZ_cons by lia. replace (Z.pred (Z.of_nat (Datatypes.S n))) with (Z.of_nat n) by lia.
  rewrite fmap_cons. cbn [mjoin list_join apply_blocks].
  assert (forall s c, (let '(s1, c1, logs1) := apply_logs b s c logs in
    apply_blocks w (seqZ (Z.succ b) (Z.of_nat n)) s1 c1 logs1) =
    let M := (Message.Event <$> filter (fun log => block_number (log_block log) = b) logs) ++
      mjoin ((fun block => block_messages w block logs) <$> seqZ (Z.succ b) (Z.of_nat n)) in
    (run s M, c ++ emitted s M)) as Hrest.
  { intros s c. rewrite apply_logs_run by done. cbv zeta.
    change (Z.succ b) with (b + 1). rewrite IH by (by apply ordered_rest).
    assert ((fun block => block_messages w block
        (filter (fun log => block_number (log_block log) ≠ b) logs)) <$> seqZ (b + 1) (Z.of_nat n) =
      (fun block => block_messages w block logs) <$> seqZ (b + 1) (Z.of_nat n)) as ->.
    { apply list_fmap_ext. intros i b' Hb'. apply lookup_seqZ in Hb' as [-> _].
      apply block_messages_rest. lia. }
    by rewrite run_app, emitted_app, (assoc_L (++)). }
  unfold block_messages at 1 3. destruct w; cbn [app].
  - rewrite accumulate_run. cbv beta iota zeta. rewrite Hrest. cbv zeta. f_equal.
    simpl. by rewrite app_nil_r, (assoc_L (++)).
  - cbv beta iota zeta. rewrite Hrest. done.
Qed.

Lemma apply_range_run w start last state (logs : list (EventLog Event)) :
  is_sorted logs = true -> forallb (in_range start last) logs = true -> start <= last ->
  apply_blocks w (block_list start last) state [] logs =
    (run state (range_messages w start last logs), emitted state (range_messages w start last logs)).
Proof.
  intros Hs Hr Hle. unfold range_messages, block_list.
  replace (last - start + 1) with (Z.of_nat (Z.to_nat (last - start + 1))) by lia.
  by rewrite apply_blocks_run by (by eapply is_sorted_ordered).
Qed.

(** ** Refinement *)

(** Every snapshot is the state its mark's history leads to. *)
Definition anchored (init : S) (st : gmap Z Json) (mk : gmap Z (list Message)) : Prop :=
  forall n, match st !! n, mk !! n with
            | Some j, Some h => from_str j = Some (run init h)
            | None, None => True
            | _, _ => False
            end.

Record refines (init : S) (m : StateMachine) (sp : Spec) : Prop := {
  ref_inner : inner m = Some (run init (history sp), spec_status sp);
  ref_anchored : anchored init (snapshots m) (marks sp)
}.

Lemma anchored_insert init st mk n j h :
  anchored init st mk -> from_str j = Some (run init h) ->
  anchored init (<[n := j]> st) (<[n := h]> mk).
Proof.
  intros Ha Hj k. destruct (decide (n = k)) as [->|Hne].
  - by rewrite !lookup_insert_eq.
  - rewrite !lookup_insert_ne by done. apply Ha.
Qed.

Lemma anchored_filter init st mk (P : Z -> Prop) `{!forall k, Decision (P k)} :
  anchored init st mk ->
  anchored init (filter (fun e : Z * Json => P e.1) st)
    (filter (fun e : Z * list Message => P e.1) mk).
Proof.
  intros Ha k. specialize (Ha k). rewrite !map_lookup_filter.
  destruct (st !! k), (mk !! k); simpl; try done; by repeat case_guard.
Qed.

(** Fewer snapshots are anchored in fewer marks. *)
Lemma anchored_restrict init st mk st' :
  anchored init st mk -> (forall n j, st' !! n = Some j -> st !! n = Some j) ->
  anchored init st' (filter (fun e : Z * list Message => is_Some (st' !! e.1)) mk).
Proof.
  intros Ha Hsub n. specialize (Ha n). destruct (st' !! n) as [j|] eqn:E.
  - rewrite (Hsub n j E) in Ha. destruct (mk !! n) as [h|] eqn:Eh; [|done].
    rewrite lookup_filter_true by (intros; simpl; by rewrite E). by rewrite Eh.
  - destruct (filter _ mk !! n) as [h|] eqn:Ef; [|done].
    apply map_lookup_filter_Some in Ef as [_ Hs]. simpl in Hs. rewrite E in Hs. by destruct Hs.
Qed.

Lemma commit_storable {SL : SerdeLaws S} st n s :
  storable n = true -> exists j, commit st n s = Ok (<[n := j]> st) /\ from_str j = Some s.
Proof.
  intros Hn. apply bool_decide_eq_true in Hn. destruct (serde_roundtrip s) as (j & Hj & Hf).
  exists j. split; [|done]. unfold commit, to_i64. by rewrite Hj, decide_True.
Qed.

Lemma commit_not_storable st n s : storable n = false -> exists e, commit st n s = Err e.
Proof.
  intros Hn. apply bool_decide_eq_false in Hn. unfold commit, to_i64.
  rewrite decide_False by done. destruct (to_string s); simpl; eauto.
Qed.

Lemma next_block_storable n : storable n = true -> next_block n = Ok (n + 1).
Proof.
  intros Hn. apply bool_decide_eq_true in Hn. unfold next_block, checked_add.
  by rewrite decide_True by lia.
Qed.

(** What is done with a range of logs, and when it is an error. *)
Lemma handle_logs_spec {SL : SerdeLaws S} init st mk h status (u : EventUpdate Event) :
  anchored init st mk -> logs_ready status (blocks_start u) (blocks_last u) = true ->
  let sp := MkSpec h status mk in
  match spec_update sp (Update.Logs u) with
  | Some (sp', messages) =>
      exists st', handle_logs st (run init h) status u =
        Ok (run init (history sp'), spec_status sp', st', emitted (run init h) messages) /\
        anchored init st' (marks sp')
  | None => exists e, handle_logs st (run init h) status u = Err e
  end.
Proof.
  intros Ha Hr sp. unfold spec_update, handle_logs. cbn [spec_status history marks sp].
  rewrite Hr. cbn [andb].
  destruct (is_sorted (logs u)) eqn:Es; cbn [andb negb orb]; [|eauto].
  destruct (forallb (in_range (blocks_start u) (blocks_last u)) (logs u)) eqn:Ef;
    cbn [andb negb orb]; [|eauto].
  assert (blocks_start u <= blocks_last u) as Hle.
  { destruct status; try done; apply bool_decide_eq_true in Hr; lia. }
  rewrite apply_range_run by done.
  set (w := match status with WarpEvents _ _ => true | _ => false end).
  set (M := range_messages w (blocks_start u) (blocks_last u) (logs u)).
  rewrite <- (run_app init h M).
  destruct (storable (blocks_last u)) eqn:Est.
  - rewrite !next_block_storable by done.
    destruct (commit_storable st (blocks_last u) (run init (h ++ M)) Est) as (j & Hc & Hj).
    assert (anchored init (<[blocks_last u := j]> st) (<[blocks_last u := h ++ M]> mk)) as Ha'
      by (by apply anchored_insert).
    assert (forall P : result MachineError Status, P = Ok (BlockPending (blocks_last u + 1)) ->
      exists st', (status0 ← P; snapshots0 ← map_err Storage (commit st (blocks_last u) (run init (h ++ M)));
        match status0 with
        | BlockPending pending =>
            let '(state, commands) := accumulate_transition (run init (h ++ M))
              (emitted (run init h) M) (Message.NewBlock pending) in
            Ok (state, BlockApplied pending, snapshots0, commands)
        | _ => Ok (run init (h ++ M), status0, snapshots0, emitted (run init h) M)
        end) = Ok (run init ((h ++ M) ++ [Message.NewBlock (blocks_last u + 1)]),
          BlockApplied (blocks_last u + 1), st',
          emitted (run init h) (M ++ [Message.NewBlock (blocks_last u + 1)])) /\
        anchored init st' (<[blocks_last u := h ++ M]> mk)) as Hpend.
    { intros P ->. rewrite Hc. eexists. split; [|exact Ha']. cbn [mbind result_bind map_err].
      rewrite accumulate_run. by rewrite (run_app init (h ++ M)), emitted_app, (run_app init h M). }
    destruct status as [| | | |rs rl]; try done.
    + by apply Hpend.
    + destruct (decide (blocks_last u < rl)) as [Hlt|Hge]; [|by apply Hpend].
      unfold block_range. cbn [mbind result_bind]. rewrite decide_True by lia.
      cbn [mbind result_bind]. rewrite Hc. eexists. split; [done|]. exact Ha'.
  - destruct (commit_not_storable st (blocks_last u) (run init (h ++ M)) Est) as [e He].
    match goal with |- exists _, (status0 ← ?P; _) = _ => destruct P; cbn [mbind result_bind] end;
      [|eauto]. rewrite He. cbn. eauto.
Qed.

Lemma reorg_spec init st mk n :
  anchored init st mk ->
  match (if storable n && bool_decide (1 <= n) then mk !! (n - 1) else None) with
  | Some h => reorg st n = Ok (filter (fun e => ¬ n <= e.1) st, (n - 1, run init h))
  | None => exists e, reorg st n = Err e
  end.
Proof.
  intros Ha. unfold reorg, checked_sub, to_i64, storable.
  destruct (decide (1 <= n)) as [H1|H1].
  2: { rewrite (bool_decide_false (1 <= n)) by done. rewrite andb_false_r.
       rewrite (decide_False (P := 0 <= n - 1)) by lia. cbn. eauto. }
  rewrite (bool_decide_true (1 <= n)) by done.
  rewrite (decide_True (P := 0 <= n - 1)) by lia. cbn [ok_or mbind result_bind].
  destruct (decide (n <= i64_max)) as [Hn|Hn].
  2: { rewrite bool_decide_false by done. cbn. eauto. }
  rewrite bool_decide_true by done. cbn [andb ok_or mbind result_bind].
  rewrite decide_True by lia. cbn [ok_or mbind result_bind].
  specialize (Ha (n - 1)). rewrite lookup_filter_true by (intros; simpl; lia).
  destruct (st !! (n - 1)) as [j|], (mk !! (n - 1)) as [h|]; try done.
  - cbn. by rewrite Ha.
  - cbn. eauto.
Qed.

Lemma try_update_spec {SL : SerdeLaws S} init st sp (u : Update) :
  anchored init st (marks sp) ->
  match spec_update sp u with
  | Some (sp', messages) =>
      exists st', try_update st (run init (history sp)) (spec_status sp) u =
        Ok (run init (history sp'), spec_status sp', st', emitted (run init (history sp)) messages) /\
        anchored init st' (marks sp')
  | None => exists e, try_update st (run init (history sp)) (spec_status sp) u = Err e
  end.
Proof.
  intros Ha. destruct sp as [h status mk]. cbn [history spec_status marks] in *.
  destruct u as [[from to|n|n hash ts bloom]|u].
  - simpl. destruct (warp_ready status from); simpl; [|eauto]. unfold block_range.
    destruct (decide (from <= to)); [rewrite bool_decide_true by done|rewrite bool_decide_false by done];
      simpl; eauto.
  - cbn [try_update spec_update history spec_status marks].
    destruct (uncle_ready status n); cbn [andb]; [|eauto].
    pose proof (reorg_spec init st mk n Ha) as Hre.
    destruct (storable n && bool_decide (1 <= n)).
    + destruct (mk !! (n - 1)) as [h'|].
      * rewrite Hre. cbn. eexists. split; [done|].
        exact (anchored_filter init st mk (fun k => ¬ n <= k) Ha).
      * destruct Hre as [e ->]. cbn. eauto.
    + destruct Hre as [e ->]. cbn. eauto.
  - cbn [try_update spec_update history spec_status marks].
    destruct (new_ready status n); [|eauto].
    destruct status; cbn [history spec_status marks]; rewrite run_app; simpl;
      try (destruct (apply_transition (run init h) (Message.NewBlock n)) as [s c] eqn:E);
      simpl; rewrite ?app_nil_r; eauto.
  - cbn [try_update]. destruct (logs_ready status (blocks_start u) (blocks_last u)) eqn:Hr.
    + by apply (handle_logs_spec init st mk h status u).
    + unfold spec_update. cbn [spec_status]. rewrite Hr. simpl. eauto.
Qed.

(** ** The canonical chain

    A script is the blocks the machine has been given, with their logs. *)

Abbreviation Script := (list (Z * list (EventLog Event))).

Definition script_messages (sc : Script) : list Message :=
  mjoin ((fun '(block, logs) => Message.NewBlock block :: (Message.Event <$> logs)) <$> sc).

(** The blocks follow each other, and every log is of its block. *)
Definition script_ok (sc : Script) : Prop :=
  (forall i b l b' l', sc !! i = Some (b, l) -> sc !! Datatypes.S i = Some (b', l') -> b' = b + 1) /\
  (forall b l log, (b, l) ∈ sc -> log ∈ l -> block_number (log_block log) = b).

(** The script's next block is [n]. *)
Definition ends (sc : Script) (n : Z) : Prop :=
  match last sc with Some (b, _) => n = b + 1 | None => True end.

(** The messages of the chain, without the resumes interleaved with them. *)
Definition is_chain (m : Message) : Prop :=
  match m with Message.Resume _ => False | _ => True end.
#[export] Instance is_chain_dec m : Decision (is_chain m).
Proof. destruct m; simpl; apply _. Defined.
Definition chain (h : list Message) : list Message := filter is_chain h.

(** What is applied beyond the script's blocks, and the block it goes on from. *)
Definition status_next (status : Status) : option Z :=
  match status with
  | Initialized => None
  | BlockPending n | BlockApplied n | BlockEvents n | WarpEvents n _ => Some n
  end.
Definition status_tail (status : Status) : list Message :=
  match status with
  | BlockApplied n | BlockEvents n => [Message.NewBlock n]
  | _ => []
  end.

(** A history that applied each block of a script once, in order, and has
    come as far as [status] says. *)
Definition replays (h : list Message) (status : Status) : Prop :=
  exists sc, chain h = script_messages sc ++ status_tail status /\ script_ok sc /\
    match status_next status with Some n => ends sc n | None => sc = [] end.

Record canonical (sp : Spec) : Prop := {
  can_history : replays (history sp) (spec_status sp);
  can_marks : forall n h, marks sp !! n = Some h -> replays h (BlockPending (n + 1))
}.

Lemma script_messages_app sc sc' :
  script_messages (sc ++ sc') = script_messages sc ++ script_messages sc'.
Proof. unfold script_messages. by rewrite fmap_app, join_app. Qed.

Lemma script_messages_one b l :
  script_messages [(b, l)] = Message.NewBlock b :: (Message.Event <$> l).
Proof. unfold script_messages. simpl. by rewrite app_nil_r. Qed.

Lemma chain_app h k : chain (h ++ k) = chain h ++ chain k.
Proof. unfold chain. apply filter_app. Qed.

Lemma chain_chain h : Forall is_chain h -> chain h = h.
Proof. apply filter_every. Qed.

Lemma chain_events (l : list (EventLog Event)) :
  Forall is_chain (Message.Event (Resume := Resume) <$> l).
Proof. apply Forall_fmap. by apply Forall_true. Qed.

Lemma ends_nil n : ends [] n.
Proof. done. Qed.

Lemma script_ok_nil : script_ok [].
Proof. split; [done|]. intros b l log H. by apply not_elem_of_nil in H. Qed.

Lemma script_ok_snoc sc b l :
  script_ok sc -> ends sc b -> (forall log, log ∈ l -> block_number (log_block log) = b) ->
  script_ok (sc ++ [(b, l)]) /\ ends (sc ++ [(b, l)]) (b + 1).
Proof.
  intros [Hc Hl] He Hlog. split; [split|].
  - intros i b1 l1 b2 l2 H1 H2.
    destruct (decide (Datatypes.S i < length sc)%nat) as [Hlt|Hge].
    + rewrite lookup_app_l in H1, H2 by lia. by eapply Hc.
    + assert (Datatypes.S i = length sc) as Hi.
      { apply lookup_lt_Some in H2. rewrite length_app in H2. simpl in H2. lia. }
      rewrite lookup_app_l in H1 by lia. rewrite Hi, list_lookup_middle in H2 by done. simplify_eq.
      unfold ends in He. assert (last sc = Some (b1, l1)) as Hlast; [|by rewrite Hlast in He].
      rewrite last_lookup. by replace (Init.Nat.pred (length sc)) with i by lia.
  - intros b' l' log [H|H]%elem_of_app Hin; [by eapply Hl|].
    apply list_elem_of_singleton in H. simplify_eq. by apply Hlog.
  - unfold ends. by rewrite last_snoc.
Qed.

(** The script of a range of warped blocks. *)
Definition range_script (start last : Z) (logs : list (EventLog Event)) : Script :=
  (fun block => (block, filter (fun log => block_number (log_block log) = block) logs))
  <$> block_list start last.

Lemma range_messages_warp start last logs :
  range_messages true start last logs = script_messages (range_script start last logs).
Proof.
  unfold range_messages, script_messages, range_script. by rewrite <- list_fmap_compose.
Qed.

Lemma range_messages_live block logs :
  range_messages false block block logs =
    Message.Event <$> filter (fun log => block_number (log_block log) = block) logs.
Proof.
  unfold range_messages, block_list. replace (block - block + 1) with 1 by lia.
  rewrite seqZ_cons by lia. simpl. rewrite app_nil_r. done.
Qed.

Lemma range_script_ok sc start n logs :
  script_ok sc -> ends sc start ->
  let sc' := sc ++ ((fun block => (block, filter (fun log => block_number (log_block log) = block) logs))
                      <$> seqZ start (Z.of_nat n)) in
  script_ok sc' /\ ends sc' (start + Z.of_nat n).
Proof.
  intros Hok He. induction n as [|n IH].
  - simpl. rewrite app_nil_r. by rewrite Z.add_0_r.
  - destruct IH as [IH1 IH2]. cbv zeta.
    replace (Z.of_nat (Datatypes.S n)) with (Z.of_nat n + 1) by lia.
    rewrite seqZ_app, fmap_app, (assoc_L (++)) by lia. rewrite (Z.add_comm (Z.of_nat n) 1), Z.add_assoc.
    replace (start + 1 + Z.of_nat n) with (start + Z.of_nat n + 1) by lia.
    rewrite (seqZ_cons (start + Z.of_nat n)) by lia. simpl.
    apply script_ok_snoc; try done. by intros log [? _]%list_elem_of_filter.
Qed.

Lemma warp_script_ok sc start last logs :
  script_ok sc -> ends sc start -> start <= last ->
  script_ok (sc ++ range_script start last logs) /\ ends (sc ++ range_script start last logs) (last + 1).
Proof.
  intros Hok He Hle. unfold range_script, block_list.
  replace (last - start + 1) with (Z.of_nat (Z.to_nat (last - start + 1))) by lia.
  replace (last + 1) with (start + Z.of_nat (Z.to_nat (last - start + 1))) by lia.
  by apply range_script_ok.
Qed.

Lemma script_messages_chain sc : Forall is_chain (script_messages sc).
Proof.
  unfold script_messages. apply Forall_join, Forall_fmap, Forall_true. intros [b l]. simpl.
  constructor; [done|]. apply chain_events.
Qed.

(** Logs of a live block close the block whose transition was applied. *)
Lemma replays_live h n logs :
  replays h (BlockEvents n) -> forallb (in_range n n) logs = true ->
  replays (h ++ range_messages false n n logs) (BlockPending (n + 1)).
Proof.
  intros (sc & Hch & Hok & He) Hr. simpl in *.
  destruct (script_ok_snoc sc n
    (filter (fun log => block_number (log_block log) = n) logs) Hok He) as [Hok' He'];
    [by intros log [? _]%list_elem_of_filter|].
  eexists (sc ++ [(n, _)]). split; [|done].
  rewrite chain_app, Hch, range_messages_live, chain_chain by apply chain_events.
  rewrite script_messages_app, script_messages_one. simpl. by rewrite <- (assoc_L (++)), app_nil_r.
Qed.

(** Logs of warped blocks, whose transitions were not applied before. *)
Lemma replays_warp h start last rl logs :
  replays h (WarpEvents start rl) -> start <= last ->
  replays (h ++ range_messages true start last logs) (BlockPending (last + 1)).
Proof.
  intros (sc & Hch & Hok & He) Hle. simpl in *.
  destruct (warp_script_ok sc start last logs Hok He Hle) as [Hok' He'].
  exists (sc ++ range_script start last logs). split; [|done]. simpl in *.
  rewrite chain_app, Hch, range_messages_warp, chain_chain by apply script_messages_chain.
  by rewrite script_messages_app, !app_nil_r.
Qed.

(** A block's transition, applied as it is observed or ahead of it. *)
Lemma replays_block h status n status' :
  replays h status -> status_tail status = [] ->
  match status_next status with Some p => p = n | None => True end ->
  status_tail status' = [Message.NewBlock n] -> status_next status' = Some n ->
  replays (h ++ [Message.NewBlock n]) status'.
Proof.
  intros (sc & Hch & Hok & He) Ht Hn Ht' Hn'. exists sc. rewrite Ht', Hn'. rewrite Ht in Hch.
  rewrite chain_app, Hch, app_nil_r. split; [done|]. split; [done|].
  destruct (status_next status); [by subst|]. by rewrite He.
Qed.

Lemma replays_status h status status' :
  replays h status -> status_tail status' = status_tail status ->
  match status_next status with Some p => status_next status' = Some p | None => True end ->
  is_Some (status_next status') -> replays h status'.
Proof.
  intros (sc & Hch & Hok & He) Ht Hn [n Hn']. exists sc. rewrite Ht, Hn'. split; [done|].
  split; [done|]. destruct (status_next status); [by simplify_eq|]. by rewrite He.
Qed.

Lemma canonical_update sp u sp' messages :
  canonical sp -> spec_update sp u = Some (sp', messages) -> canonical sp'.
Proof.
  intros [Hh Hm] Hu. destruct sp as [h st mk]. destruct u as [[from to|n|n hs ts bl]|u]; simpl in *.
  - destruct (warp_ready st from) eqn:Hr; [|done]. case_bool_decide; simplify_eq/=.
    split; [|done]. simpl. destruct st; try done; simpl in Hr.
    + by eapply replays_status.
    + apply bool_decide_eq_true in Hr as ->. by eapply replays_status.
  - destruct (uncle_ready st n && storable n && bool_decide (1 <= n)); [|done].
    destruct (mk !! (n - 1)) as [h'|] eqn:E; [|done]. simplify_eq. split; simpl.
    + replace n with (n - 1 + 1) by lia. by apply Hm.
    + intros k h'' [Hk _]%map_lookup_filter_Some. by apply Hm.
  - destruct (new_ready st n) eqn:Hr; simplify_eq. split; [|done]. simpl.
    destruct st; try done; simpl in Hr.
    + by eapply replays_block.
    + apply bool_decide_eq_true in Hr as ->. by eapply replays_block.
    + apply bool_decide_eq_true in Hr as ->. rewrite app_nil_r. by eapply replays_status.
  - destruct (logs_ready st (blocks_start u) (blocks_last u)) eqn:Hr; [|done].
    destruct (is_sorted (logs u)); [|done].
    destruct (forallb (in_range (blocks_start u) (blocks_last u)) (logs u)) eqn:Hin; [|done].
    destruct (storable (blocks_last u)); [|done]. simpl in Hu.
    assert (forall w, replays (h ++ range_messages w (blocks_start u) (blocks_last u) (logs u))
      (BlockPending (blocks_last u + 1)) ->
      canonical (MkSpec ((h ++ range_messages w (blocks_start u) (blocks_last u) (logs u))
          ++ [Message.NewBlock (blocks_last u + 1)]) (BlockApplied (blocks_last u + 1))
        (<[blocks_last u := h ++ range_messages w (blocks_start u) (blocks_last u) (logs u)]> mk)) /\
      canonical (MkSpec (h ++ range_messages w (blocks_start u) (blocks_last u) (logs u))
        (BlockPending (blocks_last u + 1))
        (<[blocks_last u := h ++ range_messages w (blocks_start u) (blocks_last u) (logs u)]> mk)))
      as Hcan.
    { intros w Hw.
      assert (forall n h', <[blocks_last u := h ++ range_messages w (blocks_start u) (blocks_last u)
        (logs u)]> mk !! n = Some h' -> replays h' (BlockPending (n + 1))) as Hmk.
      { intros n h' [[<- <-]|[_ Hk]]%lookup_insert_Some; [done|by apply Hm]. }
      split; split; simpl; try done. by eapply replays_block. }
    destruct st as [| | |l|a b]; try done; simpl in Hr; apply bool_decide_eq_true in Hr.
    + destruct u as [bs bl lg]. simpl in *. assert (bs = l /\ bl = l) as [-> ->] by lia.
      simplify_eq. by apply Hcan, replays_live.
    + destruct u as [bs bl lg]. simpl in *. destruct Hr as [-> Hr].
      assert (replays (h ++ range_messages true bs bl lg) (BlockPending (bl + 1))) as Hw
        by (by eapply replays_warp; [|lia]).
      case_decide; simplify_eq; [|by apply Hcan]. destruct (Hcan true Hw) as [_ Hc].
      split; [|apply Hc]. simpl. by eapply replays_status.
Qed.

Lemma canonical_resume sp r : canonical sp -> canonical (spec_resume sp r).
Proof.
  intros [(sc & Hch & Hok) Hm]. split; [|done]. exists sc. simpl. rewrite chain_app, Hch.
  by rewrite !app_nil_r.
Qed.

(** ** Every machine that can be *)

(** The machines a service can run: started over a fresh or used database, then
    driven by updates, resumes, collections and restarts, in any order. *)
Inductive reaches (init : S) : StateMachine -> Prop :=
| reaches_start : reaches init (MkStateMachine (Some (init, Initialized)) ∅)
| reaches_update m u : reaches init m -> reaches init (handle_update m u).1
| reaches_resume m r : reaches init m -> reaches init (handle_resume m r).1
| reaches_prune m safe : reaches init m -> reaches init (machine_prune m safe).1
| reaches_restart m m' :
    reaches init m -> with_init (snapshots m) init = Ok m' -> reaches init m'.

(** A machine is its database's marks and, unless poisoned, a history. *)
Definition sound (init : S) (m : StateMachine) : Prop :=
  exists mk, anchored init (snapshots m) mk /\
    (forall n h, mk !! n = Some h -> replays h (BlockPending (n + 1))) /\
    match inner m with
    | None => True
    | Some (state, status) => exists h, state = run init h /\ replays h status
    end.

Lemma sound_refines init m state status :
  sound init m -> inner m = Some (state, status) ->
  exists sp, refines init m sp /\ canonical sp.
Proof.
  intros (mk & Ha & Hm & Hi) Hin. rewrite Hin in Hi. destruct Hi as (h & -> & Hr).
  by exists (MkSpec h status mk).
Qed.

Lemma refines_sound init m sp : refines init m sp -> canonical sp -> sound init m.
Proof.
  intros [Hi Ha] [Hh Hm]. exists (marks sp). rewrite Hi. eauto.
Qed.

Lemma update_sound {SL : SerdeLaws S} init m u : sound init m -> sound init (handle_update m u).1.
Proof.
  intros Hs. destruct (inner m) as [[state status]|] eqn:Hin.
  2: { unfold handle_update. by rewrite Hin. }
  destruct (sound_refines _ _ _ _ Hs Hin) as (sp & [Hi Ha] & Hc).
  pose proof (try_update_spec init (snapshots m) sp u Ha) as Hu.
  unfold handle_update. rewrite Hi. destruct (spec_update sp u) as [[sp' messages]|] eqn:E.
  - destruct Hu as (st' & -> & Ha'). simpl. apply (refines_sound init _ sp'); [by split|].
    by eapply canonical_update.
  - destruct Hu as [e ->]. simpl. exists (marks sp). split; [done|]. split; [apply Hc|done].
Qed.

Lemma resume_sound init m r : sound init m -> sound init (handle_resume m r).1.
Proof.
  intros Hs. destruct (inner m) as [[state status]|] eqn:Hin.
  2: { unfold handle_resume. by rewrite Hin. }
  destruct (sound_refines _ _ _ _ Hs Hin) as (sp & [Hi Ha] & Hc).
  apply (refines_sound init _ (spec_resume sp r)); [|by apply canonical_resume].
  unfold handle_resume. rewrite Hi.
  destruct (apply_transition (run init (history sp)) (Message.Resume r)) as [s c] eqn:E.
  split; simpl; [|done]. rewrite run_app. simpl. by rewrite E.
Qed.

Lemma prune_sound init m safe : sound init m -> sound init (machine_prune m safe).1.
Proof.
  intros (mk & Ha & Hm & Hi). unfold machine_prune.
  destruct (prune (snapshots m) safe) as [st'|e] eqn:E; [|by exists mk].
  apply prune_lookup in E as (_ & _ & Hsub).
  exists (filter (fun e => is_Some (st' !! e.1)) mk). split; [by eapply anchored_restrict|].
  split; [|done]. intros n h [Hn _]%map_lookup_filter_Some. by apply Hm.
Qed.

Lemma restart_sound init m m' : sound init m -> with_init (snapshots m) init = Ok m' -> sound init m'.
Proof.
  intros (mk & Ha & Hm & _) Hw. unfold with_init, current in Hw.
  destruct (max_block (snapshots m)) as [n|] eqn:En.
  - destruct (snapshots m !! n) as [j|] eqn:Ej.
    + pose proof (Ha n) as Han. rewrite Ej in Han. destruct (mk !! n) as [h|] eqn:Eh; [|done].
      rewrite Han in Hw. cbn in Hw. apply bind_Ok in Hw as (x & Hx & Hw). simplify_eq.
      apply bind_Ok in Hx as (p & Hp & Hx). simplify_eq. rewrite ok_or_Ok in Hp.
      apply checked_add_Some in Hp as [-> _]. exists mk. split; [done|]. split; [done|]. simpl. eauto.
    + exfalso. apply max_block_Some in En as [[j Hj] _]. congruence.
  - cbn in Hw. simplify_eq. exists mk. split; [done|]. split; [done|]. exists []. split; [done|].
    exists []. split; [done|]. split; [apply script_ok_nil|done].
Qed.

Lemma reaches_sound {SL : SerdeLaws S} init m : reaches init m -> sound init m.
Proof.
  induction 1; [|by apply update_sound|by apply resume_sound|by apply prune_sound
    |by eapply restart_sound].
  exists ∅. split; [done|]. split; [done|]. exists []. split; [done|].
  exists []. split; [done|]. split; [apply script_ok_nil|done].
Qed.

(** ** Steps of the specification

    What a successful step of the machine is a step of, whatever came before. *)

Lemma update_refined {SL : SerdeLaws S} init m sp u m' commands :
  refines init m sp -> handle_update m u = (m', Ok commands) ->
  exists sp' messages, spec_update sp u = Some (sp', messages) /\ refines init m' sp' /\
    commands = emitted (run init (history sp)) messages.
Proof.
  intros [Hi Ha] Hu. pose proof (try_update_spec init (snapshots m) sp u Ha) as Htry.
  unfold handle_update in Hu. rewrite Hi in Hu. destruct (spec_update sp u) as [[sp' messages]|].
  - destruct Htry as (st' & Ht & Ha'). rewrite Ht in Hu. injection Hu as <- <-. by exists sp', messages.
  - destruct Htry as [e Ht]. by rewrite Ht in Hu.
Qed.

Lemma resume_refined init m sp r m' commands :
  refines init m sp -> handle_resume m r = (m', Ok commands) ->
  refines init m' (spec_resume sp r) /\ commands = emitted (run init (history sp)) [Message.Resume r].
Proof.
  intros [Hi Ha] Hu. unfold handle_resume in Hu. rewrite Hi in Hu. cbn [emitted].
  destruct (apply_transition (run init (history sp)) (Message.Resume r)) as [s c] eqn:E. injection Hu as <- <-.
  split; [split; [|done]|by rewrite app_nil_r]. cbn [inner spec_resume history spec_status].
  rewrite run_app. simpl. by rewrite E.
Qed.

Lemma restricted_refined init m sp m' :
  refines init m sp -> inner m' = inner m -> (forall n j, snapshots m' !! n = Some j -> snapshots m !! n = Some j) ->
  exists mk, refines init m' (MkSpec (history sp) (spec_status sp) mk) /\
    forall n h, mk !! n = Some h -> marks sp !! n = Some h.
Proof.
  intros [Hi Ha] Hin Hsub. exists (filter (fun e => is_Some (snapshots m' !! e.1)) (marks sp)). split.
  - split; [by rewrite Hin|]. by eapply anchored_restrict.
  - intros n h Hn. by apply map_lookup_filter_Some in Hn as [? _].
Qed.

(** A restart goes on from a mark, or over where there is none. *)
Lemma restart_refined init m sp m' :
  anchored init (snapshots m) (marks sp) -> with_init (snapshots m) init = Ok m' ->
  exists h status, refines init m' (MkSpec h status (marks sp)) /\ (h = [] \/ exists n, marks sp !! n = Some h).
Proof.
  intros Ha Hw. unfold with_init, current in Hw. destruct (max_block (snapshots m)) as [n|] eqn:En.
  - destruct (snapshots m !! n) as [j|] eqn:Ej.
    + pose proof (Ha n) as Han. rewrite Ej in Han. destruct (marks sp !! n) as [h|] eqn:Eh; [|done].
      rewrite Han in Hw. cbn in Hw. apply bind_Ok in Hw as (x & Hx & Hw). simplify_eq.
      apply bind_Ok in Hx as (p & _ & Hx). simplify_eq. eexists h, _. split; [by split|eauto].
    + exfalso. apply max_block_Some in En as [[j Hj] _]. congruence.
  - cbn in Hw. simplify_eq. exists [], Initialized. split; [by split|by left].
Qed.

(** The messages an update applies: new blocks, and its own logs. *)
Definition of_update (u : Update) (m : Message) : Prop :=
  match m with
  | Message.NewBlock _ => True
  | Message.Event log => match u with Update.Logs u => log ∈ logs u | _ => False end
  | Message.Resume _ => False
  end.

Lemma range_of_update w (u : EventUpdate Event) :
  Forall (of_update (Update.Logs u)) (range_messages w (blocks_start u) (blocks_last u) (logs u)).
Proof.
  unfold range_messages. apply Forall_forall. intros m Hm.
  apply list_elem_of_join in Hm as (l & Hm & (b & -> & _)%list_elem_of_fmap). unfold block_messages in Hm.
  apply elem_of_app in Hm as [Hm|(log & -> & Hl)%list_elem_of_fmap]; [destruct w; [|by apply not_elem_of_nil in Hm]|].
  - by apply list_elem_of_singleton in Hm as ->.
  - simpl. by apply list_elem_of_filter in Hl as [_ ?].
Qed.

(** An update goes on from the machine's history or returns to a mark, applies its
    messages, and marks what it passed. *)
Lemma spec_update_moves sp u sp' messages :
  spec_update sp u = Some (sp', messages) ->
  Forall (of_update u) messages /\
  (history sp' = history sp ++ messages \/ (messages = [] /\ exists n, marks sp !! n = Some (history sp'))) /\
  forall n h, marks sp' !! n = Some h ->
    marks sp !! n = Some h \/ exists k k', messages = k ++ k' /\ h = history sp ++ k.
Proof.
  intros Hu. destruct u as [[from to|n|n hs ts bl]|u]; cbn [spec_update] in Hu.
  - destruct (_ && _); simplify_eq/=. split; [constructor|]. split; [left; by rewrite app_nil_r|by left].
  - destruct (_ && _); [|done]. destruct (marks sp !! (n - 1)) as [h|] eqn:E; simplify_eq/=. split; [constructor|].
    split; [right; eauto|]. intros k h' [Hk _]%map_lookup_filter_Some. by left.
  - destruct (new_ready _ _); simplify_eq/=. split; [destruct (spec_status sp); by repeat constructor|]. by split; left.
  - destruct (_ && _); [|done]. set (w := match spec_status sp with WarpEvents _ _ => true | _ => false end) in Hu.
    pose proof (range_of_update w u) as Hall. set (M := range_messages _ _ _ _) in *.
    assert (Forall (of_update (Update.Logs u)) (M ++ [Message.NewBlock (blocks_last u + 1)])) as Hall'
      by (apply Forall_app; split; [done|by repeat constructor]).
    assert (forall tail n h, <[blocks_last u := history sp ++ M]> (marks sp) !! n = Some h ->
      marks sp !! n = Some h \/ exists k k', M ++ tail = k ++ k' /\ h = history sp ++ k) as Hmk.
    { intros tail n h [[<- <-]|[_ Hn]]%lookup_insert_Some; [right; by exists M, tail|by left]. }
    destruct (spec_status sp); try (simplify_eq/=; split; [done|]; rewrite app_assoc; split; [by left|apply Hmk]).
    case_decide; simplify_eq/=; (split; [done|]); rewrite ?app_assoc; (split; [by left|]);
      [|apply Hmk]. intros n h Hn. destruct (Hmk [] n h Hn) as [?|(k & k' & Hk & ->)]; [by left|].
    rewrite app_nil_r in Hk. right. by exists k, k'.
Qed.

(** ** Where commands come from *)

Lemma emitted_from (s : S) (messages : list Message) c :
  c ∈ emitted s messages ->
  exists h m k, messages = h ++ m :: k /\ c ∈ (apply_transition (run s h) m).2.
Proof.
  revert s. induction messages as [|m messages IH]; intros s Hc; [by apply not_elem_of_nil in Hc|].
  cbn [emitted] in Hc. apply elem_of_app in Hc as [Hc|Hc].
  - exists [], m, messages. done.
  - destruct (IH _ Hc) as (h & m' & k & -> & Hc'). exists (m :: h), m', k. done.
Qed.

(** What an update applies it appends, unless it returns to a mark. *)
Lemma spec_update_appends sp u sp' messages :
  spec_update sp u = Some (sp', messages) -> messages = [] \/ history sp' = history sp ++ messages.
Proof.
  intros Hu. destruct u as [[from to|n|n hs ts bl]|u]; cbn [spec_update] in Hu.
  - left. by destruct (_ && _); simplify_eq.
  - left. destruct (_ && _); [|done]. by destruct (marks sp !! (n - 1)); simplify_eq.
  - right. by destruct (new_ready _ _); simplify_eq.
  - right. destruct (_ && _); [|done]. destruct (spec_status sp); try (by simplify_eq/=; rewrite ?app_assoc).
    case_decide; simplify_eq/=; by rewrite ?app_assoc.
Qed.

(** The command [c] was emitted by a message of a history that replays the chain,
    and the machine is after that history. *)
Definition emitted_in (init : S) (m : StateMachine) (c : Command.t Action Effect) : Prop :=
  exists h msg k status,
    inner m = Some (run init (h ++ msg :: k), status) /\ replays (h ++ msg :: k) status /\
    c ∈ (apply_transition (run init h) msg).2.

Lemma appended_emitted init m h messages status c :
  inner m = Some (run init (h ++ messages), status) -> replays (h ++ messages) status ->
  c ∈ emitted (run init h) messages -> emitted_in init m c.
Proof.
  intros Hi Hr (h' & msg & k & -> & Hc)%emitted_from. rewrite <- run_app in Hc.
  exists (h ++ h'), msg, k, status. by rewrite <- app_assoc.
Qed.

Lemma update_emitted {SL : SerdeLaws S} init m u m' commands c :
  sound init m -> handle_update m u = (m', Ok commands) -> c ∈ commands -> emitted_in init m' c.
Proof.
  intros Hs Hu Hc. destruct (inner m) as [[state status]|] eqn:Hin; [|unfold handle_update in Hu; by rewrite Hin in Hu].
  destruct (sound_refines _ _ _ _ Hs Hin) as (sp & Hm & Hcan).
  destruct (update_refined _ _ _ _ _ _ Hm Hu) as (sp' & messages & E & [Hi _] & ->).
  destruct (spec_update_appends _ _ _ _ E) as [->|Happ]; [by apply not_elem_of_nil in Hc|].
  destruct (canonical_update _ _ _ _ Hcan E) as [Hr _]. rewrite Happ in Hr, Hi. by eapply appended_emitted.
Qed.

Lemma resume_emitted {SL : SerdeLaws S} init m r m' commands c :
  sound init m -> handle_resume m r = (m', Ok commands) -> c ∈ commands -> emitted_in init m' c.
Proof.
  intros Hs Hu Hc. destruct (inner m) as [[state status]|] eqn:Hin; [|unfold handle_resume in Hu; by rewrite Hin in Hu].
  destruct (sound_refines _ _ _ _ Hs Hin) as (sp & Hm & Hcan).
  destruct (resume_refined _ _ _ _ _ _ Hm Hu) as [[Hi _] ->]. destruct (canonical_resume sp r Hcan) as [Hr _].
  by eapply (appended_emitted init _ (history sp) [Message.Resume r]).
Qed.

End StateMachine.
