(* ===== verification/Node.v ===== *)
(** The Ethereum node the indexer queries, a parameter: its JSON-RPC answers are
    those of a service that may reorganize, lag or fail between two requests.
    Every request is numbered, and an answer is a function of the request and its
    number; an operation is given the number of its first request and returns the
    number after its last. *)

From S2P Require Import Prelude.

(** [alloy::eips::BlockId], as the indexer uses it. *)
Inductive BlockId := LatestBlock | BlockNumber (number : Z).

(** The header fields the indexer reads ([blocks::BlockHeader]). *)
Record BlockHeader := MkBlockHeader {
  bh_number : Z; bh_hash : Z; bh_parent_hash : Z; bh_timestamp : Z; bh_logs_bloom : Z
}.

(** [alloy::rpc::types::Log]; the metadata of a pending log is absent. *)
Record Log := MkLog {
  l_topics : list Z; l_data : bytes; l_address : Z;
  l_block_number : option Z; l_block_hash : option Z;
  l_block_timestamp : option Z; l_log_index : option Z
}.

(** [alloy::rpc::types::Filter] scoped to blocks, and optionally to addresses and
    first topics. *)
Inductive BlockFilter := HashFilter (hash : Z) | RangeFilter (from to : Z).
Record Filter := MkFilter {
  f_blocks : BlockFilter; f_addresses : option (list Z); f_topics : option (list Z)
}.

Class Node := {
  RpcError : Type;
  (** The JSON-RPC "resource not found" error code. *)
  resource_not_found : RpcError -> bool;
  chain_id : Z;
  node_block : nat -> BlockId -> result RpcError (option BlockHeader);
  node_logs : nat -> Filter -> result RpcError (list Log);
  (** [alloy::primitives::logs_bloom] and [Bloom::contains_input], on raw bytes. *)
  logs_bloom : list Log -> Z;
  bloom_contains : Z -> bytes -> bool;
  (** Which of the requests that failed is the first to do so, among those a
      [try_join_all] issued from a tick on. *)
  race : nat -> nat;
  (** The number of the header a block hash stands for. *)
  hash_number : Z -> Z
}.

(** Documented behaviour of the node: a block requested by number has that
    number, the header hashed holds its number, and headers are of the width of their
    fields. *)
Class NodeLaws `{Node} : Prop := {
  header_number t id b : node_block t id = Ok (Some b) -> bh_number b = hash_number (bh_hash b);
  block_by_number t n b : node_block t (BlockNumber n) = Ok (Some b) -> bh_number b = n;
  block_width t id b : node_block t id = Ok (Some b) ->
    0 <= bh_number b < u64_max /\ is_u64 (bh_timestamp b)
}.

(** Documented behaviour of [eth_getLogs]: the logs are those of the filter, with
    their position set and no position repeated. [logs_final] is what the indexer relies on when it merges queries: the
    logs of a block hash never change, nor do those of a reorg-safe range. *)
Class LogLaws `{Node} : Prop := {
  logs_block t f logs l :
    node_logs t f = Ok logs -> l ∈ logs ->
    exists n, l_block_number l = Some n /\
      match f_blocks f with
      | HashFilter hash => n = hash_number hash
      | RangeFilter from to => from <= n <= to
      end;
  logs_topic t f logs l topics :
    node_logs t f = Ok logs -> l ∈ logs -> f_topics f = Some topics ->
    exists topic, head (l_topics l) = Some topic /\ topic ∈ topics;
  logs_address t f logs l addresses :
    node_logs t f = Ok logs -> l ∈ logs -> f_addresses f = Some addresses -> l_address l ∈ addresses;
  logs_NoDup t f logs :
    node_logs t f = Ok logs -> NoDup ((fun l => (l_block_number l, l_log_index l)) <$> logs);
  logs_final t t' f f' logs logs' l l' :
    f_blocks f = f_blocks f' -> node_logs t f = Ok logs -> node_logs t' f' = Ok logs' ->
    l ∈ logs -> l' ∈ logs' -> l_block_number l = l_block_number l' ->
    l_log_index l = l_log_index l' -> l = l'
}.

(** Documented behaviour of a bloom filter: it contains the address and the topics of
    every log it was made from. *)
Class BloomLaws `{Node} : Prop := {
  bloom_address logs l : l ∈ logs -> bloom_contains (logs_bloom logs) (be_bytes 20 (l_address l)) = true;
  bloom_topic logs l topic : l ∈ logs -> topic ∈ l_topics l ->
    bloom_contains (logs_bloom logs) (be_bytes 32 topic) = true
}.
