(* ===== verification/Blocks.v ===== *)
(** The block watcher, [crates/core/src/index/blocks.rs]: it follows the head of
    the chain, keeps the mutable blocks after a safe anchor to detect
    reorganizations, and queues the updates a consumer applies. Waiting is not
    modelled; what a wait changes is. *)

From S2P Require Import Prelude Messages Node.

(** ** Timings *)

Inductive Timing (T : Type) := Auto | Millis (value : T).
Arguments Auto {T}.
Arguments Millis {T} value.

Record Timings := MkTimings {
  block_time : Z; block_propagation_delay : Z; block_retry_delays : list Z
}.

(** [Timings::for_chain]: Gnosis Chain and Sepolia. *)
Definition for_chain (chain : Z) : option Timings :=
  if decide (chain = 100) then Some (MkTimings 5000 500 [500; 500; 500; 1000; 250; 250])
  else if decide (chain = 11155111) then Some (MkTimings 12000 1000 [1000; 1000; 1000; 500; 500])
  else None.

(** [blocks::Config]. *)
Record BlocksConfig := MkBlocksConfig {
  cfg_block_time : Timing Z;
  cfg_block_propagation_delay : Timing Z;
  cfg_block_retry_delays : Timing (list Z);
  max_reorg_depth : Z;
  start_block : option Z
}.

Section Blocks.
Context {NODE : Node}.

Inductive BlocksError :=
| BlocksRpc (e : RpcError)
| UnknownChainTimings (chain : Z)
| MissingBlock (id : BlockId)
| ExceededMaxReorgDepth (depth : Z).

(** [Timing::resolve]. *)
Definition resolve {T} (timing : Timing T) (chain : Z) (default : option T)
    : result BlocksError T :=
  match timing with
  | Millis value => Ok value
  | Auto => ok_or default (UnknownChainTimings chain)
  end.

(** [Config::timings]. *)
Definition timings (config : BlocksConfig) (chain : Z) : result BlocksError Timings :=
  let timings := for_chain chain in
  time ← resolve (cfg_block_time config) chain (block_time <$> timings);
  delay ← resolve (cfg_block_propagation_delay config) chain (block_propagation_delay <$> timings);
  retries ← resolve (cfg_block_retry_delays config) chain (block_retry_delays <$> timings);
  Ok (MkTimings time delay retries).

(** ** The watcher *)

Record PendingBlock := MkPendingBlock { pending_number : Z; pending_timestamp_ms : Z }.
Record SafeBlock := MkSafeBlock { safe_number : Z; safe_hash : Z }.

(** [BlockWatcher]; [recent] and [queue] are oldest first. *)
Record BlockWatcher := MkBlockWatcher {
  bw_config : BlocksConfig;
  bw_timings : Timings;
  bw_pending : PendingBlock;
  bw_safe : SafeBlock;
  recent : list BlockHeader;
  queue : list BlockUpdate.t
}.

Definition with_pending (w : BlockWatcher) (p : PendingBlock) : BlockWatcher :=
  MkBlockWatcher (bw_config w) (bw_timings w) p (bw_safe w) (recent w) (queue w).
Definition with_safe (w : BlockWatcher) (s : SafeBlock) : BlockWatcher :=
  MkBlockWatcher (bw_config w) (bw_timings w) (bw_pending w) s (recent w) (queue w).
Definition with_recent (w : BlockWatcher) (r : list BlockHeader) : BlockWatcher :=
  MkBlockWatcher (bw_config w) (bw_timings w) (bw_pending w) (bw_safe w) r (queue w).
Definition with_queue (w : BlockWatcher) (q : list BlockUpdate.t) : BlockWatcher :=
  MkBlockWatcher (bw_config w) (bw_timings w) (bw_pending w) (bw_safe w) (recent w) q.

Definition get_block (tick : nat) (id : BlockId) : result BlocksError (option BlockHeader) * nat :=
  (map_err BlocksRpc (node_block tick id), S tick).

Definition require_block (tick : nat) (id : BlockId) : result BlocksError BlockHeader * nat :=
  let '(block, tick) := get_block tick id in
  (block ← block; ok_or block (MissingBlock id), tick).

(** The [New] update of a block. *)
Definition new_update (b : BlockHeader) : BlockUpdate.t :=
  BlockUpdate.New (bh_number b) (bh_hash b) (bh_timestamp b) (bh_logs_bloom b).

(** [update_next_pending_block]: unchecked [u64] arithmetic. *)
Definition next_pending (t : Timings) (number timestamp : Z) : PendingBlock :=
  MkPendingBlock (wrap_u64 (number + 1)) (wrap_u64 (timestamp * 1000 + block_time t)).

(** The range scan of [initialize], from block [number] on; a block that does
    not build on the previous one starts the scan over. *)
Fixpoint scan (fuel : nat) (safe latest_number number : Z) (parent_hash : option Z)
    (canonical_latest : option BlockHeader) (recent : list BlockHeader) (tick : nat)
    : option (result BlocksError (list BlockHeader) * nat) :=
  match fuel with
  | O => None
  | S fuel =>
      if decide (number <= latest_number) then
        let '(cached_block, canonical_latest) :=
          if decide (number = latest_number) then (canonical_latest, None)
          else (None, canonical_latest) in
        let '(block, tick) :=
          match cached_block with
          | Some block => (Ok block, tick)
          | None => require_block tick (BlockNumber number)
          end in
        match block with
        | Err e => Some (Err e, tick)
        | Ok block =>
            if decide (parent_hash = None \/ parent_hash = Some (bh_parent_hash block)) then
              scan fuel safe latest_number (number + 1) (Some (bh_hash block)) canonical_latest
                (recent ++ [block]) tick
            else scan fuel safe latest_number safe None None [] tick
        end
      else Some (Ok recent, tick)
  end.

(** The updates [initialize] queues before the scan. *)
Definition initial_updates (config : BlocksConfig) (indexed : option BlockStatus) (safe : Z)
    : list BlockUpdate.t :=
  match indexed with
  | Some indexed =>
      let uncle := checked_add (Messages.safe indexed) 1 in
      match uncle with
      | Some uncle =>
          (if decide (uncle <= latest indexed) then [BlockUpdate.Uncle uncle] else [])
            ++ (if decide (uncle <= safe) then [BlockUpdate.Warp uncle safe] else [])
      | None => []
      end
  | None =>
      match start_block config with
      | Some start_block =>
          if decide (start_block <= safe) then [BlockUpdate.Warp start_block safe] else []
      | None => []
      end
  end.

(** Whether a scanned block is to be emitted. *)
Definition unprocessed (config : BlocksConfig) (indexed : option BlockStatus) (block : BlockHeader)
    : bool :=
  match indexed with
  | None =>
      match start_block config with
      | None => true
      | Some start_block => bool_decide (start_block <= bh_number block)
      end
  | Some indexed =>
      match checked_add (Messages.safe indexed) 1 with
      | Some from => bool_decide (from <= bh_number block)
      | None => false
      end
  end.

Definition initialize (fuel : nat) (w : BlockWatcher) (indexed : option BlockStatus) (tick : nat)
    : option (result BlocksError BlockWatcher * nat) :=
  let '(latest, tick) := require_block tick LatestBlock in
  match latest with
  | Err e => Some (Err e, tick)
  | Ok latest =>
      let safe := sat_sub (bh_number latest) (max_reorg_depth (bw_config w)) in
      let w := with_pending w (next_pending (bw_timings w) (bh_number latest) (bh_timestamp latest)) in
      let w := with_queue w (queue w ++ initial_updates (bw_config w) indexed safe) in
      '(scanned, tick) ← scan fuel safe (bh_number latest) safe None (Some latest) (recent w) tick;
      match scanned with
      | Err e => Some (Err e, tick)
      | Ok [] => None
      | Ok (safe :: recent) =>
          let w := with_safe (with_recent w recent) (MkSafeBlock (bh_number safe) (bh_hash safe)) in
          Some (Ok (with_queue w (queue w ++
            (new_update <$> filter (fun b => unprocessed (bw_config w) indexed b = true) recent))),
                tick)
      end
  end.

(** [BlockWatcher::new]. The [expect] on the scanned blocks never fires: the
    empty scan stands for it, as [None] ([initialize_spec]). *)
Definition new_watcher (fuel : nat) (config : BlocksConfig) (indexed : option BlockStatus)
    (tick : nat) : option (result BlocksError BlockWatcher * nat) :=
  match timings config chain_id with
  | Err e => Some (Err e, tick)
  | Ok timings =>
      initialize fuel
        (MkBlockWatcher config timings (MkPendingBlock 0 0) (MkSafeBlock 0 0) [] []) indexed tick
  end.

(** [ready]. *)
Definition ready (w : BlockWatcher) : list BlockUpdate.t * BlockWatcher :=
  (queue w, with_queue w []).

(** [BlockWatcher::status]. *)
Definition watcher_status (w : BlockWatcher) : BlockStatus :=
  MkBlockStatus (sat_sub (pending_number (bw_pending w)) 1) (safe_number (bw_safe w)).

(** The polling loop of [next], until the pending block is available. *)
Fixpoint await (fuel : nat) (w : BlockWatcher) (retry_count : nat) (tick : nat)
    : option (result BlocksError BlockHeader * BlockWatcher * nat) :=
  match fuel with
  | O => None
  | S fuel =>
      let '(block, tick) := get_block tick (BlockNumber (pending_number (bw_pending w))) in
      match block with
      | Err e => Some (Err e, w, tick)
      | Ok (Some block) => Some (Ok block, w, tick)
      | Ok None =>
          let delays := block_retry_delays (bw_timings w) in
          let index := (retry_count mod (length delays + 1))%nat in
          let w :=
            match delays !! index with
            | Some _ => w
            | None =>
                with_pending w (MkPendingBlock (pending_number (bw_pending w))
                  (wrap_u64 (pending_timestamp_ms (bw_pending w) + block_time (bw_timings w))))
            end in
          await fuel w (S retry_count) tick
      end
  end.

(** A block that builds on the chain: recorded, evicting the oldest tracked block
    to the safe anchor past the reorg depth. *)
Definition extend_chain (w : BlockWatcher) (block : BlockHeader) : BlockUpdate.t * BlockWatcher :=
  let w := with_pending w (next_pending (bw_timings w) (bh_number block) (bh_timestamp block)) in
  let w := with_recent w (recent w ++ [block]) in
  let w :=
    if decide (max_reorg_depth (bw_config w) < Z.of_nat (length (recent w))) then
      match recent w with
      | evicted :: recent =>
          with_safe (with_recent w recent) (MkSafeBlock (bh_number evicted) (bh_hash evicted))
      | [] => w
      end
    else w in
  (new_update block, w).

(** What [next] makes of the pending block once it is available. *)
Definition accept_block (w : BlockWatcher) (block : BlockHeader)
    : result BlocksError BlockUpdate.t * BlockWatcher :=
  match last (recent w) with
  | Some last =>
      if decide (bh_hash last ≠ bh_parent_hash block) then
        let w := with_recent w (take (length (recent w) - 1) (recent w)) in
        let w := with_pending w
          (MkPendingBlock (bh_number last) (wrap_u64 (bh_timestamp last * 1000))) in
        (Ok (BlockUpdate.Uncle (bh_number last)), w)
      else let '(update, w) := extend_chain w block in (Ok update, w)
  | None =>
      if decide (safe_hash (bw_safe w) ≠ bh_parent_hash block)
      then (Err (ExceededMaxReorgDepth (max_reorg_depth (bw_config w))), w)
      else let '(update, w) := extend_chain w block in (Ok update, w)
  end.

(** [BlockWatcher::next]. *)
Definition next_update (fuel : nat) (w : BlockWatcher) (tick : nat)
    : option (result BlocksError BlockUpdate.t * BlockWatcher * nat) :=
  match queue w with
  | update :: queue => Some (Ok update, with_queue w queue, tick)
  | [] =>
      '(block, w, tick) ← await fuel w 0 tick;
      match block with
      | Err e => Some (Err e, w, tick)
      | Ok block => let '(update, w) := accept_block w block in Some (update, w, tick)
      end
  end.

(** The position of the last block of [recent] numbered below [number], or of the
    last block without it ([rposition]). *)
Fixpoint rposition (number : option Z) (recent : list BlockHeader) : option nat :=
  match recent with
  | [] => None
  | b :: recent =>
      match rposition number recent with
      | Some i => Some (S i)
      | None =>
          if match number with None => true | Some n => bool_decide (bh_number b < n) end
          then Some O else None
      end
  end.

(** The number of the next queued block, if any, unless the watcher warps. *)
Definition next_number (w : BlockWatcher) : option (option Z) :=
  match queue w with
  | BlockUpdate.New number _ _ _ :: _ => Some (Some number)
  | _ :: _ => None
  | [] => Some None
  end.

(** [revalidate_last_block]: the number and hash of the invalidated block. *)
Definition revalidate_last_block (w : BlockWatcher) (tick : nat)
    : result BlocksError (option (Z * Z)) * BlockWatcher * nat :=
  match next_number w with
  | None => (Ok None, w, tick)
  | Some next_number =>
      match rposition next_number (recent w) ≫= fun i => (pair i) <$> recent w !! i with
      | None => (Ok None, w, tick)
      | Some (last_index, last) =>
          let '(current, tick) := get_block tick (BlockNumber (bh_number last)) in
          match current with
          | Err e => (Err e, w, tick)
          | Ok current =>
              if decide (bh_hash <$> current = Some (bh_hash last)) then (Ok None, w, tick)
              else
                let w := with_recent w (take last_index (recent w)) in
                let w := with_pending w
                  (MkPendingBlock (bh_number last) (wrap_u64 (bh_timestamp last * 1000))) in
                let w := with_queue w [BlockUpdate.Uncle (bh_number last)] in
                (Ok (Some (bh_number last, bh_hash last)), w, tick)
          end
      end
  end.

(** ** The stream of updates

    A consumer's position is the block it expects next, none before the first
    update. *)

Definition advance (pos : option Z) (update : BlockUpdate.t) : option (option Z) :=
  match update with
  | BlockUpdate.Warp from to =>
      if decide ((pos = None \/ pos = Some from) /\ from <= to) then Some (Some (to + 1)) else None
  | BlockUpdate.Uncle number =>
      match pos with
      | Some p => if decide (number < p) then Some (Some number) else None
      | None => None
      end
  | BlockUpdate.New number _ _ _ =>
      if decide (pos = None \/ pos = Some number) then Some (Some (number + 1)) else None
  end.

Fixpoint follow (pos : option Z) (updates : list BlockUpdate.t) : option (option Z) :=
  match updates with
  | [] => Some pos
  | update :: updates => pos ← advance pos update; follow pos updates
  end.

Lemma follow_app pos us us' : follow pos (us ++ us') = follow pos us ≫= fun p => follow p us'.
Proof.
  revert pos. induction us as [|u us IH]; intros pos; [done|]. cbn [follow app].
  destruct (advance pos u) as [p|]; [apply IH|done].
Qed.

Lemma advance_Some pos u p : advance pos u = Some p -> exists n, p = Some n.
Proof. destruct u; simpl; intros H; [| |]; repeat case_match; simplify_eq; eauto. Qed.

(** A chain of headers on top of a block. *)
Fixpoint linked (number hash : Z) (blocks : list BlockHeader) : Prop :=
  match blocks with
  | [] => True
  | b :: blocks =>
      bh_number b = number + 1 /\ bh_parent_hash b = hash /\ linked (bh_number b) (bh_hash b) blocks
  end.

(** The hash a block on top of the chain refers to. *)
Definition tip_hash (hash : Z) (blocks : list BlockHeader) : Z :=
  match last blocks with Some b => bh_hash b | None => hash end.

(** The number of the block before the [i]-th of the chain. *)
Lemma linked_lookup n h l i b : linked n h l -> l !! i = Some b -> bh_number b = n + Z.of_nat i + 1.
Proof.
  revert n h i. induction l as [|c l IH]; intros n h i Hl Hi; [done|].
  destruct Hl as (Hc & _ & Hl). destruct i as [|i]; simplify_eq/=; [lia|]. erewrite IH by done. lia.
Qed.

Lemma linked_snoc n h l b :
  linked n h l -> bh_number b = n + Z.of_nat (length l) + 1 -> bh_parent_hash b = tip_hash h l ->
  linked n h (l ++ [b]).
Proof.
  revert n h. induction l as [|c l IH]; intros n h Hl Hb Hp; [simpl in *; repeat split; try done; lia|].
  destruct Hl as (Hc & Hh & Hl). cbn [app linked length] in *. split_and!; [done..|].
  apply IH; [done|lia|]. rewrite Hp. unfold tip_hash. rewrite last_cons.
  by destruct (last l).
Qed.

Lemma linked_take n h l k : linked n h l -> linked n h (take k l).
Proof.
  revert n h k. induction l as [|c l IH]; intros n h [|k]; simpl; [done..|].
  intros (? & ? & ?). auto.
Qed.

Lemma tip_hash_snoc h l b : tip_hash h (l ++ [b]) = bh_hash b.
Proof. unfold tip_hash. by rewrite last_snoc. Qed.

Lemma follow_news pos n h l :
  pos = None \/ pos = Some (n + 1) -> linked n h l ->
  follow pos (new_update <$> l) =
    Some (if l is [] then pos else Some (n + Z.of_nat (length l) + 1)).
Proof.
  revert pos n h. induction l as [|b l IH]; intros pos n h Hpos Hl; [done|].
  destruct Hl as (Hb & _ & Hl). cbn [fmap list_fmap follow advance new_update].
  rewrite decide_True by (rewrite Hb; tauto). cbn [mbind option_bind].
  rewrite (IH _ (bh_number b) (bh_hash b)) by (try done; by right).
  destruct l; [|]; simpl length; do 2 f_equal; lia.
Qed.

(** The blocks numbered [from] and up are a suffix. *)
Lemma filter_linked n h l from :
  linked n h l ->
  filter (fun b => from <= bh_number b) l = drop (Z.to_nat (from - n - 1)) l.
Proof.
  revert n h. induction l as [|b l IH]; intros n h Hl; [by rewrite drop_nil|].
  destruct Hl as (Hb & _ & Hl). rewrite filter_cons, (IH _ _ Hl). case_decide as Hf.
  - replace (Z.to_nat (from - n - 1)) with 0%nat by lia.
    replace (Z.to_nat (from - bh_number b - 1)) with 0%nat by lia. done.
  - replace (Z.to_nat (from - n - 1)) with (S (Z.to_nat (from - bh_number b - 1))) by lia. done.
Qed.

Lemma linked_above n h l from :
  linked n h l -> from <= n + 1 -> Forall (fun b => from <= bh_number b) l.
Proof.
  revert n h. induction l as [|b l IH]; intros n h Hl Hf; [constructor|].
  destruct Hl as (Hb & _ & Hl). constructor; [lia|]. eapply IH; [done|lia].
Qed.

Lemma linked_drop n h l k :
  linked n h l -> (k <= length l)%nat -> exists h', linked (n + Z.of_nat k) h' (drop k l).
Proof.
  revert n h k. induction l as [|b l IH]; intros n h k Hl Hk.
  { rewrite drop_nil. by exists h. }
  destruct k as [|k]; [exists h; by rewrite Z.add_0_r|].
  destruct Hl as (Hb & _ & Hl). destruct (IH _ _ k Hl) as [h' H']; [simpl in Hk; lia|].
  exists h'. simpl. by replace (n + Z.of_nat (S k)) with (bh_number b + Z.of_nat k) by lia.
Qed.

(** ** The invariant of the watcher *)

(** A header as the node serves it, and the update numbers it leaves room for. *)
Definition header_ok (b : BlockHeader) : Prop :=
  0 <= bh_number b < u64_max /\ bh_number b = hash_number (bh_hash b).

Definition update_room (update : BlockUpdate.t) : Prop :=
  match update with
  | BlockUpdate.Warp from to => 0 <= from /\ to < u64_max
  | BlockUpdate.Uncle number => 0 <= number <= u64_max
  | BlockUpdate.New number hash _ _ => 0 <= number < u64_max /\ number = hash_number hash
  end.

(** The tracked blocks extend the safe anchor, within the reorg depth, and the
    pending block follows the last of them. *)
Record watcher_ok (w : BlockWatcher) : Prop := {
  ok_recent : Forall header_ok (recent w);
  ok_queue : Forall update_room (queue w);
  ok_linked : linked (safe_number (bw_safe w)) (safe_hash (bw_safe w)) (recent w);
  ok_depth : Z.of_nat (length (recent w)) <= max_reorg_depth (bw_config w);
  ok_pending :
    pending_number (bw_pending w) = safe_number (bw_safe w) + Z.of_nat (length (recent w)) + 1;
  ok_safe : 0 <= safe_number (bw_safe w) < u64_max
}.

(** The queue leads a consumer at [pos] to the pending block; only a watcher
    that tracks no block leaves a consumer without a position. *)
Definition stream_ok (w : BlockWatcher) (pos : option Z) : Prop :=
  follow pos (queue w) = Some (Some (pending_number (bw_pending w))) \/
  (pos = None /\ queue w = [] /\ recent w = []).

Lemma stream_ok_empty w pos :
  stream_ok w pos -> queue w = [] ->
  pos = Some (pending_number (bw_pending w)) \/ (pos = None /\ recent w = []).
Proof. intros [H|(? & ? & ?)] Hq; [rewrite Hq in H; simplify_eq/=|]; auto. Qed.

Context {LAWS : NodeLaws}.

Lemma get_block_number tick n b tick' :
  get_block tick (BlockNumber n) = (Ok (Some b), tick') -> bh_number b = n /\ header_ok b.
Proof.
  unfold get_block. intros H. simplify_eq/=.
  destruct (node_block tick (BlockNumber n)) as [o|] eqn:E; simplify_eq/=.
  split; [by eapply block_by_number|]. split; [by eapply block_width|by eapply header_number].
Qed.

Lemma require_block_spec tick id b tick' :
  require_block tick id = (Ok b, tick') ->
  tick' = S tick /\ node_block tick id = Ok (Some b) /\ header_ok b.
Proof.
  unfold require_block, get_block. intros H. simplify_eq/=. result_simpl.
  destruct (node_block tick id) as [o|] eqn:E; simplify_eq/=.
  split_and!; [done..|split; [by eapply block_width|by eapply header_number]].
Qed.

(** A scan in progress: the blocks so far are the safe block and a chain on it. *)
Definition scanning (safe number : Z) (parent_hash : option Z) (blocks : list BlockHeader) : Prop :=
  match blocks with
  | [] => number = safe /\ parent_hash = None
  | s :: blocks =>
      bh_number s = safe /\ linked (bh_number s) (bh_hash s) blocks /\
      number = safe + Z.of_nat (length blocks) + 1 /\ parent_hash = Some (tip_hash (bh_hash s) blocks)
  end.

Lemma scanning_snoc safe number parent_hash blocks b :
  scanning safe number parent_hash blocks -> bh_number b = number ->
  parent_hash = None \/ parent_hash = Some (bh_parent_hash b) ->
  scanning safe (number + 1) (Some (bh_hash b)) (blocks ++ [b]).
Proof.
  destruct blocks as [|s blocks]; cbn [scanning app].
  - intros [-> ->] Hb _. simpl. split_and!; [done|done|lia|done].
  - intros (Hs & Hl & Hn & ->) Hb [?|Hp]; simplify_eq. rewrite length_app. simpl.
    split_and!; [done| |lia|by rewrite tip_hash_snoc].
    apply linked_snoc; [done|lia|done].
Qed.

Lemma scan_spec fuel safe latest number parent cached blocks tick scanned tick' :
  scanning safe number parent blocks -> number <= latest + 1 ->
  (forall b, cached = Some b -> bh_number b = latest /\ header_ok b) -> Forall header_ok blocks ->
  scan fuel safe latest number parent cached blocks tick = Some (Ok scanned, tick') ->
  (exists parent', scanning safe (latest + 1) parent' scanned) /\ Forall header_ok scanned.
Proof.
  revert number parent cached blocks tick.
  induction fuel as [|fuel IH]; intros number parent cached blocks tick Hs Hn Hc Hfb Hscan; [done|].
  cbn [scan] in Hscan. case_decide as Hle.
  2:{ simplify_eq. split; [|done]. exists parent. by replace (latest + 1) with number by lia. }
  match type of Hscan with
  | (let '(_, _) := ?c in _) = _ => destruct c as [cb cl] eqn:Ec
  end.
  match type of Hscan with
  | (let '(_, _) := ?c in _) = _ => destruct c as [block tick1] eqn:Eb
  end.
  destruct block as [block|]; [|done].
  assert (bh_number block = number /\ header_ok block) as [Hb Hhb].
  { destruct cb as [b|]; simplify_eq.
    - destruct (decide (number = latest)); simplify_eq. by apply Hc.
    - apply require_block_spec in Eb as (_ & Eb & ?). by apply block_by_number in Eb. }
  assert (forall b, cl = Some b -> bh_number b = latest /\ header_ok b) as Hcl
    by (intros b' Hb'; destruct (decide (number = latest)); simplify_eq; eauto).
  case_decide as Hp.
  - apply IH in Hscan; [done|by eapply scanning_snoc|lia|done|by apply Forall_app_2; [|apply Forall_singleton]].
  - assert (safe <= latest + 1).
    { destruct blocks; simpl in Hs; [lia|]. destruct Hs as (_ & _ & ? & _). lia. }
    by apply IH in Hscan.
Qed.

(** The persisted range a watcher may resume from, or start block it may start
    from, for the node's latest block. *)
Definition resumable (config : BlocksConfig) (indexed : option BlockStatus) (head : Z) : Prop :=
  match indexed with
  | Some indexed =>
      0 <= Messages.safe indexed <= latest indexed /\ Messages.safe indexed <= head
  | None => match start_block config with Some start => 0 <= start <= head | None => True end
  end.

(** The position of a consumer that resumes. *)
Definition resume_position (indexed : option BlockStatus) : option Z :=
  (fun i => latest i + 1) <$> indexed.

(** The blocks from [from] up lead a consumer that expects [from] past the last. *)
Lemma follow_from pos n h l from :
  linked n h l -> n < from -> from <= n + Z.of_nat (length l) + 1 ->
  pos = Some from \/ (pos = None /\ from <= n + Z.of_nat (length l)) ->
  follow pos (new_update <$> filter (fun b => from <= bh_number b) l) =
    Some (Some (n + Z.of_nat (length l) + 1)).
Proof.
  intros Hl Hn Hf Hpos. erewrite filter_linked by done.
  destruct (linked_drop n h l (Z.to_nat (from - n - 1)) Hl) as [h' Hd]; [lia|].
  replace (n + Z.of_nat (Z.to_nat (from - n - 1))) with (from - 1) in Hd by lia.
  rewrite (follow_news pos (from - 1) h');
    [|replace (from - 1 + 1) with from by lia; tauto|done].
  pose proof (length_drop l (Z.to_nat (from - n - 1))) as Hlen.
  destruct (drop _ l); simpl length in *; [|do 2 f_equal; lia].
  destruct Hpos as [->|[-> ?]]; [do 2 f_equal|]; lia.
Qed.

(** The updates queued by [initialize] lead a consumer past the node's latest
    block. *)
Lemma follow_initial config indexed n h blocks :
  resumable config indexed (n + Z.of_nat (length blocks)) ->
  0 <= n -> n + Z.of_nat (length blocks) < u64_max -> linked n h blocks ->
  let updates := initial_updates config indexed n ++
    (new_update <$> filter (fun b => unprocessed config indexed b = true) blocks) in
  follow (resume_position indexed) updates = Some (Some (n + Z.of_nat (length blocks) + 1)) \/
  (indexed = None /\ updates = [] /\ blocks = []).
Proof.
  intros Hr Hn Hmax Hl. cbv zeta. rewrite follow_app.
  unfold resumable, initial_updates, unprocessed in *. destruct indexed as [i|].
  - left. destruct Hr as [Hi Hih]. unfold checked_add. rewrite decide_True by lia.
    cbn [resume_position fmap option_fmap option_map].
    rewrite (list_filter_iff _ (fun b => Messages.safe i + 1 <= bh_number b))
      by (intros b; by rewrite bool_decide_eq_true).
    assert (follow (Some (latest i + 1))
      (if decide (Messages.safe i + 1 <= latest i) then [BlockUpdate.Uncle (Messages.safe i + 1)] else [])
      = Some (Some (Messages.safe i + 1))) as Hu.
    { case_decide; simpl; [by rewrite decide_True by lia|]. do 2 f_equal. lia. }
    rewrite follow_app, Hu. cbn [mbind option_bind]. destruct (decide (Messages.safe i + 1 <= n)).
    + cbn [follow advance]. rewrite decide_True by auto. cbn [mbind option_bind].
      rewrite filter_every by (eapply linked_above; [exact Hl|lia]).
      rewrite (follow_news _ n h) by (auto; done). destruct blocks; simpl in *; do 2 f_equal; lia.
    + apply (follow_from _ _ h); [done|lia|lia|by left].
  - cbn [resume_position fmap option_fmap option_map]. destruct (start_block config) as [start|].
    + left. rewrite (list_filter_iff _ (fun b => start <= bh_number b))
        by (intros b; by rewrite bool_decide_eq_true).
      case_decide as Hs; simpl.
      * rewrite decide_True by (split; [by left|done]). simpl.
        rewrite filter_every by (eapply linked_above; [exact Hl|lia]).
        rewrite (follow_news _ n h) by (auto; done). destruct blocks; simpl in *; do 2 f_equal; lia.
      * apply (follow_from _ _ h); [done|lia|lia|right; split; [done|lia]].
    + rewrite filter_every by (apply Forall_true; done).
      cbn [follow mbind option_bind app].
      rewrite (follow_news _ n h) by (auto; done).
      destruct blocks; [by right|left]. do 2 f_equal; simpl; lia.
Qed.

Lemma initial_updates_room config indexed n head :
  resumable config indexed head -> n <= head -> 0 <= n < u64_max -> head < u64_max ->
  Forall update_room (initial_updates config indexed n).
Proof.
  unfold resumable, initial_updates, checked_add. intros Hr Hnh Hn Hh.
  destruct indexed as [i|].
  - rewrite decide_True by lia. apply Forall_app. split; case_decide; try done; apply Forall_singleton; simpl; lia.
  - destruct (start_block config); [|done]. case_decide; try done; apply Forall_singleton; simpl; lia.
Qed.

Lemma initialize_spec fuel w indexed tick latest tick0 w' tick' :
  require_block tick LatestBlock = (Ok latest, tick0) ->
  recent w = [] -> queue w = [] -> 0 <= max_reorg_depth (bw_config w) ->
  resumable (bw_config w) indexed (bh_number latest) ->
  initialize fuel w indexed tick = Some (Ok w', tick') ->
  watcher_ok w' /\ stream_ok w' (resume_position indexed) /\ bw_config w' = bw_config w.
Proof.
  intros Hreq Hrec Hq Hd Hr H. unfold initialize in H. rewrite Hreq in H.
  apply require_block_spec in Hreq as (_ & _ & Hh). pose proof Hh as [Hw _].
  cbn [with_pending with_queue bw_config bw_timings bw_pending bw_safe queue recent] in H.
  rewrite Hrec, Hq in H.
  set (n := sat_sub (bh_number latest) (max_reorg_depth (bw_config w))) in *.
  assert (n <= bh_number latest /\ 0 <= n /\ bh_number latest - n <= max_reorg_depth (bw_config w))
    as (Hn & Hn0 & Hdepth) by (subst n; unfold sat_sub; lia).
  destruct (scan _ _ _ _ _ _ _ _) as [[[scanned|] t]|] eqn:Hs; simplify_eq/=.
  destruct scanned as [|s blocks]; simplify_eq/=.
  apply scan_spec in Hs as [(parent & Hsafe & Hl & Hlen & _) Hfb]; [|done|lia|by intros ? [= <-]|constructor].
  apply Forall_cons in Hfb as [_ Hfb].
  assert (bh_number latest = n + Z.of_nat (length blocks)) as Hhead by lia.
  rewrite Hhead in Hr, Hw.
  pose proof (follow_initial (bw_config w) indexed n (bh_hash s) blocks Hr Hn0 ltac:(lia)) as Hf.
  rewrite Hsafe in Hl. specialize (Hf Hl).
  split_and!; [split; simpl| |done].
  - done.
  - apply Forall_app. split; [eapply initial_updates_room; [exact Hr|lia..]|].
    apply Forall_fmap, Forall_forall. intros b [_ Hb]%list_elem_of_filter.
    rewrite Forall_forall in Hfb. by destruct (Hfb b Hb).
  - by rewrite Hsafe.
  - lia.
  - rewrite wrap_u64_small by (unfold is_u64; lia). lia.
  - lia.
  - unfold stream_ok. simpl. rewrite wrap_u64_small by (unfold is_u64; lia). rewrite Hhead.
    destruct Hf as [Hf|(-> & Hf & Hb)]; [by left|by right].
Qed.

Lemma await_spec fuel w retry tick r w' tick' :
  await fuel w retry tick = Some (r, w', tick') ->
  (exists ms, w' = with_pending w (MkPendingBlock (pending_number (bw_pending w)) ms)) /\
  (forall b, r = Ok b -> bh_number b = pending_number (bw_pending w) /\ header_ok b).
Proof.
  revert w retry tick. induction fuel as [|fuel IH]; intros w retry tick H; [done|].
  cbn [await] in H. destruct (get_block tick _) as [[[b|]|e] t] eqn:Hg.
  - simplify_eq. apply get_block_number in Hg as [Hb Hw]. split; [|intros ? [= <-]; by rewrite Hb].
    exists (pending_timestamp_ms (bw_pending w')). by destruct w' as [? ? [] ? ? ?].
  - destruct (block_retry_delays _ !! _); apply IH in H as [[ms ->] Hr]; split; eauto.
  - simplify_eq. split; [|done].
    exists (pending_timestamp_ms (bw_pending w')). by destruct w' as [? ? [] ? ? ?].
Qed.

(** What an operation that emits [update] leaves behind. *)
Definition emits_ok (w : BlockWatcher) (pos : option Z) (update : BlockUpdate.t)
    (w' : BlockWatcher) : Prop :=
  bw_config w' = bw_config w /\ watcher_ok w' /\ update_room update /\
  exists pos', advance pos update = Some pos' /\ stream_ok w' pos'.

(** The reported status, in the range of block numbers. *)
Lemma watcher_status_bounds w :
  watcher_ok w -> safe (watcher_status w) <= latest (watcher_status w) <= u64_max.
Proof.
  intros [Hr _ Hl _ Hp Hs]. unfold watcher_status, sat_sub. simpl. rewrite Hp.
  destruct (last (recent w)) as [b|] eqn:E.
  - rewrite last_lookup in E. rewrite <- Nat.sub_1_r in E. pose proof (linked_lookup _ _ _ _ _ Hl E).
    pose proof (lookup_lt_Some _ _ _ E). apply (Forall_lookup_1 _ _ _ _ Hr) in E as [? _]. lia.
  - apply last_None in E. rewrite E. simpl. lia.
Qed.

Lemma extend_chain_spec w block pos :
  watcher_ok w -> pos = None \/ pos = Some (bh_number block) -> queue w = [] ->
  bh_number block = pending_number (bw_pending w) -> header_ok block ->
  bh_parent_hash block = tip_hash (safe_hash (bw_safe w)) (recent w) ->
  emits_ok w pos (extend_chain w block).1 (extend_chain w block).2.
Proof.
  intros [Hr Hqr Hl Hd Hp Hsafe] Hpos Hq Hb [Hw Hhn] Hpar.
  assert (Forall header_ok (recent w ++ [block])) as Hr' by (by apply Forall_app_2; [|apply Forall_singleton]).
  assert (linked (safe_number (bw_safe w)) (safe_hash (bw_safe w)) (recent w ++ [block])) as Hl'
    by (apply linked_snoc; [done|lia|done]).
  assert (wrap_u64 (bh_number block + 1) = bh_number block + 1) as Hwr
    by (apply wrap_u64_small; unfold is_u64; lia).
  unfold emits_ok, extend_chain. cbn [fst snd new_update advance].
  rewrite (decide_True (P := pos = None \/ _)) by done.
  cbn [with_pending with_recent recent bw_config bw_safe].
  destruct (decide (max_reorg_depth _ < _)) as [Hdep|Hdep].
  - destruct (recent w ++ [block]) as [|ev r] eqn:E; [by destruct (recent w); simplify_eq/=|].
    assert (length (recent w ++ [block]) = S (length r)) as Hlen by by rewrite E.
    rewrite length_app in Hlen. simpl in Hlen, Hdep. destruct Hl' as (Hev & _ & Hl').
    apply Forall_cons in Hr' as [_ Hr'].
    assert (bh_number ev <= bh_number block) by lia.
    simpl. split_and!; [done|split; simpl; [done..|lia|lia|lia]|lia|lia|done|].
    eexists; split; [done|]. left. simpl. rewrite Hq. simpl. by rewrite Hwr.
  - rewrite length_app in Hdep. simpl in *.
    split_and!; [done|split; simpl; rewrite ?length_app; simpl; [done..|lia|lia|done]|lia|lia|done|].
    eexists; split; [done|]. left. simpl. rewrite Hq. simpl. by rewrite Hwr.
Qed.

(** Uncling the block at [i] and everything after it. *)
Lemma uncle_spec w pos i b p ms q :
  watcher_ok w -> recent w !! i = Some b -> pos = Some p -> bh_number b < p -> q = [] ->
  let w' := with_pending (with_recent w (take i (recent w))) (MkPendingBlock (bh_number b) ms) in
  emits_ok w pos (BlockUpdate.Uncle (bh_number b)) (with_queue w' q).
Proof.
  intros [Hr Hqr Hl Hd Hp Hsafe] Hi -> Hlt ->. pose proof (linked_lookup _ _ _ _ _ Hl Hi) as Hn.
  assert (header_ok b) as [Hw _] by (by eapply Forall_lookup_1).
  apply lookup_lt_Some in Hi.
  unfold emits_ok. simpl. rewrite decide_True by done.
  split_and!; [done|split; simpl; rewrite ?length_take|lia|lia|];
    [by apply Forall_take|done|by apply linked_take|lia|lia|done|].
  eexists; split; [done|]. by left.
Qed.

Lemma accept_block_spec w block pos update w' :
  watcher_ok w -> stream_ok w pos -> queue w = [] ->
  bh_number block = pending_number (bw_pending w) -> header_ok block ->
  accept_block w block = (Ok update, w') -> emits_ok w pos update w'.
Proof.
  intros Hok Hs Hq Hb Hw H. apply stream_ok_empty in Hs; [|done].
  assert (pos = None \/ pos = Some (bh_number block)) as Hpos by (rewrite Hb; tauto).
  assert (bh_parent_hash block = tip_hash (safe_hash (bw_safe w)) (recent w) ->
    (let '(update, w) := extend_chain w block in (Ok (E := BlocksError) update, w)) = (Ok update, w') ->
    emits_ok w pos update w') as Hext.
  { intros Hpar He. pose proof (extend_chain_spec w block pos Hok Hpos Hq Hb Hw Hpar) as Hsp.
    destruct (extend_chain w block) as [u v]. by simplify_eq. }
  unfold accept_block in H. destruct (last (recent w)) as [lastb|] eqn:E.
  - case_decide as Hh.
    + simplify_eq. destruct Hs as [->|[_ Hs]]; [|by rewrite Hs in E].
      rewrite last_lookup in E. rewrite <- Nat.sub_1_r in E.
      pose proof (linked_lookup _ _ _ _ _ (ok_linked w Hok) E) as Hn.
      pose proof (ok_pending w Hok) as Hp. pose proof (lookup_lt_Some _ _ _ E).
      eapply (uncle_spec w _ _ _ _ (wrap_u64 (bh_timestamp lastb * 1000)) (queue w) Hok E eq_refl); [|done].
      lia.
    + apply Hext; [|done]. unfold tip_hash. rewrite E.
      symmetry. by destruct (decide (bh_hash lastb = bh_parent_hash block)).
  - apply last_None in E. case_decide as Hh; [done|].
    apply Hext; [|done]. rewrite E. simpl.
    symmetry. by destruct (decide (safe_hash (bw_safe w) = bh_parent_hash block)).
Qed.

Lemma next_update_spec fuel w tick pos r w' tick' :
  watcher_ok w -> stream_ok w pos -> next_update fuel w tick = Some (r, w', tick') ->
  match r with
  | Ok update => emits_ok w pos update w'
  | Err _ => bw_config w' = bw_config w /\ watcher_ok w' /\ stream_ok w' pos
  end.
Proof.
  intros Hok Hs H. unfold next_update in H. destruct (queue w) as [|u q] eqn:Hq.
  - destruct (await _ _ _ _) as [[[block w1] t]|] eqn:Ha; [|done]. cbn [mbind option_bind] in H.
    apply await_spec in Ha as [[ms Hw1] Hb].
    assert (watcher_ok w1) as Hok1 by (subst w1; by destruct Hok).
    assert (stream_ok w1 pos) as Hs1 by by subst w1.
    assert (queue w1 = []) as Hq1 by by subst w1.
    assert (bw_config w1 = bw_config w) as Hc1 by by subst w1.
    destruct block as [block|e]; [|by simplify_eq].
    destruct (Hb _ eq_refl) as [Hn Hw].
    destruct (accept_block w1 block) as [[update|e] w2] eqn:Hacc; injection H as <- <- <-.
    + unfold emits_ok. rewrite <- Hc1. eapply accept_block_spec; [done..| |done|done].
      rewrite Hn. by rewrite Hw1.
    + unfold accept_block, extend_chain in Hacc.
      destruct (last (recent w1)); case_decide; simplify_eq; by rewrite Hc1.
  - simplify_eq. destruct Hs as [Hs|(_ & Hn & _)]; [|by rewrite Hq in Hn].
    rewrite Hq in Hs. cbn [follow] in Hs.
    destruct (advance pos u) as [p|] eqn:Ha; [|done].
    destruct Hok as [? Hqr ? ? ?]. rewrite Hq in Hqr. apply Forall_cons in Hqr as [? ?].
    split_and!; [done|by split|done|]. exists p. split; [done|by left].
Qed.

Lemma rposition_spec number blocks i b :
  rposition number blocks = Some i -> blocks !! i = Some b ->
  forall n, number = Some n -> bh_number b < n.
Proof.
  revert i. induction blocks as [|c blocks IH]; intros i Hr Hi n ->; [done|]. cbn [rposition] in Hr.
  destruct (rposition (Some n) blocks) as [j|] eqn:E; simplify_eq/=.
  - by eapply IH.
  - case_bool_decide; by simplify_eq/=.
Qed.

Lemma revalidate_spec w tick p r w' tick' :
  watcher_ok w -> stream_ok w (Some p) -> revalidate_last_block w tick = (r, w', tick') ->
  bw_config w' = bw_config w /\ watcher_ok w' /\ stream_ok w' (Some p) /\
  forall number hash, r = Ok (Some (number, hash)) -> queue w' = [BlockUpdate.Uncle number] /\ number < p.
Proof.
  intros Hok Hs H. unfold revalidate_last_block in H.
  assert (bw_config w = bw_config w /\ watcher_ok w /\ stream_ok w (Some p)) as Hsame by done.
  destruct (next_number w) as [nn|] eqn:En; [|simplify_eq; by split_and!].
  destruct (rposition nn (recent w) ≫= _) as [[i b]|] eqn:Er; [|simplify_eq; by split_and!].
  apply bind_Some in Er as (j & Hj & Er). apply fmap_Some in Er as (b' & Hi & [= -> <-]).
  destruct (get_block tick _) as [[cur|e] t]; [|simplify_eq; by split_and!].
  case_decide; [simplify_eq; by split_and!|]. simplify_eq.
  pose proof (linked_lookup _ _ _ _ _ (ok_linked w Hok) Hi) as Hn.
  assert (bh_number b < p) as Hlt.
  { unfold next_number in En. destruct (queue w) as [|u q] eqn:Hq; [|destruct u as [| |n h ts bl]]; simplify_eq/=.
    - apply stream_ok_empty in Hs as [Hs|[? _]]; [|done|done]. injection Hs as ->.
      rewrite (ok_pending w Hok). apply lookup_lt_Some in Hi. lia.
    - pose proof (rposition_spec _ _ _ _ Hj Hi n eq_refl).
      destruct Hs as [Hs|(? & _)]; [|done]. rewrite Hq in Hs. cbn [follow advance] in Hs.
      case_decide as Hp; [|done]. destruct Hp as [?|[= ->]]; [done|lia]. }
  pose proof (uncle_spec w (Some p) _ _ p (wrap_u64 (bh_timestamp b * 1000)) [] Hok Hi eq_refl Hlt eq_refl)
    as (Hc & Hok' & Hroom & pos' & Ha & Hs').
  simpl in *. rewrite decide_True in Ha by done. simplify_eq.
  destruct Hok'. split_and!; [done|split; [done|by apply Forall_singleton|done..]| |intros ? ? [= <- <-]; done].
  left. simpl. by rewrite decide_True.
Qed.

(** ** Watching the chain

    A watcher and the updates it emitted so far; every request may be answered
    as at any tick, and any amount of fuel may be used. *)
Inductive watching (config : BlocksConfig) (indexed : option BlockStatus)
    : BlockWatcher -> list BlockUpdate.t -> Prop :=
| Watching_new fuel tick w tick' :
    new_watcher fuel config indexed tick = Some (Ok w, tick') ->
    watching config indexed w []
| Watching_ready w us :
    watching config indexed w us -> watching config indexed (ready w).2 (us ++ (ready w).1)
| Watching_next fuel tick w us u w' tick' :
    watching config indexed w us -> next_update fuel w tick = Some (Ok u, w', tick') ->
    watching config indexed w' (us ++ [u])
| Watching_error fuel tick w us e w' tick' :
    watching config indexed w us -> next_update fuel w tick = Some (Err e, w', tick') ->
    watching config indexed w' us
| Watching_revalidate tick w us r w' tick' :
    watching config indexed w us -> us ≠ [] -> revalidate_last_block w tick = (r, w', tick') ->
    watching config indexed w' us.

Lemma follow_nonempty pos us p : follow pos us = Some p -> us ≠ [] -> exists n, p = Some n.
Proof.
  revert pos. induction us as [|u us IH]; intros pos H Hne; [done|]. cbn [follow] in H.
  apply bind_Some in H as (p' & Ha & H). destruct us as [|v us]; [|by apply (IH p')].
  injection H as ->. by apply advance_Some in Ha.
Qed.

Lemma new_watcher_ok fuel config indexed tick w tick' :
  0 <= max_reorg_depth config ->
  (forall tick b, node_block tick LatestBlock = Ok (Some b) -> resumable config indexed (bh_number b)) ->
  new_watcher fuel config indexed tick = Some (Ok w, tick') ->
  watcher_ok w /\ stream_ok w (resume_position indexed).
Proof.
  intros Hd Hr H. unfold new_watcher in H. destruct (timings config chain_id) as [t|]; [|done].
  destruct (require_block tick LatestBlock) as [[head|e] tick0] eqn:Hreq.
  - pose proof (require_block_spec _ _ _ _ Hreq) as (_ & Hb & _).
    eapply initialize_spec in H; [|done|done|done|done|by eapply Hr]. tauto.
  - unfold initialize in H. by rewrite Hreq in H.
Qed.

Lemma watching_ok config indexed w us :
  0 <= max_reorg_depth config ->
  (forall tick b, node_block tick LatestBlock = Ok (Some b) -> resumable config indexed (bh_number b)) ->
  watching config indexed w us ->
  watcher_ok w /\ exists pos, follow (resume_position indexed) us = Some pos /\ stream_ok w pos.
Proof.
  intros Hd Hr. induction 1 as [fuel tick w tick' H|w us _ IH|fuel tick w us u w' tick' _ IH H
    |fuel tick w us e w' tick' _ IH H|tick w us r w' tick' _ IH Hne H].
  - apply new_watcher_ok in H as [Hok Hs]; [|done|done]. split; [done|]. by eexists.
  - destruct IH as ([] & pos & Hf & Hs). split; [by split|]. simpl.
    rewrite follow_app, Hf. cbn [mbind option_bind]. destruct Hs as [Hs|(-> & Hq & Hrec)].
    + eexists; split; [done|]. by left.
    + exists None. rewrite Hq. split; [done|]. by right.
  - destruct IH as (Hok & pos & Hf & Hs).
    pose proof (next_update_spec _ _ _ _ _ _ _ Hok Hs H) as (_ & Hok' & _ & pos' & Ha & Hs').
    split; [done|]. exists pos'. rewrite follow_app, Hf. cbn. by rewrite Ha.
  - destruct IH as (Hok & pos & Hf & Hs).
    pose proof (next_update_spec _ _ _ _ _ _ _ Hok Hs H) as (_ & Hok' & Hs').
    split; [done|]. by exists pos.
  - destruct IH as (Hok & pos & Hf & Hs).
    destruct (follow_nonempty _ _ _ Hf Hne) as [p ->].
    pose proof (revalidate_spec _ _ _ _ _ _ Hok Hs H) as (_ & Hok' & Hs' & _).
    split; [done|]. by exists (Some p).
Qed.

(** ** Termination *)

(** From tick [t0] on, the node serves the chain [chain] up to [head]. *)
Definition settled (t0 : nat) (head : Z) (chain : Z -> BlockHeader) : Prop :=
  (forall t n, (t0 <= t)%nat -> 0 <= n <= head -> node_block t (BlockNumber n) = Ok (Some (chain n))) /\
  (forall n, 0 < n <= head -> bh_parent_hash (chain n) = bh_hash (chain (n - 1))).

Lemma require_settled t0 head chain t n :
  settled t0 head chain -> (t0 <= t)%nat -> 0 <= n <= head ->
  require_block t (BlockNumber n) = (Ok (chain n), S t).
Proof. intros [Hs _] Ht Hn. unfold require_block, get_block. by rewrite Hs. Qed.

(** A scan of a settled chain goes on to the end. *)
Lemma scan_settled t0 latest chain safe blocks number parent tick :
  settled t0 latest chain -> (t0 <= tick)%nat -> 0 <= number <= latest + 1 ->
  parent = None \/ (0 < number /\ parent = Some (bh_hash (chain (number - 1)))) ->
  is_Some (scan (S (Z.to_nat (latest + 1 - number))) safe latest number parent None blocks tick).
Proof.
  intros Hs. remember (Z.to_nat (latest + 1 - number)) as n eqn:En.
  revert number parent blocks tick En. induction n as [|n IH]; intros number parent blocks tick En Ht Hn Hp.
  - cbn [scan]. rewrite decide_False by lia. done.
  - cbn [scan]. rewrite decide_True by lia.
    assert ((if decide (number = latest) then (@None BlockHeader, @None BlockHeader) else (None, None))
      = (None, None)) as -> by by case_decide.
    erewrite require_settled by (done || lia).
    rewrite decide_True.
    { apply IH; [lia|lia|lia|right]. split; [lia|]. by replace (number + 1 - 1) with number by lia. }
    destruct Hp as [?|[? ->]]; [by left|right]. destruct Hs as [_ Hs]. rewrite Hs by lia. done.
Qed.

Lemma scan_mono fuel fuel' safe latest number parent cached blocks tick r :
  (fuel <= fuel')%nat -> scan fuel safe latest number parent cached blocks tick = Some r ->
  scan fuel' safe latest number parent cached blocks tick = Some r.
Proof.
  revert fuel' number parent cached blocks tick.
  induction fuel as [|fuel IH]; intros fuel' number parent cached blocks tick Hle H; [done|].
  destruct fuel' as [|fuel']; [lia|]. cbn [scan] in *. case_decide; [|done].
  match goal with |- (let '(_, _) := ?c in _) = _ => destruct c as [cb cl] end.
  match goal with |- (let '(_, _) := ?c in _) = _ => destruct c as [[block|e] t] end; [|done].
  case_decide; (apply IH; [lia|done]).
Qed.

(** A step of the scan that queries the node. *)
Lemma scan_step t0 latest chain safe number parent cached blocks tick :
  settled t0 latest chain -> 0 <= safe <= number -> number <= latest ->
  (if decide (number = latest) then (cached, None) else (None, cached)) = (None, cached) ->
  (forall parent blocks,
     exists fuel, is_Some (scan fuel safe latest (number + 1) parent cached blocks (S tick))) ->
  ((tick < t0)%nat -> exists fuel, is_Some (scan fuel safe latest safe None None [] (S tick))) ->
  exists fuel, is_Some (scan fuel safe latest number parent cached blocks tick).
Proof.
  intros Hset Hsafe Hle Hc Hnext Hrestart.
  assert (forall fuel, scan (S fuel) safe latest number parent cached blocks tick =
    let '(block, tick) := require_block tick (BlockNumber number) in
    match block with
    | Err e => Some (Err e, tick)
    | Ok block =>
        if decide (parent = None \/ parent = Some (bh_parent_hash block)) then
          scan fuel safe latest (number + 1) (Some (bh_hash block)) cached (blocks ++ [block]) tick
        else scan fuel safe latest safe None None [] tick
    end) as Hscan.
  { intros fuel. cbn [scan]. rewrite (decide_True (P := number <= latest)) by done. by rewrite Hc. }
  destruct (require_block tick (BlockNumber number)) as [[b|e] t] eqn:Hreq.
  2:{ exists 1%nat. by rewrite Hscan. }
  pose proof (require_block_spec _ _ _ _ Hreq) as (-> & _ & _). case_decide.
  - destruct (Hnext (Some (bh_hash b)) (blocks ++ [b])) as [f Hf]. exists (S f). by rewrite Hscan.
  - destruct (decide (tick < t0)%nat) as [Ht|Ht].
    + destruct (Hrestart Ht) as [f Hf]. exists (S f). by rewrite Hscan.
    + exists (S (S (Z.to_nat (latest + 1 - safe)))). rewrite Hscan.
      apply (scan_settled t0 latest chain); [done|lia|lia|by left].
Qed.

(** What a scan has left: a step before the chain settles may start it over, and
    so may the cached latest block, once. *)
Definition scan_measure (t0 tick : nat) (safe latest number : Z) (cached : option BlockHeader) : nat :=
  let m := Z.to_nat (latest + 2 - safe) in
  (2 * (t0 - tick) * m + (if cached then m else 0) + Z.to_nat (latest + 1 - number))%nat.

(** Whatever happens before the chain settles, the scan returns. *)
Lemma scan_returns t0 latest chain safe number parent cached blocks tick :
  settled t0 latest chain -> 0 <= safe <= latest -> safe <= number <= latest + 1 ->
  exists fuel, is_Some (scan fuel safe latest number parent cached blocks tick).
Proof.
  intros Hset Hsafe. remember (scan_measure t0 tick safe latest number cached) as k eqn:Ek.
  revert number parent cached blocks tick Ek. induction (lt_wf k) as [k _ IH].
  intros number parent cached blocks tick Ek Hn.
  destruct (decide (number <= latest)) as [Hle|Hgt].
  2:{ exists 1%nat. simpl. by rewrite decide_False by lia. }
  assert (forall number parent cached' blocks tick',
    (scan_measure t0 tick' safe latest number cached' < k)%nat -> safe <= number <= latest + 1 ->
    exists fuel, is_Some (scan fuel safe latest number parent cached' blocks tick')) as Hnext by eauto.
  clear IH. unfold scan_measure in *. set (m := Z.to_nat (latest + 2 - safe)) in *.
  destruct (decide (number = latest)) as [He|Hne]; [destruct cached as [b|]|].
  - assert (exists fuel, is_Some (scan fuel safe latest (number + 1) (Some (bh_hash b)) None (blocks ++ [b]) tick))
      as [f1 H1] by (apply Hnext; lia).
    assert (exists fuel, is_Some (scan fuel safe latest safe None None [] tick))
      as [f2 H2] by (apply Hnext; lia).
    exists (S (f1 + f2)). cbn [scan]. rewrite (decide_True (P := number <= latest)) by done.
    rewrite (decide_True (P := number = latest)) by done.
    case_decide; [destruct H1 as [r H1]|destruct H2 as [r H2]]; exists r;
      (eapply scan_mono; [|done]; lia).
  - apply (scan_step t0 latest chain); [done|lia|done|by case_decide| |].
    + intros. apply Hnext; [nia|lia].
    + intros. apply Hnext; [nia|lia].
  - apply (scan_step t0 latest chain); [done|lia|done|by rewrite decide_False| |].
    + intros. apply Hnext; [nia|lia].
    + intros. apply Hnext; [destruct cached; nia|lia].
Qed.

(** A watcher is created, or fails with an error: the scan returns, and the
    [expect] on its blocks never fires. *)
Lemma initialize_returns t0 latest chain w indexed tick tick0 :
  require_block tick LatestBlock = (Ok latest, tick0) -> settled t0 (bh_number latest) chain ->
  0 <= max_reorg_depth (bw_config w) -> recent w = [] ->
  exists fuel, is_Some (initialize fuel w indexed tick).
Proof.
  intros Hreq Hset Hd Hrec.
  pose proof (require_block_spec _ _ _ _ Hreq) as (_ & _ & Hh). pose proof Hh as [Hw _].
  set (safe := sat_sub (bh_number latest) (max_reorg_depth (bw_config w))).
  assert (0 <= safe <= bh_number latest) as Hsafe by (subst safe; unfold sat_sub; lia).
  destruct (scan_returns t0 (bh_number latest) chain safe safe None (Some latest) [] tick0 Hset Hsafe)
    as [fuel [[scanned tick'] Hs]]; [lia|].
  exists fuel. unfold initialize. rewrite Hreq.
  cbn [with_pending with_queue bw_config recent]. fold safe. rewrite Hrec, Hs. cbn [mbind option_bind].
  destruct scanned as [[|s blocks]|e]; [|done|done].
  apply scan_spec in Hs as [(parent & Hsc & _) _]; [|done|lia|by intros ? [= <-]|constructor]. lia.
Qed.

(** The polling loop returns once the pending block is served. *)
Lemma await_returns t0 fuel w retry tick :
  (forall t, (t0 <= t)%nat ->
     exists b, node_block t (BlockNumber (pending_number (bw_pending w))) = Ok (Some b)) ->
  (t0 - tick < fuel)%nat -> is_Some (await fuel w retry tick).
Proof.
  revert w retry tick. induction fuel as [|fuel IH]; intros w retry tick Ht Hf; [lia|].
  cbn [await]. destruct (get_block tick _) as [[[b|]|e] t] eqn:Hg; [done| |done].
  unfold get_block in Hg. injection Hg as Hg <-.
  assert (tick < t0)%nat as Hlt.
  { destruct (decide (tick < t0)%nat); [done|]. destruct (Ht tick) as [b Hb]; [lia|].
    by rewrite Hb in Hg. }
  destruct (block_retry_delays _ !! _); apply IH; (done || lia).
Qed.

Lemma next_update_returns t0 w tick :
  (forall t, (t0 <= t)%nat ->
     exists b, node_block t (BlockNumber (pending_number (bw_pending w))) = Ok (Some b)) ->
  is_Some (next_update (S (t0 - tick)) w tick).
Proof.
  intros Ht. unfold next_update. destruct (queue w); [|done].
  destruct (await_returns t0 (S (t0 - tick)) w 0 tick Ht ltac:(lia)) as [[[r w'] t'] ->].
  cbn [mbind option_bind]. destruct r as [b|]; [|done]. by destruct (accept_block w' b).
Qed.

End Blocks.
