(* ===== verification/Events.v ===== *)
(** The event watcher, [crates/core/src/index/events.rs] and [bloom.rs]: for each
    block update it fetches the watched logs, page by page over a warp or block
    by block, decodes them and sorts them. *)

From S2P Require Import Prelude Messages StateMachine Node.

(** The trait [Events]: the first topics of a set of events, and their decoder. *)
Class Events (E : Type) := {
  topics : list Z;
  decode_log : list Z -> bytes -> option E
}.

(** The macro [watcher_events!]: an enum of generated sets of events, each with its
    selectors and its decoder. *)
Class SolEventInterface (E : Type) := {
  SELECTORS : list Z;
  decode_raw_log : list Z -> bytes -> option E
}.
(** A log is decoded by its first topic. *)
Class SolEventLaws (E : Type) `{SolEventInterface E} : Prop := {
  decoded_selected topics data e : decode_raw_log topics data = Some e -> exists t, head topics = Some t /\ t ∈ SELECTORS
}.

Record EventSet := MkEventSet { set_events : Type; set_interface : SolEventInterface set_events }.

(** The enum, with a constructor per set; one set alone is its own enum. *)
Fixpoint WatcherEvents (sets : list EventSet) : Type :=
  match sets with [] => Empty_set | s :: sets => set_events s + WatcherEvents sets end.
Fixpoint watcher_topics (sets : list EventSet) : list Z :=
  match sets with [] => [] | s :: sets => SELECTORS (SolEventInterface := set_interface s) ++ watcher_topics sets end.
Fixpoint watcher_decode (sets : list EventSet) (topics : list Z) (data : bytes) : option (WatcherEvents sets) :=
  match sets with
  | [] => None
  | s :: sets =>
      match decode_raw_log (SolEventInterface := set_interface s) topics data with
      | Some event => Some (inl event)
      | None => inr <$> watcher_decode sets topics data
      end
  end.
Definition watcher_events (sets : list EventSet) : Events (WatcherEvents sets) :=
  {| topics := watcher_topics sets; decode_log := watcher_decode sets |}.
Definition watcher_events_of {E} `{SolEventInterface E} : Events E :=
  {| topics := SELECTORS; decode_log := decode_raw_log |}.

(** Only watched topics are decoded, as [Events::topics] promises, and a log that
    some set decodes is decoded. *)
Lemma watcher_events_spec (sets : list EventSet) ts data :
  Forall (fun s => SolEventLaws (set_events s) (H := set_interface s)) sets ->
  (forall e, decode_log (Events := watcher_events sets) ts data = Some e ->
    exists t, head ts = Some t /\ t ∈ topics (Events := watcher_events sets)) /\
  (is_Some (decode_log (Events := watcher_events sets) ts data) <->
    exists s, s ∈ sets /\ is_Some (decode_raw_log (SolEventInterface := set_interface s) ts data)).
Proof.
  cbn. induction 1 as [|s sets Hs _ [IH1 IH2]]; cbn [watcher_decode watcher_topics].
  { split; [done|]. split; [by intros [? ?]|]. by intros (s & ?%not_elem_of_nil & _). }
  destruct (decode_raw_log ts data) as [e|] eqn:E.
  - split; [|split; [|done]].
    + intros _ _. destruct (decoded_selected _ _ _ E) as (t & Ht & Hin). exists t. split; [done|]. set_solver.
    + intros _. exists s. rewrite E. split; [by left|done].
  - split.
    + intros e (e' & He & _)%fmap_Some. destruct (IH1 _ He) as (t & Ht & Hin). exists t. split; [done|]. set_solver.
    + rewrite fmap_is_Some, IH2. split; intros (s' & Hin & Hs').
      * exists s'. split; [by right|done].
      * apply elem_of_cons in Hin as [->|Hin]; [|by exists s']. rewrite E in Hs'. by destruct Hs'.
Qed.

(** [events::Config]; the page size and the retry count are not zero. *)
Record EventsConfig := MkEventsConfig {
  block_page_size : Z;
  block_single_query_retry_count : Z;
  use_client_filtering : bool;
  max_logs_per_query : option Z;
  fallible_events : gset Z
}.

(** How to fetch the logs of some blocks. *)
Inductive Fetch :=
| SingleQuery (blocks : BlockFilter)
| MultipleQueries (blocks : BlockFilter)
| ClientFiltered (block_hash logs_bloom : Z).

Record FetchedPage := MkFetchedPage {
  page_to_block : Z;
  page_logs : list Log;
  page_timestamps : gmap Z Z
}.

(** [events::Step]. *)
Inductive Step :=
| Idle
| Warping (from_block to_block page_size : Z) (fetched : option FetchedPage)
| Block (block_number block_hash block_timestamp logs_bloom retries : Z).

Section Events.
Context {NODE : Node} {E : Type} {EV : Events E}.

(** [events::Error]. *)
Inductive EventsError :=
| EventsRpc (e : RpcError)
| DecodeLog (block_hash log_index : Z)
| TooManyLogs
| IncompleteLogs (block_hash : Z)
| MissingEventBlock (block_number : Z)
| UnexpectedBlockUpdate
| UnexpectedBlockInvalidation.

Record EventWatcher := MkEventWatcher {
  ew_config : EventsConfig;
  ew_addresses : list Z;
  ew_topics : list Z;
  step : Step;
  warned_missing_timestamps : bool
}.

Definition with_step (w : EventWatcher) (s : Step) : EventWatcher :=
  MkEventWatcher (ew_config w) (ew_addresses w) (ew_topics w) s (warned_missing_timestamps w).
Definition with_warned (w : EventWatcher) (b : bool) : EventWatcher :=
  MkEventWatcher (ew_config w) (ew_addresses w) (ew_topics w) (step w) b.

Definition new_event_watcher (config : EventsConfig) (addresses : list Z) : EventWatcher :=
  MkEventWatcher config addresses topics Idle false.

Definition on_block_update (w : EventWatcher) (update : BlockUpdate.t)
    : result EventsError EventWatcher :=
  match step w with
  | Idle =>
      Ok (with_step w
        match update with
        | BlockUpdate.Warp from to => Warping from to (block_page_size (ew_config w)) None
        | BlockUpdate.Uncle _ => Idle
        | BlockUpdate.New number hash timestamp logs_bloom => Block number hash timestamp logs_bloom 0
        end)
  | _ => Err UnexpectedBlockUpdate
  end.

Definition on_block_invalidated (w : EventWatcher) (block_hash : Z)
    : result EventsError EventWatcher :=
  match step w with
  | Block _ current _ _ _ =>
      if decide (current = block_hash) then Ok (with_step w Idle)
      else Err UnexpectedBlockInvalidation
  | _ => Err UnexpectedBlockInvalidation
  end.

(** ** Fetching *)

Definition check_logs_limit (config : EventsConfig) (logs : list Log)
    : result EventsError (list Log) :=
  match max_logs_per_query config with
  | Some max => if decide (max <= Z.of_nat (length logs)) then Err TooManyLogs else Ok logs
  | None => Ok logs
  end.

Definition get_logs (tick : nat) (filter : Filter) : result EventsError (list Log) :=
  map_err EventsRpc (node_logs tick filter).

(** [bloom::compute_logs_bloom]. *)
Definition compute_logs_bloom (logs : list Log) : Z := logs_bloom logs.

(** [bloom::may_contain_log]. *)
Definition may_contain_log (bloom : Z) (addresses topics : list Z) : bool :=
  existsb (fun address => bloom_contains bloom (be_bytes 20 address)) addresses &&
  existsb (fun topic => bloom_contains bloom (be_bytes 32 topic)) topics.

(** One of the queries of [Fetch::MultipleQueries]; a failure for a non-critical
    event drops its logs. *)
Definition topic_query (w : EventWatcher) (blocks : BlockFilter) (tick : nat) (topic : Z)
    : result EventsError (list Log) :=
  let result :=
    logs ← get_logs tick (MkFilter blocks (Some (ew_addresses w)) (Some [topic]));
    check_logs_limit (ew_config w) logs in
  match result with
  | Err _ => if decide (topic ∈ fallible_events (ew_config w)) then Ok [] else result
  | Ok _ => result
  end.

(** The errors among some results, in order. *)
Fixpoint errors {X A} (results : list (result X A)) : list X :=
  match results with
  | [] => []
  | Err e :: results => e :: errors results
  | Ok _ :: results => errors results
  end.

(** [try_join_all] of requests issued from [tick] on: the first to fail is any of
    those that do. *)
Definition try_join_all {X A} (tick : nat) (results : list (result X A)) : result X (list A) :=
  match errors results with
  | [] => collect_results results
  | e :: es => Err (nth (race tick mod S (length es)) (e :: es) e)
  end.

Definition single_query (w : EventWatcher) (blocks : BlockFilter) (tick : nat)
    : result EventsError (list Log) :=
  logs ← get_logs tick (MkFilter blocks (Some (ew_addresses w)) (Some (ew_topics w)));
  check_logs_limit (ew_config w) logs.

Definition multiple_queries (w : EventWatcher) (blocks : BlockFilter) (tick : nat)
    : result EventsError (list Log) :=
  logs ← try_join_all tick
    (imap (fun i topic => topic_query w blocks (tick + i) topic) (ew_topics w));
  Ok (concat logs).

(** Whether the client keeps a log. *)
Definition is_watched (w : EventWatcher) (log : Log) : bool :=
  bool_decide (l_address log ∈ ew_addresses w) &&
  match head (l_topics log) with
  | Some topic => bool_decide (topic ∈ ew_topics w)
  | None => false
  end.

(** No false negatives: a block whose bloom filter is not promising holds no watched log. *)
Lemma bloom_keeps_watched `{!BloomLaws} (w : EventWatcher) (logs : list Log) :
  may_contain_log (compute_logs_bloom logs) (ew_addresses w) (ew_topics w) = false ->
  filter (fun log => is_watched w log = true) logs = [].
Proof.
  intros Hb. apply elem_of_nil_inv. intros l [Hw Hl]%list_elem_of_filter. unfold is_watched in Hw.
  apply andb_true_iff in Hw as [Ha%bool_decide_eq_true Ht]. destruct (head (l_topics l)) as [topic|] eqn:Eh; [|done].
  apply bool_decide_eq_true in Ht. apply head_Some_elem_of in Eh.
  assert (may_contain_log (compute_logs_bloom logs) (ew_addresses w) (ew_topics w) = true); [|congruence].
  apply andb_true_iff. split; apply existsb_exists; eexists; rewrite <- list_elem_of_In.
  - split; [exact Ha|]. by apply bloom_address.
  - split; [exact Ht|]. by eapply bloom_topic.
Qed.

Definition client_filtered (w : EventWatcher) (block_hash bloom : Z) (tick : nat)
    : result EventsError (list Log) :=
  logs ← get_logs tick (MkFilter (HashFilter block_hash) None None);
  if decide (compute_logs_bloom logs ≠ bloom) then Err (IncompleteLogs block_hash)
  else Ok (filter (fun log => is_watched w log = true) logs).

(** [fetch_logs], before it warns: the raw logs, in no particular order. *)
Definition fetch_raw (w : EventWatcher) (fetch : Fetch) (tick : nat)
    : result EventsError (list Log) * nat :=
  match fetch with
  | SingleQuery blocks => (single_query w blocks tick, S tick)
  | MultipleQueries blocks => (multiple_queries w blocks tick, (tick + length (ew_topics w))%nat)
  | ClientFiltered block_hash bloom => (client_filtered w block_hash bloom tick, S tick)
  end.

Definition fetch_logs (w : EventWatcher) (fetch : Fetch) (tick : nat)
    : result EventsError (list Log) * EventWatcher * nat :=
  let '(logs, tick) := fetch_raw w fetch tick in
  match logs with
  | Err _ => (logs, w, tick)
  | Ok logs =>
      let missing := existsb (fun log => if l_block_timestamp log then false else true) logs in
      (Ok logs, if negb (warned_missing_timestamps w) && missing then with_warned w true else w, tick)
  end.

(** The header request of one block; all are issued together. *)
Definition block_timestamp_query (tick : nat) (number : Z) : result EventsError (Z * Z) :=
  block ← map_err EventsRpc (node_block tick (BlockNumber number));
  block ← ok_or block (MissingEventBlock number);
  Ok (number, bh_timestamp block).

(** Keeps every timestamp fetched, and the first error. *)
Definition collect_timestamps (timestamps : gmap Z Z) (results : list (result EventsError (Z * Z)))
    : result EventsError unit * gmap Z Z :=
  foldl (fun '(err, timestamps) result =>
    match result with
    | Ok (number, timestamp) => (err, <[number := timestamp]> timestamps)
    | Err e => (match err with Ok _ => Err e | Err _ => err end, timestamps)
    end) (Ok (), timestamps) results.

Definition fetch_missing_block_timestamps (logs : list Log) (timestamps : gmap Z Z) (tick : nat)
    : result EventsError unit * gmap Z Z * nat :=
  let missing :=
    omap (fun log =>
      match l_block_timestamp log, l_block_number log with
      | None, Some number => if decide (is_Some (timestamps !! number)) then None else Some number
      | _, _ => None
      end) logs in
  let numbers := sorted_elements (list_to_set missing) in
  let results := imap (fun i number => block_timestamp_query (tick + i) number) numbers in
  (collect_timestamps timestamps results, (tick + length numbers)%nat).

(** ** Decoding *)

(** The sort key, [(block number, log index)], in order. *)
Definition log_le (a b : EventLog E) : Prop :=
  block_number (log_block a) < block_number (log_block b) \/
  (block_number (log_block a) = block_number (log_block b) /\ log_index a <= log_index b).

#[export] Instance log_le_dec : RelDecision log_le.
Proof. intros a b. unfold log_le. apply _. Defined.

Definition decode_event (timestamps : gmap Z Z) (log : Log) : option (EventLog E) :=
  data ← decode_log (l_topics log) (l_data log);
  number ← l_block_number log;
  timestamp ← match l_block_timestamp log with
              | Some timestamp => Some timestamp
              | None => timestamps !! number
              end;
  index ← l_log_index log;
  Some (MkEventLog (MkEventBlock number timestamp) index (l_address log) data).

(** [decode_and_sort]; the unstable sort of equal keys is the stable one. *)
Definition decode_and_sort (logs : list Log) (timestamps : gmap Z Z)
    : result EventsError (list (EventLog E)) :=
  merge_sort log_le <$> collect_results ((fun log =>
    ok_or (decode_event timestamps log)
      (DecodeLog (default (2 ^ 256 - 1) (l_block_hash log)) (default u64_max (l_log_index log)))) <$> logs).

(** ** The steps *)

(** [narrowed_warp]. *)
Definition narrowed_warp (from_block to_block page_size : Z) : Step :=
  Warping from_block to_block (div_ceil page_size 2) None.

(** The page a warp fetches next. *)
Definition warp_page (w : EventWatcher) (from_block to_block page_size : Z) (tick : nat)
    : result EventsError FetchedPage * EventWatcher * nat :=
  let query_to_block := Z.min to_block (sat_add from_block (page_size - 1)) in
  let blocks := RangeFilter from_block query_to_block in
  let fetch := if decide (1 < page_size) then SingleQuery blocks else MultipleQueries blocks in
  let '(logs, w, tick) := fetch_logs w fetch tick in
  match logs with
  | Ok logs => (Ok (MkFetchedPage query_to_block logs ∅), w, tick)
  | Err e => (Err e, with_step w (narrowed_warp from_block to_block page_size), tick)
  end.

(** [warp]. *)
Definition warp (w : EventWatcher) (from_block to_block page_size : Z)
    (fetched : option FetchedPage) (tick : nat)
    : result EventsError (EventUpdate E) * EventWatcher * nat :=
  let '(page, w, tick) :=
    match fetched with
    | Some page => (Ok page, w, tick)
    | None => warp_page w from_block to_block page_size tick
    end in
  match page with
  | Err e => (Err e, w, tick)
  | Ok page =>
      let '(fetched, timestamps, tick) :=
        fetch_missing_block_timestamps (page_logs page) (page_timestamps page) tick in
      let page := MkFetchedPage (page_to_block page) (page_logs page) timestamps in
      match fetched with
      | Err e => (Err e, with_step w (Warping from_block to_block page_size (Some page)), tick)
      | Ok _ =>
          match decode_and_sort (page_logs page) timestamps with
          | Ok logs =>
              let step :=
                if decide (page_to_block page = to_block) then Idle
                else Warping (page_to_block page + 1) to_block (block_page_size (ew_config w)) None in
              (Ok (MkEventUpdate from_block (page_to_block page) logs), with_step w step, tick)
          | Err e => (Err e, with_step w (narrowed_warp from_block to_block page_size), tick)
          end
      end
  end.

(** [block]. *)
Definition fetch_block (w : EventWatcher) (number hash timestamp bloom retries : Z) (tick : nat)
    : result EventsError (EventUpdate E) * EventWatcher * nat :=
  let fetch :=
    if decide (retries < block_single_query_retry_count (ew_config w)) then
      if use_client_filtering (ew_config w) then ClientFiltered hash bloom
      else SingleQuery (HashFilter hash)
    else MultipleQueries (HashFilter hash) in
  let '(logs, w, tick) := fetch_logs w fetch tick in
  match logs ≫= fun logs => decode_and_sort logs {[number := timestamp]} with
  | Ok logs => (Ok (MkEventUpdate number number logs), with_step w Idle, tick)
  | Err e =>
      (Err e, with_step w (Block number hash timestamp bloom (wrap_u64 (retries + 1))), tick)
  end.

(** [EventWatcher::next]. *)
Definition next_events (w : EventWatcher) (tick : nat)
    : result EventsError (option (EventUpdate E)) * EventWatcher * nat :=
  match step w with
  | Idle => (Ok None, w, tick)
  | Warping from_block to_block page_size fetched =>
      let '(update, w, tick) := warp w from_block to_block page_size fetched tick in
      (Some <$> update, w, tick)
  | Block number hash timestamp bloom retries =>
      let '(update, w, tick) := fetch_block w number hash timestamp bloom retries tick in
      (Some <$> update, w, tick)
  end.

(** ** What is fetched *)

Context {LAWS : LogLaws}.

Definition position (log : Log) : option Z * option Z := (l_block_number log, l_log_index log).

Definition in_blocks (blocks : BlockFilter) (log : Log) : Prop :=
  exists n, l_block_number log = Some n /\
    match blocks with
    | HashFilter hash => n = hash_number hash
    | RangeFilter from to => from <= n <= to
    end.

(** Logs of some blocks that the watcher watches, each position once. *)
Record fetched_ok (w : EventWatcher) (blocks : BlockFilter) (logs : list Log) : Prop := {
  fetched_blocks : Forall (in_blocks blocks) logs;
  fetched_watched : Forall (fun log => is_watched w log = true) logs;
  fetched_NoDup : NoDup (position <$> logs)
}.

Definition fetch_scope (fetch : Fetch) : BlockFilter :=
  match fetch with
  | SingleQuery blocks | MultipleQueries blocks => blocks
  | ClientFiltered hash _ => HashFilter hash
  end.

Lemma get_logs_Ok tick f logs : get_logs tick f = Ok logs <-> node_logs tick f = Ok logs.
Proof. apply map_err_Ok. Qed.

Lemma check_logs_limit_Ok config logs logs' : check_logs_limit config logs = Ok logs' -> logs' = logs.
Proof. unfold check_logs_limit. intros. repeat case_match; by simplify_eq. Qed.

Lemma queried_blocks t f logs : node_logs t f = Ok logs -> Forall (in_blocks (f_blocks f)) logs.
Proof. intros H. apply Forall_forall. intros l Hl. by eapply logs_block. Qed.

Lemma is_watched_true w log :
  is_watched w log = true <->
  l_address log ∈ ew_addresses w /\ exists topic, head (l_topics log) = Some topic /\ topic ∈ ew_topics w.
Proof.
  unfold is_watched. rewrite andb_true_iff, bool_decide_eq_true. destruct (head _) as [t|].
  - rewrite bool_decide_eq_true. naive_solver.
  - naive_solver.
Qed.

Lemma queried_watched w t blocks tps logs :
  node_logs t (MkFilter blocks (Some (ew_addresses w)) (Some tps)) = Ok logs -> tps ⊆ ew_topics w ->
  Forall (fun log => is_watched w log = true) logs.
Proof.
  intros H Ht. apply Forall_forall. intros l Hl. apply is_watched_true.
  destruct (logs_topic _ _ _ l _ H Hl eq_refl) as (tp & Htp & Hin).
  split; [by eapply (logs_address _ _ _ _ _ H)|]. exists tp. auto.
Qed.

Lemma single_query_ok w blocks tick logs :
  single_query w blocks tick = Ok logs -> fetched_ok w blocks logs.
Proof.
  unfold single_query. intros H. apply bind_Ok in H as (ls & Hls & H).
  apply get_logs_Ok in Hls. apply check_logs_limit_Ok in H as ->. split.
  - by apply queried_blocks in Hls.
  - by eapply queried_watched.
  - by eapply logs_NoDup.
Qed.

Lemma client_filtered_ok w hash bloom tick logs :
  client_filtered w hash bloom tick = Ok logs -> fetched_ok w (HashFilter hash) logs.
Proof.
  unfold client_filtered. intros H. apply bind_Ok in H as (ls & Hls & H). case_decide; [done|].
  injection H as <-. apply get_logs_Ok in Hls.
  pose proof (sublist_filter (fun log => is_watched w log = true) ls) as Hsub. split.
  - apply Forall_forall. intros l [_ Hl]%list_elem_of_filter. by eapply logs_block in Hls.
  - apply Forall_forall. by intros l [Hl _]%list_elem_of_filter.
  - apply logs_NoDup in Hls. eapply sublist_NoDup; [exact Hls|by apply fmap_sublist].
Qed.

Lemma topic_query_Ok w blocks tick topic logs :
  topic_query w blocks tick topic = Ok logs ->
  logs = [] \/ node_logs tick (MkFilter blocks (Some (ew_addresses w)) (Some [topic])) = Ok logs.
Proof.
  unfold topic_query. intros H.
  destruct (get_logs tick _ ≫= _) as [ls|e] eqn:Hq.
  - injection H as <-. apply bind_Ok in Hq as (ls' & Hls & Hc). apply get_logs_Ok in Hls.
    apply check_logs_limit_Ok in Hc as ->. by right.
  - case_decide; [|done]. injection H as <-. by left.
Qed.

Lemma try_join_all_Ok {X A} tick (results : list (result X A)) l :
  try_join_all tick results = Ok l -> collect_results results = Ok l.
Proof. unfold try_join_all. by destruct (errors results). Qed.

Lemma topic_queries_Ok w blocks tick tps lss :
  collect_results (imap (fun i topic => topic_query w blocks (tick + i) topic) tps) = Ok lss ->
  Forall2 (fun topic logs => exists t, topic_query w blocks t topic = Ok logs) tps lss.
Proof.
  revert tick lss. induction tps as [|tp tps IH]; intros tick lss H; simpl in H.
  { injection H as <-. constructor. }
  apply bind_Ok in H as (ls & Hls & H). apply bind_Ok in H as (lss' & Hlss & [= <-]).
  constructor; [by eexists|]. apply (IH (S tick)). rewrite <- Hlss. f_equal. apply imap_ext.
  intros i x _. simpl. f_equal. lia.
Qed.

Lemma topic_queries_ok w blocks tps lss :
  NoDup tps -> tps ⊆ ew_topics w ->
  Forall2 (fun topic logs => exists t, topic_query w blocks t topic = Ok logs) tps lss ->
  fetched_ok w blocks (concat lss).
Proof.
  intros Hnd Hsub H. induction H as [|tp ls tps lss [t Hq] H IH]; [by repeat constructor|].
  apply NoDup_cons in Hnd as [Htp Hnd]. destruct IH as [Hb Hw Hn]; [done|set_solver|].
  apply topic_query_Ok in Hq as [->|Hq]; [by split|]. simpl. split.
  - apply Forall_app. split; [|done]. by apply queried_blocks in Hq.
  - apply Forall_app. split; [|done]. eapply queried_watched; [done|set_solver].
  - rewrite fmap_app. apply NoDup_app. split; [by eapply logs_NoDup|]. split; [|done].
    intros pos Hpos Hpos'. apply list_elem_of_fmap in Hpos as (l & -> & Hl).
    apply list_elem_of_fmap in Hpos' as (l' & Heq & Hl'). injection Heq as Hn1 Hn2.
    destruct (logs_topic _ _ _ l _ Hq Hl eq_refl) as (tp1 & Htp1 & ->%list_elem_of_singleton).
    rewrite list_elem_of_In, in_concat in Hl'. destruct Hl' as (ls' & Hls' & Hl').
    rewrite <- !list_elem_of_In in *.
    apply list_elem_of_lookup in Hls' as [i Hi].
    destruct (Forall2_lookup_r _ _ _ _ _ H Hi) as (tp' & Hi' & t' & Hq').
    apply topic_query_Ok in Hq' as [->|Hq']; [by apply not_elem_of_nil in Hl'|].
    destruct (logs_topic _ _ _ l' _ Hq' Hl' eq_refl) as (tp2 & Htp2 & ->%list_elem_of_singleton).
    assert (l = l') as -> by (eapply (logs_final t t'); [|exact Hq|exact Hq'|..]; done).
    rewrite Htp1 in Htp2. injection Htp2 as ->. apply Htp. by eapply list_elem_of_lookup_2.
Qed.

Lemma fetch_raw_ok w fetch tick logs tick' :
  NoDup (ew_topics w) -> fetch_raw w fetch tick = (Ok logs, tick') ->
  fetched_ok w (fetch_scope fetch) logs.
Proof.
  intros Hnd H. destruct fetch as [blocks|blocks|hash bloom]; injection H as H _; simpl.
  - by eapply single_query_ok.
  - unfold multiple_queries in H. apply bind_Ok in H as (lss & Hlss & [= <-]).
    apply try_join_all_Ok, topic_queries_Ok in Hlss. by eapply topic_queries_ok.
  - by eapply client_filtered_ok.
Qed.

(** ** Decoding keeps positions, and sorting orders them *)

Definition event_position (log : EventLog E) : option Z * option Z :=
  (Some (block_number (log_block log)), Some (log_index log)).

Lemma decode_event_position timestamps log event :
  decode_event timestamps log = Some event -> event_position event = position log.
Proof.
  unfold decode_event. intros H.
  apply bind_Some in H as (d & _ & H). apply bind_Some in H as (n & Hn & H).
  apply bind_Some in H as (ts & _ & H). apply bind_Some in H as (i & Hi & [= <-]).
  unfold position. by rewrite Hn, Hi.
Qed.

Lemma decoded_positions timestamps (err : Log -> EventsError) raw events :
  collect_results ((fun log => ok_or (decode_event timestamps log) (err log)) <$> raw) = Ok events ->
  event_position <$> events = position <$> raw.
Proof.
  intros H. apply collect_results_Ok in H. revert events H.
  induction raw as [|l raw IH]; intros [|ev events] H; [done..|]. injection H as Hl H.
  apply ok_or_Ok, decode_event_position in Hl. simpl. rewrite Hl. f_equal. by apply IH.
Qed.

#[export] Instance log_le_total : Total log_le.
Proof. intros a b. unfold log_le. lia. Qed.
#[export] Instance log_le_trans : Transitive log_le.
Proof. intros a b c. unfold log_le. lia. Qed.

Lemma is_sorted_le (events : list (EventLog E)) :
  StronglySorted log_le events -> NoDup (event_position <$> events) -> is_sorted events = true.
Proof.
  induction 1 as [|a events Hs IH Hall]; intros Hnd; [done|].
  apply NoDup_cons in Hnd as [Ha Hnd]. destruct events as [|b events]; [done|].
  cbn [is_sorted]. apply andb_true_iff. split; [|by apply IH].
  apply Forall_cons in Hall as [Hab _]. apply orb_true_iff. rewrite !bool_decide_eq_true.
  destruct Hab as [?|[Hn Hi]]; [by left|right]. split; [done|].
  assert (log_index a ≠ log_index b); [|lia]. intros He. apply Ha.
  assert (event_position a = event_position b) as -> by (unfold event_position; by rewrite Hn, He).
  left.
Qed.

Lemma decode_and_sort_ok timestamps raw events :
  NoDup (position <$> raw) -> decode_and_sort raw timestamps = Ok events ->
  is_sorted events = true /\ event_position <$> events ≡ₚ position <$> raw.
Proof.
  intros Hnd H. unfold decode_and_sort in H. apply fmap_Ok in H as (evs & Hevs & ->).
  apply decoded_positions in Hevs.
  assert (event_position <$> merge_sort log_le evs ≡ₚ position <$> raw) as Hp.
  { rewrite <- Hevs. f_equiv. apply merge_sort_Permutation. }
  split; [|done]. apply is_sorted_le; [apply StronglySorted_merge_sort; apply _|]. by rewrite Hp.
Qed.

Lemma decoded_in_range raw (events : list (EventLog E)) blocks start last :
  event_position <$> events ≡ₚ position <$> raw -> Forall (in_blocks blocks) raw ->
  (forall n, match blocks with
             | HashFilter hash => n = hash_number hash
             | RangeFilter from to => from <= n <= to
             end -> start <= n <= last) ->
  forallb (in_range start last) events = true.
Proof.
  intros Hp Hb Hr. apply forallb_forall. intros ev Hev. apply list_elem_of_In in Hev.
  assert (event_position ev ∈ position <$> raw) as Hin
    by (rewrite <- Hp; by apply list_elem_of_fmap_2).
  apply list_elem_of_fmap in Hin as (l & Heq & Hl). injection Heq as Hn _.
  rewrite Forall_forall in Hb. destruct (Hb l Hl) as (n & Hln & Hn').
  rewrite Hln in Hn. injection Hn as Hn. apply bool_decide_eq_true. rewrite Hn. by apply Hr.
Qed.

(** ** The invariant of the watcher *)

Definition page_ok (w : EventWatcher) (from_block to_block : Z) (page : FetchedPage) : Prop :=
  from_block <= page_to_block page <= to_block /\
  fetched_ok w (RangeFilter from_block (page_to_block page)) (page_logs page).

Definition step_ok (w : EventWatcher) : Prop :=
  match step w with
  | Idle => True
  | Warping from to page_size fetched =>
      0 <= from <= to /\ to <= u64_max /\ 1 <= page_size <= block_page_size (ew_config w) /\
      match fetched with Some page => page_ok w from to page | None => True end
  | Block number hash _ _ _ => number = hash_number hash
  end.

Record event_watcher_ok (w : EventWatcher) : Prop := {
  ok_topics : NoDup (ew_topics w);
  ok_page_size : 1 <= block_page_size (ew_config w);
  ok_step : step_ok w
}.

(** The configuration an operation leaves as it was. *)
Definition same_setup (w w' : EventWatcher) : Prop :=
  ew_config w' = ew_config w /\ ew_addresses w' = ew_addresses w /\ ew_topics w' = ew_topics w.

Lemma fetched_ok_setup w w' blocks logs :
  same_setup w w' -> fetched_ok w blocks logs -> fetched_ok w' blocks logs.
Proof.
  intros (_ & Ha & Ht) [Hb Hw Hn]. split; [done| |done]. eapply Forall_impl; [exact Hw|].
  intros l. unfold is_watched. by rewrite Ha, Ht.
Qed.

Lemma fetch_logs_spec w fetch tick r w' tick' :
  fetch_logs w fetch tick = (r, w', tick') ->
  same_setup w w' /\ step w' = step w /\ exists t, fetch_raw w fetch tick = (r, t).
Proof.
  unfold fetch_logs. intros H. destruct (fetch_raw w fetch tick) as [[logs|e] t]; simplify_eq.
  - destruct (_ && _); (split; [done|]); (split; [done|]); by eexists.
  - split; [done|]. split; [done|]. by eexists.
Qed.

(** What [next_events] makes of a step: the update it returns is of the blocks
    that come next, and a failure leaves the same blocks to do. *)
Definition progress (s : Step) (page_size : Z) (r : result EventsError (option (EventUpdate E))) (s' : Step)
    : Prop :=
  match s, r with
  | Idle, Ok None => s' = Idle
  | Warping from to _ _, Ok (Some u) =>
      blocks_start u = from /\ from <= blocks_last u <= to /\
      s' = (if decide (blocks_last u = to) then Idle
            else Warping (blocks_last u + 1) to page_size None)
  | Block number _ _ _ _, Ok (Some u) =>
      blocks_start u = number /\ blocks_last u = number /\ s' = Idle
  | Warping from to p _, Err _ => exists p' fetched', s' = Warping from to p' fetched' /\ p' <= p
  | Block number hash timestamp bloom _, Err _ =>
      exists retries, s' = Block number hash timestamp bloom retries
  | _, _ => False
  end.

Definition update_ok (u : EventUpdate E) : Prop :=
  is_sorted (logs u) = true /\ forallb (in_range (blocks_start u) (blocks_last u)) (logs u) = true.

Lemma div_ceil_2 p : 1 <= p -> 1 <= div_ceil p 2 <= p /\ (1 < p -> div_ceil p 2 < p).
Proof. intros Hp. unfold div_ceil. case_decide; lia. Qed.

Lemma warp_page_spec w from to p tick r w' tick' :
  event_watcher_ok w -> 0 <= from <= to -> to <= u64_max -> 1 <= p ->
  warp_page w from to p tick = (r, w', tick') ->
  same_setup w w' /\
  match r with
  | Ok page => page_ok w from to page /\ step w' = step w
  | Err _ => step w' = narrowed_warp from to p
  end.
Proof.
  intros Hok Hf Ht Hp H. unfold warp_page in H.
  set (q := Z.min to (sat_add from (p - 1))) in *.
  assert (from <= q <= to) by (subst q; unfold sat_add; lia).
  destruct (fetch_logs _ _ _) as [[[ls|e] w1] t1] eqn:Hfetch; simplify_eq;
    apply fetch_logs_spec in Hfetch as (Hsame & Hstep & t & Hraw); (split; [done|]); [|done].
  split; [|done]. split; [done|]. simpl.
  pose proof (fetch_raw_ok _ _ _ _ _ (ok_topics _ Hok) Hraw) as Hfo. by case_decide.
Qed.

Lemma page_update w from to page timestamps logs :
  page_ok w from to page -> decode_and_sort (page_logs page) timestamps = Ok logs ->
  update_ok (MkEventUpdate from (page_to_block page) logs).
Proof.
  intros [Hr [Hb Hw Hn]] H. apply decode_and_sort_ok in H as [Hs Hp]; [|done].
  split; [done|]. simpl. by eapply decoded_in_range.
Qed.

Lemma warp_spec w from to p fetched tick r w' tick' :
  event_watcher_ok w -> step w = Warping from to p fetched ->
  warp w from to p fetched tick = (r, w', tick') ->
  same_setup w w' /\ event_watcher_ok w' /\
  progress (step w) (block_page_size (ew_config w)) (Some <$> r) (step w') /\
  forall u, r = Ok u -> update_ok u.
Proof.
  intros [Htp Hps Hstep] Hs H. unfold step_ok in Hstep. rewrite Hs in Hstep |- *.
  destruct Hstep as (Hf & Ht & Hp & Hpage). unfold warp in H.
  pose proof (div_ceil_2 p ltac:(lia)) as [Hd _].
  assert (exists page w1 t1, same_setup w w1 /\
    match fetched with Some page => (Ok page, w, tick) | None => warp_page w from to p tick end =
      (page, w1, t1) /\
    match page with
    | Ok page => page_ok w from to page /\ step w1 = step w
    | Err _ => step w1 = narrowed_warp from to p
    end) as (page & w1 & t1 & Hsame & Heq & Hok).
  { destruct fetched as [page|]; [by eexists _, _, _|].
    destruct (warp_page w from to p tick) as [[page w1] t1] eqn:Hwp.
    pose proof (fun Hok => warp_page_spec _ _ _ _ _ _ _ _ Hok Hf Ht (proj1 Hp) Hwp) as Hsp.
    destruct Hsp as [Hsame Hok]; [by split; rewrite ?Hs; unfold step_ok; rewrite ?Hs|].
    by eexists _, _, _. }
  rewrite Heq in H. clear Heq.
  assert (forall s, step_ok (with_step w1 s) -> event_watcher_ok (with_step w1 s)) as Hkeep.
  { intros s Hso. destruct Hsame as (Hc & _ & Htps). split; simpl; rewrite ?Hc, ?Htps; done. }
  assert (block_page_size (ew_config w1) = block_page_size (ew_config w)) as Hpz
    by (destruct Hsame as (-> & _ & _); done).
  assert (forall s, same_setup w (with_step w1 s)) as Hsame' by done.
  destruct page as [page|e]; [|simplify_eq].
  - destruct Hok as [Hpok _]. pose proof Hpok as [Hr _].
    destruct (fetch_missing_block_timestamps _ _ _) as [[ft ts] t2].
    destruct ft as [[]|e]; [destruct (decode_and_sort _ ts) as [ls|e] eqn:Hdec|]; simplify_eq; cbn [fmap result_fmap progress].
    + split; [done|]. split; [apply Hkeep|split].
      * unfold step_ok. simpl. case_decide; [done|]. rewrite Hpz. lia.
      * simpl. rewrite Hpz. done.
      * intros u [= <-]. by eapply page_update.
    + split; [done|]. split; [apply Hkeep|split; [|done]].
      * unfold step_ok. simpl. rewrite Hpz. lia.
      * simpl. eexists _, _. split; [done|lia].
    + split; [done|]. split; [apply Hkeep|split; [|done]].
      * unfold step_ok. simpl. rewrite Hpz. split_and!; try lia. split; [done|]. simpl.
        eapply fetched_ok_setup; [by apply Hsame'|]. apply Hpok.
      * simpl. by eexists _, _.
  - split; [done|]. split; [|split; [|done]].
    + destruct Hsame as (Hc & _ & Htps). split; rewrite ?Htps, ?Hc; [done..|].
      unfold step_ok. rewrite Hok, Hpz. simpl. lia.
    + rewrite Hok. cbn. eexists _, _. split; [done|lia].
Qed.

Lemma fetch_block_spec w number hash timestamp bloom retries tick r w' tick' :
  event_watcher_ok w -> step w = Block number hash timestamp bloom retries ->
  fetch_block w number hash timestamp bloom retries tick = (r, w', tick') ->
  same_setup w w' /\ event_watcher_ok w' /\
  progress (step w) (block_page_size (ew_config w)) (Some <$> r) (step w') /\
  forall u, r = Ok u -> update_ok u.
Proof.
  intros [Htp Hps Hstep] Hs H. unfold step_ok in Hstep. rewrite Hs in Hstep |- *.
  unfold fetch_block in H.
  match type of H with context [fetch_logs w ?f tick] => set (fetch := f) in * end.
  assert (fetch_scope fetch = HashFilter hash) as Hscope.
  { subst fetch. case_decide; [destruct (use_client_filtering _)|]; done. }
  destruct (fetch_logs w fetch tick) as [[ls w1] t1] eqn:Hfetch.
  apply fetch_logs_spec in Hfetch as (Hsame & Hst & t & Hraw).
  assert (forall s, step_ok (with_step w1 s) -> event_watcher_ok (with_step w1 s)) as Hkeep.
  { intros s Hso. destruct Hsame as (Hc & _ & Htps). split; simpl; rewrite ?Hc, ?Htps; done. }
  destruct (ls ≫= _) as [evs|e] eqn:Hdec; simplify_eq; (split; [done|]); (split; [by apply Hkeep|]).
  - apply bind_Ok in Hdec as (raw & -> & Hdec). split; [done|]. intros u [= <-].
    apply fetch_raw_ok in Hraw as [Hb _ Hn]; [|done]. rewrite Hscope in Hb.
    apply decode_and_sort_ok in Hdec as [Hso Hp]; [|done]. split; [done|]. simpl.
    eapply decoded_in_range; [done..|]. simpl. lia.
  - split; [|done]. simpl. by eexists.
Qed.

(** [next_events] returns sorted logs of the blocks that come next; the blocks
    of a step are done in order, each once, whatever fails on the way. *)
Lemma next_events_spec w tick r w' tick' :
  event_watcher_ok w -> next_events w tick = (r, w', tick') ->
  same_setup w w' /\ event_watcher_ok w' /\
  progress (step w) (block_page_size (ew_config w)) r (step w') /\
  forall u, r = Ok (Some u) -> update_ok u.
Proof.
  intros Hok H. unfold next_events in H. destruct (step w) as [|f t p fe|n h ts b re] eqn:Hs.
  - simplify_eq. rewrite Hs. by split_and!.
  - destruct (warp _ _ _ _ _ _) as [[u w1] t1] eqn:Hw. simplify_eq. rewrite <- Hs.
    pose proof (warp_spec _ _ _ _ _ _ _ _ _ Hok Hs Hw) as (? & ? & ? & Hu).
    split_and!; try done. intros u' Hu'. apply Hu. by destruct u; simplify_eq/=.
  - destruct (fetch_block _ _ _ _ _ _ _) as [[u w1] t1] eqn:Hw. simplify_eq. rewrite <- Hs.
    pose proof (fetch_block_spec _ _ _ _ _ _ _ _ _ _ Hok Hs Hw) as (? & ? & ? & Hu).
    split_and!; try done. intros u' Hu'. apply Hu. by destruct u; simplify_eq/=.
Qed.

(** ** The fetching strategies agree *)

Definition matches (f : Filter) (log : Log) : bool :=
  match f_addresses f with Some addresses => bool_decide (l_address log ∈ addresses) | None => true end &&
  match f_topics f with
  | Some tps => match head (l_topics log) with Some tp => bool_decide (tp ∈ tps) | None => false end
  | None => true
  end.

(** A node that serves the logs [all] of some blocks in full. *)
Definition serves_all (blocks : BlockFilter) (all : list Log) : Prop :=
  forall t f, f_blocks f = blocks -> node_logs t f = Ok (filter (fun l => matches f l = true) all).

Definition under_limit (config : EventsConfig) (n : nat) : Prop :=
  match max_logs_per_query config with Some max => Z.of_nat n < max | None => True end.

Lemma check_logs_limit_under config logs :
  under_limit config (length logs) -> check_logs_limit config logs = Ok logs.
Proof.
  unfold under_limit, check_logs_limit. destruct (max_logs_per_query _); [|done].
  intros. by rewrite decide_False by lia.
Qed.

Lemma filter_or {A} (P Q R : A -> Prop) `{!forall x, Decision (P x)} `{!forall x, Decision (Q x)}
    `{!forall x, Decision (R x)} (l : list A) :
  (forall x, R x <-> P x \/ Q x) -> (forall x, P x -> ¬ Q x) ->
  filter R l ≡ₚ filter P l ++ filter Q l.
Proof.
  intros HR Hd. induction l as [|x l IH]; [done|]. rewrite !filter_cons.
  destruct (decide (P x)) as [HP|HP].
  - rewrite decide_True by (by apply HR; left). rewrite (decide_False (P := Q x)) by auto.
    simpl. by constructor.
  - destruct (decide (Q x)) as [HQ|HQ].
    + rewrite decide_True by (by apply HR; right). rewrite IH. by rewrite Permutation_middle.
    + by rewrite decide_False by (rewrite HR; tauto).
Qed.

Lemma topic_query_served w blocks all tick topic :
  serves_all blocks all -> under_limit (ew_config w) (length all) ->
  topic_query w blocks tick topic =
    Ok (filter (fun l => matches (MkFilter blocks (Some (ew_addresses w)) (Some [topic])) l = true) all).
Proof.
  intros Hs Hl.
  set (f := MkFilter blocks (Some (ew_addresses w)) (Some [topic])).
  assert ((logs ← get_logs tick f; check_logs_limit (ew_config w) logs) =
    Ok (filter (fun l => matches f l = true) all)) as Hq.
  { apply bind_Ok. eexists. split; [apply get_logs_Ok, Hs; done|].
    apply check_logs_limit_under. revert Hl. unfold under_limit. case_match; [|done].
    pose proof (length_filter (fun l => matches f l = true) all). lia. }
  unfold topic_query. fold f. by rewrite Hq.
Qed.

Lemma topic_logs_perm w blocks all tps :
  NoDup tps ->
  concat ((fun tp => filter (fun l => matches (MkFilter blocks (Some (ew_addresses w)) (Some [tp])) l = true)
    all) <$> tps) ≡ₚ
  filter (fun l => matches (MkFilter blocks (Some (ew_addresses w)) (Some tps)) l = true) all.
Proof.
  induction 1 as [|tp tps Htp Hnd IH].
  - rewrite filter_none; [done|]. apply Forall_forall. intros l _.
    unfold matches. simpl. rewrite andb_true_iff. intros [_ H].
    by destruct (head (l_topics l)).
  - cbn [fmap list_fmap concat]. rewrite IH. symmetry. apply filter_or; intros l; unfold matches; simpl;
      rewrite !andb_true_iff; destruct (head (l_topics l)); rewrite ?bool_decide_eq_true; set_solver.
Qed.

Lemma collect_results_imap {X A B} (f : nat -> A -> result X B) (g : A -> B) l :
  (forall i x, f i x = Ok (g x)) -> collect_results (imap f l) = Ok (g <$> l).
Proof.
  intros H. apply collect_results_Ok. revert f H.
  induction l as [|x l IH]; intros f H; [done|]. simpl. rewrite H. f_equal.
  change (imap (f ∘ S) l = Ok <$> (g <$> l)). apply IH. intros. apply H.
Qed.

Lemma try_join_all_served {X A} tick (results : list (result X A)) l :
  collect_results results = Ok l -> try_join_all tick results = Ok l.
Proof.
  intros H. unfold try_join_all. assert (errors results = []) as He; [|by rewrite He].
  apply collect_results_Ok in H. rewrite H. clear. induction l; [done|simpl; done].
Qed.

(** The decoded and sorted logs are those of any permutation. *)
Lemma decode_and_sort_perm raw raw' timestamps events :
  raw ≡ₚ raw' -> NoDup (position <$> raw) ->
  decode_and_sort raw timestamps = Ok events -> decode_and_sort raw' timestamps = Ok events.
Proof.
  intros Hp Hnd H. unfold decode_and_sort in *. apply fmap_Ok in H as (evs & Hevs & ->).
  pose proof (decoded_positions _ _ _ _ Hevs) as Hpos.
  apply collect_results_Ok in Hevs.
  match type of Hevs with ?f <$> raw = _ => set (decode := f) in * end.
  assert (decode <$> raw' ≡ₚ Ok <$> evs) as Hp' by (rewrite <- Hevs; by f_equiv).
  apply Permutation_map_inv in Hp' as (evs' & Heq & Hperm).
  apply fmap_Ok. exists evs'. split; [by apply collect_results_Ok|].
  assert (forall l, l ≡ₚ evs -> merge_sort log_le l ≡ₚ evs) as Hm
    by (intros l <-; apply merge_sort_Permutation).
  apply (StronglySorted_unique_strong log_le).
  - intros x1 x2 Hx1 Hx2 H12 H21. rewrite (Hm evs) in Hx1 by done.
    rewrite (Hm evs') in Hx2 by done.
    assert (event_position x1 = event_position x2) as He.
    { unfold log_le in *. unfold event_position. f_equal; f_equal; lia. }
    rewrite <- Hpos in Hnd. apply list_elem_of_lookup in Hx1 as [i Hi].
    apply list_elem_of_lookup in Hx2 as [j Hj].
    assert (i = j) as ->; [|congruence].
    eapply (NoDup_lookup (event_position <$> evs)); [done|by rewrite list_lookup_fmap, Hi|].
    rewrite list_lookup_fmap, Hj. simpl. by rewrite He.
  - apply StronglySorted_merge_sort; apply _.
  - apply StronglySorted_merge_sort; apply _.
  - by rewrite !Hm.
Qed.

Lemma single_query_served w blocks all tick :
  serves_all blocks all -> under_limit (ew_config w) (length all) ->
  single_query w blocks tick = Ok (filter (fun l => is_watched w l = true) all).
Proof.
  intros Hs Hl. unfold single_query. apply bind_Ok. eexists. split; [by apply get_logs_Ok, Hs|].
  apply check_logs_limit_under. revert Hl. unfold under_limit. case_match; [|done].
  pose proof (length_filter (fun l => is_watched w l = true) all). unfold matches. simpl.
  intros. eapply Z.le_lt_trans; [|done]. apply inj_le. done.
Qed.

Lemma multiple_queries_served w blocks all tick :
  serves_all blocks all -> under_limit (ew_config w) (length all) -> NoDup (ew_topics w) ->
  exists logs, multiple_queries w blocks tick = Ok logs /\
    logs ≡ₚ filter (fun l => is_watched w l = true) all.
Proof.
  intros Hs Hl Hnd. eexists. split.
  - unfold multiple_queries. apply bind_Ok. eexists. split; [|done].
    apply try_join_all_served, collect_results_imap. intros i tp. by apply topic_query_served.
  - by rewrite topic_logs_perm.
Qed.

Lemma client_filtered_served w hash bloom all tick :
  serves_all (HashFilter hash) all -> compute_logs_bloom all = bloom ->
  client_filtered w hash bloom tick = Ok (filter (fun l => is_watched w l = true) all).
Proof.
  intros Hs <-. unfold client_filtered. apply bind_Ok. exists all. split.
  - apply get_logs_Ok. rewrite Hs by done. f_equal. apply filter_every. by apply Forall_true.
  - by rewrite decide_False by (intros H; by apply H).
Qed.

Lemma watched_NoDup w all :
  NoDup (position <$> all) -> NoDup (position <$> filter (fun l => is_watched w l = true) all).
Proof.
  intros H. eapply sublist_NoDup; [exact H|]. apply fmap_sublist, sublist_filter.
Qed.

(** ** Draining the watcher *)

(** Successive calls of [next_events], errors retried, until it is idle. *)
Fixpoint drain (fuel : nat) (w : EventWatcher) (tick : nat)
    : option (list (EventUpdate E) * EventWatcher * nat) :=
  match fuel with
  | O => None
  | S fuel =>
      let '(update, w, tick) := next_events w tick in
      match update with
      | Ok None => Some ([], w, tick)
      | Ok (Some update) =>
          '(updates, w, tick) ← drain fuel w tick; Some (update :: updates, w, tick)
      | Err _ => drain fuel w tick
      end
  end.

(** Updates that cover [from..=to], each block once and in order. *)
Fixpoint tiles (from to : Z) (updates : list (EventUpdate E)) : Prop :=
  match updates with
  | [] => False
  | [u] => blocks_start u = from /\ blocks_last u = to /\ from <= to /\ update_ok u
  | u :: updates =>
      blocks_start u = from /\ from <= blocks_last u < to /\ update_ok u /\
      tiles (blocks_last u + 1) to updates
  end.

(** A log the watcher decodes, of a block the node has. *)
Definition decodes (l : Log) : Prop :=
  is_Some (decode_log (l_topics l) (l_data l)) /\ is_Some (l_log_index l) /\
  forall t n, l_block_number l = Some n -> exists b, node_block t (BlockNumber n) = Ok (Some b).

(** A node that answers every request with logs the watcher decodes, and whose
    logs of one event in one block stay below the limit of a query. *)
Record serving (config : EventsConfig) : Prop := {
  serving_logs t f : exists logs, node_logs t f = Ok logs;
  serving_limit t f logs topic :
    node_logs t f = Ok logs -> f_topics f = Some [topic] ->
    match f_blocks f with HashFilter _ => True | RangeFilter from to => from = to end ->
    under_limit config (length logs);
  serving_decodes t f logs l : node_logs t f = Ok logs -> l ∈ logs -> decodes l
}.

Lemma collect_results_total {X A B} (f : A -> result X B) (l : list A) :
  (forall x, x ∈ l -> exists y, f x = Ok y) -> exists ys, collect_results (f <$> l) = Ok ys.
Proof.
  induction l as [|x l IH]; intros H; [by exists []|].
  destruct (H x) as [y Hy]; [by left|]. destruct IH as [ys Hys]; [intros; apply H; by right|].
  exists (y :: ys). apply collect_results_Ok. apply collect_results_Ok in Hys.
  change (f x :: (f <$> l) = Ok y :: (Ok <$> ys)). by rewrite Hy, Hys.
Qed.

Lemma decode_and_sort_served raw timestamps :
  Forall decodes raw ->
  (forall l, l ∈ raw -> exists n, l_block_number l = Some n /\
     (l_block_timestamp l = None -> is_Some (timestamps !! n))) ->
  exists events, decode_and_sort raw timestamps = Ok events.
Proof.
  intros Hd Hn. unfold decode_and_sort.
  match goal with |- context [?f <$> raw] => destruct (collect_results_total f raw) as [evs Hevs] end.
  - intros l Hl. rewrite Forall_forall in Hd. destruct (Hd l Hl) as ([d Hdl] & [i Hi] & _).
    destruct (Hn l Hl) as (n & Hln & Hts). unfold decode_event. rewrite Hdl, Hln, Hi. simpl.
    destruct (l_block_timestamp l) as [ts|]; [|destruct (Hts eq_refl) as [ts ->]]; by eexists.
  - rewrite Hevs. by eexists.
Qed.

Lemma fetch_decodes w fetch tick logs t :
  serving (ew_config w) -> fetch_raw w fetch tick = (Ok logs, t) -> Forall decodes logs.
Proof.
  intros Hs H. apply Forall_forall. intros l Hl.
  destruct fetch as [blocks|blocks|hash bloom]; injection H as H _.
  - apply bind_Ok in H as (ls & Hls & H). apply get_logs_Ok in Hls.
    apply check_logs_limit_Ok in H as ->. by eapply (serving_decodes _ Hs).
  - apply bind_Ok in H as (lss & Hlss & [= <-]). apply try_join_all_Ok, topic_queries_Ok in Hlss.
    rewrite list_elem_of_In, in_concat in Hl. destruct Hl as (ls & Hls & Hl).
    rewrite <- !list_elem_of_In in *. apply list_elem_of_lookup in Hls as [i Hi].
    destruct (Forall2_lookup_r _ _ _ _ _ Hlss Hi) as (tp & _ & t' & Hq).
    apply topic_query_Ok in Hq as [->|Hq]; [by apply not_elem_of_nil in Hl|].
    by eapply (serving_decodes _ Hs).
  - apply bind_Ok in H as (ls & Hls & H). apply get_logs_Ok in Hls. case_decide; [done|].
    injection H as <-. apply list_elem_of_filter in Hl as [_ Hl]. by eapply (serving_decodes _ Hs).
Qed.

(** One query per event cannot fail on a single block. *)
Lemma multiple_queries_serving w blocks tick :
  serving (ew_config w) ->
  match blocks with HashFilter _ => True | RangeFilter from to => from = to end ->
  exists logs, multiple_queries w blocks tick = Ok logs.
Proof.
  intros Hs Hb. unfold multiple_queries.
  assert (exists lss, collect_results
    (imap (fun i topic => topic_query w blocks (tick + i) topic) (ew_topics w)) = Ok lss) as [lss Hlss].
  { revert tick. induction (ew_topics w) as [|tp tps IH]; intros tick; [by exists []|].
    destruct (IH (S tick)) as [lss Hlss].
    set (f := MkFilter blocks (Some (ew_addresses w)) (Some [tp])).
    destruct (serving_logs _ Hs (tick + 0)%nat f) as [ls Hls].
    assert ((logs ← get_logs (tick + 0) f; check_logs_limit (ew_config w) logs) = Ok ls) as Hq.
    { apply bind_Ok. exists ls. split; [by apply get_logs_Ok|].
      apply check_logs_limit_under. by eapply (serving_limit _ Hs _ f). }
    assert (topic_query w blocks (tick + 0) tp = Ok ls) as Ht by (unfold topic_query; fold f; by rewrite Hq).
    exists (ls :: lss). simpl. rewrite Ht.
    simpl. assert (imap ((fun i topic => topic_query w blocks (tick + i) topic) ∘ S) tps =
      imap (fun i topic => topic_query w blocks (S tick + i) topic) tps) as ->.
    { apply imap_ext. intros i x _. simpl. f_equal. lia. }
    by rewrite Hlss. }
  apply (try_join_all_served tick) in Hlss. rewrite Hlss. simpl. by eexists.
Qed.

Lemma collect_timestamps_served timestamps results :
  (forall r, r ∈ results -> exists p, r = Ok p) ->
  exists timestamps', collect_timestamps timestamps results = (Ok (), timestamps') /\
    forall n, is_Some (timestamps !! n) \/ (exists ts, Ok (n, ts) ∈ results) -> is_Some (timestamps' !! n).
Proof.
  unfold collect_timestamps. revert timestamps. induction results as [|r results IH]; intros timestamps H.
  { exists timestamps. split; [done|]. intros n [?|[ts Hts]]; [done|]. by apply not_elem_of_nil in Hts. }
  destruct (H r) as [[n ts] ->]; [by left|].
  destruct (IH (<[n := ts]> timestamps)) as (timestamps' & Heq & Hin); [intros; apply H; by right|].
  exists timestamps'. split; [done|]. intros m [Hm|[ts' Hts']].
  - apply Hin. left. destruct (decide (n = m)) as [->|]; [by rewrite lookup_insert_eq|].
    by rewrite lookup_insert_ne.
  - apply elem_of_cons in Hts' as [[= -> ->]|Hts']; apply Hin.
    + left. by rewrite lookup_insert_eq.
    + right. by eexists.
Qed.

Lemma missing_timestamps_served raw timestamps tick r timestamps' tick' :
  Forall decodes raw -> fetch_missing_block_timestamps raw timestamps tick = (r, timestamps', tick') ->
  r = Ok () /\
  forall l n, l ∈ raw -> l_block_timestamp l = None -> l_block_number l = Some n -> is_Some (timestamps' !! n).
Proof.
  intros Hs H. unfold fetch_missing_block_timestamps in H.
  match type of H with context [sorted_elements ?s] => set (numbers := s) in * end.
  set (results := imap (fun i number => block_timestamp_query (tick + i) number) (sorted_elements numbers)) in *.
  assert (forall i n, sorted_elements numbers !! i = Some n -> exists ts,
    block_timestamp_query (tick + i) n = Ok (n, ts)) as Hq.
  { intros i n Hn. apply list_elem_of_lookup_2, elem_of_sorted_elements in Hn.
    apply elem_of_list_to_set, list_elem_of_omap in Hn as (l & Hl & Hn).
    rewrite Forall_forall in Hs. destruct (Hs l Hl) as (_ & _ & Hb).
    destruct (l_block_timestamp l); [done|]. destruct (l_block_number l) as [n'|] eqn:En; [|done].
    case_decide; simplify_eq. unfold block_timestamp_query.
    destruct (Hb (tick + i)%nat n eq_refl) as [b ->]. by eexists. }
  destruct (collect_timestamps_served timestamps results) as (ts' & Heq & Hin).
  { intros x Hx. apply list_elem_of_lookup in Hx as [i Hi]. unfold results in Hi.
    rewrite list_lookup_imap in Hi. apply fmap_Some in Hi as (n & Hn & ->).
    destruct (Hq _ _ Hn) as [ts ->]. by eexists. }
  rewrite Heq in H. simplify_eq. split; [done|]. intros l n Hl Hts Hn. apply Hin.
  destruct (decide (is_Some (timestamps !! n))) as [?|Hno]; [by left|right].
  assert (n ∈ sorted_elements numbers) as Hel.
  { apply elem_of_sorted_elements. unfold numbers. apply elem_of_list_to_set, list_elem_of_omap.
    exists l. split; [done|]. by rewrite Hts, Hn, decide_False. }
  apply list_elem_of_lookup in Hel as [i Hi]. destruct (Hq _ _ Hi) as [ts Hts'].
  exists ts. apply list_elem_of_lookup. exists i. unfold results. rewrite list_lookup_imap, Hi. simpl.
  by rewrite Hts'.
Qed.

(** A page fails only for the number of its logs, and is narrowed. *)
Lemma warp_serving w from to p tick r w' tick' :
  event_watcher_ok w -> serving (ew_config w) -> step w = Warping from to p None ->
  warp w from to p None tick = (r, w', tick') ->
  is_ok r = true \/ (1 < p /\ step w' = narrowed_warp from to p).
Proof.
  intros Hok Hs Hst H. pose proof (ok_step _ Hok) as Hstep. unfold step_ok in Hstep. rewrite Hst in Hstep.
  destruct Hstep as (Hf & Ht & Hp & _). unfold warp in H.
  destruct (warp_page w from to p tick) as [[page w1] t1] eqn:Hwp.
  pose proof (warp_page_spec _ _ _ _ _ _ _ _ Hok Hf Ht (proj1 Hp) Hwp) as [Hsame Hpage].
  unfold warp_page in Hwp.
  match type of Hwp with context [fetch_logs w ?f tick] => set (fetch := f) in * end.
  destruct (fetch_logs w fetch tick) as [[ls w2] t2] eqn:Hfetch.
  apply fetch_logs_spec in Hfetch as (_ & _ & t & Hraw).
  destruct ls as [ls|e]; simplify_eq.
  - left. destruct Hpage as [[_ Hpok] _]. cbn [page_logs page_to_block] in Hpok.
    cbn [page_logs page_timestamps] in H.
    destruct (fetch_missing_block_timestamps ls ∅ t1) as [[ft ts] t2] eqn:Hft.
    eapply missing_timestamps_served in Hft as [-> Hts]; [|by eapply fetch_decodes].
    destruct (decode_and_sort_served ls ts) as [evs Hevs].
    + by eapply fetch_decodes.
    + intros l Hl. pose proof (fetched_blocks _ _ _ Hpok) as Hb. rewrite Forall_forall in Hb.
      destruct (Hb l Hl) as (n & Hn & _). exists n. eauto.
    + rewrite Hevs in H. by simplify_eq.
  - right. split; [|done]. destruct (decide (1 < p)) as [?|Hp1]; [done|exfalso].
    assert (fetch = MultipleQueries (RangeFilter from (Z.min to (sat_add from (p - 1))))) as Hq by done.
    rewrite Hq in Hraw. injection Hraw as Hraw _.
    destruct (multiple_queries_serving w (RangeFilter from (Z.min to (sat_add from (p - 1)))) tick Hs) as [ls Hls].
    { unfold sat_add. lia. }
    by rewrite Hls in Hraw.
Qed.

Lemma fetch_block_serving w number hash timestamp bloom retries tick r w' tick' :
  event_watcher_ok w -> serving (ew_config w) -> step w = Block number hash timestamp bloom retries ->
  fetch_block w number hash timestamp bloom retries tick = (r, w', tick') ->
  is_ok r = true \/
  (retries < block_single_query_retry_count (ew_config w) /\
   step w' = Block number hash timestamp bloom (wrap_u64 (retries + 1))).
Proof.
  intros Hok Hs Hst H. pose proof (ok_step _ Hok) as Hstep. unfold step_ok in Hstep. rewrite Hst in Hstep.
  unfold fetch_block in H.
  match type of H with context [fetch_logs w ?f tick] => set (fetch := f) in * end.
  assert (fetch_scope fetch = HashFilter hash) as Hscope.
  { subst fetch. case_decide; [destruct (use_client_filtering _)|]; done. }
  destruct (fetch_logs w fetch tick) as [[ls w1] t1] eqn:Hfetch.
  apply fetch_logs_spec in Hfetch as (_ & _ & t & Hraw). destruct ls as [ls|e].
  - left. pose proof (fetch_raw_ok _ _ _ _ _ (ok_topics _ Hok) Hraw) as Hfo. rewrite Hscope in Hfo.
    destruct (decode_and_sort_served ls {[number := timestamp]}) as [evs Hevs].
    + by eapply fetch_decodes.
    + intros l Hl. pose proof (fetched_blocks _ _ _ Hfo) as Hb. rewrite Forall_forall in Hb.
      destruct (Hb l Hl) as (n & Hn & ->). exists (hash_number hash). split; [done|].
      rewrite Hstep. intros _. by rewrite lookup_singleton_eq.
    + simpl in H. rewrite Hevs in H. by simplify_eq.
  - simpl in H. simplify_eq. right. split; [|done].
    destruct (decide (retries < block_single_query_retry_count (ew_config w))) as [?|Hr]; [done|exfalso].
    assert (fetch = MultipleQueries (HashFilter hash)) as Hq by done.
    rewrite Hq in Hraw. injection Hraw as Hraw _.
    destruct (multiple_queries_serving w (HashFilter hash) tick Hs I) as [ls Hls].
    by rewrite Hls in Hraw.
Qed.

(** What is left to do of a step. *)
Definition step_measure (config : EventsConfig) (s : Step) : nat :=
  match s with
  | Idle => 0
  | Warping from to p _ => Z.to_nat ((to - from + 1) * (block_page_size config + 1) + p)
  | Block _ _ _ _ retries => S (Z.to_nat (block_single_query_retry_count config - retries))
  end.

(** The blocks left to do of a step. *)
Definition todo (s : Step) (updates : list (EventUpdate E)) : Prop :=
  match s with
  | Idle => updates = []
  | Warping from to _ _ => tiles from to updates
  | Block number _ _ _ _ => tiles number number updates
  end.

(** A step without a fetched page, whose retry count can be counted. *)
Definition clean_step (config : EventsConfig) (s : Step) : Prop :=
  match s with
  | Warping _ _ _ (Some _) => False
  | Block _ _ _ _ retries => 0 <= retries /\ block_single_query_retry_count config <= u64_max
  | _ => True
  end.

Lemma drain_step w tick r w' tick' :
  event_watcher_ok w -> serving (ew_config w) -> clean_step (ew_config w) (step w) -> step w ≠ Idle ->
  next_events w tick = (r, w', tick') ->
  event_watcher_ok w' /\ ew_config w' = ew_config w /\ clean_step (ew_config w) (step w') /\
  (step_measure (ew_config w) (step w') < step_measure (ew_config w) (step w))%nat /\
  match r with
  | Ok None => False
  | Ok (Some u) => forall us, todo (step w') us -> todo (step w) (u :: us)
  | Err _ => forall us, todo (step w') us -> todo (step w) us
  end.
Proof.
  intros Hok Hs Hc Hne H.
  pose proof (next_events_spec _ _ _ _ _ Hok H) as ((Hcfg & _) & Hok' & Hprog & Hu).
  split; [done|]. split; [done|]. pose proof (ok_step _ Hok) as Hstep. unfold step_ok in Hstep.
  pose proof (ok_page_size _ Hok). unfold next_events in H.
  destruct (step w) as [|from to p fe|n h ts b re] eqn:Hst; [done| |].
  - destruct fe; [done|]. destruct Hstep as (Hf & Ht & Hp & _).
    destruct (warp _ _ _ _ _ _) as [[u w1] t1] eqn:Hw.
    pose proof (warp_serving _ _ _ _ _ _ _ _ Hok Hs Hst Hw) as Hws. injection H as <- <- <-.
    destruct u as [u|e]; simpl in Hprog.
    + destruct Hprog as (Hbs & Hbl & Hs'). rewrite Hs'. specialize (Hu u eq_refl).
      case_decide as He; simpl; (split; [done|]); (split; [nia|]).
      * intros us ->. simpl. split_and!; [done|done|lia|done].
      * intros us Hus. destruct us as [|u' us]; [done|]. cbn [tiles]. split_and!; try done; lia.
    + destruct Hws as [|[Hp1 Hs']]; [done|]. rewrite Hs'. simpl.
      pose proof (div_ceil_2 p ltac:(lia)) as [_ Hd]. specialize (Hd Hp1).
      split; [done|]. split; [nia|]. done.
  - destruct (fetch_block _ _ _ _ _ _ _) as [[u w1] t1] eqn:Hw.
    pose proof (fetch_block_serving _ _ _ _ _ _ _ _ _ _ Hok Hs Hst Hw) as Hws. injection H as <- <- <-.
    destruct u as [u|e]; simpl in Hprog.
    + destruct Hprog as (Hbs & Hbl & Hs'). rewrite Hs'. specialize (Hu u eq_refl). simpl.
      split; [done|]. split; [lia|]. intros us ->. simpl. split_and!; [done|done|lia|done].
    + destruct Hws as [|[Hr Hs']]; [done|]. rewrite Hs'. simpl in *.
      rewrite wrap_u64_small by (unfold is_u64; lia). split; [lia|]. split; [lia|]. done.
Qed.

(** Once the node serves, draining returns updates that cover the step. *)
Lemma drain_returns w tick :
  event_watcher_ok w -> serving (ew_config w) -> clean_step (ew_config w) (step w) ->
  exists fuel us w' tick', drain fuel w tick = Some (us, w', tick') /\ step w' = Idle /\
    event_watcher_ok w' /\ todo (step w) us.
Proof.
  remember (step_measure (ew_config w) (step w)) as m eqn:Em. revert w tick Em.
  induction (lt_wf m) as [m _ IH]. intros w tick -> Hok Hs Hc.
  destruct (next_events w tick) as [[r w1] t1] eqn:Hn.
  assert (step w = Idle \/ step w ≠ Idle) as [He|Hne] by (destruct (step w); naive_solver).
  { exists 1%nat. unfold next_events in Hn. cbn [drain]. unfold next_events. rewrite He in *.
    eexists _, _, _. by split_and!. }
  pose proof (drain_step _ _ _ _ _ Hok Hs Hc Hne Hn) as (Hok1 & Hcfg & Hc1 & Hm & Hr).
  rewrite <- Hcfg in Hm at 1.
  destruct (IH _ Hm w1 t1) as (fuel & us & w' & tick' & Hd & Hi & Hok' & Htodo);
    [done|done|by rewrite Hcfg|by rewrite Hcfg|].
  exists (S fuel). cbn [drain]. rewrite Hn. destruct r as [[u|]|e]; [|done|].
  - rewrite Hd. eexists _, _, _. split_and!; [done|done|done|]. by apply Hr.
  - eexists _, _, _. split_and!; [done|done|done|]. by apply Hr.
Qed.

End Events.
