(* ===== verification/Watch.v ===== *)
(** The watcher, [crates/core/src/index/mod.rs]: block updates and the logs of
    their blocks in one ordered stream; and the protocol of that stream, which is
    what the state machine accepts. *)

From S2P Require Import Prelude Messages Snapshots StateMachine Node Blocks Events.

Section Watch.
Context {NODE : Node} {E : Type} {EV : Events E}.

(** [index::Error]. *)
Inductive IndexError :=
| BlocksErr (e : BlocksError)
| EventsErr (e : EventsError).

Record Watcher := MkWatcher { w_blocks : BlockWatcher; w_events : EventWatcher }.

(** [Watcher::new]. *)
Definition new_index (fuel : nat) (blocks : BlocksConfig) (events : EventsConfig)
    (addresses : list Z) (indexed : option BlockStatus) (tick : nat)
    : option (result IndexError Watcher * nat) :=
  '(blocks, tick) ← new_watcher fuel blocks indexed tick;
  match blocks with
  | Ok blocks => Some (Ok (MkWatcher blocks (new_event_watcher (E := E) events addresses)), tick)
  | Err e => Some (Err (BlocksErr e), tick)
  end.

Definition block_status (w : Watcher) : BlockStatus := watcher_status (w_blocks w).

Definition is_resource_not_found (e : EventsError) : bool :=
  match e with EventsRpc rpc => resource_not_found rpc | _ => false end.

Definition next_logs (w : Watcher) (tick : nat)
    : result IndexError (option (EventUpdate E)) * Watcher * nat :=
  let '(logs, events, tick) := next_events (w_events w) tick in
  let w := MkWatcher (w_blocks w) events in
  match logs with
  | Ok logs => (Ok logs, w, tick)
  | Err err =>
      if is_resource_not_found err then
        let '(invalidated, blocks, tick) := revalidate_last_block (w_blocks w) tick in
        let w := MkWatcher blocks (w_events w) in
        match invalidated with
        | Err e => (Err (BlocksErr e), w, tick)
        | Ok (Some (_, hash)) =>
            match on_block_invalidated (w_events w) hash with
            | Ok events => (Ok None, MkWatcher (w_blocks w) events, tick)
            | Err e => (Err (EventsErr e), w, tick)
            end
        | Ok None => (Err (EventsErr err), w, tick)
        end
      else (Err (EventsErr err), w, tick)
  end.

(** [Watcher::next]. *)
Definition next_index (fuel : nat) (w : Watcher) (tick : nat)
    : option (result IndexError (Update.t E) * Watcher * nat) :=
  let '(events, w, tick) := next_logs w tick in
  match events with
  | Err e => Some (Err e, w, tick)
  | Ok (Some events) => Some (Ok (Update.Logs events), w, tick)
  | Ok None =>
      '(update, blocks, tick) ← next_update fuel (w_blocks w) tick;
      let w := MkWatcher blocks (w_events w) in
      match update with
      | Err e => Some (Err (BlocksErr e), w, tick)
      | Ok update =>
          match on_block_update (w_events w) update with
          | Ok events => Some (Ok (Update.Block update), MkWatcher (w_blocks w) events, tick)
          | Err e => Some (Err (EventsErr e), w, tick)
          end
      end
  end.

(** ** The protocol of the stream

    The status of a machine that accepts every update, as [try_update] moves it;
    none when the update is out of order. *)
Definition accepts (status : Status) (update : Update.t E) : option Status :=
  match update with
  | Update.Block (BlockUpdate.Warp from to) =>
      if warp_ready status from && bool_decide (from <= to) then Some (WarpEvents from to) else None
  | Update.Block (BlockUpdate.Uncle number) =>
      if uncle_ready status number then Some (BlockPending number) else None
  | Update.Block (BlockUpdate.New number _ _ _) =>
      if new_ready status number then Some (BlockEvents number) else None
  | Update.Logs u =>
      if logs_ready status (blocks_start u) (blocks_last u) && is_sorted (logs u)
         && forallb (in_range (blocks_start u) (blocks_last u)) (logs u)
      then Some match status with
                | WarpEvents _ last =>
                    if decide (blocks_last u < last) then WarpEvents (blocks_last u + 1) last
                    else BlockApplied (blocks_last u + 1)
                | _ => BlockApplied (blocks_last u + 1)
                end
      else None
  end.

(** Whether an error is the order of the updates, and not the storage. *)
Definition out_of_order (e : MachineError) : bool :=
  match e with Storage _ => false | _ => true end.

(** The block numbers a status mentions leave room for the next one. *)
Definition status_ok (status : Status) : Prop :=
  match status with
  | Initialized => True
  | BlockPending n | BlockApplied n => 0 <= n <= u64_max
  | BlockEvents n => 0 <= n < u64_max
  | WarpEvents from to => 0 <= from <= to /\ to < u64_max
  end.

(** ** The watcher follows the protocol *)

Context {LAWS : NodeLaws} {LOGS : LogLaws}.

(** The consumer's status, and its position for the block watcher. *)
Definition in_step (w : Watcher) (status : Status) (pos : option Z) : Prop :=
  match step (w_events w) with
  | Idle =>
      match status with
      | Initialized => pos = None
      | BlockPending n | BlockApplied n => pos = Some n
      | _ => False
      end
  | Warping from to _ _ => status = WarpEvents from to /\ pos = Some (to + 1)
  | Block number _ _ _ _ => status = BlockEvents number /\ pos = Some (number + 1)
  end.

(** A warp is only queued first, or behind the uncle of a resume. *)
Definition no_warps (q : list BlockUpdate.t) : Prop :=
  Forall (fun u => match u with BlockUpdate.Warp _ _ => False | _ => True end) q.
Definition warp_first (q : list BlockUpdate.t) : Prop :=
  match q with
  | BlockUpdate.Warp _ _ :: q => no_warps q
  | BlockUpdate.Uncle _ :: BlockUpdate.Warp _ _ :: q => no_warps q
  | q => no_warps q
  end.
Definition warps_ok (status : Status) (q : list BlockUpdate.t) : Prop :=
  match status with Initialized | BlockPending _ => warp_first q | _ => no_warps q end.

(** The block watcher behind a consumer's status and position. *)
Record stream_for (b : BlockWatcher) (status : Status) (pos : option Z) : Prop := {
  sf_blocks : watcher_ok b;
  sf_stream : stream_ok b pos;
  sf_warps : warps_ok status (queue b);
  sf_room : status_ok status
}.

Record watch_ok (w : Watcher) (status : Status) (pos : option Z) : Prop := {
  wo_stream : stream_for (w_blocks w) status pos;
  wo_events : event_watcher_ok (w_events w);
  wo_status : in_step w status pos
}.

Lemma warps_of_none status q : no_warps q -> warps_ok status q.
Proof.
  intros H. assert (warp_first q).
  { destruct q as [|[] q]; [done|by apply Forall_cons in H as [[] _]| |done].
    destruct q as [|[] q]; [done| |done|done].
    by apply Forall_cons in H as [_ [[] _]%Forall_cons]. }
  by destruct status.
Qed.

Lemma no_warps_first q : no_warps q -> warp_first q.
Proof. intros H. exact (warps_of_none Initialized q H). Qed.

Lemma warps_next status u q :
  warps_ok status (u :: q) -> match u with BlockUpdate.Uncle _ => warp_first q | _ => no_warps q end.
Proof.
  intros H. assert (warp_first (u :: q)) as Hw by (destruct status; try done; by apply no_warps_first).
  destruct u; [done| |by apply Forall_cons in Hw as [_ ?]].
  destruct q as [|[] q]; [apply Forall_nil; done|done| |]; simpl in Hw; apply Forall_cons in Hw as [_ Hw];
    by apply no_warps_first.
Qed.

(** What [next_update] emits is queued, or new. *)
Lemma next_update_queue fuel b tick r b' tick' :
  next_update fuel b tick = Some (r, b', tick') ->
  match r with
  | Ok u => queue b = u :: queue b' \/ (queue b = [] /\ queue b' = [] /\ no_warps [u])
  | Err _ => queue b = [] /\ queue b' = []
  end.
Proof.
  unfold next_update. destruct (queue b) as [|u q] eqn:Hq; intros H; [|simplify_eq; by left].
  destruct (await _ _ _ _) as [[[block b1] t]|] eqn:Ha; [|done]. cbn [mbind option_bind] in H.
  apply await_spec in Ha as [[ms ->] _]. destruct block as [block|e]; [|by simplify_eq].
  unfold accept_block, extend_chain in H. cbn in H.
  repeat case_match; simplify_eq; try done; right; (split; [done|]); (split; [done|]);
    by apply Forall_singleton.
Qed.

Lemma revalidate_queue b tick r b' tick' :
  revalidate_last_block b tick = (r, b', tick') ->
  (queue b' = queue b /\ forall x, r = Ok (Some x) -> False) \/
  exists number hash, queue b' = [BlockUpdate.Uncle number] /\ r = Ok (Some (number, hash)).
Proof.
  unfold revalidate_last_block. intros H.
  destruct (next_number b); [|simplify_eq; by left].
  destruct (rposition _ _ ≫= _) as [[i x]|]; [|simplify_eq; by left].
  destruct (get_block _ _) as [[cur|e] t]; [|simplify_eq; by left].
  case_decide; simplify_eq; [by left|right]. by eexists _, _.
Qed.

Lemma new_watcher_queue fuel config indexed tick b tick' :
  new_watcher fuel config indexed tick = Some (Ok b, tick') -> warp_first (queue b).
Proof.
  unfold new_watcher, initialize. intros H. repeat case_match; simplify_eq/=.
  destruct (scan _ _ _ _ _ _ _ _) as [[[l|] t]|]; simplify_eq/=. destruct l as [|s l]; simplify_eq/=.
  assert (forall l, no_warps (new_update <$> l)) as Hnews.
  { intros l'. apply Forall_fmap, Forall_forall. done. }
  set (news := new_update <$> _) in *. assert (no_warps news) as Hn by apply Hnews. clearbody news.
  assert (warp_first news) as Hw.
  { apply (warps_of_none Initialized) in Hn. exact Hn. }
  assert (forall k, warp_first (BlockUpdate.Uncle k :: news)) as Hu.
  { intros k. apply (warps_of_none Initialized). by apply Forall_cons. }
  unfold initial_updates. destruct indexed as [i|].
  - destruct (checked_add _ _); [|done].
    destruct (decide (_ <= latest i)), (decide (_ <= sat_sub _ _));
      [exact Hn|apply Hu|exact Hn|exact Hw].
  - destruct (start_block config); [|done]. by case_decide.
Qed.

(** The status a block update leads to. *)
Definition after_block (u : BlockUpdate.t) : Status * Z :=
  match u with
  | BlockUpdate.Warp from to => (WarpEvents from to, to + 1)
  | BlockUpdate.Uncle n => (BlockPending n, n)
  | BlockUpdate.New n _ _ _ => (BlockEvents n, n + 1)
  end.

(** The status of a consumer that waits for the block watcher; the last case is
    that of a block found to be uncled while its logs were fetched. *)
Definition awaits_block (status : Status) (pos : option Z) (q : list BlockUpdate.t) : Prop :=
  match status with
  | Initialized => pos = None
  | BlockPending n | BlockApplied n => pos = Some n
  | BlockEvents n => pos = Some (n + 1) /\ exists k, q = [BlockUpdate.Uncle k]
  | WarpEvents _ _ => False
  end.

Lemma next_update_accepts fuel b status pos tick u b' tick' :
  stream_for b status pos -> awaits_block status pos (queue b) ->
  next_update fuel b tick = Some (Ok u, b', tick') ->
  accepts status (Update.Block u) = Some (after_block u).1 /\
  stream_for b' (after_block u).1 (Some (after_block u).2) /\ update_room u /\
  match u with BlockUpdate.Warp from to => from <= to | _ => True end.
Proof.
  intros [Hok Hs Hw Hr] Hpos H. pose proof (next_update_queue _ _ _ _ _ _ H) as Hq.
  destruct (next_update_spec _ _ _ _ _ _ _ Hok Hs H) as (_ & Hok' & Hroom & pos' & Ha & Hs').
  assert (match u with BlockUpdate.Uncle _ => warp_first (queue b') | _ => no_warps (queue b') end) as Hw'.
  { destruct Hq as [Hq|(_ & -> & _)]; [|destruct u; by apply Forall_nil]. rewrite Hq in Hw. by apply warps_next in Hw. }
  assert (match u, status with
          | BlockUpdate.Warp _ _, (Initialized | BlockPending _) => True
          | BlockUpdate.Warp _ _, _ => False
          | _, _ => True end) as Hwarp.
  { destruct u; try done. destruct Hq as [Hq|(_ & _ & Hq)]; [|by apply Forall_cons in Hq as [[] _]].
    rewrite Hq in Hw. destruct status; simpl in *; try done; by apply Forall_cons in Hw as [[] _]. }
  destruct u as [from to|n|n h ts bl]; simpl in Ha, Hroom |- *.
  - case_decide as Hp; [|done]. injection Ha as <-. split_and!; [|split; simpl; try done; lia|lia|lia|lia].
    assert (warp_ready status from = true) as ->; [|by rewrite bool_decide_eq_true_2 by lia].
    destruct status; try done; simpl. apply bool_decide_eq_true. simpl in Hpos. naive_solver.
  - destruct pos as [p|]; [|done]. case_decide as Hp; [|done]. injection Ha as <-.
    split_and!; [|split; simpl; try done; lia|lia|lia|done].
    assert (uncle_ready status n = true) as ->; [|done].
    destruct status; simpl in *; try done; apply bool_decide_eq_true; simplify_eq; try lia.
    destruct Hpos as [[= ->] _]. lia.
  - case_decide as Hp; [|done]. injection Ha as <-.
    split_and!; [|split; simpl; try done; lia|lia|lia|lia|done].
    assert (new_ready status n = true) as ->; [|done].
    destruct status; simpl in *; try done; try (apply bool_decide_eq_true; naive_solver).
    destruct Hpos as [_ [k Hk]]. exfalso. destruct Hq as [Hq|(Hq & _)]; rewrite Hk in Hq; done.
Qed.

(** A batch of logs is accepted, and ends the step or leaves the rest of a warp. *)
Lemma logs_accepted s p u s' status :
  progress s p (Ok (Some u)) s' -> update_ok (E := E) u -> status_ok status ->
  match s with
  | Idle => False
  | Warping from to _ _ => status = WarpEvents from to
  | Block number _ _ _ _ => status = BlockEvents number
  end ->
  exists status', accepts status (Update.Logs u) = Some status' /\ status_ok status' /\
    match s' with
    | Idle => exists n, status' = BlockApplied n /\ n = blocks_last u + 1
    | Warping from to _ _ => status' = WarpEvents from to
    | Block _ _ _ _ _ => False
    end /\
    match s with
    | Warping _ to _ _ => match s' with Idle => blocks_last u = to | Warping _ to' _ _ => to' = to | _ => False end
    | _ => s' = Idle
    end.
Proof.
  intros Hp [Hs Hr] Hok Hst. unfold accepts. rewrite Hs, Hr, !andb_true_r.
  destruct s as [|from to pg fe|n h ts bl re]; [done| |]; subst status; simpl in Hp, Hok |- *.
  - destruct Hp as (-> & Hl & ->). unfold is_next_in_range.
    rewrite bool_decide_eq_true_2 by lia. eexists. split; [done|].
    destruct (decide (blocks_last u = to)) as [He|He]; simpl.
    + rewrite decide_False by lia. simpl. split_and!; [lia|lia|by eexists|done].
    + rewrite decide_True by lia. simpl. split_and!; [lia|lia|lia|done|done].
  - destruct Hp as (-> & Hl & ->). unfold is_next_in_range.
    rewrite bool_decide_eq_true_2 by lia. eexists. split; [done|]. simpl.
    split_and!; [lia|lia|by eexists|done].
Qed.

Lemma next_logs_ok w status pos tick r w' tick' :
  watch_ok w status pos -> next_logs w tick = (r, w', tick') ->
  match r with
  | Ok (Some u) => exists status', accepts status (Update.Logs u) = Some status' /\ watch_ok w' status' pos
  | Ok None =>
      stream_for (w_blocks w') status pos /\ event_watcher_ok (w_events w') /\
      step (w_events w') = Idle /\ awaits_block status pos (queue (w_blocks w'))
  | Err _ => watch_ok w' status pos
  end.
Proof.
  intros [Hsf Hev Hin] H. unfold next_logs in H.
  destruct (next_events (w_events w) tick) as [[l ev] t] eqn:Hn.
  pose proof (next_events_spec _ _ _ _ _ Hev Hn) as (_ & Hev' & Hprog & Hu). unfold in_step in Hin.
  destruct l as [[u|]|err].
  - simplify_eq. specialize (Hu u eq_refl).
    destruct (logs_accepted (step (w_events w)) _ u (step ev) status Hprog Hu (sf_room _ _ _ Hsf))
      as (status' & Hacc & Hroom & Hs' & Hs''); [by destruct (step (w_events w)); naive_solver|].
    exists status'. split; [done|].
    assert (no_warps (queue (w_blocks w))) as Hnw.
    { destruct Hsf as [_ _ Hw _]. destruct (step (w_events w)); destruct Hin as [-> _] || done; done. }
    destruct Hsf as [Hb Hst _ _]. split; [split; try done; by apply warps_of_none|done|].
    unfold in_step. simpl. destruct (step (w_events w)) as [|f t1 p1 fe|n h ts bl re]; [done| |].
    + destruct Hin as [-> ->]. destruct (step ev) as [|f' t' p' fe'|]; [|by subst|done].
      destruct Hs' as (n & -> & ->). by subst.
    + destruct Hin as [-> ->]. rewrite Hs'' in Hs' |- *. destruct Hs' as (m & -> & ->).
      destruct Hprog as (_ & Hl & _). by rewrite Hl.
  - simplify_eq. simpl. destruct (step (w_events w)); [|done|done]. simpl in Hprog.
    split_and!; [done|done|done|]. unfold awaits_block. destruct status; try done.
  - assert (exists p, pos = Some p) as [p Hp].
    { destruct (step (w_events w)); [done| |]; destruct Hin as [_ ->]; by eexists. }
    assert (forall b, stream_for b status pos -> watch_ok (MkWatcher b ev) status pos) as Hkeep.
    { intros b Hb. split; [done|done|]. unfold in_step. simpl.
      destruct (step (w_events w)) as [|f t1 p1 fe|n h ts bl re]; [done| |]; simpl in Hprog.
      - destruct Hprog as (p' & fe' & -> & _). done.
      - destruct Hprog as (re' & ->). done. }
    destruct (is_resource_not_found err); [|simplify_eq; by apply Hkeep].
    cbn [w_blocks w_events] in H.
    destruct (revalidate_last_block (w_blocks w) t) as [[inv b] t1] eqn:Hrev.
    pose proof Hsf as [Hb Hst Hw Hroom]. subst pos.
    pose proof (revalidate_spec _ _ _ _ _ _ Hb Hst Hrev) as (_ & Hb' & Hst' & Hinv).
    assert (stream_for b status (Some p)) as Hsf'.
    { split; [done|done| |done]. destruct (revalidate_queue _ _ _ _ _ Hrev) as [[-> _]|(k & h & -> & _)]; [done|].
      apply warps_of_none. by apply Forall_cons. }
    destruct inv as [[[k h]|]|e]; simpl in H; [|simplify_eq; by apply Hkeep|simplify_eq; by apply Hkeep].
    destruct (Hinv k h eq_refl) as [Hq Hk].
    unfold on_block_invalidated in H.
    destruct (step ev) as [|f' t' p' fe'|n h' ts bl re] eqn:Hse; [simplify_eq; by apply Hkeep..|].
    case_decide; simplify_eq; [|by apply Hkeep]. simpl.
    split_and!; [done| |done|].
    + destruct Hev'. by split.
    + destruct (step (w_events w)) as [|f t2 p2 fe|n2 h2 ts2 bl2 re2]; [done|by destruct Hprog as (? & ? & ? & ?)|].
      destruct Hin as [-> [= ->]]. simpl. split; [done|]. by eexists.
Qed.

Lemma next_index_ok fuel w status pos tick r w' tick' :
  watch_ok w status pos -> next_index fuel w tick = Some (r, w', tick') ->
  match r with
  | Ok u => exists status' pos', accepts status u = Some status' /\ watch_ok w' status' pos'
  | Err _ => watch_ok w' status pos
  end.
Proof.
  intros Hok H. unfold next_index in H. destruct (next_logs w tick) as [[l w1] t1] eqn:Hl.
  pose proof (next_logs_ok _ _ _ _ _ _ _ Hok Hl) as Hspec.
  destruct l as [[u|]|e]; [|clear Hok|by simplify_eq].
  { simplify_eq. destruct Hspec as (status' & ? & ?). by eexists _, _. }
  destruct Hspec as (Hsf & Hev & Hst & Haw).
  destruct (next_update fuel (w_blocks w1) t1) as [[[u b] t2]|] eqn:Hn; [|done].
  cbn [mbind option_bind] in H. destruct u as [u|e].
  - destruct (next_update_accepts _ _ _ _ _ _ _ _ Hsf Haw Hn) as (Hacc & Hsf' & Hroom & Hft).
    unfold on_block_update in H. cbn [w_blocks w_events] in H. rewrite Hst in H. simplify_eq.
    exists (after_block u).1, (Some (after_block u).2). split; [done|].
    split; [done| |].
    + destruct Hev as [Htp Hps _]. split; [done|done|]. unfold step_ok. simpl.
      destruct u; simpl in *; [lia|done|tauto].
    + unfold in_step. simpl. by destruct u.
  - simplify_eq. pose proof (next_update_queue _ _ _ _ _ _ Hn) as [Hq Hq'].
    destruct Hsf as [Hb Hs Hw Hr].
    pose proof (next_update_spec _ _ _ _ _ _ _ Hb Hs Hn) as (_ & Hb' & Hs').
    split; [split; [done|done|simpl; by rewrite Hq', <- Hq|done]|done|].
    unfold in_step. simpl. rewrite Hst. destruct status; try done. destruct Haw as [_ [k Hk]]. by rewrite Hk in Hq.
Qed.

(** ** A machine accepts what the protocol accepts *)

(** The watcher and the updates it returned so far. *)
Inductive indexing (blocks : BlocksConfig) (events : EventsConfig) (addresses : list Z)
    (indexed : option BlockStatus) : Watcher -> list (Update.t E) -> Prop :=
| Indexing_new fuel tick w tick' :
    new_index fuel blocks events addresses indexed tick = Some (Ok w, tick') ->
    indexing blocks events addresses indexed w []
| Indexing_next fuel tick w us u w' tick' :
    indexing blocks events addresses indexed w us ->
    next_index fuel w tick = Some (Ok u, w', tick') ->
    indexing blocks events addresses indexed w' (us ++ [u])
| Indexing_error fuel tick w us e w' tick' :
    indexing blocks events addresses indexed w us ->
    next_index fuel w tick = Some (Err e, w', tick') ->
    indexing blocks events addresses indexed w' us.

(** The status of a machine that starts over a persisted range. *)
Definition start_status (indexed : option BlockStatus) : Status :=
  match indexed with Some i => BlockPending (latest i + 1) | None => Initialized end.

Fixpoint accepts_all (status : Status) (us : list (Update.t E)) : option Status :=
  match us with
  | [] => Some status
  | u :: us => status ← accepts status u; accepts_all status us
  end.

Lemma accepts_all_app status us us' :
  accepts_all status (us ++ us') = accepts_all status us ≫= fun s => accepts_all s us'.
Proof.
  revert status. induction us as [|u us IH]; intros status; [done|]. cbn [accepts_all app].
  destruct (accepts status u) as [s|]; [apply IH|done].
Qed.

(** What the configuration and the persisted range must satisfy. *)
Record index_ready (blocks : BlocksConfig) (events : EventsConfig) (indexed : option BlockStatus)
    : Prop := {
  ready_depth : 0 <= max_reorg_depth blocks;
  ready_page : 1 <= block_page_size events;
  ready_topics : NoDup (topics (E := E));
  ready_latest : match indexed with Some i => latest i < u64_max | None => True end;
  ready_range tick b :
    node_block tick LatestBlock = Ok (Some b) -> resumable blocks indexed (bh_number b)
}.

Lemma new_index_ok blocks events addresses indexed fuel tick w tick' :
  index_ready blocks events indexed ->
  new_index fuel blocks events addresses indexed tick = Some (Ok w, tick') ->
  watch_ok w (start_status indexed) (resume_position indexed).
Proof.
  intros [Hd Hp Ht Hl Hr] H. unfold new_index in H.
  destruct (new_watcher fuel blocks indexed tick) as [[b t]|] eqn:Hn; [|done].
  cbn [mbind option_bind] in H. destruct b as [b|e]; [|done]. simplify_eq.
  pose proof (new_watcher_queue _ _ _ _ _ _ Hn) as Hw.
  assert (exists tick1 h, node_block tick1 LatestBlock = Ok (Some h)) as (tick1 & h & Hh).
  { unfold new_watcher, initialize in Hn. destruct (timings blocks chain_id); [|done].
    destruct (require_block tick LatestBlock) as [[h|e] t1] eqn:Hreq; [|done].
    apply require_block_spec in Hreq as (_ & Hh & _). eauto. }
  specialize (Hr _ _ Hh) as Hrh.
  apply new_watcher_ok in Hn as [Hok Hs]; [|done|done].
  split; [split; simpl; try done|by split|].
  - by destruct indexed.
  - destruct indexed as [i|]; simpl; [|done]. destruct Hrh as [? _]. lia.
  - unfold in_step. simpl. by destruct indexed.
Qed.

Lemma indexing_ok blocks events addresses indexed w us :
  index_ready blocks events indexed -> indexing blocks events addresses indexed w us ->
  exists status pos, accepts_all (start_status indexed) us = Some status /\ watch_ok w status pos.
Proof.
  intros Hr. induction 1 as [fuel tick w tick' H|fuel tick w us u w' tick' _ IH H
    |fuel tick w us e w' tick' _ IH H].
  - eexists _, _. split; [done|]. by eapply new_index_ok.
  - destruct IH as (status & pos & Ha & Hok).
    pose proof (next_index_ok _ _ _ _ _ _ _ _ Hok H) as (status' & pos' & Hu & Hok').
    exists status', pos'. split; [|done]. rewrite accepts_all_app, Ha. cbn. by rewrite Hu.
  - destruct IH as (status & pos & Ha & Hok).
    pose proof (next_index_ok _ _ _ _ _ _ _ _ Hok H) as Hok'. by exists status, pos.
Qed.

Context {S Action Effect Resume : Type} {ST : StateTransition S E Action Effect Resume} {SER : Serde S}.

(** What the update of a machine may come to: the status the protocol expects, or
    an error of the storage. *)
Definition taken (status' : Status)
    (r : result MachineError (S * Status * gmap Z Json * list (Command.t Action Effect))) : Prop :=
  match r with Ok (_, status, _, _) => status = status' | Err e => out_of_order e = false end.

Lemma handle_logs_taken sn (state : S) status (u : EventUpdate E) status' :
  status_ok status -> accepts status (Update.Logs u) = Some status' ->
  taken status' (handle_logs sn state status u).
Proof.
  intros Hok Ha. unfold accepts in Ha.
  destruct (logs_ready _ _ _) eqn:Hr; [|done].
  destruct (is_sorted (logs u)) eqn:Hs; [|done].
  destruct (forallb _ (logs u)) eqn:Hf; [|done]. cbn [andb] in Ha. injection Ha as Ha.
  unfold handle_logs. rewrite Hs, Hf. cbn [negb orb].
  destruct (apply_blocks _ _ _ _ _) as [st cmds].
  assert (forall n, status' ≠ BlockPending n) as Hnp.
  { intros n. subst status'. destruct status; try done. by case_decide. }
  assert (forall P : result MachineError Status, P = Ok match status' with BlockApplied n => BlockPending n | s => s end ->
    taken status' (status ← P; snapshots ← map_err Storage (commit sn (blocks_last u) st);
      match status with
      | BlockPending pending =>
          let '(state, commands) := accumulate_transition st cmds (Message.NewBlock pending) in
          Ok (state, BlockApplied pending, snapshots, commands)
      | _ => Ok (st, status, snapshots, cmds)
      end)) as Hgo.
  { intros P ->. cbn [mbind result_bind]. destruct (commit _ _ _) as [sn'|e]; [|done]. cbn.
    destruct status' as [|n| | |]; try done; [by destruct (Hnp n)|].
    by destruct (accumulate_transition _ _ _). }
  apply Hgo. unfold next_block, checked_add.
  destruct status as [|n|n|n|from to]; try done; apply bool_decide_eq_true in Hr; simpl in Hok.
  - rewrite decide_True by lia. by subst.
  - destruct (decide (blocks_last u < to)); subst; rewrite decide_True by lia; [|done].
    cbn [mbind result_bind ok_or]. unfold block_range. by rewrite decide_True by lia.
Qed.

Lemma try_update_taken sn (state : S) status (u : Update.t E) status' :
  status_ok status -> accepts status u = Some status' -> taken status' (try_update sn state status u).
Proof.
  intros Hok Ha. destruct u as [[from to|n|n h ts bl]|u]; unfold accepts in Ha.
  - unfold try_update. destruct (warp_ready _ _); [|done]. case_bool_decide; [|done].
    injection Ha as <-. unfold block_range. by rewrite decide_True by done.
  - unfold try_update. destruct (uncle_ready _ _); [|done]. injection Ha as <-.
    by destruct (reorg sn n) as [[sn' [b st]]|e].
  - unfold try_update. destruct (new_ready _ _); [|done]. injection Ha as <-.
    destruct status; try done; by destruct (apply_transition _ _).
  - pose proof (handle_logs_taken sn state status u status' Hok Ha) as H.
    unfold try_update. destruct (logs_ready _ _ _); [exact H|done].
Qed.

(** A machine takes an accepted update, unless its storage fails. *)
Lemma accepted_update (m : StateMachine (S := S)) state status u status' :
  inner m = Some (state, status) -> status_ok status -> accepts status u = Some status' ->
  match handle_update m u with
  | (m', Ok _) => exists state', inner m' = Some (state', status')
  | (_, Err e) => out_of_order e = false
  end.
Proof.
  intros Hi Hok Ha. unfold handle_update. rewrite Hi.
  pose proof (try_update_taken (snapshots m) state status u status' Hok Ha) as H.
  destruct (try_update _ _ _ _) as [[[[st' status1] sn] cmds]|e]; simpl in H |- *; [|done].
  subst. by eexists.
Qed.

(** A machine given updates in order, with resumes between them, until the first
    error. *)
Inductive MachineInput := FromWatcher (u : Update.t E) | FromEffect (r : Resume).

Definition handle_input (m : StateMachine (S := S)) (i : MachineInput) :=
  match i with FromWatcher u => handle_update m u | FromEffect r => handle_resume m r end.

Fixpoint feed (m : StateMachine (S := S)) (inputs : list MachineInput)
    : StateMachine (S := S) * result MachineError unit :=
  match inputs with
  | [] => (m, Ok ())
  | i :: inputs =>
      let '(m, r) := handle_input m i in
      match r with Ok _ => feed m inputs | Err e => (m, Err e) end
  end.

Definition updates_of (inputs : list MachineInput) : list (Update.t E) :=
  omap (fun i => match i with FromWatcher u => Some u | FromEffect _ => None end) inputs.

Lemma feed_app m i1 i2 :
  feed m (i1 ++ i2) =
    match feed m i1 with (m, Ok _) => feed m i2 | (m, Err e) => (m, Err e) end.
Proof.
  revert m. induction i1 as [|i i1 IH]; intros m; [done|]. cbn [feed app].
  destruct (handle_input m i) as [m' [cmds|e]]; [apply IH|done].
Qed.

Lemma feed_resumes m inputs state status :
  inner m = Some (state, status) -> updates_of inputs = [] ->
  exists m' state', feed m inputs = (m', Ok ()) /\ inner m' = Some (state', status).
Proof.
  revert m state. induction inputs as [|[u|r] inputs IH]; intros m state Hi Hu; [by eexists _, _|done|].
  cbn [feed handle_input]. unfold handle_resume. rewrite Hi.
  destruct (apply_transition state _) as [st cmds]. by eapply IH.
Qed.

Lemma updates_of_snoc inputs us u :
  updates_of inputs = us ++ [u] ->
  exists i1 i2, inputs = i1 ++ FromWatcher u :: i2 /\ updates_of i1 = us /\ updates_of i2 = [].
Proof.
  revert us. induction inputs as [|[v|r] inputs IH]; intros us H; [by destruct us|..].
  - unfold updates_of in H. simpl in H. destruct us as [|v' us].
    + injection H as -> H. by exists [], inputs.
    + injection H as -> H. destruct (IH us H) as (i1 & i2 & -> & <- & ?). by exists (FromWatcher v' :: i1), i2.
  - destruct (IH us H) as (i1 & i2 & -> & <- & ?). by exists (FromEffect r :: i1), i2.
Qed.

(** A machine fed by the watcher is in the step of the watcher, or its storage
    failed. *)
Lemma fed_ok blocks events addresses indexed w us (m : StateMachine (S := S)) state inputs :
  index_ready blocks events indexed -> indexing blocks events addresses indexed w us ->
  inner m = Some (state, start_status indexed) -> updates_of inputs = us ->
  match feed m inputs with
  | (m', Ok _) => exists state' status pos, inner m' = Some (state', status) /\ watch_ok w status pos
  | (_, Err e) => out_of_order e = false
  end.
Proof.
  intros Hr Hw Hi. revert inputs. induction Hw as [fuel tick w tick' H|fuel tick w us u w' tick' _ IH H
    |fuel tick w us e w' tick' _ IH H]; intros inputs Hu.
  - destruct (feed_resumes m inputs state _ Hi Hu) as (m' & st' & -> & Hm').
    eexists _, _, _. split; [done|]. by eapply new_index_ok.
  - destruct (updates_of_snoc _ _ _ Hu) as (i1 & i2 & -> & Hi1 & Hi2). specialize (IH i1 Hi1).
    rewrite feed_app. destruct (feed m i1) as [m1 [[]|e]]; [|done].
    destruct IH as (st1 & status & pos & Hm1 & Hok). cbn [feed handle_input].
    pose proof (next_index_ok _ _ _ _ _ _ _ _ Hok H) as (status' & pos' & Hacc & Hok').
    pose proof (accepted_update m1 st1 status u status' Hm1 (sf_room _ _ _ (wo_stream _ _ _ Hok)) Hacc) as Hupd.
    destruct (handle_update m1 u) as [m2 [cmds|e]]; [|done]. destruct Hupd as [st2 Hm2].
    destruct (feed_resumes m2 i2 st2 _ Hm2 Hi2) as (m3 & st3 & -> & Hm3). by eexists _, _, _.
  - specialize (IH inputs Hu). destruct (feed m inputs) as [m1 [[]|e']]; [|done].
    destruct IH as (st1 & status & pos & Hm1 & Hok).
    pose proof (next_index_ok _ _ _ _ _ _ _ _ Hok H). by exists st1, status, pos.
Qed.

End Watch.
