(* ===== verification/Anchors.v ===== *)
(** Where a rollback lands: the snapshots the machine holds while it follows the
    watcher. The watcher uncles the block its consumer saw last, or, first of all
    after a restart, everything past the oldest snapshot; the machine commits a
    snapshot at every block, and collects those below the watcher's safe block. So
    the anchor of every uncle is there, but that of the first block ever followed. *)

From S2P Require Import Prelude Messages Snapshots StateMachine Node Blocks Events Watch.

(** ** The block watcher's uncles *)

Definition no_uncles (q : list BlockUpdate.t) : Prop :=
  Forall (fun u => match u with BlockUpdate.Uncle _ => False | _ => True end) q.

(** Without uncles a stream only moves forward. *)
Lemma follow_forward p q p' : no_uncles q -> follow (Some p) q = Some (Some p') -> p <= p'.
Proof.
  revert p. induction q as [|u q IH]; intros p Hq Hf; [by simplify_eq/=|].
  apply Forall_cons in Hq as [Hu Hq]. cbn [follow] in Hf. destruct u as [from to|n|n h ts bl]; [|done|]; cbn [advance] in Hf.
  - case_decide as Hd; [|done]. apply IH in Hf; [|done]. destruct Hd as [[?|[= ->]] ?]; [done|lia].
  - case_decide as Hd; [|done]. apply IH in Hf; [|done]. destruct Hd as [?|[= ->]]; [done|lia].
Qed.

(** [rposition] is the last such block. *)
Lemma rposition_none number l :
  rposition number l = None -> Forall (fun c => exists n, number = Some n /\ n <= bh_number c) l.
Proof.
  induction l as [|b l IH]; intros Hr; [constructor|]. cbn [rposition] in Hr.
  destruct (rposition number l); [done|]. destruct number as [n|]; [|done].
  case_bool_decide; [done|]. constructor; [exists n; split; [done|lia]|by apply IH].
Qed.

Lemma rposition_last number l i c :
  rposition number l = Some i -> l !! Datatypes.S i = Some c ->
  exists n, number = Some n /\ n <= bh_number c.
Proof.
  revert i. induction l as [|b l IH]; intros i Hr Hc; [done|]. cbn [rposition] in Hr.
  destruct (rposition number l) as [j|] eqn:E; simplify_eq/=; [by eapply IH|].
  assert (i = 0%nat) as -> by (destruct number; [case_bool_decide|]; by simplify_eq).
  apply rposition_none in E. by apply (Forall_lookup_1 _ _ _ _ E) in Hc.
Qed.

Section Anchors.
Context {NODE : Node} {E : Type} {EV : Events E} {LAWS : NodeLaws} {LOGS : LogLaws}.

(** A block found invalid is the one before the consumer's position. *)
Lemma revalidate_cases b tick p r b' tick' :
  watcher_ok b -> stream_ok b (Some p) -> no_uncles (tail (queue b)) ->
  revalidate_last_block b tick = (r, b', tick') ->
  b' = b \/
  queue b' = [BlockUpdate.Uncle (p - 1)] /\ bw_safe b' = bw_safe b /\ pending_number (bw_pending b') = p - 1 /\
    safe_number (bw_safe b) < p - 1 /\ match queue b with BlockUpdate.Uncle _ :: _ => False | _ => True end.
Proof.
  intros Hok Hs Hnu H. unfold revalidate_last_block in H.
  destruct (next_number b) as [nn|] eqn:En; [|simplify_eq; by left].
  destruct (rposition nn (recent b) ≫= _) as [[i c]|] eqn:Er; [|simplify_eq; by left].
  apply bind_Some in Er as (j & Hj & Er). apply fmap_Some in Er as (c' & Hi & [= -> <-]).
  destruct (get_block tick _) as [[cur|e] t]; [|simplify_eq; by left].
  case_decide; [simplify_eq; by left|]. simplify_eq. right. cbn [queue with_queue bw_safe with_pending with_recent bw_pending].
  pose proof (linked_lookup _ _ _ _ _ (ok_linked b Hok) Hi) as Hn. pose proof (ok_pending b Hok) as Hp.
  pose proof (lookup_lt_Some _ _ _ Hi) as Hlt.
  assert (bh_number c = p - 1) as Hc; [|rewrite Hc; split_and!; [done|done|done|lia|]].
  - unfold next_number in En. destruct (queue b) as [|u q] eqn:Hq.
    + injection En as <-. apply stream_ok_empty in Hs as [[= ->]|[? _]]; [|done|done].
      destruct (recent b !! Datatypes.S j) as [d|] eqn:Ed.
      { destruct (rposition_last _ _ _ _ Hj Ed) as (n & ? & _). done. }
      apply lookup_ge_None in Ed. lia.
    + destruct u as [| |n h ts bl]; try done. injection En as <-. pose proof (rposition_spec _ _ _ _ Hj Hi n eq_refl) as Hnlt.
      destruct Hs as [Hs|(? & _)]; [|done]. rewrite Hq in Hs. cbn [follow advance] in Hs. case_decide as Hd; [|done].
      destruct Hd as [?|[= ->]]; [done|]. cbn [mbind option_bind] in Hs. apply follow_forward in Hs; [|done].
      destruct (recent b !! Datatypes.S j) as [d|] eqn:Ed.
      * destruct (rposition_last _ _ _ _ Hj Ed) as (n' & [= <-] & Hle).
        pose proof (linked_lookup _ _ _ _ _ (ok_linked b Hok) Ed). lia.
      * apply lookup_ge_None in Ed. lia.
  - unfold next_number in En. destruct (queue b) as [|[] q]; done.
Qed.

(** ** Where a rollback lands *)

Section Rollbacks.
Context {J : Type}.

(** Every block of [lo .. hi - 1] has a snapshot. *)
Definition covered (lo hi : Z) (sn : gmap Z J) : Prop := forall k, lo <= k < hi -> is_Some (sn !! k).

(** The block before which the machine keeps nothing: the oldest snapshot, or the
    first block to follow over a fresh database. *)
Definition origin (indexed : option BlockStatus) (b : BlockWatcher) : Z :=
  match indexed, queue b with
  | Some i, _ => Messages.safe i
  | None, BlockUpdate.New n _ _ _ :: _ | None, BlockUpdate.Warp n _ :: _ => n
  | None, _ => pending_number (bw_pending b)
  end.

Definition starts_uncled (q : list BlockUpdate.t) : Prop :=
  match q with BlockUpdate.Uncle _ :: _ => True | _ => False end.

(** The number of a queued update fits the database; a warp is of safe blocks. *)
Definition number_fits (safe : Z) (u : BlockUpdate.t) : Prop :=
  match u with
  | BlockUpdate.Warp _ to => to <= safe
  | BlockUpdate.Uncle n | BlockUpdate.New n _ _ _ => n <= i64_max
  end.

(** What is queued fits the database, and a warp ends at the safe block. *)
Record queue_ok (b : BlockWatcher) : Prop := {
  qo_pending : pending_number (bw_pending b) <= i64_max + 1;
  qo_numbers : Forall (number_fits (safe_number (bw_safe b))) (queue b);
  qo_tail : no_uncles (tail (queue b))
}.

(** The blocks below the next one have snapshots, from the safe block up. *)
Definition next_covered (first safe : Z) (status : Status) (sn : gmap Z J) : Prop :=
  match status with
  | Initialized => True
  | BlockPending n | BlockApplied n => first < n /\ covered (Z.max safe first) n sn
  | BlockEvents n => first <= n /\ covered (Z.max safe first) n sn
  | WarpEvents _ _ => True
  end.

(** The parent of the block to roll back has a snapshot, unless it is the first. *)
Definition anchor_at (first safe n : Z) (sn : gmap Z J) : Prop :=
  is_Some (sn !! (n - 1)) \/ (n = first /\ safe < first).

Definition uncle_covered (first safe u : Z) (status : Status) (sn : gmap Z J) : Prop :=
  1 <= u /\ first <= u /\ anchor_at first safe u sn /\ covered (Z.max safe first) u sn /\
  match status with BlockPending _ => True | _ => safe < u end.

Definition status_fits (first safe : Z) (status : Status) : Prop :=
  match status with
  | BlockEvents n => first <= n <= i64_max
  | WarpEvents from to => first <= from /\ to <= safe
  | _ => True
  end.

(** The machine's snapshots, behind the block watcher. *)
Record rolls_back (first : Z) (b : BlockWatcher) (status : Status) (sn : gmap Z J) : Prop := {
  rb_queue : queue_ok b;
  rb_below k : k < first -> sn !! k = None;
  rb_start : status = Initialized -> sn = ∅ /\ origin None b = first /\ ~ starts_uncled (queue b);
  rb_status : status_fits first (safe_number (bw_safe b)) status;
  rb_next : match queue b with
    | BlockUpdate.Uncle u :: _ => uncle_covered first (safe_number (bw_safe b)) u status sn
    | _ => next_covered first (safe_number (bw_safe b)) status sn
    end
}.

Lemma covered_mono lo lo' hi (sn sn' : gmap Z J) :
  covered lo hi sn -> lo <= lo' -> (forall k, lo' <= k < hi -> is_Some (sn !! k) -> is_Some (sn' !! k)) -> covered lo' hi sn'.
Proof. intros Hc Hlo Hsub k Hk. apply Hsub; [done|]. apply Hc. lia. Qed.

Lemma covered_insert lo hi n j (sn : gmap Z J) : covered lo hi sn -> covered lo hi (<[n := j]> sn).
Proof.
  intros Hc. eapply covered_mono; [done|lia|]. intros k _ Hk. destruct (decide (n = k)) as [->|Hne].
  - by rewrite lookup_insert_eq.
  - by rewrite lookup_insert_ne.
Qed.

Lemma covered_snoc lo n j (sn : gmap Z J) : covered lo n sn -> covered lo (n + 1) (<[n := j]> sn).
Proof.
  intros Hc k Hk. destruct (decide (n = k)) as [->|Hne]; [by rewrite lookup_insert_eq|].
  rewrite lookup_insert_ne by done. apply Hc. lia.
Qed.

(** Nothing but the head of the queue, the safe and the pending block matters. *)
Lemma rolls_back_same first b b' status sn :
  queue b' = queue b -> bw_safe b' = bw_safe b -> pending_number (bw_pending b') = pending_number (bw_pending b) ->
  rolls_back first b status sn -> rolls_back first b' status sn.
Proof.
  intros Hq Hs Hp [[H1 H2 H3] H4 H5 H6 H7]. unfold origin in *. split; [split|..]; rewrite ?Hq, ?Hs, ?Hp; try done.
  intros Hi. destruct (H5 Hi) as (? & ? & ?). unfold origin. by rewrite Hq, Hp.
Qed.

(** Collecting what is below the safe block loses no anchor, once nothing but the
    safe block and what follows can be uncled. *)
Lemma rolls_back_prune first b status sn sn' :
  rolls_back first b status sn -> (starts_uncled (queue b) -> match status with BlockPending _ => False | _ => True end) ->
  (forall k, safe_number (bw_safe b) <= k -> sn' !! k = sn !! k) ->
  (forall k j, sn' !! k = Some j -> sn !! k = Some j) -> rolls_back first b status sn'.
Proof.
  intros [Hq Hb Hst Hf Hn] Hu Hk Hsub.
  assert (forall lo hi, safe_number (bw_safe b) <= lo -> covered lo hi sn -> covered lo hi sn') as Hcov.
  { intros lo hi Hlo Hc k Hr. rewrite Hk by lia. by apply Hc. }
  assert (forall k, sn !! k = None -> sn' !! k = None) as Hnone.
  { intros k Hnone. destruct (sn' !! k) eqn:Es; [|done]. apply Hsub in Es. congruence. }
  split; [done|auto| |done|].
  - intros Hi. destruct (Hst Hi) as (-> & ? & ?). split; [|done]. apply map_eq. intros k. rewrite lookup_empty.
    by apply Hnone.
  - destruct (queue b) as [|[from to|u|n h ts bl] q]; simpl in Hu;
      try (destruct status; simpl in *; try done; destruct Hn as [? ?]; (split; [done|apply Hcov; [lia|done]])).
    destruct Hn as (H1 & H2 & Ha & Hc & Hs). split; [done|]. split; [done|]. split; [|split; [apply Hcov; [lia|done]|done]].
    destruct Ha as [Ha|Ha]; [left|by right]. destruct status; try done; try (rewrite Hk by lia; done).
Qed.

(** ** What a block update leaves *)

(** The numbers of the node's blocks fit the database. *)
Definition blocks_storable : Prop := forall tick id b, node_block tick id = Ok (Some b) -> bh_number b <= i64_max.

(** The snapshots after a block update; what a rollback needs. *)
Definition block_leaves (first : Z) (b' : BlockWatcher) (u : BlockUpdate.t) (sn : gmap Z J) : Prop :=
  ~ starts_uncled (queue b') /\
  match u with
  | BlockUpdate.Uncle n =>
      1 <= n <= i64_max /\ anchor_at first (safe_number (bw_safe b')) n sn /\
      (is_Some (sn !! (n - 1)) -> rolls_back first b' (BlockPending n) (filter (fun e : Z * J => ¬ n <= e.1) sn))
  | _ => rolls_back first b' (after_block u).1 sn
  end.

Lemma not_uncled q : no_uncles q -> ~ starts_uncled q.
Proof. intros Hq. destruct q as [|[] q]; simpl; try tauto. by apply Forall_cons in Hq as [[] _]. Qed.

Lemma next_covered_at first b status (sn : gmap Z J) :
  rolls_back first b status sn -> ~ starts_uncled (queue b) -> next_covered first (safe_number (bw_safe b)) status sn.
Proof. intros [_ _ _ _ Hn] Hu. destruct (queue b) as [|[] q]; try done. Qed.

(** The rolled back store. *)
Lemma rolls_back_uncled first b b' status n (sn : gmap Z J) :
  rolls_back first b status sn -> queue_ok b' -> ~ starts_uncled (queue b') ->
  covered (Z.max (safe_number (bw_safe b')) first) n sn -> is_Some (sn !! (n - 1)) ->
  rolls_back first b' (BlockPending n) (filter (fun e : Z * J => ¬ n <= e.1) sn).
Proof.
  intros Hrb Hq Hu Hc Hn. split; [done| |done|done|].
  - intros k Hk. apply map_lookup_filter_None. left. by apply (rb_below _ _ _ _ Hrb).
  - assert (next_covered first (safe_number (bw_safe b')) (BlockPending n) (filter (fun e : Z * J => ¬ n <= e.1) sn)) as Hnext;
      [|destruct (queue b') as [|[] q]; try done].
    split.
    + destruct (decide (first < n)) as [?|Hf]; [done|]. rewrite (rb_below _ _ _ _ Hrb) in Hn by lia. by destruct Hn.
    + eapply covered_mono; [exact Hc|done|]. intros k Hk [j Hj]. exists j. apply map_lookup_filter_Some.
      split; [done|]. simpl. lia.
Qed.

(** A queued update. *)
Lemma queued_leaves first b status pos u q (sn : gmap Z J) :
  rolls_back first b status sn -> awaits_block status pos (queue b) -> queue b = u :: q ->
  accepts (E := E) status (Update.Block u) = Some (after_block u).1 ->
  block_leaves first (with_queue b q) u sn.
Proof.
  intros Hrb Haw Hq Hacc. destruct Hrb as [Hqo Hb Hst Hf Hn] eqn:Eqrb. clear Eqrb.
  pose proof Hqo as [Hp Hnum Htl]. rewrite Hq in *. apply Forall_cons in Hnum as [Hu Hnum]. cbn [tail] in Htl.
  assert (queue_ok (with_queue b q)) as Hqo'.
  { split; [done|done|]. destruct q; [constructor|]. by apply Forall_cons in Htl as [_ ?]. }
  assert (~ starts_uncled q) as Hnu by by apply not_uncled.
  split; [done|]. destruct u as [from to|n|n h ts bl]; cbn [after_block fst] in *.
  - assert (first <= from) as Hfr.
    { unfold accepts in Hacc. destruct status as [|m| | |]; cbn [warp_ready andb] in Hacc; try done.
      - destruct (Hst eq_refl) as (_ & Ho & _). unfold origin in Ho. rewrite Hq in Ho. lia.
      - case_bool_decide; [|done]. simpl in Hn. lia. }
    split; [done|done|done|done|]. cbn [queue with_queue]. destruct q as [|[] q]; try done.
  - destruct Hn as (H1 & H2 & Ha & Hc & _). split; [done|]. split; [done|]. intros Hs.
    by apply (rolls_back_uncled first b _ status).
  - assert (first <= n /\ covered (Z.max (safe_number (bw_safe b)) first) n sn) as Hnext.
    { unfold accepts in Hacc. destruct status as [|m|m|m|]; cbn [new_ready] in Hacc; try done.
      - destruct (Hst eq_refl) as (_ & Ho & _). unfold origin in Ho. rewrite Hq in Ho. subst. split; [lia|intros k ?; lia].
      - case_bool_decide; [|done]. subst. destruct Hn as [? ?]. split; [lia|done].
      - case_bool_decide; [|done]. subst. destruct Hn as [? ?]. split; [lia|done]. }
    split; [done|done|done|split; [apply Hnext|done]|].
    cbn [queue with_queue]. destruct q as [|[] q]; try done.
Qed.

Lemma queue_ok_empty b : queue b = [] -> pending_number (bw_pending b) <= i64_max + 1 -> queue_ok b.
Proof. intros Hq Hp. split; rewrite ?Hq; [done|constructor..]. Qed.

Lemma extend_shape b block :
  watcher_ok b -> bh_number block = pending_number (bw_pending b) -> header_ok block ->
  let r := extend_chain b block in
  r.1 = new_update block /\ queue r.2 = queue b /\
  pending_number (bw_pending r.2) = bh_number block + 1 /\ safe_number (bw_safe b) <= safe_number (bw_safe r.2).
Proof.
  intros Hok Hb [Hw _]. unfold extend_chain. cbn [fst snd].
  assert (wrap_u64 (bh_number block + 1) = bh_number block + 1) as Hwr by (apply wrap_u64_small; unfold is_u64; lia).
  assert (forall ev r, recent b ++ [block] = ev :: r -> bh_number ev = safe_number (bw_safe b) + 1) as Hev.
  { intros ev r He. destruct (recent b) as [|c l] eqn:El; injection He as <- _.
    - rewrite Hb, (ok_pending b Hok), El. simpl. lia.
    - pose proof (ok_linked b Hok) as Hl. rewrite El in Hl. by destruct Hl as [-> _]. }
  cbn [with_pending with_recent recent bw_config bw_safe]. case_decide as Hd; [|simpl; split_and!; [done|done|done|lia]].
  destruct (recent b ++ [block]) as [|ev r] eqn:El; [simpl; split_and!; [done|done|done|lia]|].
  specialize (Hev ev r eq_refl). simpl. split_and!; [done|done|done|lia].
Qed.

Lemma await_served fuel b retry tick block b' tick' :
  await fuel b retry tick = Some (Ok block, b', tick') -> exists t id, node_block t id = Ok (Some block).
Proof.
  revert b retry tick. induction fuel as [|fuel IH]; intros b retry tick H; [done|]. cbn [await] in H.
  unfold get_block in H. destruct (node_block tick _) as [[c|]|e] eqn:En; cbn [map_err] in H.
  - simplify_eq. eauto.
  - destruct (block_retry_delays _ !! _); by apply IH in H.
  - done.
Qed.

(** With nothing queued, the blocks below the pending one are covered. *)
Lemma pending_covered first b status pos (sn : gmap Z J) :
  stream_ok b pos -> awaits_block status pos (queue b) -> rolls_back first b status sn -> queue b = [] ->
  first <= pending_number (bw_pending b) /\ (recent b <> [] -> first < pending_number (bw_pending b)) /\
  covered (Z.max (safe_number (bw_safe b)) first) (pending_number (bw_pending b)) sn.
Proof.
  intros Hs Haw [_ _ Hstart _ Hn] Hq. rewrite Hq in Hn, Haw. pose proof (stream_ok_empty b pos Hs Hq) as Hpos.
  destruct status as [|m|m|m|]; cbn [awaits_block next_covered] in *; try done.
  - destruct (Hstart eq_refl) as (_ & Ho & _). unfold origin in Ho. rewrite Hq in Ho.
    destruct Hpos as [?|[_ Hr]]; [congruence|]. split; [lia|]. split; [done|]. intros k ?. lia.
  - destruct Hpos as [Hpos|[? _]]; [|congruence]. assert (m = pending_number (bw_pending b)) as <- by congruence.
    destruct Hn. split; [lia|]. by split.
  - destruct Hpos as [Hpos|[? _]]; [|congruence]. assert (m = pending_number (bw_pending b)) as <- by congruence.
    destruct Hn. split; [lia|]. by split.
  - destruct Haw as [_ [k Hk]]. done.
Qed.

(** A new block extends the chain. *)
Lemma extend_leaves first b block status (sn : gmap Z J) :
  watcher_ok b -> queue b = [] -> bh_number block = pending_number (bw_pending b) -> header_ok block ->
  bh_number block <= i64_max -> rolls_back first b status sn -> first <= bh_number block ->
  covered (Z.max (safe_number (bw_safe b)) first) (bh_number block) sn ->
  let r := extend_chain b block in
  safe_number (bw_safe b) <= safe_number (bw_safe r.2) /\ block_leaves first r.2 r.1 sn.
Proof.
  intros Hok Hq Hb Hh Hst Hrb Hf Hc r. destruct (extend_shape b block Hok Hb Hh) as (Hu & Hq' & Hp & Hsafe). fold r in Hu, Hq', Hp, Hsafe.
  split; [done|]. unfold block_leaves. rewrite Hu, Hq', Hq. split; [intros []|]. cbn [new_update after_block fst].
  split; [apply queue_ok_empty; [by rewrite Hq'|lia]|apply Hrb|done|done|]. rewrite Hq', Hq.
  split; [done|]. eapply covered_mono; [done|lia|done].
Qed.

(** The last block is uncled. *)
Lemma uncle_leaves first b status sn last ts :
  watcher_ok b -> queue b = [] -> recent b !! (length (recent b) - 1)%nat = Some last -> rolls_back first b status sn ->
  first < pending_number (bw_pending b) ->
  covered (Z.max (safe_number (bw_safe b)) first) (pending_number (bw_pending b)) sn ->
  block_leaves first
    (with_pending (with_recent b (take (length (recent b) - 1) (recent b))) (MkPendingBlock (bh_number last) ts))
    (BlockUpdate.Uncle (bh_number last)) sn.
Proof.
  intros Hok Hq Hl Hrb Hf Hc. pose proof (linked_lookup _ _ _ _ _ (ok_linked b Hok) Hl) as Hnl.
  pose proof (lookup_lt_Some _ _ _ Hl) as Hlt. pose proof (ok_pending b Hok) as Hpend. pose proof (ok_safe b Hok).
  pose proof (qo_pending b (rb_queue _ _ _ _ Hrb)) as Hpb.
  unfold block_leaves. cbn [queue with_pending with_recent bw_safe]. rewrite Hq. split; [intros []|].
  split; [lia|]. split.
  { destruct (decide (bh_number last = first)) as [He|Hne]; [right; split; [done|lia]|left; apply Hc; lia]. }
  apply (rolls_back_uncled first b _ status); [done|apply queue_ok_empty; [done|cbn [bw_pending with_pending with_recent pending_number]; lia]
    |cbn [queue with_pending with_recent]; rewrite Hq; intros []|].
  cbn [bw_safe with_pending with_recent]. intros k Hk. apply Hc. lia.
Qed.

(** An update that is not queued. *)
Lemma computed_leaves first fuel b status pos tick u b' tick' (sn : gmap Z J) :
  blocks_storable -> stream_for b status pos -> awaits_block status pos (queue b) -> rolls_back first b status sn ->
  queue b = [] -> next_update fuel b tick = Some (Ok u, b', tick') ->
  safe_number (bw_safe b) <= safe_number (bw_safe b') /\ block_leaves first b' u sn.
Proof.
  intros Hst [Hok Hs _ _] Haw Hrb Hq H. pose proof (pending_covered _ _ _ _ _ Hs Haw Hrb Hq) as (Hf & Hf' & Hc).
  unfold next_update in H. rewrite Hq in H.
  destruct (await _ _ _ _) as [[[block b1] t]|] eqn:Ha; [|done]. cbn [mbind option_bind] in H.
  pose proof (await_spec _ _ _ _ _ _ _ Ha) as [[ms Hb1] Hblk]. destruct block as [block|e]; [|done].
  destruct (await_served _ _ _ _ _ _ _ Ha) as (t1 & id & Hserved%Hst). destruct (Hblk _ eq_refl) as [Hnum Hhd]. clear Ha Hblk.
  assert (watcher_ok b1) as Hok1 by (subst b1; by destruct Hok).
  assert (bw_safe b1 = bw_safe b /\ queue b1 = [] /\ recent b1 = recent b /\
    pending_number (bw_pending b1) = pending_number (bw_pending b)) as (Hs1 & Hq1 & Hr1 & Hp1) by by subst b1.
  assert (rolls_back first b1 status sn) as Hrb1 by (eapply rolls_back_same; [..|exact Hrb]; congruence).
  clear Hb1. rewrite <- Hs1, <- Hp1 in *. rewrite <- Hr1 in *.
  pose proof (extend_leaves first b1 block status sn Hok1 Hq1 Hnum Hhd Hserved Hrb1) as Hext. rewrite Hnum in Hext.
  specialize (Hext Hf Hc). unfold accept_block in H. destruct (last (recent b1)) as [lastb|] eqn:El.
  - case_decide; [|destruct (extend_chain b1 block) as [v w]; by injection H as <- <- <-].
    injection H as <- <- <-. split; [simpl; lia|]. rewrite last_lookup, <- Nat.sub_1_r in El.
    eapply uncle_leaves; try done. apply Hf'. intros Hr. by rewrite Hr in El.
  - case_decide; [done|]. destruct (extend_chain b1 block) as [v w]. by injection H as <- <- <-.
Qed.

(** ** What a batch of logs leaves *)

Definition not_pending (status : Status) : Prop := match status with BlockPending _ => False | _ => True end.

Lemma safe_storable b : watcher_ok b -> queue_ok b -> safe_number (bw_safe b) <= i64_max.
Proof. intros Hok Hq. pose proof (ok_pending b Hok). pose proof (qo_pending b Hq). lia. Qed.

(** A snapshot that is at or past the first block is one more. *)
Lemma rolls_back_commit first b status status' n j (sn : gmap Z J) :
  rolls_back first b status sn -> first <= n -> status' <> Initialized -> not_pending status' -> not_pending status ->
  status_fits first (safe_number (bw_safe b)) status' -> status <> Initialized ->
  (~ starts_uncled (queue b) -> next_covered first (safe_number (bw_safe b)) status sn ->
   next_covered first (safe_number (bw_safe b)) status' (<[n := j]> sn)) ->
  rolls_back first b status' (<[n := j]> sn).
Proof.
  intros [Hq Hb Hst Hf Hn] Hfn Hi Hp Hp' Hf' Hi' Hnext. split; [done| |done|done|].
  - intros k Hk. rewrite lookup_insert_ne by lia. by apply Hb.
  - destruct (queue b) as [|[] q]; try (apply Hnext; [by intros []|done]).
    destruct Hn as (H1 & H2 & Ha & Hc & Hs). split; [done|]. split; [done|]. split; [|split; [by apply covered_insert|]].
    + destruct Ha as [Ha|Ha]; [left|by right]. destruct (decide (n = number - 1)) as [->|Hne];
        [by rewrite lookup_insert_eq|by rewrite lookup_insert_ne].
    + assert (safe_number (bw_safe b) < number) as Hlt by (by destruct status). by destruct status'.
Qed.

Lemma logs_leave first b status s p u s' status' (sn : gmap Z J) :
  watcher_ok b -> rolls_back first b status sn -> status_ok status ->
  match s with
  | Idle => False
  | Warping from to _ _ => status = WarpEvents from to
  | Block number _ _ _ _ => status = BlockEvents number
  end ->
  progress (E := E) s p (Ok (Some u)) s' -> accepts status (Update.Logs u) = Some status' ->
  blocks_last u <= i64_max /\ not_pending status' /\ forall j, rolls_back first b status' (<[blocks_last u := j]> sn).
Proof.
  intros Hok Hrb Hsok Hs Hp Ha. pose proof (rb_status _ _ _ _ Hrb) as Hf. pose proof (safe_storable b Hok (rb_queue _ _ _ _ Hrb)) as Hsafe.
  unfold accepts in Ha. destruct (_ && forallb _ _); [|done]. injection Ha as <-.
  destruct s as [|from to pg fe|n h ts bl re]; [done| |]; subst status; simpl in Hp, Hf, Hsok |- *.
  - destruct Hp as (Hst & Hl & _). split; [lia|]. split; [by case_decide|]. intros j.
    apply (rolls_back_commit first b (WarpEvents from to)); try done; [lia|by case_decide|by case_decide|case_decide; simpl; lia|].
    intros _ _. case_decide; simpl; [done|]. split; [lia|]. intros k Hk. assert (k = blocks_last u) as -> by lia.
    by rewrite lookup_insert_eq.
  - destruct Hp as (Hst & Hl & _). rewrite Hl. split; [lia|]. split; [done|]. intros j.
    apply (rolls_back_commit first b (BlockEvents n)); try done; [lia|]. intros _ [? Hc]. split; [lia|]. by apply covered_snoc.
Qed.

Lemma next_logs_anchors first w status pos tick r w' tick' (sn : gmap Z J) :
  watch_ok w status pos -> rolls_back first (w_blocks w) status sn -> next_logs w tick = (r, w', tick') ->
  safe_number (bw_safe (w_blocks w')) = safe_number (bw_safe (w_blocks w)) /\
  match r with
  | Ok (Some u) => forall status', accepts status (Update.Logs u) = Some status' ->
      blocks_last u <= i64_max /\ not_pending status' /\
      forall j, rolls_back first (w_blocks w') status' (<[blocks_last u := j]> sn)
  | _ => rolls_back first (w_blocks w') status sn
  end.
Proof.
  intros [Hsf Hev Hin] Hrb H. unfold next_logs in H. destruct (next_events (w_events w) tick) as [[l ev] t] eqn:Hn.
  pose proof (next_events_spec _ _ _ _ _ Hev Hn) as (_ & _ & Hprog & _). unfold in_step in Hin.
  destruct l as [[u|]|err].
  - simplify_eq. split; [done|]. intros status' Hacc. destruct Hsf as [Hok _ _ Hroom].
    eapply logs_leave; [done|done|done| |done|done]. destruct (step (w_events w)); [done|tauto|tauto].
  - by simplify_eq.
  - destruct (is_resource_not_found err); [|by simplify_eq]. cbn [w_blocks w_events] in H.
    destruct (revalidate_last_block (w_blocks w) t) as [[inv b] t1] eqn:Hrev.
    assert (exists p, pos = Some p) as [p ->].
    { destruct (step (w_events w)); [done| |]; destruct Hin as [_ ->]; by eexists. }
    destruct Hsf as [Hok Hst _ Hroom]. pose proof (rb_queue _ _ _ _ Hrb) as Hqo.
    assert (w_blocks w' = b) as Hb.
    { destruct inv as [[[k h]|]|e]; [|by simplify_eq..]. by destruct (on_block_invalidated _ _); simplify_eq. }
    assert (bw_safe b = bw_safe (w_blocks w) /\ rolls_back first b status sn) as [Hsb Hrb'].
    { apply (revalidate_cases _ _ _ _ _ _ Hok Hst) in Hrev as [->|(Hq & Hs & Hp & Hlt & Hnu)]; [by split| |by apply Hqo].
      split; [done|]. pose proof Hrb as [_ Hbelow _ Hf _].
      assert (~ starts_uncled (queue (w_blocks w))) as Hnu' by (revert Hnu; destruct (queue (w_blocks w)) as [|[] ?]; simpl; tauto).
      pose proof (next_covered_at _ _ _ _ Hrb Hnu') as Hnext.
      destruct (step (w_events w)) as [|from to pg fe|n h ts bl re]; [done| |].
      { destruct Hin as [-> [= ->]]. simpl in Hf. lia. }
      destruct Hin as [-> [= ->]]. replace (n + 1 - 1) with n in * by lia. simpl in Hf, Hroom. destruct Hnext as [? Hc].
      split; [split; rewrite ?Hq; [lia|apply Forall_singleton; simpl; lia|constructor]|done|done|by rewrite Hs|].
      rewrite Hq, Hs. split; [pose proof (ok_safe _ Hok); lia|]. split; [lia|]. split; [|split; [done|done]].
      destruct (decide (n = first)) as [He|Hne]; [right; split; [done|lia]|left; apply Hc; lia]. }
    rewrite Hb, Hsb. split; [done|].
    assert (forall u, r = Ok (Some u) -> False) as Hno.
    { intros u ->. destruct inv as [[[k h]|]|e]; [|done..]. by destruct (on_block_invalidated _ _). }
    rewrite <- Hb in Hrb'. destruct r as [[u|]|e]; [by destruct (Hno u)|by rewrite <- Hb..].
Qed.

(** ** What an update leaves *)

(** What the machine's snapshots must be after an update, and what it relies on. *)
Definition update_leaves (first : Z) (b' : BlockWatcher) (status' : Status) (u : Update.t E) (sn : gmap Z J) : Prop :=
  (starts_uncled (queue b') -> not_pending status') /\
  match u with
  | Update.Block (BlockUpdate.Uncle n) =>
      1 <= n <= i64_max /\ anchor_at first (safe_number (bw_safe b')) n sn /\
      (is_Some (sn !! (n - 1)) -> rolls_back first b' status' (filter (fun e : Z * J => ¬ n <= e.1) sn))
  | Update.Block _ => rolls_back first b' status' sn
  | Update.Logs e => blocks_last e <= i64_max /\ forall j, rolls_back first b' status' (<[blocks_last e := j]> sn)
  end.

Lemma next_update_anchors first fuel b status pos tick r b' tick' (sn : gmap Z J) :
  blocks_storable -> stream_for b status pos -> awaits_block status pos (queue b) -> rolls_back first b status sn ->
  next_update fuel b tick = Some (r, b', tick') ->
  safe_number (bw_safe b) <= safe_number (bw_safe b') /\
  match r with Ok u => block_leaves first b' u sn | Err _ => rolls_back first b' status sn end.
Proof.
  intros Hst Hsf Haw Hrb H. destruct r as [u|e].
  - destruct (next_update_accepts (E := E) _ _ _ _ _ _ _ _ Hsf Haw H) as (Hacc & _).
    destruct (queue b) as [|u' q] eqn:Hq; [by eapply computed_leaves; rewrite ?Hq|].
    unfold next_update in H. rewrite Hq in H. injection H as <- <- <-. split; [simpl; lia|].
    eapply queued_leaves; [done|by rewrite Hq|done|done].
  - pose proof (next_update_queue _ _ _ _ _ _ H) as [Hq Hq']. unfold next_update in H. rewrite Hq in H.
    destruct (await _ _ _ _) as [[[block b1] t]|] eqn:Ha; [|done]. cbn [mbind option_bind] in H.
    apply await_spec in Ha as [[ms Hb1] _].
    assert (b' = b1) as ->.
    { destruct block as [block|e']; [|by simplify_eq]. unfold accept_block, extend_chain in H. by repeat case_match; simplify_eq. }
    subst b1. split; [simpl; lia|]. eapply rolls_back_same; [..|done]; done.
Qed.

Lemma next_index_anchors first fuel w status pos tick r w' tick' (sn : gmap Z J) :
  blocks_storable -> watch_ok w status pos -> rolls_back first (w_blocks w) status sn ->
  next_index fuel w tick = Some (r, w', tick') ->
  safe_number (bw_safe (w_blocks w)) <= safe_number (bw_safe (w_blocks w')) /\
  match r with
  | Ok u => forall status', accepts status u = Some status' -> update_leaves first (w_blocks w') status' u sn
  | Err _ => rolls_back first (w_blocks w') status sn
  end.
Proof.
  intros Hst Hok Hrb H. unfold next_index in H. destruct (next_logs w tick) as [[l w1] t1] eqn:Hl.
  pose proof (next_logs_ok _ _ _ _ _ _ _ Hok Hl) as Hspec.
  pose proof (next_logs_anchors _ _ _ _ _ _ _ _ _ Hok Hrb Hl) as [Hsafe Hleaves].
  destruct l as [[u|]|e]; [| |simplify_eq; split; [lia|done]].
  { simplify_eq. split; [lia|]. intros status' Hacc. destruct (Hleaves status' Hacc) as (? & ? & ?). by split. }
  destruct Hspec as (Hsf & _ & Hidle & Haw).
  destruct (next_update fuel (w_blocks w1) t1) as [[[u b] t2]|] eqn:Hn; [|done]. cbn [mbind option_bind] in H.
  pose proof (next_update_anchors _ _ _ _ _ _ _ _ _ _ Hst Hsf Haw Hleaves Hn) as [Hle Hblock].
  destruct u as [u|e]; [|simplify_eq; simpl; split; [lia|done]].
  destruct (next_update_accepts (E := E) _ _ _ _ _ _ _ _ Hsf Haw Hn) as (Hacc & _).
  assert (w_blocks w' = b) as Hb by (cbn [w_blocks] in H; by destruct (on_block_update _ u); simplify_eq).
  rewrite Hb. split; [lia|].
  assert (r = Ok (Update.Block u) \/ exists e, r = Err e) as [->|[e ->]]
    by (destruct (on_block_update _ u); simplify_eq; eauto).
  2: { cbn [w_events] in H. unfold on_block_update in H. by rewrite Hidle in H. }
  intros status' Hacc'. rewrite Hacc in Hacc'. injection Hacc' as <-. destruct Hblock as [Hnu Hblock].
  split; [done|]. by destruct u.
Qed.

(** ** The start *)

Lemma new_watcher_shape fuel config indexed tick b tick' :
  0 <= max_reorg_depth config ->
  new_watcher fuel config indexed tick = Some (Ok b, tick') ->
  exists t head, node_block t LatestBlock = Ok (Some head) /\ pending_number (bw_pending b) = bh_number head + 1 /\
    queue b = initial_updates config indexed (safe_number (bw_safe b)) ++
      (new_update <$> filter (fun c => unprocessed config indexed c = true) (recent b)).
Proof.
  intros Hd. unfold new_watcher. destruct (timings config chain_id) as [tm|]; [|done]. unfold initialize. intros H.
  destruct (require_block tick LatestBlock) as [[head|e] t0] eqn:Hreq; [|done].
  apply require_block_spec in Hreq as (_ & Hhead & Hh). pose proof Hh as [Hw _].
  cbn [with_pending with_queue bw_config bw_timings bw_pending bw_safe queue recent app] in H.
  destruct (scan _ _ _ _ _ _ _ _) as [[[scanned|] t]|] eqn:Hs; simplify_eq/=.
  destruct scanned as [|s blocks]; simplify_eq/=. exists tick, head. split; [done|].
  apply scan_spec in Hs as [(parent & Hsafe & _) _]; [|done|unfold sat_sub; lia|by intros ? [= <-]|constructor].
  simpl. rewrite wrap_u64_small by (unfold is_u64; lia). split; [done|]. by rewrite Hsafe.
Qed.

(** The snapshots a machine starts over; their range is [indexed]. *)
Definition starts_over (indexed : option BlockStatus) (sn : gmap Z J) : Prop :=
  match indexed with
  | None => sn = ∅
  | Some i => is_Some (sn !! Messages.safe i) /\ 0 <= Messages.safe i <= latest i /\ latest i <= i64_max /\
      forall k, k < Messages.safe i -> sn !! k = None
  end.

Lemma initial_updates_shape config indexed safe :
  match indexed with Some i => 0 <= Messages.safe i <= latest i /\ latest i <= i64_max | None => True end ->
  exists rest, no_uncles rest /\ Forall (number_fits safe) rest /\
    ((initial_updates config indexed safe = rest /\
      match indexed with Some i => latest i <= Messages.safe i | None => True end) \/
     exists i, indexed = Some i /\ Messages.safe i + 1 <= latest i /\
      initial_updates config indexed safe = BlockUpdate.Uncle (Messages.safe i + 1) :: rest).
Proof.
  intros Hi. unfold initial_updates. destruct indexed as [i|].
  - unfold checked_add. rewrite decide_True by lia.
    exists (if decide (Messages.safe i + 1 <= safe) then [BlockUpdate.Warp (Messages.safe i + 1) safe] else []).
    split; [case_decide; by repeat constructor|]. split; [case_decide; repeat constructor; simpl; lia|].
    destruct (decide (Messages.safe i + 1 <= latest i)); [right; by exists i|left; split; [done|lia]].
  - eexists. split; [|split; [|by left]]; destruct (start_block config); try case_decide; repeat constructor; simpl; lia.
Qed.

Lemma news_fit b (P : BlockHeader -> Prop) `{!forall c, Decision (P c)} :
  watcher_ok b -> pending_number (bw_pending b) <= i64_max + 1 ->
  no_uncles (new_update <$> filter P (recent b)) /\
  Forall (number_fits (safe_number (bw_safe b))) (new_update <$> filter P (recent b)).
Proof.
  intros Hok Hp. split; apply Forall_fmap, Forall_forall; [done|].
  intros c [_ Hc]%list_elem_of_filter. apply list_elem_of_lookup in Hc as [i Hi].
  pose proof (linked_lookup _ _ _ _ _ (ok_linked b Hok) Hi). apply lookup_lt_Some in Hi.
  pose proof (ok_pending b Hok). unfold compose, new_update. simpl. lia.
Qed.

Lemma new_watcher_anchors fuel config indexed tick b tick' (sn : gmap Z J) :
  blocks_storable -> 0 <= max_reorg_depth config -> watcher_ok b -> starts_over indexed sn ->
  new_watcher fuel config indexed tick = Some (Ok b, tick') ->
  rolls_back (origin indexed b) b (start_status indexed) sn.
Proof.
  intros Hst Hd Hok Hsn H. destruct (new_watcher_shape _ _ _ _ _ _ Hd H) as (t & head & Hhead & Hp & Hq). apply Hst in Hhead.
  destruct (news_fit b (fun c => unprocessed config indexed c = true) Hok) as [Hnn Hnf]; [lia|].
  set (news := new_update <$> _) in *. clearbody news.
  destruct (initial_updates_shape config indexed (safe_number (bw_safe b))) as (rest & Hr & Hrf & Hcases);
    [destruct indexed; [by destruct Hsn as (_ & ? & ? & _)|done]|].
  assert (no_uncles (rest ++ news)) as Hnu by by apply Forall_app_2.
  assert (Forall (number_fits (safe_number (bw_safe b))) (rest ++ news)) as Hfit by by apply Forall_app_2.
  destruct Hcases as [[Hini Hl]|(i & -> & Hl & Hini)]; rewrite Hini in Hq; cbn [app] in Hq.
  - assert (queue_ok b) as Hqo.
    { split; rewrite ?Hq; [lia|done|]. destruct (rest ++ news); [constructor|]. by apply Forall_cons in Hnu as [_ ?]. }
    pose proof (not_uncled _ Hnu) as Hns. split; [done| | | |].
    + intros k Hk. destruct indexed as [i|]; [by apply Hsn|by rewrite Hsn, lookup_empty].
    + destruct indexed; [done|]. intros _. by rewrite Hq.
    + by destruct indexed.
    + assert (next_covered (origin indexed b) (safe_number (bw_safe b)) (start_status indexed) sn) as Hnext.
      { destruct indexed as [i|]; [|done]. destruct Hsn as (Hs & Hi & _). simpl. split; [lia|].
        intros k Hk. by replace k with (Messages.safe i) by lia. }
      rewrite Hq. destruct (rest ++ news) as [|[] ?]; try done.
  - destruct Hsn as (Hs & Hi & Hmax & Hbelow). split; [split; rewrite ?Hq; [lia| |done]|done|done|done|].
    + constructor; [simpl; lia|done].
    + rewrite Hq. simpl. split; [lia|]. split; [lia|]. split; [left; by replace (Messages.safe i + 1 - 1) with (Messages.safe i) by lia|].
      split; [|done]. intros k Hk. by replace k with (Messages.safe i) by lia.
Qed.

End Rollbacks.

(** ** The machine finds its anchors *)

Section Machine.
Context {S Action Effect Resume : Type} {ST : StateTransition S E Action Effect Resume}.
Context {SER : Serde S} {SL : SerdeLaws S}.

(** Every snapshot reads back. *)
Definition readable (st : gmap Z Json) : Prop := forall k j, st !! k = Some j -> is_Some (from_str j).

Lemma handle_logs_commits sn (state : S) status (u : EventUpdate E) :
  blocks_last u <= i64_max ->
  match handle_logs (Action := Action) (Effect := Effect) (Resume := Resume) sn state status u with
  | Ok (_, _, sn', _) => exists j, sn' = <[blocks_last u := j]> sn /\ is_Some (from_str j)
  | Err e => out_of_order e = true
  end.
Proof.
  intros Hl. unfold handle_logs. destruct (_ || _); [done|]. destruct (apply_blocks _ _ _ _ _) as [st cmds].
  destruct (commit_storable sn (blocks_last u) st) as (j & Hj & Hr); [by apply bool_decide_eq_true|].
  match goal with |- context [mbind _ ?P] => assert (forall e, P = Err e -> out_of_order e = true) as HP end.
  { intros e. unfold next_block, block_range.
    destruct status; try case_decide; destruct (checked_add _ _); simpl; try case_decide; intros He; by simplify_eq/=. }
  match goal with |- context [mbind _ ?P] => destruct P as [st'|e]; cbn [mbind result_bind]; [|by apply HP] end.
  rewrite Hj. cbn [map_err]. destruct st'; try (by exists j; split; [done|eexists]).
  destruct (accumulate_transition _ _ _). exists j. split; [done|by eexists].
Qed.

Lemma readable_insert st n j : readable st -> is_Some (from_str j) -> readable (<[n := j]> st).
Proof. intros Hr Hj k i [[_ <-]|[_ Hk]]%lookup_insert_Some; [done|by eapply Hr]. Qed.

Lemma readable_sub st st' : readable st -> (forall k j, st' !! k = Some j -> st !! k = Some j) -> readable st'.
Proof. intros Hr Hs k j Hj. eapply Hr, Hs, Hj. Qed.

(** The rollback of a block whose parent has a snapshot. *)
Lemma reorg_finds st n :
  readable st -> 1 <= n <= i64_max ->
  match reorg (S := S) st n with
  | Ok (st', _) => is_Some (st !! (n - 1)) /\ st' = filter (fun e => ¬ n <= e.1) st
  | Err e => e = MissingSnapshot (n - 1) /\ st !! (n - 1) = None
  end.
Proof.
  intros Hr Hn. unfold reorg, checked_sub, to_i64. rewrite !decide_True by lia. cbn [ok_or mbind result_bind].
  rewrite decide_True by lia. cbn [ok_or mbind result_bind]. rewrite lookup_filter_true by (intros; simpl; lia).
  destruct (st !! (n - 1)) as [j|] eqn:E1; cbn [ok_or mbind result_bind]; [|done].
  destruct (Hr _ _ E1) as [s ->]. cbn [ok_or mbind result_bind]. split; [by eexists|done].
Qed.

Lemma update_anchored first b' status' (m : StateMachine (S := S)) state status (u : Update.t E) :
  inner m = Some (state, status) -> status_ok status -> accepts status u = Some status' ->
  readable (snapshots m) -> update_leaves first b' status' u (snapshots m) ->
  match handle_update m u with
  | (m', Ok _) => (exists state', inner m' = Some (state', status')) /\ readable (snapshots m') /\
      rolls_back first b' status' (snapshots m')
  | (_, Err e) => e = Storage (MissingSnapshot (first - 1)) /\ safe_number (bw_safe b') < first
  end.
Proof.
  intros Hi Hok Ha Hread [_ Hl]. pose proof (accepted_update m state status u status' Hi Hok Ha) as Hacc.
  unfold handle_update in *. rewrite Hi in *. destruct u as [[from to|n|n h ts bl]|u]; cbn [try_update] in *.
  - destruct (warp_ready status from); [|done]. destruct (block_range from to) as [[a c]|e] eqn:Er; cbn [mbind result_bind] in *; [done|].
    unfold block_range in Er. by case_decide; simplify_eq.
  - destruct (uncle_ready status n); [|done]. destruct Hl as (Hn & Hanc & Hrb).
    pose proof (reorg_finds _ _ Hread Hn) as Hre.
    destruct (reorg (snapshots m) n) as [[st' [p s]]|e]; cbn [map_err mbind result_bind] in *.
    + destruct Hre as [Hs ->]. split; [done|]. split; [|by apply Hrb].
      eapply readable_sub; [exact Hread|]. by intros k j [? _]%map_lookup_filter_Some.
    + destruct Hre as [-> Hnone]. destruct Hanc as [[j Hj]|[-> Hlt]]; [congruence|done].
  - destruct (new_ready status n); [|done]. destruct (match status with BlockApplied _ => _ | _ => _ end) as [s cs]. done.
  - destruct Hl as [Hlast Hrb]. destruct (logs_ready _ _ _); [|done].
    pose proof (handle_logs_commits (snapshots m) state status u Hlast) as Hc.
    destruct (handle_logs _ _ _ _) as [[[[st1 s1] sn1] cs]|e]; [|by rewrite Hc in Hacc].
    destruct Hc as (j & -> & Hj). split; [done|]. split; [by apply readable_insert|apply Hrb].
Qed.

(** The collection of what is below the safe block. *)
Lemma prune_anchored first b status (m : StateMachine (S := S)) safe :
  readable (snapshots m) -> rolls_back first b status (snapshots m) -> (starts_uncled (queue b) -> not_pending status) ->
  safe = safe_number (bw_safe b) -> safe <= i64_max ->
  exists m', machine_prune m safe = (m', Ok ()) /\ inner m' = inner m /\ readable (snapshots m') /\
    rolls_back first b status (snapshots m').
Proof.
  intros Hread Hrb Hu -> Hs. unfold machine_prune.
  destruct (prune (snapshots m) (safe_number (bw_safe b))) as [st'|e] eqn:Hp.
  - apply prune_lookup in Hp as (_ & Hk & Hsub). eexists. split; [done|]. split; [done|].
    split; [by eapply readable_sub|]. by eapply rolls_back_prune.
  - unfold prune, to_i64 in Hp. by rewrite decide_True in Hp.
Qed.

End Machine.

End Anchors.
