(* ===== verification/ToyNode.v ===== *)
(** A small node, to evaluate the indexer on: a chain of eleven blocks with two
    logs, served in full at every request. *)

From S2P Require Import Prelude Messages StateMachine Node Blocks Events Watch.

Definition toy_header (n : Z) : BlockHeader := MkBlockHeader n n (n - 1) (5 * n) 0.

(** The first log has no timestamp. *)
Definition toy_logs : list Log :=
  [MkLog [7] [] 1 (Some 3) (Some 3) None (Some 0);
   MkLog [8] [] 1 (Some 9) (Some 9) (Some 45) (Some 1)].

Definition toy_matches (f : Filter) (l : Log) : bool :=
  match f_addresses f with Some addresses => bool_decide (l_address l ∈ addresses) | None => true end &&
  match f_topics f with
  | Some tps => match head (l_topics l) with Some tp => bool_decide (tp ∈ tps) | None => false end
  | None => true
  end.

Definition toy_in_blocks (f : Filter) (l : Log) : bool :=
  match l_block_number l, f_blocks f with
  | Some n, RangeFilter from to => bool_decide (from <= n <= to)
  | Some n, HashFilter hash => bool_decide (n = hash)
  | None, _ => false
  end.

#[export] Instance toy_node : Node := {|
  RpcError := unit;
  resource_not_found _ := true;
  chain_id := 100;
  node_block _ id :=
    match id with
    | LatestBlock => Ok (Some (toy_header 10))
    | BlockNumber n => Ok (if decide (0 <= n <= 10) then Some (toy_header n) else None)
    end;
  node_logs _ f := Ok (filter (fun l => toy_matches f l && toy_in_blocks f l = true) toy_logs);
  logs_bloom l := Z.of_nat (length l);
  bloom_contains _ _ := true;
  race t := t;
  hash_number h := h
|}.

#[export] Instance toy_node_laws : NodeLaws.
Proof.
  split.
  - intros t [|n] b H; simpl in H; [by injection H as <-|]. by case_decide; simplify_eq/=.
  - intros t n b H. simpl in H. by case_decide; simplify_eq/=.
  - intros t [|n] b H; simpl in H; [|case_decide]; simplify_eq/=; unfold is_u64; lia.
Qed.

Lemma toy_log_cases t f logs l :
  node_logs t f = Ok logs -> l ∈ logs ->
  l ∈ toy_logs /\ toy_matches f l = true /\ toy_in_blocks f l = true.
Proof.
  intros H Hl. injection H as <-. apply list_elem_of_filter in Hl as [Hm Hl].
  apply andb_true_iff in Hm. tauto.
Qed.

#[export] Instance toy_log_laws : LogLaws.
Proof.
  split.
  - intros t f logs l H Hl. destruct (toy_log_cases _ _ _ _ H Hl) as (Hin & _ & Hb).
    unfold toy_in_blocks in Hb. destruct (l_block_number l) as [n|]; [|done].
    exists n. split; [done|]. by destruct (f_blocks f); apply bool_decide_eq_true in Hb.
  - intros t f logs l tps H Hl Ht. destruct (toy_log_cases _ _ _ _ H Hl) as (Hin & Hm & _).
    unfold toy_matches in Hm. rewrite Ht in Hm. apply andb_true_iff in Hm as [_ Hm].
    destruct (head (l_topics l)) as [tp|]; [|done]. apply bool_decide_eq_true in Hm. by exists tp.
  - intros t f logs l a H Hl Ha. destruct (toy_log_cases _ _ _ _ H Hl) as (Hin & Hm & _).
    unfold toy_matches in Hm. rewrite Ha in Hm. apply andb_true_iff in Hm as [Hm _].
    by apply bool_decide_eq_true in Hm.
  - intros t f logs H. injection H as <-.
    eapply sublist_NoDup; [|apply fmap_sublist, sublist_filter].
    apply (bool_decide_unpack _). by vm_compute.
  - intros t t' f f' logs logs' l l' _ H H' Hl Hl' Hn Hi.
    destruct (toy_log_cases _ _ _ _ H Hl) as (Hin & _). destruct (toy_log_cases _ _ _ _ H' Hl') as (Hin' & _).
    apply elem_of_cons in Hin as [->|Hin%list_elem_of_singleton];
      apply elem_of_cons in Hin' as [->|Hin'%list_elem_of_singleton]; subst; by simplify_eq/=.
Qed.

#[export] Instance toy_events : Events Z := {|
  topics := [7; 8];
  decode_log tps _ := head tps
|}.

Definition toy_blocks_config : BlocksConfig := MkBlocksConfig Auto Auto Auto 5 (Some 2).
Definition toy_events_config : EventsConfig := MkEventsConfig 2 3 false (Some 2) ∅.

(** The watcher over the toy node, and its first updates. *)
Definition toy_new_index := new_index 20 toy_blocks_config toy_events_config [1] None 0.
