(* ===== verification/Indexing.v ===== *)
(** What the indexer guarantees, each with a witness on the node of [ToyNode]: the
    tracked chain, the order of the updates and of the logs, and that initializing
    and fetching end. *)

From S2P Require Import Prelude Messages Snapshots StateMachine Node Blocks Events Watch ToyNode.

Section Indexing.
Context {NODE : Node} {E : Type} {EV : Events E} {LAWS : NodeLaws} {LOGS : LogLaws}.

(** C24: the indexer and the state machine agree on the order of updates. However
    the node fails, lags or reorganizes between requests, whatever effect results
    are handled in between, a machine that starts from the persisted range the
    watcher resumes from and is given every update of the watcher in order never
    fails for their order: no update is bad, none overflows the chain, and it is
    poisoned by an error of its storage only. *)
Theorem updates_in_order {S Action Effect Resume : Type}
    {ST : StateTransition S E Action Effect Resume} {SER : Serde S}
    blocks events addresses indexed w us (m : StateMachine (S := S)) state inputs e :
  index_ready blocks events indexed -> indexing blocks events addresses indexed w us ->
  inner m = Some (state, start_status indexed) -> updates_of inputs = us ->
  (feed m inputs).2 = Err e -> exists e', e = Storage e'.
Proof.
  intros Hr Hw Hi Hu He.
  pose proof (fed_ok _ _ _ _ _ _ m state inputs Hr Hw Hi Hu) as H.
  destruct (feed m inputs) as [m' r]. simpl in He. subst r. destruct e; eauto; done.
Qed.

(** C25: the block watcher tracks one chain. After any sequence of updates,
    drains, failures and revalidations, the tracked blocks are a hash-linked chain
    with consecutive numbers on the safe anchor, no longer than the reorg depth,
    the pending block is the next one, and the updates emitted so far continue
    each other from the persisted range: a warp or new block starts where the
    consumer is, and an uncle takes it back. *)
Theorem tracked_chain config indexed w us :
  0 <= max_reorg_depth config ->
  (forall tick b, node_block tick LatestBlock = Ok (Some b) -> resumable config indexed (bh_number b)) ->
  watching config indexed w us ->
  linked (safe_number (bw_safe w)) (safe_hash (bw_safe w)) (recent w) /\
  Z.of_nat (length (recent w)) <= max_reorg_depth (bw_config w) /\
  pending_number (bw_pending w) = safe_number (bw_safe w) + Z.of_nat (length (recent w)) + 1 /\
  is_Some (follow (resume_position indexed) us).
Proof.
  intros Hd Hr Hw. destruct (watching_ok _ _ _ _ Hd Hr Hw) as ([_ _ Hl Hdep Hp] & pos & Hf & _).
  split_and!; [done..|]. by exists pos.
Qed.

(** C26: initializing the block watcher ends. If the node serves one chain up to
    the latest block from some request on, whatever it answers before that,
    [BlockWatcher::new] returns a watcher or an error, and its [expect] never
    panics. *)
Theorem watcher_starts t0 latest chain config indexed tick tick0 :
  require_block tick LatestBlock = (Ok latest, tick0) -> settled t0 (bh_number latest) chain ->
  0 <= max_reorg_depth config ->
  exists fuel, is_Some (new_watcher fuel config indexed tick).
Proof.
  intros Hreq Hs Hd. unfold new_watcher. destruct (timings config chain_id) as [t|e].
  - by eapply initialize_returns.
  - exists 0%nat. done.
Qed.

(** C27: the strategies to fetch a block's logs agree. When the node serves a
    block's logs in full and below the limit of a query, the client filters
    exactly what the node would, and one query per event gives the same decoded
    and sorted logs as one query for all of them. *)
Theorem fetch_strategies_agree (w : EventWatcher) hash bloom all tick :
  serves_all (HashFilter hash) all -> under_limit (ew_config w) (length all) ->
  NoDup (position <$> all) -> NoDup (ew_topics w) -> compute_logs_bloom all = bloom ->
  exists ls ls',
    single_query w (HashFilter hash) tick = Ok ls /\
    client_filtered w hash bloom tick = Ok ls /\
    multiple_queries w (HashFilter hash) tick = Ok ls' /\
    forall timestamps (events : list (EventLog E)),
      decode_and_sort ls' timestamps = Ok events <-> decode_and_sort ls timestamps = Ok events.
Proof.
  intros Hs Hl Hn Ht Hb. destruct (multiple_queries_served w _ all tick Hs Hl Ht) as (ls' & Hm & Hp).
  eexists _, ls'. split_and!; [by apply single_query_served|by apply client_filtered_served|done|].
  intros timestamps events. pose proof (watched_NoDup w all Hn) as Hnd.
  split; intros H; (eapply decode_and_sort_perm; [|..|exact H]); try done.
  by rewrite Hp.
Qed.

(** C28: the logs of every block are fetched, each once. Handed a warp or a new
    block while idle, the event watcher returns, once the node serves its
    requests, batches of sorted logs that cover the blocks from first to last
    without gap or overlap, halving its page on the way when a query holds too
    many logs; then it is idle again. *)
Theorem blocks_drained (w w1 : EventWatcher) update tick :
  event_watcher_ok w -> step w = Idle -> serving (E := E) (ew_config w) ->
  block_single_query_retry_count (ew_config w) <= u64_max -> update_room update ->
  match update with BlockUpdate.Warp from to => from <= to | _ => True end ->
  on_block_update w update = Ok w1 ->
  exists fuel us w' tick', drain fuel w1 tick = Some (us, w', tick') /\ step w' = Idle /\
    match update with
    | BlockUpdate.Warp from to => tiles (E := E) from to us
    | BlockUpdate.Uncle _ => us = []
    | BlockUpdate.New number _ _ _ => tiles number number us
    end.
Proof.
  intros [Ht Hp _] Hi Hs Hc Hroom Hle H. unfold on_block_update in H. rewrite Hi in H. injection H as <-.
  match goal with |- context [drain _ ?w1 tick] =>
    destruct (drain_returns w1 tick) as (fuel & us & w' & tick' & Hd & Hi' & _ & Htodo) end.
  - split; [done|done|]. unfold step_ok. destruct update; simpl in *; [lia|done|tauto].
  - exact Hs.
  - destruct update; simpl; [done|done|lia].
  - exists fuel, us, w', tick'. split_and!; [done|done|]. by destruct update.
Qed.

End Indexing.

(** ** Witnesses *)

(** A machine that counts the messages it is given. *)
Definition count_transition : StateTransition nat Z unit unit unit := fun n _ => (S n, []).
Definition count_serde : Serde nat := {| Json := nat; to_string _ := None; from_str := Some |}.

Lemma toy_index_ready : index_ready toy_blocks_config toy_events_config None.
Proof.
  split; try done; try (simpl; lia).
  - apply (bool_decide_unpack _). by vm_compute.
  - intros tick b H. injection H as <-. simpl. lia.
Qed.

(** The watcher after its first five updates, and those updates. *)
Fixpoint toy_updates_from (n : nat) (w : Watcher) (tick : nat) : option (Watcher * list (Update.t Z)) :=
  match n with
  | O => Some (w, [])
  | S n =>
      match next_index 30 w tick with
      | Some (Ok u, w, tick) => '(w, us) ← toy_updates_from n w tick; Some (w, u :: us)
      | _ => None
      end
  end.

Lemma toy_updates_indexing n w us0 tick w' us :
  indexing toy_blocks_config toy_events_config [1] None w us0 ->
  toy_updates_from n w tick = Some (w', us) ->
  indexing toy_blocks_config toy_events_config [1] None w' (us0 ++ us).
Proof.
  revert w us0 tick us. induction n as [|n IH]; intros w us0 tick us Hw H.
  { injection H as <- <-. by rewrite app_nil_r. }
  cbn [toy_updates_from] in H. destruct (next_index 30 w tick) as [[[[u|e] w1] t1]|] eqn:Hn; [|done..].
  destruct (toy_updates_from n w1 t1) as [[w2 us2]|] eqn:Hr; [|done]. injection H as <- <-.
  change (us0 ++ u :: us2) with (us0 ++ [u] ++ us2). rewrite (assoc_L (++)).
  eapply IH; [by eapply Indexing_next|done].
Qed.

Definition toy_run : option (Watcher * list (Update.t Z)) :=
  match toy_new_index with Some (Ok w, tick) => toy_updates_from 5 w tick | _ => None end.

Lemma toy_run_indexing w us :
  toy_run = Some (w, us) -> indexing toy_blocks_config toy_events_config [1] None w us.
Proof.
  unfold toy_run. destruct toy_new_index as [[[w0|e] tick]|] eqn:Hn; [|done..]. intros H.
  change us with ([] ++ us). eapply toy_updates_indexing; [by eapply Indexing_new|exact H].
Qed.

(** A machine whose storage fails on its first commit: the only way it fails. *)
Definition toy_count_machine : @StateMachine nat count_serde :=
  @MkStateMachine nat count_serde (Some (0%nat, Initialized)) ∅.

Definition toy_inputs (us : list (Update.t Z)) : list (@MachineInput Z unit) :=
  FromEffect tt :: (FromWatcher <$> us).

Lemma toy_inputs_updates us : updates_of (toy_inputs us) = us.
Proof. unfold updates_of, toy_inputs. cbn [omap list_omap]. induction us; [done|]. cbn. by f_equal. Qed.

Definition toy_feed (us : list (Update.t Z)) :=
  @feed Z nat unit unit unit count_transition count_serde toy_count_machine (toy_inputs us).

Definition fails {X A} (r : result X A) : bool := negb (is_ok r).

Lemma fails_Err {X A} (r : result X A) : fails r = true -> exists e, r = Err e.
Proof. destruct r; [done|eauto]. Qed.

Lemma updates_in_order_witness :
  exists w us e, toy_run = Some (w, us) /\ (toy_feed us).2 = Err e /\ exists e', e = Storage e'.
Proof.
  destruct toy_run as [[w us]|] eqn:H; [|vm_compute in H; discriminate H].
  assert (match toy_run with Some (_, us) => fails (toy_feed us).2 | None => false end = true) as Hf
    by (vm_compute; reflexivity).
  rewrite H in Hf. apply fails_Err in Hf as [e He].
  exists w, us, e. split; [reflexivity|]. split; [exact He|].
  exact (updates_in_order toy_blocks_config toy_events_config [1] None w us toy_count_machine 0%nat
    (toy_inputs us) e toy_index_ready (toy_run_indexing w us H) eq_refl (toy_inputs_updates us) He).
Defined.

Lemma toy_resumable tick b :
  node_block tick LatestBlock = Ok (Some b) -> resumable toy_blocks_config None (bh_number b).
Proof. intros H. injection H as <-. simpl. lia. Qed.

Definition toy_watcher := new_watcher 20 toy_blocks_config None 0.

Lemma tracked_chain_witness :
  exists w, match toy_watcher with Some (Ok w0, _) => Some w0 | _ => None end = Some w /\
    linked (safe_number (bw_safe w)) (safe_hash (bw_safe w)) (recent w) /\
    Z.of_nat (length (recent w)) <= max_reorg_depth (bw_config w) /\
    pending_number (bw_pending w) = safe_number (bw_safe w) + Z.of_nat (length (recent w)) + 1 /\
    is_Some (follow (resume_position None) []).
Proof.
  destruct toy_watcher as [[[w|e] tick]|] eqn:H; [|vm_compute in H; discriminate H..].
  exists w. split; [reflexivity|].
  exact (tracked_chain toy_blocks_config None w [] ltac:(simpl; lia) toy_resumable
    (Watching_new _ _ _ _ _ _ H)).
Defined.

Lemma toy_settled : settled 0 10 toy_header.
Proof.
  split; [|intros n Hn; reflexivity]. intros t n _ Hn. simpl. by rewrite decide_True by lia.
Qed.

Lemma watcher_starts_witness :
  exists fuel, is_Some (new_watcher fuel toy_blocks_config None 0).
Proof.
  exact (watcher_starts 0 (toy_header 10) toy_header toy_blocks_config None 0 1 eq_refl toy_settled
    ltac:(simpl; lia)).
Defined.

(** The logs of block 9, and a watcher with a wide query limit. *)
Definition toy_block_logs : list Log := filter (fun l => l_block_number l = Some 9) toy_logs.
Definition toy_event_watcher : EventWatcher :=
  new_event_watcher (E := Z) toy_events_config [1].

Lemma toy_serves_all : serves_all (HashFilter 9) toy_block_logs.
Proof.
  intros t f Hb. cbn [node_logs toy_node]. f_equal. unfold toy_block_logs.
  rewrite list_filter_filter. apply list_filter_iff. intros l. rewrite andb_true_iff.
  unfold toy_in_blocks. rewrite Hb. change (toy_matches f l) with (matches f l).
  destruct (l_block_number l) as [n|]; [rewrite bool_decide_eq_true|]; naive_solver.
Qed.

Lemma fetch_strategies_agree_witness :
  exists ls ls',
    single_query toy_event_watcher (HashFilter 9) 0 = Ok ls /\
    client_filtered toy_event_watcher 9 1 0 = Ok ls /\
    multiple_queries toy_event_watcher (HashFilter 9) 0 = Ok ls' /\
    forall timestamps (events : list (EventLog Z)),
      decode_and_sort ls' timestamps = Ok events <-> decode_and_sort ls timestamps = Ok events.
Proof.
  refine (fetch_strategies_agree toy_event_watcher 9 1 toy_block_logs 0 toy_serves_all _ _ _ _).
  - vm_compute. reflexivity.
  - apply (bool_decide_unpack _). by vm_compute.
  - apply (bool_decide_unpack _). by vm_compute.
  - vm_compute. reflexivity.
Defined.

Lemma toy_logs_below f topic logs tick :
  node_logs tick f = Ok logs -> f_topics f = Some [topic] -> (length logs < 2)%nat.
Proof.
  intros H Ht. injection H as <-.
  assert (filter (fun l => toy_matches f l && toy_in_blocks f l = true) toy_logs =
    filter (fun l => toy_matches f l && toy_in_blocks f l = true)
      (filter (fun l => head (l_topics l) = Some topic) toy_logs)) as ->.
  { rewrite list_filter_filter. apply list_filter_iff. intros l. split; [|tauto].
    intros Hl. split; [done|]. apply andb_true_iff in Hl as [Hl _].
    unfold toy_matches in Hl. rewrite Ht in Hl. apply andb_true_iff in Hl as [_ Hl].
    destruct (head (l_topics l)); [|done]. apply bool_decide_eq_true in Hl.
    by apply list_elem_of_singleton in Hl as ->. }
  eapply Nat.le_lt_trans; [apply length_filter|].
  unfold toy_logs. rewrite !filter_cons. simpl. repeat case_decide; simplify_eq; simpl; lia.
Qed.

Lemma toy_serving : serving (E := Z) toy_events_config.
Proof.
  split.
  - intros t f. by eexists.
  - intros t f logs topic H Ht _. pose proof (toy_logs_below _ _ _ _ H Ht).
    unfold under_limit. simpl. lia.
  - intros t f logs l H Hl. destruct (toy_log_cases _ _ _ _ H Hl) as (Hin & _).
    apply elem_of_cons in Hin as [->|Hin%list_elem_of_singleton]; subst;
      (split; [by eexists|split; [by eexists|]]); intros t' n [= <-]; by eexists.
Qed.

Lemma toy_event_watcher_ok : event_watcher_ok toy_event_watcher.
Proof. split; [|simpl; lia|done]. apply (bool_decide_unpack _). by vm_compute. Qed.

(** A warp over the two logs, whose first page is too wide for the query limit. *)
Lemma blocks_drained_witness :
  exists fuel us w' tick',
    drain fuel (with_step toy_event_watcher (Warping 2 9 2 None)) 0 = Some (us, w', tick') /\
    step w' = Idle /\ tiles (E := Z) 2 9 us.
Proof.
  exact (blocks_drained toy_event_watcher (with_step toy_event_watcher (Warping 2 9 2 None))
    (BlockUpdate.Warp 2 9) 0 toy_event_watcher_ok eq_refl toy_serving ltac:(simpl; lia)
    ltac:(simpl; lia) ltac:(simpl; lia) eq_refl).
Defined.
