(* ===== verification/TxTypes.v ===== *)
(** The transactions of the queue, [crates/core/src/tx/]: their types
    ([types.rs]), fees ([fees.rs]), bundling into what is sent at a nonce
    ([bundle.rs]), configuration ([config.rs]) and signing ([signer.rs]). *)

From Stdlib Require Import SpecFloat.
From S2P Require Import Prelude Keccak.

(** ** Types *)

Record Transaction := MkTransaction {
  tx_to : Z; tx_value : Z; tx_data : bytes; tx_gas : Z
}.

(** [Transaction::default]: what a cancellation sends. *)
Definition default_transaction : Transaction := MkTransaction 0 0 [] 21000.

(** An EIP-7702 delegation; the zero address removes it. *)
Record Authorization := MkAuthorization { auth_address : Z }.

(** A fee estimate of EIP-1559, in [u128]s. *)
Record Fees := MkFees { max_fee_per_gas : Z; max_priority_fee_per_gas : Z }.

Record AllocatedTransaction := MkAllocated {
  at_nonce : Z;
  at_transaction : Transaction;
  at_authorization : option Authorization;
  at_max_fee : option Z;
  at_max_priority_fee : option Z
}.

Record UnsignedTransaction := MkUnsigned {
  ut_chain_id : Z; ut_nonce : Z; ut_gas_limit : Z; ut_fees : Fees;
  ut_to : Z; ut_value : Z; ut_input : bytes; ut_authorization : option Authorization
}.

(** The signer account's nonce and code hash. *)
Record AccountStatus := MkAccountStatus { acc_nonce : Z; acc_code_hash : Z }.

Section Accounts.
Context {KEC : Keccak}.

(** [KECCAK_EMPTY]. *)
Definition keccak_empty : Z := keccak256 [].

(** The code of a delegated account is [0xef0100] and the delegate. *)
Definition code_hash (a : Authorization) : Z :=
  if decide (auth_address a = 0) then keccak_empty
  else keccak256 ([239; 1; 0] ++ be_bytes 20 (auth_address a)).

Definition new_account (nonce code_hash : Z) : AccountStatus :=
  MkAccountStatus nonce (if decide (code_hash = 0) then keccak_empty else code_hash).

Definition is_delegated (a : AccountStatus) : bool := bool_decide (acc_code_hash a ≠ keccak_empty).
End Accounts.

(** ** Fees *)

Definition sat_add_u128 (a b : Z) : Z := Z.min u128_max (a + b).
Definition sat_mul_u128 (a b : Z) : Z := Z.min u128_max (a * b).

(** The [f64] an integer denotes, [f64::max], and [x.round() as u128]. *)
Definition f64_of_Z (z : Z) : spec_float := binary_normalize 53 1024 z 0 false.
Definition f64_max (x y : spec_float) : spec_float :=
  match x, y with
  | S754_nan, _ => y
  | _, S754_nan => x
  | _, _ => match SFcompare x y with Some Lt => y | _ => x end
  end.
Definition f64_round_u128 (x : spec_float) : Z :=
  match x with
  | S754_finite false m e =>
      if decide (0 <= e) then Z.min u128_max (Z.pos m * 2 ^ e)
      else (2 * Z.pos m + 2 ^ (- e)) / 2 ^ (1 - e)
  | S754_infinity false => u128_max
  | _ => 0
  end.

Definition PRECISION : Z := 1000000.

(** A percentage as parts of [PRECISION]. *)
Definition scaled_percent (cap_percentage : spec_float) : Z :=
  f64_round_u128 (SFmul 53 1024
    (SFdiv 53 1024 (f64_max cap_percentage (S754_zero false)) (f64_of_Z 100)) (f64_of_Z PRECISION)).

Definition cap_priority_fee (fees : Fees) (cap_percentage : spec_float) : Fees :=
  let scaled := scaled_percent cap_percentage in
  if decide (PRECISION <= scaled) then fees
  else
    let base_fee := Z.max 0 (max_fee_per_gas fees - max_priority_fee_per_gas fees) in
    let capped := sat_mul_u128 base_fee scaled / (PRECISION - scaled) in
    let priority := Z.min (max_priority_fee_per_gas fees) capped in
    MkFees (base_fee + priority) priority.

Definition bump_fee (fresh previous : Z) : Z :=
  Z.max fresh (sat_add_u128 previous (div_ceil previous 10)).

Definition bump (fresh : Fees) (previous : option Fees) : Fees :=
  match previous with
  | None => fresh
  | Some previous =>
      MkFees (bump_fee (max_fee_per_gas fresh) (max_fee_per_gas previous))
        (bump_fee (max_priority_fee_per_gas fresh) (max_priority_fee_per_gas previous))
  end.

(** [AllocatedTransaction::fees] and [AllocatedTransaction::build]. *)
Definition allocated_fees (t : AllocatedTransaction) : option Fees :=
  max ← at_max_fee t; priority ← at_max_priority_fee t; Some (MkFees max priority).

Definition build_transaction (t : AllocatedTransaction) (chain : Z) (estimate : Fees)
    : UnsignedTransaction :=
  MkUnsigned chain (at_nonce t) (tx_gas (at_transaction t)) (bump estimate (allocated_fees t))
    (tx_to (at_transaction t)) (tx_value (at_transaction t)) (tx_data (at_transaction t))
    (at_authorization t).

(** ** Configuration *)

Inductive SubmissionMode :=
| Direct (max_in_flight : Z)
| Batched (executor max_batch_gas : Z).

Record TxConfig := MkTxConfig {
  mode : SubmissionMode;
  blocks_before_resubmit : Z;
  priority_fee_cap_percentage : option spec_float
}.

Definition max_in_flight_transactions (m : SubmissionMode) : Z :=
  match m with Direct max => max | Batched _ _ => 1 end.

(** The flat table a configuration is read from, and its errors. *)
Record RawTxConfig := MkRawTxConfig {
  raw_max_in_flight : option Z; raw_executor : option Z; raw_max_batch_gas : option Z;
  raw_blocks_before_resubmit : Z; raw_priority_fee_cap : option spec_float
}.

Inductive TxConfigError := BatchGasWithoutExecutor | InFlightWithExecutor | ZeroExecutor.

Definition tx_config (raw : RawTxConfig) : result TxConfigError TxConfig :=
  mode ←
    match raw_max_in_flight raw, raw_executor raw, raw_max_batch_gas raw with
    | max, None, None => Ok (Direct (default 16 max))
    | _, None, Some _ => Err BatchGasWithoutExecutor
    | Some _, Some _, _ => Err InFlightWithExecutor
    | None, Some executor, max =>
        if decide (executor = 0) then Err ZeroExecutor
        else Ok (Batched executor (default 2000000 max))
    end;
  Ok (MkTxConfig mode (raw_blocks_before_resubmit raw) (raw_priority_fee_cap raw)).

(** ** Bundling *)

(** [ISafenet7702Executor::Call]. *)
Record ExecutorCall := MkExecutorCall {
  ec_to : Z; ec_value : Z; ec_gas_limit : Z; ec_data : bytes
}.

(** The generated encoder of [ISafenet7702Executor::execute]. *)
Class Executor := { encode_execute : list ExecutorCall -> bytes }.

Definition padded_length (data : bytes) : Z := div_ceil (Z.of_nat (length data)) 32 * 32.

(** The length the contract ABI gives an encoded batch: the selector, the array's
    offset and length, and for each call its offset, its head and its data. *)
Definition execute_length (calls : list ExecutorCall) : Z :=
  4 + 32 + 32 + foldr Z.add 0 ((fun c => 32 + 4 * 32 + 32 + padded_length (ec_data c)) <$> calls).
Class ExecutorLaws `{Executor} : Prop := {
  encode_execute_length calls : Z.of_nat (length (encode_execute calls)) = execute_length calls
}.

Inductive BundlerInner :=
| DirectBundle (slot : option Transaction)
| BatchBundle (account max_batch_gas : Z) (calls : list ExecutorCall) (gas : Z) (full : bool).

Record Bundler := MkBundler { bundle : BundlerInner; bundle_authorization : option Authorization }.

Definition CALLDATA_GAS_PER_BYTE : Z := 16.
Definition BATCH_GAS : Z := 26000 + CALLDATA_GAS_PER_BYTE * (4 + 32 + 32).
Definition CALL_OVERHEAD_GAS : Z := 5000.
Definition CALL_VALUE_GAS : Z := 34000.
Definition PER_EMPTY_ACCOUNT_COST : Z := 25000.

Definition direct (authorization : option Authorization) : Bundler :=
  MkBundler (DirectBundle None) authorization.
Definition batched (account max_batch_gas : Z) (authorization : option Authorization) : Bundler :=
  MkBundler (BatchBundle account max_batch_gas [] BATCH_GAS false) authorization.

Definition call_gas (t : Transaction) : Z :=
  let data_len := padded_length (tx_data t) in
  let calldata := sat_mul CALLDATA_GAS_PER_BYTE (32 + 4 * 32 + 32 + data_len) in
  let value := if decide (tx_value t = 0) then 0 else CALL_VALUE_GAS in
  sat_add (sat_add (sat_add (sat_add calldata (tx_gas t)) (div_ceil (tx_gas t) 63))
    CALL_OVERHEAD_GAS) value.

Definition executor_call (t : Transaction) : ExecutorCall :=
  MkExecutorCall (tx_to t) (tx_value t) (tx_gas t) (tx_data t).

(** [Bundler::push]: whether the transaction was added. *)
Definition push (b : Bundler) (t : Transaction) : Bundler * bool :=
  match bundle b with
  | DirectBundle None => (MkBundler (DirectBundle (Some t)) (bundle_authorization b), true)
  | DirectBundle (Some _) => (b, false)
  | BatchBundle account max calls gas full =>
      let total := sat_add gas (call_gas t) in
      if full || (negb (bool_decide (calls = [])) && bool_decide (max < total)) then
        (MkBundler (BatchBundle account max calls gas true) (bundle_authorization b), false)
      else
        (MkBundler (BatchBundle account max (calls ++ [executor_call t]) total full)
           (bundle_authorization b), true)
  end.

(** [Bundler::finish]. *)
Definition finish `{Executor} (b : Bundler) (nonce : Z) : option AllocatedTransaction :=
  t ←
    match bundle b with
    | DirectBundle slot => slot
    | BatchBundle account _ calls gas _ =>
        if decide (calls = []) then None
        else Some (MkTransaction account 0 (encode_execute calls) gas)
    end;
  let t :=
    match bundle_authorization b with
    | Some _ => MkTransaction (tx_to t) (tx_value t) (tx_data t) (sat_add (tx_gas t) PER_EMPTY_ACCOUNT_COST)
    | None => t
    end in
  Some (MkAllocated nonce t (bundle_authorization b) None None).

(** ** Signing *)

(** The local account: its address, and the third-party signing of EIP-1559
    transactions and of EIP-7702 transactions with their signed authorization,
    given the authorization's nonce; nothing when it fails. *)
Class Signer := {
  signer_address : Z;
  sign_1559 : UnsignedTransaction -> option bytes;
  sign_7702 : UnsignedTransaction -> Authorization -> Z -> option bytes
}.

(** [Signer::sign_transaction]. *)
Definition sign_transaction `{Signer} (t : UnsignedTransaction) : option bytes :=
  if decide (ut_chain_id t = 0) then None
  else
    match ut_authorization t with
    | None => sign_1559 t
    | Some authorization =>
        nonce ← checked_add (ut_nonce t) 1; sign_7702 t authorization nonce
    end.

(** ** Fees stay replaceable and capped *)

Lemma bump_fee_raises fresh previous :
  0 <= previous -> 11 * previous <= 10 * u128_max - 10 ->
  fresh <= bump_fee fresh previous /\ 11 * previous <= 10 * bump_fee fresh previous.
Proof.
  intros Hp Hu. unfold bump_fee, sat_add_u128.
  pose proof (div_ceil_spec previous 10 Hp ltac:(lia)). lia.
Qed.

(** C22: a resubmission replaces the transaction it resubmits, and caps hold. A
    transaction built again pays at least the fresh estimate, and at least a tenth
    more than its last submission in each fee; and a capped estimate keeps the
    base fee, never raises the priority fee, and bounds its share of the total by
    the configured percentage, scaled to parts of a million. *)
Theorem fees_replace (t : AllocatedTransaction) chain fees previous cap :
  0 <= max_priority_fee_per_gas fees <= max_fee_per_gas fees -> max_fee_per_gas fees <= u128_max ->
  allocated_fees t = Some previous ->
  0 <= max_fee_per_gas previous <= 10 ^ 37 -> 0 <= max_priority_fee_per_gas previous <= 10 ^ 37 ->
  let capped := cap_priority_fee fees cap in
  let built := ut_fees (build_transaction t chain capped) in
  (max_fee_per_gas capped <= max_fee_per_gas built /\
   11 * max_fee_per_gas previous <= 10 * max_fee_per_gas built) /\
  (max_priority_fee_per_gas capped <= max_priority_fee_per_gas built /\
   11 * max_priority_fee_per_gas previous <= 10 * max_priority_fee_per_gas built) /\
  max_fee_per_gas capped - max_priority_fee_per_gas capped =
    max_fee_per_gas fees - max_priority_fee_per_gas fees /\
  0 <= max_priority_fee_per_gas capped <= max_priority_fee_per_gas fees /\
  (scaled_percent cap < PRECISION ->
   max_priority_fee_per_gas capped * PRECISION <= scaled_percent cap * max_fee_per_gas capped).
Proof.
  intros Hf Hmax Hprev Hm Hp capped built. unfold built, build_transaction. cbn [ut_fees].
  rewrite Hprev. cbn [bump max_fee_per_gas max_priority_fee_per_gas].
  split; [apply bump_fee_raises; lia|]. split; [apply bump_fee_raises; lia|].
  assert (0 <= scaled_percent cap) as Hs.
  { unfold scaled_percent, f64_round_u128. destruct (SFmul _ _ _ _) as [| [] | |[] m e]; try lia.
    case_decide; [|apply Z.div_pos; [|apply Z.pow_pos_nonneg]; lia].
    pose proof (Z.pow_nonneg 2 e ltac:(lia)). nia. }
  unfold capped, cap_priority_fee. generalize dependent (scaled_percent cap). intros s Hs.
  destruct (decide (PRECISION <= s)) as [Hge|Hlt]; [unfold PRECISION in *; lia|].
  cbn [max_fee_per_gas max_priority_fee_per_gas]. rewrite Z.max_r by lia.
  set (base := max_fee_per_gas fees - max_priority_fee_per_gas fees) in *.
  assert (0 <= sat_mul_u128 base s / (PRECISION - s) /\
    sat_mul_u128 base s / (PRECISION - s) * (PRECISION - s) <= base * s) as [Hd0 Hd].
  { pose proof (Z.mul_div_le (sat_mul_u128 base s) (PRECISION - s) ltac:(unfold PRECISION in *; lia)).
    assert (0 <= base * s) by (subst base; nia).
    split; [apply Z.div_pos; unfold sat_mul_u128, PRECISION in *; lia|].
    unfold sat_mul_u128 in *. lia. }
  set (q := sat_mul_u128 base s / (PRECISION - s)) in *.
  split_and!; try lia. unfold PRECISION in *. intros _. nia.
Qed.

(** ** Bundles *)

(** Pushing queued transactions until the bundle is full: the bundle, and the
    prefix it took. *)
Fixpoint push_all (b : Bundler) (txs : list Transaction) : Bundler * list Transaction :=
  match txs with
  | [] => (b, [])
  | t :: txs =>
      let '(b, added) := push b t in
      if added then let '(b, taken) := push_all b txs in (b, t :: taken) else (b, [])
  end.

Lemma push_all_prefix b txs : exists rest, txs = (push_all b txs).2 ++ rest.
Proof.
  revert b. induction txs as [|t txs IH]; intros b; [by exists []|]. cbn [push_all].
  destruct (push b t) as [b' []]; [|by exists (t :: txs)].
  destruct (IH b') as [rest Hr]. destruct (push_all b' txs) as [b2 taken]. exists rest. simpl in *. by f_equal.
Qed.

(** The gas of a batch, as documented: the intrinsic cost, the calldata, and each
    call's gas with the 63/64 headroom, its overhead and its value. *)
Definition batch_gas (txs : list Transaction) : Z :=
  26000 + 16 * execute_length (executor_call <$> txs) +
  foldr Z.add 0 ((fun t => tx_gas t + div_ceil (tx_gas t) 63 + 5000 +
    (if decide (tx_value t = 0) then 0 else 34000)) <$> txs).

Definition tx_ok (t : Transaction) : Prop := is_u64 (tx_gas t).

Lemma div_ceil_nonneg a b : 0 <= a -> 0 < b -> 0 <= div_ceil a b.
Proof. intros Ha Hb. pose proof (div_ceil_spec a b Ha Hb). nia. Qed.

Lemma padded_length_nonneg data : 0 <= padded_length data.
Proof. unfold padded_length. pose proof (div_ceil_nonneg (Z.of_nat (length data)) 32). lia. Qed.

(** What a call adds to the formula. *)
Definition call_cost (t : Transaction) : Z :=
  16 * (32 + 4 * 32 + 32 + padded_length (tx_data t)) + tx_gas t + div_ceil (tx_gas t) 63 + 5000 +
  (if decide (tx_value t = 0) then 0 else 34000).

Lemma call_cost_nonneg t : tx_ok t -> 0 <= call_cost t.
Proof.
  intros [Hg _]. unfold call_cost. pose proof (padded_length_nonneg (tx_data t)).
  pose proof (div_ceil_nonneg (tx_gas t) 63). case_decide; lia.
Qed.

Lemma call_gas_cost t : tx_ok t -> call_gas t = Z.min u64_max (call_cost t).
Proof.
  intros [Hg _]. unfold call_gas, call_cost, sat_add, sat_mul, CALLDATA_GAS_PER_BYTE, CALL_OVERHEAD_GAS, CALL_VALUE_GAS.
  pose proof (padded_length_nonneg (tx_data t)). pose proof (div_ceil_nonneg (tx_gas t) 63).
  case_decide; lia.
Qed.

Lemma foldr_add_snoc l x : foldr Z.add 0 (l ++ [x]) = foldr Z.add 0 l + x.
Proof. induction l as [|y l IH]; simpl; lia. Qed.

Lemma batch_gas_snoc txs t : batch_gas (txs ++ [t]) = batch_gas txs + call_cost t.
Proof.
  unfold batch_gas, execute_length, call_cost. rewrite !fmap_app. simpl. rewrite !foldr_add_snoc. lia.
Qed.

Lemma batch_gas_nonneg txs : Forall tx_ok txs -> 0 <= batch_gas txs.
Proof.
  induction txs as [|t txs IH] using rev_ind; intros H; [done|]. apply Forall_app in H as [H Ht].
  apply Forall_cons in Ht as [Ht _]. rewrite batch_gas_snoc.
  pose proof (call_cost_nonneg t Ht). specialize (IH H). lia.
Qed.

(** A batch bundler that took [txs]. *)
Definition batch_of (account max : Z) (auth : option Authorization) (txs : list Transaction) (b : Bundler)
    : Prop :=
  exists full, b = MkBundler (BatchBundle account max (executor_call <$> txs)
                     (Z.min u64_max (batch_gas txs)) full) auth /\
    ((length txs <= 1)%nat \/ Z.min u64_max (batch_gas txs) <= max).

Lemma push_batch account max auth txs b t b' :
  Forall tx_ok txs -> tx_ok t -> batch_of account max auth txs b ->
  forall added, push b t = (b', added) ->
  batch_of account max auth (if added then txs ++ [t] else txs) b'.
Proof.
  intros Hok Ht (full & -> & Hlim) added H. unfold push in H. cbn [bundle bundle_authorization] in H.
  assert (sat_add (Z.min u64_max (batch_gas txs)) (call_gas t) = Z.min u64_max (batch_gas (txs ++ [t]))) as Hg.
  { rewrite batch_gas_snoc, call_gas_cost by done. unfold sat_add.
    pose proof (call_cost_nonneg t Ht). pose proof (batch_gas_nonneg txs Hok). lia. }
  rewrite Hg in H. destruct (full || _) eqn:Hf; simplify_eq.
  - exists true. done.
  - exists full. split; [by rewrite fmap_app|].
    apply orb_false_iff in Hf as [_ Hf]. apply andb_false_iff in Hf as [Hf|Hf].
    + apply negb_false_iff, bool_decide_eq_true in Hf. apply fmap_nil_inv in Hf as ->. left. simpl. lia.
    + apply bool_decide_eq_false in Hf. right. lia.
Qed.

Lemma push_all_batch account max auth txs0 b txs :
  Forall tx_ok txs0 -> Forall tx_ok txs -> batch_of account max auth txs0 b ->
  batch_of account max auth (txs0 ++ (push_all b txs).2) (push_all b txs).1.
Proof.
  revert txs0 b. induction txs as [|t txs IH]; intros txs0 b H0 H Hb; [by rewrite app_nil_r|].
  apply Forall_cons in H as [Ht H]. cbn [push_all].
  destruct (push b t) as [b' added] eqn:Hp.
  pose proof (push_batch _ _ _ _ _ _ _ H0 Ht Hb _ Hp) as Hb'. destruct added; [|by rewrite app_nil_r].
  specialize (IH (txs0 ++ [t]) b' ltac:(apply Forall_app_2; [done|by apply Forall_singleton]) H Hb').
  destruct (push_all b' txs) as [b2 taken]. simpl in *. by rewrite <- (assoc_L (++)) in IH.
Qed.

(** C23: a batch is a self-call of the queued transactions it took, within its gas
    limit. Of the transactions pushed, a batch bundler takes a prefix, at least
    the first; what it sends calls the account itself with exactly those calls, in
    order, and its gas is that of the documented formula over the encoded batch,
    within [max_batch_gas] unless it holds one call only; an authorization is paid
    for on top. *)
Theorem batch_sends_prefix `{ExecutorLaws} account max auth txs nonce :
  Forall tx_ok txs -> txs ≠ [] -> batch_gas txs <= u64_max - PER_EMPTY_ACCOUNT_COST ->
  exists taken rest gas, txs = taken ++ rest /\ taken ≠ [] /\
    finish (push_all (batched account max auth) txs).1 nonce =
      Some (MkAllocated nonce
        (MkTransaction account 0 (encode_execute (executor_call <$> taken))
           (gas + (if auth then PER_EMPTY_ACCOUNT_COST else 0))) auth None None) /\
    gas = 26000 + 16 * Z.of_nat (length (encode_execute (executor_call <$> taken))) +
      foldr Z.add 0 ((fun t => tx_gas t + div_ceil (tx_gas t) 63 + 5000 +
        (if decide (tx_value t = 0) then 0 else 34000)) <$> taken) /\
    (gas <= max \/ length taken = 1%nat).
Proof.
  intros Hok Hne Hgas. set (b0 := batched account max auth).
  assert (batch_of account max auth [] b0) as Hb0.
  { exists false. split; [|left; simpl; lia]. done. }
  pose proof (push_all_batch account max auth [] b0 txs ltac:(constructor) Hok Hb0) as (full & Hb & Hlim).
  destruct (push_all_prefix b0 txs) as [rest Hrest].
  assert ((push_all b0 txs).2 ≠ []) as Htk.
  { destruct txs as [|t txs]; [done|]. cbn [push_all]. unfold b0, batched, push. cbn.
    by destruct (push_all _ txs). }
  destruct (push_all b0 txs) as [b taken]. cbn [fst snd app] in *. subst b.
  assert (Forall tx_ok taken /\ batch_gas taken <= batch_gas txs) as [Htok Hle].
  { subst txs. apply Forall_app in Hok as [Ht Hr]. split; [done|]. clear -Hr.
    induction rest as [|t rest IH] using rev_ind; [by rewrite app_nil_r|].
    apply Forall_app in Hr as [Hr Ht]. apply Forall_cons in Ht as [Ht _]. specialize (IH Hr).
    rewrite (assoc_L (++)), batch_gas_snoc. pose proof (call_cost_nonneg t Ht). lia. }
  pose proof (batch_gas_nonneg taken Htok). unfold PER_EMPTY_ACCOUNT_COST in *.
  assert (Z.min u64_max (batch_gas taken) = batch_gas taken) as Hmin by lia. rewrite Hmin in *.
  exists taken, rest, (batch_gas taken). split_and!; [done|done| | |].
  - unfold finish. cbn [bundle bundle_authorization].
    rewrite decide_False by (intros Hn; by apply fmap_nil_inv in Hn). cbn [mbind option_bind].
    destruct auth; simpl; [|by rewrite Z.add_0_r].
    unfold sat_add, PER_EMPTY_ACCOUNT_COST. rewrite Z.min_r by lia. done.
  - unfold batch_gas. by rewrite <- encode_execute_length.
  - destruct Hlim as [Hl|Hl]; [right|by left]. destruct taken as [|? []]; simpl in *; [done|done|lia].
Qed.
