(* ===== verification/TxStorage.v ===== *)
(** The transaction storage, [crates/core/src/tx/storage.rs]: its two tables and
    each query as an update of them. A request column is the transaction it
    serializes and the fees set on it; rows of [transactions] are in the order of
    their ids. What the disk may do to a query is not modelled; the constraints of
    the schema are, as the error [TxDatabase]. *)

From S2P Require Import Prelude Keccak TxTypes.

Inductive TxStorageError :=
| TxDatabase
| TxOverflow
| NonceNotFound (nonce : Z).

(** The [request] column of an allocated nonce. *)
Record Request := MkRequest {
  rq_transaction : Transaction; rq_max_fee : option Z; rq_max_priority_fee : option Z
}.

(** A row of [allocated_nonces]. *)
Record NonceRow := MkNonceRow {
  nr_request : option Request;
  nr_delegate : option Z;
  nr_submitted_at : option Z;
  nr_executed_at : option Z
}.

(** A row of [transactions]. *)
Record QueuedRow := MkQueuedRow {
  qr_request : Transaction; qr_expires_at : option Z; qr_nonce : option Z
}.

Record TransactionStorage := MkStorage {
  allocated_nonces : gmap Z NonceRow;
  transactions : list (Z * QueuedRow)
}.

Definition empty_storage : TransactionStorage := MkStorage ∅ [].

Record Submission := MkSubmission { sb_block : option Z; sb_nonce : Z; sb_fees : Fees }.
(** [storage::Status]: the latest block and the account's nonce at it. *)
Record TxStatus := MkTxStatus { ts_block : Z; ts_nonce : Z }.

(** An [i64::try_from]. *)
Definition db_integer (z : Z) : result TxStorageError Z := ok_or (to_i64 z) TxOverflow.
Definition db_integer_opt (z : option Z) : result TxStorageError (option Z) :=
  match z with Some z => z ← db_integer z; Ok (Some z) | None => Ok None end.

(** The id an insert into [transactions] gets: the rowid after the largest. *)
Definition next_id (rows : list (Z * QueuedRow)) : Z :=
  match last rows with Some (id, _) => id + 1 | None => 1 end.

(** [enqueue]; nothing is inserted on an error. *)
Fixpoint enqueue (st : TransactionStorage) (txs : list (Transaction * option Z))
    : result TxStorageError TransactionStorage :=
  match txs with
  | [] => Ok st
  | (transaction, expires_at) :: txs =>
      expires_at ← db_integer_opt expires_at;
      let row := (next_id (transactions st), MkQueuedRow transaction expires_at None) in
      enqueue (MkStorage (allocated_nonces st) (transactions st ++ [row])) txs
  end.

Definition in_flight (r : NonceRow) : bool :=
  match nr_request r, nr_executed_at r with Some _, None => true | _, _ => false end.

Definition count_in_flight (st : TransactionStorage) : nat :=
  size (filter (fun e : Z * NonceRow => in_flight e.2 = true) (allocated_nonces st)).

(** Not allocated, and not expired at [block]. *)
Definition is_queued (block : Z) (r : QueuedRow) : bool :=
  match qr_nonce r with
  | Some _ => false
  | None => match qr_expires_at r with Some e => bool_decide (block < e) | None => true end
  end.

(** Queued rows, pushed in order until the bundler is full: the id of the last
    one it took. *)
Fixpoint push_rows (b : Bundler) (last : option Z) (rows : list (Z * QueuedRow)) : Bundler * option Z :=
  match rows with
  | [] => (b, last)
  | (id, r) :: rows =>
      let '(b, added) := push b (qr_request r) in
      if added then push_rows b (Some id) rows else (b, last)
  end.

(** [MAX(nonce)] of the allocated nonces. *)
Definition max_nonce (m : gmap Z NonceRow) : option Z := list.last (sorted_keys m).

(** [MAX(?, COALESCE(MAX(nonce) + 1, 0))], an integer of the database. *)
Definition free_nonce (st : TransactionStorage) (nonce : Z) : result TxStorageError Z :=
  nonce ← db_integer nonce;
  ok_or (to_i64 (Z.max nonce (from_option (fun m => m + 1) 0 (max_nonce (allocated_nonces st)))))
    TxDatabase.

(** An insert into [allocated_nonces], whose key is unique. *)
Definition insert_nonce (m : gmap Z NonceRow) (nonce : Z) (r : NonceRow)
    : result TxStorageError (gmap Z NonceRow) :=
  match m !! nonce with Some _ => Err TxDatabase | None => Ok (<[nonce := r]> m) end.

(** [UPDATE transactions SET nonce = ?] over the rows taken. *)
Definition allocate_row (block nonce last : Z) (e : Z * QueuedRow) : Z * QueuedRow :=
  let '(id, r) := e in
  if is_queued block r && bool_decide (id <= last)
  then (id, MkQueuedRow (qr_request r) (qr_expires_at r) (Some nonce)) else (id, r).

Definition next_transaction `{EX : Executor} (st : TransactionStorage) (status : TxStatus) (b : Bundler)
    : result TxStorageError (TransactionStorage * option AllocatedTransaction) :=
  block ← db_integer (ts_block status);
  let queued := filter (fun e => is_queued block e.2 = true) (transactions st) in
  let '(b, last) := push_rows b None queued in
  match last with
  | None => Ok (st, None)
  | Some last =>
      nonce ← free_nonce st (ts_nonce status);
      match finish b nonce with
      | None => Ok (st, None)
      | Some allocated =>
          nonces ← insert_nonce (allocated_nonces st) nonce
            (MkNonceRow (Some (MkRequest (at_transaction allocated) None None)) None None None);
          nonces ←
            match at_authorization allocated with
            | Some a =>
                next ← ok_or (to_i64 (nonce + 1)) TxOverflow;
                insert_nonce nonces next (MkNonceRow None (Some (auth_address a)) None None)
            | None => Ok nonces
            end;
          Ok (MkStorage nonces (allocate_row block nonce last <$> transactions st), Some allocated)
      end
  end.

Definition record_submission (st : TransactionStorage) (s : Submission)
    : result TxStorageError TransactionStorage :=
  block ← db_integer_opt (sb_block s);
  nonce ← db_integer (sb_nonce s);
  match allocated_nonces st !! nonce with
  | Some (MkNonceRow (Some rq) delegate _ executed) =>
      let rq := MkRequest (rq_transaction rq) (Some (max_fee_per_gas (sb_fees s)))
                  (Some (max_priority_fee_per_gas (sb_fees s))) in
      Ok (MkStorage (<[nonce := MkNonceRow (Some rq) delegate block executed]> (allocated_nonces st))
            (transactions st))
  | _ => Err (NonceNotFound (sb_nonce s))
  end.

Definition count_outstanding (st : TransactionStorage) (block : Z) : result TxStorageError nat :=
  block ← db_integer block;
  Ok (size (filter (fun e : Z * NonceRow => nr_executed_at e.2 = None) (allocated_nonces st)) +
      length (filter (fun e => is_queued block e.2 = true) (transactions st)))%nat.

Definition mark_row (block nonce n : Z) (r : NonceRow) : NonceRow :=
  match nr_executed_at r with
  | None => if decide (n < nonce)
            then MkNonceRow (nr_request r) (nr_delegate r) (nr_submitted_at r) (Some block) else r
  | Some _ => r
  end.

Definition mark_executed (st : TransactionStorage) (status : TxStatus)
    : result TxStorageError TransactionStorage :=
  block ← db_integer (ts_block status);
  nonce ← db_integer (ts_nonce status);
  Ok (MkStorage (map_imap (fun n r => Some (mark_row block nonce n r)) (allocated_nonces st))
        (transactions st)).

(** [recover_authorization_gap]: whether an authorization became a cancellation. *)
Definition recover_authorization_gap (st : TransactionStorage) (nonce : Z)
    : result TxStorageError (TransactionStorage * bool) :=
  nonce ← db_integer nonce;
  match allocated_nonces st !! nonce with
  | Some (MkNonceRow None (Some delegate) submitted executed) =>
      let r := MkNonceRow (Some (MkRequest default_transaction None None)) (Some delegate)
                 submitted executed in
      Ok (MkStorage (<[nonce := r]> (allocated_nonces st)) (transactions st), true)
  | _ => Ok (st, false)
  end.

Definition executed_by (safe : Z) (r : NonceRow) : bool :=
  match nr_executed_at r with Some e => bool_decide (e <= safe) | None => false end.

(** Whether the nonce a queued row was sent at was executed by [safe]. *)
Definition row_executed (m : gmap Z NonceRow) (safe : Z) (r : QueuedRow) : bool :=
  match qr_nonce r with
  | Some n => match m !! n with Some nr => executed_by safe nr | None => false end
  | None => false
  end.

Definition row_expired (safe : Z) (r : QueuedRow) : bool :=
  match qr_nonce r, qr_expires_at r with None, Some e => bool_decide (e <= safe) | _, _ => false end.

Definition tx_prune (st : TransactionStorage) (safe : Z) : result TxStorageError TransactionStorage :=
  safe ← db_integer safe;
  let rows := filter (fun e => row_executed (allocated_nonces st) safe e.2 = false) (transactions st) in
  let nonces := filter (fun e : Z * NonceRow => executed_by safe e.2 = false) (allocated_nonces st) in
  Ok (MkStorage nonces (filter (fun e => row_expired safe e.2 = false) rows)).

Definition unmark_row (block : Z) (r : NonceRow) : NonceRow :=
  match nr_executed_at r with
  | Some e => if decide (block <= e)
              then MkNonceRow (nr_request r) (nr_delegate r) (nr_submitted_at r) None else r
  | None => r
  end.

Definition unmark_executed (st : TransactionStorage) (block : Z)
    : result TxStorageError TransactionStorage :=
  block ← db_integer block;
  Ok (MkStorage (unmark_row block <$> allocated_nonces st) (transactions st)).

(** Due for submission: never submitted, or not since [before]. *)
Definition is_stale (before : Z) (r : NonceRow) : bool :=
  in_flight r && match nr_submitted_at r with Some s => bool_decide (s <= before) | None => true end.

(** A stale row with its nonce, and the authorization of the row after it. *)
Definition stale_transaction (m : gmap Z NonceRow) (before : Z) (e : Z * NonceRow)
    : option AllocatedTransaction :=
  let '(n, r) := e in
  if is_stale before r then
    rq ← nr_request r;
    Some (MkAllocated n (rq_transaction rq)
            (MkAuthorization <$> (next ← m !! (n + 1); nr_delegate next))
            (rq_max_fee rq) (rq_max_priority_fee rq))
  else None.

Definition stale_submissions (st : TransactionStorage) (before : option Z)
    : result TxStorageError (list AllocatedTransaction) :=
  before ← db_integer_opt before;
  Ok (omap (stale_transaction (allocated_nonces st) (default (-1) before))
        (sorted_entries (allocated_nonces st))).

(** ** The consistency of the tables *)

(** Ids ascend, a row's nonce is that of an allocated transaction, and a nonce row
    is a transaction or a delegation, with a nonce of the database. *)
Record storage_ok (st : TransactionStorage) : Prop := {
  so_ids : StronglySorted Z.lt (transactions st).*1;
  so_refs id r n : (id, r) ∈ transactions st -> qr_nonce r = Some n ->
    exists nr, allocated_nonces st !! n = Some nr /\ is_Some (nr_request nr);
  so_check n nr : allocated_nonces st !! n = Some nr ->
    is_Some (nr_request nr) \/ is_Some (nr_delegate nr);
  so_keys n nr : allocated_nonces st !! n = Some nr -> 0 <= n <= i64_max
}.

(** The queries that change the storage. *)
Inductive TxOp :=
| Enqueue (txs : list (Transaction * option Z))
| NextTransaction (status : TxStatus) (b : Bundler)
| RecordSubmission (s : Submission)
| MarkExecuted (status : TxStatus)
| RecoverGap (nonce : Z)
| TxPrune (safe : Z)
| UnmarkExecuted (block : Z).

Definition apply_op `{EX : Executor} (st : TransactionStorage) (op : TxOp)
    : result TxStorageError TransactionStorage :=
  match op with
  | Enqueue txs => enqueue st txs
  | NextTransaction status b => fst <$> next_transaction st status b
  | RecordSubmission s => record_submission st s
  | MarkExecuted status => mark_executed st status
  | RecoverGap nonce => fst <$> recover_authorization_gap st nonce
  | TxPrune safe => tx_prune st safe
  | UnmarkExecuted block => unmark_executed st block
  end.

(** The storage after some queries; one that fails leaves it as it was. *)
Definition apply_ops `{EX : Executor} (st : TransactionStorage) (ops : list TxOp) : TransactionStorage :=
  foldl (fun st op => match apply_op st op with Ok st => st | Err _ => st end) st ops.

Lemma db_integer_Ok z z' : db_integer z = Ok z' -> z' = z /\ z <= i64_max.
Proof. unfold db_integer. intros H. apply ok_or_Ok, to_i64_Some in H. tauto. Qed.

Lemma db_integer_opt_Ok z z' : db_integer_opt z = Ok z' -> z' = z.
Proof.
  unfold db_integer_opt. destruct z as [z|]; intros H; [|by simplify_eq].
  apply bind_Ok in H as (y & Hy & [= <-]). by apply db_integer_Ok in Hy as [-> _].
Qed.

Lemma next_id_gt (rows : list (Z * QueuedRow)) id :
  StronglySorted Z.lt rows.*1 -> id ∈ rows.*1 -> id < next_id rows.
Proof.
  intros Hs Hid. unfold next_id. destruct (last rows) as [[m r]|] eqn:E.
  - assert (last rows.*1 = Some m) as Em by (by rewrite fmap_last, E).
    apply last_sorted_max in Em as [_ Hle]; [|done]. specialize (Hle id Hid). lia.
  - apply last_None in E. subst. by apply not_elem_of_nil in Hid.
Qed.

Lemma StronglySorted_snoc (l : list Z) x :
  StronglySorted Z.lt l -> (forall y, y ∈ l -> y < x) -> StronglySorted Z.lt (l ++ [x]).
Proof.
  intros Hs Hx. induction Hs as [|y l Hs IH Hall]; [by repeat constructor|]. simpl. constructor.
  - apply IH. intros z Hz. apply Hx. by right.
  - apply Forall_app. split; [done|]. constructor; [|constructor]. apply Hx. by left.
Qed.

Lemma enqueue_ok st txs st' :
  storage_ok st -> enqueue st txs = Ok st' ->
  storage_ok st' /\ allocated_nonces st' = allocated_nonces st /\
  exists rows, transactions st' = transactions st ++ rows /\
    (fun e => qr_request e.2) <$> rows = txs.*1 /\ Forall (fun e => qr_nonce e.2 = None) rows.
Proof.
  revert st. induction txs as [|[t e] txs IH]; intros st Hok H; cbn [enqueue] in H.
  { injection H as <-. split; [done|]. split; [done|]. exists []. by rewrite app_nil_r. }
  apply bind_Ok in H as (e' & He & H). destruct Hok as [Hs Hr Hc Hk].
  apply IH in H as (Hok' & Hn & rows & Hrows & Ht & Hq).
  - split; [done|]. split; [done|]. exists ((next_id (transactions st), MkQueuedRow t e' None) :: rows).
    simpl in Hrows. rewrite <- (assoc_L (++)) in Hrows. split; [done|]. split; [simpl; by f_equal|by constructor].
  - split; simpl; try done.
    + rewrite fmap_app. apply StronglySorted_snoc; [done|]. intros. by apply next_id_gt.
    + intros id r n [Hin|Hin%list_elem_of_singleton]%elem_of_app Hn; [by eapply Hr|by simplify_eq/=].
Qed.

(** Rewriting rows in place keeps ids; rewriting nonce rows keeps requests. *)
Lemma storage_ok_update st st' :
  storage_ok st ->
  (forall n, match allocated_nonces st !! n, allocated_nonces st' !! n with
    | Some r, Some r' => (is_Some (nr_request r) -> is_Some (nr_request r')) /\
        (is_Some (nr_delegate r) -> is_Some (nr_delegate r'))
    | None, None => True
    | _, _ => False end) ->
  transactions st' = transactions st -> storage_ok st'.
Proof.
  intros [Hs Hr Hc Hk] Hn Ht. split; rewrite ?Ht; [done|..].
  - intros id r n Hin Hq. destruct (Hr id r n Hin Hq) as (nr & Hnr & Hreq). specialize (Hn n).
    rewrite Hnr in Hn. destruct (allocated_nonces st' !! n) as [nr'|]; [|done]. exists nr'. tauto.
  - intros n nr' Hnr'. specialize (Hn n). rewrite Hnr' in Hn.
    destruct (allocated_nonces st !! n) as [nr|] eqn:E; [|done]. specialize (Hc n nr E). tauto.
  - intros n nr' Hnr'. specialize (Hn n). rewrite Hnr' in Hn.
    destruct (allocated_nonces st !! n) as [nr|] eqn:E; [|done]. by eapply Hk.
Qed.

Lemma record_submission_ok st s st' : storage_ok st -> record_submission st s = Ok st' -> storage_ok st'.
Proof.
  intros Hok H. unfold record_submission in H.
  apply bind_Ok in H as (b & _ & H). apply bind_Ok in H as (n & _ & H).
  destruct (allocated_nonces st !! n) as [[[rq|] dg sb ex]|] eqn:E; try done. injection H as <-.
  eapply storage_ok_update; [exact Hok| |done]. intros k. simpl.
  destruct (decide (n = k)) as [<-|Hk]; [rewrite E, lookup_insert_eq; by eauto|].
  rewrite lookup_insert_ne by done. by destruct (allocated_nonces st !! k).
Qed.

Lemma mark_executed_ok st s st' : storage_ok st -> mark_executed st s = Ok st' -> storage_ok st'.
Proof.
  intros Hok H. unfold mark_executed in H.
  apply bind_Ok in H as (b & _ & H). apply bind_Ok in H as (n & _ & [= <-]).
  eapply storage_ok_update; [exact Hok| |done]. intros k. simpl. rewrite map_lookup_imap.
  destruct (allocated_nonces st !! k) as [r|]; [|done]. simpl. unfold mark_row.
  destruct (nr_executed_at r); [done|]. by case_decide.
Qed.

Lemma recover_ok st n st' b :
  storage_ok st -> recover_authorization_gap st n = Ok (st', b) -> storage_ok st'.
Proof.
  intros Hok H. unfold recover_authorization_gap in H. apply bind_Ok in H as (n' & _ & H).
  destruct (allocated_nonces st !! n') as [[[rq|] [dg|] sb ex]|] eqn:E; simplify_eq; try done.
  eapply storage_ok_update; [exact Hok| |done]. intros k. simpl.
  destruct (decide (n' = k)) as [<-|Hk]; [rewrite E, lookup_insert_eq; simpl; by eauto|].
  rewrite lookup_insert_ne by done. by destruct (allocated_nonces st !! k).
Qed.

Lemma unmark_ok st b st' : storage_ok st -> unmark_executed st b = Ok st' -> storage_ok st'.
Proof.
  intros Hok H. unfold unmark_executed in H. apply bind_Ok in H as (n & _ & [= <-]).
  eapply storage_ok_update; [exact Hok| |done]. intros k. simpl. rewrite lookup_fmap.
  destruct (allocated_nonces st !! k) as [r|]; [|done]. simpl. unfold unmark_row.
  destruct (nr_executed_at r); [|done]. by case_decide.
Qed.

Lemma StronglySorted_sublist (l k : list Z) :
  l `sublist_of` k -> StronglySorted Z.lt k -> StronglySorted Z.lt l.
Proof.
  induction 1 as [|x l k Hs IH|x l k Hs IH]; intros Hk; [constructor|..];
    inversion Hk as [|? ? Hk' Hall]; subst; [|by apply IH].
  constructor; [by apply IH|]. rewrite Forall_forall in *. intros y Hy. by eapply Hall, elem_of_sublist.
Qed.

Lemma sorted_filter {A} (P : Z * A -> Prop) `{!forall x, Decision (P x)} (l : list (Z * A)) :
  StronglySorted Z.lt l.*1 -> StronglySorted Z.lt (filter P l).*1.
Proof. apply StronglySorted_sublist, fmap_sublist, sublist_filter. Qed.

Lemma tx_prune_ok st safe st' : storage_ok st -> tx_prune st safe = Ok st' -> storage_ok st'.
Proof.
  intros [Hs Hr Hc Hk] H. unfold tx_prune in H. apply bind_Ok in H as (n & _ & [= <-]). split; simpl.
  - by apply sorted_filter, sorted_filter.
  - intros id r k [_ [He Hin]%list_elem_of_filter]%list_elem_of_filter Hq. simpl in He.
    destruct (Hr id r k Hin Hq) as (nr & Hnr & Hreq). exists nr. split; [|done].
    apply map_lookup_filter_Some. split; [done|]. simpl.
    unfold row_executed in He. by rewrite Hq, Hnr in He.
  - intros k nr [Hnr _]%map_lookup_filter_Some. by eapply Hc.
  - intros k nr [Hnr _]%map_lookup_filter_Some. by eapply Hk.
Qed.

(** ** Allocating a nonce *)

Lemma max_nonce_ge (m : gmap Z NonceRow) n :
  is_Some (m !! n) -> n < from_option (fun k => k + 1) 0 (max_nonce m).
Proof.
  intros Hn. unfold max_nonce. destruct (list.last (sorted_keys m)) as [k|] eqn:E; simpl.
  - apply last_sorted_max in E as [_ Hle]; [|apply sorted_elements_lt].
    specialize (Hle n (proj2 (elem_of_sorted_keys m n) Hn)). lia.
  - apply last_None in E. apply elem_of_sorted_keys in Hn. rewrite E in Hn. by apply not_elem_of_nil in Hn.
Qed.

Lemma max_nonce_nonneg st :
  storage_ok st -> 0 <= from_option (fun k => k + 1) 0 (max_nonce (allocated_nonces st)).
Proof.
  intros Hok. unfold max_nonce. destruct (list.last _) as [k|] eqn:E; simpl; [|done].
  apply last_sorted_max in E as [Hin _]; [|apply sorted_elements_lt].
  apply elem_of_sorted_keys in Hin as [nr Hnr]. apply (so_keys _ Hok) in Hnr. lia.
Qed.

Lemma free_nonce_spec st n nonce :
  storage_ok st -> free_nonce st n = Ok nonce ->
  n <= nonce <= i64_max /\ 0 <= nonce /\ (forall k, is_Some (allocated_nonces st !! k) -> k < nonce).
Proof.
  intros Hok H. unfold free_nonce in H. apply bind_Ok in H as (n' & Hn & H).
  apply db_integer_Ok in Hn as [-> _]. apply ok_or_Ok, to_i64_Some in H as [-> Hm].
  pose proof (max_nonce_nonneg st Hok). split_and!; try lia.
  intros k Hk. apply max_nonce_ge in Hk. lia.
Qed.

Lemma ids_unique {A} (rows : list (Z * A)) id (r r' : A) :
  StronglySorted Z.lt rows.*1 -> (id, r) ∈ rows -> (id, r') ∈ rows -> r = r'.
Proof.
  induction rows as [|[i a] rows IH]; intros Hs Hr Hr'; [by apply not_elem_of_nil in Hr|].
  simpl in Hs. inversion Hs as [|? ? Hs' Hall]; subst. rewrite Forall_forall in Hall.
  assert (forall q, (id, q) ∈ rows -> i < id) as Hlt.
  { intros q Hq. apply (Hall id), list_elem_of_fmap. by exists (id, q). }
  apply elem_of_cons in Hr as [Hr|Hr]; apply elem_of_cons in Hr' as [Hr'|Hr']; simplify_eq;
    [done|exfalso|exfalso|by apply IH].
  - specialize (Hlt _ Hr'). lia.
  - specialize (Hlt _ Hr). lia.
Qed.

(** The bundle takes a prefix of the rows, and [last] is its last id. *)
Lemma push_rows_spec b last0 rows :
  exists taken rest, rows = taken ++ rest /\
    (push_all b ((fun e => qr_request e.2) <$> rows)).2 = (fun e => qr_request e.2) <$> taken /\
    push_rows b last0 rows =
      ((push_all b ((fun e => qr_request e.2) <$> rows)).1,
       match last taken with Some (id, _) => Some id | None => last0 end).
Proof.
  revert b last0. induction rows as [|[id r] rows IH]; intros b last0; [by exists [], []|].
  cbn [push_rows fmap list_fmap push_all fst snd]. destruct (push b (qr_request r)) as [b' []] eqn:Hp.
  - destruct (IH b' (Some id)) as (taken & rest & -> & Htk & Hpr).
    exists ((id, r) :: taken), rest. split; [done|]. rewrite Hpr.
    destruct (push_all b' _) as [b2 tk] eqn:Hpa. cbn [fst snd] in *. split; [simpl; by f_equal|].
    f_equal. rewrite last_cons. by destruct (last taken) as [[id' r']|].
  - exists [], ((id, r) :: rows). done.
Qed.

(** Of rows in id order, those up to the last of a prefix are the prefix. *)
Lemma taken_ids {A} (taken rest : list (Z * A)) id m :
  StronglySorted Z.lt (taken ++ rest).*1 -> last taken = Some m -> id ∈ (taken ++ rest).*1 ->
  (id <= m.1 <-> id ∈ taken.*1).
Proof.
  intros Hs Hl Hin. rewrite fmap_app in Hs, Hin.
  assert (last taken.*1 = Some m.1) as Hlm by (by rewrite fmap_last, Hl).
  assert (StronglySorted Z.lt taken.*1) as Hst
    by (eapply StronglySorted_sublist; [by apply sublist_inserts_r|exact Hs]).
  apply last_sorted_max in Hlm as [Hm Hle]; [|done]. split; [|auto].
  intros Hid. apply elem_of_app in Hin as [Hin|Hin]; [done|exfalso].
  apply list_elem_of_split in Hm as (l1 & l2 & Hm). rewrite Hm in Hs. clear -Hs Hin Hid.
  induction l1 as [|y l1 IH]; simpl in Hs; inversion Hs as [|? ? Hs' Hall]; subst; [|auto].
  rewrite Forall_forall in Hall. specialize (Hall id ltac:(set_solver)). lia.
Qed.

(** A row that is given a nonce. *)
Definition with_nonce (nonce : Z) (e : Z * QueuedRow) : Z * QueuedRow :=
  (e.1, MkQueuedRow (qr_request e.2) (qr_expires_at e.2) (Some nonce)).

(** What an allocation does: the transactions of the bundle are a prefix of the
    queue, which get the nonce, a fresh one; nothing else changes. *)
Record allocates `{EX : Executor} (st : TransactionStorage) (status : TxStatus) (b : Bundler)
    (st' : TransactionStorage) (allocated : AllocatedTransaction)
    (taken rest : list (Z * QueuedRow)) : Prop := {
  al_queued : filter (fun e => is_queued (ts_block status) e.2 = true) (transactions st) = taken ++ rest;
  al_taken : taken ≠ [];
  al_bundle : let requests := (fun e => qr_request e.2) <$> (taken ++ rest) in
    (push_all b requests).2 = (fun e => qr_request e.2) <$> taken /\
    finish (push_all b requests).1 (at_nonce allocated) = Some allocated;
  al_rows : transactions st' =
    (fun e => if decide (e.1 ∈ taken.*1) then with_nonce (at_nonce allocated) e else e) <$> transactions st;
  al_nonce : ts_nonce status <= at_nonce allocated /\ 0 <= at_nonce allocated <= i64_max;
  al_fresh n : is_Some (allocated_nonces st !! n) -> n < at_nonce allocated;
  al_delegate : at_authorization allocated ≠ None -> at_nonce allocated < i64_max;
  al_nonces n : allocated_nonces st' !! n =
    if decide (n = at_nonce allocated)
    then Some (MkNonceRow (Some (MkRequest (at_transaction allocated) None None)) None None None)
    else if decide (n = at_nonce allocated + 1)
    then (fun a => MkNonceRow None (Some (auth_address a)) None None) <$> at_authorization allocated
    else allocated_nonces st !! n
}.

Lemma finish_nonce `{EX : Executor} b nonce t : finish b nonce = Some t -> at_nonce t = nonce.
Proof.
  unfold finish. intros H. destruct (match bundle b with DirectBundle slot => slot | _ => _ end); [|done].
  cbn [mbind option_bind] in H. by destruct (bundle_authorization b); injection H as <-.
Qed.

Lemma next_transaction_spec `{EX : Executor} st status b st' allocated :
  storage_ok st -> next_transaction st status b = Ok (st', Some allocated) ->
  exists taken rest, allocates st status b st' allocated taken rest.
Proof.
  intros Hok H0. unfold next_transaction in H0. apply bind_Ok in H0 as (blk & Hblk & H1).
  apply db_integer_Ok in Hblk as [-> _].
  set (queued := filter _ (transactions st)) in *.
  destruct (push_rows_spec b None queued) as (taken & rest & Hq & Htk & Hpr).
  rewrite Hpr in H1. destruct (last taken) as [[m r]|] eqn:Hlast; [|by simplify_eq].
  apply bind_Ok in H1 as (nonce & Hnonce & H1).
  destruct (free_nonce_spec _ _ _ Hok Hnonce) as (Hge & Hnn & Hfresh).
  destruct (finish _ nonce) as [al|] eqn:Hfin; [|by simplify_eq].
  apply bind_Ok in H1 as (nonces & Hins & H1). apply bind_Ok in H1 as (nonces' & Hins' & H1).
  injection H1 as <- <-. pose proof (finish_nonce _ _ _ Hfin) as Han.
  unfold insert_nonce in Hins. destruct (allocated_nonces st !! nonce) eqn:En; [done|].
  injection Hins as <-.
  assert (forall n, nonces' !! n = if decide (n = nonce)
    then Some (MkNonceRow (Some (MkRequest (at_transaction al) None None)) None None None)
    else if decide (n = nonce + 1)
    then (fun a => MkNonceRow None (Some (auth_address a)) None None) <$> at_authorization al
    else allocated_nonces st !! n) as Hn.
  { intros n. destruct (at_authorization al) as [a|].
    - apply bind_Ok in Hins' as (next & Hnext & Hins'). apply ok_or_Ok, to_i64_Some in Hnext as [-> _].
      unfold insert_nonce in Hins'. destruct (_ !! (nonce + 1)); [done|]. injection Hins' as <-.
      destruct (decide (n = nonce)) as [->|Hn1]; [rewrite lookup_insert_ne by lia; by rewrite lookup_insert_eq|].
      destruct (decide (n = nonce + 1)) as [->|Hn2]; [by rewrite lookup_insert_eq|].
      by rewrite !lookup_insert_ne by done.
    - injection Hins' as <-.
      destruct (decide (n = nonce)) as [->|Hn1]; [by rewrite lookup_insert_eq|].
      rewrite lookup_insert_ne by done.
      destruct (decide (n = nonce + 1)) as [->|Hn2]; [|done]. simpl.
      destruct (allocated_nonces st !! (nonce + 1)) eqn:E; [|done].
      specialize (Hfresh (nonce + 1) ltac:(by rewrite E)). lia. }
  exists taken, rest. split; rewrite ?Han; try done.
  - by intros ->.
  - cbv zeta. by rewrite <- Hq.
  - simpl. apply list_fmap_ext. intros i [id q] Hi. unfold allocate_row. simpl.
    apply list_elem_of_lookup_2 in Hi.
    assert (is_queued (ts_block status) q = true -> (id <= m <-> id ∈ taken.*1)) as Hiff.
    { intros Hqd. apply (taken_ids taken rest id (m, r)); [|done|].
      - rewrite <- Hq. apply sorted_filter, Hok.
      - rewrite <- Hq. apply list_elem_of_fmap. exists (id, q). split; [done|].
        by apply list_elem_of_filter. }
    destruct (is_queued (ts_block status) q) eqn:Eq.
    + specialize (Hiff eq_refl). case_decide as Hd; simpl.
      * by rewrite bool_decide_eq_true_2 by tauto.
      * by rewrite bool_decide_eq_false_2 by tauto.
    + simpl. rewrite decide_False; [done|]. intros Hin.
      apply list_elem_of_fmap in Hin as ([id' q'] & Heq & Hin). simpl in Heq. subst id'.
      assert ((id, q') ∈ queued) as Hin' by (rewrite Hq; set_solver).
      apply list_elem_of_filter in Hin' as [Hq' Hin']. simpl in Hq'.
      assert (q = q') as ->; [|congruence].
      eapply (ids_unique (transactions st)); [apply Hok|done|done].
  - lia.
  - intros Ha. destruct (at_authorization al); [|done].
    apply bind_Ok in Hins' as (next & Hnext & _). apply ok_or_Ok, to_i64_Some in Hnext as [-> ?]. lia.
Qed.

Lemma next_transaction_unchanged `{EX : Executor} st status b st' :
  next_transaction st status b = Ok (st', None) -> st' = st.
Proof.
  unfold next_transaction. intros H. apply bind_Ok in H as (blk & _ & H).
  destruct (push_rows _ _ _) as [b' [m|]]; [|by simplify_eq].
  apply bind_Ok in H as (n & _ & H). destruct (finish b' n) as [al|]; [|by simplify_eq].
  apply bind_Ok in H as (? & _ & H). by apply bind_Ok in H as (? & _ & H).
Qed.

Lemma with_nonce_ids nonce (ids : list Z) (rows : list (Z * QueuedRow)) :
  ((fun e => if decide (e.1 ∈ ids) then with_nonce nonce e else e) <$> rows).*1 = rows.*1.
Proof.
  rewrite <- list_fmap_compose. apply list_fmap_ext. intros i [id r] _. simpl. by case_decide.
Qed.

Lemma next_transaction_ok `{EX : Executor} st status b st' al :
  storage_ok st -> next_transaction st status b = Ok (st', al) -> storage_ok st'.
Proof.
  intros Hok H. destruct al as [al|]; [|by apply next_transaction_unchanged in H as ->].
  destruct (next_transaction_spec _ _ _ _ _ Hok H) as (taken & rest & Hal).
  pose proof (al_nonces _ _ _ _ _ _ _ Hal) as Hn. destruct Hok as [Hs Hr Hc Hk]. split.
  - rewrite (al_rows _ _ _ _ _ _ _ Hal). by rewrite with_nonce_ids.
  - intros id r n Hin Hq. rewrite (al_rows _ _ _ _ _ _ _ Hal) in Hin.
    apply list_elem_of_fmap in Hin as ([id' r'] & Heq & Hin).
    unfold with_nonce in Heq. simpl in Heq. case_decide as Htk; simplify_eq/=.
    + rewrite Hn, decide_True by done. eexists. split; [done|by eexists].
    + destruct (Hr _ _ _ Hin Hq) as (nr & Hnr & Hreq). exists nr. split; [|done]. rewrite Hn.
      pose proof (al_fresh _ _ _ _ _ _ _ Hal n ltac:(by rewrite Hnr)).
      by rewrite !decide_False by lia.
  - intros n nr Hnr. rewrite Hn in Hnr. repeat case_decide; [simplify_eq; left; by eexists| |by eapply Hc].
    destruct (at_authorization al); simplify_eq/=. right. by eexists.
  - intros n nr Hnr. rewrite Hn in Hnr. destruct (al_nonce _ _ _ _ _ _ _ Hal) as [_ Hb].
    repeat case_decide; [lia| |by eapply Hk].
    pose proof (al_delegate _ _ _ _ _ _ _ Hal) as Hd. destruct (at_authorization al); [|done].
    specialize (Hd ltac:(done)). simplify_eq/=. lia.
Qed.

Lemma apply_op_ok `{EX : Executor} st op st' : storage_ok st -> apply_op st op = Ok st' -> storage_ok st'.
Proof.
  intros Hok H. destruct op; simpl in H.
  - by apply enqueue_ok in H as [? _].
  - apply fmap_Ok in H as ([st1 al] & H & ->). by eapply next_transaction_ok.
  - by eapply record_submission_ok.
  - by eapply mark_executed_ok.
  - apply fmap_Ok in H as ([st1 al] & H & ->). by eapply recover_ok.
  - by eapply tx_prune_ok.
  - by eapply unmark_ok.
Qed.

Lemma empty_storage_ok : storage_ok empty_storage.
Proof.
  split; simpl; [constructor|by intros id r n Hin%not_elem_of_nil|..]; intros n nr Hnr;
    by rewrite lookup_empty in Hnr.
Qed.

Lemma apply_ops_ok `{EX : Executor} st ops : storage_ok st -> storage_ok (apply_ops st ops).
Proof.
  revert st. induction ops as [|op ops IH]; intros st Hok; [done|]. simpl. apply IH.
  destruct (apply_op st op) as [st'|] eqn:E; [by eapply apply_op_ok|done].
Qed.

(** An allocation is refused by the database only when the nonces run out. *)
Lemma allocation_error `{EX : Executor} st status b :
  storage_ok st -> next_transaction st status b = Err TxDatabase ->
  exists m, max_nonce (allocated_nonces st) = Some m /\ m = i64_max.
Proof.
  intros Hok H. unfold next_transaction in H.
  apply bind_Err in H as [H|(blk & _ & H)]; [unfold db_integer in H; by destruct (to_i64 _)|].
  destruct (push_rows _ _ _) as [b' [m|]]; [|done].
  apply bind_Err in H as [H|(n & Hn & H)].
  - unfold free_nonce in H. apply bind_Err in H as [H|(k & Hk & H)];
      [unfold db_integer in H; by destruct (to_i64 _)|].
    apply db_integer_Ok in Hk as [-> Hk]. unfold to_i64 in H.
    destruct (max_nonce (allocated_nonces st)) as [m'|] eqn:Em; simpl in H.
    + exists m'. split; [done|]. unfold max_nonce in Em.
      apply last_sorted_max in Em as [Hin _]; [|apply sorted_elements_lt].
      apply elem_of_sorted_keys in Hin as [nr Hnr]. apply (so_keys _ Hok) in Hnr.
      case_decide; [done|]. lia.
    + case_decide; [done|]. lia.
  - destruct (free_nonce_spec _ _ _ Hok Hn) as (_ & _ & Hfresh).
    destruct (finish b' n) as [al|]; [|done].
    assert (forall k, n <= k -> allocated_nonces st !! k = None) as Hnone.
    { intros k Hk. destruct (allocated_nonces st !! k) eqn:E; [|done].
      specialize (Hfresh k ltac:(by rewrite E)). lia. }
    assert (forall r, insert_nonce (allocated_nonces st) n r = Ok (<[n := r]> (allocated_nonces st))) as Hins
      by (intros r; unfold insert_nonce; by rewrite Hnone by lia).
    rewrite Hins in H. cbn [mbind result_bind] in H.
    apply bind_Err in H as [H|(? & _ & H)]; [|done]. destruct (at_authorization al); [|done].
    apply bind_Err in H as [H|(k & Hk & H)]; [by destruct (to_i64 (n + 1))|].
    apply ok_or_Ok, to_i64_Some in Hk as [-> _]. unfold insert_nonce in H.
    rewrite lookup_insert_ne, Hnone in H by lia. done.
Qed.

(** C17: the transaction tables stay consistent. After any queries, failed ones
    included, rows are in id order, every allocated row refers to a transaction
    with its nonce, every nonce row is a transaction or a delegation, and the
    constraints of the schema are never violated: an allocation is refused by the
    database only when the nonces of its integers have run out. *)
Theorem tables_consistent `{EX : Executor} ops :
  let st := apply_ops empty_storage ops in
  StronglySorted Z.lt (transactions st).*1 /\
  (forall id r n, (id, r) ∈ transactions st -> qr_nonce r = Some n ->
    exists nr, allocated_nonces st !! n = Some nr /\ is_Some (nr_request nr)) /\
  (forall n nr, allocated_nonces st !! n = Some nr ->
    (is_Some (nr_request nr) \/ is_Some (nr_delegate nr)) /\ 0 <= n <= i64_max) /\
  (forall status b, next_transaction st status b = Err TxDatabase ->
    max_nonce (allocated_nonces st) = Some i64_max).
Proof.
  intros st. pose proof (apply_ops_ok empty_storage ops empty_storage_ok) as Hok. fold st in Hok.
  split_and!; [apply Hok|apply Hok|intros; split; [by eapply so_check|by eapply so_keys]|].
  intros status b H. by destruct (allocation_error _ _ _ Hok H) as (m & ? & ->).
Qed.

(** C18: every nonce is used once, by the oldest queued transactions. An
    allocation gives a nonce at or above the account's and above every nonce ever
    allocated and not pruned; its bundle takes the first of the transactions that
    are queued and not expired, in order, at least one, and exactly those are
    marked as sent at that nonce. *)
Theorem allocation_fresh `{EX : Executor} ops status b st' allocated :
  let st := apply_ops empty_storage ops in
  next_transaction st status b = Ok (st', Some allocated) ->
  ts_nonce status <= at_nonce allocated /\
  (forall n, is_Some (allocated_nonces st !! n) -> n < at_nonce allocated) /\
  exists taken rest,
    filter (fun e => is_queued (ts_block status) e.2 = true) (transactions st) = taken ++ rest /\
    taken ≠ [] /\
    (push_all b ((fun e => qr_request e.2) <$> (taken ++ rest))).2 = (fun e => qr_request e.2) <$> taken /\
    finish (push_all b ((fun e => qr_request e.2) <$> (taken ++ rest))).1 (at_nonce allocated) = Some allocated /\
    transactions st' =
      (fun e => if decide (e.1 ∈ taken.*1) then with_nonce (at_nonce allocated) e else e) <$> transactions st.
Proof.
  intros st H. pose proof (apply_ops_ok empty_storage ops empty_storage_ok) as Hok. fold st in Hok.
  destruct (next_transaction_spec _ _ _ _ _ Hok H) as (taken & rest & [Hq Ht [Hb Hf] Hr [Hn _] Hfr _ _]).
  split_and!; [done|done|]. by exists taken, rest.
Qed.

Lemma apply_op_rows `{EX : Executor} st op st' :
  storage_ok st -> apply_op st op = Ok st' ->
  match op with
  | Enqueue _ => exists rows, transactions st' = transactions st ++ rows
  | NextTransaction _ _ => exists (ids : list Z) n, transactions st' =
      (fun e => if decide (e.1 ∈ ids) then with_nonce n e else e) <$> transactions st /\
      forall id r, (id, r) ∈ transactions st -> id ∈ ids -> qr_nonce r = None
  | TxPrune safe => transactions st' =
      filter (fun e => row_expired safe e.2 = false)
        (filter (fun e => row_executed (allocated_nonces st) safe e.2 = false) (transactions st))
  | _ => transactions st' = transactions st
  end.
Proof.
  intros Hok H. destruct op; simpl in H.
  - apply enqueue_ok in H as (_ & _ & rows & -> & _); [by eexists|done].
  - apply fmap_Ok in H as ([st1 [al|]] & H & ->); simpl.
    + destruct (next_transaction_spec _ _ _ _ _ Hok H) as (taken & rest & Hal).
      exists taken.*1, (at_nonce al). split; [apply Hal|]. intros id r Hin Hid.
      apply list_elem_of_fmap in Hid as ([id' r'] & -> & Hin').
      assert ((id', r') ∈ taken ++ rest) as Hq by set_solver. rewrite <- (al_queued _ _ _ _ _ _ _ Hal) in Hq.
      apply list_elem_of_filter in Hq as [Hq Hin2].
      assert (r = r') as -> by (eapply (ids_unique (transactions st)); [apply Hok|done|done]).
      simpl in Hq. unfold is_queued in Hq. by destruct (qr_nonce r').
    + apply next_transaction_unchanged in H as ->. exists [], 0. split; [|by intros ? ? _ ?%not_elem_of_nil].
      symmetry. etrans; [|apply list_fmap_id]. apply list_fmap_ext. done.
  - unfold record_submission in H. apply bind_Ok in H as (? & _ & H). apply bind_Ok in H as (n & _ & H).
    by destruct (allocated_nonces st !! n) as [[[rq|] dg sb ex]|]; simplify_eq.
  - unfold mark_executed in H. apply bind_Ok in H as (? & _ & H). by apply bind_Ok in H as (? & _ & [= <-]).
  - apply fmap_Ok in H as ([st1 b] & H & ->). unfold recover_authorization_gap in H.
    apply bind_Ok in H as (n & _ & H).
    by destruct (allocated_nonces st !! n) as [[[rq|] [dg|] sb ex]|]; simplify_eq.
  - unfold tx_prune in H. by apply bind_Ok in H as (n & Hn%db_integer_Ok & [= <-]); destruct Hn as [-> _].
  - unfold unmark_executed in H. by apply bind_Ok in H as (? & _ & [= <-]).
Qed.

(** C19: no transaction is lost, and none is sent twice. Whatever query is made,
    a queued transaction stays in the table, and keeps its nonce once it has one,
    until a collection removes it; and a collection at the reorg-safe block removes
    it only if it expired by that block unsent, or if its nonce was executed by
    it. *)
Theorem transactions_kept `{EX : Executor} ops op st' id r :
  let st := apply_ops empty_storage ops in
  apply_op st op = Ok st' -> (id, r) ∈ transactions st ->
  (exists r', (id, r') ∈ transactions st' /\ qr_request r' = qr_request r /\
     qr_expires_at r' = qr_expires_at r /\ forall n, qr_nonce r = Some n -> qr_nonce r' = Some n) \/
  (exists safe, op = TxPrune safe /\
     ((qr_nonce r = None /\ exists e, qr_expires_at r = Some e /\ e <= safe) \/
      exists n nr e, qr_nonce r = Some n /\ allocated_nonces st !! n = Some nr /\
        nr_executed_at nr = Some e /\ e <= safe)).
Proof.
  intros st H Hin. pose proof (apply_ops_ok empty_storage ops empty_storage_ok) as Hok. fold st in Hok.
  pose proof (apply_op_rows st op st' Hok H) as Hrows.
  assert (transactions st' = transactions st ->
    exists r', (id, r') ∈ transactions st' /\ qr_request r' = qr_request r /\
      qr_expires_at r' = qr_expires_at r /\ forall n, qr_nonce r = Some n -> qr_nonce r' = Some n) as Hsame.
  { intros ->. by exists r. }
  destruct op as [txs|status b|s|status|nonce|safe|block]; try (left; by apply Hsame).
  - left. destruct Hrows as [rows ->]. exists r. split; [set_solver|done].
  - left. destruct Hrows as (ids & n & -> & Hnone).
    exists (if decide (id ∈ ids) then MkQueuedRow (qr_request r) (qr_expires_at r) (Some n) else r). split.
    + apply list_elem_of_fmap. exists (id, r). split; [|done]. simpl. by case_decide.
    + case_decide as Hid; [|done]. split_and!; [done|done|].
      intros k Hk. by rewrite (Hnone id r Hin Hid) in Hk.
  - destruct (row_executed (allocated_nonces st) safe r) eqn:Ee; [|destruct (row_expired safe r) eqn:Ex].
    + right. exists safe. split; [done|]. right. unfold row_executed, executed_by in Ee.
      destruct (qr_nonce r) as [n|]; [|done]. destruct (allocated_nonces st !! n) as [nr|] eqn:En; [|done].
      destruct (nr_executed_at nr) as [e|] eqn:Ex; [|done]. apply bool_decide_eq_true in Ee.
      by exists n, nr, e.
    + right. exists safe. split; [done|]. left. unfold row_expired in Ex.
      destruct (qr_nonce r); [done|]. destruct (qr_expires_at r) as [e|]; [|done].
      apply bool_decide_eq_true in Ex. split; [done|]. by exists e.
    + left. exists r. split; [|done]. rewrite Hrows. apply list_elem_of_filter. split; [done|].
      by apply list_elem_of_filter.
Qed.
