(* ===== verification/TxQueue.v ===== *)
(** The transaction queue, [crates/core/src/tx/mod.rs]: what is submitted onchain,
    when, at which nonce and with which fees. An operation is a state monad over
    the queue and the outside: the number of the next request to the node, and
    the transactions broadcast so far. *)

From Stdlib Require Import String Ascii.
From S2P Require Import Prelude Keccak Messages Node TxTypes TxStorage.

(** The provider, as the queue uses it. *)
Class TxNode := {
  TxRpcError : Type;
  (** The message of a JSON-RPC error response. *)
  error_message : TxRpcError -> option string;
  tx_chain_id : Z;
  latest_gas_limit : nat -> result TxRpcError (option Z);
  account_code : nat -> Z -> result TxRpcError bytes;
  (** The nonce and the code hash of an account's proof at a block. *)
  account_proof : nat -> Z -> BlockId -> result TxRpcError (Z * Z);
  estimate_eip1559_fees : nat -> result TxRpcError Fees;
  send_raw_transaction : nat -> bytes -> result TxRpcError unit
}.

Definition lower (c : ascii) : ascii :=
  let n := N_of_ascii c in
  if (N.leb 65 n && N.leb n 90)%bool then ascii_of_N (n + 32) else c.

(** A case-insensitive search for a literal, over ASCII. *)
Fixpoint starts_with (needle s : string) : bool :=
  match needle, s with
  | EmptyString, _ => true
  | String a needle, String b s => Ascii.eqb (lower a) (lower b) && starts_with needle s
  | _, _ => false
  end.
Fixpoint icontains (needle s : string) : bool :=
  starts_with needle s || match s with String _ s => icontains needle s | EmptyString => false end.

Section TxQueue.
Context {KEC : Keccak} {EX : Executor} {SG : Signer} {TN : TxNode}.

(** [tx::Error]. *)
Inductive TxError :=
| TxStorageErr (e : TxStorageError)
| TxRpc (e : TxRpcError)
| TxSigning
| ExecutorWithoutCode (executor : Z)
| BatchGasExceedsBlockGasLimit (max_batch_gas gas_limit : Z).

Definition is_intermittent (e : TxError) : bool := match e with TxRpc _ => true | _ => false end.

Definition lift_intermittent_error {A} (r : result TxError A) : result TxError (result TxError A) :=
  match r with
  | Ok a => Ok (Ok a)
  | Err e => if is_intermittent e then Ok (Err e) else Err e
  end.

Definition is_transaction_underpriced (e : TxRpcError) : bool :=
  match error_message e with
  | Some m =>
      (icontains "replacement transaction" m && icontains "underpriced" m) ||
      icontains "INTERNAL_ERROR: could not replace existing tx" m
  | None => false
  end.

Record TransactionQueue := MkQueue {
  tq_storage : TransactionStorage;
  tq_config : TxConfig;
  tq_block_status : option BlockStatus;
  account_cache : option AccountStatus;
  fee_cache : option Fees
}.

Definition with_storage (q : TransactionQueue) (st : TransactionStorage) : TransactionQueue :=
  MkQueue st (tq_config q) (tq_block_status q) (account_cache q) (fee_cache q).
Definition with_account (q : TransactionQueue) (a : option AccountStatus) : TransactionQueue :=
  MkQueue (tq_storage q) (tq_config q) (tq_block_status q) a (fee_cache q).
Definition with_fees (q : TransactionQueue) (f : option Fees) : TransactionQueue :=
  MkQueue (tq_storage q) (tq_config q) (tq_block_status q) (account_cache q) f.
Definition with_status (q : TransactionQueue) (s : option BlockStatus) : TransactionQueue :=
  MkQueue (tq_storage q) (tq_config q) s (account_cache q) (fee_cache q).

(** ** Operations *)

(** The queue, the number of its next request, and what it broadcast. *)
Record World := MkWorld {
  world_queue : TransactionQueue; world_tick : nat; broadcast : list UnsignedTransaction
}.

Definition M (A : Type) : Type := World -> result TxError A * World.

#[export] Instance M_ret : MRet M := fun A a w => (Ok a, w).
#[export] Instance M_bind : MBind M := fun A B f m w =>
  match m w with (Ok a, w) => f a w | (Err e, w) => (Err e, w) end.

Definition get_queue : M TransactionQueue := fun w => (Ok (world_queue w), w).
Definition set_queue (f : TransactionQueue -> TransactionQueue) : M unit := fun w =>
  (Ok (), MkWorld (f (world_queue w)) (world_tick w) (broadcast w)).
Definition fail {A} (e : TxError) : M A := fun w => (Err e, w).

(** A request to the node, its error propagated, or handed to the caller. *)
Definition try_rpc {A} (request : nat -> result TxRpcError A) : M (result TxRpcError A) := fun w =>
  (Ok (request (world_tick w)), MkWorld (world_queue w) (S (world_tick w)) (broadcast w)).
Definition rpc {A} (request : nat -> result TxRpcError A) : M A :=
  r ← try_rpc request; match r with Ok a => mret a | Err e => fail (TxRpc e) end.

(** A query of the storage; one that fails leaves it as it was. *)
Definition query {A} (f : TransactionStorage -> result TxStorageError (TransactionStorage * A)) : M A :=
  fun w =>
    match f (tq_storage (world_queue w)) with
    | Ok (st, a) => (Ok a, MkWorld (with_storage (world_queue w) st) (world_tick w) (broadcast w))
    | Err e => (Err (TxStorageErr e), w)
    end.
Definition update (f : TransactionStorage -> result TxStorageError TransactionStorage) : M unit :=
  query (fun st => (fun st => (st, ())) <$> f st).
Definition read {A} (f : TransactionStorage -> result TxStorageError A) : M A :=
  query (fun st => (pair st) <$> f st).

(** [account]: cached until the latest block changes. *)
Definition account : M AccountStatus :=
  q ← get_queue;
  match account_cache q with
  | Some a => mret a
  | None =>
      let block :=
        match tq_block_status q with Some s => BlockNumber (latest s) | None => LatestBlock end in
      proof ← rpc (fun tick => account_proof tick signer_address block);
      let a := new_account proof.1 proof.2 in
      _ ← set_queue (fun q => with_account q (Some a));
      mret a
  end.

(** [fees]: cached until the latest block changes. *)
Definition current_fees : M Fees :=
  q ← get_queue;
  match fee_cache q with
  | Some f => mret f
  | None =>
      f ← rpc estimate_eip1559_fees;
      let f := match priority_fee_cap_percentage (tq_config q) with
               | Some cap => cap_priority_fee f cap
               | None => f
               end in
      _ ← set_queue (fun q => with_fees q (Some f));
      mret f
  end.

(** Handing a signed transaction to the node. *)
Definition send (t : UnsignedTransaction) (raw : bytes) : M (result TxRpcError unit) := fun w =>
  (Ok (send_raw_transaction (world_tick w) raw),
   MkWorld (world_queue w) (S (world_tick w)) (broadcast w ++ [t])).

Definition submit_transaction (t : AllocatedTransaction) (block : Z) : M unit :=
  fees ← current_fees;
  let t := build_transaction t tx_chain_id fees in
  let submission block := MkSubmission block (ut_nonce t) (ut_fees t) in
  match sign_transaction t with
  | None => fail TxSigning
  | Some raw =>
      sent ← send t raw;
      match sent with
      | Ok _ => update (fun st => record_submission st (submission (Some block)))
      | Err e =>
          if is_transaction_underpriced e
          then update (fun st => record_submission st (submission None))
          else mret ()
      end
  end.

(** The authorization an account needs to be delegated to [address]. *)
Definition authorize (a : AccountStatus) (address : Z) : option Authorization :=
  let wanted := MkAuthorization address in
  if decide (acc_code_hash a ≠ code_hash wanted) then Some wanted else None.

Definition bundler_for (mode : SubmissionMode) (a : AccountStatus) : Bundler :=
  match mode with
  | Direct _ => direct (authorize a 0)
  | Batched executor max_batch_gas => batched signer_address max_batch_gas (authorize a executor)
  end.

(** The loop of [submit_pending], while there is room for more in flight. *)
Fixpoint submit_loop (room in_flight : nat) (block : Z) : M unit :=
  match room with
  | O => mret ()
  | S room =>
      a ← account;
      if is_delegated a && bool_decide (0 < in_flight)%nat then mret ()
      else
        q ← get_queue;
        t ← query (fun st => next_transaction st (MkTxStatus block (acc_nonce a))
                               (bundler_for (mode (tq_config q)) a));
        match t with
        | None => mret ()
        | Some t => _ ← submit_transaction t block; submit_loop room (S in_flight) block
        end
  end.

Definition submit_pending (block : Z) : M unit :=
  in_flight ← read (fun st => Ok (count_in_flight st));
  q ← get_queue;
  submit_loop (Z.to_nat (max_in_flight_transactions (mode (tq_config q))) - in_flight) in_flight block.

Fixpoint submit_all (ts : list AllocatedTransaction) (block : Z) : M unit :=
  match ts with
  | [] => mret ()
  | t :: ts => _ ← submit_transaction t block; submit_all ts block
  end.

Definition resubmit_stale (block : Z) : M unit :=
  q ← get_queue;
  stale ← read (fun st => stale_submissions st (checked_sub block (blocks_before_resubmit (tq_config q))));
  submit_all stale block.

(** [TransactionQueue::queue]. *)
Definition queue_transactions (txs : list (Transaction * option Z)) : M unit :=
  _ ← update (fun st => enqueue st txs);
  q ← get_queue;
  match tq_block_status q with Some s => submit_pending (latest s) | None => mret () end.

(** The first uncled block, whose execution markers are void. *)
Definition unmark_from (previous : option BlockStatus) (s : BlockStatus) : option Z :=
  match previous with
  | None => checked_add (safe s) 1
  | Some previous => if decide (latest s < latest previous) then checked_add (latest s) 1 else None
  end.

Definition void_markers (previous : option BlockStatus) (s : BlockStatus) : M unit :=
  match unmark_from previous s with
  | Some block => update (fun st => unmark_executed st block)
  | None => mret ()
  end.

(** Whether new blocks may have included transactions. *)
Definition advances (previous : option BlockStatus) (s : BlockStatus) : bool :=
  match previous with Some p => bool_decide (latest p < latest s) | None => true end.

Definition when (b : bool) (m : M unit) : M unit := if b then m else mret ().

(** What [update_block_status] does when the latest block advanced and there are
    transactions to see included. *)
Definition reconcile (s : BlockStatus) : M unit :=
  a ← account;
  _ ← update (fun st => mark_executed st (MkTxStatus (latest s) (acc_nonce a)));
  _ ← query (fun st => recover_authorization_gap st (acc_nonce a));
  _ ← resubmit_stale (latest s);
  submit_pending (latest s).

Definition update_block_status (s : BlockStatus) : M unit :=
  q ← get_queue;
  let previous := tq_block_status q in
  if decide (latest <$> previous = Some (latest s) /\ safe <$> previous = Some (safe s)) then mret ()
  else
    _ ← set_queue (fun q => with_status q (Some s));
    _ ← when (bool_decide (latest <$> previous ≠ Some (latest s)))
          (set_queue (fun q => with_fees (with_account q None) None));
    _ ← when (bool_decide (safe <$> previous ≠ Some (safe s))) (update (fun st => tx_prune st (safe s)));
    _ ← void_markers previous s;
    if advances previous s then
      outstanding ← read (fun st => count_outstanding st (latest s));
      when (bool_decide (0 < outstanding)%nat) (reconcile s)
    else mret ().

(** [TransactionQueue::new]. *)
Definition check_mode (config : TxConfig) (tick : nat) : result TxError unit * nat :=
  match mode config with
  | Direct _ => (Ok (), tick)
  | Batched executor max_batch_gas =>
      match latest_gas_limit tick with
      | Err e => (Err (TxRpc e), S tick)
      | Ok limit =>
          let gas_limit := default 0 limit in
          if decide (gas_limit / 2 < max_batch_gas)
          then (Err (BatchGasExceedsBlockGasLimit max_batch_gas gas_limit), S tick)
          else
            match account_code (S tick) executor with
            | Err e => (Err (TxRpc e), S (S tick))
            | Ok code =>
                (if decide (code = []) then Err (ExecutorWithoutCode executor) else Ok (), S (S tick))
            end
      end
  end.

Definition new_queue (st : TransactionStorage) (config : TxConfig) (tick : nat)
    : result TxError TransactionQueue * nat :=
  let '(checked, tick) := check_mode config tick in
  (_ ← checked; Ok (MkQueue st config None None None), tick).

(** ** What the operations do to the world *)

(** A computation relates the worlds before and after it, whatever its result. *)
Definition moves {A} (R : World -> World -> Prop) (m : M A) : Prop := forall w, R w (m w).2.

Lemma bind_inv {A B} (m : M A) (f : A -> M B) w :
  (exists a, (m w).1 = Ok a /\ (m ≫= f) w = f a (m w).2) \/
  (exists e, (m w).1 = Err e /\ (m ≫= f) w = (Err e, (m w).2)).
Proof.
  unfold mbind, M_bind. destruct (m w) as [[a|e] w']; [left; by exists a|right; by exists e].
Qed.

(** Runs the first computation of a sequence. *)
Tactic Notation "step" simple_intropattern(a) simple_intropattern(e) simple_intropattern(H) :=
  lazymatch goal with
  | |- context [mbind ?f ?m ?w] => destruct (bind_inv m f w) as [(a & H & ->)|(e & H & ->)]
  end.

Lemma moves_bind {A B} (R : World -> World -> Prop) `{!PreOrder R} (m : M A) (f : A -> M B) :
  moves R m -> (forall a, moves R (f a)) -> moves R (m ≫= f).
Proof.
  intros Hm Hf w. destruct (bind_inv m f w) as [(a & _ & ->)|(e & _ & ->)]; [|apply Hm].
  etrans; [apply Hm|apply Hf].
Qed.

Section Moves.
Context (R : World -> World -> Prop) {PRE : PreOrder R}.
Hypothesis moves_tick : forall w tick, R w (MkWorld (world_queue w) tick (broadcast w)).

Lemma moves_id {A} (m : M A) : (forall w, (m w).2 = w) -> moves R m.
Proof. intros Hm w. rewrite Hm. done. Qed.

Lemma moves_get : moves R get_queue. Proof. by apply moves_id. Qed.
Lemma moves_mret {A} (a : A) : moves R (mret a). Proof. by apply moves_id. Qed.
Lemma moves_fail {A} (e : TxError) : moves R (fail (A := A) e). Proof. by apply moves_id. Qed.
Lemma moves_rpc {A} (request : nat -> result TxRpcError A) : moves R (rpc request).
Proof.
  apply (moves_bind _); [intros w; apply moves_tick|]. intros []; apply moves_id; done.
Qed.
Lemma moves_read {A} (f : TransactionStorage -> result TxStorageError A) : moves R (read f).
Proof.
  apply moves_id. intros [q tick sent]. unfold read, query. cbn [world_queue].
  destruct (f (tq_storage q)); [|done]. by destruct q.
Qed.
Lemma moves_when b m : moves R m -> moves R (when b m).
Proof. intros Hm. destruct b; [done|]. by apply moves_id. Qed.
End Moves.

Definition enqueues (op : TxOp) : bool := match op with Enqueue _ => true | _ => false end.

(** The storage changes by queries that enqueue nothing, the configuration not at all, and nothing
    that was broadcast is taken back. *)
Record queries (w w' : World) : Prop := {
  qs_storage : exists ops, tq_storage (world_queue w') = apply_ops (tq_storage (world_queue w)) ops /\
    Forall (fun op => enqueues op = false) ops;
  qs_config : tq_config (world_queue w') = tq_config (world_queue w);
  qs_sent : broadcast w `prefix_of` broadcast w'
}.

#[export] Instance queries_preorder : PreOrder queries.
Proof.
  split; [intros w; split; [by exists []|done|done]|].
  intros w1 w2 w3 [(o1 & H1 & Q1) C1 S1] [(o2 & H2 & Q2) C2 S2]. split; [|congruence|by etrans].
  exists (o1 ++ o2). rewrite H2, H1. unfold apply_ops. rewrite foldl_app. split; [done|by apply Forall_app].
Qed.

Lemma queries_tick w tick : queries w (MkWorld (world_queue w) tick (broadcast w)).
Proof. split; [by exists []|done|done]. Qed.

Lemma queries_set f :
  (forall q, tq_storage (f q) = tq_storage q /\ tq_config (f q) = tq_config q) -> moves queries (set_queue f).
Proof. intros Hf w. destruct (Hf (world_queue w)) as [Hs Hc]. split; simpl; [|done|done]. by exists []. Qed.

Lemma queries_op {A} (f : TransactionStorage -> result TxStorageError (TransactionStorage * A)) op :
  enqueues op = false -> (forall st, apply_op st op = fst <$> f st) -> moves queries (query f).
Proof.
  intros Hq Hf w. unfold query. specialize (Hf (tq_storage (world_queue w))).
  destruct (f (tq_storage (world_queue w))) as [[st a]|e]; simpl; [|reflexivity].
  split; simpl; [|done|done]. exists [op]. simpl. rewrite Hf. split; [done|by apply Forall_singleton].
Qed.

Lemma queries_update (f : TransactionStorage -> result TxStorageError TransactionStorage) op :
  enqueues op = false -> (forall st, apply_op st op = f st) -> moves queries (update f).
Proof.
  intros Hq Hf. apply (queries_op _ op Hq). intros st. rewrite Hf. by destruct (f st).
Qed.

Lemma queries_send t raw : moves queries (send t raw).
Proof. intros w. split; simpl; [by exists []|done|by apply prefix_app_r]. Qed.

Create HintDb txqueue.

(** Walks a computation, leaving the queries it makes. *)
Ltac walk_with R tick :=
  repeat first
    [ progress intros
    | progress eauto with txqueue
    | apply (moves_rpc R tick) | apply (moves_read R)
    | apply (moves_bind R)
    | apply (moves_get R) | apply (moves_mret R) | apply (moves_fail R)
    | apply (moves_when R)
    | progress (unfold M in *; split_match) ].
Ltac walk :=
  walk_with queries queries_tick;
  repeat first [apply queries_set; by intros [] | apply queries_send];
  walk_with queries queries_tick.

Lemma account_queries : moves queries account.
Proof. unfold account. walk. Qed.
Lemma fees_queries : moves queries current_fees.
Proof. unfold current_fees. walk. Qed.
Hint Resolve account_queries fees_queries : txqueue.

Lemma submit_transaction_queries t block : moves queries (submit_transaction t block).
Proof.
  unfold submit_transaction. walk.
  - by eapply queries_update with (op := RecordSubmission _).
  - by eapply queries_update with (op := RecordSubmission _).
Qed.
Hint Resolve submit_transaction_queries : txqueue.

Lemma submit_loop_queries room n block : moves queries (submit_loop room n block).
Proof.
  revert n. induction room as [|room IH]; intros n; cbn [submit_loop]; walk.
  by eapply queries_op with (op := NextTransaction _ _).
Qed.
Hint Resolve submit_loop_queries : txqueue.

Lemma submit_pending_queries block : moves queries (submit_pending block).
Proof. unfold submit_pending. walk. Qed.

Lemma submit_all_queries ts block : moves queries (submit_all ts block).
Proof. induction ts as [|t ts IH]; cbn [submit_all]; walk. Qed.
Hint Resolve submit_pending_queries submit_all_queries : txqueue.

Lemma resubmit_stale_queries block : moves queries (resubmit_stale block).
Proof. unfold resubmit_stale. walk. Qed.
Hint Resolve resubmit_stale_queries : txqueue.

(** Queueing enqueues its transactions, and nothing else. *)
Lemma queue_transactions_queries txs w :
  let st := tq_storage (world_queue w) in
  exists ops, tq_storage (world_queue (queue_transactions txs w).2) = apply_ops st (Enqueue txs :: ops) /\
    Forall (fun op => enqueues op = false) ops /\
    forall e, enqueue st txs = Err e -> (queue_transactions txs w).1 = Err (TxStorageErr e).
Proof.
  intros st. unfold queue_transactions, update, query. unfold mbind at 1 3, M_bind at 1 3. fold st.
  destruct (enqueue st txs) as [st'|e] eqn:He; simpl; rewrite He.
  2:{ exists []. split_and!; [done|done|by intros ? [= ->]]. }
  match goal with |- context [mbind ?f ?m ?w'] => set (w1 := w');
    assert (queries w1 ((m ≫= f) w1).2) as [(ops & Hops & Hq) _ _] end.
  { revert w1. generalize (MkWorld (with_storage (world_queue w) st') (world_tick w) (broadcast w)).
    intros w1. apply (moves_bind queries); [by apply (moves_get queries)|]. intros q.
    destruct (tq_block_status q); [apply submit_pending_queries|by apply (moves_mret queries)]. }
  exists ops. rewrite Hops. done.
Qed.

Lemma reconcile_queries s : moves queries (reconcile s).
Proof.
  unfold reconcile. walk.
  - by eapply queries_update with (op := MarkExecuted _).
  - by eapply queries_op with (op := RecoverGap _).
Qed.
Hint Resolve reconcile_queries : txqueue.

Lemma update_block_status_queries s : moves queries (update_block_status s).
Proof.
  unfold update_block_status, void_markers. walk.
  - by eapply queries_update with (op := TxPrune _).
  - by eapply queries_update with (op := UnmarkExecuted _).
Qed.

(** ** What is in flight *)

Lemma count_same (m m' : gmap Z NonceRow) :
  (forall n, in_flight <$> m' !! n = in_flight <$> m !! n) ->
  size (filter (fun e : Z * NonceRow => in_flight e.2 = true) m') =
  size (filter (fun e : Z * NonceRow => in_flight e.2 = true) m).
Proof.
  intros H. rewrite <- !(size_dom (D := gset Z)). f_equal. apply set_eq. intros n.
  rewrite !elem_of_dom. specialize (H n). unfold is_Some. setoid_rewrite map_lookup_filter_Some. simpl.
  destruct (m !! n) as [r|], (m' !! n) as [r'|]; simplify_eq/=;
    split; intros (x & ? & ?); simplify_eq; eexists; split; try done; congruence.
Qed.

(** A fresh transaction and its authorization are one more in flight. *)
Lemma allocates_count st status b st' t taken rest :
  allocates st status b st' t taken rest -> count_in_flight st' = S (count_in_flight st).
Proof.
  intros Hal. pose proof (al_nonces _ _ _ _ _ _ _ Hal) as Hn. unfold count_in_flight.
  set (row := MkNonceRow (Some (MkRequest (at_transaction t) None None)) None None None) in *.
  assert (allocated_nonces st !! at_nonce t = None /\ allocated_nonces st !! (at_nonce t + 1) = None) as [H1 H2].
  { split; [destruct (_ !! at_nonce t) eqn:E|destruct (_ !! (at_nonce t + 1)) eqn:E]; try done;
      pose proof (al_fresh _ _ _ _ _ _ _ Hal _ (mk_is_Some _ _ E)); lia. }
  transitivity (size (filter (fun e : Z * NonceRow => in_flight e.2 = true) (<[at_nonce t := row]> (allocated_nonces st)))).
  - rewrite <- !(size_dom (D := gset Z)). f_equal. apply set_eq. intros n.
    rewrite !elem_of_dom. unfold is_Some. setoid_rewrite map_lookup_filter_Some. rewrite Hn. simpl.
    destruct (decide (n = at_nonce t)) as [->|Hne]; [by rewrite lookup_insert_eq|].
    rewrite lookup_insert_ne by done. destruct (decide (n = at_nonce t + 1)) as [->|]; [|done].
    rewrite H2. destruct (at_authorization t); simpl; split; intros (x & ? & ?); simplify_eq/=.
  - rewrite map_filter_insert. rewrite decide_True by done. apply map_size_insert_None.
    apply map_lookup_filter_None. by left.
Qed.

(** The transaction of a nonce, and its markers, survive. *)
Definition row_kept (r r' : NonceRow) : Prop :=
  rq_transaction <$> nr_request r' = rq_transaction <$> nr_request r /\
  nr_executed_at r' = nr_executed_at r.
Definition rows_kept (st st' : TransactionStorage) : Prop :=
  forall n r, allocated_nonces st !! n = Some r ->
    exists r', allocated_nonces st' !! n = Some r' /\ row_kept r r'.

#[export] Instance rows_kept_preorder : PreOrder rows_kept.
Proof.
  split; [intros st n r Hr; by exists r|]. intros s1 s2 s3 H12 H23 n r1 Hr1.
  destruct (H12 n r1 Hr1) as (r2 & Hr2 & E2 & X2). destruct (H23 n r2 Hr2) as (r3 & Hr3 & E3 & X3).
  exists r3. split; [done|]. split; congruence.
Qed.

Lemma allocates_kept st status b st' t taken rest :
  allocates st status b st' t taken rest -> rows_kept st st'.
Proof.
  intros Hal n r Hr. pose proof (al_fresh _ _ _ _ _ _ _ Hal n (mk_is_Some _ _ Hr)).
  exists r. split; [|done]. rewrite (al_nonces _ _ _ _ _ _ _ Hal), !decide_False by lia. done.
Qed.

Lemma record_submission_kept st s st' :
  record_submission st s = Ok st' -> rows_kept st st' /\ count_in_flight st' = count_in_flight st.
Proof.
  unfold record_submission. intros H. apply bind_Ok in H as (b & _ & H). apply bind_Ok in H as (k & _ & H).
  destruct (allocated_nonces st !! k) as [[[rq|] dg sb ex]|] eqn:E; try done. injection H as <-. split.
  - intros n r Hr. simpl. destruct (decide (k = n)) as [->|Hne].
    + rewrite lookup_insert_eq. eexists. split; [done|]. by simplify_eq.
    + rewrite lookup_insert_ne by done. by exists r.
  - apply count_same. intros n. simpl. destruct (decide (k = n)) as [->|Hne];
      [by rewrite lookup_insert_eq, E|by rewrite lookup_insert_ne by done].
Qed.

Lemma record_submission_dom st s st' n :
  record_submission st s = Ok st' -> is_Some (allocated_nonces st' !! n) <-> is_Some (allocated_nonces st !! n).
Proof.
  unfold record_submission. intros H. apply bind_Ok in H as (b & _ & H). apply bind_Ok in H as (k & _ & H).
  destruct (allocated_nonces st !! k) as [[[rq|] dg sb ex]|] eqn:E; try done. injection H as <-. simpl.
  destruct (decide (k = n)) as [->|Hne]; [rewrite lookup_insert_eq, E|by rewrite lookup_insert_ne by done].
  by split; eexists.
Qed.

(** What submitting one transaction does, whatever its result. *)
Record submits (t : AllocatedTransaction) (w w' : World) : Prop := {
  su_config : tq_config (world_queue w') = tq_config (world_queue w);
  su_account : account_cache (world_queue w') = account_cache (world_queue w);
  su_storage : tq_storage (world_queue w') = tq_storage (world_queue w) \/
    exists s, record_submission (tq_storage (world_queue w)) s = Ok (tq_storage (world_queue w'));
  su_sent : exists sent, broadcast w' = broadcast w ++ sent /\
    (sent = [] \/ exists fees, sent = [build_transaction t tx_chain_id fees])
}.

Lemma update_record s w :
  let w' := (update (fun st => record_submission st s) w).2 in
  broadcast w' = broadcast w /\
  tq_config (world_queue w') = tq_config (world_queue w) /\
  account_cache (world_queue w') = account_cache (world_queue w) /\
  (tq_storage (world_queue w') = tq_storage (world_queue w) \/
   record_submission (tq_storage (world_queue w)) s = Ok (tq_storage (world_queue w'))).
Proof.
  intros w'. unfold w', update, query.
  destruct (record_submission _ s) as [st'|e]; simpl; split_and!; auto.
Qed.

(** The fees, and what fetching them leaves unchanged. *)
Lemma current_fees_frame w :
  let w' := (current_fees w).2 in
  broadcast w' = broadcast w /\ tq_storage (world_queue w') = tq_storage (world_queue w) /\
  tq_config (world_queue w') = tq_config (world_queue w) /\
  account_cache (world_queue w') = account_cache (world_queue w).
Proof.
  unfold current_fees, rpc, try_rpc, get_queue, set_queue, mbind, M_bind, mret, M_ret, fail.
  destruct w as [[st c s a f] tick sent]. simpl. destruct f; [done|]. cbn.
  destruct (estimate_eip1559_fees tick); done.
Qed.

Lemma submit_transaction_submits t block w : submits t w (submit_transaction t block w).2.
Proof.
  unfold submit_transaction. pose proof (current_fees_frame w) as (Hb & Hst & Hc & Ha).
  step fees e _.
  2:{ simpl. split; [done|done|by left|]. exists []. rewrite app_nil_r. by split; [|left]. }
  destruct (current_fees w) as [r w1]. simpl in *. set (u := build_transaction t tx_chain_id fees).
  destruct (sign_transaction u) as [raw|].
  2:{ simpl. split; [done|done|by left|]. exists []. rewrite app_nil_r. by split; [|left]. }
  set (w2 := MkWorld (world_queue w1) (S (world_tick w1)) (broadcast w1 ++ [u])).
  assert (forall w3, broadcast w3 = broadcast w2 -> tq_config (world_queue w3) = tq_config (world_queue w2) ->
    account_cache (world_queue w3) = account_cache (world_queue w2) ->
    (tq_storage (world_queue w3) = tq_storage (world_queue w2) \/
     exists s, record_submission (tq_storage (world_queue w2)) s = Ok (tq_storage (world_queue w3))) ->
    submits t w w3) as Hsub.
  { intros w3 H1 H2 H3 H4. simpl in *. rewrite Hst in H4. split; [congruence|congruence|done|].
    exists [u]. rewrite H1, Hb. split; [done|]. right. by exists fees. }
  unfold mbind, M_bind, send. fold w2.
  destruct (send_raw_transaction (world_tick w1) raw) as [[]|e];
    [|destruct (is_transaction_underpriced e); [|by apply (Hsub w2); auto]];
    match goal with |- context [record_submission _ ?s] =>
      destruct (update_record s w2) as (H1 & H2 & H3 & H4) end;
    apply Hsub; eauto; destruct H4 as [H4|H4]; eauto.
Qed.

(** ** A submission pass *)

(** The authorization a mode wants for an account. *)
Definition wanted (m : SubmissionMode) (a : AccountStatus) : option Authorization :=
  match m with Direct _ => authorize a 0 | Batched executor _ => authorize a executor end.

Lemma push_authorization b t : bundle_authorization (push b t).1 = bundle_authorization b.
Proof. unfold push. destruct (bundle b) as [[]|]; [done|done|]. by destruct (_ || _). Qed.
Lemma push_all_authorization b ts : bundle_authorization (push_all b ts).1 = bundle_authorization b.
Proof.
  revert b. induction ts as [|t ts IH]; intros b; [done|]. cbn [push_all].
  pose proof (push_authorization b t) as Hp. destruct (push b t) as [b' []]; [|done].
  specialize (IH b'). destruct (push_all b' ts). simpl in *. congruence.
Qed.
Lemma finish_authorization b n t : finish b n = Some t -> at_authorization t = bundle_authorization b.
Proof.
  unfold finish. destruct (match bundle b with DirectBundle slot => slot | _ => _ end); [|done].
  simpl. intros H. by destruct (bundle_authorization b); simplify_eq/=.
Qed.

Lemma allocates_authorization st status m a st' t taken rest :
  allocates st status (bundler_for m a) st' t taken rest -> at_authorization t = wanted m a.
Proof.
  intros Hal. destruct (al_bundle _ _ _ _ _ _ _ Hal) as [_ Hf]. apply finish_authorization in Hf as ->.
  rewrite push_all_authorization. by destruct m.
Qed.

(** What is sent is the transaction recorded at its nonce, not yet executed. *)
Definition sent_from (st : TransactionStorage) (t : UnsignedTransaction) : Prop :=
  exists r rq, allocated_nonces st !! ut_nonce t = Some r /\ nr_executed_at r = None /\
    nr_request r = Some rq /\
    rq_transaction rq = MkTransaction (ut_to t) (ut_value t) (ut_input t) (ut_gas_limit t).

Lemma sent_from_kept st st' t : rows_kept st st' -> sent_from st t -> sent_from st' t.
Proof.
  intros Hk (r & rq & Hr & Hx & Hrq & Ht). destruct (Hk _ _ Hr) as (r' & Hr' & E & X).
  rewrite Hrq in E. destruct (nr_request r') as [rq'|] eqn:Hq; [|done]. exists r', rq'.
  simplify_eq/=. split_and!; [done|congruence|done|congruence].
Qed.

Definition nonces_of (w : World) : gmap Z NonceRow := allocated_nonces (tq_storage (world_queue w)).
Definition flight (w : World) : nat := count_in_flight (tq_storage (world_queue w)).

(** Broadcasting at fresh, ascending nonces, from the account's on, with the
    authorization its status calls for. *)
Record sends (w w' : World) (sent : list UnsignedTransaction) : Prop := {
  se_broadcast : broadcast w' = broadcast w ++ sent;
  se_sorted : StronglySorted Z.lt (ut_nonce <$> sent);
  se_fresh t k : t ∈ sent -> is_Some (nonces_of w !! k) -> k < ut_nonce t;
  se_kept : rows_kept (tq_storage (world_queue w)) (tq_storage (world_queue w'));
  se_new n : is_Some (nonces_of w' !! n) -> nonces_of w !! n = None ->
    exists a, account_cache (world_queue w') = Some a /\ acc_nonce a <= n;
  se_rows t : t ∈ sent -> sent_from (tq_storage (world_queue w')) t;
  se_account t : t ∈ sent -> exists a, account_cache (world_queue w') = Some a /\
    acc_nonce a <= ut_nonce t /\ ut_authorization t = wanted (mode (tq_config (world_queue w'))) a;
  se_cache a : account_cache (world_queue w) = Some a -> account_cache (world_queue w') = Some a;
  se_config : tq_config (world_queue w') = tq_config (world_queue w)
}.
Definition pass (w w' : World) : Prop := exists sent, sends w w' sent.

Lemma sends_nil w w' :
  broadcast w' = broadcast w -> tq_storage (world_queue w') = tq_storage (world_queue w) ->
  tq_config (world_queue w') = tq_config (world_queue w) ->
  (forall a, account_cache (world_queue w) = Some a -> account_cache (world_queue w') = Some a) -> sends w w' [].
Proof.
  intros Hb Hs Hc Ha. split; try done; try (by intros ? ?%not_elem_of_nil);
    [by rewrite app_nil_r|constructor| |by rewrite Hs|].
  - by intros ? ? ?%not_elem_of_nil.
  - unfold nonces_of. rewrite Hs. intros n [r Hr] ?. congruence.
Qed.

Lemma StronglySorted_app_lt (l k : list Z) :
  StronglySorted Z.lt l -> StronglySorted Z.lt k -> (forall x y, x ∈ l -> y ∈ k -> x < y) ->
  StronglySorted Z.lt (l ++ k).
Proof.
  intros Hl Hk H. induction Hl as [|x l Hl IH Hall]; [done|]. simpl. constructor.
  - apply IH. intros. apply H; [by right|done].
  - apply Forall_app. split; [done|]. apply Forall_forall. intros y Hy. apply H; [by left|done].
Qed.

Lemma sends_app w1 w2 w3 s1 s2 : sends w1 w2 s1 -> sends w2 w3 s2 -> sends w1 w3 (s1 ++ s2).
Proof.
  intros [B1 O1 F1 K1 N1 R1 A1 C1 G1] [B2 O2 F2 K2 N2 R2 A2 C2 G2]. split.
  - by rewrite B2, B1, (assoc_L (++)).
  - rewrite fmap_app. apply StronglySorted_app_lt; [done|done|].
    intros x y (t & -> & Ht)%list_elem_of_fmap (u & -> & Hu)%list_elem_of_fmap.
    destruct (R1 t Ht) as (r & rq & Hr & _). apply (F2 u); [done|]. unfold nonces_of. by rewrite Hr.
  - intros t k [Ht|Ht]%elem_of_app Hk; [by apply F1|]. apply F2; [done|]. destruct Hk as [r Hr].
    destruct (K1 k r Hr) as (r' & Hr' & _). by exists r'.
  - by etrans.
  - intros n Hn Hn1. destruct (nonces_of w2 !! n) as [r|] eqn:E; [|by apply N2].
    destruct (N1 n ltac:(by eexists) Hn1) as (a & Ha & Hle). exists a. auto.
  - intros t [Ht|Ht]%elem_of_app; [|by apply R2]. eapply sent_from_kept; [exact K2|by apply R1].
  - intros t [Ht|Ht]%elem_of_app; [|by apply A2]. destruct (A1 t Ht) as (a & Ha & Hn & Hw).
    exists a. rewrite G2. auto.
  - auto.
  - congruence.
Qed.

#[export] Instance pass_preorder : PreOrder pass.
Proof.
  split; [intros w; exists []; by apply sends_nil|].
  intros w1 w2 w3 [s1 H1] [s2 H2]. exists (s1 ++ s2). by eapply sends_app.
Qed.

(** Reading the account. *)
Lemma account_frame w :
  let '(r, w') := account w in
  sends w w' [] /\ tq_storage (world_queue w') = tq_storage (world_queue w) /\
  (forall a, r = Ok a -> account_cache (world_queue w') = Some a) /\
  ((exists e, r = Err e) -> account_cache (world_queue w') = None).
Proof.
  unfold account. destruct w as [[st c s a f] tick sent]. unfold mbind, M_bind at 1. simpl.
  destruct a as [a|].
  { simpl. split_and!; [by apply sends_nil|done|by intros ? [= <-]|by intros [e [=]]]. }
  unfold rpc, try_rpc, mbind, M_bind. simpl.
  destruct (account_proof tick _ _) as [p|e]; simpl;
    (split_and!; [by apply sends_nil|done|by intros ? [= <-]|by intros [? [=]]]).
Qed.

(** A transaction allocated for the account and submitted. *)
Lemma submission_sends m a status w st t taken rest w' :
  account_cache (world_queue w) = Some a -> acc_nonce a = ts_nonce status ->
  mode (tq_config (world_queue w)) = m ->
  allocates (tq_storage (world_queue w)) status (bundler_for m a) st t taken rest ->
  submits t (MkWorld (with_storage (world_queue w) st) (world_tick w) (broadcast w)) w' ->
  pass w w' /\ flight w' = S (flight w).
Proof.
  intros Ha Ha0 Hm Hal [Hc Hca Hst (sent & Hb & Hsent)]. simpl in *.
  assert (forall n, is_Some (nonces_of w' !! n) <-> is_Some (allocated_nonces st !! n)) as Hdom.
  { intros n. unfold nonces_of. destruct Hst as [->|[s Hs]]; [done|]. by eapply record_submission_dom. }
  assert (rows_kept st (tq_storage (world_queue w')) /\
    count_in_flight (tq_storage (world_queue w')) = count_in_flight st) as [Hk Hcount].
  { destruct Hst as [->|[s Hs]]; [done|by eapply record_submission_kept]. }
  assert (forall u, u ∈ sent -> ut_nonce u = at_nonce t /\ ut_authorization u = at_authorization t /\
    sent_from st u) as Hu.
  { intros u Hu. destruct Hsent as [->|[fees ->]]; [by apply not_elem_of_nil in Hu|].
    apply list_elem_of_singleton in Hu as ->. split_and!; [done|done|].
    pose proof (al_nonces _ _ _ _ _ _ _ Hal (at_nonce t)) as Hr. rewrite decide_True in Hr by done.
    do 2 eexists. split_and!; [exact Hr|done|done|]. simpl. by destruct (at_transaction t). }
  split.
  2:{ unfold flight. rewrite Hcount. by eapply allocates_count. }
  exists sent. split; try done.
  - destruct Hsent as [->|[fees ->]]; repeat constructor.
  - intros u k Hin Hk'. destruct (Hu u Hin) as [-> _]. by eapply al_fresh.
  - etrans; [by eapply allocates_kept|done].
  - intros n Hn Hn0. exists a. rewrite Hca. split; [done|].
    destruct (al_nonce _ _ _ _ _ _ _ Hal) as [Hge _]. rewrite Ha0. etrans; [exact Hge|].
    assert (is_Some (allocated_nonces st !! n)) as [r Hr] by (apply (Hdom n), Hn).
    rewrite (al_nonces _ _ _ _ _ _ _ Hal) in Hr. unfold nonces_of in Hn0. rewrite Hn0 in Hr.
    repeat case_decide; [lia|lia|done].
  - intros u Hin. eapply sent_from_kept; [exact Hk|by apply Hu].
  - intros u Hin. destruct (Hu u Hin) as (-> & -> & _). exists a. rewrite Hca, Hc. split; [done|].
    rewrite (allocates_authorization _ _ _ _ _ _ _ _ Hal), <- Hm. split; [|done].
    rewrite Ha0. by destruct (al_nonce _ _ _ _ _ _ _ Hal).
  - intros b Hb'. by rewrite Hca.
Qed.

(** What a pass may add to the transactions in flight: up to its room; one, if
    the account is delegated. *)
Definition bounded (room : nat) (w w' : World) : Prop :=
  (flight w' <= flight w + room)%nat /\
  (forall a, account_cache (world_queue w') = Some a -> is_delegated a = true ->
    (flight w' <= Nat.max (flight w) 1)%nat).

Lemma bounded_same room w w' :
  tq_storage (world_queue w') = tq_storage (world_queue w) -> bounded room w w'.
Proof. unfold bounded, flight. intros ->. split; [lia|intros; lia]. Qed.

Definition within (room : nat) (w w' : World) : Prop := pass w w' /\ bounded room w w'.

Lemma submit_loop_pass room n block w :
  storage_ok (tq_storage (world_queue w)) -> flight w = n ->
  within room w (submit_loop room n block w).2.
Proof.
  revert n w. induction room as [|room IH]; intros n w Hok Hn; cbn [submit_loop].
  { split; [reflexivity|by apply bounded_same]. }
  pose proof (account_frame w) as Hacc. step a e Ha; destruct (account w) as [r w1];
    simpl in Ha |- *; subst r; destruct Hacc as (Hs1 & Hst1 & Hca & _).
  2:{ split; [by exists []|by apply bounded_same]. }
  specialize (Hca a eq_refl). assert (pass w w1) as Hp1 by (by exists []).
  assert (flight w1 = n) as Hf1 by (unfold flight; by rewrite Hst1).
  destruct (is_delegated a && bool_decide (0 < n)%nat) eqn:Hdel.
  { split; [done|by apply bounded_same]. }
  unfold mbind at 1, M_bind at 1. cbn [get_queue fst snd].
  set (f := fun st => next_transaction st _ _). step t e Hq; unfold query in Hq |- *; subst f; cbn beta in *.
  all: destruct (next_transaction _ _ _) as [[st t']|e'] eqn:Hnt; simplify_eq/=.
  2:{ split; [done|apply bounded_same; done]. }
  set (w2 := MkWorld (with_storage (world_queue w1) st) (world_tick w1) (broadcast w1)).
  destruct t as [t|].
  2:{ apply next_transaction_unchanged in Hnt as ->. split; [|by apply bounded_same].
      etrans; [exact Hp1|]. exists []. by apply sends_nil. }
  assert (storage_ok (tq_storage (world_queue w1))) as Hok1 by congruence.
  destruct (next_transaction_spec _ _ _ _ _ Hok1 Hnt) as (taken & rest & Hal).
  pose proof (submit_transaction_submits t block w2) as Hsub.
  pose proof (submission_sends _ a (MkTxStatus block (acc_nonce a)) w1 st t taken rest _ Hca eq_refl eq_refl Hal Hsub) as [Hp3 Hf3].
  assert (storage_ok (tq_storage (world_queue (submit_transaction t block w2).2))) as Hok3.
  { destruct (submit_transaction_queries t block w2) as [(ops & -> & _) _ _]. apply apply_ops_ok.
    by eapply next_transaction_ok. }
  assert (account_cache (world_queue (submit_transaction t block w2).2) = Some a) as Hca3
    by (by rewrite (su_account _ _ _ Hsub)).
  step u e Hr; destruct (submit_transaction t block w2) as [r w3]; simpl in *.
  2:{ split; [by etrans|]. split; [lia|]. intros a' Ha' Hd. simplify_eq.
      rewrite Hd in Hdel. simpl in Hdel. apply bool_decide_eq_false in Hdel. lia. }
  destruct (IH (S (flight w)) w3 Hok3 ltac:(lia)) as [Hp4 [Hb4 Hd4]]. split; [by etrans; [|etrans]|].
  split; [lia|]. intros a' Ha' Hd. specialize (Hd4 a' Ha' Hd).
  destruct Hp4 as [s4 Hs4]. pose proof (se_cache _ _ _ Hs4 a Hca3). simplify_eq.
  rewrite Hd in Hdel. simpl in Hdel. apply bool_decide_eq_false in Hdel. lia.
Qed.

(** C20: submissions are bounded, fresh and authorized. From any storage the
    queries can build, a submission pass, whatever fails during it, leaves at most
    as many transactions in flight as the mode allows, if it submits any, and at
    most one while the account is delegated; it broadcasts at ascending nonces at
    or above the account's, above every nonce allocated before, each transaction
    the one recorded at its nonce and unexecuted, carrying an authorization
    exactly when the account's code is not the delegation the mode wants. *)
Theorem submissions_bounded ops block w :
  tq_storage (world_queue w) = apply_ops empty_storage ops ->
  let w' := (submit_pending block w).2 in
  let max := Z.to_nat (max_in_flight_transactions (mode (tq_config (world_queue w)))) in
  (flight w' <= Nat.max (flight w) max)%nat /\
  (forall a, account_cache (world_queue w') = Some a -> is_delegated a = true ->
    (flight w' <= Nat.max (flight w) 1)%nat) /\
  exists sent, broadcast w' = broadcast w ++ sent /\
    StronglySorted Z.lt (ut_nonce <$> sent) /\
    forall t, t ∈ sent ->
      (forall k, is_Some (nonces_of w !! k) -> k < ut_nonce t) /\
      sent_from (tq_storage (world_queue w')) t /\
      exists a, account_cache (world_queue w') = Some a /\ acc_nonce a <= ut_nonce t /\
        ut_authorization t = wanted (mode (tq_config (world_queue w))) a.
Proof.
  intros Hst w' max. pose proof (apply_ops_ok empty_storage ops empty_storage_ok) as Hok.
  rewrite <- Hst in Hok.
  assert (w' = (submit_loop (max - flight w) (flight w) block w).2) as Hw'.
  { unfold w', submit_pending, read, query, mbind, M_bind. simpl. by destruct w as [[] tick sent]. }
  destruct (submit_loop_pass (max - flight w) (flight w) block w Hok eq_refl) as [[sent Hs] [Hb Hd]].
  rewrite <- Hw' in *. split; [lia|]. split; [done|]. exists sent. destruct Hs as [? ? ? ? ? ? Ha ? Hc].
  split_and!; [done|done|]. intros t Ht. split_and!; [auto|auto|]. rewrite <- Hc. auto.
Qed.

(** ** Execution markers *)

Definition marked_by (b : Z) (m : gmap Z NonceRow) : Prop :=
  forall n r e, m !! n = Some r -> nr_executed_at r = Some e -> e <= b.

(** The markers stay at or below [b], while the queue's view of the chain stays. *)
Definition caps (b : Z) (w w' : World) : Prop :=
  tq_block_status (world_queue w') = tq_block_status (world_queue w) /\
  (marked_by b (nonces_of w) -> marked_by b (nonces_of w')).

#[export] Instance caps_preorder b : PreOrder (caps b).
Proof. split; [by intros w|]. intros w1 w2 w3 [S1 M1] [S2 M2]. split; [congruence|auto]. Qed.

Lemma caps_tick b w tick : caps b w (MkWorld (world_queue w) tick (broadcast w)).
Proof. done. Qed.

Lemma caps_query {A} b (f : TransactionStorage -> result TxStorageError (TransactionStorage * A)) :
  (forall st st' a, f st = Ok (st', a) -> marked_by b (allocated_nonces st) -> marked_by b (allocated_nonces st')) ->
  moves (caps b) (query f).
Proof.
  intros Hf w. unfold query. destruct (f _) as [[st a]|e] eqn:E; [|done]. split; [done|]. by eapply Hf.
Qed.

Lemma caps_update b (f : TransactionStorage -> result TxStorageError TransactionStorage) :
  (forall st st', f st = Ok st' -> marked_by b (allocated_nonces st) -> marked_by b (allocated_nonces st')) ->
  moves (caps b) (update f).
Proof.
  intros Hf. apply caps_query. intros st st' a H. destruct (f st) eqn:E; simplify_eq/=. by apply Hf.
Qed.

Lemma caps_insert b m n r :
  marked_by b m -> (forall e, nr_executed_at r = Some e -> e <= b) -> marked_by b (<[n := r]> m).
Proof.
  intros Hm Hr k r' e Hk He. destruct (decide (n = k)) as [->|Hne].
  - rewrite lookup_insert_eq in Hk. simplify_eq. auto.
  - rewrite lookup_insert_ne in Hk by done. eauto.
Qed.

Lemma caps_enqueue txs st st' : enqueue st txs = Ok st' -> allocated_nonces st' = allocated_nonces st.
Proof.
  revert st. induction txs as [|[t e] txs IH]; intros st H; cbn [enqueue] in H; [by simplify_eq|].
  apply bind_Ok in H as (? & _ & H). by apply IH in H.
Qed.

Lemma caps_next b st status bd st' t :
  next_transaction st status bd = Ok (st', t) ->
  marked_by b (allocated_nonces st) -> marked_by b (allocated_nonces st').
Proof.
  intros H Hm. unfold next_transaction in H. apply bind_Ok in H as (blk & _ & H).
  destruct (push_rows _ _ _) as [b' [m|]]; [|by simplify_eq].
  apply bind_Ok in H as (n & _ & H). destruct (finish b' n) as [al|]; [|by simplify_eq].
  apply bind_Ok in H as (m1 & H1 & H). apply bind_Ok in H as (m2 & H2 & [= <- _]). simpl.
  unfold insert_nonce in H1. destruct (_ !! n); [done|]. injection H1 as <-.
  assert (forall r e, nr_executed_at (MkNonceRow r e None None) = None) as Hnone by done.
  destruct (at_authorization al) as [a|]; [|simplify_eq; by apply caps_insert].
  apply bind_Ok in H2 as (k & _ & H2). unfold insert_nonce in H2. destruct (_ !! k); [done|].
  injection H2 as <-. by repeat apply caps_insert.
Qed.

Lemma caps_mark b st status st' :
  ts_block status <= b -> mark_executed st status = Ok st' ->
  marked_by b (allocated_nonces st) -> marked_by b (allocated_nonces st').
Proof.
  intros Hb H Hm. unfold mark_executed in H. apply bind_Ok in H as (k & [-> _]%db_integer_Ok & H).
  apply bind_Ok in H as (n & _ & [= <-]). intros i r e Hi He. simpl in Hi. rewrite map_lookup_imap in Hi.
  destruct (allocated_nonces st !! i) as [r0|] eqn:E; simplify_eq/=. unfold mark_row in He.
  destruct (nr_executed_at r0) as [x|] eqn:Ex; [by eapply (Hm i r0); [exact E|congruence]|].
  case_decide; [simplify_eq/=; lia|congruence].
Qed.

Lemma caps_recover b st n st' x :
  recover_authorization_gap st n = Ok (st', x) ->
  marked_by b (allocated_nonces st) -> marked_by b (allocated_nonces st').
Proof.
  intros H Hm. unfold recover_authorization_gap in H. apply bind_Ok in H as (k & _ & H).
  destruct (allocated_nonces st !! k) as [[[rq|] [dg|] sb ex]|] eqn:E; simplify_eq; try done.
  apply caps_insert; [done|]. intros e He. by eapply Hm; [exact E|].
Qed.

Lemma caps_record b st s st' :
  record_submission st s = Ok st' -> marked_by b (allocated_nonces st) -> marked_by b (allocated_nonces st').
Proof.
  unfold record_submission. intros H Hm. apply bind_Ok in H as (? & _ & H). apply bind_Ok in H as (k & _ & H).
  destruct (allocated_nonces st !! k) as [[[rq|] dg sb ex]|] eqn:E; try done. injection H as <-.
  apply caps_insert; [done|]. intros e He. by eapply Hm; [exact E|].
Qed.

Lemma caps_set b f :
  (forall q, tq_storage (f q) = tq_storage q /\ tq_block_status (f q) = tq_block_status q) ->
  moves (caps b) (set_queue f).
Proof. intros Hf w. destruct (Hf (world_queue w)) as [Hs Hb]. unfold caps, nonces_of. simpl. by rewrite Hs, Hb. Qed.

Ltac walk_caps b :=
  walk_with (caps b) (caps_tick b);
  repeat first
    [ apply caps_set; by intros []
    | apply caps_update; intros ? ? ?;
      first [by eapply caps_record | eapply caps_mark; [|eassumption]; simpl; lia | by intros; erewrite caps_enqueue]
    | apply caps_query; intros ? ? ? ?; first [by eapply caps_next | by eapply caps_recover] ];
  walk_with (caps b) (caps_tick b).

Lemma submit_transaction_caps b t block : moves (caps b) (submit_transaction t block).
Proof. unfold submit_transaction, current_fees. walk_caps b. Qed.
Hint Resolve submit_transaction_caps : txqueue.

Lemma account_caps b : moves (caps b) account.
Proof. unfold account. walk_caps b. Qed.
Hint Resolve account_caps : txqueue.

Lemma submit_loop_caps b room n block : moves (caps b) (submit_loop room n block).
Proof. revert n. induction room as [|room IH]; intros n; cbn [submit_loop]; walk_caps b. Qed.
Lemma submit_all_caps b ts block : moves (caps b) (submit_all ts block).
Proof. induction ts as [|t ts IH]; cbn [submit_all]; walk_caps b. Qed.
Hint Resolve submit_loop_caps submit_all_caps : txqueue.

Lemma submit_pending_caps b block : moves (caps b) (submit_pending block).
Proof. unfold submit_pending. walk_caps b. Qed.
Hint Resolve submit_pending_caps : txqueue.

Lemma queue_transactions_caps b txs : moves (caps b) (queue_transactions txs).
Proof. unfold queue_transactions. walk_caps b. Qed.
Lemma reconcile_caps s : moves (caps (latest s)) (reconcile s).
Proof. unfold reconcile, resubmit_stale. walk_caps (latest s). Qed.

(** The driver's use of the queue: intermittent errors are survived. *)
Inductive QueueOp :=
| Queue (txs : list (Transaction * option Z))
| UpdateStatus (s : BlockStatus).

Definition run_op (op : QueueOp) : M unit :=
  match op with Queue txs => queue_transactions txs | UpdateStatus s => update_block_status s end.

Fixpoint run_queue (ops : list QueueOp) (w : World) : result TxError World :=
  match ops with
  | [] => Ok w
  | op :: ops =>
      let '(r, w) := run_op op w in
      _ ← lift_intermittent_error r; run_queue ops w
  end.

Definition status_ok (s : BlockStatus) : Prop := safe s <= latest s <= u64_max.
Definition op_ok (op : QueueOp) : Prop := match op with UpdateStatus s => status_ok s | Queue _ => True end.

(** The queue's markers are of blocks of the chain it last saw. *)
Definition markers_ok (w : World) : Prop :=
  forall s, tq_block_status (world_queue w) = Some s -> status_ok s /\ marked_by (latest s) (nonces_of w).

Lemma marked_mono b b' m : b <= b' -> marked_by b m -> marked_by b' m.
Proof. intros Hb Hm n r e Hr He. specialize (Hm n r e Hr He). lia. Qed.

Lemma unmark_marked st block st' b :
  unmark_executed st block = Ok st' ->
  marked_by (block - 1) (allocated_nonces st') /\
  (marked_by b (allocated_nonces st) -> marked_by b (allocated_nonces st')).
Proof.
  unfold unmark_executed. intros H. apply bind_Ok in H as (k & [-> _]%db_integer_Ok & [= <-]).
  simpl. split; [|intros Hm]; intros n r e Hr He; rewrite lookup_fmap in Hr;
    destruct (allocated_nonces st !! n) as [r0|] eqn:E; simplify_eq/=; unfold unmark_row in He;
    destruct (nr_executed_at r0) as [x|] eqn:Ex; try congruence; case_decide; simplify_eq/=; try congruence.
  - lia.
  - by eapply Hm.
Qed.

Lemma prune_marked st safe st' b :
  tx_prune st safe = Ok st' -> safe <= i64_max /\
  (marked_by b (allocated_nonces st) -> marked_by b (allocated_nonces st')).
Proof.
  unfold tx_prune. intros H. apply bind_Ok in H as (k & [-> Hk]%db_integer_Ok & [= <-]). split; [done|].
  intros Hm n r e [Hr _]%map_lookup_filter_Some He. by eapply Hm.
Qed.

Lemma unmark_from_marked previous s block st st' :
  status_ok s -> (forall p, previous = Some p -> status_ok p /\ marked_by (latest p) (allocated_nonces st)) ->
  unmark_from previous s = Some block -> unmark_executed st block = Ok st' ->
  marked_by (latest s) (allocated_nonces st').
Proof.
  intros [Hs _] Hp Hu H. destruct (unmark_marked _ _ _ 0 H) as [Hm _].
  assert (block - 1 <= latest s); [|by eapply marked_mono].
  destruct previous as [p|]; simpl in Hu; [case_decide; [|done]|]; apply checked_add_Some in Hu; lia.
Qed.

Lemma unmark_from_none previous s m :
  status_ok s -> (previous = None -> safe s <= i64_max) ->
  (forall p, previous = Some p -> status_ok p /\ marked_by (latest p) m) ->
  unmark_from previous s = None -> marked_by (latest s) m.
Proof.
  intros [Hs Hl] Hn Hp Hu. destruct previous as [p|]; simpl in Hu.
  - destruct (Hp p eq_refl) as [[_ Hpl] Hm]. case_decide as Hd; [|by eapply marked_mono; [|done]; lia].
    unfold checked_add in Hu. case_decide; [done|lia].
  - specialize (Hn eq_refl). unfold checked_add in Hu. case_decide; [done|].
    lia.
Qed.

(** The world with another storage. *)
Definition stored (w : World) (st : TransactionStorage) : World :=
  MkWorld (with_storage (world_queue w) st) (world_tick w) (broadcast w).

Lemma when_prune b s w :
  let st := tq_storage (world_queue w) in
  match when b (update (fun st => tx_prune st s)) w with
  | (Ok _, w') => exists st', w' = stored w st' /\ (storage_ok st -> storage_ok st') /\
      (b = true -> s <= i64_max) /\
      forall b, marked_by b (allocated_nonces st) -> marked_by b (allocated_nonces st')
  | (Err e, _) => is_intermittent e = false
  end.
Proof.
  destruct w as [[st c status a f] tick sent]. destruct b; simpl; [|by exists st].
  unfold update, query. simpl. destruct (tx_prune st s) as [st'|e] eqn:H; simpl; [|done].
  exists st'. split; [done|]. split; [intros; by eapply tx_prune_ok|].
  split; [intros _; by eapply (prune_marked _ _ _ 0)|]. intros b. by apply (prune_marked _ _ _ b H).
Qed.

Lemma unmark_step previous s w :
  let st := tq_storage (world_queue w) in
  status_ok s -> (previous = None -> safe s <= i64_max) ->
  (forall p, previous = Some p -> status_ok p /\ marked_by (latest p) (allocated_nonces st)) ->
  match void_markers previous s w with
  | (Ok _, w') => exists st', w' = stored w st' /\ (storage_ok st -> storage_ok st') /\
      marked_by (latest s) (allocated_nonces st')
  | (Err e, _) => is_intermittent e = false
  end.
Proof.
  destruct w as [[st c status a f] tick sent]. simpl. intros Hs Hn Hp.
  unfold void_markers. destruct (unmark_from previous s) as [block|] eqn:Hu; simpl.
  - unfold update, query. simpl. destruct (unmark_executed st block) as [st'|e] eqn:H; simpl; [|done].
    exists st'. split; [done|]. split; [intros; by eapply unmark_ok|]. by eapply unmark_from_marked.
  - exists st. split_and!; [done|done|]. by eapply unmark_from_none.
Qed.

(** An update reaches its reconciliation with the markers in place, unless the
    storage fails. *)
Lemma update_block_status_spec s w r w' :
  markers_ok w -> status_ok s -> update_block_status s w = (r, w') ->
  (exists e, r = Err e /\ is_intermittent e = false) \/
  (w' = w /\ advances (tq_block_status (world_queue w)) s = false) \/
  exists w1, tq_block_status (world_queue w1) = Some s /\ marked_by (latest s) (nonces_of w1) /\
    (advances (tq_block_status (world_queue w)) s = true ->
      tq_config (world_queue w1) = tq_config (world_queue w) /\
      (storage_ok (tq_storage (world_queue w)) -> storage_ok (tq_storage (world_queue w1))) /\
      ((r, w') = reconcile s w1 \/ (w' = w1 /\ count_outstanding (tq_storage (world_queue w1)) (latest s) = Ok 0%nat))) /\
    (advances (tq_block_status (world_queue w)) s = false -> w' = w1).
Proof.
  intros Hinv Hs. unfold update_block_status. unfold mbind at 1, M_bind at 1. cbn [get_queue].
  destruct w as [[st c status a f] tick sent]. simpl. unfold markers_ok, nonces_of in Hinv. simpl in Hinv.
  destruct (decide _) as [[Heq _]|Hneq].
  { intros [= <- <-]. right. left. split; [done|]. destruct status as [p|]; simplify_eq/=.
    apply bool_decide_eq_false. lia. }
  unfold mbind, M_bind. cbn [set_queue fst snd].
  set (w0 := MkWorld _ _ _). set (reset := when _ (set_queue _) w0).
  assert (exists a' f', reset = (Ok (), MkWorld (MkQueue st c (Some s) a' f') tick sent)) as (a' & f' & ->)
    by (unfold reset; case_bool_decide; do 2 eexists; done).
  cbn [fst snd]. clear w0. set (w0 := MkWorld _ _ _).
  pose proof (when_prune (bool_decide (safe <$> status ≠ Some (safe s))) (safe s) w0) as Hpr.
  destruct (when _ _ w0) as [[[]|e] w2]; [|intros [= <- <-]; left; by eexists].
  destruct Hpr as (st1 & -> & Hok1 & Hsafe & Hm1). cbn [fst snd].
  pose proof (unmark_step status s (stored w0 st1) Hs) as Hun. cbn in Hun.
  destruct (void_markers status s (stored w0 st1)) as [[[]|e] w2].
  2:{ intros [= <- <-]. left. exists e. split; [done|]. apply Hun; [|intros p Hp; destruct (Hinv p Hp); auto].
      intros ->. apply Hsafe. by apply bool_decide_eq_true. }
  destruct Hun as (st2 & -> & Hok2 & Hm2).
  { intros ->. apply Hsafe. by apply bool_decide_eq_true. }
  { intros p Hp. destruct (Hinv p Hp). auto. }
  cbn [fst snd]. set (w1 := stored _ st2).
  destruct (advances status s).
  2:{ intros [= <- <-]. right. right. exists w1. done. }
  unfold read, query. simpl. destruct (count_outstanding st2 (latest s)) as [k|e] eqn:Hk; simpl.
  2:{ intros [= <- <-]. left. eexists. done. }
  intros H. right. right. exists w1. split; [done|]. split; [done|]. split; [|done]. intros _.
  split; [done|]. split; [simpl in *; auto|].
  destruct k as [|k]; [right|left; symmetry; exact H].
  change ((Ok () : result TxError unit, w1) = (r, w')) in H. by injection H as <- <-.
Qed.

(** ** Nothing executed is left in flight *)

(** What is unexecuted is at or above the account's nonce. *)
Definition above (a : AccountStatus) (w : World) : Prop :=
  account_cache (world_queue w) = Some a /\
  forall n r, nonces_of w !! n = Some r -> nr_executed_at r = None -> acc_nonce a <= n.
Definition keeps_above (a : AccountStatus) (w w' : World) : Prop := above a w -> above a w'.

#[export] Instance keeps_above_preorder a : PreOrder (keeps_above a).
Proof. split; [by intros w H|]. intros w1 w2 w3 H1 H2 H. auto. Qed.

Lemma above_submits a t w w' : submits t w w' -> keeps_above a w w'.
Proof.
  intros [_ Hc Hst _] [Ha Hab]. split; [congruence|]. intros n r Hr He.
  destruct Hst as [Hst|[s Hs]]; [unfold nonces_of in *; rewrite Hst in Hr; eauto|].
  assert (is_Some (nonces_of w !! n)) as [r0 Hr0].
  { apply (record_submission_dom _ _ _ n Hs). by exists r. }
  destruct (record_submission_kept _ _ _ Hs) as [Hk _]. destruct (Hk n r0 Hr0) as (r' & Hr' & _ & He').
  unfold nonces_of in Hr. simplify_eq. apply (Hab n r0); [done|congruence].
Qed.

Lemma above_pass a w w' : pass w w' -> keeps_above a w w'.
Proof.
  intros [sent Hs] [Ha Hab]. split; [by apply Hs|]. intros n r Hr He.
  destruct (nonces_of w !! n) as [r0|] eqn:E.
  - destruct (se_kept _ _ _ Hs n r0 E) as (r' & Hr' & _ & He'). unfold nonces_of in Hr. simplify_eq.
    apply (Hab n r0); [done|congruence].
  - destruct (se_new _ _ _ Hs n ltac:(by eexists) E) as (b & Hb & Hle).
    rewrite (se_cache _ _ _ Hs a Ha) in Hb. by simplify_eq.
Qed.

Lemma submit_all_above a ts block : moves (keeps_above a) (submit_all ts block).
Proof.
  induction ts as [|t ts IH]; cbn [submit_all]; [by apply (moves_mret _)|].
  apply (moves_bind _); [|done]. intros w. eapply above_submits, submit_transaction_submits.
Qed.

Lemma resubmit_stale_above a block : moves (keeps_above a) (resubmit_stale block).
Proof.
  unfold resubmit_stale. apply (moves_bind _); [by apply (moves_get _)|intros q].
  apply (moves_bind _); [by apply (moves_read _)|intros ts]. apply submit_all_above.
Qed.

Lemma submit_pending_pass block w :
  storage_ok (tq_storage (world_queue w)) ->
  within (Z.to_nat (max_in_flight_transactions (mode (tq_config (world_queue w)))) - flight w) w
    (submit_pending block w).2.
Proof.
  intros Hok. pose proof (submit_loop_pass
    (Z.to_nat (max_in_flight_transactions (mode (tq_config (world_queue w)))) - flight w)
    (flight w) block w Hok eq_refl) as H.
  unfold submit_pending, read, query, mbind, M_bind. simpl. by destruct w as [[] tick sent].
Qed.

Lemma mark_executed_above a st status st' :
  ts_nonce status = acc_nonce a -> mark_executed st status = Ok st' ->
  forall n r, allocated_nonces st' !! n = Some r -> nr_executed_at r = None -> acc_nonce a <= n.
Proof.
  intros Ha H n r Hr He. unfold mark_executed in H. apply bind_Ok in H as (k & _ & H).
  apply bind_Ok in H as (m & [-> _]%db_integer_Ok & [= <-]). simpl in Hr. rewrite map_lookup_imap in Hr.
  destruct (allocated_nonces st !! n) as [r0|] eqn:E; simplify_eq/=. unfold mark_row in He.
  destruct (nr_executed_at r0) as [x|] eqn:Ex; [by rewrite Ex in He|]. case_decide; [done|lia].
Qed.

Lemma recover_above a w nonce st x :
  recover_authorization_gap (tq_storage (world_queue w)) nonce = Ok (st, x) ->
  above a w -> above a (stored w st).
Proof.
  intros H [Ha Hab]. split; [done|]. intros n r Hr He. unfold nonces_of in *. simpl in Hr.
  unfold recover_authorization_gap in H. apply bind_Ok in H as (k & _ & H).
  destruct (allocated_nonces (tq_storage (world_queue w)) !! k) as [[[rq|] [dg|] sb ex]|] eqn:E;
    simplify_eq; eauto. simpl in Hr. destruct (decide (k = n)) as [->|Hne].
  - rewrite lookup_insert_eq in Hr. simplify_eq/=. by eapply Hab.
  - rewrite lookup_insert_ne in Hr by done. eauto.
Qed.

Lemma reconcile_above s w w' :
  storage_ok (tq_storage (world_queue w)) -> reconcile s w = (Ok (), w') -> exists a, above a w'.
Proof.
  intros Hok. unfold reconcile. pose proof (account_frame w) as Hacc.
  step a e Ha; [|done]. destruct (account w) as [r w1]. simpl in Ha |- *. subst r.
  destruct Hacc as (_ & Hst & Hca & _). specialize (Hca a eq_refl). rewrite <- Hst in Hok.
  unfold update, query. unfold mbind at 1, M_bind at 1.
  destruct (mark_executed _ _) as [st2|e] eqn:Hm; cbn [fmap result_fmap]; [|done].
  assert (above a (stored w1 st2)) as Hab.
  { split; [done|]. exact (mark_executed_above a _ (MkTxStatus (latest s) (acc_nonce a)) _ eq_refl Hm). }
  assert (storage_ok st2) as Hok2 by (by eapply mark_executed_ok).
  unfold mbind at 1, M_bind at 1. cbn [world_queue with_storage tq_storage].
  destruct (recover_authorization_gap st2 (acc_nonce a)) as [[st3 x]|e] eqn:Hr; [|done].
  apply (recover_above a (stored w1 st2)) in Hr as Hab3; [|done].
  assert (storage_ok st3) as Hok3 by (by eapply recover_ok).
  set (w3 := MkWorld _ _ _). change (above a w3) in Hab3.
  pose proof (resubmit_stale_above a (latest s) w3 Hab3) as Hab4.
  destruct (resubmit_stale_queries (latest s) w3) as [(ops & Hops & _) _ _].
  step u e Hu; destruct (resubmit_stale (latest s) w3) as [r4 w4]; simpl in *; [|done].
  assert (storage_ok (tq_storage (world_queue w4))) as Hok4 by (rewrite Hops; by apply apply_ops_ok).
  destruct (submit_pending_pass (latest s) w4 Hok4) as [Hp _]. intros H. rewrite H in Hp.
  exists a. by eapply above_pass.
Qed.

Lemma outstanding_none st block n r :
  count_outstanding st block = Ok 0%nat -> allocated_nonces st !! n = Some r -> nr_executed_at r <> None.
Proof.
  unfold count_outstanding. intros H Hr He. apply bind_Ok in H as (b & _ & [= H]).
  assert (size (filter (fun e : Z * NonceRow => nr_executed_at e.2 = None) (allocated_nonces st)) = 0)%nat
    as Hz by lia.
  apply map_size_empty_inv in Hz. eapply map_filter_empty_not_lookup in Hz; [|exact He]. by rewrite Hr in Hz.
Qed.

Lemma run_op_storage op w :
  storage_ok (tq_storage (world_queue w)) -> storage_ok (tq_storage (world_queue (run_op op w).2)).
Proof.
  intros Hok. destruct op as [txs|s]; simpl.
  - destruct (queue_transactions_queries txs w) as (ops & -> & _). by apply apply_ops_ok.
  - destruct (update_block_status_queries s w) as [(ops & -> & _) _ _]. by apply apply_ops_ok.
Qed.

Lemma run_op_markers op w r w' :
  op_ok op -> markers_ok w -> run_op op w = (r, w') ->
  (exists e, r = Err e /\ is_intermittent e = false) \/ markers_ok w'.
Proof.
  intros Hop Hm H. destruct op as [txs|s]; simpl in H.
  - right. intros s Hs. destruct (queue_transactions_caps (latest s) txs w) as [Hst Hcap].
    rewrite H in Hst, Hcap. simpl in *. rewrite Hst in Hs. destruct (Hm s Hs) as [? ?]. auto.
  - destruct (update_block_status_spec s w r w' Hm Hop H)
      as [Herr|[[-> _]|(w1 & Hs1 & Hm1 & Hadv & Hstay)]]; [by left|by right|right].
    assert (markers_ok w1) as Hw1 by (intros s' Hs'; rewrite Hs1 in Hs'; by simplify_eq).
    destruct (advances _ s); [|by rewrite Hstay].
    destruct (Hadv eq_refl) as (_ & _ & [Hrec|[-> _]]); [|done].
    destruct (reconcile_caps s w1) as [Hst Hcap]. rewrite <- Hrec in Hst, Hcap. simpl in *.
    intros s' Hs'. rewrite Hst, Hs1 in Hs'. simplify_eq. auto.
Qed.

Lemma run_queue_markers ops w w' :
  Forall op_ok ops -> markers_ok w /\ storage_ok (tq_storage (world_queue w)) -> run_queue ops w = Ok w' ->
  markers_ok w' /\ storage_ok (tq_storage (world_queue w')).
Proof.
  revert w. induction ops as [|op ops IH]; intros w Hops [Hm Hok] H; simpl in H; [by simplify_eq|].
  apply Forall_cons in Hops as [Hop Hops]. pose proof (run_op_storage op w Hok) as Hok1.
  destruct (run_op op w) as [r w1] eqn:E. simpl in Hok1.
  destruct (run_op_markers op w r w1 Hop Hm E) as [(e & -> & He)|Hm1].
  - simpl in H. rewrite He in H. done.
  - apply bind_Ok in H as (_ & _ & H). by apply (IH w1).
Qed.

(** C21: execution markers follow the chain. Through any run of the queue that no
    failure of the storage ends, with RPC errors anywhere, every execution marker
    is of a block at or below the latest block seen, reorgs included; and once an
    update to a new block succeeds, everything not marked as executed, so all that
    is or will be sent again, is at or above the account's nonce. *)
Theorem markers_follow_chain ops0 ops w w' s :
  tq_block_status (world_queue w) = None ->
  tq_storage (world_queue w) = apply_ops empty_storage ops0 ->
  Forall op_ok ops -> run_queue ops w = Ok w' -> status_ok s ->
  (forall seen n r e, tq_block_status (world_queue w') = Some seen ->
    nonces_of w' !! n = Some r -> nr_executed_at r = Some e -> e <= latest seen) /\
  (forall w2, advances (tq_block_status (world_queue w')) s = true ->
    update_block_status s w' = (Ok (), w2) ->
    forall n r, nonces_of w2 !! n = Some r -> nr_executed_at r = None ->
      exists a, account_cache (world_queue w2) = Some a /\ acc_nonce a <= n).
Proof.
  intros Hnone Hst Hops Hrun Hs.
  assert (markers_ok w' /\ storage_ok (tq_storage (world_queue w'))) as [Hm Hok].
  { apply (run_queue_markers ops w); [done|split; [|]|done].
    - intros p Hp. congruence.
    - rewrite Hst. by apply apply_ops_ok, empty_storage_ok. }
  split; [intros seen n r e Hseen Hr He; destruct (Hm seen Hseen) as [_ H]; by eapply H|].
  intros w2 Hadv Hu n r Hr He.
  destruct (update_block_status_spec s w' _ w2 Hm Hs Hu) as [(e & [=] & _)|[[_ Hadv']|(w1 & _ & _ & Hspec & _)]].
  { congruence. }
  destruct (Hspec Hadv) as (_ & Hok1 & [Hrec|[-> Hout]]).
  - symmetry in Hrec. destruct (reconcile_above s w1 w2 (Hok1 Hok) Hrec) as (a & Ha & Hab). exists a. eauto.
  - by destruct (outstanding_none _ _ _ _ Hout Hr He).
Qed.

End TxQueue.
