(* ===== verification/ToyTx.v ===== *)
(** A concrete chain for the transaction queue, which evaluates its components
    and shows that the hypotheses of its theorems can hold: an encoder of batches
    that spells out the contract ABI, a signer, and a node with scripted answers,
    some of them errors. *)

From Stdlib Require Import String SpecFloat.
From S2P Require Import Prelude Keccak Messages Node TxTypes TxStorage TxQueue.

#[local] Existing Instance toy_keccak.

(** ** The encoder: the selector, the offsets of the calls, and each call. *)
Definition pad32 (data : bytes) : bytes :=
  data ++ repeat 0 (Z.to_nat (padded_length data) - length data).
Definition encode_call (c : ExecutorCall) : bytes :=
  be_bytes 32 (ec_to c) ++ be_bytes 32 (ec_value c) ++ be_bytes 32 (ec_gas_limit c) ++ be_bytes 32 128 ++
  be_bytes 32 (Z.of_nat (length (ec_data c))) ++ pad32 (ec_data c).
Fixpoint offsets (start : Z) (calls : list ExecutorCall) : bytes :=
  match calls with
  | [] => []
  | c :: calls => be_bytes 32 start ++ offsets (start + Z.of_nat (length (encode_call c))) calls
  end.
#[export] Instance toy_executor : Executor := {|
  encode_execute calls :=
    [161; 178; 195; 212] ++ be_bytes 32 32 ++ be_bytes 32 (Z.of_nat (length calls)) ++
    offsets (32 * Z.of_nat (length calls)) calls ++ concat (encode_call <$> calls)
|}.

Lemma length_offsets start calls : length (offsets start calls) = (32 * length calls)%nat.
Proof.
  revert start. induction calls as [|c calls IH]; intros start; [done|].
  cbn [offsets]. rewrite length_app, IH, length_be_bytes. simpl. lia.
Qed.

Lemma length_encode_call c : Z.of_nat (length (encode_call c)) = 32 + 4 * 32 + padded_length (ec_data c).
Proof.
  unfold encode_call, pad32. rewrite !length_app, !length_be_bytes, repeat_length.
  pose proof (padded_length_nonneg (ec_data c)) as Hp.
  assert (Z.of_nat (length (ec_data c)) <= padded_length (ec_data c)); [|lia].
  unfold padded_length. pose proof (div_ceil_spec (Z.of_nat (length (ec_data c))) 32). lia.
Qed.

Lemma length_encoded_calls calls :
  Z.of_nat (32 * length calls + length (concat (encode_call <$> calls))) =
  foldr Z.add 0 ((fun c => 32 + 4 * 32 + 32 + padded_length (ec_data c)) <$> calls).
Proof.
  induction calls as [|c calls IH]; [done|]. rewrite !fmap_cons. cbn [concat foldr length].
  rewrite length_app. pose proof (length_encode_call c). lia.
Qed.

#[export] Instance toy_executor_laws : ExecutorLaws.
Proof.
  split. intros calls. cbn [encode_execute toy_executor]. rewrite !length_app, !length_be_bytes, length_offsets.
  unfold execute_length. rewrite <- length_encoded_calls. simpl. lia.
Qed.

(** ** The node *)
#[export] Instance toy_signer : Signer := {|
  signer_address := 77;
  sign_1559 t := Some (be_bytes 8 (ut_nonce t) ++ ut_input t);
  sign_7702 t a n := Some (be_bytes 8 (ut_nonce t) ++ be_bytes 20 (auth_address a) ++ be_bytes 8 n)
|}.

#[export] Instance toy_tx_node : TxNode := {|
  TxRpcError := string;
  error_message e := Some e;
  tx_chain_id := 100;
  latest_gas_limit _ := Ok (Some 30000000);
  account_code _ _ := Ok [96];
  account_proof tick _ _ := if decide (tick = 3%nat) then Err "timeout"%string else Ok (5, 0);
  estimate_eip1559_fees _ := Ok (MkFees 100 10);
  send_raw_transaction tick _ :=
    if decide (tick = 4%nat) then Err "replacement transaction UNDERPRICED"%string else Ok ()
|}.

Definition toy_tx_config : TxConfig := MkTxConfig (Direct 2) 3 None.
Definition toy_call (n : Z) : Transaction := MkTransaction n 0 [1; 2; 3] 50000.

(** ** The theorems apply *)

Lemma fees_replace_witness :
  exists capped built,
    cap_priority_fee (MkFees 100 30) (f64_of_Z 20) = capped /\
    bump_fee (max_fee_per_gas capped) 90 = built /\ max_fee_per_gas capped <= built /\ 11 * 90 <= 10 * built.
Proof.
  do 2 eexists. split; [reflexivity|]. split; [reflexivity|].
  exact (proj1 (fees_replace (MkAllocated 5 (toy_call 1) None (Some 90) (Some 9)) 100 (MkFees 100 30)
    (MkFees 90 9) (f64_of_Z 20) ltac:(simpl; lia) ltac:(simpl; lia) eq_refl
    ltac:(simpl; lia) ltac:(simpl; lia))).
Defined.

(** Two calls fit the batch; the third does not. *)
Lemma batch_sends_prefix_witness :
  exists taken rest gas, toy_call <$> [1; 2; 3] = taken ++ rest /\ taken ≠ [] /\
    finish (push_all (batched 77 200000 None) (toy_call <$> [1; 2; 3])).1 5 =
      Some (MkAllocated 5 (MkTransaction 77 0 (encode_execute (executor_call <$> taken)) (gas + 0)) None None None) /\
    gas = 26000 + 16 * Z.of_nat (length (encode_execute (executor_call <$> taken))) +
      foldr Z.add 0 ((fun t => tx_gas t + div_ceil (tx_gas t) 63 + 5000 +
        (if decide (tx_value t = 0) then 0 else 34000)) <$> taken) /\
    (gas <= 200000 \/ length taken = 1%nat).
Proof.
  refine (batch_sends_prefix 77 200000 None (toy_call <$> [1; 2; 3]) 5 _ _ _).
  - repeat constructor; unfold tx_ok, is_u64; simpl; lia.
  - done.
  - apply (bool_decide_unpack _). by vm_compute.
Defined.

(** A queue with three transactions, the second expired. *)
Definition toy_ops : list TxOp :=
  [Enqueue [(toy_call 1, None); (toy_call 2, Some 8); (toy_call 3, Some 40)]].
Definition toy_storage : TransactionStorage := apply_ops empty_storage toy_ops.

Lemma allocation_fresh_witness :
  exists st' t, next_transaction toy_storage (MkTxStatus 10 5) (direct None) = Ok (st', Some t) /\ 5 <= at_nonce t.
Proof.
  do 2 eexists. split; [reflexivity|].
  exact (proj1 (allocation_fresh toy_ops (MkTxStatus 10 5) (direct None) _ _ eq_refl)).
Defined.

(** The expired transaction leaves at a collection; the one sent at nonce 5 and
    executed leaves too. *)
Definition toy_ops2 : list TxOp :=
  toy_ops ++ [NextTransaction (MkTxStatus 10 5) (direct None); MarkExecuted (MkTxStatus 12 6)].

Lemma transactions_kept_witness :
  exists st' r, apply_op (apply_ops empty_storage toy_ops2) (TxPrune 12) = Ok st' /\
    (1, r) ∈ transactions (apply_ops empty_storage toy_ops2) /\
    ((exists r', (1, r') ∈ transactions st' /\ qr_request r' = qr_request r /\
       qr_expires_at r' = qr_expires_at r /\ forall n, qr_nonce r = Some n -> qr_nonce r' = Some n) \/
     (exists safe, TxPrune 12 = TxPrune safe /\
       ((qr_nonce r = None /\ exists e, qr_expires_at r = Some e /\ e <= safe) \/
        exists n nr e, qr_nonce r = Some n /\
          allocated_nonces (apply_ops empty_storage toy_ops2) !! n = Some nr /\
          nr_executed_at nr = Some e /\ e <= safe))).
Proof.
  do 2 eexists. split; [reflexivity|].
  assert ((1, MkQueuedRow (toy_call 1) None (Some 5)) ∈ transactions (apply_ops empty_storage toy_ops2)) as Hin
    by (vm_compute; apply list_elem_of_here).
  split; [exact Hin|]. exact (transactions_kept toy_ops2 (TxPrune 12) _ 1 _ eq_refl Hin).
Defined.

Definition toy_world : World :=
  MkWorld (MkQueue toy_storage toy_tx_config None None None) 0 [].

(** A pass over the queue: the delegated code is first removed. *)
Lemma submissions_bounded_witness :
  (flight (submit_pending 10 toy_world).2 <= 2)%nat /\
  length (broadcast (submit_pending 10 toy_world).2) = 2%nat.
Proof.
  split; [|by vm_compute]. eapply Nat.le_trans; [exact (proj1 (submissions_bounded toy_ops 10 toy_world eq_refl))|].
  apply (bool_decide_unpack _). by vm_compute.
Defined.

Definition toy_run : list QueueOp :=
  [UpdateStatus (MkBlockStatus 10 5); UpdateStatus (MkBlockStatus 12 6); UpdateStatus (MkBlockStatus 11 6)].

Lemma markers_follow_chain_witness :
  exists w', run_queue toy_run toy_world = Ok w' /\
    forall seen n r e, tq_block_status (world_queue w') = Some seen ->
      nonces_of w' !! n = Some r -> nr_executed_at r = Some e -> e <= latest seen.
Proof.
  assert (is_ok (run_queue toy_run toy_world) = true) as Hok by (by vm_compute).
  destruct (run_queue toy_run toy_world) as [w'|e] eqn:H; [|done]. exists w'. split; [done|].
  refine (proj1 (markers_follow_chain toy_ops toy_run toy_world w' (MkBlockStatus 13 7) eq_refl eq_refl _ H _)).
  - repeat constructor; simpl; lia.
  - split; simpl; lia.
Defined.
