(* ===== verification/Driver.v ===== *)
(** The driver, [crates/core/src/driver.rs] and [effects.rs]: it follows the
    indexer, feeds the transaction queue and the state machine, runs the effects
    of the machine concurrently and queues its actions. Polling the indexer, the
    completion of an effect and the collection of its result are the events of the
    driver; a schedule is any sequence of them. *)

From S2P Require Import Prelude Keccak Messages Snapshots StateMachine Node Blocks Events Watch Anchors TxTypes TxStorage TxQueue.

(** ** Effects *)

(** [EffectHandler]: performing an effect over what the handler holds, which may
    panic and then has no result; its maintenance. An effect is performed at once:
    what a handler shares between effects is behind its own database. *)
Class EffectHandler (H Effect Resume : Type) := {
  handle_effect : nat -> Effect -> H -> option Resume * H;
  housekeep : BlockStatus -> H -> H
}.

(** [ActionEncoder]. *)
Class ActionEncoder (Action : Type) := { encode : Action -> Transaction * option Z }.

Section Effects.
Context {H Effect Resume : Type} {EH : EffectHandler H Effect Resume}.

(** The tasks in progress, in the order they were spawned, and those that ended
    and were not collected, in the order they ended; [entropy] numbers the
    effects performed. *)
Record EffectManager := MkEffectManager {
  handler : H;
  running : list Effect;
  ended : list (option Resume);
  entropy : nat
}.

(** [EffectManager::new]. *)
Definition new_effects (h : H) : EffectManager := MkEffectManager h [] [] 0.

(** [spawn]. *)
Definition spawn (m : EffectManager) (effect : Effect) : EffectManager :=
  MkEffectManager (handler m) (running m ++ [effect]) (ended m) (entropy m).

(** The task at [i] ends. *)
Definition complete (m : EffectManager) (i : nat) : EffectManager :=
  match running m !! i with
  | Some effect =>
      let '(resume, h) := handle_effect (entropy m) effect (handler m) in
      MkEffectManager h (delete i (running m)) (ended m ++ [resume]) (S (entropy m))
  | None => m
  end.

(** [next]: the first result that is not a failure; none while nothing ended. *)
Fixpoint first_resume (ended : list (option Resume)) : option Resume * list (option Resume) :=
  match ended with
  | [] => (None, [])
  | Some r :: rest => (Some r, rest)
  | None :: rest => first_resume rest
  end.
Definition next_resume (m : EffectManager) : option Resume * EffectManager :=
  let '(r, rest) := first_resume (ended m) in
  (r, MkEffectManager (handler m) (running m) rest (entropy m)).

(** [EffectManager::housekeeping]. *)
Definition effects_housekeeping (m : EffectManager) (s : BlockStatus) : EffectManager :=
  MkEffectManager (housekeep s (handler m)) (running m) (ended m) (entropy m).
End Effects.

(** ** The driver *)

Section Driver.
Context {NODE : Node} {S Event Action Effect Resume H : Type} {EV : Events Event}.
Context {ST : StateTransition S Event Action Effect Resume} {SER : Serde S}.
Context {EH : EffectHandler H Effect Resume} {AE : ActionEncoder Action}.
Context {KEC : Keccak} {EX : Executor} {SG : Signer} {TN : TxNode}.

(** [driver::Error]. *)
Inductive DriverError :=
| IndexErr (e : IndexError)
| StateErr (e : MachineError)
| TransactionsErr (e : TxError).

(** [Input]. *)
Inductive Input :=
| InputUpdate (u : Update.t Event)
| InputResume (r : Resume).

(** The transaction queue is in the world it submits to. *)
Record Driver := MkDriver {
  d_watcher : Watcher;
  d_tick : nat;
  d_state : StateMachine (S := S);
  d_effects : EffectManager (H := H) (Effect := Effect) (Resume := Resume);
  d_world : World
}.

(** [Driver::new]; none when the watcher does not start within [fuel]. *)
Definition new_driver (fuel : nat) (snapshots : gmap Z Json) (init : S) (h : H) (st : TransactionStorage)
    (blocks : BlocksConfig) (events : EventsConfig) (txs : TxConfig) (addresses : list Z)
    : option (result DriverError Driver) :=
  match map_err StateErr (with_init snapshots init) with
  | Ok state =>
      '(watcher, tick) ← new_index fuel blocks events addresses (status snapshots) 0;
      match watcher with
      | Err e => Some (Err (IndexErr e))
      | Ok w =>
          let '(queue, tx_tick) := new_queue st txs 0 in
          match queue with
          | Err e => Some (Err (TransactionsErr e))
          | Ok q => Some (Ok (MkDriver w tick state (new_effects h) (MkWorld q tx_tick [])))
          end
      end
  | Err e => Some (Err e)
  end.

(** A computation of the queue, its intermittent errors survived. *)
Definition on_queue (m : M unit) (d : Driver) : result DriverError Driver :=
  let '(r, w) := m (d_world d) in
  _ ← map_err TransactionsErr (lift_intermittent_error r);
  Ok (MkDriver (d_watcher d) (d_tick d) (d_state d) (d_effects d) w).

Definition with_machine (d : Driver) (m : StateMachine) : Driver :=
  MkDriver (d_watcher d) (d_tick d) m (d_effects d) (d_world d).
Definition with_effects (d : Driver) (m : EffectManager) : Driver :=
  MkDriver (d_watcher d) (d_tick d) (d_state d) m (d_world d).

(** [queue_action]: at startup, no error is survived. *)
Definition queue_action (action : Action) (d : Driver) : result DriverError Driver :=
  let '(r, w) := queue_transactions [encode action] (d_world d) in
  _ ← map_err TransactionsErr r;
  Ok (MkDriver (d_watcher d) (d_tick d) (d_state d) (d_effects d) w).

(** The state machine's part of [update]. *)
Definition advance_machine (input : Input) (status : BlockStatus) (d : Driver)
    : result DriverError (Driver * list (Command.t Action Effect)) :=
  match input with
  | InputUpdate u =>
      let '(m, r) := handle_update (d_state d) u in
      commands ← map_err StateErr r;
      let '(m, r) := machine_prune m (safe status) in
      _ ← map_err StateErr r;
      Ok (with_machine d m, commands)
  | InputResume r =>
      let '(m, r) := handle_resume (d_state d) r in
      commands ← map_err StateErr r;
      Ok (with_machine d m, commands)
  end.

Definition actions_of (commands : list (Command.t Action Effect)) : list Action :=
  omap (fun c => match c with Command.Action a => Some a | Command.Effect _ => None end) commands.
Definition effects_of (commands : list (Command.t Action Effect)) : list Effect :=
  omap (fun c => match c with Command.Effect e => Some e | Command.Action _ => None end) commands.

(** Dispatching the commands of a transition. *)
Definition dispatch (commands : list (Command.t Action Effect)) (d : Driver) : result DriverError Driver :=
  let d := with_effects d (foldl spawn (d_effects d) (effects_of commands)) in
  let txs := encode <$> actions_of commands in
  if decide (txs = []) then Ok d else on_queue (queue_transactions txs) d.

(** Handlers are maintained once a new block was dispatched. *)
Definition needs_housekeeping (input : Input) : bool :=
  match input with InputUpdate (Update.Block (BlockUpdate.New _ _ _ _)) => true | _ => false end.

(** [update]. *)
Definition update_driver (input : Input) (d : Driver) : result DriverError Driver :=
  let status := block_status (d_watcher d) in
  d ← match input with
      | InputUpdate _ => on_queue (update_block_status status) d
      | InputResume _ => Ok d
      end;
  '(d, commands) ← advance_machine input status d;
  d ← dispatch commands d;
  Ok (if needs_housekeeping input then with_effects d (effects_housekeeping (d_effects d) status) else d).

(** What can happen next: the indexer is polled, a task ends, or the result of
    one is collected. *)
Inductive DriverEvent := Poll | Complete (i : nat) | Collect.

(** Only a reorganization past the configured depth stops the indexer. *)
Definition unrecoverable (e : IndexError) : bool :=
  match e with BlocksErr (ExceededMaxReorgDepth _) => true | _ => false end.

(** [next_input] and [update]; none when the indexer needs more [fuel]. *)
Definition driver_step (fuel : nat) (ev : DriverEvent) (d : Driver) : option (result DriverError Driver) :=
  match ev with
  | Poll =>
      '(r, w, tick) ← next_index fuel (d_watcher d) (d_tick d);
      let d := MkDriver w tick (d_state d) (d_effects d) (d_world d) in
      match r with
      | Ok u => Some (update_driver (InputUpdate u) d)
      | Err e => Some (if unrecoverable e then Err (IndexErr e) else Ok d)
      end
  | Complete i => Some (Ok (with_effects d (complete (d_effects d) i)))
  | Collect =>
      let '(r, m) := next_resume (d_effects d) in
      let d := with_effects d m in
      Some match r with Some r => update_driver (InputResume r) d | None => Ok d end
  end.

(** [run], over a schedule of events. *)
Fixpoint run_driver (fuel : nat) (events : list DriverEvent) (d : Driver) : option (result DriverError Driver) :=
  match events with
  | [] => Some (Ok d)
  | ev :: events =>
      r ← driver_step fuel ev d;
      match r with Ok d => run_driver fuel events d | Err e => Some (Err e) end
  end.

(** ** The components stay in step *)

Context {LAWS : NodeLaws} {LOGS : LogLaws}.

Context {SL : SerdeLaws S}.

(** What stops a driver: a reorganization past the configured depth; one of the block
    [first], before which the machine keeps nothing, when it is above [lo]; or a
    failure of the signer or of the queue's tables. *)
Definition stops (first lo : Z) (e : DriverError) : Prop :=
  match e with
  | IndexErr e => unrecoverable e = true
  | StateErr e => e = Storage (MissingSnapshot (first - 1)) /\ lo < first
  | TransactionsErr e => is_intermittent e = false
  end.

Definition world_ok (w : World) : Prop := markers_ok w /\ storage_ok (tq_storage (world_queue w)).

(** The machine is where the indexer is, its snapshots are those the indexer can
    roll back to, and the queue's tables are consistent. *)
Record driver_ok (first lo : Z) (d : Driver) : Prop := {
  do_machine : exists state status pos,
    inner (d_state d) = Some (state, status) /\ watch_ok (d_watcher d) status pos /\
    rolls_back first (w_blocks (d_watcher d)) status (snapshots (d_state d));
  do_snapshots : readable (snapshots (d_state d));
  do_safe : lo <= safe_number (bw_safe (w_blocks (d_watcher d)));
  do_world : world_ok (d_world d)
}.

(** The driver but for its queue. *)
Definition same_but_world (d d' : Driver) : Prop :=
  d_watcher d' = d_watcher d /\ d_tick d' = d_tick d /\ d_state d' = d_state d /\ d_effects d' = d_effects d.

Lemma on_queue_ok first lo op d :
  op_ok op -> world_ok (d_world d) ->
  match on_queue (run_op op) d with
  | Ok d' => same_but_world d d' /\ world_ok (d_world d') /\ d_world d' = (run_op op (d_world d)).2
  | Err e => stops first lo e
  end.
Proof.
  intros Hop [Hm Hok]. unfold on_queue. pose proof (run_op_storage op (d_world d) Hok) as Hok'.
  destruct (run_op op (d_world d)) as [r w] eqn:E. simpl in Hok'.
  destruct (run_op_markers op (d_world d) r w Hop Hm E) as [(e & -> & He)|Hm'].
  - simpl. rewrite He. simpl. by rewrite He.
  - destruct r as [[]|e]; simpl; [done|]. destruct (is_intermittent e) eqn:He; [done|]. simpl. by rewrite He.
Qed.

Lemma dispatch_ok first lo commands d :
  world_ok (d_world d) ->
  match dispatch commands d with
  | Ok d' => d_watcher d' = d_watcher d /\ d_state d' = d_state d /\ world_ok (d_world d')
  | Err e => stops first lo e
  end.
Proof.
  intros Hw. unfold dispatch. case_decide; [done|].
  set (d1 := with_effects d _). change (queue_transactions ?txs) with (run_op (Queue txs)).
  pose proof (on_queue_ok first lo (Queue (encode <$> actions_of commands)) d1 I Hw) as H'.
  destruct (on_queue _ d1) as [d'|e]; [|done]. destruct H' as ((Hw1 & _ & Hs & _) & Hok & _).
  by rewrite Hw1, Hs.
Qed.

(** What the machine is in for when an input arrives. *)
Definition awaited (first : Z) (d : Driver) (input : Input) (status status' : Status) : Prop :=
  let b := w_blocks (d_watcher d) in
  match input with
  | InputUpdate u => accepts status u = Some status' /\ update_leaves first b status' u (snapshots (d_state d))
  | InputResume _ => status' = status /\ rolls_back first b status (snapshots (d_state d))
  end.

Lemma advance_machine_ok first lo input d state status status' :
  let b := w_blocks (d_watcher d) in
  inner (d_state d) = Some (state, status) -> Watch.status_ok status -> readable (snapshots (d_state d)) ->
  awaited first d input status status' -> watcher_ok b -> lo <= safe_number (bw_safe b) ->
  match advance_machine input (block_status (d_watcher d)) d with
  | Ok (d', _) => d_watcher d' = d_watcher d /\ d_world d' = d_world d /\
      (exists state', inner (d_state d') = Some (state', status')) /\
      readable (snapshots (d_state d')) /\ rolls_back first b status' (snapshots (d_state d'))
  | Err e => stops first lo e
  end.
Proof.
  intros b Hi Hs Hread Hdue Hb Hlo. unfold advance_machine. set (low := safe (block_status (d_watcher d))). destruct input as [u|r].
  - destruct Hdue as [Ha Hl].
    pose proof (update_anchored first b status' (d_state d) state status u Hi Hs Ha Hread Hl) as Hu.
    destruct (handle_update (d_state d) u) as [m [cmds|e]]; simpl.
    2: { destruct Hu as [-> Hlt]. split; [done|]. lia. }
    destruct Hu as ((state' & Hi') & Hread' & Hrb). destruct Hl as [Hnp _].
    destruct (prune_anchored first b status' m low Hread' Hrb Hnp eq_refl)
      as (m' & -> & Hin & Hread2 & Hrb2); [exact (safe_storable _ Hb (rb_queue _ _ _ _ Hrb))|].
    simpl. rewrite Hin. split_and!; try done. by eexists.
  - destruct Hdue as [-> Hrb]. unfold handle_resume. rewrite Hi. destruct (apply_transition state _) as [st cmds]. simpl.
    split_and!; try done. by eexists.
Qed.

Lemma update_driver_ok first lo input d state status status' pos :
  inner (d_state d) = Some (state, status) -> Watch.status_ok status -> world_ok (d_world d) ->
  readable (snapshots (d_state d)) -> awaited first d input status status' ->
  watch_ok (d_watcher d) status' pos -> lo <= safe_number (bw_safe (w_blocks (d_watcher d))) ->
  match update_driver input d with Ok d' => driver_ok first lo d' | Err e => stops first lo e end.
Proof.
  intros Hi Hs Hw Hread Hdue Hwatch Hlo. unfold update_driver. set (s := block_status (d_watcher d)).
  assert (match match input with InputUpdate _ => on_queue (update_block_status s) d | InputResume _ => Ok d end with
    | Ok d1 => d_watcher d1 = d_watcher d /\ d_state d1 = d_state d /\ world_ok (d_world d1)
    | Err e => stops first lo e end) as H1.
  { destruct input as [u|r]; [|done]. change (update_block_status s) with (run_op (UpdateStatus s)).
    assert (op_ok (UpdateStatus s)) as Hop by apply watcher_status_bounds, Hwatch.
    pose proof (on_queue_ok first lo (UpdateStatus s) d Hop Hw) as Hq.
    destruct (on_queue _ d) as [d1|e]; [|done]. destruct Hq as ((? & _ & ? & _) & ? & _). auto. }
  destruct (match input with InputUpdate _ => _ | InputResume _ => _ end) as [d1|e]; [|done].
  destruct H1 as (Hw1 & Hs1 & Hok1). cbn [mbind result_bind]. subst s. rewrite <- Hw1.
  pose proof (advance_machine_ok first lo input d1 state status status') as H2. unfold awaited in *. rewrite <- Hw1, <- Hs1 in *.
  specialize (H2 Hi Hs Hread Hdue (sf_blocks _ _ _ (wo_stream _ _ _ Hwatch)) Hlo).
  destruct (advance_machine input _ d1) as [[d2 cmds]|e]; [|done]. cbn [mbind result_bind].
  destruct H2 as (Hw2 & Hd2 & (state' & Hi2) & Hread2 & Hrb2). rewrite <- Hd2 in Hok1.
  pose proof (dispatch_ok first lo cmds d2 Hok1) as H3.
  destruct (dispatch cmds d2) as [d3|e]; [|done]. destruct H3 as (Hw3 & Hs3 & Hok3). cbn [mbind result_bind].
  rewrite <- Hs3 in *. rewrite <- Hw2, <- Hw3 in *.
  split; [exists state', status', pos|..]; by destruct (needs_housekeeping input).
Qed.

Lemma driver_step_ok first lo fuel ev d r :
  blocks_storable -> driver_ok first lo d -> driver_step fuel ev d = Some r ->
  match r with Ok d' => driver_ok first lo d' | Err e => stops first lo e end.
Proof.
  intros Hstorable [(state & status & pos & Hi & Hwatch & Hrb) Hread Hlo Hw] Hstep.
  pose proof (sf_room _ _ _ (wo_stream _ _ _ Hwatch)) as Hroom. destruct ev as [|i|]; cbn [driver_step] in Hstep.
  - destruct (next_index fuel (d_watcher d) (d_tick d)) as [[[u w] tick]|] eqn:Hn; [|done].
    cbn [mbind option_bind] in Hstep. pose proof (next_index_ok _ _ _ _ _ _ _ _ Hwatch Hn) as Hok.
    pose proof (next_index_anchors _ _ _ _ _ _ _ _ _ _ Hstorable Hwatch Hrb Hn) as [Hle Hl].
    destruct u as [u|e].
    + destruct Hok as (status' & pos' & Ha & Hw'). injection Hstep as <-.
      eapply (update_driver_ok first lo (InputUpdate u) (MkDriver w tick _ _ _)); try done; [|simpl; lia].
      split; [done|by apply Hl].
    + destruct (unrecoverable e) eqn:Hun; injection Hstep as <-; [done|].
      split; [by exists state, status, pos|done|simpl; lia|done].
  - injection Hstep as <-. split; [by exists state, status, pos|done..].
  - destruct (next_resume (d_effects d)) as [[x|] m]; injection Hstep as <-.
    + by eapply (update_driver_ok first lo (InputResume x) (with_effects d m)).
    + split; [by exists state, status, pos|done..].
Qed.

Lemma run_driver_ok first lo fuel events d r :
  blocks_storable -> driver_ok first lo d -> run_driver fuel events d = Some r ->
  match r with Ok d' => driver_ok first lo d' | Err e => stops first lo e end.
Proof.
  intros Hst. revert d. induction events as [|ev events IH]; intros d Hd Hr; cbn [run_driver] in Hr; [by simplify_eq|].
  destruct (driver_step fuel ev d) as [r1|] eqn:Hs; [|done]. cbn [mbind option_bind] in Hr.
  pose proof (driver_step_ok _ _ _ _ _ _ Hst Hd Hs) as H1. destruct r1 as [d1|e]; [by eapply IH|by simplify_eq].
Qed.

Lemma with_init_status (sn : gmap Z Json) init m :
  with_init sn init = Ok m ->
  snapshots m = sn /\ exists state, inner m = Some (state, start_status (status sn)).
Proof.
  unfold with_init. intros Hi. apply bind_Ok in Hi as (cur & Hcur & Hi).
  apply map_err_Ok in Hcur. apply bind_Ok in Hi as (inn & Hinn & [= <-]). split; [done|].
  unfold current in Hcur. unfold status.
  destruct (max_block sn) as [n|] eqn:Hmax.
  - assert (is_Some (sn !! n)) as [j Hj].
    { apply elem_of_sorted_keys. unfold max_block in Hmax. by apply last_Some_elem_of. }
    rewrite Hj in Hcur. apply bind_Ok in Hcur as (state & _ & [= <-]). simpl in Hinn.
    apply bind_Ok in Hinn as (p & Hp & [= <-]). apply ok_or_Ok, checked_add_Some in Hp as [-> _].
    exists state. simpl. unfold max_block, min_block in *. by destruct (sorted_keys sn).
  - injection Hcur as <-. injection Hinn as <-. exists init. simpl. by destruct (min_block sn).
Qed.

(** What the machine's database holds: states it can read, at block numbers. *)
Definition stored_ok (sn : gmap Z Json) : Prop :=
  forall k j, sn !! k = Some j -> 0 <= k <= i64_max /\ is_Some (from_str j).

Lemma stored_starts (sn : gmap Z Json) : stored_ok sn -> starts_over (status sn) sn.
Proof.
  intros Hsn. unfold status. destruct (min_block sn) as [lo|] eqn:Hmin.
  - destruct (max_block sn) as [hi|] eqn:Hmax.
    2: { apply max_block_None in Hmax. by subst. }
    apply max_block_Some in Hmax as [[j Hj] Hle]. unfold min_block in Hmin.
    pose proof (sorted_elements_lt (dom sn)) as Hsorted. fold (sorted_keys sn) in Hsorted.
    destruct (sorted_keys sn) as [|x l] eqn:El; [done|]. injection Hmin as ->.
    assert (is_Some (sn !! lo)) as Hlo by (apply elem_of_sorted_keys; rewrite El; by left).
    simpl. split; [done|]. destruct (Hsn _ _ Hj) as [? _]. destruct Hlo as [jl Hjl]. destruct (Hsn _ _ Hjl) as [? _].
    pose proof (Hle lo ltac:(by eexists)). split; [lia|]. split; [lia|].
    intros k Hk. destruct (sn !! k) as [jk|] eqn:Ek; [|done]. exfalso.
    assert (k ∈ lo :: l) as Hin by (rewrite <- El; apply elem_of_sorted_keys; by eexists).
    apply elem_of_cons in Hin as [->|Hin]; [lia|]. apply StronglySorted_inv in Hsorted as [_ Hall].
    rewrite Forall_forall in Hall. specialize (Hall k Hin). lia.
  - destruct (max_block sn) as [hi|] eqn:Hmax; [|by apply max_block_None in Hmax].
    unfold min_block, max_block in *. by destruct (sorted_keys sn).
Qed.

Lemma new_driver_ok fuel sn init h ops blocks events txs addresses d :
  index_ready blocks events (status sn) -> blocks_storable -> stored_ok sn ->
  new_driver fuel sn init h (apply_ops empty_storage ops) blocks events txs addresses = Some (Ok d) ->
  driver_ok (origin (status sn) (w_blocks (d_watcher d))) (safe (block_status (d_watcher d))) d.
Proof.
  intros Hr Hst Hsn Hn. unfold new_driver in Hn.
  destruct (with_init sn init) as [m|e] eqn:Hm; [|done]. simpl in Hn.
  apply with_init_status in Hm as [Hms [state Hi]].
  destruct (new_index fuel blocks events addresses (status sn) 0) as [[w tick]|] eqn:Hw; [|done].
  simpl in Hn. destruct w as [w|e]; [|done].
  destruct (new_queue _ txs 0) as [q tick'] eqn:Hq. unfold new_queue in Hq.
  destruct (check_mode txs 0) as [r t]. injection Hq as <- <-. destruct r as [[]|e]; [|done].
  injection Hn as <-. pose proof (new_index_ok _ _ _ _ _ _ _ _ Hr Hw) as Hwok. split; simpl.
  - exists state, (start_status (status sn)), (resume_position (status sn)). split; [done|]. split; [done|]. rewrite Hms.
    unfold new_index in Hw. destruct (new_watcher fuel blocks (status sn) 0) as [[b t']|] eqn:Hnw; [|done].
    cbn [mbind option_bind] in Hw. destruct b as [b|e]; [|done]. injection Hw as <- <-. cbn [w_blocks].
    eapply new_watcher_anchors; [done|by destruct Hr|apply Hwok|by apply stored_starts|done].
  - rewrite Hms. intros k j Hj. by eapply Hsn.
  - unfold block_status, watcher_status. simpl. lia.
  - split; [by intros s [=]|]. by apply apply_ops_ok, empty_storage_ok.
Qed.

(** C9: the driver keeps its components in step. A driver starts over persisted
    snapshots it can read and any tables of its queue, with a node whose latest
    block is at or past the oldest snapshot, or the configured start block, and
    whose block numbers fit the database. Then, whatever the schedule of polls,
    effects and results, whatever the node answers and the transitions do, it stops
    only for a reorganization past the configured depth, a failure of the queue's
    tables or of its signer, or one rollback it has no snapshot for: that of the
    very block its oldest snapshot is of, or of the first block it followed over an
    empty database, when that was still above the safe block. It never stops because
    the indexer and the state machine disagree, nor for another snapshot that is
    missing, unreadable or out of range, nor for an RPC error; a failing database is
    not modelled for snapshots. While it runs, the machine is not poisoned, and the
    execution markers of the queue are at or below the latest block it saw. *)
Theorem driver_in_step fuel sn init h ops blocks events txs addresses d fuel' schedule r :
  index_ready blocks events (status sn) -> blocks_storable -> stored_ok sn ->
  new_driver fuel sn init h (apply_ops empty_storage ops) blocks events txs addresses = Some (Ok d) ->
  run_driver fuel' schedule d = Some r ->
  match r with
  | Ok d' =>
      is_Some (inner (d_state d')) /\
      forall s n row e, tq_block_status (world_queue (d_world d')) = Some s ->
        nonces_of (d_world d') !! n = Some row -> nr_executed_at row = Some e -> e <= latest s
  | Err e =>
      (exists depth, e = IndexErr (BlocksErr (ExceededMaxReorgDepth depth))) \/
      (let first := origin (status sn) (w_blocks (d_watcher d)) in
       e = StateErr (Storage (MissingSnapshot (first - 1))) /\ safe (block_status (d_watcher d)) < first) \/
      (exists e', e = TransactionsErr e' /\ forall rpc, e' <> TxRpc rpc)
  end.
Proof.
  intros Hr Hst Hsn Hn Hrun. pose proof (new_driver_ok _ _ _ _ _ _ _ _ _ _ Hr Hst Hsn Hn) as Hok.
  pose proof (run_driver_ok _ _ _ _ _ _ Hst Hok Hrun) as H'. destruct r as [d'|e].
  - destruct H' as [(state & st & pos & Hi & _) _ _ [Hm _]]. split; [by rewrite Hi|].
    intros s k row e Hs Hrow He. destruct (Hm s Hs) as [_ Hmark]. by eapply Hmark.
  - destruct e as [e|e|e]; simpl in H'.
    + left. destruct e as [[]|]; try done. by eexists.
    + right. left. destruct H' as [-> ?]. by split.
    + right. right. exists e. split; [done|]. by intros rpc ->.
Qed.

(** ** Dispatching commands *)

(** The input's transition: the machine after it and its commands. *)
Definition transition_of (input : Input) (m : StateMachine (S := S))
    : StateMachine (S := S) * result MachineError (list (Command.t Action Effect)) :=
  match input with InputUpdate u => handle_update m u | InputResume r => handle_resume m r end.

Definition storage_of (d : Driver) : TransactionStorage := tq_storage (world_queue (d_world d)).

(** The queries enqueue nothing. *)
Definition quiet (ops : list TxOp) : Prop := Forall (fun op => enqueues op = false) ops.

Lemma foldl_spawn (m : EffectManager (H := H) (Effect := Effect) (Resume := Resume)) effects :
  foldl spawn m effects = MkEffectManager (handler m) (running m ++ effects) (ended m) (entropy m).
Proof.
  revert m. induction effects as [|e effects IH]; intros m; simpl.
  - rewrite app_nil_r. by destruct m.
  - rewrite IH. simpl. by rewrite <- (assoc_L (++)).
Qed.

Lemma dispatch_spec commands d d' :
  dispatch commands d = Ok d' ->
  d_state d' = d_state d /\
  d_effects d' = MkEffectManager (handler (d_effects d)) (running (d_effects d) ++ effects_of commands)
    (ended (d_effects d)) (entropy (d_effects d)) /\
  exists st ops, enqueue (storage_of d) (encode <$> actions_of commands) = Ok st /\
    storage_of d' = apply_ops st ops /\ quiet ops.
Proof.
  unfold dispatch. rewrite foldl_spawn. case_decide as Hn.
  { intros [= <-]. rewrite Hn. split_and!; [done|done|]. exists (storage_of d), []. split_and!; [done|done|constructor]. }
  unfold on_queue. set (d1 := with_effects d _). simpl.
  destruct (queue_transactions_queries (encode <$> actions_of commands) (d_world d)) as (ops & Hops & Hq & He).
  destruct (queue_transactions _ (d_world d)) as [r w]. simpl in *. intros Hd.
  destruct (enqueue (tq_storage (world_queue (d_world d))) (encode <$> actions_of commands)) as [st|e] eqn:Hen.
  - apply bind_Ok in Hd as (? & _ & [= <-]). simpl. split_and!; [done|done|].
    exists st, ops. split; [done|]. unfold storage_of. simpl. by rewrite Hops.
  - by rewrite (He e eq_refl) in Hd.
Qed.

Lemma on_queue_update s d d' :
  on_queue (update_block_status s) d = Ok d' ->
  same_but_world d d' /\ exists ops, storage_of d' = apply_ops (storage_of d) ops /\ quiet ops.
Proof.
  unfold on_queue. destruct (update_block_status_queries s (d_world d)) as [(ops & Hops & Hq) _ _].
  destruct (update_block_status s (d_world d)) as [r w]. intros Hd.
  apply bind_Ok in Hd as (? & _ & [= <-]). split; [done|]. by exists ops.
Qed.

Lemma advance_machine_spec input s d d' commands :
  advance_machine input s d = Ok (d', commands) ->
  exists m, transition_of input (d_state d) = (m, Ok commands) /\ inner (d_state d') = inner m /\
    match input with
    | InputUpdate _ => prune (snapshots m) (safe s) = Ok (snapshots (d_state d'))
    | InputResume _ => snapshots (d_state d') = snapshots m
    end /\
    d_effects d' = d_effects d /\ d_world d' = d_world d.
Proof.
  unfold advance_machine. intros Ha. destruct input as [u|r]; simpl.
  - destruct (handle_update (d_state d) u) as [m r]. apply bind_Ok in Ha as (cmds & Hr%map_err_Ok & Ha).
    subst r. destruct (machine_prune m (safe s)) as [m' r] eqn:Hp.
    apply bind_Ok in Ha as ([] & Hr%map_err_Ok & [= <- <-]). subst r. unfold machine_prune in Hp.
    destruct (prune (snapshots m) (safe s)) as [sn|e] eqn:Hpr; simplify_eq. by exists m.
  - destruct (handle_resume (d_state d) r) as [m q]. apply bind_Ok in Ha as (cmds & Hr%map_err_Ok & [= <- <-]).
    subst q. by exists m.
Qed.

(** One input, processed. *)
Lemma update_driver_spec input d d' :
  update_driver input d = Ok d' ->
  exists m commands st ops1 ops2,
    transition_of input (d_state d) = (m, Ok commands) /\
    inner (d_state d') = inner m /\
    match input with
    | InputUpdate _ => prune (snapshots m) (safe (block_status (d_watcher d))) = Ok (snapshots (d_state d'))
    | InputResume _ => snapshots (d_state d') = snapshots m
    end /\
    enqueue (apply_ops (storage_of d) ops1) (encode <$> actions_of commands) = Ok st /\
    storage_of d' = apply_ops st ops2 /\ quiet ops1 /\ quiet ops2 /\
    running (d_effects d') = running (d_effects d) ++ effects_of commands /\
    ended (d_effects d') = ended (d_effects d) /\ entropy (d_effects d') = entropy (d_effects d) /\
    handler (d_effects d') =
      if needs_housekeeping input then housekeep (block_status (d_watcher d)) (handler (d_effects d))
      else handler (d_effects d).
Proof.
  unfold update_driver. set (s := block_status (d_watcher d)). intros Hu.
  apply bind_Ok in Hu as (d1 & H1 & Hu).
  assert (d_state d1 = d_state d /\ d_effects d1 = d_effects d /\
    exists ops1, storage_of d1 = apply_ops (storage_of d) ops1 /\ quiet ops1) as (Hs1 & He1 & ops1 & Ho1 & Hq1).
  { destruct input; [|injection H1 as <-; split_and!; [done|done|exists []; split; [done|constructor]]].
    apply on_queue_update in H1 as [(_ & _ & ? & ?) ?]. done. }
  apply bind_Ok in Hu as ([d2 cmds] & H2 & Hu). apply bind_Ok in Hu as (d3 & H3 & [= <-]).
  destruct (advance_machine_spec _ _ _ _ _ H2) as (m & Hm & Hi & Hp & He2 & Hw2). rewrite Hs1 in Hm.
  destruct (dispatch_spec _ _ _ H3) as (Hs3 & He3 & st & ops2 & Hen & Ho3 & Hq2).
  assert (storage_of d2 = storage_of d1) as Hst2 by (unfold storage_of; by rewrite Hw2).
  rewrite Hst2, Ho1 in Hen. exists m, cmds, st, ops1, ops2. rewrite <- Hi, <- Hs3.
  split_and!; try done; destruct (needs_housekeeping input); simpl; rewrite ?He3, ?He2, ?He1; try done;
    by destruct input; rewrite Hs3.
Qed.

(** C10: every command of a transition is carried out, once. When an input is
    processed, the machine has made exactly that input's transition, and its
    snapshots below the safe block are collected for an update; the actions among
    its commands are enqueued as transactions, in order, in one batch, and nothing
    else is; its effects are spawned, in order, and none is performed meanwhile; and the
    handler is maintained with the watcher's status after a new block, and then only. *)
Theorem commands_carried_out input d d' :
  update_driver input d = Ok d' ->
  exists m commands st ops1 ops2,
    transition_of input (d_state d) = (m, Ok commands) /\
    inner (d_state d') = inner m /\
    match input with
    | InputUpdate _ => prune (snapshots m) (safe (block_status (d_watcher d))) = Ok (snapshots (d_state d'))
    | InputResume _ => snapshots (d_state d') = snapshots m
    end /\
    enqueue (apply_ops (storage_of d) ops1) (encode <$> actions_of commands) = Ok st /\
    storage_of d' = apply_ops st ops2 /\ quiet ops1 /\ quiet ops2 /\
    running (d_effects d') = running (d_effects d) ++ effects_of commands /\
    ended (d_effects d') = ended (d_effects d) /\ entropy (d_effects d') = entropy (d_effects d) /\
    handler (d_effects d') =
      if needs_housekeeping input then housekeep (block_status (d_watcher d)) (handler (d_effects d))
      else handler (d_effects d).
Proof. apply update_driver_spec. Qed.

End Driver.
