(* ===== verification/ToyDriver.v ===== *)
(** The driver over the toy node and chain: a service that counts the messages it
    is given, asks for an effect at every block and submits an action at every
    result. *)

From S2P Require Import Prelude Keccak Messages Snapshots StateMachine Node Blocks Events Watch Anchors ToyNode Indexing TxTypes TxStorage TxQueue ToyTx Driver.

#[local] Existing Instance toy_keccak.

#[export] Instance toy_service : StateTransition nat Z Z unit Z := fun n m =>
  (S n, match m with
        | Message.NewBlock _ => [Command.Effect ()]
        | Message.Event _ => []
        | Message.Resume r => [Command.Action r; Command.Effect ()]
        end).
#[export] Instance toy_serde : Serde nat := {| Json := nat; to_string := Some; from_str := Some |}.

(** Every third effect panics; maintenance is counted. *)
#[export] Instance toy_handler : EffectHandler nat unit Z := {|
  handle_effect t _ h := (if decide (t mod 3 = 2)%nat then None else Some (Z.of_nat t), h);
  housekeep _ h := S h
|}.
#[export] Instance toy_encoder : ActionEncoder Z := {| encode a := (toy_call a, None) |}.

Definition toy_driver := new_driver (Effect := unit) (Resume := Z) 30 ∅ 0%nat 0%nat
  (apply_ops empty_storage []) toy_blocks_config toy_events_config toy_tx_config [1].

Definition toy_schedule : list DriverEvent :=
  [Poll; Poll; Complete 0; Poll; Collect; Poll; Complete 0; Complete 0; Collect; Poll; Collect].

(** The state after the schedule, what was broadcast, and the effects left. *)
Lemma toy_driver_runs :
  match toy_driver with
  | Some (Ok d) =>
      match run_driver 30 toy_schedule d with
      | Some (Ok d) => Some (inner (d_state d), length (broadcast (d_world d)), handler (d_effects d))
      | _ => None
      end
  | _ => None
  end = Some (Some (9%nat, BlockApplied 7), 2%nat, 1%nat).
Proof. vm_compute. reflexivity. Qed.

Definition toy_driver_run : option (Driver (H := nat) (Effect := unit) (Resume := Z)) :=
  match toy_driver with
  | Some (Ok d) => match run_driver 30 toy_schedule d with Some (Ok d) => Some d | _ => None end
  | _ => None
  end.

#[export] Instance toy_serde_laws : SerdeLaws nat.
Proof. split. intros s. by exists s. Qed.

Lemma toy_storable : blocks_storable.
Proof. intros tick [|n] b H; simpl in H; [by injection H as <-|]. case_decide; simplify_eq/=. lia. Qed.

Lemma toy_stored : stored_ok (S := nat) ∅.
Proof. intros k j Hk. by rewrite lookup_empty in Hk. Qed.

Lemma driver_in_step_witness :
  exists d d', toy_driver = Some (Ok d) /\ run_driver 30 toy_schedule d = Some (Ok d') /\
    is_Some (inner (d_state d')) /\
    forall s n row e, tq_block_status (world_queue (d_world d')) = Some s ->
      nonces_of (d_world d') !! n = Some row -> nr_executed_at row = Some e -> e <= latest s.
Proof.
  pose proof toy_driver_runs as Hruns.
  destruct toy_driver as [[d|e]|] eqn:Hd; [|discriminate Hruns..].
  destruct (run_driver 30 toy_schedule d) as [[d'|e]|] eqn:Hr; [|discriminate Hruns..].
  exists d, d'. split; [reflexivity|]. split; [exact Hr|].
  exact (driver_in_step 30 ∅ 0%nat 0%nat [] toy_blocks_config toy_events_config toy_tx_config [1] d
    30 toy_schedule (Ok d') toy_index_ready toy_storable toy_stored Hd Hr).
Defined.

(** The rollback no snapshot is there for: the first block followed, its successor
    on another fork, with one block of reorganizations configured. *)
Definition forked_node : Node := {|
  RpcError := unit;
  resource_not_found _ := true;
  chain_id := 100;
  node_block _ id :=
    match id with
    | LatestBlock => Ok (Some (toy_header 10))
    | BlockNumber n =>
        Ok (if decide (0 <= n <= 10) then Some (toy_header n)
            else if decide (n = 11) then Some (MkBlockHeader 11 11 99 55 0) else None)
    end;
  node_logs _ _ := Ok [];
  logs_bloom l := Z.of_nat (length l);
  bloom_contains _ _ := true;
  race t := t;
  hash_number h := h
|}.

Example first_block_uncled :
  match new_driver (NODE := forked_node) (Effect := unit) (Resume := Z) 30 ∅ 0%nat 0%nat
      (apply_ops empty_storage []) (MkBlocksConfig Auto Auto Auto 1 None) toy_events_config toy_tx_config [1] with
  | Some (Ok d) => run_driver (NODE := forked_node) 30 [Poll; Poll; Poll] d
  | _ => None
  end = Some (Err (StateErr (Storage (MissingSnapshot 9)))).
Proof. vm_compute. reflexivity. Qed.

(** A result collected after the run: one action and one effect. *)
Lemma commands_carried_out_witness :
  exists d d', toy_driver_run = Some d /\ update_driver (InputResume 4) d = Ok d' /\
    running (d_effects d') = running (d_effects d) ++ [()].
Proof.
  assert (match toy_driver_run with
    | Some d => is_ok (update_driver (InputResume 4) d) &&
        match inner (d_state d) with Some _ => true | None => false end
    | None => false end = true) as Hok by (vm_compute; reflexivity).
  destruct toy_driver_run as [d|]; [|discriminate Hok]. exists d.
  apply andb_true_iff in Hok as [Hok Hi].
  destruct (update_driver (InputResume 4) d) as [d'|e] eqn:Hu; [|discriminate Hok].
  exists d'. split; [reflexivity|]. split; [reflexivity|].
  destruct (commands_carried_out (InputResume 4) d d' Hu)
    as (m & commands & st & ops1 & ops2 & Ht & _ & _ & _ & _ & _ & _ & Hrun & _).
  rewrite Hrun. f_equal. unfold transition_of, handle_resume in Ht.
  destruct (inner (d_state d)) as [[s status]|]; [|discriminate Hi].
  cbv in Ht. injection Ht as _ <-. reflexivity.
Defined.
