(* ===== verification/Verdicts.v ===== *)
(** The sentinel's verdicts: the rules an engine cites and the client that asks it
    ([crates/sentinel/src/engine.rs]), the store that remembers them
    ([verdicts.rs]) and the handler of the sentinel's only effect ([effect.rs]).
    What the disk may do to a query is not modelled; conversions are. *)

From Stdlib Require Import String Ascii.
From S2P Require Import Prelude Text Messages Driver.

(** ** Rules *)

(** [RuleId]: a section and a rule, two [u32]s. *)
Record RuleId := MkRuleId { section : Z; rule : Z }.

#[export] Instance RuleId_eq_dec : EqDecision RuleId.
Proof. solve_decision. Defined.

(** [Display]: [R-{section}.{rule}]. *)
Definition display_rule (r : RuleId) : string :=
  ("R-" ++ decimal (section r) ++ "." ++ decimal (rule r))%string.

(** [RuleId::parse]. *)
Definition parse_rule (code : string) : option RuleId :=
  code ← strip_prefix "R" code;
  code ← strip_prefix "-" code;
  '(section, rule) ← split_once "." code;
  section ← parse_u32 section;
  rule ← parse_u32 rule;
  Some (MkRuleId section rule).

(** ** The engine *)

Inductive CheckOutcome :=
| Approved
| Denied (rule : RuleId)
| Unknown.

#[export] Instance CheckOutcome_eq_dec : EqDecision CheckOutcome.
Proof. solve_decision. Defined.

(** [engine::Response]. *)
Inductive Response :=
| Secure
| Insecure (rule : RuleId)
| Abstain.

(** What is posted: the transaction, and the headers of the builder. The block
    is always the latest. *)
Record SecurityCheck (T : Type) := MkSecurityCheck {
  sc_transaction : T;
  sc_request_id : option Z;
  sc_proposal_timestamp : option Z;
  sc_timeout : option Z
}.
Arguments MkSecurityCheck {T} _ _ _ _.
Arguments sc_transaction {T} _.
Arguments sc_request_id {T} _.
Arguments sc_proposal_timestamp {T} _.
Arguments sc_timeout {T} _.

(** The engine behind its HTTP endpoint: none for a transport failure, a timeout,
    an error status or a body that is not a response. *)
Class Engine (T : Type) := { engine_answer : nat -> SecurityCheck T -> option Response }.

Section Engine.
Context {T : Type} {EN : Engine T}.

(** [EngineClient::security_check] and the methods of [SecurityCheck]. *)
Definition security_check (transaction : T) : SecurityCheck T := MkSecurityCheck transaction None None None.
Definition request_id (r : SecurityCheck T) (id : Z) : SecurityCheck T :=
  MkSecurityCheck (sc_transaction r) (Some id) (sc_proposal_timestamp r) (sc_timeout r).
Definition proposal_timestamp (r : SecurityCheck T) (timestamp : Z) : SecurityCheck T :=
  MkSecurityCheck (sc_transaction r) (sc_request_id r) (Some timestamp) (sc_timeout r).
Definition timeout (r : SecurityCheck T) (ms : Z) : SecurityCheck T :=
  MkSecurityCheck (sc_transaction r) (sc_request_id r) (sc_proposal_timestamp r) (Some (Z.min u64_max ms)).

(** [SecurityCheck::execute]: a failed request is no verdict. *)
Definition execute (tick : nat) (r : SecurityCheck T) : CheckOutcome :=
  match engine_answer tick r with
  | Some Secure => Approved
  | Some (Insecure rule) => Denied rule
  | Some Abstain => Unknown
  | None => Unknown
  end.
End Engine.

(** ** The store *)

Inductive VerdictError :=
| InvalidRule (code : string)
| VerdictOverflow.

(** A row of [engine_verdicts]: no rule is an approval. *)
Record VerdictRow := MkVerdictRow { vr_block : Z; vr_rule : option string }.

(** The table, by request. *)
Abbreviation VerdictStore := (gmap Z VerdictRow).

Definition decode_verdict (rule : option string) : result VerdictError CheckOutcome :=
  match rule with
  | None => Ok Approved
  | Some code => match parse_rule code with Some r => Ok (Denied r) | None => Err (InvalidRule code) end
  end.

(** [VerdictStore::get]: finding a verdict retains it for longer. *)
Definition get_verdict (st : VerdictStore) (id block : Z)
    : VerdictStore * result VerdictError (option CheckOutcome) :=
  match to_i64 block with
  | None => (st, Err VerdictOverflow)
  | Some block =>
      match st !! id with
      | None => (st, Ok None)
      | Some row =>
          (<[id := MkVerdictRow (Z.max (vr_block row) block) (vr_rule row)]> st,
           Some <$> decode_verdict (vr_rule row))
      end
  end.

(** The insert of [record]; on a conflict the row is only retained for longer. *)
Definition write_verdict (st : VerdictStore) (id block : Z) (rule : option string)
    : VerdictStore * result VerdictError CheckOutcome :=
  match to_i64 block with
  | None => (st, Err VerdictOverflow)
  | Some block =>
      let row :=
        match st !! id with
        | Some row => MkVerdictRow (Z.max (vr_block row) block) (vr_rule row)
        | None => MkVerdictRow block rule
        end in
      (<[id := row]> st, decode_verdict (vr_rule row))
  end.

(** [VerdictStore::record]: the first verdict is never overwritten. *)
Definition record_verdict (st : VerdictStore) (id block : Z) (outcome : CheckOutcome)
    : VerdictStore * result VerdictError CheckOutcome :=
  match outcome with
  | Approved => write_verdict st id block None
  | Denied r => write_verdict st id block (Some (display_rule r))
  | Unknown => (st, Ok Unknown)
  end.

(** [VerdictStore::prune], with the number of rows removed. *)
Definition prune_verdicts (st : VerdictStore) (safe : Z) : VerdictStore * result VerdictError nat :=
  match to_i64 safe with
  | None => (st, Err VerdictOverflow)
  | Some safe =>
      let st' := filter (fun e => ¬ vr_block e.2 < safe) st in
      (st', Ok (size st - size st')%nat)
  end.

(** ** The effect handler *)

Section Handler.
Context {T : Type} {EN : Engine T}.

(** [Handler]: the time the engine has, and the store. *)
Record SentinelHandler := MkSentinelHandler { engine_timeout : Z; verdicts : VerdictStore }.

(** [Effect::EngineCheck] and [Resume::EngineCheckResult]. *)
Record EngineCheck := MkEngineCheck {
  ec_request_id : Z; ec_transaction : T; ec_proposal_timestamp : Z; ec_block : Z
}.
Record EngineCheckResult := MkEngineCheckResult { er_request_id : Z; er_outcome : CheckOutcome }.

(** What is asked of the engine for an effect. *)
Definition check_request (ms : Z) (e : EngineCheck) : SecurityCheck T :=
  timeout (proposal_timestamp (request_id (security_check (ec_transaction e)) (ec_request_id e))
    (ec_proposal_timestamp e)) ms.

(** [Handler::engine_check]. *)
Definition engine_check (tick : nat) (ms : Z) (st : VerdictStore) (e : EngineCheck)
    : VerdictStore * CheckOutcome :=
  let '(st, found) := get_verdict st (ec_request_id e) (ec_block e) in
  match found with
  | Err _ => (st, Unknown)
  | Ok (Some outcome) => (st, outcome)
  | Ok None =>
      let outcome := execute tick (check_request ms e) in
      let '(st, recorded) := record_verdict st (ec_request_id e) (ec_block e) outcome in
      (st, match recorded with Ok outcome => outcome | Err _ => Unknown end)
  end.

#[export] Instance sentinel_handler : EffectHandler SentinelHandler EngineCheck EngineCheckResult := {|
  handle_effect tick e h :=
    let '(st, outcome) := engine_check tick (engine_timeout h) (verdicts h) e in
    (Some (MkEngineCheckResult (ec_request_id e) outcome), MkSentinelHandler (engine_timeout h) st);
  housekeep s h := MkSentinelHandler (engine_timeout h) (prune_verdicts (verdicts h) (safe s)).1
|}.
End Handler.

(** ** Citations survive their text *)

Definition is_u32 (z : Z) : Prop := 0 <= z <= u32_max.
Definition rule_ok (r : RuleId) : Prop := is_u32 (section r) /\ is_u32 (rule r).

(** [RuleId::parse] reads what [Display] writes. *)
Lemma parse_display r : rule_ok r -> parse_rule (display_rule r) = Some r.
Proof.
  intros [[Hs Hs'] [Hr Hr']]. unfold display_rule.
  change ("R-" ++ decimal (section r) ++ "." ++ decimal (rule r))%string
    with (String "R" (String "-" (decimal (section r) ++ String "." (decimal (rule r))))).
  unfold parse_rule. rewrite !strip_prefix_cons. cbn [mbind option_bind].
  rewrite !strip_prefix_cons. cbn [mbind option_bind].
  rewrite split_once_app by (apply digits_no_char; [done|by apply decimal_digits]). cbn [mbind option_bind].
  unfold u32_max in *. rewrite !parse_decimal by (unfold u32_max in *; lia). by destruct r.
Qed.

(** ** Recorded verdicts *)

Inductive VerdictOp :=
| GetVerdict (id block : Z)
| RecordVerdict (id block : Z) (outcome : CheckOutcome)
| PruneVerdicts (safe : Z).

Definition apply_verdict_op (st : VerdictStore) (op : VerdictOp) : VerdictStore :=
  match op with
  | GetVerdict id block => (get_verdict st id block).1
  | RecordVerdict id block outcome => (record_verdict st id block outcome).1
  | PruneVerdicts safe => (prune_verdicts st safe).1
  end.
Definition apply_verdict_ops (st : VerdictStore) (ops : list VerdictOp) : VerdictStore :=
  foldl apply_verdict_op st ops.

Definition outcome_ok (o : CheckOutcome) : Prop := match o with Denied r => rule_ok r | _ => True end.
Definition verdict_op_ok (op : VerdictOp) : Prop :=
  match op with RecordVerdict _ _ outcome => outcome_ok outcome | _ => True end.

(** The text a verdict is stored as. *)
Definition verdict_text (o : CheckOutcome) : option string :=
  match o with Denied r => Some (display_rule r) | _ => None end.

Lemma record_verdict_write st id block o :
  o <> Unknown -> record_verdict st id block o = write_verdict st id block (verdict_text o).
Proof. by destruct o. Qed.

Lemma decode_text o : outcome_ok o -> o <> Unknown -> decode_verdict (verdict_text o) = Ok o.
Proof.
  intros Ho Hu. destruct o as [|r|]; [done| |done]. unfold decode_verdict, verdict_text. by rewrite parse_display.
Qed.

(** [id]'s verdict is [o], retained for a proposal seen in [block]. *)
Definition holds_verdict (st : VerdictStore) (id block : Z) (o : CheckOutcome) : Prop :=
  exists row, st !! id = Some row /\ block <= vr_block row /\ decode_verdict (vr_rule row) = Ok o.

(** Queries retain verdicts; a collection only those of its blocks. *)
Definition retains (id block : Z) (op : VerdictOp) : Prop :=
  match op with PruneVerdicts safe => safe <= block | _ => True end.

Lemma op_holds st id block o op :
  holds_verdict st id block o -> retains id block op -> holds_verdict (apply_verdict_op st op) id block o.
Proof.
  intros (row & Hrow & Hb & Hd) Hr.
  assert (forall id' row', (id' = id -> block <= vr_block row' /\ decode_verdict (vr_rule row') = Ok o) ->
    holds_verdict (<[id' := row']> st) id block o) as Hins.
  { intros id' row' Hi. destruct (decide (id' = id)) as [->|Hne].
    - exists row'. rewrite lookup_insert_eq. split; [done|by apply Hi].
    - exists row. by rewrite lookup_insert_ne. }
  assert (holds_verdict st id block o) as Hsame by (by exists row).
  destruct op as [id' b|id' b o'|safe]; simpl.
  - unfold get_verdict. destruct (to_i64 b); [|done]. destruct (st !! id') as [row'|] eqn:E; [|done].
    apply Hins. intros ->. simplify_eq. simpl. split; [lia|done].
  - destruct (decide (o' = Unknown)) as [->|Ho]; [done|]. rewrite record_verdict_write by done.
    unfold write_verdict. destruct (to_i64 b); [|done]. apply Hins. intros ->. rewrite Hrow. simpl. split; [lia|done].
  - unfold prune_verdicts. destruct (to_i64 safe) as [s|] eqn:E; [|done]. apply to_i64_Some in E as [-> _].
    exists row. split; [|done]. apply map_lookup_filter_Some. split; [done|]. simpl in *. lia.
Qed.

Lemma ops_hold st id block o ops :
  holds_verdict st id block o -> Forall (retains id block) ops ->
  holds_verdict (apply_verdict_ops st ops) id block o.
Proof.
  revert st. induction ops as [|op ops IH]; intros st Hh Hr; [done|]. apply Forall_cons in Hr as [Ho Hr].
  apply IH; [|done]. by apply op_holds.
Qed.

(** Every row of the store decodes, whatever was asked. *)
Definition decodes (row : VerdictRow) : Prop :=
  exists o, decode_verdict (vr_rule row) = Ok o /\ o <> Unknown.
Definition store_ok (st : VerdictStore) : Prop := map_Forall (fun _ row => decodes row) st.

Lemma write_store_ok st id block o :
  store_ok st -> outcome_ok o -> o <> Unknown -> store_ok (write_verdict st id block (verdict_text o)).1.
Proof.
  intros Hst Ho Hu. unfold write_verdict. destruct (to_i64 block); [|done].
  apply map_Forall_insert_2; [|done]. destruct (st !! id) as [row|] eqn:E; [by apply (Hst id row)|].
  exists o. split; [by apply decode_text|done].
Qed.

Lemma op_store_ok st op : store_ok st -> verdict_op_ok op -> store_ok (apply_verdict_op st op).
Proof.
  intros Hst Hop. destruct op as [id b|id b o|safe]; simpl.
  - unfold get_verdict. destruct (to_i64 b); [|done]. destruct (st !! id) as [row|] eqn:E; [|done].
    apply map_Forall_insert_2; [|done]. by apply (Hst id row).
  - destruct (decide (o = Unknown)) as [->|Hu]; [done|]. rewrite record_verdict_write by done.
    by apply write_store_ok.
  - unfold prune_verdicts. destruct (to_i64 safe); [|done]. intros k row [Hrow _]%map_lookup_filter_Some.
    by apply (Hst k).
Qed.

Lemma ops_store_ok ops : Forall verdict_op_ok ops -> store_ok (apply_verdict_ops ∅ ops).
Proof.
  assert (forall st, store_ok st -> Forall verdict_op_ok ops -> store_ok (apply_verdict_ops st ops)) as Hgen;
    [|apply Hgen; apply map_Forall_empty].
  induction ops as [|op ops IH]; intros st Hst Hops; [done|]. apply Forall_cons in Hops as [Hop Hops].
  apply IH; [|done]. by apply op_store_ok.
Qed.

(** What an operation on [id] for a proposal in [block] answered, when it did. *)
Definition answered (st : VerdictStore) (op : VerdictOp) : option (Z * Z * CheckOutcome) :=
  match op with
  | GetVerdict id block =>
      match (get_verdict st id block).2 with Ok (Some o) => Some (id, block, o) | _ => None end
  | RecordVerdict id block outcome =>
      match (record_verdict st id block outcome).2 with
      | Ok o => if decide (o = Unknown) then None else Some (id, block, o)
      | Err _ => None
      end
  | PruneVerdicts _ => None
  end.

Lemma answered_holds st op id block o :
  store_ok st -> verdict_op_ok op -> answered st op = Some (id, block, o) ->
  holds_verdict (apply_verdict_op st op) id block o /\ o <> Unknown.
Proof.
  intros Hst Hop Ha. destruct op as [id' b|id' b o'|safe]; simpl in *; [| |done].
  - unfold get_verdict in *. destruct (to_i64 b) as [b'|] eqn:Eb; [|done].
    apply to_i64_Some in Eb as [-> _]. destruct (st !! id') as [row|] eqn:E; [|done]. simpl in Ha.
    destruct (Hst id' row E) as (o1 & Hd & Hu). rewrite Hd in Ha. simplify_eq/=. split; [|done].
    eexists. rewrite lookup_insert_eq. split_and!; [done|simpl; lia|done].
  - destruct (decide (o' = Unknown)) as [->|Ho]; [done|]. rewrite record_verdict_write in * by done.
    unfold write_verdict in *. destruct (to_i64 b) as [b'|] eqn:Eb; [|done].
    apply to_i64_Some in Eb as [-> _]. simpl in Ha.
    destruct (decode_verdict _) as [o1|e] eqn:Hd; [|done]. case_decide; [done|]. simplify_eq. split; [|done].
    simpl. eexists. rewrite lookup_insert_eq. split_and!; [done|destruct (st !! id); simpl; lia|done].
Qed.

(** C30: a verdict, once given, is the only one. Over any interleaving of queries,
    once a query of a request was answered with a verdict for a proposal seen in a
    block, then as long as collections stay at or below that block, every later
    check of the request gives that verdict, whatever the engine would say by then,
    and every later record of a verdict, as by a check that was in flight, gives it
    too; rule citations survive being stored as text. *)
Theorem verdicts_stable {T : Type} {EN : Engine T} ops1 op ops2 id block o :
  Forall verdict_op_ok (ops1 ++ [op]) ->
  answered (apply_verdict_ops ∅ ops1) op = Some (id, block, o) ->
  Forall (retains id block) ops2 ->
  let st := apply_verdict_ops ∅ (ops1 ++ op :: ops2) in
  o <> Unknown /\
  (forall tick ms (e : EngineCheck (T := T)), ec_request_id e = id -> ec_block e <= i64_max ->
    (engine_check tick ms st e).2 = o) /\
  (forall b o', b <= i64_max -> o' <> Unknown -> (record_verdict st id b o').2 = Ok o).
Proof.
  intros Hops Ha Hr st. apply Forall_app in Hops as [Hops1 [Hop _]%Forall_cons].
  destruct (answered_holds _ _ _ _ _ (ops_store_ok ops1 Hops1) Hop Ha) as [Hh Hu].
  assert (holds_verdict st id block o) as Hst.
  { unfold st, apply_verdict_ops. rewrite foldl_app. by apply (ops_hold _ _ _ _ ops2 Hh). }
  split_and!; [done| |].
  - intros tick ms e <- Hb. destruct Hst as (row & Hrow & _ & Hd). unfold engine_check, get_verdict, to_i64.
    by rewrite decide_True, Hrow, Hd by done.
  - intros b o' Hb Ho. rewrite record_verdict_write by done. destruct Hst as (row & Hrow & _ & Hd).
    unfold write_verdict, to_i64. by rewrite decide_True, Hrow by done.
Qed.
