(* ===== verification/Sentinel.v ===== *)
(** The sentinel's state machine, [crates/sentinel/src/service.rs], over the
    state of [state.rs], the events of [bindings.rs], the actions of [action.rs]
    and the hashes of [hashing.rs]. One definition per handler, its branches in the
    source's order; metrics and logging are dropped. *)

From Stdlib Require Import String Ascii.
From S2P Require Import Prelude Keccak Messages TxTypes Driver Verdicts.

(** ** Bindings *)

Inductive Operation := CALL | DELEGATECALL.

Record SafeTransaction := MkSafeTransaction {
  st_chainId : Z; st_safe : Z; st_to : Z; st_value : Z; st_data : bytes; st_operation : Operation;
  st_safeTxGas : Z; st_baseGas : Z; st_gasPrice : Z; st_gasToken : Z; st_refundReceiver : Z; st_nonce : Z
}.

Record TransactionProposed := MkTransactionProposed {
  tp_safeTxHash : Z; tp_safeId : Z; tp_oracle : Z; tp_epoch : Z; tp_oracleData : bytes;
  tp_transaction : SafeTransaction
}.

Record NewRequest := MkNewRequest {
  nr_requestId : Z; nr_sponsor : Z; nr_fee : Z; nr_bondTarget : Z; nr_daoFeeShare : Z; nr_slashAmount : Z;
  nr_commitDeadline : Z; nr_revealDeadline : Z
}.

(** The states of [SentinelOracleRequest], as [DisputeResolved] reports them. *)
Inductive OracleRequestState := NONE | PENDING | FROZEN | RESOLVED_APPROVED | RESOLVED_DENIED | TIMED_OUT.

Inductive SentinelEvents :=
| TransactionProposedEvent (event : TransactionProposed)
| NewRequestEvent (event : NewRequest)
| Committed (requestId sentinel bondAmount : Z)
| Revealed (requestId sentinel : Z) (approved : bool) (bondAmount : Z) (reason : string)
| DisputeTriggered (requestId deadline : Z)
| DisputeResolved (requestId : Z) (outcome : OracleRequestState) (slashed : Z) (context : string)
| RequestTimedOut (requestId : Z)
| OracleResult (requestId sponsor : Z) (data : bytes) (approved : bool)
| ArbitrationTimedOut (requestId : Z)
| DisputeOutOfScope (requestId : Z) (context : string)
| Claimed (requestId sentinel bondReturn feeReward : Z).

(** The calls whose ABI encoding the [sol!] macro generates. *)
Inductive SentinelCall :=
| ApproveCall (spender amount : Z)
| CommitCall (requestId commitHash : Z)
| RevealCall (requestId : Z) (approve : bool) (salt : Z) (reason : string)
| FinalizeCall (requestId : Z)
| ClaimCall (requestId : Z)
| TimeoutArbitrationCall (requestId : Z).

(** Generated and third-party code: the calls' encoding, the EIP-712 signing hash
    of a [TransactionProposal] in its domain, HKDF-SHA256 from a key, a salt and
    the information it is bound to, and the bytes of the account's private key. *)
Class SentinelCrypto := {
  encode_call : SentinelCall -> bytes;
  proposal_signing_hash (chain_id verifying_contract epoch oracle : Z) (oracleData : bytes) (safeTxHash : Z) : Z;
  hkdf_sha256 (ikm salt info : bytes) : Z;
  private_key : bytes
}.

(** ** Hashing *)

Section Hashing.
Context {KEC : Keccak} {SG : Signer} {SC : SentinelCrypto}.

Definition REVEAL_SALT_DOMAIN : bytes := string_bytes "safenet-sentinel-reveal-salt".

Definition commit_data (sentinel request_id : Z) (approve : bool) (salt : Z) (reason : string) : bytes :=
  (if approve then 1 else 0) :: be_bytes 32 salt ++ be_bytes 20 sentinel ++ be_bytes 32 request_id ++
    string_bytes reason.
Definition commit_hash (sentinel request_id : Z) (approve : bool) (salt : Z) (reason : string) : Z :=
  keccak256 (commit_data sentinel request_id approve salt reason).

(** [kdf::derive_key], whose information is the concatenation of its parts; it
    panics on an empty domain. *)
Definition kdf_derive_key (ikm domain : bytes) (message : list bytes) : option Z :=
  if decide (domain = []) then None else Some (hkdf_sha256 ikm domain (mjoin message)).
(** [Signer::derive_key] for a non-empty domain. *)
Definition derive_key (domain message : bytes) : Z := hkdf_sha256 private_key domain message.

(** The domain of the salts is not empty. *)
Lemma derive_key_kdf message :
  kdf_derive_key private_key REVEAL_SALT_DOMAIN [message] = Some (derive_key REVEAL_SALT_DOMAIN message).
Proof. unfold kdf_derive_key, derive_key. rewrite decide_False by done. simpl. by rewrite app_nil_r. Qed.

Definition reveal_salt (request_id : Z) : Z := derive_key REVEAL_SALT_DOMAIN (be_bytes 32 request_id).

Definition oracle_tx_proposal_hash (chain_id consensus epoch oracle : Z) (oracle_data : bytes) (stx_hash : Z) : Z :=
  proposal_signing_hash chain_id consensus epoch oracle oracle_data stx_hash.

End Hashing.

(** ** Actions *)

Inductive SentinelActionKind :=
| ApproveToken (bond : Z)
| Commit (id hash : Z)
| Reveal (id : Z) (approve : bool) (salt : Z) (reason : string)
| Finalize (id : Z)
| Claim (id : Z)
| TimeoutArbitration (id : Z).

Record SentinelAction := MkSentinelAction { kind : SentinelActionKind; action_expires_at : option Z }.

Record SentinelEncoder := MkSentinelEncoder { encoder_oracle : Z; encoder_fee_token : Z }.

Definition encode_action_kind {SC : SentinelCrypto} (self : SentinelEncoder) (kind : SentinelActionKind) : Transaction :=
  match kind with
  | ApproveToken bond =>
      MkTransaction (encoder_fee_token self) 0 (encode_call (ApproveCall (encoder_oracle self) bond)) 55000
  | Commit id hash => MkTransaction (encoder_oracle self) 0 (encode_call (CommitCall id hash)) 250000
  | Reveal id approve salt reason =>
      MkTransaction (encoder_oracle self) 0 (encode_call (RevealCall id approve salt reason)) 250000
  | Finalize id => MkTransaction (encoder_oracle self) 0 (encode_call (FinalizeCall id)) 250000
  | Claim id => MkTransaction (encoder_oracle self) 0 (encode_call (ClaimCall id)) 250000
  | TimeoutArbitration id =>
      MkTransaction (encoder_oracle self) 0 (encode_call (TimeoutArbitrationCall id)) 250000
  end.

Definition encode_sentinel_action {SC : SentinelCrypto} (self : SentinelEncoder) (action : SentinelAction) : Transaction * option Z :=
  (encode_action_kind self (kind action), action_expires_at action).
#[export] Instance sentinel_encoder {SC : SentinelCrypto} (self : SentinelEncoder) : ActionEncoder SentinelAction :=
  {| encode := encode_sentinel_action self |}.

(** ** State *)

(** [state::Request]. *)
Record Request := MkSentinelRequest {
  rq_bond_target : Z; rq_slash_amount : Z; rq_commit_deadline : Z; rq_reveal_deadline : Z
}.

(** [SentinelRequestState]. *)
Inductive RequestState :=
| WaitingForEngineCheck (deadline : Z) (request : option Request)
| WaitingForRequest (approve : bool) (reason : string) (deadline : Z)
| CollectingCommitments (approve : bool) (reason : string) (slash_amount commit_deadline reveal_deadline
    committed_count : Z) (self_committed : bool)
| CollectingVotes (approve : bool) (slash_amount reveal_deadline committed_count revealed_count approve_count
    deny_count : Z) (self_revealed : bool)
| WaitingForOutcome (approve : bool) (slash_amount : Z)
| WaitingForDisputeResolution (approve : bool) (slash_amount arbitration_deadline : Z).

(** [approve_and_slash_amount]: none while no bond of ours can be posted. *)
Definition approve_and_slash_amount (s : RequestState) : option (bool * Z) :=
  match s with
  | WaitingForEngineCheck _ _ | WaitingForRequest _ _ _ => None
  | CollectingCommitments approve _ slash_amount _ _ _ self_committed =>
      if self_committed then Some (approve, slash_amount) else None
  | CollectingVotes approve slash_amount _ _ _ _ _ _
  | WaitingForOutcome approve slash_amount
  | WaitingForDisputeResolution approve slash_amount _ => Some (approve, slash_amount)
  end.

Abbreviation State := (gmap Z RequestState).

(** The sentinel's commands. *)
Abbreviation SentinelCommand := (Command.t SentinelAction (EngineCheck (T := SafeTransaction))).
Definition act (kind : SentinelActionKind) (expires_at : option Z) : SentinelCommand :=
  Command.Action (MkSentinelAction kind expires_at).

(** [SentinelTransition]'s configuration; its account is the signer's. *)
Record SentinelTransition := MkSentinelTransition {
  t_oracle : Z; t_consensus : Z; t_chain_id : Z; t_voting_window : Z
}.
(** The order a [HashMap] is iterated in, which nothing determines. *)
Class MapOrder (V : Type) := { iterate : gmap Z V -> list (Z * V) }.
Class MapOrderLaws (V : Type) `{MapOrder V} : Prop := { iterate_perm m : iterate m ≡ₚ map_to_list m }.

(** ** Handlers *)

Section Transition.
Context {KEC : Keccak} {SG : Signer} {SC : SentinelCrypto} {MO : MapOrder RequestState}.
Context (self : SentinelTransition).

Definition handle_oracle_transaction_proposed (state : State) (block block_timestamp : Z)
    (event : TransactionProposed) : State * list SentinelCommand :=
  if decide (tp_oracle event ≠ t_oracle self) then (state, [])
  else
    let request_id := oracle_tx_proposal_hash (t_chain_id self) (t_consensus self) (tp_epoch event)
      (tp_oracle event) (tp_oracleData event) (tp_safeTxHash event) in
    match state !! request_id with
    | Some _ => (state, [])
    | None =>
        let deadline := sat_add block (t_voting_window self) in
        (<[request_id := WaitingForEngineCheck deadline None]> state,
         [Command.Effect (MkEngineCheck request_id (tp_transaction event) block_timestamp block)])
    end.

Definition commit_vote (state : State) (request_id : Z) (approve : bool) (reason : string) (request : Request)
    : State * list SentinelCommand :=
  let salt := reveal_salt request_id in
  let hash := commit_hash signer_address request_id approve salt reason in
  (<[request_id := CollectingCommitments approve reason (rq_slash_amount request)
       (rq_commit_deadline request) (rq_reveal_deadline request) 0 false]> state,
   [act (ApproveToken (rq_bond_target request)) (Some (rq_commit_deadline request));
    act (Commit request_id hash) (Some (rq_commit_deadline request))]).

(** The vote a verdict leads to, with its reason. *)
Definition vote_of (outcome : CheckOutcome) : option (bool * string) :=
  match outcome with
  | Approved => Some (true, EmptyString)
  | Denied rule => Some (false, display_rule rule)
  | Unknown => None
  end.

Definition handle_engine_check_result (state : State) (request_id : Z) (outcome : CheckOutcome)
    : State * list SentinelCommand :=
  match state !! request_id with
  | Some (WaitingForEngineCheck deadline request) =>
      let state := delete request_id state in
      match vote_of outcome with
      | None => (state, [])
      | Some (approve, reason) =>
          match request with
          | Some request => commit_vote state request_id approve reason request
          | None => (<[request_id := WaitingForRequest approve reason deadline]> state, [])
          end
      end
  | Some _ | None => (state, [])
  end.

Definition handle_new_request (state : State) (event : NewRequest) : State * list SentinelCommand :=
  let request_id := nr_requestId event in
  let request := MkSentinelRequest (nr_bondTarget event) (nr_slashAmount event) (nr_commitDeadline event)
    (nr_revealDeadline event) in
  match state !! request_id with
  | Some (WaitingForRequest approve reason _) =>
      commit_vote (delete request_id state) request_id approve reason request
  | Some (WaitingForEngineCheck deadline None) =>
      (<[request_id := WaitingForEngineCheck deadline (Some request)]> state, [])
  | Some _ | None => (state, [])
  end.

Definition handle_committed (state : State) (request_id sentinel : Z) : State * list SentinelCommand :=
  match state !! request_id with
  | Some (CollectingCommitments approve reason slash_amount commit_deadline reveal_deadline count committed) =>
      (<[request_id := CollectingCommitments approve reason slash_amount commit_deadline reveal_deadline
           (wrap_u64 (count + 1)) (committed || bool_decide (sentinel = signer_address))]> state, [])
  | Some _ | None => (state, [])
  end.

(** [finalize]: the state after it, none when the request is dropped. *)
Definition finalize (state : RequestState) (request_id : Z) : option RequestState * list SentinelCommand :=
  match state with
  | CollectingVotes approve slash_amount _ _ revealed_count _ _ self_revealed =>
      if negb self_revealed && negb (bool_decide (revealed_count = 0)) then (None, [])
      else (Some (WaitingForOutcome approve slash_amount), [act (Finalize request_id) None])
  | _ => (None, [])
  end.

Definition handle_revealed (state : State) (request_id sentinel : Z) (approved : bool)
    : State * list SentinelCommand :=
  match state !! request_id with
  | Some (CollectingVotes approve slash_amount reveal_deadline committed revealed approves denies self_revealed) =>
      let revealed := wrap_u64 (revealed + 1) in
      let approves := if approved then wrap_u64 (approves + 1) else approves in
      let denies := if approved then denies else wrap_u64 (denies + 1) in
      let entry := CollectingVotes approve slash_amount reveal_deadline committed revealed approves denies
        (self_revealed || bool_decide (sentinel = signer_address)) in
      let state := <[request_id := entry]> state in
      if decide (revealed < committed) then (state, [])
      else
        let '(update, actions) := finalize entry request_id in
        (match update with None => delete request_id state | Some entry => <[request_id := entry]> state end,
         actions)
  | Some _ | None => (state, [])
  end.

(** A request at a new block: the state it goes on in, none when it is dropped. *)
Definition advance_request (block id : Z) (entry : RequestState) : option RequestState * list SentinelCommand :=
  match entry with
  | WaitingForEngineCheck deadline request =>
      let deadline := from_option rq_commit_deadline deadline request in
      (if decide (block <= deadline) then Some entry else None, [])
  | WaitingForRequest _ _ deadline => (if decide (block <= deadline) then Some entry else None, [])
  | CollectingCommitments approve reason slash_amount commit_deadline reveal_deadline committed self_committed =>
      if decide (block <= commit_deadline) then (Some entry, [])
      else if negb self_committed then (None, [])
      else (Some (CollectingVotes approve slash_amount reveal_deadline committed 0 0 0 false),
            [act (Reveal id approve (reveal_salt id) reason) (Some reveal_deadline)])
  | CollectingVotes _ _ reveal_deadline _ _ _ _ _ =>
      if decide (block <= reveal_deadline) then (Some entry, []) else finalize entry id
  | WaitingForOutcome _ _ => (Some entry, [])
  | WaitingForDisputeResolution _ _ arbitration_deadline =>
      if decide (block <= arbitration_deadline) then (Some entry, [])
      else (None, [act (TimeoutArbitration id) None; act (Claim id) None])
  end.

Definition handle_block_advance (state : State) (block : Z) : State * list SentinelCommand :=
  (map_imap (fun id entry => (advance_request block id entry).1) state,
   mjoin ((fun e => (advance_request block e.1 e.2).2) <$> iterate state)).

Definition handle_resolved (state : State) (request_id : Z) : State * list SentinelCommand :=
  match state !! request_id with
  | Some (WaitingForDisputeResolution _ _ _) => (delete request_id state, [act (Claim request_id) None])
  | Some _ | None => (state, [])
  end.

Definition handle_arbitration_timeout (state : State) (request_id : Z) : State * list SentinelCommand :=
  match state !! request_id with
  | Some _ => (delete request_id state, [act (Claim request_id) None])
  | None => (state, [])
  end.

Definition handle_claimed (state : State) : State * list SentinelCommand := (state, []).

Definition handle_request_timed_out (state : State) (request_id : Z) : State * list SentinelCommand :=
  match state !! request_id with
  | Some entry =>
      (delete request_id state,
       match approve_and_slash_amount entry with Some _ => [act (Claim request_id) None] | None => [] end)
  | None => (state, [])
  end.

Definition handle_dispute_triggered (state : State) (request_id deadline : Z) : State * list SentinelCommand :=
  match state !! request_id with
  | Some entry =>
      (match approve_and_slash_amount entry with
       | Some (approve, slash_amount) =>
           <[request_id := WaitingForDisputeResolution approve slash_amount deadline]> state
       | None => delete request_id state
       end, [])
  | None => (state, [])
  end.

Definition handle_oracle_result (state : State) (request_id : Z) : State * list SentinelCommand :=
  match state !! request_id with
  | Some entry =>
      (delete request_id state,
       match approve_and_slash_amount entry with Some _ => [act (Claim request_id) None] | None => [] end)
  | None => (state, [])
  end.

(** [apply_transition]. *)
#[export] Instance sentinel_transition :
    StateTransition State SentinelEvents SentinelAction (EngineCheck (T := SafeTransaction)) EngineCheckResult :=
  fun state message =>
    match message with
    | Message.NewBlock block => handle_block_advance state block
    | Message.Event log =>
        match log_data log with
        | TransactionProposedEvent event =>
            handle_oracle_transaction_proposed state (block_number (log_block log))
              (block_timestamp (log_block log)) event
        | NewRequestEvent event => handle_new_request state event
        | Committed id sentinel _ => handle_committed state id sentinel
        | Revealed id sentinel approved _ _ => handle_revealed state id sentinel approved
        | RequestTimedOut id => handle_request_timed_out state id
        | OracleResult id _ _ _ => handle_oracle_result state id
        | DisputeTriggered id deadline => handle_dispute_triggered state id deadline
        | DisputeResolved id _ _ _ => handle_resolved state id
        | ArbitrationTimedOut id => handle_arbitration_timeout state id
        | DisputeOutOfScope id _ => handle_arbitration_timeout state id
        | Claimed _ _ _ _ => handle_claimed state
        end
    | Message.Resume result => handle_engine_check_result state (er_request_id result) (er_outcome result)
    end.

End Transition.
