(* ===== verification/Votes.v ===== *)
(** What the sentinel guarantees of its votes and bonds. Its transition is, request
    by request, that of a machine over one request ([local_step]): requests do not
    interfere, and the order its map is iterated in changes nothing but the order
    of their commands. *)

From Stdlib Require Import String Ascii.
From S2P Require Import Prelude Keccak Messages TxTypes Driver Verdicts Sentinel.

(** The request a command is about. *)
Definition command_request (c : SentinelCommand) : option Z :=
  match c with
  | Command.Action a =>
      match kind a with
      | ApproveToken _ => None
      | Commit id _ | Reveal id _ _ _ | Finalize id | Claim id | TimeoutArbitration id => Some id
      end
  | Command.Effect e => Some (ec_request_id e)
  end.
Definition about (id : Z) (cs : list SentinelCommand) : list SentinelCommand :=
  filter (fun c => command_request c = Some id) cs.

Section Votes.
Context {KEC : Keccak} {SG : Signer} {SC : SentinelCrypto} {MO : MapOrder RequestState}.
Context {MOL : MapOrderLaws RequestState}.
Context (self : SentinelTransition).

Notation Step := (option RequestState * list SentinelCommand)%type.

(** Voting starts: the commitment of a request. *)
Definition local_commit (id : Z) (approve : bool) (reason : string) (request : Request) : Step :=
  (Some (CollectingCommitments approve reason (rq_slash_amount request) (rq_commit_deadline request)
     (rq_reveal_deadline request) 0 false),
   [act (Commit id (commit_hash signer_address id approve (reveal_salt id) reason))
      (Some (rq_commit_deadline request))]).

Definition local_proposed (id block timestamp : Z) (event : TransactionProposed) (entry : option RequestState)
    : Step :=
  match entry with
  | Some e => (Some e, [])
  | None =>
      (Some (WaitingForEngineCheck (sat_add block (t_voting_window self)) None),
       [Command.Effect (MkEngineCheck id (tp_transaction event) timestamp block)])
  end.

Definition local_result (id : Z) (outcome : CheckOutcome) (entry : option RequestState) : Step :=
  match entry with
  | Some (WaitingForEngineCheck deadline request) =>
      match vote_of outcome, request with
      | None, _ => (None, [])
      | Some (approve, reason), Some request => local_commit id approve reason request
      | Some (approve, reason), None => (Some (WaitingForRequest approve reason deadline), [])
      end
  | e => (e, [])
  end.

Definition local_new_request (id : Z) (request : Request) (entry : option RequestState) : Step :=
  match entry with
  | Some (WaitingForRequest approve reason _) => local_commit id approve reason request
  | Some (WaitingForEngineCheck deadline None) => (Some (WaitingForEngineCheck deadline (Some request)), [])
  | e => (e, [])
  end.

Definition local_revealed (id sentinel : Z) (approved : bool) (entry : option RequestState) : Step :=
  match entry with
  | Some (CollectingVotes approve slash reveal_deadline committed revealed approves denies self_revealed) =>
      let revealed := wrap_u64 (revealed + 1) in
      let entry := CollectingVotes approve slash reveal_deadline committed revealed
        (if approved then wrap_u64 (approves + 1) else approves)
        (if approved then denies else wrap_u64 (denies + 1))
        (self_revealed || bool_decide (sentinel = signer_address)) in
      if decide (revealed < committed) then (Some entry, []) else finalize entry id
  | e => (e, [])
  end.

Definition local_committed (sentinel : Z) (entry : option RequestState) : Step :=
  match entry with
  | Some (CollectingCommitments approve reason slash commit_deadline reveal_deadline count committed) =>
      (Some (CollectingCommitments approve reason slash commit_deadline reveal_deadline
         (wrap_u64 (count + 1)) (committed || bool_decide (sentinel = signer_address))), [])
  | e => (e, [])
  end.

(** A bond of ours is claimed when the request ends. *)
Definition local_ended (id : Z) (entry : option RequestState) : Step :=
  (None, match entry ≫= approve_and_slash_amount with Some _ => [act (Claim id) None] | None => [] end).

Definition local_disputed (deadline : Z) (entry : option RequestState) : Step :=
  ('(approve, slash_amount) ← entry ≫= approve_and_slash_amount;
   Some (WaitingForDisputeResolution approve slash_amount deadline), []).

Definition local_resolved (id : Z) (entry : option RequestState) : Step :=
  match entry with
  | Some (WaitingForDisputeResolution _ _ _) => (None, [act (Claim id) None])
  | e => (e, [])
  end.

Definition local_arbitration_timeout (id : Z) (entry : option RequestState) : Step :=
  (None, match entry with Some _ => [act (Claim id) None] | None => [] end).

(** The request of an event, and what it does to it. *)
Definition event_request (event : SentinelEvents) : option Z :=
  match event with
  | TransactionProposedEvent e =>
      if decide (tp_oracle e ≠ t_oracle self) then None
      else Some (oracle_tx_proposal_hash (t_chain_id self) (t_consensus self) (tp_epoch e) (tp_oracle e)
                   (tp_oracleData e) (tp_safeTxHash e))
  | NewRequestEvent e => Some (nr_requestId e)
  | Committed id _ _ | Revealed id _ _ _ _ | DisputeTriggered id _ | DisputeResolved id _ _ _
  | RequestTimedOut id | OracleResult id _ _ _ | ArbitrationTimedOut id | DisputeOutOfScope id _ => Some id
  | Claimed _ _ _ _ => None
  end.

Definition local_event (id : Z) (log : EventLog SentinelEvents) (entry : option RequestState) : Step :=
  match log_data log with
  | TransactionProposedEvent e =>
      local_proposed id (block_number (log_block log)) (block_timestamp (log_block log)) e entry
  | NewRequestEvent e =>
      local_new_request id (MkSentinelRequest (nr_bondTarget e) (nr_slashAmount e) (nr_commitDeadline e)
        (nr_revealDeadline e)) entry
  | Committed _ sentinel _ => local_committed sentinel entry
  | Revealed _ sentinel approved _ _ => local_revealed id sentinel approved entry
  | DisputeTriggered _ deadline => local_disputed deadline entry
  | DisputeResolved _ _ _ _ => local_resolved id entry
  | RequestTimedOut _ | OracleResult _ _ _ _ => local_ended id entry
  | ArbitrationTimedOut _ | DisputeOutOfScope _ _ => local_arbitration_timeout id entry
  | Claimed _ _ _ _ => (entry, [])
  end.

(** One request's part of a transition. *)
Definition local_step (id : Z) (m : Message.t SentinelEvents EngineCheckResult) (entry : option RequestState)
    : Step :=
  match m with
  | Message.NewBlock block =>
      match entry with Some e => advance_request block id e | None => (None, []) end
  | Message.Event log =>
      if decide (event_request (log_data log) = Some id) then local_event id log entry else (entry, [])
  | Message.Resume r =>
      if decide (er_request_id r = id) then local_result id (er_outcome r) entry else (entry, [])
  end.

(** ** The transition, request by request *)

Lemma about_app id cs cs' : about id (cs ++ cs') = about id cs ++ about id cs'.
Proof. apply filter_app. Qed.

Lemma about_own id cs : Forall (fun c => command_request c = Some id) cs -> about id cs = cs.
Proof.
  induction 1 as [|c cs Hc Hcs IH]; [done|]. unfold about. rewrite filter_cons_True by done. by f_equal.
Qed.

Lemma about_other id id' cs : id <> id' -> Forall (fun c => command_request c = Some id') cs -> about id cs = [].
Proof.
  intros Hne. induction 1 as [|c cs Hc Hcs IH]; [done|]. unfold about. rewrite filter_cons_False; [done|congruence].
Qed.

(** A step whose commands are of its own request. *)
Definition own_commands (id : Z) (r : Step) : Prop := Forall (fun c => command_request c = Some id) r.2.

Lemma finalize_own entry id : own_commands id (finalize entry id).
Proof. unfold own_commands, finalize. destruct entry; simpl; try constructor. by destruct (_ && _); repeat constructor. Qed.

Lemma advance_own block id entry : own_commands id (advance_request block id entry).
Proof.
  destruct entry; cbn [advance_request]; try case_decide; try (by constructor).
  - destruct (negb _); by repeat constructor.
  - apply finalize_own.
  - by repeat constructor.
Qed.

(** The commands of a block about a request are those of the request. *)
Lemma about_blocks id block (l : list (Z * RequestState)) : NoDup l.*1 ->
  about id (mjoin ((fun e => (advance_request block e.1 e.2).2) <$> l)) =
    match (list_to_map l : State) !! id with Some e => (advance_request block id e).2 | None => [] end.
Proof.
  induction l as [|[id' e] l IH]; intros Hnd; [done|].
  rewrite fmap_cons in Hnd. apply NoDup_cons in Hnd as [Hni Hnd].
  set (f := fun e : Z * RequestState => (advance_request block e.1 e.2).2) in *.
  change (mjoin (f <$> (id', e) :: l)) with (f (id', e) ++ mjoin (f <$> l)).
  rewrite about_app, (IH Hnd). cbn [list_to_map foldr fst snd].
  destruct (decide (id' = id)) as [->|Hne].
  - rewrite lookup_insert_eq, not_elem_of_list_to_map_1 by done. rewrite app_nil_r.
    apply (about_own id), advance_own.
  - rewrite lookup_insert_ne by done.
    by rewrite (about_other id id') by (done || apply advance_own).
Qed.

Lemma block_local id (state : State) block :
  (handle_block_advance state block).1 !! id =
    (state !! id) ≫= (fun e => (advance_request block id e).1) /\
  about id (handle_block_advance state block).2 =
    match state !! id with Some e => (advance_request block id e).2 | None => [] end.
Proof using MOL.
  split; [apply map_lookup_imap|]. unfold handle_block_advance. cbn [snd].
  assert (iterate state ≡ₚ map_to_list state) as Hp by apply iterate_perm.
  assert (NoDup (iterate state).*1) as Hnd by (rewrite Hp; apply NoDup_fst_map_to_list).
  rewrite about_blocks by done.
  by rewrite (list_to_map_proper _ _ Hnd Hp), list_to_map_to_list.
Qed.

(** A handler that works on one entry. *)
Definition works_on (id : Z) (state : State) (r : State * list SentinelCommand) (l : Step) : Prop :=
  forall id', r.1 !! id' = (if decide (id = id') then l.1 else state !! id') /\
    about id' r.2 = (if decide (id = id') then l.2 else []).

Lemma works_intro id state r l :
  r.1 = partial_alter (fun _ => l.1) id state -> (forall id', about id' r.2 = if decide (id = id') then l.2 else []) ->
  works_on id state r l.
Proof.
  intros Hs Hc id'. split; [|apply Hc]. rewrite Hs. destruct (decide (id = id')) as [<-|Hne].
  - apply lookup_partial_alter_eq.
  - by apply lookup_partial_alter_ne.
Qed.

Lemma about_if id cs : Forall (fun c => command_request c = Some id) cs ->
  forall id', about id' cs = if decide (id = id') then cs else [].
Proof. intros Hc id'. case_decide as Hd; [subst; by apply about_own|]. by apply (about_other _ id). Qed.

(** Deletions and insertions are assignments to the entry; an unchanged state
    assigns what is there. *)
Lemma alter_insert (state : State) id e : <[id := e]> state = partial_alter (fun _ => Some e) id state.
Proof. done. Qed.
Lemma alter_delete (state : State) id : delete id state = partial_alter (fun _ => None) id state.
Proof. done. Qed.
Lemma alter_same (state : State) id o : state !! id = o -> state = partial_alter (fun _ => o) id state.
Proof.
  intros Ho. apply map_eq. intros id'. destruct (decide (id = id')) as [<-|Hne].
  - by rewrite lookup_partial_alter_eq.
  - by rewrite lookup_partial_alter_ne.
Qed.
Lemma alter_twice (state : State) id o o' :
  partial_alter (fun _ => o') id (partial_alter (fun _ => o) id state) = partial_alter (fun _ => o') id state.
Proof.
  apply map_eq. intros id'. destruct (decide (id = id')) as [<-|Hne].
  - by rewrite !lookup_partial_alter_eq.
  - by rewrite !lookup_partial_alter_ne.
Qed.

(** Each handler works on the entry of its request as the local step does. *)
Ltac by_entry :=
  apply works_intro;
  [ cbn [fst]; rewrite ?alter_insert, ?alter_delete, ?alter_twice; try done; by apply alter_same
  | cbn [snd]; apply about_if; by repeat constructor ].

Lemma about_approve id bond expires cs : about id (act (ApproveToken bond) expires :: cs) = about id cs.
Proof. done. Qed.

Lemma commit_vote_works id state approve reason request :
  works_on id state (commit_vote state id approve reason request) (local_commit id approve reason request).
Proof.
  apply works_intro; [done|]. intros id'. unfold commit_vote, local_commit. cbn [snd].
  rewrite about_approve. apply about_if. by repeat constructor.
Qed.

Lemma commit_vote_again id state o approve reason request :
  state !! id = o ->
  works_on id state (commit_vote (delete id state) id approve reason request) (local_commit id approve reason request).
Proof.
  intros _ id'. destruct (commit_vote_works id (delete id state) approve reason request id') as [Hs Hc].
  split; [|done]. rewrite Hs. case_decide; [done|]. by rewrite lookup_delete_ne.
Qed.

Lemma proposed_works state block timestamp event id :
  tp_oracle event = t_oracle self ->
  id = oracle_tx_proposal_hash (t_chain_id self) (t_consensus self) (tp_epoch event) (tp_oracle event)
    (tp_oracleData event) (tp_safeTxHash event) ->
  works_on id state (handle_oracle_transaction_proposed self state block timestamp event)
    (local_proposed id block timestamp event (state !! id)).
Proof.
  intros Ho ->. unfold handle_oracle_transaction_proposed, local_proposed. rewrite decide_False by tauto.
  destruct (state !! _) eqn:E; by_entry.
Qed.

Lemma result_works state id outcome :
  works_on id state (handle_engine_check_result state id outcome) (local_result id outcome (state !! id)).
Proof.
  unfold handle_engine_check_result, local_result.
  destruct (state !! id) as [[]|] eqn:E; try by_entry.
  destruct (vote_of outcome) as [[approve reason]|]; [|by_entry].
  destruct request; [by eapply commit_vote_again|by_entry].
Qed.

Lemma new_request_works state event :
  works_on (nr_requestId event) state (handle_new_request state event)
    (local_new_request (nr_requestId event) (MkSentinelRequest (nr_bondTarget event) (nr_slashAmount event)
       (nr_commitDeadline event) (nr_revealDeadline event)) (state !! nr_requestId event)).
Proof.
  unfold handle_new_request, local_new_request.
  destruct (state !! nr_requestId event) as [[? [?|]|?|?|?|?|?]|] eqn:E; try by_entry.
  by eapply commit_vote_again.
Qed.

Lemma committed_works state id sentinel :
  works_on id state (handle_committed state id sentinel) (local_committed sentinel (state !! id)).
Proof. unfold handle_committed, local_committed. destruct (state !! id) as [[]|] eqn:E; by_entry. Qed.

Lemma revealed_works state id sentinel approved :
  works_on id state (handle_revealed state id sentinel approved) (local_revealed id sentinel approved (state !! id)).
Proof.
  unfold handle_revealed, local_revealed. destruct (state !! id) as [[]|] eqn:E; try by_entry.
  case_decide; [by_entry|].
  match goal with |- context [finalize ?e id] => pose proof (finalize_own e id) as Hf; destruct (finalize e id) as [[e'|] cs] end;
    (apply works_intro; [cbn [fst]; by rewrite ?alter_insert, ?alter_delete, alter_twice|by apply about_if]).
Qed.

Lemma ended_works state id :
  works_on id state (handle_oracle_result state id) (local_ended id (state !! id)) /\
  works_on id state (handle_request_timed_out state id) (local_ended id (state !! id)).
Proof.
  unfold handle_oracle_result, handle_request_timed_out, local_ended.
  destruct (state !! id) as [e|] eqn:E; cbn [mbind option_bind]; [destruct (approve_and_slash_amount e)|];
    split; by_entry.
Qed.

Lemma disputed_works state id deadline :
  works_on id state (handle_dispute_triggered state id deadline) (local_disputed deadline (state !! id)).
Proof.
  unfold handle_dispute_triggered, local_disputed. destruct (state !! id) as [e|] eqn:E; cbn [mbind option_bind];
    [destruct (approve_and_slash_amount e) as [[]|]|]; by_entry.
Qed.

Lemma resolved_works state id :
  works_on id state (handle_resolved state id) (local_resolved id (state !! id)).
Proof. unfold handle_resolved, local_resolved. destruct (state !! id) as [[]|] eqn:E; by_entry. Qed.

Lemma arbitration_works state id :
  works_on id state (handle_arbitration_timeout state id) (local_arbitration_timeout id (state !! id)).
Proof.
  unfold handle_arbitration_timeout, local_arbitration_timeout. destruct (state !! id) as [e|] eqn:E; by_entry.
Qed.

(** A transition is, for every request, its local step. *)
Lemma transition_local id (state : State) m :
  let r := sentinel_transition self state m in
  r.1 !! id = (local_step id m (state !! id)).1 /\ about id r.2 = (local_step id m (state !! id)).2.
Proof using MOL.
  destruct m as [block|log|res]; cbn zeta; cbn [sentinel_transition local_step].
  - destruct (block_local id state block) as [Hs Hc]. rewrite Hs, Hc. by destruct (state !! id).
  - assert (forall i r, event_request (log_data log) = Some i -> works_on i state r (local_event i log (state !! i)) ->
      r.1 !! id = (if decide (event_request (log_data log) = Some id)
                   then local_event id log (state !! id) else (state !! id, [])).1 /\
      about id r.2 = (if decide (event_request (log_data log) = Some id)
                      then local_event id log (state !! id) else (state !! id, [])).2) as Hworks.
    { intros i r -> Hw. specialize (Hw id) as [Hs Hc]. rewrite Hs, Hc.
      destruct (decide (i = id)) as [->|Hne]; [by rewrite decide_True|].
      rewrite decide_False by congruence. done. }
    assert (event_request (log_data log) = None ->
      state !! id = (if decide (event_request (log_data log) = Some id)
                   then local_event id log (state !! id) else (state !! id, [])).1 /\
      [] = (if decide (event_request (log_data log) = Some id)
                      then local_event id log (state !! id) else (state !! id, [])).2) as Hidle by (by intros ->).
    unfold local_event in *. destruct (log_data log) as [e|e|i s ?|i s a ? ?|i d|i ? ? ?|i|i ? ? ?|i|i ?|? ? ? ?];
      cbn [event_request] in *.
    + case_decide as Ho.
      * unfold handle_oracle_transaction_proposed. rewrite decide_True by done. by apply Hidle.
      * eapply Hworks; [done|]. apply proposed_works; [tauto|done].
    + eapply Hworks; [done|]. apply new_request_works.
    + eapply Hworks; [done|]. apply committed_works.
    + eapply Hworks; [done|]. apply revealed_works.
    + eapply Hworks; [done|]. apply disputed_works.
    + eapply Hworks; [done|]. apply resolved_works.
    + eapply Hworks; [done|]. apply ended_works.
    + eapply Hworks; [done|]. apply ended_works.
    + eapply Hworks; [done|]. apply arbitration_works.
    + eapply Hworks; [done|]. apply arbitration_works.
    + by apply Hidle.
  - destruct (result_works state (er_request_id res) (er_outcome res) id) as [Hs Hc]. rewrite Hs, Hc.
    by destruct (decide (er_request_id res = id)) as [->|Hne].
Qed.

(** A request over a history. *)
Fixpoint local_run (id : Z) (entry : option RequestState) (ms : list (Message.t SentinelEvents EngineCheckResult))
    : option RequestState * list SentinelCommand :=
  match ms with
  | [] => (entry, [])
  | m :: ms =>
      let '(entry, cs) := local_step id m entry in
      let '(entry, cs') := local_run id entry ms in (entry, cs ++ cs')
  end.

Lemma run_local id (state : State) ms :
  run (ST := sentinel_transition self) state ms !! id = (local_run id (state !! id) ms).1 /\
  about id (emitted (ST := sentinel_transition self) state ms) = (local_run id (state !! id) ms).2.
Proof using MOL.
  revert state. induction ms as [|m ms IH]; intros state; [done|].
  destruct (transition_local id state m) as [Hs Hc]. cbn [local_run]. unfold run. cbn [foldl emitted].
  unfold apply_transition. rewrite about_app, Hc. destruct (local_step id m (state !! id)) as [e cs] eqn:El.
  cbn [fst snd] in *. rewrite <- Hs in *. destruct (IH (sentinel_transition self state m).1) as [IHs IHc].
  unfold run, apply_transition in IHs, IHc. rewrite IHs, IHc. by destruct (local_run _ _ _).
Qed.

(** ** Votes *)

(** While a request collects commitments, the last command about it is the
    commitment to the vote it will reveal. *)
Definition committed_to (id : Z) (cs : list SentinelCommand) (entry : option RequestState) : Prop :=
  match entry with
  | Some (CollectingCommitments approve reason _ deadline _ _ _) =>
      last cs = Some (act (Commit id (commit_hash signer_address id approve (reveal_salt id) reason)) (Some deadline))
  | _ => True
  end.

(** A revealed vote is the one committed to last. *)
Definition reveal_committed (id : Z) (cs : list SentinelCommand) (c : SentinelCommand) : Prop :=
  forall approve salt reason expires, c = act (Reveal id approve salt reason) expires ->
  salt = reveal_salt id /\
  exists deadline, last cs = Some (act (Commit id (commit_hash signer_address id approve salt reason)) (Some deadline)).

(** Every command of [cs], after those before it. *)
Definition reveals_committed (id : Z) (before cs : list SentinelCommand) : Prop :=
  forall pre c post, cs = pre ++ c :: post -> reveal_committed id (before ++ pre) c.

Lemma reveals_nil id before : reveals_committed id before [].
Proof. intros [|] c post H; discriminate H. Qed.

Lemma reveals_other id before cs :
  Forall (fun c => forall approve salt reason expires, c <> act (Reveal id approve salt reason) expires) cs ->
  reveals_committed id before cs.
Proof.
  intros Hcs pre c post -> a s r e ->. apply Forall_app in Hcs as [_ Hc].
  inversion Hc as [|? ? Hx Ht]; subst. destruct (Hx a s r e eq_refl).
Qed.

Lemma reveals_app id before cs cs' :
  reveals_committed id before cs -> reveals_committed id (before ++ cs) cs' -> reveals_committed id before (cs ++ cs').
Proof.
  intros H1 H2 pre c post Heq. apply app_eq_app in Heq as (l & [[Hl Hc]|[Hl Hc]]).
  - destruct l as [|x l]; simplify_list_eq.
    + specialize (H2 [] c post eq_refl). by rewrite app_nil_r in *.
    + by eapply H1.
  - rewrite Hl, app_assoc. by eapply H2.
Qed.

(** Closes the steps that reveal nothing and collect no commitments. *)
Ltac no_reveal := split; [try done | apply reveals_other; repeat constructor; intros; discriminate].

Lemma local_commit_votes id before approve reason request :
  committed_to id (before ++ (local_commit id approve reason request).2) (local_commit id approve reason request).1 /\
  reveals_committed id before (local_commit id approve reason request).2.
Proof. no_reveal. cbn [local_commit fst snd committed_to]. by rewrite last_snoc. Qed.

Lemma finalize_votes id before entry :
  committed_to id (before ++ (finalize entry id).2) (finalize entry id).1 /\ reveals_committed id before (finalize entry id).2.
Proof. unfold finalize. destruct entry; try no_reveal. destruct (_ && _); no_reveal. Qed.

Lemma local_step_votes id m before entry :
  committed_to id before entry ->
  committed_to id (before ++ (local_step id m entry).2) (local_step id m entry).1 /\
  reveals_committed id before (local_step id m entry).2.
Proof.
  intros Hc.
  assert (committed_to id (before ++ []) entry /\ reveals_committed id before []) as Hsame
    by (rewrite app_nil_r; split; [done|apply reveals_nil]).
  destruct m as [block|log|res]; cbn [local_step].
  - destruct entry as [e|]; [|done]. destruct e; cbn [advance_request]; try (case_decide; [done|]); try no_reveal; try done.
    + destruct self_committed; cbn [negb]; [|no_reveal]. split; [done|].
      intros [|? [|]] c post Heq a s r ex ->; simplify_eq/=. rewrite app_nil_r. cbn [committed_to] in Hc. eauto.
    + apply finalize_votes.
  - case_decide as Hid; [|done]. unfold local_event.
    destruct (log_data log); cbn [local_committed local_disputed local_ended local_arbitration_timeout]; try done.
    + destruct entry; [done|no_reveal].
    + destruct entry as [[? [?|]|?|?|?|?|?]|]; try done; try no_reveal. apply local_commit_votes.
    + by destruct entry as [[]|].
    + destruct entry as [[]|]; try done. cbn [local_revealed]. case_decide; [no_reveal|]. apply finalize_votes.
    + unfold local_disputed. destruct (entry ≫= approve_and_slash_amount) as [[]|]; no_reveal.
    + destruct entry as [[]|]; try done. no_reveal.
    + unfold local_ended. destruct (entry ≫= approve_and_slash_amount); no_reveal.
    + unfold local_ended. destruct (entry ≫= approve_and_slash_amount); no_reveal.
    + destruct entry; no_reveal.
    + destruct entry; no_reveal.
  - case_decide as Hid; [|done]. unfold local_result. destruct entry as [[]|]; try done.
    destruct (vote_of (er_outcome res)) as [[approve reason]|]; [|no_reveal].
    destruct request; [apply local_commit_votes|no_reveal].
Qed.

Lemma local_run_votes id before entry ms :
  committed_to id before entry -> reveals_committed id before (local_run id entry ms).2.
Proof.
  revert before entry. induction ms as [|m ms IH]; intros before entry Hc; [apply reveals_nil|]. cbn [local_run].
  destruct (local_step_votes id m before entry Hc) as [Hc' Hr]. destruct (local_step id m entry) as [e cs].
  cbn [fst snd] in *. specialize (IH (before ++ cs) e Hc'). destruct (local_run id e ms) as [e' cs'].
  cbn [snd] in *. by apply reveals_app.
Qed.

Lemma string_bytes_inj s s' : string_bytes s = string_bytes s' -> s = s'.
Proof.
  revert s'. induction s as [|c s IH]; intros [|c' s'] H; simplify_eq/=; [done|]. f_equal; [|by apply IH].
  rewrite <- (ascii_N_embedding c), <- (ascii_N_embedding c'). f_equal. lia.
Qed.

(** A commitment determines its vote and reason. *)
Lemma commit_hash_binds sentinel id approve salt reason approve' salt' reason' :
  commit_hash sentinel id approve salt reason = commit_hash sentinel id approve' salt' reason' ->
  (approve = approve' /\ reason = reason') \/
  collision_among [commit_data sentinel id approve salt reason; commit_data sentinel id approve' salt' reason'].
Proof.
  intros [Heq|Hc]%keccak256_inj_or_collision; [left|by right].
  assert (forall (x y : Z) k l, x :: k = y :: l -> x = y /\ k = l) as Hcons by (intros; by simplify_eq).
  apply Hcons in Heq as [Ha Heq].
  apply be_bytes_app_inj in Heq as [_ Heq]. do 2 apply app_inv_head in Heq.
  split; [by destruct approve, approve'|by apply string_bytes_inj].
Qed.

(** C29: a sentinel reveals what it committed to. Over every history, the last
    command about a request before a vote on it is revealed is the commitment to
    that very vote, with the salt derived for the request; so each commitment is
    revealed once, and the vote and the reason revealed are the only ones the
    commitment can be opened to, up to a collision of the strings hashed. *)
Theorem reveals_match_commits ms pre post id approve salt reason expires :
  emitted (ST := sentinel_transition self) ∅ ms = pre ++ act (Reveal id approve salt reason) expires :: post ->
  salt = reveal_salt id /\
  (exists deadline, last (about id pre) =
    Some (act (Commit id (commit_hash signer_address id approve salt reason)) (Some deadline))) /\
  (forall approve' salt' reason',
    commit_hash signer_address id approve' salt' reason' = commit_hash signer_address id approve salt reason ->
    (approve' = approve /\ reason' = reason) \/
    collision_among [commit_data signer_address id approve' salt' reason';
      commit_data signer_address id approve salt reason]).
Proof using MOL.
  intros Hms. destruct (run_local id ∅ ms) as [_ Hc]. rewrite Hms, about_app in Hc.
  assert (about id (act (Reveal id approve salt reason) expires :: post) =
    act (Reveal id approve salt reason) expires :: about id post) as Hcons
    by (unfold about; by rewrite filter_cons_True).
  rewrite Hcons, lookup_empty in Hc.
  destruct (local_run_votes id [] None ms I _ _ _ (eq_sym Hc) _ _ _ _ eq_refl) as (Hs & deadline & Hl).
  split_and!; [done|by exists deadline|]. intros a s r. apply commit_hash_binds.
Qed.

(** ** Bonds *)

(** The bond posted for a request, with the vote it backs. *)
Definition bond (entry : option RequestState) : option (bool * Z) := entry ≫= approve_and_slash_amount.

(** The one way a bond is given up: the vote was not revealed in time, others
    revealed theirs, and voting ends. *)
Definition reveal_missed (id : Z) (m : Message.t SentinelEvents EngineCheckResult) (entry : option RequestState)
    : Prop :=
  exists approve slash reveal_deadline committed revealed approves denies,
    entry = Some (CollectingVotes approve slash reveal_deadline committed revealed approves denies false) /\
    ((exists block, m = Message.NewBlock block /\ reveal_deadline < block /\ revealed <> 0) \/
     (exists log sentinel approved amount reason, m = Message.Event log /\
        log_data log = Revealed id sentinel approved amount reason /\ sentinel <> signer_address /\
        committed <= wrap_u64 (revealed + 1))).

(** Where a bond goes in a step. *)
Definition bond_kept (id : Z) (b : bool * Z) (r : Step) : Prop := bond r.1 = Some b \/ act (Claim id) None ∈ r.2.

Lemma bond_claimed id b cs : act (Claim id) None ∈ cs -> bond_kept id b (None, cs).
Proof. by right. Qed.

Lemma bond_ended id b entry : bond entry = Some b -> bond_kept id b (local_ended id entry).
Proof. unfold local_ended. intros Hb. apply bond_claimed. fold (bond entry). rewrite Hb. set_solver. Qed.

Lemma bond_arbitration id b entry : bond entry = Some b -> bond_kept id b (local_arbitration_timeout id entry).
Proof. destruct entry; [|done]. intros _. apply bond_claimed. set_solver. Qed.

Lemma local_step_bond id m entry b :
  bond entry = Some b -> bond_kept id b (local_step id m entry) \/ reveal_missed id m entry.
Proof.
  intros Hb. assert (bond_kept id b (entry, [])) as Hsame by (by left).
  destruct m as [block|log|res]; cbn [local_step].
  - destruct entry as [e|]; [|done]. destruct e; cbn [advance_request]; try done; try (case_decide; [by left|]).
    + left. cbn [bond mbind option_bind approve_and_slash_amount] in Hb. destruct self_committed; [|done]. by left.
    + unfold finalize. destruct (_ && _) eqn:Hm; [|by left; left]. right.
      apply andb_true_iff in Hm as [Hs Hr]. destruct self_revealed; [done|].
      apply negb_true_iff, bool_decide_eq_false in Hr.
      do 7 eexists. split; [done|]. left. exists block. split_and!; [done|lia|done].
    + by left.
    + left. right. set_solver.
  - case_decide as Hid; [|by left]. unfold local_event.
    destruct (log_data log) as [e|e|i s ?|i s a ? ?|i d|i ? ? ?|i|i ? ? ?|i|i ?|? ? ? ?] eqn:El; cbn [event_request] in Hid.
    + destruct entry; [by left|done].
    + left. destruct entry as [[? [?|]|?|?|?|?|?]|]; done.
    + left. destruct entry as [[]|]; try done. left. cbn [bond mbind option_bind approve_and_slash_amount] in *.
      cbn [local_committed fst]. destruct self_committed; [done|discriminate Hb].
    + simplify_eq. destruct entry as [[]|]; try (by left). cbn [local_revealed]. case_decide; [by left; left|].
      unfold finalize. destruct (_ && _) eqn:Hm; [|by left; left]. right.
      apply andb_true_iff in Hm as [Hs _]. apply negb_true_iff, orb_false_iff in Hs as [-> Hs].
      apply bool_decide_eq_false in Hs. do 7 eexists. split; [done|].
      right. do 5 eexists. split_and!; [done|done|done|lia].
    + left. unfold local_disputed. fold (bond entry). rewrite Hb. destruct b. by left.
    + left. destruct entry as [[]|]; try done. right. set_solver.
    + left. by apply bond_ended.
    + left. by apply bond_ended.
    + left. by apply bond_arbitration.
    + left. by apply bond_arbitration.
    + by left.
  - left. case_decide; [|done]. by destruct entry as [[]|].
Qed.

Lemma about_elem id c cs : c ∈ about id cs -> c ∈ cs.
Proof. unfold about. intros [_ Hc]%list_elem_of_filter. done. Qed.

(** C31: no bond is forgotten. Over every history from any state, a bond posted for a
    request stays accounted for, with the vote it backs, until its claim is
    submitted; the only other way out is to have missed the reveal of the vote
    while others revealed theirs. *)
Theorem bonds_claimed (state : State) ms id b :
  bond (state !! id) = Some b ->
  bond (run (ST := sentinel_transition self) state ms !! id) = Some b \/
  act (Claim id) None ∈ emitted (ST := sentinel_transition self) state ms \/
  exists ms1 m ms2, ms = ms1 ++ m :: ms2 /\
    reveal_missed id m (run (ST := sentinel_transition self) state ms1 !! id).
Proof using MOL.
  revert state. induction ms as [|m ms IH]; intros state Hb; [by left|].
  destruct (transition_local id state m) as [Hs Hc].
  destruct (local_step_bond id m _ b Hb) as [[Hk|Hk]|Hm].
  - rewrite <- Hs in Hk. destruct (IH _ Hk) as [Hr|[Hr|(ms1 & m' & ms2 & -> & Hr)]]; [by left| |].
    + right; left. apply elem_of_app. by right.
    + right; right. by exists (m :: ms1), m', ms2.
  - right; left. apply elem_of_app. left. apply (about_elem id). by rewrite <- Hc in Hk.
  - right; right. by exists [], m, ms.
Qed.

(** ** Progress *)

(** The phases of a request, in order; the last is to be over. *)
Definition rank (entry : option RequestState) : Z :=
  match entry with
  | Some (WaitingForEngineCheck _ _) => 0
  | Some (WaitingForRequest _ _ _) => 1
  | Some (CollectingCommitments _ _ _ _ _ _ _) => 2
  | Some (CollectingVotes _ _ _ _ _ _ _ _) => 3
  | Some (WaitingForOutcome _ _) => 4
  | Some (WaitingForDisputeResolution _ _ _) => 5
  | None => 6
  end.

(** The most commands a request can still cause. *)
Definition budget (entry : option RequestState) : nat :=
  match entry with
  | Some (WaitingForEngineCheck _ _) | Some (WaitingForRequest _ _ _) => 5
  | Some (CollectingCommitments _ _ _ _ _ _ _) => 4
  | Some (CollectingVotes _ _ _ _ _ _ _ _) => 3
  | Some (WaitingForOutcome _ _) | Some (WaitingForDisputeResolution _ _ _) => 2
  | None => 0
  end.

(** The deadlines of a request lie at most at [D]. *)
Definition request_within (D : Z) (r : Request) : Prop := rq_commit_deadline r <= D /\ rq_reveal_deadline r <= D.
Definition entry_within (D : Z) (entry : option RequestState) : Prop :=
  match entry with
  | Some (WaitingForEngineCheck deadline None) => deadline <= D
  | Some (WaitingForEngineCheck deadline (Some r)) => deadline <= D /\ request_within D r
  | Some (WaitingForRequest _ _ deadline) => deadline <= D
  | Some (CollectingCommitments _ _ _ commit_deadline reveal_deadline _ _) => commit_deadline <= D /\ reveal_deadline <= D
  | Some (CollectingVotes _ _ reveal_deadline _ _ _ _ _) => reveal_deadline <= D
  | Some (WaitingForOutcome _ _) => True
  | Some (WaitingForDisputeResolution _ _ arbitration_deadline) => arbitration_deadline <= D
  | None => True
  end.

(** A message that does not propose the request anew, and sets no deadline of it
    past [D]. *)
Definition quiet (id D : Z) (m : Message.t SentinelEvents EngineCheckResult) : Prop :=
  match m with
  | Message.Event log =>
      match log_data log with
      | TransactionProposedEvent e => event_request (TransactionProposedEvent e) <> Some id
      | NewRequestEvent e => nr_requestId e = id -> nr_commitDeadline e <= D /\ nr_revealDeadline e <= D
      | DisputeTriggered i deadline => i = id -> deadline <= D
      | _ => True
      end
  | _ => True
  end.

(** A block past every deadline. *)
Definition late (D : Z) (m : Message.t SentinelEvents EngineCheckResult) : Prop :=
  exists block, m = Message.NewBlock block /\ D < block.

Record advances (D : Z) (entry : option RequestState) (r : Step) : Prop := MkAdvances {
  adv_rank : rank entry <= rank r.1;
  adv_budget : (length r.2 + budget r.1 <= budget entry)%nat;
  adv_within : entry_within D r.1
}.

Lemma advances_same D entry : entry_within D entry -> advances D entry (entry, []).
Proof. intros. split; simpl; [lia|lia|done]. Qed.

Lemma advances_out D entry cs : (length cs <= budget entry)%nat -> advances D entry (None, cs).
Proof. intros Hb. split; simpl; [|lia|done]. destruct entry as [[]|]; simpl; lia. Qed.

Lemma advances_commit D id entry approve reason r :
  rank entry < 2 -> request_within D r -> advances D entry (local_commit id approve reason r).
Proof. intros He Hr. destruct entry as [[]|]; simpl in He; try lia; split; simpl; lia || done. Qed.

Lemma advances_finalize D id approve slash deadline deadline' committed revealed revealed' approves approves' denies denies' self_revealed self_revealed' :
  advances D (Some (CollectingVotes approve slash deadline committed revealed approves denies self_revealed))
    (finalize (CollectingVotes approve slash deadline' committed revealed' approves' denies' self_revealed') id).
Proof. unfold finalize. destruct (_ && _); split; simpl; lia || done. Qed.

Lemma local_step_advances id m entry D :
  quiet id D m -> entry_within D entry -> advances D entry (local_step id m entry).
Proof.
  intros Hq Hw. pose proof (advances_same D entry Hw) as Hsame.
  destruct m as [block|log|res]; cbn [local_step].
  - destruct entry as [e|]; [|done]. destruct e; cbn [advance_request]; try done;
      try (case_decide; [done|]); try (by apply advances_out; simpl; lia).
    + destruct self_committed; cbn [negb]; [|apply advances_out; simpl; lia].
      simpl in Hw. split; simpl; lia.
    + apply advances_finalize.
  - case_decide as Hid; [|done]. unfold local_event. cbn [quiet] in Hq.
    destruct (log_data log) as [e|e|i s ?|i s a ? ?|i d|i ? ? ?|i|i ? ? ?|i|i ?|? ? ? ?] eqn:El;
      cbn [event_request] in *; [by destruct Hq|simplify_eq..|done]; try done.
    + specialize (Hq eq_refl). by destruct entry as [[? [?|]|?|?|?|?|?]|].
    + by destruct entry as [[]|].
    + destruct entry as [[]|]; try done. cbn [local_revealed]. case_decide; [done|].
      apply advances_finalize.
    + specialize (Hq eq_refl). unfold local_disputed.
      destruct entry as [[| |? ? ? ? ? ? []| | |]|]; cbn [mbind option_bind approve_and_slash_amount];
        split; simpl in *; lia || done.
    + destruct entry as [[]|]; try done. apply advances_out. simpl; lia.
    + unfold local_ended. destruct entry as [[| |? ? ? ? ? ? []| | |]|]; apply advances_out; simpl; lia.
    + unfold local_ended. destruct entry as [[| |? ? ? ? ? ? []| | |]|]; apply advances_out; simpl; lia.
    + destruct entry as [[]|]; apply advances_out; simpl; lia.
    + destruct entry as [[]|]; apply advances_out; simpl; lia.
  - case_decide as Hid; [|done]. unfold local_result. destruct entry as [[]|]; try done.
    destruct (vote_of (er_outcome res)) as [[approve reason]|]; [|apply advances_out; simpl; lia].
    destruct request; [apply advances_commit; [done|apply Hw]|done].
Qed.

(** A late block moves a request on, unless it waits for its outcome. *)
Lemma late_step id block entry D :
  entry_within D entry -> D < block ->
  3 <= rank (local_step id (Message.NewBlock block) entry).1 /\
  (3 <= rank entry -> rank (local_step id (Message.NewBlock block) entry).1 = 4 \/
    rank (local_step id (Message.NewBlock block) entry).1 = 6).
Proof.
  intros Hw Hb. destruct entry as [e|]; cbn [local_step]; [|simpl; lia].
  destruct e as [d [r|]|? ? d|? ? ? ? ? ? []|? ? ? ? ? ? ? ?|? ?|? ? ?]; cbn [advance_request from_option] in *;
    simpl in Hw; try (rewrite decide_False by (unfold request_within in *; lia)); cbn [negb fst rank]; try lia.
  unfold finalize. destruct (_ && _); simpl; lia.
Qed.

Lemma local_run_advances id ms entry D :
  Forall (quiet id D) ms -> entry_within D entry -> advances D entry (local_run id entry ms).
Proof.
  revert entry. induction ms as [|m ms IH]; intros entry Hq Hw; [by apply advances_same|].
  apply Forall_cons in Hq as [Hm Hq]. destruct (local_step_advances id m entry D Hm Hw) as [Hr Hb Hw'].
  cbn [local_run]. destruct (local_step id m entry) as [e cs]. cbn [fst snd] in *.
  destruct (IH e Hq Hw') as [Hr2 Hb2 Hw2]. destruct (local_run id e ms) as [e' cs'].
  cbn [fst snd] in *. split; cbn [fst snd]; rewrite ?length_app; [lia|lia|done].
Qed.

Lemma local_run_late id ms entry D :
  Forall (quiet id D) ms -> entry_within D entry -> Exists (late D) ms -> 3 <= rank (local_run id entry ms).1.
Proof.
  revert entry. induction ms as [|m ms IH]; intros entry Hq Hw Hl; [by apply Exists_nil in Hl|].
  apply Forall_cons in Hq as [Hm Hq]. pose proof (local_step_advances id m entry D Hm Hw) as [_ _ Hw'].
  apply Exists_cons in Hl as [(block & -> & Hb)|Hl].
  - pose proof (late_step id block entry D Hw Hb) as [H3 _]. cbn [local_run].
    destruct (local_step _ _ entry) as [e cs]. cbn [fst] in *.
    pose proof (local_run_advances id ms e D Hq Hw') as [Hr _ _]. destruct (local_run id e ms). cbn [fst] in *. lia.
  - specialize (IH _ Hq Hw' Hl). cbn [local_run]. destruct (local_step id m entry) as [e cs]. cbn [fst] in *.
    by destruct (local_run id e ms).
Qed.

Lemma local_run_snoc id ms m entry :
  (local_run id entry (ms ++ [m])).1 = (local_step id m (local_run id entry ms).1).1.
Proof.
  revert entry. induction ms as [|m' ms IH]; intros entry; cbn [app local_run].
  - cbn [fst]. by destruct (local_step id m entry).
  - destruct (local_step id m' entry) as [e cs]. specialize (IH e).
    destruct (local_run id e (ms ++ [m])), (local_run id e ms). exact IH.
Qed.

(** ** The commands a request causes

    The approval of a bond names no request: it is queued right before the
    commitment it is for. *)
Definition is_commit (c : SentinelCommand) : bool :=
  match c with Command.Action a => match kind a with Commit _ _ => true | _ => false end | Command.Effect _ => false end.
Definition is_approval (c : SentinelCommand) : bool :=
  match c with Command.Action a => match kind a with ApproveToken _ => true | _ => false end | Command.Effect _ => false end.

(** [cs] starts with the commitment of a request; of the request [id]. *)
Definition commits_first (cs : list SentinelCommand) : bool :=
  match cs with c :: _ => is_commit c | [] => false end.
Definition commits_first_to (id : Z) (cs : list SentinelCommand) : bool :=
  match cs with c :: _ => is_commit c && bool_decide (command_request c = Some id) | [] => false end.

(** Every approval is for a commitment. *)
Fixpoint bonds_committed (cs : list SentinelCommand) : bool :=
  match cs with [] => true | c :: cs => (negb (is_approval c) || commits_first cs) && bonds_committed cs end.

(** The commands about a request, with the approval of its bond. *)
Fixpoint caused (id : Z) (cs : list SentinelCommand) : list SentinelCommand :=
  match cs with
  | [] => []
  | c :: cs =>
      if bool_decide (command_request c = Some id) || is_approval c && commits_first_to id cs
      then c :: caused id cs else caused id cs
  end.

Definition commits (cs : list SentinelCommand) : nat := length (filter (fun c => is_commit c = true) cs).

Lemma commits_app cs cs' : commits (cs ++ cs') = (commits cs + commits cs')%nat.
Proof. unfold commits. by rewrite filter_app, length_app. Qed.

Lemma commits_cons c cs : commits (c :: cs) = ((if is_commit c then 1 else 0) + commits cs)%nat.
Proof. unfold commits. rewrite filter_cons. by destruct (is_commit c). Qed.

Lemma about_cons id c cs :
  about id (c :: cs) = if bool_decide (command_request c = Some id) then c :: about id cs else about id cs.
Proof. unfold about. rewrite filter_cons. by repeat case_decide. Qed.

(** Each approval is charged to the commitment behind it. *)
Lemma caused_bound id cs : (length (caused id cs) <= length (about id cs) + commits (about id (tail cs)))%nat.
Proof.
  induction cs as [|c cs IH]; [done|]. cbn [caused tail]. rewrite about_cons.
  assert (commits (about id (tail cs)) + (if commits_first_to id cs then 1 else 0) <= commits (about id cs))%nat as Htl.
  { destruct cs as [|c' cs]; [done|]. cbn [tail commits_first_to]. rewrite (about_cons id c').
    case_bool_decide; [rewrite commits_cons|]; destruct (is_commit c'); cbn [andb]; lia. }
  destruct (bool_decide (command_request c = Some id)); cbn [orb length]; [destruct (commits_first_to id cs); lia|].
  destruct (is_approval c && commits_first_to id cs) eqn:E; cbn [length]; [|destruct (commits_first_to id cs); lia].
  apply andb_true_iff in E as [_ E]. rewrite E in Htl. lia.
Qed.

Lemma caused_length id cs : (length (caused id cs) <= length (about id cs) + commits (about id cs))%nat.
Proof.
  pose proof (caused_bound id cs) as H. destruct cs as [|c cs]; [done|]. cbn [tail] in H.
  rewrite (about_cons id c) in *. case_bool_decide; rewrite ?commits_cons in *; lia.
Qed.

Lemma bonds_committed_app cs cs' :
  bonds_committed cs = true -> bonds_committed cs' = true -> bonds_committed (cs ++ cs') = true.
Proof.
  intros H H'. induction cs as [|c cs IH]; [done|]. cbn [app bonds_committed] in *.
  apply andb_true_iff in H as [Hc H]. apply andb_true_iff. split; [|by apply IH].
  destruct (is_approval c); [|done]. by destruct cs.
Qed.

Lemma unapproved_committed cs : Forall (fun c => is_approval c = false) cs -> bonds_committed cs = true.
Proof. induction 1 as [|c cs Hc _ IH]; [done|]. cbn [bonds_committed]. by rewrite Hc, IH. Qed.

Lemma advance_unapproved block id e : Forall (fun c => is_approval c = false) (advance_request block id e).2.
Proof. destruct e; cbn [advance_request]; unfold finalize; repeat case_match; repeat constructor. Qed.

(** A transition approves bonds for commitments only. *)
Lemma transition_bonds (state : State) m : bonds_committed (sentinel_transition self state m).2 = true.
Proof.
  destruct m as [block|log|res]; cbn [sentinel_transition].
  - unfold handle_block_advance. cbn [snd]. apply unapproved_committed.
    apply Forall_forall. intros c (cs & Hc & ([id e] & -> & _)%list_elem_of_fmap)%list_elem_of_join.
    pose proof (advance_unapproved block id e) as H. rewrite Forall_forall in H. by apply H.
  - destruct (log_data log); cbn [snd];
      unfold handle_oracle_transaction_proposed, handle_new_request, handle_committed, handle_revealed,
        handle_request_timed_out, handle_oracle_result, handle_dispute_triggered, handle_resolved,
        handle_arbitration_timeout, handle_claimed, finalize; by repeat case_match; simplify_eq/=.
  - unfold handle_engine_check_result. by repeat case_match.
Qed.

Lemma emitted_bonds (state : State) ms :
  bonds_committed (emitted (ST := sentinel_transition self) state ms) = true.
Proof.
  revert state. induction ms as [|m ms IH]; intros state; [done|]. cbn [emitted].
  apply bonds_committed_app; [apply transition_bonds|apply IH].
Qed.

(** A request commits once. *)
Definition uncommitted (entry : option RequestState) : nat :=
  match entry with Some (WaitingForEngineCheck _ _) | Some (WaitingForRequest _ _ _) => 1 | _ => 0 end.

Lemma local_step_commits id m entry D :
  quiet id D m ->
  (commits (local_step id m entry).2 + uncommitted (local_step id m entry).1 <= uncommitted entry)%nat.
Proof.
  intros Hq. destruct m as [block|log|res]; cbn [local_step].
  - destruct entry as [e|]; [|done]. destruct e; cbn [advance_request]; unfold finalize; repeat case_match; simplify_eq/=; lia.
  - case_decide as Hid; [|simpl; lia]. unfold local_event. cbn [quiet] in Hq.
    destruct (log_data log) as [e|e|i s ?|i s a ? ?|i d|i ? ? ?|i|i ? ? ?|i|i ?|? ? ? ?];
      [by destruct Hq|..];
      unfold local_new_request, local_committed, local_revealed, local_disputed, local_resolved, local_ended,
        local_arbitration_timeout, local_commit, finalize;
      destruct entry as [[]|]; cbn [mbind option_bind approve_and_slash_amount]; repeat case_match; simplify_eq/=; lia.
  - case_decide; [|simpl; lia]. unfold local_result. destruct entry as [[]|]; try (simpl; lia).
    destruct (vote_of _) as [[]|]; [destruct request|]; simpl; lia.
Qed.

Lemma local_run_commits id ms entry D :
  Forall (quiet id D) ms -> (commits (local_run id entry ms).2 <= uncommitted entry)%nat.
Proof.
  revert entry. induction ms as [|m ms IH]; intros entry Hq; [unfold commits; simpl; lia|].
  apply Forall_cons in Hq as [Hm Hq]. pose proof (local_step_commits id m entry D Hm) as H1.
  cbn [local_run]. destruct (local_step id m entry) as [e cs]. cbn [fst snd] in H1. specialize (IH e Hq).
  destruct (local_run id e ms) as [e' cs']. cbn [snd] in *. rewrite commits_app. lia.
Qed.

(** C32: every request ends. Over any history in which a request is not proposed
    again and its deadlines lie at most at [D], however events are ordered, repeated
    or missing, its phase never goes back; it causes at most five commands that name
    it, and six with the approval of its bond, which like every approval comes right
    before the commitment it is for; with two blocks past [D] it is over, or waits
    for the outcome of a submitted finalization, which has no deadline. *)
Theorem requests_progress (state : State) ms id D block :
  Forall (quiet id D) ms -> entry_within D (state !! id) -> Exists (late D) ms -> D < block ->
  let ms' := ms ++ [Message.NewBlock block] in
  let final := run (ST := sentinel_transition self) state ms' !! id in
  let cs := emitted (ST := sentinel_transition self) state ms' in
  rank (state !! id) <= rank final /\
  (length (about id cs) <= 5)%nat /\ (length (caused id cs) <= 6)%nat /\ bonds_committed cs = true /\
  (final = None \/ exists approve slash, final = Some (WaitingForOutcome approve slash)).
Proof using MOL.
  intros Hq Hw Hl Hb ms' final cs. destruct (run_local id state ms') as [Hs Hc].
  assert (Forall (quiet id D) ms') as Hq' by (apply Forall_app; split; [done|by constructor]).
  destruct (local_run_advances id ms' (state !! id) D Hq' Hw) as [Hr Hbud _].
  pose proof (local_run_commits id ms' (state !! id) D Hq') as Hcom. pose proof (caused_length id cs) as Hcau.
  unfold final. subst cs. rewrite Hs. rewrite Hc in Hcau |- *.
  assert (budget (state !! id) <= 5 /\ uncommitted (state !! id) <= 1)%nat as [H5 H1]
    by (destruct (state !! id) as [[]|]; simpl; lia).
  split_and!; [done|lia|lia|apply emitted_bonds|].
  unfold ms'. rewrite local_run_snoc.
  pose proof (local_run_late id ms _ D Hq Hw Hl) as H3.
  pose proof (local_run_advances id ms _ D Hq Hw) as [_ _ Hw'].
  destruct (late_step id block _ D Hw' Hb) as [_ H4]. destruct (H4 H3) as [H|H];
    destruct (local_step id _ _).1 as [[]|]; try discriminate H; first [by left|right; by eexists _, _].
Qed.

End Votes.
