(* ===== verification/ToySentinel.v ===== *)
(** A concrete sentinel: a request from its proposal to the claim of its bond, the
    arbitration of another, and the verdicts of an engine, which show that the
    hypotheses of the sentinel's theorems can hold. *)

From Stdlib Require Import String Ascii.
From S2P Require Import Prelude Keccak Messages TxTypes ToyTx Driver Verdicts Sentinel Votes.

#[local] Existing Instance toy_keccak.

(** Requests are identified by their epoch; maps are iterated in their order. *)
#[export] Instance toy_sentinel_crypto : SentinelCrypto := {|
  encode_call c :=
    match c with
    | ApproveCall spender amount => 1 :: be_bytes 32 spender ++ be_bytes 32 amount
    | CommitCall id hash => 2 :: be_bytes 32 id ++ be_bytes 32 hash
    | RevealCall id approve salt reason =>
        3 :: be_bytes 32 id ++ [if approve then 1 else 0] ++ be_bytes 32 salt ++ string_bytes reason
    | FinalizeCall id => 4 :: be_bytes 32 id
    | ClaimCall id => 5 :: be_bytes 32 id
    | TimeoutArbitrationCall id => 6 :: be_bytes 32 id
    end;
  proposal_signing_hash _ _ epoch _ _ _ := epoch;
  hkdf_sha256 ikm salt info := from_be (ikm ++ salt ++ info);
  private_key := [17]
|}.
#[export] Instance toy_map_order : MapOrder RequestState := {| iterate := map_to_list |}.
#[export] Instance toy_map_order_laws : MapOrderLaws RequestState.
Proof. by split. Qed.

(** An engine that denies the first check and fails later ones. *)
#[export] Instance toy_engine : Engine SafeTransaction := {|
  engine_answer tick _ := if decide (tick = 0)%nat then Some (Insecure (MkRuleId 4 12)) else None
|}.

Definition toy_sentinel : SentinelTransition := MkSentinelTransition 500 600 1 40.
Definition toy_sentinel_machine := sentinel_transition toy_sentinel.
Definition toy_transaction : SafeTransaction := MkSafeTransaction 1 2 3 0 [] CALL 0 0 0 0 0 7.

Definition sentinel_event (block : Z) (e : SentinelEvents) : Message.t SentinelEvents EngineCheckResult :=
  Message.Event (MkEventLog (MkEventBlock block (block * 12)) 0 500 e).

(** Request 5 is denied, committed to, and revealed with another sentinel's vote. *)
Definition toy_vote : list (Message.t SentinelEvents EngineCheckResult) :=
  [sentinel_event 10 (TransactionProposedEvent (MkTransactionProposed 9 2 500 5 [] toy_transaction));
   Message.Resume (MkEngineCheckResult 5 (Denied (MkRuleId 4 12)));
   sentinel_event 12 (NewRequestEvent (MkNewRequest 5 1 2 1000 3 100 20 30));
   sentinel_event 14 (Committed 5 77 1000); sentinel_event 15 (Committed 5 88 1000);
   Message.NewBlock 20; Message.NewBlock 21].
Definition toy_history : list (Message.t SentinelEvents EngineCheckResult) :=
  toy_vote ++
  [sentinel_event 22 (Revealed 5 77 false 1000 "R-4.12"); sentinel_event 23 (Revealed 5 88 false 1000 "R-4.12");
   sentinel_event 24 (OracleResult 5 1 [] false)].

(** The effects and actions of the history, without their contents. *)
Definition command_name (c : SentinelCommand) : string :=
  match c with
  | Command.Effect _ => "check"
  | Command.Action a =>
      match kind a with
      | ApproveToken _ => "approve" | Commit _ _ => "commit" | Reveal _ _ _ _ => "reveal"
      | Finalize _ => "finalize" | Claim _ => "claim" | TimeoutArbitration _ => "timeout"
      end
  end.

Lemma toy_history_runs :
  (command_name <$> emitted (ST := toy_sentinel_machine) ∅ toy_history,
   run (ST := toy_sentinel_machine) ∅ toy_history !! 5) =
  (["check"; "approve"; "commit"; "reveal"; "finalize"; "claim"]%string, None).
Proof. vm_compute. reflexivity. Qed.

Lemma reveals_match_commits_witness :
  exists pre post, emitted (ST := toy_sentinel_machine) ∅ toy_history =
    pre ++ act (Reveal 5 false (reveal_salt 5) "R-4.12") (Some 30) :: post /\
  exists deadline, last (about 5 pre) =
    Some (act (Commit 5 (commit_hash 77 5 false (reveal_salt 5) "R-4.12")) (Some deadline)).
Proof.
  assert (exists pre post, emitted (ST := toy_sentinel_machine) ∅ toy_history =
    pre ++ act (Reveal 5 false (reveal_salt 5) "R-4.12") (Some 30) :: post) as (pre & post & Hms).
  { exists (take 3 (emitted (ST := toy_sentinel_machine) ∅ toy_history)),
      (drop 4 (emitted (ST := toy_sentinel_machine) ∅ toy_history)).
    vm_compute. reflexivity. }
  exists pre, post. split; [exact Hms|].
  apply (reveals_match_commits toy_sentinel toy_history pre post 5 false (reveal_salt 5) "R-4.12" (Some 30) Hms).
Defined.

(** After the commitment the bond of 100 at stake stays accounted for. *)
Definition toy_committed : gmap Z RequestState := run (ST := toy_sentinel_machine) ∅ (take 5 toy_vote).

Lemma bonds_claimed_witness :
  bond (toy_committed !! 5) = Some (false, 100) /\
  (bond (run (ST := toy_sentinel_machine) toy_committed (drop 5 toy_history) !! 5) = Some (false, 100) \/
   act (Claim 5) None ∈ emitted (ST := toy_sentinel_machine) toy_committed (drop 5 toy_history) \/
   exists ms1 m ms2, drop 5 toy_history = ms1 ++ m :: ms2 /\
     reveal_missed 5 m (run (ST := toy_sentinel_machine) toy_committed ms1 !! 5)).
Proof.
  assert (bond (toy_committed !! 5) = Some (false, 100)) as Hb by (vm_compute; reflexivity).
  split; [exact Hb|]. exact (bonds_claimed toy_sentinel toy_committed (drop 5 toy_history) 5 (false, 100) Hb).
Defined.

(** The same request if nobody reveals: a dispute, never ruled on. *)
Definition toy_silence : list (Message.t SentinelEvents EngineCheckResult) :=
  [Message.NewBlock 21; Message.NewBlock 31; sentinel_event 32 (DisputeTriggered 5 40); Message.NewBlock 41].

Lemma requests_progress_witness :
  rank (toy_committed !! 5) = 2 /\
  let final := run (ST := toy_sentinel_machine) toy_committed (toy_silence ++ [Message.NewBlock 42]) !! 5 in
  (final = None \/ exists approve slash, final = Some (WaitingForOutcome approve slash)).
Proof.
  assert (rank (toy_committed !! 5) = 2) as Hr by (vm_compute; reflexivity). split; [exact Hr|].
  assert (entry_within 40 (toy_committed !! 5)) as Hw by (vm_compute; split; intros H; discriminate H).
  apply (requests_progress toy_sentinel toy_committed toy_silence 5 40 42).
  - repeat constructor. intros _. simpl. lia.
  - exact Hw.
  - do 3 apply Exists_cons_tl. apply Exists_cons_hd. exists 41. split; [reflexivity|lia].
  - lia.
Defined.

Lemma verdicts_stable_witness :
  answered (apply_verdict_ops ∅ []) (RecordVerdict 5 10 (Denied (MkRuleId 4 12))) =
    Some (5, 10, Denied (MkRuleId 4 12)) /\
  let st := apply_verdict_ops ∅ ([] ++ RecordVerdict 5 10 (Denied (MkRuleId 4 12)) ::
    [PruneVerdicts 9; RecordVerdict 5 12 Approved; GetVerdict 5 30; PruneVerdicts 10]) in
  (engine_check 3 1000 st (MkEngineCheck 5 toy_transaction 120 31)).2 = Denied (MkRuleId 4 12).
Proof.
  assert (answered (apply_verdict_ops ∅ []) (RecordVerdict 5 10 (Denied (MkRuleId 4 12))) =
    Some (5, 10, Denied (MkRuleId 4 12))) as Ha by (vm_compute; reflexivity).
  split; [exact Ha|].
  assert (Forall verdict_op_ok ([] ++ [RecordVerdict 5 10 (Denied (MkRuleId 4 12))])) as Hops
    by (constructor; [split; split; discriminate|constructor]).
  assert (Forall (retains 5 10) [PruneVerdicts 9; RecordVerdict 5 12 Approved; GetVerdict 5 30; PruneVerdicts 10]) as Hr
    by (repeat constructor; simpl; lia).
  destruct (verdicts_stable (T := SafeTransaction) [] _ _ 5 10 _ Hops Ha Hr) as (_ & Hcheck & _).
  apply Hcheck; [reflexivity|simpl; lia].
Defined.
