(* ===== verification/Batches.v ===== *)
(** The transactions the sentinel's engine checks, [crates/sentinel-engine/src]:
    [engine/transaction.rs], the wire format of batches ([contracts/multi_send.rs])
    and the parser that flattens them ([engine/proposal.rs]). *)

From S2P Require Import Prelude.

(** ** Transactions *)

Inductive Operation := Call | DelegateCall.

#[export] Instance Operation_eq_dec : EqDecision Operation.
Proof. solve_decision. Defined.

(** [Operation as u8] and its [TryFrom<u8>]. *)
Definition operation_byte (o : Operation) : Z := match o with Call => 0 | DelegateCall => 1 end.
Definition operation_of (byte : Z) : option Operation :=
  if decide (byte = 0) then Some Call else if decide (byte = 1) then Some DelegateCall else None.

Record SafeTransaction := MkSafeTransaction {
  chain_id : Z; safe : Z; to : Z; value : Z; data : bytes; operation : Operation;
  safe_tx_gas : Z; base_gas : Z; gas_price : Z; gas_token : Z; refund_receiver : Z; nonce : Z
}.

#[export] Instance SafeTransaction_eq_dec : EqDecision SafeTransaction.
Proof. solve_decision. Defined.

Record MetaTransaction := MkMetaTransaction {
  m_to : Z; m_value : Z; m_data : bytes; m_operation : Operation
}.

#[export] Instance MetaTransaction_eq_dec : EqDecision MetaTransaction.
Proof. solve_decision. Defined.

Definition as_meta_transaction (t : SafeTransaction) : MetaTransaction :=
  MkMetaTransaction (to t) (value t) (data t) (operation t).

(** [SafeTransaction]'s [Default], but for the Safe and the call. *)
Definition default_with (safe to : Z) (value : Z) (data : bytes) (operation : Operation) : SafeTransaction :=
  MkSafeTransaction 0 safe to value data operation 0 0 0 0 0 0.

(** ** Batches *)

Inductive MultiSendVersion := Legacy | V150Plus.

#[export] Instance MultiSendVersion_eq_dec : EqDecision MultiSendVersion.
Proof. solve_decision. Defined.

Record Deployment := MkDeployment { d_address : Z; d_version : MultiSendVersion; d_allows_delegate_calls : bool }.

Definition DEPLOYMENTS : list Deployment := [
  MkDeployment 0x218543288004CD07832472D464648173c77D7eB7 V150Plus true;
  MkDeployment 0xA83c336B20401Af773B6219BA5027174338D1836 V150Plus false;
  MkDeployment 0x38869bf66a61cF6bDB996A6aE40D5853Fd43B526 Legacy true;
  MkDeployment 0x9641d764fc13c8B624c04430C7356C1C7C8102e2 Legacy false;
  MkDeployment 0xA238CBeb142c10Ef7Ad8442C6D1f9E89e07e7761 Legacy true;
  MkDeployment 0x40A2aCCbd92BCA938b02010E17A5b8929b49130D Legacy false;
  MkDeployment 0x998739BFdAAdde7C933B942a68053933098f9EDa Legacy true;
  MkDeployment 0xA1dabEF33b3B82c7814B6D82A79e50F4AC44102B Legacy false].

Definition known_deployment (address : Z) : option (MultiSendVersion * bool) :=
  (fun d => (d_version d, d_allows_delegate_calls d)) <$> List.find (fun d => bool_decide (d_address d = address)) DEPLOYMENTS.

(** [Cursor::read] of [len] bytes ([split_at_checked]) and [Cursor::next]. *)
Definition read (len : Z) (cursor : bytes) : option (bytes * bytes) :=
  if decide (0 <= len <= Z.of_nat (length cursor))
  then Some (take (Z.to_nat len) cursor, drop (Z.to_nat len) cursor) else None.
Definition next (cursor : bytes) : option (Z * bytes) :=
  match cursor with [] => None | b :: rest => Some (b, rest) end.

(** [usize::try_from], on a 64-bit target. *)
Definition to_usize (z : Z) : option Z := if decide (z <= u64_max) then Some z else None.

(** An entry, and the bytes after it. *)
Definition decode_entry (safe : Z) (version : MultiSendVersion) (op : Z) (cursor : bytes)
    : option (MetaTransaction * bytes) :=
  operation ← operation_of op;
  '(to, cursor) ← read 20 cursor;
  '(value, cursor) ← read 32 cursor;
  '(len, cursor) ← read 32 cursor;
  data_len ← to_usize (from_be len);
  '(data, cursor) ← read data_len cursor;
  let to :=
    match version with
    | V150Plus => if decide (from_be to = 0) then safe else from_be to
    | Legacy => from_be to
    end in
  Some (MkMetaTransaction to (from_be value) data operation, cursor).

(** The loop of [decode_multi_send]: an entry takes at least a byte, so its length
    bounds the entries of a payload. *)
Fixpoint decode_entries (fuel : nat) (safe : Z) (version : MultiSendVersion) (cursor : bytes)
    : option (list MetaTransaction) :=
  match next cursor with
  | None => Some []
  | Some (op, cursor) =>
      match fuel with
      | O => None
      | S fuel =>
          '(call, cursor) ← decode_entry safe version op cursor;
          calls ← decode_entries fuel safe version cursor;
          Some (call :: calls)
      end
  end.
Definition decode_multi_send (safe : Z) (data : bytes) (version : MultiSendVersion) : option (list MetaTransaction) :=
  decode_entries (length data) safe version data.

(** [multiSendCall::abi_decode], generated code: the payload of a call. *)
Class MultiSendAbi := { multi_send_decode : bytes -> option bytes }.
(** The payload lies in the calldata, after the selector. *)
Class MultiSendLaws `{MultiSendAbi} : Prop := {
  multi_send_payload calldata payload :
    multi_send_decode calldata = Some payload -> (length payload < length calldata)%nat
}.

Definition decode_multi_send_call `{MultiSendAbi} (tx : SafeTransaction) : option (list MetaTransaction * bool) :=
  if decide (operation tx ≠ DelegateCall) then None
  else
    '(version, allows_delegate_calls) ← known_deployment (to tx);
    transactions ← multi_send_decode (data tx);
    calls ← decode_multi_send (safe tx) transactions version;
    Some (calls, allows_delegate_calls).

(** ** The parser *)

Definition MAX_BATCH_DEPTH : nat := 4.

Record Proposal := MkProposal { transaction : SafeTransaction; calls : list MetaTransaction }.

Inductive ParseError := TooDeep.

Definition decode_batch `{MultiSendAbi} (safe : Z) (call : MetaTransaction) : option (list MetaTransaction * bool) :=
  decode_multi_send_call (default_with safe (m_to call) (m_value call) (m_data call) (m_operation call)).

(** The loop of [flatten] over the calls of a batch, given what one becomes. *)
Fixpoint flatten_all (one : MetaTransaction -> result ParseError (list MetaTransaction)) (allows_delegate_calls : bool)
    (sub_calls : list MetaTransaction) : result ParseError (list MetaTransaction) :=
  match sub_calls with
  | [] => Ok []
  | sub_call :: rest =>
      flat ← (if bool_decide (m_operation sub_call = DelegateCall) && negb allows_delegate_calls
              then Ok [sub_call] else one sub_call);
      rest ← flatten_all one allows_delegate_calls rest;
      Ok (flat ++ rest)
  end.

Fixpoint flatten `{MultiSendAbi} (safe : Z) (depth_remaining : nat) (call : MetaTransaction)
    : result ParseError (list MetaTransaction) :=
  match decode_batch safe call with
  | None => Ok [call]
  | Some (sub_calls, allows_delegate_calls) =>
      match depth_remaining with
      | O => Err TooDeep
      | S depth => flatten_all (flatten safe depth) allows_delegate_calls sub_calls
      end
  end.

Definition parse `{MultiSendAbi} (t : SafeTransaction) : result ParseError Proposal :=
  calls ← flatten (safe t) MAX_BATCH_DEPTH (as_meta_transaction t);
  Ok (MkProposal t calls).

(** [Proposal::from]: a single call, whatever it is. *)
Definition proposal_from (t : SafeTransaction) : Proposal := MkProposal t [as_meta_transaction t].

(** ** The wire format *)

Definition is_byte (b : Z) : Prop := 0 <= b < 256.

(** [abi.encodePacked] of an entry, and an entry its fields fit. *)
Definition pack (c : MetaTransaction) : bytes :=
  operation_byte (m_operation c) :: be_bytes 20 (m_to c) ++ be_bytes 32 (m_value c) ++
  be_bytes 32 (Z.of_nat (length (m_data c))) ++ m_data c.
Record entry_ok (c : MetaTransaction) : Prop := MkEntryOk {
  ok_to : 0 <= m_to c < 256 ^ Z.of_nat 20;
  ok_value : 0 <= m_value c < 256 ^ Z.of_nat 32;
  ok_data : Z.of_nat (length (m_data c)) <= u64_max
}.

(** From version 1.5.0 the zero address stands for the Safe. *)
Definition resolve (safe : Z) (version : MultiSendVersion) (c : MetaTransaction) : MetaTransaction :=
  match version with
  | V150Plus =>
      MkMetaTransaction (if decide (m_to c = 0) then safe else m_to c) (m_value c) (m_data c) (m_operation c)
  | Legacy => c
  end.

Lemma from_be_bound l : Forall is_byte l -> 0 <= from_be l < 256 ^ Z.of_nat (length l).
Proof.
  induction l as [|b l IH] using rev_ind; intros Hl; [done|].
  apply Forall_app in Hl as [Hl Hb]. apply Forall_cons in Hb as [Hb _]. specialize (IH Hl). unfold is_byte in Hb.
  rewrite from_be_snoc, length_app. cbn [length]. rewrite Nat.add_1_r, Nat2Z.inj_succ, Z.pow_succ_r by lia.
  generalize dependent (256 ^ Z.of_nat (length l)). lia.
Qed.

Lemma be_bytes_from_be l : Forall is_byte l -> be_bytes (length l) (from_be l) = l.
Proof.
  induction l as [|b l IH] using rev_ind; intros Hl; [done|].
  apply Forall_app in Hl as [Hl Hb]. apply Forall_cons in Hb as [Hb _]. unfold is_byte in Hb.
  rewrite length_app, Nat.add_1_r, from_be_snoc. cbn [be_bytes].
  replace ((256 * from_be l + b) / 256) with (from_be l) by lia. rewrite IH by done. f_equal. f_equal. lia.
Qed.

Lemma read_app len l k : Z.of_nat (length l) = len -> read len (l ++ k) = Some (l, k).
Proof.
  intros <-. unfold read. rewrite length_app, decide_True by lia. rewrite Nat2Z.id.
  by rewrite take_app_length, drop_app_length.
Qed.

Lemma read_Some len cursor l k : read len cursor = Some (l, k) -> cursor = l ++ k /\ Z.of_nat (length l) = len.
Proof.
  unfold read. case_decide; intros Hr; simplify_eq. rewrite take_drop, length_take. split; [done|lia].
Qed.

Lemma to_usize_small z : z <= u64_max -> to_usize z = Some z.
Proof. intros Hz. unfold to_usize. by rewrite decide_True. Qed.

Lemma to_usize_Some z n : to_usize z = Some n -> n = z /\ z <= u64_max.
Proof. unfold to_usize. intros H. case_decide; by simplify_eq. Qed.

Lemma operation_of_byte o : operation_of (operation_byte o) = Some o.
Proof. by destruct o. Qed.
Lemma operation_of_Some b o : operation_of b = Some o -> b = operation_byte o.
Proof. unfold operation_of. intros H. repeat case_decide; simplify_eq; done. Qed.

(** An entry is read back, and only entries are read. *)
Lemma decode_entry_fields safe version o t v l d rest :
  length t = 20%nat -> length v = 32%nat -> length l = 32%nat ->
  from_be l = Z.of_nat (length d) -> Z.of_nat (length d) <= u64_max ->
  decode_entry safe version (operation_byte o) (t ++ v ++ l ++ d ++ rest) =
    Some (resolve safe version (MkMetaTransaction (from_be t) (from_be v) d o), rest).
Proof.
  intros Lt Lv Ll Hl Hd. unfold decode_entry. rewrite operation_of_byte. cbn [mbind option_bind].
  rewrite read_app by (by rewrite Lt). cbn [mbind option_bind].
  rewrite read_app by (by rewrite Lv). cbn [mbind option_bind].
  rewrite read_app by (by rewrite Ll). cbn [mbind option_bind].
  rewrite to_usize_small by (by rewrite Hl). cbn [mbind option_bind].
  rewrite read_app by done. cbn [mbind option_bind]. by destruct version.
Qed.

Lemma decode_entry_pack safe version c rest : entry_ok c ->
  decode_entry safe version (operation_byte (m_operation c)) (tail (pack c) ++ rest) = Some (resolve safe version c, rest).
Proof.
  intros [Hto Hv Hd]. assert (u64_max < 256 ^ Z.of_nat 32) as Hu by (vm_compute; reflexivity).
  pose proof (from_be_be_bytes 20 _ Hto) as Et. pose proof (from_be_be_bytes 32 _ Hv) as Ev.
  assert (from_be (be_bytes 32 (Z.of_nat (length (m_data c)))) = Z.of_nat (length (m_data c))) as El
    by (apply from_be_be_bytes; lia).
  pose proof (decode_entry_fields safe version (m_operation c) _ _ _ _ rest (length_be_bytes 20 (m_to c))
    (length_be_bytes 32 (m_value c)) (length_be_bytes 32 (Z.of_nat (length (m_data c)))) El Hd) as He.
  rewrite Et, Ev in He. unfold pack. cbn [tail]. rewrite <- !app_assoc, He. by destruct c.
Qed.

Lemma decode_entry_Some safe version op cursor c rest :
  Forall is_byte cursor -> decode_entry safe version op cursor = Some (c, rest) ->
  exists entry, entry_ok entry /\ op :: cursor = pack entry ++ rest /\ c = resolve safe version entry /\
    Forall is_byte rest /\ (length (m_data c) <= length cursor)%nat.
Proof.
  intros Hb Hd. unfold decode_entry in Hd.
  destruct (operation_of op) as [o|] eqn:Ho; [|done]. apply operation_of_Some in Ho as ->. cbn [mbind option_bind] in Hd.
  destruct (read 20 cursor) as [[to_b k1]|] eqn:E1; [|done]. apply read_Some in E1 as [-> L1]. cbn [mbind option_bind] in Hd.
  destruct (read 32 k1) as [[v_b k2]|] eqn:E2; [|done]. apply read_Some in E2 as [-> L2]. cbn [mbind option_bind] in Hd.
  destruct (read 32 k2) as [[l_b k3]|] eqn:E3; [|done]. apply read_Some in E3 as [-> L3]. cbn [mbind option_bind] in Hd.
  destruct (to_usize (from_be l_b)) as [len|] eqn:Eu; [|done]. apply to_usize_Some in Eu as [-> Hu].
  cbn [mbind option_bind] in Hd. destruct (read (from_be l_b) k3) as [[d k4]|] eqn:E4; [|done]. apply read_Some in E4 as [-> L4]. cbn [mbind option_bind] in Hd.
  rewrite !Forall_app in Hb. destruct Hb as (Bt & Bv & Bl & Bd & Br).
  pose proof (from_be_bound to_b Bt) as Rt. pose proof (from_be_bound v_b Bv) as Rv.
  pose proof (be_bytes_from_be to_b Bt) as Pt. pose proof (be_bytes_from_be v_b Bv) as Pv.
  pose proof (be_bytes_from_be l_b Bl) as Pl.
  replace (length to_b) with 20%nat in * by lia. replace (length v_b) with 32%nat in * by lia.
  replace (length l_b) with 32%nat in * by lia.
  exists (MkMetaTransaction (from_be to_b) (from_be v_b) d o). simplify_eq. split_and!.
  - split; simpl; [done|done|lia].
  - unfold pack. cbn [m_to m_value m_data m_operation]. rewrite L4, Pt, Pv, Pl. simpl. by rewrite <- !app_assoc.
  - by destruct version.
  - done.
  - simpl. rewrite !length_app. lia.
Qed.

Lemma pack_cons c : pack c = operation_byte (m_operation c) :: tail (pack c).
Proof. done. Qed.

Lemma length_pack c : (length (m_data c) < length (pack c))%nat.
Proof. unfold pack. cbn [length]. rewrite !length_app. lia. Qed.

Lemma decode_entries_pack safe version entries fuel :
  Forall entry_ok entries -> (length entries <= fuel)%nat ->
  decode_entries fuel safe version (concat (pack <$> entries)) = Some (resolve safe version <$> entries).
Proof.
  revert fuel. induction entries as [|c entries IH]; intros fuel Hok Hf; [by destruct fuel|].
  apply Forall_cons in Hok as [Hc Hok]. destruct fuel as [|fuel]; [simpl in Hf; lia|].
  change (concat (pack <$> c :: entries)) with (pack c ++ concat (pack <$> entries)).
  rewrite pack_cons. cbn [app decode_entries next]. rewrite decode_entry_pack by done. cbn [mbind option_bind].
  rewrite IH; [done|done|simpl in Hf; lia].
Qed.

Lemma decode_entries_Some safe version fuel cursor calls :
  Forall is_byte cursor -> decode_entries fuel safe version cursor = Some calls ->
  exists entries, Forall entry_ok entries /\ cursor = concat (pack <$> entries) /\ calls = resolve safe version <$> entries.
Proof.
  revert cursor calls. induction fuel as [|fuel IH]; intros cursor calls Hb Hd; destruct cursor as [|op cursor];
    cbn [decode_entries next] in Hd; simplify_eq; try (by exists []).
  destruct (decode_entry safe version op cursor) as [[c rest]|] eqn:Ed; [|done]. cbn [mbind option_bind] in Hd.
  destruct (decode_entries fuel safe version rest) as [cs|] eqn:Er; [|done]. cbn [mbind option_bind] in Hd. simplify_eq.
  apply Forall_cons in Hb as [_ Hb]. apply (decode_entry_Some _ _ _ _ _ _ Hb) in Ed as (e & He & Hp & -> & Hr & _).
  destruct (IH rest cs Hr Er) as (es & Hes & -> & ->). exists (e :: es). split_and!; [by constructor|done|done].
Qed.

Lemma length_packs entries : (length entries <= length (concat (pack <$> entries)))%nat.
Proof.
  induction entries as [|c entries IH]; [done|].
  change (concat (pack <$> c :: entries)) with (pack c ++ concat (pack <$> entries)).
  rewrite length_app. pose proof (length_pack c). simpl. lia.
Qed.

(** The decoder accepts exactly the packed entries. *)
Lemma decode_multi_send_exact safe data version calls : Forall is_byte data ->
  decode_multi_send safe data version = Some calls <->
  exists entries, Forall entry_ok entries /\ data = concat (pack <$> entries) /\
    calls = resolve safe version <$> entries.
Proof.
  intros Hb. split; [by apply decode_entries_Some|]. intros (entries & Hok & -> & ->).
  apply decode_entries_pack; [done|apply length_packs].
Qed.

(** Each call is carried by the payload. *)
Lemma decode_entries_smaller safe version fuel cursor calls :
  decode_entries fuel safe version cursor = Some calls ->
  Forall (fun c => (length (m_data c) < length cursor)%nat) calls.
Proof.
  revert cursor calls. induction fuel as [|fuel IH]; intros cursor calls Hd; destruct cursor as [|op cursor];
    cbn [decode_entries next] in Hd; simplify_eq; try constructor.
  destruct (decode_entry safe version op cursor) as [[c rest]|] eqn:Ed; [|done]. cbn [mbind option_bind] in Hd.
  destruct (decode_entries fuel safe version rest) as [cs|] eqn:Er; [|done]. cbn [mbind option_bind] in Hd. simplify_eq.
  assert (length (m_data c) <= length cursor /\ length rest <= length cursor)%nat as [Hc Hr].
  { unfold decode_entry in Ed. destruct (operation_of op) as [o|]; [|done]. cbn [mbind option_bind] in Ed.
    destruct (read 20 cursor) as [[t k1]|] eqn:E1; [|done]. apply read_Some in E1 as [-> _]. cbn [mbind option_bind] in Ed.
    destruct (read 32 k1) as [[v k2]|] eqn:E2; [|done]. apply read_Some in E2 as [-> _]. cbn [mbind option_bind] in Ed.
    destruct (read 32 k2) as [[l k3]|] eqn:E3; [|done]. apply read_Some in E3 as [-> _]. cbn [mbind option_bind] in Ed.
    destruct (to_usize (from_be l)) as [n|]; [|done]. cbn [mbind option_bind] in Ed.
    destruct (read n k3) as [[d k4]|] eqn:E4; [|done]. apply read_Some in E4 as [-> _]. cbn [mbind option_bind] in Ed.
    injection Ed as <- <-. cbn [m_data]. rewrite !length_app. lia. }
  constructor; [simpl; lia|]. eapply Forall_impl; [by apply IH|]. intros x Hx. simpl in *. lia.
Qed.

(** ** Batches and the calls they make *)

Section Parser.
Context {MS : MultiSendAbi} {ML : MultiSendLaws}.

(** The calls a Safe makes by a call, and how deep batches nest in it: a call that
    is no batch is made; a batch makes the calls of its entries in order, but for
    the delegatecalls a deployment refuses, which stay as they are. *)
Inductive makes (safe : Z) : MetaTransaction -> nat -> list MetaTransaction -> Prop :=
| makes_call call : decode_batch safe call = None -> makes safe call 0 [call]
| makes_batch call sub_calls allows depth calls :
    decode_batch safe call = Some (sub_calls, allows) ->
    makes_all safe allows sub_calls depth calls -> makes safe call (S depth) calls
with makes_all (safe : Z) : bool -> list MetaTransaction -> nat -> list MetaTransaction -> Prop :=
| makes_none allows : makes_all safe allows [] 0 []
| makes_refused sub_call rest depth calls :
    m_operation sub_call = DelegateCall -> makes_all safe false rest depth calls ->
    makes_all safe false (sub_call :: rest) depth (sub_call :: calls)
| makes_sub allows sub_call rest depth depth' calls calls' :
    (m_operation sub_call = DelegateCall -> allows = true) ->
    makes safe sub_call depth calls -> makes_all safe allows rest depth' calls' ->
    makes_all safe allows (sub_call :: rest) (Nat.max depth depth') (calls ++ calls').

Scheme makes_mind := Induction for makes Sort Prop
  with makes_all_mind := Induction for makes_all Sort Prop.

(** What a parse with [k] levels left gives for calls nested [depth] deep. *)
Definition within (k depth : nat) (calls : list MetaTransaction) : result ParseError (list MetaTransaction) :=
  if decide (depth <= k)%nat then Ok calls else Err TooDeep.

Lemma within_app k d d' calls calls' :
  (flat ← within k d calls; rest ← within k d' calls'; Ok (flat ++ rest)) = within k (Nat.max d d') (calls ++ calls').
Proof. unfold within. repeat case_decide; try lia; done. Qed.

Lemma flatten_makes safe call depth calls :
  makes safe call depth calls -> forall k, flatten safe k call = within k depth calls.
Proof.
  intros Hm. induction Hm using makes_mind with
    (P0 := fun allows subs depth calls _ => forall k, flatten_all (flatten safe k) allows subs = within k depth calls).
  - intros k. by destruct k; cbn [flatten]; rewrite e.
  - intros k. destruct k; cbn [flatten]; rewrite e; [done|]. rewrite IHHm.
    unfold within. by repeat case_decide; lia || done.
  - done.
  - intros k. cbn [flatten_all]. rewrite bool_decide_true by done. cbn [andb negb].
    rewrite IHHm. unfold within. by case_decide.
  - intros k. cbn [flatten_all]. rewrite <- within_app, <- IHHm, <- IHHm0.
    destruct (bool_decide (m_operation sub_call = DelegateCall)) eqn:Eb; [|done].
    apply bool_decide_eq_true in Eb. by rewrite (e Eb).
Qed.

Lemma makes_unique safe call depth calls depth' calls' :
  makes safe call depth calls -> makes safe call depth' calls' -> depth' = depth /\ calls' = calls.
Proof.
  intros H H'. pose proof (flatten_makes _ _ _ _ H) as F. pose proof (flatten_makes _ _ _ _ H') as F'.
  pose proof (F depth) as E1. rewrite F' in E1. pose proof (F depth') as E2. rewrite F' in E2. unfold within in *.
  repeat case_decide; simplify_eq; try lia. split; [lia|done].
Qed.

Lemma decode_batch_smaller safe call sub_calls allows :
  decode_batch safe call = Some (sub_calls, allows) ->
  Forall (fun c => (length (m_data c) < length (m_data call))%nat) sub_calls.
Proof using ML.
  unfold decode_batch, decode_multi_send_call. intros Hd. case_decide; [done|].
  destruct (known_deployment _) as [[version al]|]; [|done]. cbn [mbind option_bind] in Hd.
  destruct (multi_send_decode _) as [payload|] eqn:Ep; [|done]. cbn [mbind option_bind] in Hd.
  destruct (decode_multi_send _ _ _) as [cs|] eqn:Ed; [|done]. cbn [mbind option_bind] in Hd. simplify_eq.
  apply multi_send_payload in Ep. apply decode_entries_smaller in Ed.
  eapply Forall_impl; [exact Ed|]. intros c Hc. simpl in *. lia.
Qed.

Lemma makes_total safe call : exists depth calls, makes safe call depth calls.
Proof using ML.
  remember (length (m_data call)) as n eqn:Hn. revert call Hn.
  induction n as [n IH] using lt_wf_ind. intros call ->.
  destruct (decode_batch safe call) as [[subs allows]|] eqn:Ed.
  - assert (exists depth calls, makes_all safe allows subs depth calls) as (d & cs & Hall).
    { pose proof (decode_batch_smaller _ _ _ _ Ed) as Hs. clear Ed.
      induction Hs as [|sub subs Hsub Hs (d & cs & Hall)]; [by exists 0%nat, []; constructor|].
      destruct (decide (m_operation sub = DelegateCall /\ allows = false)) as [[Hop ->]|Hn].
      - exists d, (sub :: cs). by constructor.
      - destruct (IH _ Hsub sub eq_refl) as (d' & cs' & Hm). exists (Nat.max d' d), (cs' ++ cs).
        constructor; [|done..]. intros Hop. destruct allows; [done|]. by destruct Hn. }
    exists (S d), cs. by apply makes_batch with subs allows.
  - exists 0%nat, [call]. by constructor.
Qed.

(** C33: the engine checks the calls a Safe will make. A transaction nests some
    number of batches and makes one sequence of calls; the parser returns exactly
    that sequence, in order, when they nest at most four deep, and refuses the
    transaction otherwise. The calls of a batch are the entries its payload packs,
    and a payload that packs none is no batch. *)
Theorem batches_flatten (t : SafeTransaction) :
  (exists depth cs, makes (safe t) (as_meta_transaction t) depth cs /\
    (forall depth' cs', makes (safe t) (as_meta_transaction t) depth' cs' -> depth' = depth /\ cs' = cs) /\
    parse t = if decide (depth <= 4)%nat then Ok (MkProposal t cs) else Err TooDeep) /\
  (forall payload version cs, Forall is_byte payload ->
    decode_multi_send (safe t) payload version = Some cs <->
    exists entries, Forall entry_ok entries /\ payload = concat (pack <$> entries) /\
      cs = resolve (safe t) version <$> entries).
Proof using ML.
  split; [|intros; by apply decode_multi_send_exact].
  destruct (makes_total (safe t) (as_meta_transaction t)) as (depth & cs & Hm).
  exists depth, cs. split_and!; [done|intros; by eapply makes_unique|].
  unfold parse. rewrite (flatten_makes _ _ _ _ Hm). unfold within, MAX_BATCH_DEPTH. by case_decide.
Qed.

End Parser.
