(* ===== verification/Coverage.v ===== *)
(** What a check vouches for and how the sentinel's engine composes checks:
    [engine/coverage.rs], [engine/rule.rs] and [engine/mod.rs] of
    [crates/sentinel-engine], with the interface of a check ([checkers/mod.rs]).
    A check is a function of the proposal and its context; what it asks of a node
    or a service is a parameter of the check. *)

From Stdlib Require Import String Ascii.
From S2P Require Import Prelude Batches.

(** ** Aspects *)

(** [AspectSet], a byte of flags. *)
Abbreviation AspectSet := Z.
Definition TO : AspectSet := 1.
Definition VALUE : AspectSet := 2.
Definition DATA : AspectSet := 4.
Definition OPERATION : AspectSet := 8.
Definition all : AspectSet := 15.
Definition difference (a b : AspectSet) : AspectSet := Z.ldiff a b.
Definition aspects_contain (a b : AspectSet) : bool := bool_decide (Z.land a b = b).

(** [AspectSet::required_for]. *)
Definition required_aspects (call : MetaTransaction) : AspectSet :=
  let required := all in
  let required :=
    if bool_decide (m_value call = 0) || bool_decide (m_operation call = DelegateCall)
    then difference required VALUE else required in
  if decide (m_data call = []) then difference required DATA else required.

(** ** Coverage *)

Record Coverage := MkCoverage { cov_calls : list AspectSet; cov_refund : bool }.

(** [Coverage::none], [Coverage::calls] and [Coverage::refund]. *)
Definition cov_none (total_calls : nat) : Coverage := MkCoverage (replicate total_calls 0) false.
Definition cov_all_calls (total_calls : nat) (aspects : AspectSet) : Coverage :=
  MkCoverage (replicate total_calls aspects) false.
Definition cov_refund_only (total_calls : nat) : Coverage := MkCoverage (replicate total_calls 0) true.

(** [zip] stops at the shorter claim; their widths are asserted equal in debug
    builds only. *)
Definition cov_union (a b : Coverage) : Coverage :=
  MkCoverage (zip_with Z.lor (cov_calls a) (cov_calls b)) (cov_refund a || cov_refund b).
Definition contains (a required : Coverage) : bool :=
  forallb (fun '(have, req) => aspects_contain have req) (zip (cov_calls a) (cov_calls required)) &&
  (negb (cov_refund required) || cov_refund a).
Definition missing (a required : Coverage) : Coverage :=
  MkCoverage (zip_with (fun have req => difference req have) (cov_calls a) (cov_calls required))
    (cov_refund required && negb (cov_refund a)).
Definition required_for (p : Proposal) : Coverage :=
  MkCoverage (required_aspects <$> calls p) (negb (bool_decide (gas_price (transaction p) = 0))).

(** [Proposal::checked] and [Proposal::refund_checked]. *)
Definition checked (p : Proposal) (aspects : AspectSet) : Coverage := cov_all_calls (length (calls p)) aspects.
Definition refund_checked (p : Proposal) : Coverage := cov_refund_only (length (calls p)).

(** ** Rules *)

Inductive RuleId :=
| R4_1SettingsChange
| R4_2DelegatecallIntegrity
| R4_6KnownMaliciousTarget
| R4_5ExcessiveApproval
| R4_3ValueTarget
| R4_4AuthorizationTarget.

#[export] Instance RuleId_eq_dec : EqDecision RuleId.
Proof. solve_decision. Defined.

Definition code (r : RuleId) : string :=
  match r with
  | R4_1SettingsChange => "R-4.1"
  | R4_2DelegatecallIntegrity => "R-4.2"
  | R4_6KnownMaliciousTarget => "R-4.6"
  | R4_5ExcessiveApproval => "R-4.5"
  | R4_3ValueTarget => "R-4.3"
  | R4_4AuthorizationTarget => "R-4.4"
  end.
Definition from_code (c : string) : option RuleId :=
  List.find (fun rule => bool_decide (code rule = c))
    [R4_1SettingsChange; R4_2DelegatecallIntegrity; R4_6KnownMaliciousTarget; R4_5ExcessiveApproval;
     R4_3ValueTarget; R4_4AuthorizationTarget].

Lemma from_code_code r : from_code (code r) = Some r.
Proof. by destruct r. Qed.

(** ** Checks and verdicts *)

Module Assessment.
Inductive t :=
| Insecure (rule : RuleId)
| Secure (coverage : Coverage)
| Abstain.
End Assessment.

Module Verdict.
Inductive t :=
| Secure
| Insecure (rule : RuleId)
| Abstain.
End Verdict.

Inductive BlockLabel := LatestBlock | NumberedBlock (number : Z).
Record CheckContext := MkCheckContext { context_block : BlockLabel; proposal_timestamp : option Z }.

(** [Checker::check]. *)
Abbreviation Checker := (Proposal -> CheckContext -> Assessment.t).

(** The loop over the checks, with what they have covered so far. *)
Fixpoint run_checkers (checkers : list Checker) (p : Proposal) (context : CheckContext) (covered : Coverage)
    : Verdict.t + Coverage :=
  match checkers with
  | [] => inr covered
  | checker :: checkers =>
      match checker p context with
      | Assessment.Insecure rule => inl (Verdict.Insecure rule)
      | Assessment.Secure coverage => run_checkers checkers p context (cov_union covered coverage)
      | Assessment.Abstain => run_checkers checkers p context covered
      end
  end.

(** [SentinelEngine::security_check]. *)
Definition security_check `{MultiSendAbi} (checkers : list Checker) (t : SafeTransaction) (context : CheckContext)
    : Verdict.t :=
  match parse t with
  | Err _ => Verdict.Abstain
  | Ok p =>
      match run_checkers checkers p context (cov_none (length (calls p))) with
      | inl verdict => verdict
      | inr covered => if contains covered (required_for p) then Verdict.Secure else Verdict.Abstain
      end
  end.

(** ** What a verdict means *)

(** The aspects a call exercises, by their bits: where it goes and how, the value
    it moves, the data it carries. *)
Definition exercises (call : MetaTransaction) (bit : Z) : Prop :=
  bit = 0 \/ bit = 3 \/
  (bit = 1 /\ m_value call <> 0 /\ m_operation call <> DelegateCall) \/
  (bit = 2 /\ m_data call <> []).

Lemma testbit_small n bit : 0 <= n < 16 -> Z.testbit n bit = true -> bit = 0 \/ bit = 1 \/ bit = 2 \/ bit = 3.
Proof.
  intros Hn Hb. destruct (decide (bit < 0)); [by rewrite Z.testbit_neg_r in Hb|].
  destruct (decide (bit < 4)); [lia|]. exfalso.
  assert (n mod 2 ^ bit = n) as Hm by (apply Z.mod_small; assert (2 ^ 4 <= 2 ^ bit) by (apply Z.pow_le_mono_r; lia); lia).
  rewrite <- Hm, Z.mod_pow2_bits_high in Hb by lia. done.
Qed.

Lemma required_bits call bit : Z.testbit (required_aspects call) bit = true <-> exercises call bit.
Proof.
  unfold required_aspects, exercises.
  destruct (bool_decide (m_value call = 0)) eqn:Hv; [apply bool_decide_eq_true in Hv|apply bool_decide_eq_false in Hv];
  (destruct (bool_decide (m_operation call = DelegateCall)) eqn:Ho;
    [apply bool_decide_eq_true in Ho|apply bool_decide_eq_false in Ho]);
  cbn [orb]; case_decide as Hd;
  (split; [intros Hb; 
     match type of Hb with Z.testbit ?n _ = true => pose proof (testbit_small n bit ltac:(done) Hb) as Hc end;
     destruct Hc as [->|[->|[->| ->]]]; try discriminate Hb; tauto
   |intros [->|[->|[(-> & ? & ?)|(-> & ?)]]]; try done; tauto]).
Qed.

Lemma contain_bits a b : aspects_contain a b = true <-> forall bit, Z.testbit b bit = true -> Z.testbit a bit = true.
Proof.
  unfold aspects_contain. rewrite bool_decide_eq_true. split.
  - intros Hl bit Hb. rewrite <- Hl, Z.land_spec in Hb. by apply andb_true_iff in Hb as [? _].
  - intros Hb. apply Z.bits_inj. intros bit. rewrite Z.land_spec. specialize (Hb bit).
    destruct (Z.testbit b bit); [by rewrite Hb|by rewrite andb_false_r].
Qed.

(** A claim of the [i]th call's aspect. *)
Definition claims (c : Coverage) (i : nat) (bit : Z) : Prop :=
  exists a, cov_calls c !! i = Some a /\ Z.testbit a bit = true.

Lemma claims_union a b i bit : length (cov_calls a) = length (cov_calls b) ->
  claims (cov_union a b) i bit <-> claims a i bit \/ claims b i bit.
Proof.
  intros Hlen. unfold claims, cov_union. cbn [cov_calls]. setoid_rewrite lookup_zip_with_Some. split.
  - intros (? & (x & y & -> & Hx & Hy) & Hb). rewrite Z.lor_spec in Hb. apply orb_true_iff in Hb as [Hb|Hb]; eauto.
  - intros [(x & Hx & Hb)|(y & Hy & Hb)].
    + destruct (lookup_lt_is_Some_2 (cov_calls b) i) as [y Hy]; [apply lookup_lt_Some in Hx; lia|].
      exists (Z.lor x y). split; [eauto|]. by rewrite Z.lor_spec, Hb.
    + destruct (lookup_lt_is_Some_2 (cov_calls a) i) as [x Hx]; [apply lookup_lt_Some in Hy; lia|].
      exists (Z.lor x y). split; [eauto|]. by rewrite Z.lor_spec, Hb, orb_true_r.
Qed.

Lemma claims_none n i bit : ~ claims (cov_none n) i bit.
Proof.
  intros (a & Ha & Hb). apply lookup_replicate_1 in Ha as [-> _]. by rewrite Z.bits_0 in Hb.
Qed.

Lemma contains_required covered p : length (cov_calls covered) = length (calls p) ->
  contains covered (required_for p) = true <->
  (forall i call bit, calls p !! i = Some call -> exercises call bit -> claims covered i bit) /\
  (gas_price (transaction p) <> 0 -> cov_refund covered = true).
Proof.
  intros Hlen. unfold contains, required_for. cbn [cov_calls cov_refund]. rewrite andb_true_iff, forallb_forall.
  assert ((forall x : Z * Z, List.In x (zip (cov_calls covered) (required_aspects <$> calls p)) ->
      (let '(have, req) := x in aspects_contain have req) = true) <->
    forall i call bit, calls p !! i = Some call -> exercises call bit -> claims covered i bit) as ->.
  { split.
    - intros Hall i call bit Hi He. destruct (lookup_lt_is_Some_2 (cov_calls covered) i) as [a Ha];
        [apply lookup_lt_Some in Hi; lia|].
      exists a. split; [done|]. specialize (Hall (a, required_aspects call)).
      apply (contain_bits a (required_aspects call)); [|by apply required_bits]. apply Hall.
      apply list_elem_of_In, list_elem_of_lookup. exists i. rewrite lookup_zip_with, Ha, list_lookup_fmap, Hi. done.
    - intros Hall [a r] Hin%list_elem_of_In%list_elem_of_lookup. destruct Hin as [i Hi].
      apply lookup_zip_with_Some in Hi as (x & y & Heq & Ha & Hr). simplify_eq.
      rewrite list_lookup_fmap in Hr. destruct (calls p !! i) as [call|] eqn:Ec; [|done]. simplify_eq/=.
      apply contain_bits. intros bit Hb%required_bits. destruct (Hall i call bit Ec Hb) as (a' & Ha' & Hbit).
      by simplify_eq. }
  apply and_iff_compat_l. destruct (bool_decide (gas_price (transaction p) = 0)) eqn:Hg; cbn [negb orb].
  - apply bool_decide_eq_true in Hg. tauto.
  - apply bool_decide_eq_false in Hg. destruct (cov_refund covered); tauto.
Qed.

Section Composition.
Context {MS : MultiSendAbi} (context : CheckContext).

(** A check claims something about every call of the proposal. *)
Definition sized (p : Proposal) (checker : Checker) : Prop :=
  forall c, checker p context = Assessment.Secure c -> length (cov_calls c) = length (calls p).

Definition denies (p : Proposal) (checker : Checker) (rule : RuleId) : Prop :=
  checker p context = Assessment.Insecure rule.

(** Somebody vouches for an aspect of a call, and for the refund. *)
Definition vouched (checkers : list Checker) (p : Proposal) (i : nat) (bit : Z) : Prop :=
  exists checker c, checker ∈ checkers /\ checker p context = Assessment.Secure c /\ claims c i bit.
Definition refund_vouched (checkers : list Checker) (p : Proposal) : Prop :=
  exists checker c, checker ∈ checkers /\ checker p context = Assessment.Secure c /\ cov_refund c = true.

(** Every aspect every call exercises is vouched for, and the refund if one is paid. *)
Definition fully_vouched (checkers : list Checker) (p : Proposal) : Prop :=
  (forall i call bit, calls p !! i = Some call -> exercises call bit -> vouched checkers p i bit) /\
  (gas_price (transaction p) <> 0 -> refund_vouched checkers p).

Lemma vouched_cons checker checkers p i bit :
  vouched (checker :: checkers) p i bit <->
  (exists c, checker p context = Assessment.Secure c /\ claims c i bit) \/ vouched checkers p i bit.
Proof.
  unfold vouched. setoid_rewrite elem_of_cons. split.
  - intros (ch & c & [->|Hin] & Hc & Hcl); [left; eauto|right; eauto 6].
  - intros [(c & Hc & Hcl)|(ch & c & Hin & Hc & Hcl)]; eauto 6.
Qed.

Lemma refund_vouched_cons checker checkers p :
  refund_vouched (checker :: checkers) p <->
  (exists c, checker p context = Assessment.Secure c /\ cov_refund c = true) \/ refund_vouched checkers p.
Proof.
  unfold refund_vouched. setoid_rewrite elem_of_cons. split.
  - intros (ch & c & [->|Hin] & Hc & Hcl); [left; eauto|right; eauto 6].
  - intros [(c & Hc & Hcl)|(ch & c & Hin & Hc & Hcl)]; eauto 6.
Qed.

(** The run over the checks: the first denial, or all that was claimed. *)
Lemma run_checkers_spec checkers p covered : Forall (sized p) checkers ->
  length (cov_calls covered) = length (calls p) ->
  match run_checkers checkers p context covered with
  | inl verdict => exists rule before checker after, verdict = Verdict.Insecure rule /\
      checkers = before ++ checker :: after /\ denies p checker rule /\
      Forall (fun c => forall r, ~ denies p c r) before
  | inr total => Forall (fun c => forall r, ~ denies p c r) checkers /\
      length (cov_calls total) = length (calls p) /\
      (forall i bit, claims total i bit <-> claims covered i bit \/ vouched checkers p i bit) /\
      (cov_refund total = true <-> cov_refund covered = true \/ refund_vouched checkers p)
  end.
Proof.
  revert covered. induction checkers as [|checker checkers IH]; intros covered Hs Hlen; cbn [run_checkers].
  - unfold vouched, refund_vouched. split_and!; [constructor|done|..].
    + intros i bit. split; [by left|]. intros [?|(? & ? & Hin & _)]; [done|]. by apply elem_of_nil in Hin.
    + split; [by left|]. intros [?|(? & ? & Hin & _)]; [done|]. by apply elem_of_nil in Hin.
  - apply Forall_cons in Hs as [Hc Hs]. destruct (checker p context) as [rule|c|] eqn:Ec.
    + exists rule, [], checker, checkers. split_and!; [done|done|done|constructor].
    + assert (length (cov_calls (cov_union covered c)) = length (calls p)) as Hu
        by (unfold cov_union; cbn [cov_calls]; rewrite length_zip_with, (Hc c Ec); lia).
      specialize (IH (cov_union covered c) Hs Hu). destruct (run_checkers _ _ _ _) as [v|total].
      * destruct IH as (rule & before & ch & after & -> & -> & Hd & Hb).
        exists rule, (checker :: before), ch, after. split_and!; [done|done|done|]. constructor; [|done].
        unfold denies. by rewrite Ec.
      * destruct IH as (Hd & Hl & Hcl & Hr). split_and!; [|done|..].
        -- constructor; [|done]. unfold denies. by rewrite Ec.
        -- intros i bit. rewrite Hcl, claims_union, vouched_cons, Ec by (by rewrite Hlen, (Hc c Ec)).
           assert ((exists c0, Assessment.Secure c = Assessment.Secure c0 /\ claims c0 i bit) <-> claims c i bit) as ->
             by (split; [by intros (? & [= <-] & ?)|eauto]). tauto.
        -- rewrite Hr, refund_vouched_cons, Ec. cbn [cov_union cov_refund]. rewrite orb_true_iff.
           assert ((exists c0, Assessment.Secure c = Assessment.Secure c0 /\ cov_refund c0 = true) <-> cov_refund c = true) as ->
             by (split; [by intros (? & [= <-] & ?)|eauto]). tauto.
    + specialize (IH covered Hs Hlen). destruct (run_checkers _ _ _ _) as [v|total].
      * destruct IH as (rule & before & ch & after & -> & -> & Hd & Hb).
        exists rule, (checker :: before), ch, after. split_and!; [done|done|done|]. constructor; [|done].
        unfold denies. by rewrite Ec.
      * destruct IH as (Hd & Hl & Hcl & Hr). split_and!; [|done|..].
        -- constructor; [|done]. unfold denies. by rewrite Ec.
        -- intros i bit. rewrite Hcl, vouched_cons, Ec. naive_solver.
        -- rewrite Hr, refund_vouched_cons, Ec. naive_solver.
Qed.

Lemma secure_vouched checkers t : (forall p, Forall (sized p) checkers) ->
  security_check checkers t context = Verdict.Secure <->
  exists p, parse t = Ok p /\ Forall (fun c => forall r, ~ denies p c r) checkers /\ fully_vouched checkers p.
Proof.
  intros Hs. unfold security_check. destruct (parse t) as [p|e]; [|split; [done|by intros (? & ? & _)]].
  pose proof (run_checkers_spec checkers p (cov_none (length (calls p))) (Hs p) (length_replicate _ _)) as Hr.
  destruct (run_checkers _ _ _ _) as [v|total].
  - destruct Hr as (rule & before & ch & after & -> & -> & Hd & _). split; [done|].
    intros (p' & [= <-] & Hall & _). apply Forall_app in Hall as [_ Hall]. apply Forall_cons in Hall as [Hall _].
    by destruct (Hall rule).
  - destruct Hr as (Hd & Hl & Hcl & Hrf). pose proof (contains_required total p Hl) as Hcr.
    assert (contains total (required_for p) = true <-> fully_vouched checkers p) as Hv.
    { rewrite Hcr. unfold fully_vouched. setoid_rewrite Hcl. rewrite Hrf. cbn [cov_none cov_refund]. split.
      - intros [H1 H2]. split; [intros; destruct (H1 i call bit) as [Hn|]; try done; by apply claims_none in Hn|naive_solver].
      - intros [H1 H2]. split; [eauto|naive_solver]. }
    destruct (contains total (required_for p)).
    + split; [|done]. intros _. exists p. split_and!; [done|done|by apply Hv].
    + split; [done|]. intros (p' & [= <-] & _ & Hf). by apply Hv in Hf.
Qed.

Lemma insecure_denied checkers t rule : (forall p, Forall (sized p) checkers) ->
  security_check checkers t context = Verdict.Insecure rule <->
  exists p before checker after, parse t = Ok p /\ checkers = before ++ checker :: after /\
    denies p checker rule /\ Forall (fun c => forall r, ~ denies p c r) before.
Proof.
  intros Hs. unfold security_check. destruct (parse t) as [p|e]; [|split; [done|by intros (? & ? & ? & ? & ? & _)]].
  pose proof (run_checkers_spec checkers p (cov_none (length (calls p))) (Hs p) (length_replicate _ _)) as Hr.
  destruct (run_checkers _ _ _ _) as [v|total].
  - destruct Hr as (rule' & before & ch & after & -> & -> & Hd & Hb). split.
    + intros [= <-]. by exists p, before, ch, after.
    + intros (p' & before' & ch' & after' & [= <-] & Heq & Hd' & Hb'). f_equal.
      assert (before = before') as <-.
      { clear Hs. revert before' Heq Hb'. induction before as [|x before IHb]; intros [|y before'] Heq Hb'; simplify_eq/=; [done|..].
        - apply Forall_cons in Hb' as [Hy _]. by destruct (Hy rule').
        - apply Forall_cons in Hb as [Hx _]. by destruct (Hx rule).
        - apply Forall_cons in Hb as [_ Hb]. apply Forall_cons in Hb' as [_ Hb']. f_equal. by apply IHb. }
      simplify_eq/=. unfold denies in *. congruence.
  - destruct Hr as (Hd & _). split; [by destruct (contains _ _)|].
    intros (p' & before' & ch' & after' & [= <-] & -> & Hd' & _).
    apply Forall_app in Hd as [_ Hd]. apply Forall_cons in Hd as [Hd _]. by destruct (Hd rule).
Qed.

(** Some check denies. *)
Lemma insecure_exists checkers t : (forall p, Forall (sized p) checkers) ->
  (exists r, security_check checkers t context = Verdict.Insecure r) <->
  exists p checker r, parse t = Ok p /\ checker ∈ checkers /\ denies p checker r.
Proof.
  intros Hs. split.
  - intros (r & Hr). apply insecure_denied in Hr as (p & b & ch & a & Hpp & -> & Hd & _); [|done].
    exists p, ch, r. split_and!; [done|set_solver|done].
  - intros (p & ch & r & Hpp & Hin & Hd). unfold security_check. rewrite Hpp.
    pose proof (run_checkers_spec checkers p (cov_none (length (calls p))) (Hs p) (length_replicate _ _)) as Hr.
    destruct (run_checkers _ _ _ _) as [v|total]; [destruct Hr as (r' & ? & ? & ? & -> & _); by exists r'|].
    destruct Hr as (Hall & _). rewrite Forall_forall in Hall. by destruct (Hall ch Hin r).
Qed.

Lemma fully_vouched_mono checkers checkers' p :
  (forall c, c ∈ checkers -> c ∈ checkers') -> fully_vouched checkers p -> fully_vouched checkers' p.
Proof.
  intros Hin [Hv Hr]. split.
  - intros i call bit Hi He. destruct (Hv i call bit Hi He) as (ch & c & Hch & Hc). exists ch, c. by split; [apply Hin|].
  - intros Hg. destruct (Hr Hg) as (ch & c & Hch & Hc). exists ch, c. by split; [apply Hin|].
Qed.

Lemma secure_mono checkers checkers' t : (forall p, Forall (sized p) checkers) -> checkers' ≡ₚ checkers ->
  security_check checkers t context = Verdict.Secure -> security_check checkers' t context = Verdict.Secure.
Proof.
  intros Hs Hp (p & Hpp & Hd & Hv)%secure_vouched; [|done]. apply secure_vouched.
  - intros q. by rewrite Hp.
  - exists p. split_and!; [done|by rewrite Hp|]. eapply fully_vouched_mono; [|exact Hv]. intros c. by rewrite Hp.
Qed.

(** C34: the engine's verdict is the sum of its checks. It denies exactly with the
    first denial of the chain; it is secure exactly when no check denies and, call
    by call, each aspect the call exercises is vouched for by some check, and so is
    the refund if one is paid; and the order of the checks decides only which of
    several denials is cited. *)
Theorem verdict_composition checkers t : (forall p, Forall (sized p) checkers) ->
  (security_check checkers t context = Verdict.Secure <->
    exists p, parse t = Ok p /\ Forall (fun c => forall r, ~ denies p c r) checkers /\ fully_vouched checkers p) /\
  (forall rule, security_check checkers t context = Verdict.Insecure rule <->
    exists p before checker after, parse t = Ok p /\ checkers = before ++ checker :: after /\
      denies p checker rule /\ Forall (fun c => forall r, ~ denies p c r) before) /\
  (forall checkers', checkers' ≡ₚ checkers ->
    (security_check checkers' t context = Verdict.Secure <-> security_check checkers t context = Verdict.Secure) /\
    (security_check checkers' t context = Verdict.Abstain <-> security_check checkers t context = Verdict.Abstain)).
Proof.
  intros Hs. split; [by apply secure_vouched|]. split; [intros; by apply insecure_denied|]. intros checkers' Hp.
  assert (forall p, Forall (sized p) checkers') as Hs' by (intros p; by rewrite Hp).
  assert (security_check checkers' t context = Verdict.Secure <-> security_check checkers t context = Verdict.Secure) as Hsec
    by (split; by apply secure_mono).
  split; [done|].
  assert ((exists r, security_check checkers' t context = Verdict.Insecure r) <->
          (exists r, security_check checkers t context = Verdict.Insecure r)) as Hins.
  { rewrite !insecure_exists by done. split; intros (p & ch & r & Hpp & Hin & Hd); exists p, ch, r; by rewrite Hp in *. }
  destruct (security_check checkers' t context), (security_check checkers t context); naive_solver.
Qed.

End Composition.
