(* ===== verification/Checks.v ===== *)
(** The local checks of the sentinel's engine, [crates/sentinel-engine/src/checkers]:
    cancellations, the escape hatch, the base guarantees, the blocklist, nested
    Safes, excessive approvals and staking; with the decoding of a call's effects
    ([contracts/target_effects.rs]). *)

From Stdlib Require Import String.
From S2P Require Import Prelude Keccak Batches Coverage.

(** ** Calldata

    The decoders of the [sol!] macro: the arguments of a call, none when the
    calldata is not one. *)

(** The TWAP handler's order. *)
Record TwapData := MkTwapData {
  twap_sellToken : Z; twap_buyToken : Z; twap_receiver : Z; twap_partSellAmount : Z; twap_minPartLimit : Z;
  twap_t0 : Z; twap_n : Z; twap_t : Z; twap_span : Z; twap_appData : Z
}.

(** A [createWithContext] call: the parameters of its order, the factory and the rest. *)
Record CreateWithContext := MkCreateWithContext {
  cc_handler : Z; cc_salt : Z; cc_staticInput : bytes; cc_factory : Z; cc_data : bytes; cc_dispatch : bool
}.

Class CallAbi := {
  transferCall : bytes -> option (Z * Z);
  transferFromCall : bytes -> option (Z * Z * Z);
  approveCall : bytes -> option (Z * Z);
  setApprovalForAllCall : bytes -> option (Z * bool);
  safeTransferFrom_0Call : bytes -> option (Z * Z * Z);
  safeTransferFrom_1Call : bytes -> option (Z * Z * Z * bytes);
  erc1155_safeTransferFromCall : bytes -> option (Z * Z * Z * Z * bytes);
  safeBatchTransferFromCall : bytes -> option (Z * Z * list Z * list Z * bytes);
  setFallbackHandlerCall : bytes -> option Z;
  setGuardCall : bytes -> option Z;
  enableModuleCall : bytes -> option Z;
  setModuleGuardCall : bytes -> option Z;
  execTransactionCall : bytes -> option unit;
  stakeCall : bytes -> option (Z * Z);
  claimCall : bytes -> option Z;
  setPreSignatureCall : bytes -> option (bytes * bool);
  createWithContextCall : bytes -> option CreateWithContext;
  twap_data : bytes -> option TwapData;
  encode_transfer : Z -> Z -> bytes
}.

(** [<[u8]>::starts_with]. *)
Definition starts_with (data prefix : bytes) : bool := bool_decide (take (length prefix) data = prefix).

(** ** Effects of a call *)

Inductive EffectKind :=
| ValueTransfer (amount : Z)
| Erc20Approval (amount : Z)
| OperatorApproval (approved : bool)
| Erc721Transfer (token_id : Z)
| Erc1155Transfer (id amount : Z)
| Erc1155BatchTransfer (ids amounts : list Z).
Record TargetEffect := MkTargetEffect { recipient : Z; kind : EffectKind }.

Section Checks.
Context {KEC : Keccak} {AB : CallAbi}.

(** The token effect of calldata: the first call it decodes as. *)
Definition decode_token_effect (data : bytes) : list TargetEffect :=
  if transferCall data is Some (to, amount) then [MkTargetEffect to (ValueTransfer amount)]
  else if transferFromCall data is Some (_, to, amount) then [MkTargetEffect to (ValueTransfer amount)]
  else if approveCall data is Some (spender, amount) then [MkTargetEffect spender (Erc20Approval amount)]
  else if setApprovalForAllCall data is Some (operator, approved)
    then [MkTargetEffect operator (OperatorApproval approved)]
  else if safeTransferFrom_0Call data is Some (_, to, tokenId) then [MkTargetEffect to (Erc721Transfer tokenId)]
  else if safeTransferFrom_1Call data is Some (_, to, tokenId, _) then [MkTargetEffect to (Erc721Transfer tokenId)]
  else if erc1155_safeTransferFromCall data is Some (_, to, id, amount, _)
    then [MkTargetEffect to (Erc1155Transfer id amount)]
  else if safeBatchTransferFromCall data is Some (_, to, ids, amounts, _)
    then [MkTargetEffect to (Erc1155BatchTransfer ids amounts)]
  else [].

Definition decode_target_effects (call : MetaTransaction) : list TargetEffect :=
  let effects :=
    if decide (m_value call = 0) then [] else [MkTargetEffect (m_to call) (ValueTransfer (m_value call))] in
  if decide (m_data call = []) then effects else effects ++ decode_token_effect (m_data call).

(** ** Cancellation *)

Definition cancellation_check (p : Proposal) (context : CheckContext) : Assessment.t :=
  let t := transaction p in
  let cancellation := MkSafeTransaction (chain_id t) (safe t) (safe t) 0 [] Call 0 0 0 0 0 (nonce t) in
  if decide (t = cancellation) then Assessment.Secure (cov_union (checked p all) (refund_checked p))
  else Assessment.Abstain.

(** ** Escape hatch *)

Definition announceTransaction : string :=
  "announceTransaction((address,uint256,bytes,uint8,uint256,uint256,uint256,address,address))".
Definition cancelAnnouncement : string := "cancelAnnouncement(bytes32)".

Definition is_escape_hatch_call (call : MetaTransaction) : bool :=
  if bool_decide (m_operation call ≠ Call) || negb (bool_decide (m_value call = 0)) then false
  else starts_with (m_data call) (selector announceTransaction) ||
    starts_with (m_data call) (selector cancelAnnouncement).

Definition escape_hatch_check (p : Proposal) (context : CheckContext) : Assessment.t :=
  if forallb is_escape_hatch_call (calls p) then Assessment.Secure (checked p all) else Assessment.Abstain.

(** ** Base guarantees *)

Definition SUPPORTED_FALLBACK_HANDLERS : list Z := [
  0;
  0x85a8ca358D388530ad0fB95D0cb89Dd44Fc242c3;
  0x2f55e8b20D0B9FEFA187AA7d00B6Cbe563605bF5;
  0x3EfCBb83A4A7AfcB4F68D501E2c2203a38be77f4;
  0xfd0732Dc9E303f09fCEf3a7388Ad10A83459Ec99;
  0xf48f2B2d2a534e402487b3ee7C18c33Aec0Fe5e4;
  0x017062a1dE2FE6b99BE3d9d37841FeD19F573804].
Definition SUPPORTED_GUARDS : list Z := [0].
Definition SUPPORTED_MODULES : list Z := [
  0x691f59471Bfd2B7d639DCF74671a2d648ED1E331;
  0x4Aa5Bf7D840aC607cb5BD3249e6Af6FC86C04897].
Definition SUPPORTED_MODULE_GUARDS : list Z := [0].

(** A call decoded with an argument among those allowed. *)
Definition decoded_in (decoded : option Z) (allowed : list Z) : bool :=
  match decoded with Some a => bool_decide (a ∈ allowed) | None => false end.

Definition check_self_calls (call : MetaTransaction) : bool :=
  let d := m_data call in
  if starts_with d (selector "addOwnerWithThreshold(address,uint256)") then true
  else if starts_with d (selector "removeOwner(address,address,uint256)") then true
  else if starts_with d (selector "swapOwner(address,address,address)") then true
  else if starts_with d (selector "changeThreshold(uint256)") then true
  else if starts_with d (selector "disableModule(address,address)") then true
  else if starts_with d (selector "setFallbackHandler(address)") then
    decoded_in (setFallbackHandlerCall d) SUPPORTED_FALLBACK_HANDLERS
  else if starts_with d (selector "setGuard(address)") then decoded_in (setGuardCall d) SUPPORTED_GUARDS
  else if starts_with d (selector "enableModule(address)") then decoded_in (enableModuleCall d) SUPPORTED_MODULES
  else if starts_with d (selector "setModuleGuard(address)") then
    decoded_in (setModuleGuardCall d) SUPPORTED_MODULE_GUARDS
  else false.

Definition check_calls (safe : Z) (call : MetaTransaction) : bool :=
  if decide (m_operation call ≠ Call) then false
  else if decide (safe ≠ m_to call) then true
  else if decide (m_data call = []) then true
  else check_self_calls call.

Definition MIGRATION_CONTRACTS : list Z := [
  0x6439e7ABD8Bb915A5263094784C5CF561c4172AC;
  0x526643F69b81B008F46d95CD5ced5eC0edFFDaC6].
Definition SIGN_MESSAGE_LIBS : list Z := [
  0xA65387F16B013cf2Af4605Ad8aA5ec25a2cbA3a2;
  0x98FFBBF51bb33A056B08ddf711f289936AafF717;
  0xd53cd0aB83D845Ac265BE939c57F53AD838012c9;
  0x4FfeF8222648872B3dE295Ba1e49110E61f5b5aa].
Definition CREATE_CALL_CONTRACTS : list Z := [
  0x7cbB62EaA69F79e6873cD1ecB2392971036cFAa4;
  0xB19D6FFc2182150F8Eb585b79D4ABcd7C5640A9d;
  0x9b35Af71d77eaf8d7e40252370304687390A1A52;
  0x2Ef5ECfbea521449E4De05EDB1ce63B75eDA90B4].

Definition check_delegate_calls (call : MetaTransaction) : bool :=
  let d := m_data call in
  if decide (m_operation call ≠ DelegateCall) then false
  else if decide (m_to call ∈ MIGRATION_CONTRACTS) then
    starts_with d (selector "migrateSingleton()") || starts_with d (selector "migrateWithFallbackHandler()") ||
    starts_with d (selector "migrateL2Singleton()") || starts_with d (selector "migrateL2WithFallbackHandler()")
  else if decide (m_to call ∈ SIGN_MESSAGE_LIBS) then starts_with d (selector "signMessage(bytes)")
  else if decide (m_to call ∈ CREATE_CALL_CONTRACTS) then
    starts_with d (selector "performCreate(uint256,bytes)") ||
    starts_with d (selector "performCreate2(uint256,bytes,bytes32)")
  else false.

(** None when the guarantee does not apply; otherwise whether it holds. *)
Definition check_settings_change (safe : Z) (call : MetaTransaction) : option (result RuleId unit) :=
  if decide (m_operation call ≠ Call) then None
  else Some (if check_calls safe call then Ok () else Err R4_1SettingsChange).
Definition check_delegatecall_integrity (call : MetaTransaction) : option (result RuleId unit) :=
  if decide (m_operation call ≠ DelegateCall) then None
  else Some (if check_delegate_calls call then Ok () else Err R4_2DelegatecallIntegrity).

Definition check_call (safe : Z) (call : MetaTransaction) : result RuleId unit :=
  default (Err R4_1SettingsChange)
    (match check_settings_change safe call with
     | Some r => Some r
     | None => check_delegatecall_integrity call
     end).

(** [try_for_each]. *)
Fixpoint check_all_calls (safe : Z) (cs : list MetaTransaction) : result RuleId unit :=
  match cs with
  | [] => Ok ()
  | call :: cs => _ ← check_call safe call; check_all_calls safe cs
  end.

Definition base_check (p : Proposal) (context : CheckContext) : Assessment.t :=
  match check_all_calls (safe (transaction p)) (calls p) with
  | Ok _ => Assessment.Secure (checked p (Z.lor TO OPERATION))
  | Err rule => Assessment.Insecure rule
  end.

(** ** Blocklist *)

Definition any_call_blocklisted (blocklist : gset Z) (cs : list MetaTransaction) : bool :=
  existsb (fun call => bool_decide (m_to call ∈ blocklist)) cs.
Definition blocklist_check (blocklist : gset Z) (p : Proposal) (context : CheckContext) : Assessment.t :=
  if any_call_blocklisted blocklist (calls p) then Assessment.Insecure R4_6KnownMaliciousTarget
  else Assessment.Abstain.

(** ** Nested Safes *)

Definition execTransaction : string :=
  "execTransaction(address,uint256,bytes,uint8,uint256,uint256,uint256,address,address,bytes)".
Definition is_nested_exec_transaction (safe_address : Z) (call : MetaTransaction) : bool :=
  bool_decide (m_operation call = Call) && negb (bool_decide (m_to call = safe_address)) &&
  starts_with (m_data call) (selector execTransaction) &&
  match execTransactionCall (m_data call) with Some _ => true | None => false end.
Definition nested_check (p : Proposal) (context : CheckContext) : Assessment.t :=
  if forallb (is_nested_exec_transaction (safe (transaction p))) (calls p)
  then Assessment.Secure (checked p (Z.lor (Z.lor TO DATA) OPERATION)) else Assessment.Abstain.

(** ** Excessive approvals *)

Definition u256_max : Z := 2 ^ 256 - 1.
Definition is_unlimited (effect : TargetEffect) : bool :=
  match kind effect with
  | Erc20Approval amount => bool_decide (amount = u256_max)
  | OperatorApproval approved => approved
  | _ => false
  end.
Definition excessive_approval_check (p : Proposal) (context : CheckContext) : Assessment.t :=
  if existsb (fun call => existsb is_unlimited (decode_target_effects call)) (calls p)
  then Assessment.Insecure R4_5ExcessiveApproval else Assessment.Abstain.

(** ** Staking *)

Definition STAKING : Z := 0x115E78f160e1E3eF163B05C84562Fa16fA338509.
Definition SAFE_TOKEN : Z := 0x5aFE3855358E112B5647B952709E6165e1c1eEEe.
Definition REWARDS_DISTRIBUTOR : Z := 0xe5139fc0fb8eae81e30d8a85c22e88c6757120f2.
Definition SUPPORTED_CHAIN_ID : Z := 1.

(** A plain call without value to [target]. *)
Definition plain_call_to (call : MetaTransaction) (target : Z) : bool :=
  negb (negb (bool_decide (m_operation call = Call)) || negb (bool_decide (m_value call = 0)) ||
        negb (bool_decide (m_to call = target))).

Definition claim_account (call : MetaTransaction) : option Z :=
  if plain_call_to call REWARDS_DISTRIBUTOR then claimCall (m_data call) else None.
Definition staking_approval_amount (call : MetaTransaction) : option Z :=
  if plain_call_to call SAFE_TOKEN then
    '(spender, amount) ← approveCall (m_data call);
    if decide (spender = STAKING) then Some amount else None
  else None.
Definition stake_amount (call : MetaTransaction) : option Z :=
  if plain_call_to call STAKING then snd <$> stakeCall (m_data call) else None.

Definition check_lone_call (total_calls : nat) (call : MetaTransaction) : Assessment.t :=
  match stake_amount call with
  | Some _ => Assessment.Secure (cov_all_calls total_calls DATA)
  | None => Assessment.Abstain
  end.
Definition check_pair (total_calls : nat) (first second : MetaTransaction) : Assessment.t :=
  match staking_approval_amount first, stake_amount second with
  | Some approved, Some staked =>
      if decide (staked < approved) then Assessment.Insecure R4_5ExcessiveApproval
      else Assessment.Secure (cov_all_calls total_calls DATA)
  | _, _ => Assessment.Abstain
  end.

(** The loop over the calls: a denial, or the calls that are no claims and whether
    one was. *)
Fixpoint set_aside_claims (safe : Z) (cs : list MetaTransaction)
    : result RuleId (list MetaTransaction * bool) :=
  match cs with
  | [] => Ok ([], false)
  | call :: cs =>
      match claim_account call with
      | Some account =>
          if decide (account ≠ safe) then Err R4_3ValueTarget
          else (fun r => (r.1, true)) <$> set_aside_claims safe cs
      | None => (fun r => (call :: r.1, r.2)) <$> set_aside_claims safe cs
      end
  end.

Definition staking_check (p : Proposal) (context : CheckContext) : Assessment.t :=
  let t := transaction p in
  if decide (chain_id t ≠ SUPPORTED_CHAIN_ID) then Assessment.Abstain
  else
    match set_aside_claims (safe t) (calls p) with
    | Err rule => Assessment.Insecure rule
    | Ok (remaining, claimed) =>
        let total_calls := length (calls p) in
        match remaining with
        | [] => if claimed then Assessment.Secure (cov_all_calls total_calls DATA) else Assessment.Abstain
        | [call] => check_lone_call total_calls call
        | [first; second] => check_pair total_calls first second
        | _ => Assessment.Abstain
        end
    end.
End Checks.
