(* ===== verification/Cow.v ===== *)
(** The check of CoW Swap orders, [crates/sentinel-engine/src/checkers/cow.rs]. The
    service that serves orders and the EIP-712 hash of an order are parameters. *)

From Stdlib Require Import String.
From S2P Require Import Prelude Keccak Batches Coverage Checks.

Definition GP_V2_VAULT_RELAYER : Z := 0xC92E8bdf79f0507f65a392b0ab4667716BFE0110.
Definition GP_V2_SETTLEMENT : Z := 0x9008D19f58AAbD9eD0D60971565AA8510560ab41.
Definition COMPOSABLE_COW : Z := 0xfdaFc9d1902f4e0b84f65F49f244b32b31013b74.
Definition TWAP_HANDLER : Z := 0x6cF1e9cA41f7611dEf408122793c358a3d11E5a5.
Definition CURRENT_BLOCK_TIMESTAMP_FACTORY : Z := 0x52eD56Da04309Aca4c3FECC595298d80C2f16BAc.
Definition SUPPORTED_CHAIN_IDS : list Z := [1; 42161; 100].

Definition order_api_base_url (chain_id : Z) : option string :=
  if decide (chain_id = 1) then Some "https://api.cow.fi/mainnet"%string
  else if decide (chain_id = 100) then Some "https://api.cow.fi/xdai"%string
  else if decide (chain_id = 42161) then Some "https://api.cow.fi/arbitrum_one"%string
  else None.

(** [CowOrder], and the EIP-712 [Order] made of it. *)
Record CowOrder := MkCowOrder {
  owner : Z; receiver_field : option Z; sell_token : Z; buy_token : Z; sell_amount : Z; buy_amount : Z;
  valid_to : Z; app_data : Z; fee_amount : Z; order_kind : string; partially_fillable : bool;
  sell_token_balance : string; buy_token_balance : string
}.
Record Order := MkOrder {
  o_sellToken : Z; o_buyToken : Z; o_receiver : Z; o_sellAmount : Z; o_buyAmount : Z; o_validTo : Z;
  o_appData : Z; o_feeAmount : Z; o_kind : string; o_partiallyFillable : bool; o_sellTokenBalance : string;
  o_buyTokenBalance : string
}.

(** [CowOrder::receiver]: the owner when unset or zero. *)
Definition receiver (o : CowOrder) : Z :=
  match receiver_field o with
  | Some r => if decide (r = 0) then owner o else r
  | None => owner o
  end.

Class OrderHash := { order_signing_hash (chain_id verifying_contract : Z) (o : Order) : Z }.

(** [OrderApi::fetch_order]: none for any failure. *)
Class OrderApi := { fetch_order : string -> bytes -> option CowOrder }.

Section Cow.
Context {AB : CallAbi} {OH : OrderHash} {OA : OrderApi}.

Definition compute_order_uid (chain_id : Z) (o : CowOrder) : bytes :=
  be_bytes 32 (order_signing_hash chain_id GP_V2_SETTLEMENT
    (MkOrder (sell_token o) (buy_token o) (default 0 (receiver_field o)) (sell_amount o) (buy_amount o) (valid_to o)
       (app_data o) (fee_amount o) (order_kind o) (partially_fillable o) (sell_token_balance o)
       (buy_token_balance o))) ++
  be_bytes 20 (owner o) ++ be_bytes 4 (valid_to o).

(** ** Recognition *)

Definition vault_relayer_approval_amount (call : MetaTransaction) : option (Z * Z) :=
  if decide (m_operation call ≠ Call \/ m_value call ≠ 0) then None
  else
    '(spender, amount) ← approveCall (m_data call);
    if decide (spender = GP_V2_VAULT_RELAYER) then Some (m_to call, amount) else None.

Definition approves_vault_relayer (call : MetaTransaction) : bool :=
  match vault_relayer_approval_amount call with Some _ => true | None => false end.

Definition is_presignature (call : MetaTransaction) : bool :=
  plain_call_to call GP_V2_SETTLEMENT &&
  match setPreSignatureCall (m_data call) with Some _ => true | None => false end.

Definition is_twap_create (call : MetaTransaction) : bool :=
  plain_call_to call COMPOSABLE_COW &&
  match createWithContextCall (m_data call) with
  | Some c => bool_decide (cc_handler c = TWAP_HANDLER) && bool_decide (cc_factory c = CURRENT_BLOCK_TIMESTAMP_FACTORY)
  | None => false
  end.

Definition checked_mul_u256 (a b : Z) : option Z := if decide (a * b <= u256_max) then Some (a * b) else None.

Definition twap_order_terms (call : MetaTransaction) : option (Z * Z * Z * Z) :=
  if plain_call_to call COMPOSABLE_COW then
    create ← createWithContextCall (m_data call);
    if decide (cc_handler create ≠ TWAP_HANDLER \/ cc_factory create ≠ CURRENT_BLOCK_TIMESTAMP_FACTORY) then None
    else
      order ← twap_data (cc_staticInput create);
      total ← checked_mul_u256 (twap_partSellAmount order) (twap_n order);
      Some (twap_sellToken order, twap_receiver order, total, twap_n order)
  else None.

Definition decode_approval_and_twap (approval_candidate twap_candidate : MetaTransaction)
    : option (Z * Z * Z * Z * Z * Z) :=
  '(approved_token, approved_amount) ← vault_relayer_approval_amount approval_candidate;
  '(sell_token, receiver, total_sell_amount, n) ← twap_order_terms twap_candidate;
  Some (approved_token, approved_amount, sell_token, receiver, total_sell_amount, n).

Definition max_approval_for_twap_total (total_sell_amount n : Z) : Z :=
  Z.min u256_max (total_sell_amount + Z.max 0 (n - 1)).

Definition presignature_order_uid (call : MetaTransaction) : option bytes :=
  if plain_call_to call GP_V2_SETTLEMENT then
    '(orderUid, signed) ← setPreSignatureCall (m_data call);
    if (signed : bool) then Some orderUid else None
  else None.

Definition decode_approval_and_presignature (approval presignature : MetaTransaction) : option (Z * Z * bytes) :=
  '(token, approved_amount) ← vault_relayer_approval_amount approval;
  order_uid ← presignature_order_uid presignature;
  Some (token, approved_amount, order_uid).

(** [Option::or_else]. *)
Definition or_else {A} (a b : option A) : option A := match a with Some _ => a | None => b end.

(** ** The check *)

Definition check_presignature_batch (safe chain_id : Z) (cs : list MetaTransaction) : Assessment.t :=
  match order_api_base_url chain_id, cs with
  | Some base_url, [first; second] =>
      match or_else (decode_approval_and_presignature first second)
              (decode_approval_and_presignature second first) with
      | None => Assessment.Abstain
      | Some (token, approved_amount, order_uid) =>
          match fetch_order base_url order_uid with
          | None => Assessment.Abstain
          | Some order =>
              if decide (order_uid ≠ compute_order_uid chain_id order) then Assessment.Abstain
              else if decide (receiver order ≠ safe) then Assessment.Insecure R4_4AuthorizationTarget
              else if decide (token = sell_token order /\ approved_amount = sell_amount order)
                then Assessment.Secure (cov_all_calls (length cs) DATA)
              else Assessment.Insecure R4_5ExcessiveApproval
          end
      end
  | _, _ => Assessment.Abstain
  end.

Definition check_twap_batch (safe : Z) (cs : list MetaTransaction) : Assessment.t :=
  match cs with
  | [first; second] =>
      match or_else (decode_approval_and_twap first second) (decode_approval_and_twap second first) with
      | None => Assessment.Abstain
      | Some (approved_token, approved_amount, sell_token, receiver, total_sell_amount, n) =>
          if decide (receiver ≠ safe /\ receiver ≠ 0) then Assessment.Insecure R4_4AuthorizationTarget
          else if decide (approved_token ≠ sell_token \/
                          max_approval_for_twap_total total_sell_amount n < approved_amount)
            then Assessment.Insecure R4_5ExcessiveApproval
          else Assessment.Secure (cov_all_calls (length cs) DATA)
      end
  | _ => Assessment.Abstain
  end.

Definition check_dangling_approval (cs : list MetaTransaction) : Assessment.t :=
  if negb (existsb approves_vault_relayer cs) then Assessment.Abstain
  else if existsb (fun c => is_presignature c || is_twap_create c) cs then Assessment.Abstain
  else Assessment.Insecure R4_4AuthorizationTarget.

(** The first result that is not an abstention. *)
Definition or_check (a b : Assessment.t) : Assessment.t := match a with Assessment.Abstain => b | a => a end.

Definition cow_check (p : Proposal) (context : CheckContext) : Assessment.t :=
  let t := transaction p in
  if decide (chain_id t ∈ SUPPORTED_CHAIN_IDS) then
    or_check (check_dangling_approval (calls p))
      (or_check (check_presignature_batch (safe t) (chain_id t) (calls p)) (check_twap_batch (safe t) (calls p)))
  else Assessment.Abstain.
End Cow.
