(* ===== verification/Poisoning.v ===== *)
(** The checks of a transfer's or an approval's target against the Safe's own
    history, [crates/sentinel-engine/src/checkers/address_poisoning.rs], and of the
    gas refund, [refund.rs]. A node answers each request of a check in turn, or
    fails it. *)

From Stdlib Require Import String.
From S2P Require Import Prelude Keccak Batches Coverage Checks.

(** ** Lookalikes *)

(** The 40 hexadecimal digits of an address, the most significant first. *)
Definition nibbles (address : Z) : list Z :=
  mjoin ((fun byte => [Z.shiftr byte 4; Z.land byte 15]) <$> be_bytes 20 address).

Fixpoint common_prefix (a b : list Z) : nat :=
  match a, b with
  | x :: a, y :: b => if decide (x = y) then S (common_prefix a b) else O
  | _, _ => O
  end.

Definition is_lookalike (established candidate : Z) : bool :=
  if decide (established = candidate) then false
  else
    let '(a, b) := (nibbles established, nibbles candidate) in
    bool_decide (4 <= common_prefix a b)%nat && bool_decide (4 <= common_prefix (rev a) (rev b))%nat.

(** ** Targets *)

Inductive TargetKind := TransferTarget | ApprovalTarget.
Definition target_rule (k : TargetKind) : RuleId :=
  match k with TransferTarget => R4_3ValueTarget | ApprovalTarget => R4_4AuthorizationTarget end.

Definition decode_target `{CallAbi} (safe : Z) (call : MetaTransaction) : option (Z * TargetKind) :=
  if decide (m_operation call ≠ Call) then None
  else if transferCall (m_data call) is Some (to, amount)
    then (if decide (amount = 0) then None else Some (to, TransferTarget))
  else if transferFromCall (m_data call) is Some (from, to, amount)
    then (if decide (from = safe /\ amount ≠ 0) then Some (to, TransferTarget) else None)
  else if approveCall (m_data call) is Some (spender, amount)
    then (if decide (amount = 0) then None else Some (spender, ApprovalTarget))
  else None.

(** ** The node *)

Record Log := MkLog { log_topics : list Z; log_bytes : bytes }.

(** [Transfer::decode_log_data] and [Approval::decode_log_data]: the indexed
    addresses and the amount. *)
Class LogAbi := {
  decode_transfer_log : Log -> option (Z * Z * Z);
  decode_approval_log : Log -> option (Z * Z * Z)
}.

Record LogFilter := MkLogFilter {
  f_address : Z; f_event_signature : list Z; f_topic1 : Z; f_from_block : Z; f_to_block : Z
}.

(** The node, by the number of the request. *)
Record Provider := MkProvider {
  provider_chain_id : Z;
  get_block_number : option Z;
  get_logs : nat -> LogFilter -> option (list Log)
}.

(** [AddressPoisoningChecker], but for its provider. *)
Record PoisoningConfig := MkPoisoningConfig { lookback_blocks : Z; max_block_range : option Z }.

(** ** The history *)

(** [block_chunks]: [fuel] bounds the number of chunks. *)
Fixpoint chunks_from (fuel : nat) (start to max_range : Z) : list (Z * Z) :=
  match fuel with
  | O => []
  | S fuel =>
      let last := Z.min (sat_add start max_range) to in
      (start, last) :: (if decide (to <= last) then [] else chunks_from fuel (sat_add last 1) to max_range)
  end.
Definition block_chunks (from to : Z) (max_range : option Z) : list (Z * Z) :=
  let max_range := default u64_max max_range in
  chunks_from (S (Z.to_nat ((to - from) / (max_range + 1)))) from to max_range.

Inductive RecipientLookup :=
| ExactMatch
| NoExactMatch (recipients : gset Z) (complete : bool).

Section Poisoning.
Context {KEC : Keccak} {AB : CallAbi} {LA : LogAbi}.

Definition Transfer_SIGNATURE_HASH : Z := keccak256 (string_bytes "Transfer(address,address,uint256)").
Definition Approval_SIGNATURE_HASH : Z := keccak256 (string_bytes "Approval(address,address,uint256)").

Definition decode_target_and_amount (log : Log) : option (Z * Z) :=
  match head (log_topics log) with
  | Some topic =>
      if decide (topic = Transfer_SIGNATURE_HASH) then
        '(_, to, amount) ← decode_transfer_log log; Some (to, amount)
      else if decide (topic = Approval_SIGNATURE_HASH) then
        '(_, spender, amount) ← decode_approval_log log; Some (spender, amount)
      else None
  | None => None
  end.

(** The logs of a chunk: none once the candidate itself turns up. *)
Fixpoint scan_logs (candidate : Z) (logs : list Log) (recipients : gset Z) : option (gset Z) :=
  match logs with
  | [] => Some recipients
  | log :: logs =>
      match decode_target_and_amount log with
      | None => scan_logs candidate logs recipients
      | Some (target, amount) =>
          if decide (amount = 0) then scan_logs candidate logs recipients
          else if decide (target = candidate) then None
          else scan_logs candidate logs ({[target]} ∪ recipients)
      end
  end.

Definition chunk_filter (token safe : Z) (chunk : Z * Z) : LogFilter :=
  MkLogFilter token [Transfer_SIGNATURE_HASH; Approval_SIGNATURE_HASH] safe chunk.1 chunk.2.

(** The loop of [established_recipients], with the number of the next request; an
    error has no result. *)
Fixpoint scan_chunks (provider : Provider) (token safe candidate : Z) (tick : nat) (chunks : list (Z * Z))
    (recipients : gset Z) : option RecipientLookup * nat :=
  match chunks with
  | [] => (Some (NoExactMatch recipients true), tick)
  | chunk :: chunks =>
      match get_logs provider tick (chunk_filter token safe chunk) with
      | None =>
          (if decide (recipients = ∅) then None else Some (NoExactMatch recipients false), S tick)
      | Some logs =>
          match scan_logs candidate logs recipients with
          | None => (Some ExactMatch, S tick)
          | Some recipients => scan_chunks provider token safe candidate (S tick) chunks recipients
          end
      end
  end.
Definition established_recipients (config : PoisoningConfig) (provider : Provider) (token safe candidate current_block : Z)
    (tick : nat) : option RecipientLookup * nat :=
  let from_block := sat_sub current_block (lookback_blocks config) in
  scan_chunks provider token safe candidate tick (block_chunks from_block current_block (max_block_range config)) ∅.

(** ** The check *)

(** What a call's lookup comes to: a denial, or whether it leaves an abstention. *)
Definition assess_lookup (candidate : Z) (k : TargetKind) (lookup : option RecipientLookup) : result RuleId bool :=
  match lookup with
  | Some ExactMatch => Ok false
  | Some (NoExactMatch recipients complete) =>
      if existsb (fun r => is_lookalike r candidate) (elements recipients)
      then (if complete then Err (target_rule k) else Ok true)
      else Ok true
  | None => Ok true
  end.

(** The loop over the calls. *)
Fixpoint scan_calls (config : PoisoningConfig) (provider : Provider) (safe current_block : Z) (tick : nat)
    (cs : list MetaTransaction) (abstain : bool) : result RuleId bool :=
  match cs with
  | [] => Ok abstain
  | call :: cs =>
      match decode_target safe call with
      | None => scan_calls config provider safe current_block tick cs true
      | Some (candidate, k) =>
          let '(lookup, tick) := established_recipients config provider (m_to call) safe candidate current_block tick in
          doubtful ← assess_lookup candidate k lookup;
          scan_calls config provider safe current_block tick cs (abstain || doubtful)
      end
  end.

(** The block the history ends at. *)
Definition resolve_block (provider : Provider) (context : CheckContext) : option Z :=
  match context_block context with
  | NumberedBlock number => Some number
  | LatestBlock => get_block_number provider
  end.

Definition address_poisoning_check (config : PoisoningConfig) (provider : Provider) (p : Proposal) (context : CheckContext)
    : Assessment.t :=
  let t := transaction p in
  if decide (chain_id t ≠ provider_chain_id provider) then Assessment.Abstain
  else
    match resolve_block provider context with
    | None => Assessment.Abstain
    | Some current_block =>
        match scan_calls config provider (safe t) current_block 0 (calls p) false with
        | Err rule => Assessment.Insecure rule
        | Ok true => Assessment.Abstain
        | Ok false => Assessment.Secure (checked p (Z.lor TO DATA))
        end
    end.

(** ** The refund *)

(** [U256::saturating_add] and [U256::saturating_mul]. *)
Definition sat_add_u256 (a b : Z) : Z := Z.min u256_max (a + b).
Definition sat_mul_u256 (a b : Z) : Z := Z.min u256_max (a * b).

Definition refund_transfer (t : SafeTransaction) : option MetaTransaction :=
  if decide (gas_price t = 0 \/ gas_token t = 0 \/ refund_receiver t = 0) then None
  else
    Some (MkMetaTransaction (gas_token t) 0
      (encode_transfer (refund_receiver t) (sat_mul_u256 (gas_price t) (sat_add_u256 (safe_tx_gas t) (base_gas t)))) Call).

Definition refund_check (config : PoisoningConfig) (provider : Provider) (p : Proposal) (context : CheckContext) : Assessment.t :=
  match refund_transfer (transaction p) with
  | None => Assessment.Abstain
  | Some refund_call =>
      match address_poisoning_check config provider (MkProposal (transaction p) [refund_call]) context with
      | Assessment.Secure _ => Assessment.Secure (refund_checked p)
      | assessment => assessment
      end
  end.
End Poisoning.

(** ** The history of a Safe

    The specification knows no requests: a history gives the logs of a token that
    name a Safe first, block by block. *)

(** The logs of consecutive blocks, and the chunks' blocks put together. *)
Definition History : Type := Z -> Z -> Z -> list Log.
Definition range (from to : Z) : list Z := seqZ from (to - from + 1).
Definition range_logs (h : History) (token safe from to : Z) : list Log :=
  mjoin ((fun block => h block token safe) <$> range from to).

Lemma range_split from mid to : from <= mid + 1 -> mid <= to -> range from to = range from mid ++ range (mid + 1) to.
Proof.
  intros H1 H2. unfold range. replace (to - from + 1) with ((mid - from + 1) + (to - (mid + 1) + 1)) by lia.
  rewrite seqZ_app by lia. f_equal. f_equal; lia.
Qed.

(** The chunks tile the range: every block in one chunk, in order. *)
Lemma chunks_tile fuel start to m :
  0 <= start <= to -> to <= u64_max -> 0 < m -> (to - start) / (m + 1) < Z.of_nat fuel ->
  mjoin ((fun c => range c.1 c.2) <$> chunks_from fuel start to m) = range start to.
Proof.
  revert start. induction fuel as [|fuel IH]; intros start Hs Hu Hm Hf.
  { exfalso. assert (0 <= (to - start) / (m + 1)) by (apply Z.div_pos; lia). lia. }
  cbn [chunks_from]. set (last := Z.min (sat_add start m) to).
  change (mjoin ((fun c => range c.1 c.2) <$> (start, last) :: ?l)) with
    (range start last ++ mjoin ((fun c => range c.1 c.2) <$> l)).
  assert (start <= last <= to) as Hl by (unfold last, sat_add; lia).
  case_decide as Hd; [change (mjoin _) with (@nil Z); rewrite app_nil_r; f_equal; lia|].
  assert (last = start + m) as Hlast by (unfold last, sat_add in *; lia).
  assert (sat_add last 1 = last + 1) as -> by (unfold sat_add; lia).
  rewrite IH; [symmetry; apply range_split; lia|lia|done|done|].
  replace (to - (last + 1)) with (to - start + (-1) * (m + 1)) by lia. rewrite Z.div_add by lia. lia.
Qed.

Lemma block_chunks_tile from to max_range :
  0 <= from <= to -> to <= u64_max -> (forall m, max_range = Some m -> 0 < m) ->
  mjoin ((fun c => range c.1 c.2) <$> block_chunks from to max_range) = range from to.
Proof.
  intros Hf Hu Hm. unfold block_chunks.
  assert (0 < default u64_max max_range) as Hp by (destruct max_range; [by apply Hm|done]).
  apply chunks_tile; [done|done|done|].
  assert (0 <= (to - from) / (default u64_max max_range + 1)) by (apply Z.div_pos; lia). lia.
Qed.

Section Reference.
Context {KEC : Keccak} {AB : CallAbi} {LA : LogAbi}.

(** The target of a log that moved or granted something. *)
Definition genuine (log : Log) : option Z :=
  '(target, amount) ← decode_target_and_amount log;
  if decide (amount = 0) then None else Some target.
Definition targets (logs : list Log) : gset Z := list_to_set (omap genuine logs).

Lemma targets_app l k : targets (l ++ k) = targets l ∪ targets k.
Proof. unfold targets. rewrite omap_app, list_to_set_app_L. done. Qed.

(** The result of a lookup over the whole range. *)
Definition whole_lookup (h : History) (token safe candidate from to : Z) : RecipientLookup :=
  let found := targets (range_logs h token safe from to) in
  if decide (candidate ∈ found) then ExactMatch else NoExactMatch found true.

(** What the history says of a call, and of a proposal: the first lookalike denies;
    otherwise all targets must be known. *)
Definition assess_call (h : History) (safe from to : Z) (call : MetaTransaction) : result RuleId bool :=
  match decode_target safe call with
  | None => Ok true
  | Some (candidate, k) => assess_lookup candidate k (Some (whole_lookup h (m_to call) safe candidate from to))
  end.
Fixpoint assess_calls (h : History) (safe from to : Z) (cs : list MetaTransaction) : result RuleId bool :=
  match cs with
  | [] => Ok false
  | call :: cs =>
      doubtful ← assess_call h safe from to call;
      (fun rest => doubtful || rest) <$> assess_calls h safe from to cs
  end.
Definition history_check (h : History) (lookback current : Z) (p : Proposal) : Assessment.t :=
  match assess_calls h (safe (transaction p)) (sat_sub current lookback) current (calls p) with
  | Err rule => Assessment.Insecure rule
  | Ok true => Assessment.Abstain
  | Ok false => Assessment.Secure (checked p (Z.lor TO DATA))
  end.

(** A node that knows the history but may fail to answer; and one that never fails. *)
Definition serves (provider : Provider) (h : History) : Prop :=
  forall tick token safe chunk,
    get_logs provider tick (chunk_filter token safe chunk) = None \/
    get_logs provider tick (chunk_filter token safe chunk) = Some (range_logs h token safe chunk.1 chunk.2).
Definition answers (provider : Provider) : Prop :=
  forall tick f, is_Some (get_logs provider tick f).

Lemma scan_logs_targets candidate logs recipients :
  scan_logs candidate logs recipients =
    if decide (candidate ∈ targets logs) then None else Some (recipients ∪ targets logs).
Proof.
  revert recipients. induction logs as [|log logs IH]; intros recipients; cbn [scan_logs].
  { unfold targets. simpl. rewrite decide_False by set_solver. f_equal. set_solver. }
  change (log :: logs) with ([log] ++ logs). rewrite targets_app.
  assert (targets [log] = match genuine log with Some t => {[t]} | None => ∅ end) as Ht
    by (unfold targets; simpl; destruct (genuine log); set_solver).
  rewrite Ht. unfold genuine. destruct (decode_target_and_amount log) as [[t a]|]; cbn [mbind option_bind].
  - destruct (decide (a = 0)); [rewrite IH; by rewrite (left_id_L ∅ (∪))|].
    destruct (decide (t = candidate)) as [->|Hne].
    + by rewrite decide_True by set_solver.
    + rewrite IH. destruct (decide (candidate ∈ targets logs)).
      * by rewrite decide_True by set_solver.
      * rewrite decide_False by set_solver. f_equal. set_solver.
  - rewrite IH. by rewrite (left_id_L ∅ (∪)).
Qed.

(** The targets of a list of chunks. *)
Definition chunk_targets (h : History) (token safe : Z) (chunks : list (Z * Z)) : gset Z :=
  targets (mjoin ((fun c => range_logs h token safe c.1 c.2) <$> chunks)).

Lemma chunk_targets_range h token safe chunks from to :
  mjoin ((fun c => range c.1 c.2) <$> chunks) = range from to ->
  chunk_targets h token safe chunks = targets (range_logs h token safe from to).
Proof.
  intros Ht. unfold chunk_targets, range_logs. f_equal. rewrite <- Ht. clear Ht.
  induction chunks as [|c chunks IH]; [done|].
  change (mjoin ((fun c => range c.1 c.2) <$> c :: chunks)) with
    (range c.1 c.2 ++ mjoin ((fun c => range c.1 c.2) <$> chunks)).
  rewrite fmap_app, join_app, <- IH. done.
Qed.
Lemma chunk_targets_cons h token safe c chunks :
  chunk_targets h token safe (c :: chunks) = targets (range_logs h token safe c.1 c.2) ∪ chunk_targets h token safe chunks.
Proof. unfold chunk_targets. by rewrite <- targets_app. Qed.

(** A lookup finds what the history holds, unless the node fails. *)
Lemma scan_chunks_lookup h provider token safe candidate chunks tick recipients :
  serves provider h -> candidate ∉ recipients ->
  match (scan_chunks provider token safe candidate tick chunks recipients).1 with
  | Some ExactMatch => candidate ∈ chunk_targets h token safe chunks
  | Some (NoExactMatch found true) =>
      candidate ∉ chunk_targets h token safe chunks /\ found = recipients ∪ chunk_targets h token safe chunks
  | Some (NoExactMatch _ false) | None => ~ answers provider
  end.
Proof.
  intros Hs. revert tick recipients. induction chunks as [|c chunks IH]; intros tick recipients Hc; cbn [scan_chunks].
  { unfold chunk_targets, targets. simpl. split; set_solver. }
  rewrite chunk_targets_cons.
  destruct (Hs tick token safe c) as [Hn|Hlogs].
  - rewrite Hn. case_decide; cbn [fst]; intros Ha; destruct (Ha tick (chunk_filter token safe c)) as [? Hx]; congruence.
  - rewrite Hlogs, scan_logs_targets. case_decide; cbn [fst]; [set_solver|].
    specialize (IH (S tick) (recipients ∪ targets (range_logs h token safe c.1 c.2)) ltac:(set_solver)).
    destruct (scan_chunks _ _ _ _ _ _ _).1 as [[|found []]|]; [set_solver| |done|done].
    destruct IH as [H1 ->]. split; set_solver.
Qed.

Definition lookup_agrees (provider : Provider) (lookup : option RecipientLookup) (whole : RecipientLookup) : Prop :=
  match lookup with
  | Some (NoExactMatch _ false) | None => ~ answers provider
  | Some l => l = whole
  end.

Lemma established_agrees h config provider token safe candidate current tick :
  serves provider h -> 0 <= current <= u64_max -> 0 <= lookback_blocks config ->
  (forall m, max_block_range config = Some m -> 0 < m) ->
  lookup_agrees provider (established_recipients config provider token safe candidate current tick).1
    (whole_lookup h token safe candidate (sat_sub current (lookback_blocks config)) current).
Proof.
  intros Hs Hc Hl Hm. unfold established_recipients.
  set (chunks := block_chunks (sat_sub current (lookback_blocks config)) current (max_block_range config)).
  pose proof (scan_chunks_lookup h provider token safe candidate chunks tick ∅ Hs ltac:(set_solver)) as Hscan.
  assert (chunk_targets h token safe chunks =
    targets (range_logs h token safe (sat_sub current (lookback_blocks config)) current)) as Ht.
  { apply chunk_targets_range, block_chunks_tile; [unfold sat_sub; lia|lia|done]. }
  rewrite Ht in Hscan. unfold lookup_agrees, whole_lookup.
  destruct (scan_chunks _ _ _ _ _ _ _).1 as [[|found []]|]; try done.
  - by rewrite decide_True.
  - destruct Hscan as [Hn ->]. rewrite decide_False by done. f_equal. set_solver.
Qed.

(** What a call's assessment is worth when the node may fail: a certainty is one of
    the history's, and without failures they are the same. *)
Definition assessment_agrees (provider : Provider) (r whole : result RuleId bool) : Prop :=
  (r <> Ok true -> r = whole) /\ (answers provider -> r = whole).

Lemma assess_agrees provider candidate k lookup whole : 
  lookup_agrees provider lookup whole ->
  assessment_agrees provider (assess_lookup candidate k lookup) (assess_lookup candidate k (Some whole)).
Proof.
  unfold lookup_agrees, assessment_agrees. destruct lookup as [[|found []]|]; try (by intros <-); cbn [assess_lookup].
  - intros Hn. split; [by destruct (existsb _ _)|done].
  - by intros Hn.
Qed.

(** And for a proposal: only the rule cited may depend on which request failed. *)
Definition outcome_agrees (provider : Provider) (r whole : result RuleId bool) : Prop :=
  (r = Ok false -> whole = Ok false) /\ (forall rule, r = Err rule -> exists rule', whole = Err rule') /\
  (answers provider -> r = whole).

Lemma scan_calls_agrees h config provider safe current tick cs abstain :
  serves provider h -> 0 <= current <= u64_max -> 0 <= lookback_blocks config ->
  (forall m, max_block_range config = Some m -> 0 < m) ->
  outcome_agrees provider (scan_calls config provider safe current tick cs abstain)
    ((fun rest => abstain || rest) <$> assess_calls h safe (sat_sub current (lookback_blocks config)) current cs).
Proof.
  intros Hs Hc Hl Hm. revert tick abstain. induction cs as [|call cs IH]; intros tick abstain; cbn [scan_calls assess_calls].
  { destruct abstain; by split_and!. }
  unfold assess_call. destruct (decode_target safe call) as [[candidate k]|].
  - pose proof (established_agrees h config provider (m_to call) safe candidate current tick Hs Hc Hl Hm) as Hla.
    destruct (established_recipients _ _ _ _ _ _ _) as [lookup tick']. cbn [fst] in Hla.
    apply (assess_agrees provider candidate k) in Hla as [H1 H2].
    set (w := assess_lookup candidate k (Some _)) in *. set (rest := assess_calls _ _ _ _ cs) in *.
    destruct (assess_lookup candidate k lookup) as [d|rule] eqn:El.
    + cbn [mbind result_bind]. specialize (IH tick' (abstain || d)). destruct IH as (I1 & I2 & I3). split_and!.
      * intros Hr. specialize (I1 Hr). destruct rest as [[]|]; simplify_eq/=; destruct abstain, d; try discriminate I1.
        rewrite <- H1 by done. done.
      * intros r Hr. destruct (I2 r Hr) as (r' & Hr'). destruct rest as [|e]; [done|]. simplify_eq/=.
        destruct w as [|e]; [by eexists|by eexists].
      * intros Ha. rewrite <- (H2 Ha), (I3 Ha). cbn [mbind result_bind]. destruct rest as [b|]; [|done]. simpl.
        by rewrite orb_assoc.
    + cbn [mbind result_bind]. rewrite <- H1 by done. cbn [mbind result_bind]. split_and!; [done|eauto|done].
  - cbn [mbind result_bind]. specialize (IH tick true). destruct IH as (I1 & I2 & I3).
    set (rest := assess_calls _ _ _ _ cs) in *. split_and!.
    + intros Hr. specialize (I1 Hr). by destruct rest.
    + intros r Hr. destruct (I2 r Hr) as (r' & Hr'). destruct rest as [|e]; [done|by eexists].
    + intros Ha. rewrite (I3 Ha). destruct rest as [b|]; [|done]. simpl. by destruct abstain.
Qed.

(** C35: requests leave no trace in a verdict. However the range of blocks is split
    into requests, the check of a proposal against a node that answers them all is
    its check against the Safe's whole history, in which the first lookalike of an
    established recipient denies and every target must be established to be secure;
    and a node that fails some of them, in any pattern, only makes the check abstain:
    it is secure only if the history is, and denies only if the history does. *)
Theorem poisoning_history h config provider p context current :
  serves provider h -> 0 <= current <= u64_max -> 0 <= lookback_blocks config ->
  (forall m, max_block_range config = Some m -> 0 < m) ->
  chain_id (transaction p) = provider_chain_id provider -> resolve_block provider context = Some current ->
  (answers provider ->
    address_poisoning_check config provider p context = history_check h (lookback_blocks config) current p) /\
  (forall c, address_poisoning_check config provider p context = Assessment.Secure c ->
    history_check h (lookback_blocks config) current p = Assessment.Secure c) /\
  (forall rule, address_poisoning_check config provider p context = Assessment.Insecure rule ->
    exists rule', history_check h (lookback_blocks config) current p = Assessment.Insecure rule').
Proof.
  intros Hs Hc Hl Hm Hchain Hb. unfold address_poisoning_check, history_check.
  rewrite decide_False by tauto. rewrite Hb.
  pose proof (scan_calls_agrees h config provider (safe (transaction p)) current 0 (calls p) false Hs Hc Hl Hm) as Ho.
  assert (forall r : result RuleId bool, (fun rest => false || rest) <$> r = r) as Hid by (by intros []).
  rewrite Hid in Ho. destruct Ho as (H1 & H2 & H3).
  destruct (scan_calls _ _ _ _ _ _ _) as [[]|rule].
  - split_and!; [intros Ha; by rewrite <- (H3 Ha)|done|done].
  - rewrite (H1 eq_refl). by split_and!.
  - destruct (H2 rule eq_refl) as (r' & Hr'). split_and!; [intros Ha; by rewrite <- (H3 Ha)|done|].
    intros _ _. exists r'. by rewrite Hr'.
Qed.
End Reference.
