(* ===== verification/Engine.v ===== *)
(** The engine as it is deployed, [crates/sentinel-engine/src/main.rs]: its chain of
    checks, what each of them finds when it vouches for something, and what a
    verdict of the whole then means for the Safe. *)

From Stdlib Require Import String.
From S2P Require Import Prelude Keccak Batches Coverage Checks Cow Poisoning.

(** ** The chain of checks *)

Section Chain.
Context {KEC : Keccak} {AB : CallAbi} {LA : LogAbi} {OH : OrderHash} {OA : OrderApi}.

(** The checks in the order they run; the refund's and the proposal's histories are
    asked of the node at different times. *)
Definition production_checkers (blocklist : gset Z) (config : PoisoningConfig) (refund_node node : Provider)
    : list Checker := [
  cancellation_check;
  escape_hatch_check;
  base_check;
  blocklist_check blocklist;
  nested_check;
  excessive_approval_check;
  cow_check;
  staking_check;
  refund_check config refund_node;
  address_poisoning_check config node].

(** ** Every check claims something about every call *)

Lemma sized_uniform context p checker aspects :
  (forall c, checker p context = Assessment.Secure c -> c = cov_all_calls (length (calls p)) aspects) ->
  sized context p checker.
Proof. intros Hc c He. rewrite (Hc c He). apply length_replicate. Qed.

Lemma cancellation_sized context p : sized context p cancellation_check.
Proof.
  intros c. unfold cancellation_check. case_decide; [|done]. intros [= <-].
  unfold checked, refund_checked, cov_union, cov_all_calls, cov_refund_only. cbn [cov_calls].
  rewrite length_zip_with, !length_replicate. lia.
Qed.

Lemma escape_hatch_sized context p : sized context p escape_hatch_check.
Proof.
  apply (sized_uniform _ _ _ all). intros c. unfold escape_hatch_check.
  destruct (forallb _ _); [|done]. by intros [= <-].
Qed.

Lemma base_sized context p : sized context p base_check.
Proof.
  apply (sized_uniform _ _ _ (Z.lor TO OPERATION)). intros c. unfold base_check.
  destruct (check_all_calls _ _); [|done]. by intros [= <-].
Qed.

Lemma nested_sized context p : sized context p nested_check.
Proof.
  apply (sized_uniform _ _ _ (Z.lor (Z.lor TO DATA) OPERATION)). intros c. unfold nested_check.
  destruct (forallb _ _); [|done]. by intros [= <-].
Qed.

(** ** What a vouching check found *)

(** An order of the Safe on CoW Swap, paired with the approval that funds it. *)
Inductive cow_order (safe chain_id : Z) (cs : list MetaTransaction) : Prop :=
| presigned approval presign token amount uid base o :
    cs = [approval; presign] \/ cs = [presign; approval] ->
    vault_relayer_approval_amount approval = Some (token, amount) ->
    presignature_order_uid presign = Some uid ->
    order_api_base_url chain_id = Some base -> fetch_order base uid = Some o ->
    uid = compute_order_uid chain_id o ->
    receiver o = safe -> sell_token o = token -> sell_amount o = amount ->
    cow_order safe chain_id cs
| twap approval create token amount receiver total n :
    cs = [approval; create] \/ cs = [create; approval] ->
    vault_relayer_approval_amount approval = Some (token, amount) ->
    twap_order_terms create = Some (token, receiver, total, n) ->
    receiver = safe \/ receiver = 0 -> amount <= total + Z.max 0 (n - 1) ->
    cow_order safe chain_id cs.

Lemma or_else_Some {A} (a b : option A) x : or_else a b = Some x -> a = Some x \/ b = Some x.
Proof. destruct a; [by left|by right]. Qed.

Lemma decode_presignature_Some a b token amount uid :
  decode_approval_and_presignature a b = Some (token, amount, uid) ->
  vault_relayer_approval_amount a = Some (token, amount) /\ presignature_order_uid b = Some uid.
Proof.
  unfold decode_approval_and_presignature. destruct (vault_relayer_approval_amount a) as [[]|]; [|done].
  cbn [mbind option_bind]. destruct (presignature_order_uid b); [|done]. cbn [mbind option_bind]. by intros [= -> -> ->].
Qed.

Lemma decode_twap_Some a b token amount sell receiver total n :
  decode_approval_and_twap a b = Some (token, amount, sell, receiver, total, n) ->
  vault_relayer_approval_amount a = Some (token, amount) /\ twap_order_terms b = Some (sell, receiver, total, n).
Proof.
  unfold decode_approval_and_twap. destruct (vault_relayer_approval_amount a) as [[]|]; [|done].
  cbn [mbind option_bind]. destruct (twap_order_terms b) as [[[[]]]|]; [|done]. cbn [mbind option_bind]. naive_solver.
Qed.

Lemma presignature_secure safe chain_id cs c :
  check_presignature_batch safe chain_id cs = Assessment.Secure c ->
  c = cov_all_calls (length cs) DATA /\ cow_order safe chain_id cs.
Proof.
  unfold check_presignature_batch. intros H. destruct (order_api_base_url chain_id) as [base|] eqn:Eb; [|done].
  destruct cs as [|x [|y [|]]]; try done.
  destruct (or_else _ _) as [[[token amount] uid]|] eqn:Ed; [|done].
  destruct (fetch_order base uid) as [o|] eqn:Ef; [|done].
  case_decide as Hu; [done|]. case_decide as Hr; [done|]. case_decide as Hm; [|done]. injection H as <-.
  destruct Hm as [-> ->].
  split; [done|]. apply or_else_Some in Ed as [Ed|Ed]; apply decode_presignature_Some in Ed as [Ha Hp].
  - eapply presigned with (approval := x); eauto.
  - eapply presigned with (approval := y); eauto.
Qed.

Lemma twap_secure safe chain_id cs c :
  check_twap_batch safe cs = Assessment.Secure c ->
  c = cov_all_calls (length cs) DATA /\ cow_order safe chain_id cs.
Proof.
  unfold check_twap_batch. intros H. destruct cs as [|x [|y [|]]]; try done.
  destruct (or_else _ _) as [[[[[[token amount] sell] recv] total] n]|] eqn:Ed; [|done].
  case_decide as Hr; [done|]. case_decide as Hb; [done|]. injection H as <-. split; [done|].
  assert (token = sell) as -> by (apply dec_stable; tauto).
  assert (recv = safe \/ recv = 0) as Hrecv by (destruct (decide (recv = safe)), (decide (recv = 0)); tauto).
  assert (amount <= total + Z.max 0 (n - 1)) as Hle
    by (unfold max_approval_for_twap_total in Hb; lia).
  apply or_else_Some in Ed as [Ed|Ed]; apply decode_twap_Some in Ed as [Ha Ht].
  - eapply twap with (approval := x); eauto.
  - eapply twap with (approval := y); eauto.
Qed.

Lemma cow_secure p context c :
  cow_check p context = Assessment.Secure c ->
  c = cov_all_calls (length (calls p)) DATA /\ cow_order (safe (transaction p)) (chain_id (transaction p)) (calls p).
Proof.
  unfold cow_check. case_decide; [|done]. unfold check_dangling_approval.
  destruct (negb _); cbn [or_check]; [|destruct (existsb _ _); cbn [or_check]; [|done]].
  all: destruct (check_presignature_batch _ _ _) as [|c'|] eqn:Ep; cbn [or_check]; [done| |].
  all: intros Hc; try (injection Hc as ->; by apply presignature_secure in Ep).
  all: by apply twap_secure with (chain_id := chain_id (transaction p)) in Hc.
Qed.

(** Staking: every claim pays the Safe, and what remains is nothing, a stake, or an
    approval of at most the stake that follows it. *)
Record staking_ok (safe : Z) (cs : list MetaTransaction) : Prop := MkStakingOk {
  claims_own call account : call ∈ cs -> claim_account call = Some account -> account = safe;
  stakes_rest :
    let rest := filter (fun call => claim_account call = None) cs in
    rest = [] \/
    (exists stake amount, rest = [stake] /\ stake_amount stake = Some amount) \/
    (exists approval stake approved staked, rest = [approval; stake] /\
       staking_approval_amount approval = Some approved /\ stake_amount stake = Some staked /\ approved <= staked)
}.

Lemma set_aside_claims_Ok safe cs rest claimed :
  set_aside_claims safe cs = Ok (rest, claimed) ->
  (forall call account, call ∈ cs -> claim_account call = Some account -> account = safe) /\
  rest = filter (fun call => claim_account call = None) cs.
Proof.
  revert rest claimed. induction cs as [|call cs IH]; intros rest claimed; cbn [set_aside_claims].
  - intros [= <- <-]. split; [|done]. intros ? ? Hin. by apply elem_of_nil in Hin.
  - destruct (claim_account call) as [account|] eqn:Ec.
    + case_decide as Ha; [done|]. intros ([rest' claimed'] & Hr & Heq)%fmap_Ok. simplify_eq/=.
      destruct (IH _ _ Hr) as [H1 ->]. split.
      * intros call' account' [->|Hin]%elem_of_cons Ha'; [congruence|by eapply H1].
      * by rewrite filter_cons_False by congruence.
    + intros ([rest' claimed'] & Hr & Heq)%fmap_Ok. simplify_eq/=. destruct (IH _ _ Hr) as [H1 ->]. split.
      * intros call' account' [->|Hin]%elem_of_cons Ha'; [congruence|by eapply H1].
      * by rewrite filter_cons_True.
Qed.

Lemma staking_secure p context c :
  staking_check p context = Assessment.Secure c ->
  c = cov_all_calls (length (calls p)) DATA /\ chain_id (transaction p) = SUPPORTED_CHAIN_ID /\
  staking_ok (safe (transaction p)) (calls p).
Proof.
  unfold staking_check. case_decide as Hchain; [done|].
  destruct (set_aside_claims _ _) as [[rest claimed]|] eqn:Es; [|done].
  apply set_aside_claims_Ok in Es as [Hown Hrest]. intros H.
  assert (chain_id (transaction p) = SUPPORTED_CHAIN_ID) as Hid by (done || by apply dec_stable).
  destruct rest as [|x [|y [|]]]; [destruct claimed| | |]; try done; simplify_eq.
  - split_and!; [done|done|]. split; [done|]. by left.
  - unfold check_lone_call in H. destruct (stake_amount x) as [amount|] eqn:Ea; [|done]. injection H as <-.
    split_and!; [done|done|]. split; [done|]. right; left. rewrite <- Hrest. by exists x, amount.
  - unfold check_pair in H. destruct (staking_approval_amount x) as [approved|] eqn:Ea; [|done].
    destruct (stake_amount y) as [staked|] eqn:Es; [|done]. case_decide; [done|]. injection H as <-.
    split_and!; [done|done|]. split; [done|]. right; right. rewrite <- Hrest.
    exists x, y, approved, staked. split_and!; [done..|lia].
Qed.

(** A recipient the Safe has paid or approved on a token, within the lookback. *)
Definition established (h : History) (config : PoisoningConfig) (current safe token r : Z) : Prop :=
  r ∈ targets (range_logs h token safe (sat_sub current (lookback_blocks config)) current).

(** The configuration of the history check, and a node whose blocks are [u64]s. *)
Record history_ok (h : History) (config : PoisoningConfig) (node : Provider) (context : CheckContext) : Prop := MkHistoryOk {
  node_serves : serves node h;
  lookback_nonneg : 0 <= lookback_blocks config;
  span_positive m : max_block_range config = Some m -> 0 < m;
  block_u64 current : resolve_block node context = Some current -> 0 <= current <= u64_max
}.

Lemma assess_calls_known h safe from to cs :
  assess_calls h safe from to cs = Ok false ->
  Forall (fun call => exists r k, decode_target safe call = Some (r, k) /\
    r ∈ targets (range_logs h (m_to call) safe from to)) cs.
Proof.
  induction cs as [|call cs IH]; intros Ha; [constructor|]. cbn [assess_calls] in Ha.
  apply bind_Ok in Ha as (d & Hd & Ha). apply fmap_Ok in Ha as (rest & Hr & Heq).
  destruct d, rest; try done. constructor; [|by apply IH].
  unfold assess_call in Hd. destruct (decode_target safe call) as [[r k]|]; [|done].
  exists r, k. split; [done|]. unfold whole_lookup in Hd. cbn [assess_lookup] in Hd.
  case_decide; [done|]. cbn [assess_lookup] in Hd. by destruct (existsb _ _).
Qed.

Lemma poisoning_secure h config node p context c : history_ok h config node context ->
  address_poisoning_check config node p context = Assessment.Secure c ->
  c = checked p (Z.lor TO DATA) /\
  exists current, resolve_block node context = Some current /\
    Forall (fun call => exists r k, decode_target (safe (transaction p)) call = Some (r, k) /\
      established h config current (safe (transaction p)) (m_to call) r) (calls p).
Proof.
  intros [Hs Hl Hm Hb]. unfold address_poisoning_check. case_decide; [done|].
  destruct (resolve_block node context) as [current|]; [|done].
  pose proof (scan_calls_agrees h config node (safe (transaction p)) current 0 (calls p) false Hs (Hb _ eq_refl) Hl Hm) as [H1 _].
  destruct (scan_calls _ _ _ _ _ _ _) as [[]|]; try done. intros [= <-]. split; [done|]. exists current. split; [done|].
  specialize (H1 eq_refl). apply fmap_Ok in H1 as (rest & Hr & Heq). destruct rest; [done|].
  by apply assess_calls_known in Hr.
Qed.

(** ** Calldata *)

(** What the generated decoders guarantee: they check the selector, and decode what
    their encoder wrote. *)
Class CallLaws : Prop := {
  transfer_selector data r : transferCall data = Some r -> starts_with data (selector "transfer(address,uint256)") = true;
  transferFrom_selector data r :
    transferFromCall data = Some r -> starts_with data (selector "transferFrom(address,address,uint256)") = true;
  approve_selector data r : approveCall data = Some r -> starts_with data (selector "approve(address,uint256)") = true;
  setPreSignature_selector data r :
    setPreSignatureCall data = Some r -> starts_with data (selector "setPreSignature(bytes,bool)") = true;
  createWithContext_selector data r : createWithContextCall data = Some r ->
    starts_with data (selector "createWithContext((address,bytes32,bytes),address,bytes,bool)") = true;
  transfer_encoded to amount : 0 <= to < 2 ^ 160 -> 0 <= amount < 2 ^ 256 ->
    transferCall (encode_transfer to amount) = Some (to, amount)
}.

(** The amounts of a refund are words, its receiver an address. *)
Record refund_fields_ok (t : SafeTransaction) : Prop := MkRefundFieldsOk {
  receiver_address : 0 <= refund_receiver t < 2 ^ 160;
  gas_price_word : 0 <= gas_price t;
  safe_tx_gas_word : 0 <= safe_tx_gas t;
  base_gas_word : 0 <= base_gas t
}.

Lemma refund_secure `{CallLaws} h config node p context c :
  history_ok h config node context -> refund_fields_ok (transaction p) ->
  refund_check config node p context = Assessment.Secure c ->
  let t := transaction p in
  c = refund_checked p /\ gas_price t <> 0 /\ gas_token t <> 0 /\ refund_receiver t <> 0 /\
  exists current, resolve_block node context = Some current /\
    established h config current (safe t) (gas_token t) (refund_receiver t).
Proof.
  intros Hh [Hr Hg Hs Hb]. unfold refund_check, refund_transfer. case_decide as Hz; [done|].
  set (q := MkProposal _ _). destruct (address_poisoning_check config node q context) as [|c'|] eqn:Ep; try done.
  intros [= <-]. apply (poisoning_secure h) in Ep as (_ & current & Hcur & Hall); [|done].
  split_and!; [done|tauto|tauto|tauto|]. exists current. split; [done|].
  apply Forall_cons in Hall as [(r & k & Hd & He) _]. cbn [transaction q m_to] in *.
  unfold decode_target in Hd. cbn [m_operation m_data] in Hd. rewrite decide_False in Hd by tauto.
  rewrite transfer_encoded in Hd; [|done|unfold sat_mul_u256, sat_add_u256, u256_max; nia].
  case_decide; [done|]. by simplify_eq.
Qed.

(** ** Cancellations, escape hatches and nested Safes *)

Lemma claims_uniform n aspects i bit : claims (cov_all_calls n aspects) i bit -> Z.testbit aspects bit = true.
Proof. intros (a & Ha & Hb). by apply lookup_replicate_1 in Ha as [-> _]. Qed.

Lemma parse_plain `{MultiSendAbi} t p :
  parse t = Ok p -> transaction p = t /\ (operation t = Call -> calls p = [as_meta_transaction t]).
Proof.
  unfold parse. intros (cs & Hf & Heq)%bind_Ok. injection Heq as <-. split; [done|]. intros Ho. cbn [calls].
  unfold MAX_BATCH_DEPTH in Hf. cbn [flatten] in Hf.
  assert (decode_batch (safe t) (as_meta_transaction t) = None) as Hn.
  { unfold decode_batch, decode_multi_send_call, default_with, as_meta_transaction. cbn [operation m_operation].
    rewrite decide_True; [done|by rewrite Ho]. }
  rewrite Hn in Hf. by injection Hf as <-.
Qed.

(** A cancellation is one empty call without value, and pays no refund. *)
Lemma cancellation_secure `{MultiSendAbi} t p context c :
  parse t = Ok p -> cancellation_check p context = Assessment.Secure c ->
  gas_price t = 0 /\ Forall (fun call => m_value call = 0 /\ m_data call = []) (calls p).
Proof.
  intros Hp. apply parse_plain in Hp as [Ht Hcalls]. unfold cancellation_check. rewrite Ht.
  case_decide as He; [|done]. intros _. rewrite Hcalls by (by rewrite He).
  split; [by rewrite He|]. constructor; [|constructor]. rewrite He. done.
Qed.

Lemma escape_hatch_secure p context c :
  escape_hatch_check p context = Assessment.Secure c ->
  c = checked p all /\ Forall (fun call => is_escape_hatch_call call = true) (calls p).
Proof.
  unfold escape_hatch_check. destruct (forallb _ _) eqn:Hf; [|done]. intros [= <-]. split; [done|].
  apply Forall_forall. intros call Hin. rewrite forallb_forall in Hf. by apply Hf, list_elem_of_In.
Qed.

Lemma escape_hatch_no_value call : is_escape_hatch_call call = true -> m_value call = 0.
Proof.
  unfold is_escape_hatch_call. destruct (bool_decide (m_value call = 0)) eqn:Hv; [by apply bool_decide_eq_true in Hv|].
  by rewrite orb_true_r.
Qed.

Lemma base_secure p context c : base_check p context = Assessment.Secure c -> c = checked p (Z.lor TO OPERATION).
Proof. unfold base_check. destruct (check_all_calls _ _); [|done]. by intros [= <-]. Qed.

Lemma nested_secure p context c :
  nested_check p context = Assessment.Secure c ->
  c = checked p (Z.lor (Z.lor TO DATA) OPERATION) /\
  Forall (fun call => is_nested_exec_transaction (safe (transaction p)) call = true) (calls p).
Proof.
  unfold nested_check. destruct (forallb _ _) eqn:Hf; [|done]. intros [= <-]. split; [done|].
  apply Forall_forall. intros call Hin. rewrite forallb_forall in Hf. by apply Hf, list_elem_of_In.
Qed.

(** ** Guarantees of the checks that only deny *)

Lemma check_all_calls_Ok safe cs : check_all_calls safe cs = Ok () -> Forall (fun call => check_call safe call = Ok ()) cs.
Proof.
  induction cs as [|call cs IH]; intros Hc; [constructor|]. cbn [check_all_calls] in Hc.
  apply bind_Ok in Hc as ([] & H1 & H2). constructor; [done|by apply IH].
Qed.

(** The base guarantees: a call of the Safe to itself changes its settings as
    allowed, and a delegatecall runs a known contract. *)
Lemma check_call_Ok safe call : check_call safe call = Ok () ->
  (m_operation call = Call -> m_to call = safe -> m_data call <> [] -> check_self_calls call = true) /\
  (m_operation call = DelegateCall -> check_delegate_calls call = true).
Proof.
  unfold check_call, check_settings_change, check_delegatecall_integrity. destruct (m_operation call) eqn:Ho.
  - rewrite decide_False by tauto. cbn [default]. destruct (check_calls safe call) eqn:Hc; [|done]. intros _.
    split; [|done]. intros _ <- Hd. unfold check_calls in Hc. rewrite Ho in Hc.
    by rewrite decide_False, decide_False, decide_False in Hc by tauto.
  - rewrite decide_True by done. rewrite decide_False by tauto. cbn [default].
    by destruct (check_delegate_calls call).
Qed.

(** What every call of a secure transaction is. *)
Record call_allowed (blocklist : gset Z) (safe : Z) (call : MetaTransaction) : Prop := MkCallAllowed {
  not_blocked : m_to call ∉ blocklist;
  settings_allowed : m_operation call = Call -> m_to call = safe -> m_data call <> [] -> check_self_calls call = true;
  delegatecall_allowed : m_operation call = DelegateCall -> check_delegate_calls call = true;
  approvals_limited e : e ∈ decode_target_effects call -> is_unlimited e = false;
  no_value_moved : m_operation call = Call -> m_value call = 0
}.

(** Why the data of a transaction is trusted. *)
Inductive data_trusted (h : History) (config : PoisoningConfig) (node : Provider) (context : CheckContext) (p : Proposal)
    : Prop :=
| no_data : Forall (fun call => m_data call = []) (calls p) -> data_trusted h config node context p
| trusted_escape_hatch :
    Forall (fun call => is_escape_hatch_call call = true) (calls p) -> data_trusted h config node context p
| trusted_nested :
    Forall (fun call => is_nested_exec_transaction (safe (transaction p)) call = true) (calls p) ->
    data_trusted h config node context p
| trusted_order :
    cow_order (safe (transaction p)) (chain_id (transaction p)) (calls p) -> data_trusted h config node context p
| trusted_staking :
    chain_id (transaction p) = SUPPORTED_CHAIN_ID -> staking_ok (safe (transaction p)) (calls p) ->
    data_trusted h config node context p
| trusted_history current :
    resolve_block node context = Some current ->
    Forall (fun call => exists r k, decode_target (safe (transaction p)) call = Some (r, k) /\
      established h config current (safe (transaction p)) (m_to call) r) (calls p) ->
    data_trusted h config node context p.

Section Deployed.
Context {MS : MultiSendAbi} {CL : CallLaws}.
Context (blocklist : gset Z) (h : History) (config : PoisoningConfig) (refund_node node : Provider).
Context (context : CheckContext).
Hypothesis refund_history : history_ok h config refund_node context.
Hypothesis node_history : history_ok h config node context.

Abbreviation chain := (production_checkers blocklist config refund_node node).

Lemma production_sized p : Forall (sized context p) chain.
Proof using node_history refund_history.
  assert (forall checker aspects (P : Prop), (forall c, checker p context = Assessment.Secure c ->
    c = cov_all_calls (length (calls p)) aspects /\ P) -> sized context p checker) as Hu.
  { intros checker aspects P Hc. apply (sized_uniform _ _ _ aspects). intros c He. by apply Hc in He as [-> _]. }
  repeat constructor.
  - apply cancellation_sized.
  - apply escape_hatch_sized.
  - apply base_sized.
  - intros c. unfold blocklist_check. by destruct (any_call_blocklisted _ _).
  - apply nested_sized.
  - intros c. unfold excessive_approval_check. by destruct (existsb _ _).
  - eapply Hu. intros c. apply cow_secure.
  - eapply Hu. intros c. apply staking_secure.
  - intros c. unfold refund_check. destruct (refund_transfer _); [|done].
    destruct (address_poisoning_check _ _ _ _); try done. intros [= <-]. apply length_replicate.
  - eapply Hu. intros c Hc. by apply (poisoning_secure h) in Hc.
Qed.

(** Who vouches for the value and for the data of a call. *)
Lemma value_vouched p i : vouched context chain p i 1 ->
  (exists c, cancellation_check p context = Assessment.Secure c) \/
  (exists c, escape_hatch_check p context = Assessment.Secure c).
Proof using node_history.
  intros (ch & c & Hin & Hc & Hcl). unfold production_checkers in Hin. rewrite !elem_of_cons, elem_of_nil in Hin.
  destruct Hin as [->|[->|[->|[->|[->|[->|[->|[->|[->|[->|[]]]]]]]]]]]; [by left; eauto|by right; eauto|exfalso..].
  - apply base_secure in Hc as ->. by apply claims_uniform in Hcl.
  - unfold blocklist_check in Hc. by destruct (any_call_blocklisted _ _).
  - apply nested_secure in Hc as [-> _]. by apply claims_uniform in Hcl.
  - unfold excessive_approval_check in Hc. by destruct (existsb _ _).
  - apply cow_secure in Hc as [-> _]. by apply claims_uniform in Hcl.
  - apply staking_secure in Hc as [-> _]. by apply claims_uniform in Hcl.
  - unfold refund_check in Hc. destruct (refund_transfer _); [|done].
    destruct (address_poisoning_check _ _ _ _); try done. injection Hc as <-.
    destruct Hcl as (a & Ha & Hb). apply lookup_replicate_1 in Ha as [-> _]. done.
  - apply (poisoning_secure h) in Hc as [-> _]; [|done]. by apply claims_uniform in Hcl.
Qed.

Lemma data_vouched p i : vouched context chain p i 2 ->
  (exists c, cancellation_check p context = Assessment.Secure c) \/ data_trusted h config node context p.
Proof using node_history.
  intros (ch & c & Hin & Hc & Hcl). unfold production_checkers in Hin. rewrite !elem_of_cons, elem_of_nil in Hin.
  destruct Hin as [->|[->|[->|[->|[->|[->|[->|[->|[->|[->|[]]]]]]]]]]].
  - by left; eauto.
  - right. apply escape_hatch_secure in Hc as [_ Hc]. by apply trusted_escape_hatch.
  - exfalso. apply base_secure in Hc as ->. by apply claims_uniform in Hcl.
  - unfold blocklist_check in Hc. by destruct (any_call_blocklisted _ _).
  - right. apply nested_secure in Hc as [_ Hc]. by apply trusted_nested.
  - unfold excessive_approval_check in Hc. by destruct (existsb _ _).
  - right. apply cow_secure in Hc as [_ Hc]. by apply trusted_order.
  - right. apply staking_secure in Hc as (_ & H1 & H2). by apply trusted_staking.
  - exfalso. unfold refund_check in Hc. destruct (refund_transfer _); [|done].
    destruct (address_poisoning_check _ _ _ _); try done. injection Hc as <-.
    destruct Hcl as (a & Ha & Hb). apply lookup_replicate_1 in Ha as [-> _]. done.
  - right. apply (poisoning_secure h) in Hc as (_ & current & Hcur & Hc); [|done]. by eapply trusted_history.
Qed.

Lemma refund_is_vouched p : refund_vouched context chain p ->
  (exists c, cancellation_check p context = Assessment.Secure c) \/
  (exists c, refund_check config refund_node p context = Assessment.Secure c).
Proof using node_history.
  intros (ch & c & Hin & Hc & Hcl). unfold production_checkers in Hin. rewrite !elem_of_cons, elem_of_nil in Hin.
  destruct Hin as [->|[->|[->|[->|[->|[->|[->|[->|[->|[->|[]]]]]]]]]]]; [by left; eauto|exfalso..| |exfalso].
  - by apply escape_hatch_secure in Hc as [-> _].
  - by apply base_secure in Hc as ->.
  - unfold blocklist_check in Hc. by destruct (any_call_blocklisted _ _).
  - by apply nested_secure in Hc as [-> _].
  - unfold excessive_approval_check in Hc. by destruct (existsb _ _).
  - by apply cow_secure in Hc as [-> _].
  - by apply staking_secure in Hc as [-> _].
  - by right; eauto.
  - by apply (poisoning_secure h) in Hc as [-> _].
Qed.

(** No check of the chain denies: its calls are allowed, but for their value. *)
Lemma undenied_calls p : Forall (fun c => forall r, ~ denies context p c r) chain ->
  Forall (fun call => m_to call ∉ blocklist /\ check_call (safe (transaction p)) call = Ok () /\
    forall e, e ∈ decode_target_effects call -> is_unlimited e = false) (calls p).
Proof.
  intros Hd. unfold production_checkers in Hd. rewrite !Forall_cons in Hd.
  destruct Hd as (_ & _ & Hbase & Hblock & _ & Happr & _). unfold denies in *.
  unfold base_check in Hbase. destruct (check_all_calls _ _) as [[]|r] eqn:Eb; [|by destruct (Hbase r)].
  apply check_all_calls_Ok in Eb. unfold blocklist_check in Hblock.
  destruct (any_call_blocklisted blocklist (calls p)) eqn:El; [by destruct (Hblock R4_6KnownMaliciousTarget)|].
  unfold excessive_approval_check in Happr.
  destruct (existsb _ (calls p)) eqn:Ea; [by destruct (Happr R4_5ExcessiveApproval)|].
  apply Forall_forall. intros call Hin. rewrite Forall_forall in Eb. split_and!; [|by apply Eb|].
  - intros Hto. apply not_true_iff_false in El. apply El. unfold any_call_blocklisted. apply existsb_exists.
    exists call. split; [by apply list_elem_of_In|by apply bool_decide_eq_true].
  - intros e He. destruct (is_unlimited e) eqn:Eu; [|done]. apply not_true_iff_false in Ea. destruct Ea.
    apply existsb_exists. exists call. split; [by apply list_elem_of_In|]. apply existsb_exists.
    exists e. split; [by apply list_elem_of_In|done].
Qed.

(** Secure verdicts, as the composition defines them. *)
Lemma secure_composed t : security_check chain t context = Verdict.Secure ->
  exists p, parse t = Ok p /\ transaction p = t /\
    Forall (fun c => forall r, ~ denies context p c r) chain /\ fully_vouched context chain p.
Proof using node_history refund_history.
  intros (p & Hp & Hd & Hv)%secure_vouched; [|apply production_sized]. exists p.
  destruct (parse_plain t p Hp) as [Ht _]. by split_and!.
Qed.

Lemma secure_no_value t p : parse t = Ok p -> fully_vouched context chain p ->
  Forall (fun call => m_operation call = Call -> m_value call = 0) (calls p).
Proof using node_history.
  intros Hp [Hv _]. apply Forall_lookup. intros i call Hi Ho.
  destruct (decide (m_value call = 0)) as [|Hne]; [done|].
  destruct (value_vouched p i) as [(c & Hc)|(c & Hc)].
  - apply (Hv i call 1 Hi). right; right; left. split_and!; [done|done|congruence].
  - apply (cancellation_secure t) in Hc as [_ Hc]; [|done]. rewrite Forall_lookup in Hc. by apply (Hc i call Hi).
  - apply escape_hatch_secure in Hc as [_ Hc]. rewrite Forall_lookup in Hc. by apply escape_hatch_no_value, (Hc i call Hi).
Qed.

Lemma secure_data t p : parse t = Ok p -> fully_vouched context chain p -> data_trusted h config node context p.
Proof using node_history.
  intros Hp [Hv _]. destruct (decide (Forall (fun call => m_data call = []) (calls p))) as [Hn|Hn]; [by apply no_data|].
  apply not_Forall_Exists, Exists_exists in Hn as (call & Hin & Hd); [|apply _].
  apply list_elem_of_lookup in Hin as [i Hi]. destruct (data_vouched p i) as [(c & Hc)|Ht]; [|  |done].
  - apply (Hv i call 2 Hi). right; right; right. by split.
  - apply (cancellation_secure t) in Hc as [_ Hc]; [|done]. rewrite Forall_lookup in Hc.
    destruct (Hc i call Hi) as [_ Hdata]. by destruct Hd.
Qed.

Lemma secure_calls t p : parse t = Ok p -> Forall (fun c => forall r, ~ denies context p c r) chain ->
  fully_vouched context chain p -> Forall (call_allowed blocklist (safe t)) (calls p).
Proof using node_history.
  intros Hp Hd Hv. pose proof (undenied_calls p Hd) as Hu. pose proof (secure_no_value t p Hp Hv) as Hn.
  destruct (parse_plain t p Hp) as [Ht _]. rewrite Ht in Hu.
  apply Forall_forall. intros call Hin. rewrite Forall_forall in Hu. rewrite Forall_forall in Hn.
  destruct (Hu call Hin) as (Hb & Hc & He). pose proof (Hn call Hin) as Hval.
  apply check_call_Ok in Hc as [H1 H2]. by split.
Qed.

(** C4: what a secure verdict lets a Safe do. Every call the transaction makes goes
    to no blocked destination, changes the Safe's own settings only as allowed,
    delegates only to known contracts, grants no unlimited approval and moves no
    native value; its data is trusted for one of six reasons (there is none, it
    only registers or clears announcements, it drives another Safe, it is an order
    whose proceeds return to the Safe and whose approval does not exceed it, it
    stakes at least what it approves and claims for the Safe, or every target is
    established in the Safe's history); and a refund, if any, is paid to a receiver
    established in that history. *)
Theorem secure_means t :
  refund_fields_ok t -> security_check chain t context = Verdict.Secure ->
  exists p, parse t = Ok p /\ Forall (call_allowed blocklist (safe t)) (calls p) /\
    data_trusted h config node context p /\
    (gas_price t <> 0 -> gas_token t <> 0 /\ refund_receiver t <> 0 /\
      exists current, resolve_block refund_node context = Some current /\
        established h config current (safe t) (gas_token t) (refund_receiver t)).
Proof using node_history refund_history CL.
  intros Hf (p & Hp & Ht & Hd & Hv)%secure_composed. exists p. split_and!.
  - done.
  - by apply secure_calls.
  - by eapply secure_data.
  - intros Hg. destruct (refund_is_vouched p) as [(c & Hc)|(c & Hc)].
    + apply (proj2 Hv). by rewrite Ht.
    + apply (cancellation_secure t) in Hc as [Hz _]; [|done]. done.
    + apply (refund_secure h) in Hc as (_ & _ & H1 & H2 & current & Hcur & He); [|done|by rewrite Ht].
      rewrite Ht in *. split_and!; [done|done|]. by exists current.
Qed.

(** ** Orders *)

(** The selectors the checks tell calls apart by are different. *)
Definition told_apart : list string := [
  announceTransaction; cancelAnnouncement; execTransaction; "transfer(address,uint256)"%string;
  "transferFrom(address,address,uint256)"%string; "approve(address,uint256)"%string;
  "setPreSignature(bytes,bool)"%string; "createWithContext((address,bytes32,bytes),address,bytes,bool)"%string].
Hypothesis selectors_distinct : NoDup (selector <$> told_apart).

Lemma length_selector signature : length (selector signature) = 4%nat.
Proof. unfold selector. rewrite length_take, length_be_bytes. done. Qed.

Lemma starts_with_inj d a b :
  starts_with d (selector a) = true -> starts_with d (selector b) = true -> selector a = selector b.
Proof.
  unfold starts_with. rewrite !bool_decide_eq_true, !length_selector. congruence.
Qed.

Lemma starts_with_data d a : starts_with d (selector a) = true -> d <> [].
Proof.
  unfold starts_with. rewrite bool_decide_eq_true. intros H ->. pose proof (length_selector a) as Hl.
  rewrite <- H in Hl. by rewrite take_nil in Hl.
Qed.

(** The call that commits the Safe to an order is no call any other check trusts. *)
Definition is_trigger (call : MetaTransaction) : bool := is_presignature call || is_twap_create call.

Lemma plain_call_to_target call target :
  plain_call_to call target = true -> m_operation call = Call /\ m_value call = 0 /\ m_to call = target.
Proof.
  unfold plain_call_to. rewrite negb_true_iff, !orb_false_iff, !negb_false_iff, !bool_decide_eq_true. tauto.
Qed.

Lemma trigger_selector call : is_trigger call = true ->
  (m_to call = GP_V2_SETTLEMENT \/ m_to call = COMPOSABLE_COW) /\
  exists s, (s = "setPreSignature(bytes,bool)"%string \/
             s = "createWithContext((address,bytes32,bytes),address,bytes,bool)"%string) /\
    starts_with (m_data call) (selector s) = true.
Proof using CL.
  unfold is_trigger. rewrite orb_true_iff. intros [Hp|Ht].
  - unfold is_presignature in Hp. apply andb_true_iff in Hp as [Hto Hd]. apply plain_call_to_target in Hto as (_ & _ & Hto).
    destruct (setPreSignatureCall (m_data call)) eqn:E; [|done]. apply setPreSignature_selector in E.
    split; [by left|]. exists "setPreSignature(bytes,bool)"%string. split; [by left|done].
  - unfold is_twap_create in Ht. apply andb_true_iff in Ht as [Hto Hd]. apply plain_call_to_target in Hto as (_ & _ & Hto).
    destruct (createWithContextCall (m_data call)) eqn:E; [|done]. apply createWithContext_selector in E.
    split; [by right|]. exists "createWithContext((address,bytes32,bytes),address,bytes,bool)"%string. split; [by right|done].
Qed.

Lemma selectors_apart i j a b : told_apart !! i = Some a -> told_apart !! j = Some b ->
  selector a = selector b -> i = j.
Proof using selectors_distinct.
  intros Ha Hb Heq. apply (NoDup_lookup _ i j (selector a) selectors_distinct); rewrite list_lookup_fmap.
  - by rewrite Ha.
  - by rewrite Hb, Heq.
Qed.

Lemma trigger_apart call i s : is_trigger call = true -> told_apart !! i = Some s -> (i < 6)%nat ->
  starts_with (m_data call) (selector s) = false.
Proof using CL selectors_distinct.
  intros Ht Hs Hi. destruct (starts_with (m_data call) (selector s)) eqn:E; [|done]. exfalso.
  apply trigger_selector in Ht as (_ & s' & Hs' & Hd). pose proof (starts_with_inj _ _ _ E Hd) as Heq.
  destruct Hs' as [->| ->].
  - pose proof (selectors_apart i 6 _ _ Hs eq_refl Heq). lia.
  - pose proof (selectors_apart i 7 _ _ Hs eq_refl Heq). lia.
Qed.

(** A trigger calls no staking contract. *)
Lemma trigger_no_staking call : is_trigger call = true ->
  claim_account call = None /\ staking_approval_amount call = None /\ stake_amount call = None.
Proof using CL.
  intros Ht. apply trigger_selector in Ht as [Hto _].
  assert (forall target, target <> GP_V2_SETTLEMENT -> target <> COMPOSABLE_COW -> plain_call_to call target = false) as Hn.
  { intros target H1 H2. destruct (plain_call_to call target) eqn:E; [|done].
    apply plain_call_to_target in E as (_ & _ & E). destruct Hto; congruence. }
  unfold claim_account, staking_approval_amount, stake_amount. by rewrite !Hn.
Qed.

Lemma trigger_no_target safe call : is_trigger call = true -> decode_target safe call = None.
Proof using CL selectors_distinct.
  intros Ht. unfold decode_target. case_decide; [done|].
  destruct (transferCall (m_data call)) as [[]|] eqn:E1.
  { apply transfer_selector in E1. by rewrite (trigger_apart call 3 _ Ht eq_refl) in E1 by lia. }
  destruct (transferFromCall (m_data call)) as [[[]]|] eqn:E2.
  { apply transferFrom_selector in E2. by rewrite (trigger_apart call 4 _ Ht eq_refl) in E2 by lia. }
  destruct (approveCall (m_data call)) as [[]|] eqn:E3; [|done].
  apply approve_selector in E3. by rewrite (trigger_apart call 5 _ Ht eq_refl) in E3 by lia.
Qed.

(** Only an order is a reason to trust the data of a transaction with a trigger. *)
Lemma trigger_ordered p call : call ∈ calls p -> is_trigger call = true -> data_trusted h config node context p ->
  cow_order (safe (transaction p)) (chain_id (transaction p)) (calls p).
Proof using CL selectors_distinct.
  intros Hin Ht [Hn|He|Hn| |Hchain Hs|current Hcur Hk]; try done; exfalso.
  - rewrite Forall_forall in Hn. apply trigger_selector in Ht as (_ & s & _ & Hd).
    by apply (starts_with_data _ _ Hd), Hn.
  - rewrite Forall_forall in He. specialize (He call Hin). unfold is_escape_hatch_call in He.
    rewrite (trigger_apart call 0 _ Ht eq_refl), (trigger_apart call 1 _ Ht eq_refl) in He by lia.
    by destruct (_ || negb _).
  - rewrite Forall_forall in Hn. specialize (Hn call Hin). unfold is_nested_exec_transaction in Hn.
    rewrite (trigger_apart call 2 _ Ht eq_refl) in Hn by lia.
    by rewrite andb_false_r in Hn.
  - destruct (trigger_no_staking call Ht) as (Hc & Ha & Hst). destruct Hs as [_ Hrest]. cbn zeta in Hrest.
    assert (call ∈ filter (fun call => claim_account call = None) (calls p)) as Hf by (by apply list_elem_of_filter).
    destruct Hrest as [Hr|[(s & a & Hr & Hsa)|(x & y & a & b & Hr & Hxa & Hyb & _)]]; rewrite Hr in Hf.
    + by apply elem_of_nil in Hf.
    + apply list_elem_of_singleton in Hf as ->. congruence.
    + rewrite !elem_of_cons, elem_of_nil in Hf. destruct Hf as [->|[->|[]]]; congruence.
  - rewrite Forall_forall in Hk. destruct (Hk call Hin) as (r & k & Hd & _). by rewrite trigger_no_target in Hd.
Qed.

(** A TWAP order whose terms are read back. *)
Lemma twap_terms_of order token recv total n :
  twap_order_terms order = Some (token, recv, total, n) ->
  exists c o, createWithContextCall (m_data order) = Some c /\ plain_call_to order COMPOSABLE_COW = true /\
    cc_handler c = TWAP_HANDLER /\ twap_data (cc_staticInput c) = Some o /\
    twap_sellToken o = token /\ twap_receiver o = recv /\ twap_n o = n /\
    total = twap_partSellAmount o * n /\ total <= u256_max.
Proof.
  unfold twap_order_terms. destruct (plain_call_to order COMPOSABLE_COW); [|done].
  destruct (createWithContextCall (m_data order)) as [c|]; [|done]. cbn [mbind option_bind].
  case_decide as Hh; [done|]. destruct (twap_data (cc_staticInput c)) as [o|] eqn:Eo; [|done]. cbn [mbind option_bind].
  unfold checked_mul_u256. case_decide as Hm; [|done]. cbn [mbind option_bind]. intros [= <- <- <- <-].
  assert (cc_handler c = TWAP_HANDLER) as Hc by (apply dec_stable; tauto).
  exists c, o. split_and!; try done; lia.
Qed.

(** The headroom of a TWAP's approval is what splitting it into parts rounds away. *)
Lemma twap_part_share amount part n : 0 < n -> amount <= part * n + Z.max 0 (n - 1) -> amount / n <= part.
Proof. intros Hn Ha. assert (amount / n < part + 1); [|lia]. apply Z.div_lt_upper_bound; lia. Qed.

(** C36: an approval of CoW Swap's relayer comes with one order that spends it. On
    a chain CoW Swap is supported on, if a secure transaction approves the relayer
    for an amount of a token, it is that approval and one call that commits to an
    order, in either order, and nothing else: a presigned order that sells exactly
    that amount of that token with its proceeds for the Safe, the identifier
    presigned being the hash of the terms served (the owner they name is not
    compared with the Safe); or a TWAP order for the Safe that sells that token in
    parts, of which each is at least the approved amount divided by their number,
    rounded down, and which do not overflow together. The number of parts is
    theirs to choose, and so is what rounding leaves over. *)
Theorem approvals_buy_orders t p call (token amount : Z) :
  chain_id t ∈ SUPPORTED_CHAIN_IDS -> security_check chain t context = Verdict.Secure -> parse t = Ok p ->
  call ∈ calls p -> vault_relayer_approval_amount call = Some (token, amount) ->
  exists order, (calls p = [call; order] \/ calls p = [order; call]) /\
    ((exists uid base o, presignature_order_uid order = Some uid /\ order_api_base_url (chain_id t) = Some base /\
        fetch_order base uid = Some o /\ uid = compute_order_uid (chain_id t) o /\
        receiver o = safe t /\ sell_token o = token /\ sell_amount o = amount) \/
     (exists c o, createWithContextCall (m_data order) = Some c /\ plain_call_to order COMPOSABLE_COW = true /\
        cc_handler c = TWAP_HANDLER /\ twap_data (cc_staticInput c) = Some o /\
        twap_sellToken o = token /\ (twap_receiver o = safe t \/ twap_receiver o = 0) /\
        twap_partSellAmount o * twap_n o <= u256_max /\
        (0 < twap_n o -> amount / twap_n o <= twap_partSellAmount o) /\
        (twap_n o <= 0 -> amount <= twap_partSellAmount o * twap_n o))).
Proof using node_history refund_history CL selectors_distinct.
  intros Hchain (p' & Hp' & Ht & Hd & Hv)%secure_composed Hp Hin Happ. rewrite Hp in Hp'. injection Hp' as <-.
  assert (exists trigger, trigger ∈ calls p /\ is_trigger trigger = true) as (trigger & Htin & Htr).
  { unfold production_checkers in Hd. rewrite !Forall_cons in Hd. destruct Hd as (_ & _ & _ & _ & _ & _ & Hcow & _).
    specialize (Hcow R4_4AuthorizationTarget). unfold denies, cow_check in Hcow. rewrite Ht, decide_True in Hcow by done.
    unfold check_dangling_approval in Hcow.
    assert (existsb approves_vault_relayer (calls p) = true) as Ha.
    { apply existsb_exists. exists call. split; [by apply list_elem_of_In|]. unfold approves_vault_relayer. by rewrite Happ. }
    rewrite Ha in Hcow. cbn [negb] in Hcow.
    destruct (existsb _ (calls p)) eqn:E; [|by destruct Hcow]. apply existsb_exists in E as (x & Hx%list_elem_of_In & Hxt).
    by exists x. }
  pose proof (trigger_ordered p trigger Htin Htr (secure_data t p Hp Hv)) as Ho. rewrite Ht in Ho.
  assert (forall x, approveCall (m_data x) <> None -> is_trigger x = true -> False) as Hclash.
  { intros x Hx Hxt. destruct (approveCall (m_data x)) eqn:E; [|done]. apply approve_selector in E.
    by rewrite (trigger_apart x 5 _ Hxt eq_refl) in E by lia. }
  assert (approveCall (m_data call) <> None) as Hc.
  { unfold vault_relayer_approval_amount in Happ. case_decide; [done|]. by destruct (approveCall (m_data call)). }
  destruct Ho as [approval presign token' amount' uid base o Hcs Ha Hu Hb Hf Heq Hr Hst Hsa
                 |approval create token' amount' recv total n Hcs Ha Hterms Hr Hle].
  - assert (is_trigger presign = true) as Htp.
    { unfold is_trigger, is_presignature. unfold presignature_order_uid in Hu.
      destruct (plain_call_to _ _); [|done]. by destruct (setPreSignatureCall _). }
    assert (call = approval) as -> by (destruct Hcs as [Hcs|Hcs]; rewrite Hcs in Hin; set_solver).
    exists presign. split; [done|]. left. exists uid, base, o. simplify_eq. by split_and!.
  - assert (is_trigger create = true) as Htp.
    { unfold is_trigger, is_twap_create. unfold twap_order_terms in Hterms. apply orb_true_iff. right.
      destruct (plain_call_to _ _); [|done]. destruct (createWithContextCall _) as [c|]; [|done]. cbn [mbind option_bind] in Hterms.
      case_decide as Hx; [done|]. apply andb_true_iff. split; [done|]. apply andb_true_iff. rewrite !bool_decide_eq_true. split; apply dec_stable; tauto. }
    assert (call = approval) as -> by (destruct Hcs as [Hcs|Hcs]; rewrite Hcs in Hin; set_solver).
    exists create. split; [done|]. right. rewrite Happ in Ha. injection Ha as <- <-.
    destruct (twap_terms_of _ _ _ _ _ Hterms) as (c & o & H1 & H2 & H3 & H4 & H5 & H6 & H7 & -> & H8).
    exists c, o. subst n recv. split_and!; try done; [intros Hn; by apply twap_part_share|lia].
Qed.
End Deployed.
End Chain.
