(* ===== verification/ToyEngine.v ===== *)
(** A concrete engine: calldata of fixed shapes, a node that serves a short history,
    an order book, and transactions it finds secure and insecure, which show that
    the hypotheses of the engine's theorems can hold. *)

From Stdlib Require Import String.
From S2P Require Import Prelude Keccak Batches Coverage Checks Cow Poisoning Engine.

(** ** Encodings *)

(** A digest whose leading bytes differ for the signatures of calls. *)
#[local] Definition spread_digest (l : bytes) : Z :=
  foldl (fun h b => h * 257 + b + 1) 7 l * (2 ^ 201 + 12345) mod (2 ^ 255 - 19).
#[local] Instance spread_keccak : Keccak := {| keccak256 := spread_digest |}.

(** What follows the selector of a call. *)
Definition arguments (signature : string) (data : bytes) : option bytes :=
  if starts_with data (selector signature) then Some (drop 4 data) else None.
Definition word (i : nat) (args : bytes) : Z := from_be (take 32 (drop (32 * i) args)).

Definition transfer_signature : string := "transfer(address,uint256)".
Definition transferFrom_signature : string := "transferFrom(address,address,uint256)".
Definition approve_signature : string := "approve(address,uint256)".
Definition setPreSignature_signature : string := "setPreSignature(bytes,bool)".
Definition createWithContext_signature : string := "createWithContext((address,bytes32,bytes),address,bytes,bool)".

#[local] Instance toy_call_abi : CallAbi := {|
  transferCall d := (fun a => (word 0 a, word 1 a)) <$> arguments transfer_signature d;
  transferFromCall d := (fun a => (word 0 a, word 1 a, word 2 a)) <$> arguments transferFrom_signature d;
  approveCall d := (fun a => (word 0 a, word 1 a)) <$> arguments approve_signature d;
  setApprovalForAllCall _ := None; safeTransferFrom_0Call _ := None; safeTransferFrom_1Call _ := None;
  erc1155_safeTransferFromCall _ := None; safeBatchTransferFromCall _ := None;
  setFallbackHandlerCall _ := None; setGuardCall _ := None; enableModuleCall _ := None; setModuleGuardCall _ := None;
  execTransactionCall _ := Some tt; stakeCall _ := None; claimCall _ := None;
  setPreSignatureCall d :=
    (fun a => (drop 32 a, bool_decide (word 0 a = 1))) <$> arguments setPreSignature_signature d;
  createWithContextCall d :=
    (fun a => MkCreateWithContext (word 0 a) 0 (drop 64 a) (word 1 a) [] false) <$> arguments createWithContext_signature d;
  twap_data a := Some (MkTwapData (word 0 a) 0 (word 1 a) (word 2 a) 0 0 (word 3 a) 0 0 0);
  encode_transfer to amount := selector transfer_signature ++ be_bytes 32 to ++ be_bytes 32 amount
|}.

Lemma arguments_selector {A} signature data (f : bytes -> A) r :
  f <$> arguments signature data = Some r -> starts_with data (selector signature) = true.
Proof. unfold arguments. by destruct (starts_with _ _). Qed.

Lemma length_toy_selector signature : length (selector signature) = 4%nat.
Proof. unfold selector. rewrite length_take, length_be_bytes. done. Qed.

Lemma arguments_app signature args : arguments signature (selector signature ++ args) = Some args.
Proof.
  unfold arguments, starts_with. rewrite bool_decide_true by apply take_app_length.
  by rewrite <- (length_toy_selector signature), drop_app_length.
Qed.

Lemma words_app a b : length a = 32%nat -> length b = 32%nat -> word 0 (a ++ b) = from_be a /\ word 1 (a ++ b) = from_be b.
Proof.
  intros Ha Hb. unfold word. change (32 * 0)%nat with 0%nat. change (32 * 1)%nat with 32%nat.
  rewrite drop_0. split; f_equal.
  - by rewrite <- Ha, take_app_length.
  - rewrite <- Ha, drop_app_length. rewrite Ha, <- Hb. apply take_ge. lia.
Qed.

#[local] Instance toy_call_laws : CallLaws.
Proof.
  split; try (intros data r; apply arguments_selector). intros to amount Hto Ha. cbn [transferCall encode_transfer toy_call_abi].
  rewrite arguments_app. cbn [fmap option_fmap option_map].
  destruct (words_app (be_bytes 32 to) (be_bytes 32 amount)) as [-> ->]; [apply length_be_bytes..|].
  rewrite !from_be_be_bytes; [done|..]; change (256 ^ Z.of_nat 32) with (2 ^ 256); [done|].
  assert (2 ^ 160 < 2 ^ 256) by done. lia.
Qed.

#[local] Instance toy_multi_send : MultiSendAbi := {|
  multi_send_decode calldata := match calldata with [] => None | _ :: payload => Some payload end
|}.
#[local] Instance toy_multi_send_laws : MultiSendLaws.
Proof. split. intros [|b l] payload Hp; [done|]. injection Hp as ->. simpl. lia. Qed.

#[local] Instance toy_log_abi : LogAbi := {|
  decode_transfer_log log :=
    match log_topics log with [_; from; to] => Some (from, to, from_be (log_bytes log)) | _ => None end;
  decode_approval_log log :=
    match log_topics log with [_; owner; spender] => Some (owner, spender, from_be (log_bytes log)) | _ => None end
|}.

#[local] Instance toy_order_hash : OrderHash := {|
  order_signing_hash chain_id contract o :=
    keccak256 (be_bytes 32 (o_sellToken o) ++ be_bytes 32 (o_receiver o) ++ be_bytes 32 (o_sellAmount o) ++ be_bytes 8 chain_id)
|}.

(** ** A Safe, what it did and what it orders *)

Definition toy_safe : Z := 0x5afe.
Definition toy_token : Z := 0x70ce.
Definition toy_recipient : Z := 0x1234000000000000000000000000000000005678.
Definition toy_lookalike : Z := 0x1234000000000000000000000000000000ff5678.

Definition toy_order : CowOrder :=
  MkCowOrder toy_safe None toy_token 0xb0b 1000 990 77 0 0 "sell" false "erc20" "erc20".
#[local] Instance toy_order_book : OrderApi := {| fetch_order _ _ := Some toy_order |}.

(** It paid the recipient in block 42. *)
Definition toy_history : History := fun block token safe =>
  if decide (block = 42 /\ token = toy_token /\ safe = toy_safe)
  then [MkLog [Transfer_SIGNATURE_HASH; toy_safe; toy_recipient] (be_bytes 32 250)] else [].
Definition toy_config : PoisoningConfig := MkPoisoningConfig 80 (Some 9).
Definition toy_context : CheckContext := MkCheckContext LatestBlock None.

(** A node that answers, and one that fails from its [n]th request on. *)
Definition failing_node (fails : nat -> bool) : Provider :=
  MkProvider 1 (Some 100) (fun tick f =>
    if fails tick then None else Some (range_logs toy_history (f_address f) (f_topic1 f) (f_from_block f) (f_to_block f))).
Definition toy_node : Provider := failing_node (fun _ => false).

Lemma failing_node_serves fails : serves (failing_node fails) toy_history.
Proof. intros tick token safe chunk. cbn [get_logs failing_node]. destruct (fails tick); [by left|by right]. Qed.

Lemma failing_node_ok fails timestamp :
  history_ok toy_history toy_config (failing_node fails) (MkCheckContext LatestBlock timestamp).
Proof.
  split; [apply failing_node_serves|done|..].
  - by intros m [= <-].
  - by intros current [= <-].
Qed.

Definition call_transaction (call : MetaTransaction) : SafeTransaction :=
  MkSafeTransaction 1 toy_safe (m_to call) (m_value call) (m_data call) (m_operation call) 0 0 0 0 0 7.
Definition toy_transfer (recipient : Z) : SafeTransaction :=
  call_transaction (MkMetaTransaction toy_token 0 (encode_transfer recipient 5) Call).
(** The same, with its gas refunded to the recipient. *)
Definition toy_refunded : SafeTransaction :=
  MkSafeTransaction 1 toy_safe toy_token 0 (encode_transfer toy_recipient 5) Call 21000 10 3 toy_token toy_recipient 7.

Definition approve_relayer (amount : Z) : MetaTransaction :=
  MkMetaTransaction toy_token 0
    (selector approve_signature ++ be_bytes 32 GP_V2_VAULT_RELAYER ++ be_bytes 32 amount) Call.
Definition presign_order : MetaTransaction :=
  MkMetaTransaction GP_V2_SETTLEMENT 0
    (selector setPreSignature_signature ++ be_bytes 32 1 ++ compute_order_uid 1 toy_order) Call.
Definition toy_batch (entries : list MetaTransaction) : MetaTransaction :=
  MkMetaTransaction 0x218543288004CD07832472D464648173c77D7eB7 0 (0 :: concat (pack <$> entries)) DelegateCall.
Definition toy_sale (amount : Z) : SafeTransaction :=
  call_transaction (toy_batch [approve_relayer amount; presign_order]).

Definition toy_blocklist : gset Z := {[0xbad]}.
Definition toy_chain : list Checker := production_checkers toy_blocklist toy_config toy_node toy_node.

Definition verdict_name (v : Verdict.t) : string :=
  match v with Verdict.Secure => "secure" | Verdict.Insecure rule => code rule | Verdict.Abstain => "abstain" end.

(** An established recipient and a matching order are secure; a lookalike, an
    approval beyond the order and a blocked destination are not. *)
Lemma toy_verdicts :
  (fun t => verdict_name (security_check toy_chain t toy_context)) <$>
    [toy_transfer toy_recipient; toy_refunded; toy_sale 1000; toy_transfer toy_lookalike; toy_sale 1001;
     call_transaction (MkMetaTransaction 0xbad 0 [] Call); toy_transfer 99] =
  ["secure"; "secure"; "secure"; "R-4.3"; "R-4.5"; "R-4.6"; "abstain"]%string.
Proof. vm_compute. reflexivity. Qed.

(** ** Witnesses *)

(** Batches in batches, one call of which names the zero address. *)
Fixpoint nested_batch (depth : nat) : MetaTransaction :=
  match depth with
  | O => MkMetaTransaction 0 3 [] Call
  | S depth => toy_batch [MkMetaTransaction 9 0 [1] Call; nested_batch depth]
  end.

Lemma batches_flatten_witness :
  parse (call_transaction (nested_batch 4)) =
    Ok (MkProposal (call_transaction (nested_batch 4))
      (replicate 4 (MkMetaTransaction 9 0 [1] Call) ++ [MkMetaTransaction toy_safe 3 [] Call])) /\
  parse (call_transaction (nested_batch 5)) = Err TooDeep /\
  exists depth cs, makes toy_safe (nested_batch 5) depth cs /\ ~ (depth <= 4)%nat.
Proof.
  assert (parse (call_transaction (nested_batch 5)) = Err TooDeep) as He by (vm_compute; reflexivity).
  split; [vm_compute; reflexivity|]. split; [exact He|].
  destruct (batches_flatten (call_transaction (nested_batch 5))) as [(depth & cs & Hm & _ & Hp) _].
  exists depth, cs. split; [exact Hm|]. intros Hd. rewrite Hp, decide_True in He by exact Hd. discriminate He.
Defined.

(** A denial is the chain's first, whichever check would deny after it. *)
Lemma verdict_composition_witness :
  security_check toy_chain (toy_sale 1001) toy_context = Verdict.Insecure R4_5ExcessiveApproval /\
  exists p before checker after, parse (toy_sale 1001) = Ok p /\ toy_chain = before ++ checker :: after /\
    denies toy_context p checker R4_5ExcessiveApproval /\
    Forall (fun c => forall r, ~ denies toy_context p c r) before.
Proof.
  assert (security_check toy_chain (toy_sale 1001) toy_context = Verdict.Insecure R4_5ExcessiveApproval) as Hv
    by (vm_compute; reflexivity).
  split; [exact Hv|].
  refine (proj1 (proj1 (proj2 (verdict_composition toy_context toy_chain (toy_sale 1001) _)) _) Hv).
  intros p. apply (production_sized _ toy_history); apply failing_node_ok.
Defined.

(** A node that fails its fourth request: the lookalike goes unseen. *)
Definition flaky_node : Provider := failing_node (fun tick => bool_decide (tick = 3)%nat).

Lemma poisoning_history_witness :
  exists p, parse (toy_transfer toy_lookalike) = Ok p /\
    address_poisoning_check toy_config toy_node p toy_context = Assessment.Insecure R4_3ValueTarget /\
    history_check toy_history (lookback_blocks toy_config) 100 p = Assessment.Insecure R4_3ValueTarget /\
    address_poisoning_check toy_config flaky_node p toy_context = Assessment.Abstain /\
    (forall c, address_poisoning_check toy_config flaky_node p toy_context = Assessment.Secure c ->
      history_check toy_history (lookback_blocks toy_config) 100 p = Assessment.Secure c).
Proof.
  eexists. split; [vm_compute; reflexivity|]. set (p := MkProposal _ _).
  assert (address_poisoning_check toy_config toy_node p toy_context = Assessment.Insecure R4_3ValueTarget) as Hv
    by (vm_compute; reflexivity).
  destruct (poisoning_history toy_history toy_config toy_node p toy_context 100) as [Hall _];
    [apply failing_node_serves|lia|done|by intros m [= <-]|done|done|].
  destruct (poisoning_history toy_history toy_config flaky_node p toy_context 100) as (_ & Hs & _);
    [apply failing_node_serves|lia|done|by intros m [= <-]|done|done|].
  split; [exact Hv|]. split; [|split; [vm_compute; reflexivity|exact Hs]].
  rewrite <- Hall; [exact Hv|]. intros tick f. by eexists.
Defined.

Lemma toy_refund_fields : refund_fields_ok toy_refunded.
Proof. by split; cbn [toy_refunded refund_receiver gas_price safe_tx_gas base_gas]. Qed.

Lemma secure_means_witness :
  security_check toy_chain toy_refunded toy_context = Verdict.Secure /\
  exists p, parse toy_refunded = Ok p /\ data_trusted toy_history toy_config toy_node toy_context p /\
    exists current, resolve_block toy_node toy_context = Some current /\
      established toy_history toy_config current toy_safe toy_token toy_recipient.
Proof.
  assert (security_check toy_chain toy_refunded toy_context = Verdict.Secure) as Hv by (vm_compute; reflexivity).
  split; [exact Hv|].
  destruct (secure_means toy_blocklist toy_history toy_config toy_node toy_node toy_context
    (failing_node_ok _ _) (failing_node_ok _ _) toy_refunded toy_refund_fields Hv) as (p & Hp & _ & Hd & Hr).
  exists p. split; [exact Hp|]. split; [exact Hd|]. destruct Hr as (_ & _ & Hr); [done|exact Hr].
Defined.

Lemma told_apart_distinct : NoDup (selector <$> told_apart).
Proof. apply (bool_decide_unpack _). vm_compute. exact I. Qed.

Lemma pair_other {A} (a b x : A) : [a; b] = [a; x] \/ [a; b] = [x; a] -> a <> b -> x = b.
Proof. naive_solver. Qed.

(** The sale of a thousand tokens. *)
Lemma approvals_buy_orders_witness :
  security_check toy_chain (toy_sale 1000) toy_context = Verdict.Secure /\
  exists order, approve_relayer 1000 <> order /\
    (exists uid base o, presignature_order_uid order = Some uid /\ order_api_base_url 1 = Some base /\
      fetch_order base uid = Some o /\ receiver o = toy_safe /\ sell_amount o = 1000).
Proof.
  assert (security_check toy_chain (toy_sale 1000) toy_context = Verdict.Secure) as Hv by (vm_compute; reflexivity).
  split; [exact Hv|].
  assert (parse (toy_sale 1000) = Ok (MkProposal (toy_sale 1000) [approve_relayer 1000; presign_order])) as Hp
    by (vm_compute; reflexivity).
  assert (vault_relayer_approval_amount (approve_relayer 1000) = Some (toy_token, 1000)) as Ha by (vm_compute; reflexivity).
  destruct (approvals_buy_orders toy_blocklist toy_history toy_config toy_node toy_node toy_context
    (failing_node_ok _ _) (failing_node_ok _ _) told_apart_distinct (toy_sale 1000)
    (MkProposal (toy_sale 1000) [approve_relayer 1000; presign_order]) (approve_relayer 1000) toy_token 1000)
    as (order & Hcs & Ho); [by left|exact Hv|exact Hp|by left|exact Ha|].
  assert (approve_relayer 1000 <> presign_order) as Hne by (vm_compute; discriminate).
  apply pair_other in Hcs as ->; [|exact Hne]. exists presign_order. split; [exact Hne|].
  destruct Ho as [(uid & base & o & Hu & Hb & Hf & _ & Hr & _ & Hs)|(c & o & _ & Ht & _)].
  - exists uid, base, o. exact (conj Hu (conj Hb (conj Hf (conj Hr Hs)))).
  - vm_compute in Ht. discriminate Ht.
Defined.
