(* ===== verification/Headers.v ===== *)
(** The headers of a security check: what the sentinel's client sets
    ([crates/sentinel/src/engine.rs]) and what the engine's extractors read
    ([crates/sentinel-engine/src/api/extractors.rs]). Headers are a list in the
    order they were appended, of which the first by a name counts. *)

From Stdlib Require Import String.
From S2P Require Import Prelude Text Verdicts.

(** Header values and the text of digests, third-party types. *)
Class Http := {
  HeaderValue : Type;
  header_from_str : string -> option HeaderValue;
  header_from_u64 : Z -> HeaderValue;
  header_to_str : HeaderValue -> option string;
  show_b256 : Z -> string;
  parse_b256 : string -> option Z
}.
Class HttpLaws `{Http} : Prop := {
  u64_header n : is_u64 n -> header_to_str (header_from_u64 n) = Some (decimal n);
  b256_header z : is_u256 z -> exists h, header_from_str (show_b256 z) = Some h /\ header_to_str h = Some (show_b256 z);
  b256_roundtrip z : is_u256 z -> parse_b256 (show_b256 z) = Some z
}.

(** A status and a message. *)
Record Rejection := MkRejection { status : Z; message : string }.
Definition BAD_REQUEST : Z := 400.

Section Headers.
Context {HT : Http}.

Notation Headers := (list (string * HeaderValue)).
Definition get_header (name : string) (hs : Headers) : option HeaderValue :=
  snd <$> head (filter (fun h => h.1 = name) hs).

(** ** The client *)

(** [SecurityCheck::request_id], [proposal_timestamp] and [timeout] on the request's
    headers; a value that is not one fails the request. *)
Definition set_request_id (id : Z) (hs : Headers) : option Headers :=
  h ← header_from_str (show_b256 id); Some (hs ++ [("x-request-id"%string, h)]).
Definition set_proposal_timestamp (timestamp : Z) (hs : Headers) : Headers :=
  hs ++ [("x-proposal-timestamp"%string, header_from_u64 timestamp)].
Definition set_timeout (ms : Z) (hs : Headers) : Headers :=
  hs ++ [("x-request-timeout"%string, header_from_u64 (Z.min u64_max ms))].

(** The headers of a check that was configured in the handler's order, after those
    of the body. *)
Definition headers_of {T} (body : Headers) (r : SecurityCheck T) : option Headers :=
  hs ← match sc_request_id r with Some id => set_request_id id body | None => Some body end;
  let hs := match sc_proposal_timestamp r with Some timestamp => set_proposal_timestamp timestamp hs | None => hs end in
  Some (match sc_timeout r with Some ms => set_timeout ms hs | None => hs end).

(** ** The engine *)

Definition parse_header {A} (parse : string -> option A) (name : string) (rejection : Rejection) (hs : Headers)
    : result Rejection (option A) :=
  match get_header name hs with
  | None => Ok None
  | Some header =>
      text ← ok_or (header_to_str header) rejection;
      value ← ok_or (parse text) rejection;
      Ok (Some value)
  end.

Definition id_rejection : Rejection :=
  MkRejection BAD_REQUEST "x-request-id must be a 0x-prefixed 32-byte digest".
Definition timeout_rejection : Rejection :=
  MkRejection BAD_REQUEST "x-request-timeout must be an unsigned integer number of milliseconds".
Definition timestamp_rejection : Rejection :=
  MkRejection BAD_REQUEST "x-proposal-timestamp must be an unsigned integer number of seconds".

Definition extract_request_id : Headers -> result Rejection (option Z) :=
  parse_header parse_b256 "x-request-id" id_rejection.
Definition extract_timeout : Headers -> result Rejection (option Z) :=
  parse_header parse_u64 "x-request-timeout" timeout_rejection.
Definition extract_proposal_timestamp : Headers -> result Rejection (option Z) :=
  parse_header parse_u64 "x-proposal-timestamp" timestamp_rejection.

(** The arguments of [api::security_check], extracted in their order. *)
Record Extracted := MkExtracted { x_request_id : option Z; x_timeout : option Z; x_proposal_timestamp : option Z }.
Definition extract (hs : Headers) : result Rejection Extracted :=
  id ← extract_request_id hs;
  timeout ← extract_timeout hs;
  timestamp ← extract_proposal_timestamp hs;
  Ok (MkExtracted id timeout timestamp).

(** ** Reading *)

(** The header a value is set by, if it is set. *)
Definition header_part (name : string) (h : option HeaderValue) : Headers := (fun h => (name, h)) <$> option_list h.

Lemma get_header_app name (hs hs' : Headers) : get_header name (hs ++ hs') =
  match get_header name hs with Some h => Some h | None => get_header name hs' end.
Proof. unfold get_header. rewrite filter_app. by destruct (filter _ hs). Qed.
Lemma get_header_part name name' h : get_header name (header_part name' h) = if decide (name' = name) then h else None.
Proof. unfold get_header, header_part. destruct h as [h|]; cbn; by case_decide. Qed.

(** A header carries a value that was set, and is absent for one that was not. *)
Definition carries {A} (parse : string -> option A) (h : option HeaderValue) (value : option A) : Prop :=
  match h, value with
  | Some h, Some value => exists text, header_to_str h = Some text /\ parse text = Some value
  | None, None => True
  | _, _ => False
  end.

Lemma parse_header_carries {A} (parse : string -> option A) name rejection hs value :
  carries parse (get_header name hs) value -> parse_header parse name rejection hs = Ok value.
Proof.
  unfold parse_header, carries. destruct (get_header name hs) as [h|], value as [value|]; try done.
  intros (text & -> & Hp). cbn. by rewrite Hp.
Qed.

Lemma carries_u64 {HL : HttpLaws} value : (forall n, value = Some n -> is_u64 n) ->
  carries parse_u64 (header_from_u64 <$> value) value.
Proof.
  intros Hv. destruct value as [n|]; [|done]. specialize (Hv n eq_refl). exists (decimal n).
  split; [by apply u64_header|]. by destruct Hv; apply parse_decimal.
Qed.

(** The other headers may be anything. *)
Definition unset (hs : Headers) : Prop :=
  get_header "x-request-id" hs = None /\ get_header "x-proposal-timestamp" hs = None /\ get_header "x-request-timeout" hs = None.
Definition in_range {T} (r : SecurityCheck T) : Prop :=
  (forall id, sc_request_id r = Some id -> is_u256 id) /\
  (forall timestamp, sc_proposal_timestamp r = Some timestamp -> is_u64 timestamp) /\
  (forall ms, sc_timeout r = Some ms -> is_u64 ms).

Lemma headers_of_parts {HL : HttpLaws} {T} body (r : SecurityCheck T) : in_range r ->
  exists h, carries parse_b256 h (sc_request_id r) /\
    headers_of body r = Some (body ++ header_part "x-request-id" h ++
      header_part "x-proposal-timestamp" (header_from_u64 <$> sc_proposal_timestamp r) ++
      header_part "x-request-timeout" (header_from_u64 <$> sc_timeout r)).
Proof.
  intros (Hid & _ & Hto). unfold headers_of.
  assert (exists h, carries parse_b256 h (sc_request_id r) /\
    match sc_request_id r with Some id => set_request_id id body | None => Some body end =
      Some (body ++ header_part "x-request-id" h)) as (h & Hc & ->).
  { destruct (sc_request_id r) as [id|]; [|by exists None; rewrite app_nil_r].
    specialize (Hid id eq_refl). destruct (b256_header id Hid) as (h & Hh & Ht). exists (Some h). unfold set_request_id.
    rewrite Hh. split; [|done]. exists (show_b256 id). split; [done|]. by apply b256_roundtrip. }
  exists h. split; [done|]. cbn [mbind option_bind]. f_equal. unfold set_proposal_timestamp, set_timeout.
  destruct (sc_proposal_timestamp r) as [ts|], (sc_timeout r) as [ms|]; cbn [header_part fmap list_fmap option_fmap option_map option_list];
    try (specialize (Hto ms eq_refl); unfold is_u64 in Hto; rewrite Z.min_r by lia);
    by rewrite ?app_nil_r, <- ?app_assoc.
Qed.

(** What the client sets the engine reads, whatever other headers there are. *)
Lemma headers_cross {HL : HttpLaws} {T} body (r : SecurityCheck T) :
  in_range r -> unset body ->
  exists hs, headers_of body r = Some hs /\
    extract hs = Ok (MkExtracted (sc_request_id r) (sc_timeout r) (sc_proposal_timestamp r)).
Proof.
  intros Hr (Bid & Bts & Bto). destruct (headers_of_parts body r Hr) as (h & Hc & ->). destruct Hr as (_ & Hts & Hto).
  eexists. split; [done|]. unfold extract, extract_request_id, extract_timeout, extract_proposal_timestamp.
  rewrite (parse_header_carries parse_b256 "x-request-id" _ _ (sc_request_id r)); cycle 1.
  { rewrite !get_header_app, !get_header_part, Bid. cbn. by destruct h. }
  cbn [mbind result_bind]. rewrite (parse_header_carries parse_u64 "x-request-timeout" _ _ (sc_timeout r)); cycle 1.
  { rewrite !get_header_app, !get_header_part, Bto. cbn. destruct (sc_timeout r); [|done]. exact (carries_u64 (Some _) Hto). }
  cbn [mbind result_bind]. rewrite (parse_header_carries parse_u64 "x-proposal-timestamp" _ _ (sc_proposal_timestamp r)); [done|].
  rewrite !get_header_app, !get_header_part, Bts. cbn. destruct (sc_proposal_timestamp r); [|done]. exact (carries_u64 (Some _) Hts).
Qed.

(** A request with a header that is there and cannot be read is a bad request. *)
Lemma extract_rejects hs rejection : extract hs = Err rejection -> status rejection = BAD_REQUEST.
Proof.
  assert (forall A (parse : string -> option A) name r, parse_header parse name r hs = Err rejection -> rejection = r) as Hp.
  { intros A parse name r. unfold parse_header, ok_or. destruct (get_header name hs) as [h|]; [|done].
    destruct (header_to_str h) as [text|]; cbn; [|by intros [= <-]]. destruct (parse text); [done|by intros [= <-]]. }
  unfold extract, extract_request_id, extract_timeout, extract_proposal_timestamp.
  destruct (parse_header parse_b256 _ _ _) eqn:E1; cbn; [|by intros [= ->]; rewrite (Hp _ _ _ _ E1)].
  destruct (parse_header _ "x-request-timeout" _ _) eqn:E2; cbn; [|by intros [= ->]; rewrite (Hp _ _ _ _ E2)].
  destruct (parse_header _ "x-proposal-timestamp" _ _) eqn:E3; cbn; [done|by intros [= ->]; rewrite (Hp _ _ _ _ E3)].
Qed.
End Headers.
