(* ===== verification/Rulings.v ===== *)
(** The sentinel and its engine together. The engine answers over HTTP what
    [crates/sentinel-engine/src/api/mod.rs] makes of a request; the sentinel's
    client reads the answer back ([crates/sentinel/src/engine.rs]). A history of a
    sentinel is any sequence of blocks and events, of checks performed in any
    order, repeatedly, late or never, of collections of its store, and of returns
    to an earlier state, as after a reorganization or a restart. *)

From Stdlib Require Import String.
From S2P Require Import Prelude Keccak Messages Batches Coverage Checks Cow Poisoning Engine TxTypes Driver Verdicts Headers Sentinel Votes.

(** ** The engine behind its endpoint *)

(** A [SafeTransaction] as it crosses the wire, field by field; the operation as
    its number. *)
Definition engine_operation (o : Sentinel.Operation) : Batches.Operation :=
  match o with CALL => Batches.Call | DELEGATECALL => Batches.DelegateCall end.
Definition engine_transaction (t : Sentinel.SafeTransaction) : Batches.SafeTransaction :=
  Batches.MkSafeTransaction (st_chainId t) (st_safe t) (st_to t) (st_value t) (st_data t)
    (engine_operation (st_operation t)) (st_safeTxGas t) (st_baseGas t) (st_gasPrice t) (st_gasToken t) (st_refundReceiver t) (st_nonce t).

(** [api::security_check]: the request's block is always the latest. *)
Definition api_context (r : SecurityCheck Sentinel.SafeTransaction) : CheckContext :=
  MkCheckContext LatestBlock (sc_proposal_timestamp r).
Definition api_security_check `{MultiSendAbi} (checkers : list Checker) (r : SecurityCheck Sentinel.SafeTransaction)
    : Coverage.Verdict.t :=
  Coverage.security_check checkers (engine_transaction (sc_transaction r)) (api_context r).

(** The same over the request's headers; a header that cannot be read is answered
    with its rejection. *)
Definition api_endpoint `{Http} `{MultiSendAbi} (checkers : list Checker) (hs : list (string * HeaderValue))
    (t : Sentinel.SafeTransaction) : result Rejection Coverage.Verdict.t :=
  x ← extract hs;
  Ok (Coverage.security_check checkers (engine_transaction t) (MkCheckContext LatestBlock (x_proposal_timestamp x))).

(** A request of the client is never rejected, and the engine sees what was asked. *)
Lemma endpoint_answers `{HttpLaws} `{MultiSendAbi} checkers body (r : SecurityCheck Sentinel.SafeTransaction) :
  in_range r -> unset body ->
  exists hs, headers_of body r = Some hs /\ api_endpoint checkers hs (sc_transaction r) = Ok (api_security_check checkers r).
Proof.
  intros Hr Hb. destruct (headers_cross body r Hr Hb) as (hs & Hs & Hx). exists hs. split; [done|].
  unfold api_endpoint. by rewrite Hx.
Qed.

(** The client's [Response], read from the verdict's text. *)
Definition read_response (v : Coverage.Verdict.t) : option Response :=
  match v with
  | Coverage.Verdict.Secure => Some Secure
  | Coverage.Verdict.Insecure rule => Insecure <$> parse_rule (code rule)
  | Coverage.Verdict.Abstain => Some Abstain
  end.

(** An engine at a site: its checks at each request, as the chain they read grows,
    and whether the request comes through. *)
Record Site := MkSite { checkers_at : nat -> list Checker; reached : nat -> bool }.
Definition site_engine `{MultiSendAbi} (s : Site) : Verdicts.Engine Sentinel.SafeTransaction := {|
  engine_answer tick r :=
    if reached s tick then read_response (api_security_check (checkers_at s tick) r) else None
|}.

(** A rule's citation is read and shown again as it was. *)
Lemma rule_crosses (rule : Coverage.RuleId) r : parse_rule (code rule) = Some r -> display_rule r = code rule.
Proof. destruct rule; intros H; vm_compute in H; injection H as <-; vm_compute; reflexivity. Qed.
Lemma rule_readable (rule : Coverage.RuleId) : exists r, parse_rule (code rule) = Some r /\ rule_ok r.
Proof. destruct rule; eexists; (split; [vm_compute; reflexivity|by repeat split]). Qed.

Section Rulings.
Context {KEC : Keccak} {SG : Signer} {SC : SentinelCrypto} {MO : MapOrder RequestState}.
Context {MOL : MapOrderLaws RequestState} {MS : MultiSendAbi}.
Context (self : SentinelTransition) (site : Site).
#[local] Existing Instance site_engine.

Notation Check := (EngineCheck (T := Sentinel.SafeTransaction)).
Notation Incoming := (Message.t SentinelEvents EngineCheckResult).

(** ** Histories *)

(** A sentinel: its state and the states it may return to, the checks asked for and
    the results not handled yet, the handler with its store, the number of the
    next request and the actions emitted. *)
Record World := MkWorld {
  w_state : State; w_past : list State; w_asked : list Check; w_results : list EngineCheckResult;
  w_handler : SentinelHandler; w_tick : nat; w_actions : list SentinelAction
}.

Inductive Happening :=
| Advance (number : Z)
| Observe (log : EventLog SentinelEvents)
| Perform (check : nat)
| Deliver (result : nat)
| Collect (status : BlockStatus)
| Return (state : nat).

(** A message is applied and its commands dispatched. *)
Definition receive (m : Incoming) (w : World) : World :=
  let '(state, commands) := sentinel_transition self (w_state w) m in
  MkWorld state (w_state w :: w_past w) (w_asked w ++ effects_of commands) (w_results w) (w_handler w) (w_tick w)
    (w_actions w ++ actions_of commands).

Definition happen (w : World) (h : Happening) : option World :=
  match h with
  | Advance number => Some (receive (Message.NewBlock number) w)
  | Observe log => Some (receive (Message.Event log) w)
  | Perform i =>
      e ← w_asked w !! i;
      let '(result, handler) := handle_effect (EffectHandler := sentinel_handler (EN := site_engine site)) (w_tick w) e (w_handler w) in
      Some (MkWorld (w_state w) (w_past w) (w_asked w) (w_results w ++ option_list result) handler (S (w_tick w)) (w_actions w))
  | Deliver i => result ← w_results w !! i; Some (receive (Message.Resume result) w)
  | Collect status =>
      Some (MkWorld (w_state w) (w_past w) (w_asked w) (w_results w)
        (housekeep (EffectHandler := sentinel_handler (EN := site_engine site)) status (w_handler w)) (w_tick w) (w_actions w))
  | Return i =>
      state ← w_past w !! i;
      Some (MkWorld state (w_state w :: w_past w) (w_asked w) (w_results w) (w_handler w) (w_tick w) (w_actions w))
  end.

Definition fresh (timeout : Z) : World := MkWorld ∅ [] [] [] (MkSentinelHandler timeout ∅) 0 [].
Definition happened (timeout : Z) (hs : list Happening) : option World :=
  foldl (fun w h => w ← w; happen w h) (Some (fresh timeout)) hs.

(** ** Rulings *)

(** The histories of the proofs below only ever get longer. *)
Implicit Types (hs : list Happening).

(** Somewhere a transaction was proposed for a request, at some time. *)
Definition proposed hs (id : Z) (t : Sentinel.SafeTransaction) (timestamp : Z) : Prop :=
  exists log event, Observe log ∈ hs /\ log_data log = TransactionProposedEvent event /\
    event_request self (log_data log) = Some id /\ tp_transaction event = t /\
    block_timestamp (log_block log) = timestamp.

(** The engine was asked about a transaction proposed for a request, and this is
    the outcome. *)
Definition ruling hs (id : Z) (o : CheckOutcome) : Prop :=
  exists e tick ms, ec_request_id e = id /\ proposed hs id (ec_transaction e) (ec_proposal_timestamp e) /\
    execute (EN := site_engine site) tick (check_request ms e) = o /\ o <> Unknown.

Definition stands hs (id : Z) (approve : bool) (reason : string) : Prop :=
  exists o, ruling hs id o /\ vote_of o = Some (approve, reason).

Definition entry_ruled hs (id : Z) (entry : option RequestState) : Prop :=
  match entry with
  | Some (WaitingForRequest approve reason _) | Some (CollectingCommitments approve reason _ _ _ _ _) =>
      stands hs id approve reason
  | _ => True
  end.
Definition action_ruled hs (a : SentinelAction) : Prop :=
  match kind a with
  | Commit id hash => exists approve reason,
      hash = commit_hash signer_address id approve (reveal_salt id) reason /\ stands hs id approve reason
  | Reveal id approve _ reason => stands hs id approve reason
  | _ => True
  end.
Definition command_ruled hs (c : SentinelCommand) : Prop :=
  match c with
  | Command.Action a => action_ruled hs a
  | Command.Effect e => proposed hs (ec_request_id e) (ec_transaction e) (ec_proposal_timestamp e)
  end.
Definition result_ruled hs (r : EngineCheckResult) : Prop :=
  er_outcome r = Unknown \/ ruling hs (er_request_id r) (er_outcome r).
Definition incoming_ruled hs (m : Incoming) : Prop :=
  match m with
  | Message.NewBlock _ => True
  | Message.Event log => Observe log ∈ hs
  | Message.Resume r => result_ruled hs r
  end.

Lemma commit_ruled hs id approve reason request : stands hs id approve reason ->
  entry_ruled hs id (local_commit id approve reason request).1 /\
  Forall (command_ruled hs) (local_commit id approve reason request).2.
Proof. intros Hs. split; [done|]. constructor; [|constructor]. exists approve, reason. by split. Qed.

Lemma finalize_ruled hs id entry :
  entry_ruled hs id (finalize entry id).1 /\ Forall (command_ruled hs) (finalize entry id).2.
Proof. unfold finalize. destruct entry; cbn [fst snd]; try (by split). destruct (_ && _); by repeat constructor. Qed.

(** A step of a request votes as its ruling, and asks about a proposed transaction. *)
Lemma local_step_ruled hs id m entry : incoming_ruled hs m -> entry_ruled hs id entry ->
  entry_ruled hs id (local_step self id m entry).1 /\ Forall (command_ruled hs) (local_step self id m entry).2.
Proof.
  intros Hm He. assert (entry_ruled hs id entry /\ Forall (command_ruled hs) []) as Hsame by (by split).
  destruct m as [block|log|res]; cbn [local_step].
  - destruct entry as [e|]; [|done]. destruct e; cbn [advance_request]; try (case_decide; [done|]); try (by repeat constructor).
    + destruct self_committed; cbn [negb]; by repeat constructor.
    + apply finalize_ruled.
  - case_decide as Hid; [|done]. unfold local_event.
    destruct (log_data log) as [event| | | | | | | | | |] eqn:El; try done.
    + destruct entry; [done|]. split; [done|]. constructor; [|constructor]. exists log, event. by rewrite El.
    + destruct entry as [[? [?|]|?|?|?|?|?]|]; try done. by apply commit_ruled.
    + by destruct entry as [[]|].
    + destruct entry as [[]|]; try done. cbn [local_revealed]. case_decide; [by split|]. apply finalize_ruled.
    + unfold local_disputed. by destruct (entry ≫= approve_and_slash_amount) as [[]|].
    + destruct entry as [[]|]; try done. by repeat constructor.
    + unfold local_ended. destruct (entry ≫= approve_and_slash_amount); by repeat constructor.
    + unfold local_ended. destruct (entry ≫= approve_and_slash_amount); by repeat constructor.
    + destruct entry; by repeat constructor.
    + destruct entry; by repeat constructor.
  - case_decide as Hid; [|done]. unfold local_result. destruct entry as [[]|]; try done.
    destruct (vote_of (er_outcome res)) as [[approve reason]|] eqn:Ev; [|by split].
    assert (stands hs id approve reason) as Hst.
    { destruct Hm as [Hu|Hr]; [by rewrite Hu in Ev|]. exists (er_outcome res). by rewrite <- Hid. }
    destruct request; [by apply commit_ruled|by split].
Qed.

Lemma proposed_mono hs hs' id t timestamp : hs ⊆ hs' -> proposed hs id t timestamp -> proposed hs' id t timestamp.
Proof. intros Hs (log & event & Hin & H). exists log, event. split; [by apply Hs|done]. Qed.
Lemma ruling_mono hs hs' id o : hs ⊆ hs' -> ruling hs id o -> ruling hs' id o.
Proof. intros Hs (e & tick & ms & Hid & Hp & H). exists e, tick, ms. split_and!; [done|by eapply proposed_mono|apply H..]. Qed.
Lemma stands_mono hs hs' id approve reason : hs ⊆ hs' -> stands hs id approve reason -> stands hs' id approve reason.
Proof. intros Hs (o & Ho & Hv). exists o. split; [by eapply ruling_mono|done]. Qed.
Lemma entry_ruled_mono hs hs' id entry : hs ⊆ hs' -> entry_ruled hs id entry -> entry_ruled hs' id entry.
Proof. intros Hs. destruct entry as [[]|]; try done; apply stands_mono, Hs. Qed.
Lemma action_ruled_mono hs hs' a : hs ⊆ hs' -> action_ruled hs a -> action_ruled hs' a.
Proof.
  intros Hs. unfold action_ruled. destruct (kind a); try done; [|by apply stands_mono].
  intros (approve & reason & He & Hst). exists approve, reason. split; [done|by eapply stands_mono].
Qed.
Lemma result_ruled_mono hs hs' r : hs ⊆ hs' -> result_ruled hs r -> result_ruled hs' r.
Proof. intros Hs [Hu|Hr]; [by left|right; by eapply ruling_mono]. Qed.

Definition state_ruled hs (s : State) : Prop := forall id, entry_ruled hs id (s !! id).
Definition store_ruled hs (st : VerdictStore) : Prop :=
  forall id row, st !! id = Some row -> exists o, decode_verdict (vr_rule row) = Ok o /\ ruling hs id o.

Record ruled hs (w : World) : Prop := MkRuled {
  state_is : state_ruled hs (w_state w);
  past_is : Forall (state_ruled hs) (w_past w);
  asked_are : Forall (fun e => proposed hs (ec_request_id e) (ec_transaction e) (ec_proposal_timestamp e)) (w_asked w);
  results_are : Forall (result_ruled hs) (w_results w);
  store_is : store_ruled hs (verdicts (w_handler w));
  actions_are : Forall (action_ruled hs) (w_actions w)
}.

Lemma ruled_mono hs hs' w : hs ⊆ hs' -> ruled hs w -> ruled hs' w.
Proof.
  intros Hs [H1 H2 H3 H4 H5 H6]. split.
  - intros id. by eapply entry_ruled_mono.
  - eapply Forall_impl; [exact H2|]. intros s H id. by eapply entry_ruled_mono.
  - eapply Forall_impl; [exact H3|]. intros e. by apply proposed_mono.
  - eapply Forall_impl; [exact H4|]. intros r. by apply result_ruled_mono.
  - intros id row Hrow. destruct (H5 id row Hrow) as (o & Hd & Ho). exists o. split; [done|by eapply ruling_mono].
  - eapply Forall_impl; [exact H6|]. intros a. by apply action_ruled_mono.
Qed.

(** ** Messages *)

Lemma transition_ruled hs m s : incoming_ruled hs m -> state_ruled hs s ->
  state_ruled hs (sentinel_transition self s m).1 /\ Forall (command_ruled hs) (sentinel_transition self s m).2.
Proof using MOL.
  intros Hm Hs. pose proof (fun id => transition_local self id s m) as Hl. cbn zeta in Hl. split.
  - intros id. destruct (Hl id) as [-> _]. by apply local_step_ruled.
  - apply Forall_forall. intros c Hc. destruct (command_request c) as [id|] eqn:Eid.
    + destruct (Hl id) as [_ Hcs]. pose proof (proj2 (local_step_ruled hs id m (s !! id) Hm (Hs id))) as Hall.
      rewrite <- Hcs, Forall_forall in Hall. apply Hall. unfold about. by apply list_elem_of_filter.
    + destruct c as [a|e]; [|done]. cbn [command_request command_ruled] in *. unfold action_ruled. by destruct (kind a).
Qed.

Lemma receive_ruled hs m w : incoming_ruled hs m -> ruled hs w -> ruled hs (receive m w).
Proof using MOL.
  intros Hm [H1 H2 H3 H4 H5 H6]. unfold receive.
  pose proof (transition_ruled hs m (w_state w) Hm H1) as [Hs Hc].
  destruct (sentinel_transition self (w_state w) m) as [s cs]. cbn [fst snd] in *. split; cbn; try done.
  - by constructor.
  - apply Forall_app. split; [done|]. unfold effects_of. apply Forall_forall. intros e He.
    apply list_elem_of_omap in He as ([a|e'] & Hin & Heq); [done|]. simplify_eq. rewrite Forall_forall in Hc. by apply (Hc (Command.Effect e)).
  - apply Forall_app. split; [done|]. unfold actions_of. apply Forall_forall. intros a Ha.
    apply list_elem_of_omap in Ha as ([a'|e] & Hin & Heq); [|done]. simplify_eq. rewrite Forall_forall in Hc. by apply (Hc (Command.Action a)).
Qed.

(** ** Checks *)

Lemma site_outcome_ok tick r : outcome_ok (execute (EN := site_engine site) tick r).
Proof.
  unfold execute. cbn [engine_answer site_engine]. destruct (reached site tick); [|done].
  destruct (api_security_check _ _) as [|rule|]; [done| |done]. cbn [read_response].
  destruct (rule_readable rule) as (x & -> & Hx). done.
Qed.

Lemma store_insert hs st id block rule o : store_ruled hs st -> decode_verdict rule = Ok o -> ruling hs id o ->
  store_ruled hs (<[id := MkVerdictRow block rule]> st).
Proof.
  intros Hst Hd Ho id' row Hrow. apply lookup_insert_Some in Hrow as [[<- <-]|[_ Hrow]]; [by exists o|by apply Hst].
Qed.

(** A check answers with a ruling, recorded or new, and records only rulings. *)
Lemma engine_check_ruled hs tick ms st e :
  store_ruled hs st -> proposed hs (ec_request_id e) (ec_transaction e) (ec_proposal_timestamp e) ->
  let r := engine_check (EN := site_engine site) tick ms st e in
  store_ruled hs r.1 /\ result_ruled hs (MkEngineCheckResult (ec_request_id e) r.2).
Proof.
  intros Hst Hp. unfold engine_check, get_verdict, result_ruled. destruct (to_i64 (ec_block e)) as [b|] eqn:Eb; [|split; [done|by left]].
  destruct (st !! ec_request_id e) as [row|] eqn:Erow.
  - destruct (Hst _ _ Erow) as (o & Hd & Ho). rewrite Hd. cbn. split; [by eapply store_insert|by right].
  - set (o := execute (EN := site_engine site) tick (check_request ms e)).
    destruct (decide (o = Unknown)) as [Hu|Hu].
    { rewrite Hu. cbn. split; [done|by left]. }
    assert (ruling hs (ec_request_id e) o) as Hr by (by exists e, tick, ms).
    pose proof (decode_text o (site_outcome_ok tick _) Hu) as Hd.
    rewrite record_verdict_write by done. unfold write_verdict. rewrite Eb, Erow. cbn [vr_rule].
    rewrite Hd. cbn. split; [by eapply store_insert|by right].
Qed.

Lemma prune_ruled hs st safe : store_ruled hs st -> store_ruled hs (prune_verdicts st safe).1.
Proof.
  intros Hst. unfold prune_verdicts. destruct (to_i64 safe); [|done].
  intros id row [Hrow _]%map_lookup_filter_Some. by apply Hst.
Qed.

Lemma happen_ruled hs w h w' : h ∈ hs -> ruled hs w -> happen w h = Some w' -> ruled hs w'.
Proof using MOL.
  intros Hh Hw Hw'. destruct h as [number|log|i|i|status|i]; cbn [happen] in Hw'.
  - injection Hw' as <-. by apply receive_ruled.
  - injection Hw' as <-. by apply receive_ruled.
  - destruct (w_asked w !! i) as [e|] eqn:Ee; [|done]. cbn [mbind option_bind] in Hw'.
    destruct Hw as [H1 H2 H3 H4 H5 H6]. pose proof H3 as Hasked. rewrite Forall_lookup in H3. specialize (H3 i e Ee).
    pose proof (engine_check_ruled hs (w_tick w) (engine_timeout (w_handler w)) _ e H5 H3) as [Hst Hr].
    cbn [handle_effect sentinel_handler] in Hw'. destruct (engine_check _ _ _ _) as [st o]. injection Hw' as <-.
    split; cbn; try done. apply Forall_app. split; [done|]. constructor; [exact Hr|constructor].
  - destruct (w_results w !! i) as [r|] eqn:Er; [|done]. injection Hw' as <-. apply receive_ruled; [|done].
    destruct Hw as [_ _ _ H4 _ _]. rewrite Forall_lookup in H4. by apply (H4 i).
  - injection Hw' as <-. destruct Hw as [H1 H2 H3 H4 H5 H6]. split; cbn; try done. by apply prune_ruled.
  - destruct (w_past w !! i) as [s|] eqn:Es; [|done]. injection Hw' as <-. destruct Hw as [H1 H2 H3 H4 H5 H6].
    pose proof H2 as Hpast. rewrite Forall_lookup in H2. split; cbn; try done; [by apply (H2 i)|by constructor].
Qed.

Lemma happened_ruled timeout hs w : happened timeout hs = Some w -> ruled hs w.
Proof using MOL.
  revert w. induction hs as [|h hs IH] using rev_ind; intros w Hw.
  - injection Hw as <-. by split.
  - unfold happened in Hw. rewrite foldl_app in Hw. cbn [foldl] in Hw. apply bind_Some in Hw as (w0 & Hw0 & Hh).
    eapply happen_ruled; [|eapply ruled_mono; [|by apply IH]|exact Hh]; set_solver.
Qed.

(** A vote is the verdict of the engine, at some request, on a transaction proposed
    for the request it is cast on. *)
Lemma stands_verdict hs id approve reason : stands hs id approve reason ->
  exists log event tick, Observe log ∈ hs /\ log_data log = TransactionProposedEvent event /\
    event_request self (log_data log) = Some id /\
    let v := Coverage.security_check (checkers_at site tick) (engine_transaction (tp_transaction event))
      (MkCheckContext LatestBlock (Some (block_timestamp (log_block log)))) in
    if approve then reason = EmptyString /\ v = Coverage.Verdict.Secure
    else exists rule, reason = code rule /\ v = Coverage.Verdict.Insecure rule.
Proof.
  intros (o & (e & tick & ms & Hid & (log & event & Hin & Hl & Hr & Ht & Hts) & Ho & Hu) & Hv).
  exists log, event, tick. split_and!; [done|done|done|]. rewrite Ht, Hts. cbn zeta.
  unfold execute in Ho. cbn [engine_answer site_engine] in Ho. destruct (reached site tick); [|congruence].
  unfold api_security_check, api_context in Ho. cbn [check_request timeout proposal_timestamp request_id
    Verdicts.security_check sc_transaction sc_proposal_timestamp] in Ho.
  destruct (Coverage.security_check _ _ _) as [|rule|]; cbn [read_response] in Ho.
  - subst o. cbn [vote_of] in Hv. by injection Hv as <- <-.
  - destruct (rule_readable rule) as (x & Hx & _). rewrite Hx in Ho. cbn in Ho. subst o. cbn [vote_of] in Hv.
    injection Hv as <- <-. exists rule. split; [|done]. by apply rule_crosses.
  - congruence.
Qed.
End Rulings.

(** ** The deployed engine *)

Section Deployed.
Context {KEC : Keccak} {SG : Signer} {SC : SentinelCrypto} {MO : MapOrder RequestState}.
Context {MOL : MapOrderLaws RequestState} {MS : MultiSendAbi} {AB : CallAbi} {LA : LogAbi} {OH : OrderHash}.
Context (self : SentinelTransition) (reached : nat -> bool) (order_api : nat -> OrderApi) (blocklist : gset Z).
Context (config : PoisoningConfig) (h : nat -> History) (refund_node node : nat -> Provider).

(** The chain of checks at each request, each time over the chain as it is then. *)
Definition deployed (tick : nat) : list Checker :=
  production_checkers (OA := order_api tick) blocklist config (refund_node tick) (node tick).
Hypothesis histories : forall tick timestamp,
  let context := MkCheckContext LatestBlock timestamp in
  history_ok (h tick) config (refund_node tick) context /\ history_ok (h tick) config (node tick) context.

(** What justifies a vote on a request. *)
Definition earned (hs : list Happening) (id : Z) (approve : bool) (reason : string) : Prop :=
  exists log event tick, Observe log ∈ hs /\ log_data log = TransactionProposedEvent event /\
    event_request self (log_data log) = Some id /\
    let t := engine_transaction (tp_transaction event) in
    let context := MkCheckContext LatestBlock (Some (block_timestamp (log_block log))) in
    exists p, parse t = Ok p /\
      if approve then
        reason = EmptyString /\ Forall (call_allowed blocklist (Batches.safe t)) (Batches.calls p) /\
        data_trusted (OA := order_api tick) (h tick) config (node tick) context p
      else exists rule checker, reason = code rule /\ checker ∈ deployed tick /\ denies context p checker rule.

Lemma stands_earned hs id approve reason :
  stands self (MkSite deployed reached) hs id approve reason -> earned hs id approve reason.
Proof using MOL histories.
  intros (log & event & tick & Hin & Hl & Hr & Hv)%stands_verdict. exists log, event, tick. split_and!; [done..|].
  cbn zeta in *. cbn [checkers_at] in Hv. set (t := engine_transaction _) in *. set (context := MkCheckContext _ _) in *.
  destruct (histories tick (Some (block_timestamp (log_block log)))) as [Hrefund Hnode]. destruct approve.
  - destruct Hv as [-> Hv]. apply (secure_composed (OA := order_api tick) _ (h tick)) in Hv as (p & Hp & _ & Hd & Hf); [|done..].
    exists p. split_and!; [done|done|..].
    + by eapply (secure_calls (OA := order_api tick) _ (h tick)).
    + by eapply (secure_data (OA := order_api tick) _ (h tick)).
  - destruct Hv as (rule & -> & Hv). apply insecure_denied in Hv as (p & before & checker & after & Hp & Hch & Hd & _).
    + exists p. split; [done|]. exists rule, checker. split_and!; [done|rewrite Hch; set_solver|done].
    + intros q. by apply (production_sized (OA := order_api tick) _ (h tick)).
Qed.

(** An action that votes, by a commitment or a reveal, is justified. *)
Definition vote_earned (hs : list Happening) (a : SentinelAction) : Prop :=
  (forall id hash, kind a = Commit id hash -> exists approve reason,
    hash = commit_hash signer_address id approve (reveal_salt id) reason /\ earned hs id approve reason) /\
  (forall id approve salt reason, kind a = Reveal id approve salt reason -> earned hs id approve reason).

Lemma action_earned hs a : action_ruled self (MkSite deployed reached) hs a -> vote_earned hs a.
Proof using MOL histories.
  unfold action_ruled. intros Ha. split.
  - intros id hash Hk. rewrite Hk in Ha. destruct Ha as (approve & reason & He & Hs).
    exists approve, reason. split; [done|by apply stands_earned].
  - intros id approve salt reason Hk. rewrite Hk in Ha. by apply stands_earned.
Qed.

Lemma vote_earned_mono hs hs' a :
  (forall log, Observe log ∈ hs -> Observe log ∈ hs') -> vote_earned hs a -> vote_earned hs' a.
Proof.
  intros Hm [Hc Hr]. assert (forall id approve reason, earned hs id approve reason -> earned hs' id approve reason) as He.
  { intros id approve reason (log & event & tick & Hin & H). exists log, event, tick. split; [by apply Hm|exact H]. }
  split; [|eauto]. intros id hash Hk. destruct (Hc id hash Hk) as (approve & reason & ? & ?). eauto.
Qed.

(** Every vote is earned. Whatever happens to a sentinel (blocks and events in
    any order, checks performed repeatedly, late or never, collections of its
    store, reorganizations and restarts), and however the chain its engine reads
    grows meanwhile, whatever it commits to or reveals on a request follows from a
    verdict on a transaction proposed for that very request: if it approves, every
    call of the transaction was found allowed and its data trusted; if it denies,
    its reason is the citation of a rule by which one of the checks denied it. *)
Theorem votes_earned timeout hs w a :
  happened self (MkSite deployed reached) timeout hs = Some w -> a ∈ w_actions w -> vote_earned hs a.
Proof using MOL histories.
  intros Hw Ha. apply happened_ruled in Hw as [_ _ _ _ _ Hall]. rewrite Forall_forall in Hall.
  by apply action_earned, Hall.
Qed.
End Deployed.
