(* ===== verification/ToyRulings.v ===== *)
(** A sentinel and its engine on a concrete history: a request whose first check
    fails to reach the engine, a reorganization, and a vote. *)

From Stdlib Require Import String.
From S2P Require Import Prelude Keccak Messages Batches Coverage Checks Cow Poisoning Engine ToyEngine TxTypes ToyTx Driver Verdicts Sentinel Votes ToySentinel Rulings.

#[local] Existing Instances spread_keccak toy_call_abi toy_multi_send toy_log_abi toy_order_hash.

(** The transfer with a refund, as the consensus contract announces it. *)
Definition announced_transfer : Sentinel.SafeTransaction :=
  let t := toy_refunded in
  Sentinel.MkSafeTransaction (Batches.chain_id t) (Batches.safe t) (Batches.to t) (Batches.value t) (Batches.data t) CALL
    (safe_tx_gas t) (base_gas t) (gas_price t) (gas_token t) (refund_receiver t) (Batches.nonce t).

(** The request is checked twice, the first time in vain; the block that opens its
    voting is reorganized and mined again. *)
Definition toy_happenings : list Happening :=
  [Observe (MkEventLog (MkEventBlock 10 120) 0 500 (TransactionProposedEvent (MkTransactionProposed 9 2 500 5 [] announced_transfer)));
   Perform 0; Perform 0;
   Observe (MkEventLog (MkEventBlock 12 144) 0 500 (NewRequestEvent (MkNewRequest 5 1 2 1000 3 100 20 30)));
   Return 0;
   Observe (MkEventLog (MkEventBlock 12 144) 0 500 (NewRequestEvent (MkNewRequest 5 1 2 1000 3 100 20 30)));
   Deliver 1; Collect (MkBlockStatus 14 9);
   Observe (MkEventLog (MkEventBlock 14 168) 0 500 (Committed 5 77 1000)); Advance 20; Advance 21].

Definition toy_deployed : nat -> list Checker :=
  deployed (fun _ => toy_order_book) toy_blocklist toy_config (fun _ => toy_node) (fun _ => toy_node).
Definition toy_site : Site := MkSite toy_deployed (fun tick => bool_decide (tick <> 0)%nat).

Definition kind_name (a : SentinelAction) : string :=
  match kind a with
  | ApproveToken _ => "approve" | Commit _ _ => "commit" | Reveal _ approve _ _ => if approve then "yes" else "no"
  | Finalize _ => "finalize" | Claim _ => "claim" | TimeoutArbitration _ => "timeout"
  end.

Lemma toy_happens :
  (fun w => kind_name <$> w_actions w) <$> happened toy_sentinel toy_site 1000 toy_happenings =
    Some ["approve"; "commit"; "yes"]%string.
Proof. vm_compute. reflexivity. Qed.

Lemma image_of {A B} (f : A -> B) o w y : o = Some w -> f <$> o = Some y -> f w = y.
Proof. intros -> [= <-]. reflexivity. Qed.

Lemma votes_earned_witness :
  exists w a, happened toy_sentinel toy_site 1000 toy_happenings = Some w /\ a ∈ w_actions w /\
    kind a = Reveal 5 true (reveal_salt 5) EmptyString /\
    earned toy_sentinel (fun _ => toy_order_book) toy_blocklist toy_config (fun _ => ToyEngine.toy_history)
      (fun _ => toy_node) (fun _ => toy_node) toy_happenings 5 true EmptyString.
Proof.
  destruct (happened toy_sentinel toy_site 1000 toy_happenings) as [w|] eqn:Hw; [|vm_compute in Hw; discriminate Hw].
  exists w, (MkSentinelAction (Reveal 5 true (reveal_salt 5) EmptyString) (Some 30)).
  assert ((fun w => last (w_actions w)) <$> happened toy_sentinel toy_site 1000 toy_happenings =
    Some (Some (MkSentinelAction (Reveal 5 true (reveal_salt 5) EmptyString) (Some 30)))) as Hl by (vm_compute; reflexivity).
  apply (image_of _ _ _ _ Hw), last_Some_elem_of in Hl.
  split; [reflexivity|]. split; [exact Hl|]. split; [reflexivity|].
  refine (proj2 (votes_earned toy_sentinel (fun tick => bool_decide (tick <> 0)%nat) (fun _ => toy_order_book) toy_blocklist
    toy_config (fun _ => ToyEngine.toy_history) (fun _ => toy_node) (fun _ => toy_node) _ 1000 toy_happenings w _ Hw Hl) 5 true
    (reveal_salt 5) EmptyString eq_refl).
  intros tick timestamp. split; apply failing_node_ok.
Defined.
