(* ===== verification/SentinelDeployment.v ===== *)
(** The deployed sentinel: its service ([crates/sentinel/src/service.rs]) and
    startup ([main.rs]), and its lives under the driver. A life goes on by polls,
    ended checks and collected results, in any order, against any node, and starts
    again over its database, however often. Every life is a history of [Rulings],
    so what is proved of those histories holds of the deployed service. *)

From Stdlib Require Import String.
From S2P Require Import Prelude Keccak Messages Snapshots StateMachine Node Blocks Events Watch.
From S2P Require Import Batches Coverage Checks Cow Poisoning Engine TxTypes TxStorage TxQueue Driver Verdicts Headers Sentinel Votes Rulings.

(** ** The service *)

(** [SentinelService], without the client of its engine. *)
Record SentinelService := MkSentinelService {
  ss_oracle : Z;
  ss_fee_token : Z;
  ss_consensus : Z;
  ss_chain_id : Z;
  ss_voting_window : Z;
  ss_engine_timeout : Z;
  ss_verdicts : VerdictStore
}.

(** [components]. *)
Definition sentinel_of (s : SentinelService) : SentinelTransition :=
  MkSentinelTransition (ss_oracle s) (ss_consensus s) (ss_chain_id s) (ss_voting_window s).
Definition handler_of (s : SentinelService) : SentinelHandler := MkSentinelHandler (ss_engine_timeout s) (ss_verdicts s).
Definition encoder_of (s : SentinelService) : SentinelEncoder := MkSentinelEncoder (ss_oracle s) (ss_fee_token s).

(** The time an engine has to answer, in milliseconds: three quarters of the voting
    window but its last block, and at least a second; in 128-bit arithmetic. *)
Definition engine_timeout_of (voting_window block_time : Z) : Z :=
  let time := Z.min u128_max (Z.min u128_max (sat_sub voting_window 1 * block_time) * 3) / 4 in
  Z.max (if decide (time <= u64_max) then time else u64_max) 1000.

(** The engine answers before the window's last block, unless the window is too
    short for a second's wait, and whatever its operands no product wraps. *)
Lemma engine_timeout_bounds voting_window block_time :
  is_u64 voting_window -> is_u64 block_time ->
  let timeout := engine_timeout_of voting_window block_time in
  1000 <= timeout <= u64_max /\
  (timeout = 1000 \/ 4 * timeout <= 3 * ((voting_window - 1) * block_time)).
Proof.
  unfold is_u64, engine_timeout_of, sat_sub. intros Hw Hb. cbn zeta.
  assert (0 <= Z.max 0 (voting_window - 1) * block_time <= u64_max * u64_max) as Hm by nia.
  rewrite (Z.min_r u128_max (_ * block_time)) by lia. case_decide; [|lia].
  split; [lia|]. destruct (decide (voting_window = 0)) as [->|]; [left|]; [simpl; lia|].
  replace (Z.max 0 (voting_window - 1)) with (voting_window - 1) in * by lia.
  assert (Z.min u128_max ((voting_window - 1) * block_time * 3) <= (voting_window - 1) * block_time * 3) by lia.
  assert (4 * (Z.min u128_max ((voting_window - 1) * block_time * 3) / 4) <=
    Z.min u128_max ((voting_window - 1) * block_time * 3)) by (apply Z.mul_div_le; lia).
  lia.
Qed.

(** ** Lives *)

(** The requests of a site past the first [k]. *)
Definition later (k : nat) (s : Site) : Site := MkSite (fun n => checkers_at s (k + n)) (fun n => reached s (k + n)).

Section Lives.
Context {KEC : Keccak} {SG : Signer} {SC : SentinelCrypto} {MO : MapOrder RequestState} {MOL : MapOrderLaws RequestState}.
Context {MS : MultiSendAbi} {EX : Executor} {SER : Serde State} {SL : SerdeLaws State} {EV : Events SentinelEvents}.
Context (svc : SentinelService) (site : Site).

Abbreviation self := (sentinel_of svc).
Abbreviation Incoming := (Message.t SentinelEvents EngineCheckResult).
Abbreviation Check := (EngineCheck (T := Sentinel.SafeTransaction)).
Abbreviation Machine := (StateMachine (S := State)).
Abbreviation Effects := (EffectManager (H := SentinelHandler) (Effect := Check) (Resume := EngineCheckResult)).
Abbreviation SentinelDriver := (Driver (S := State) (H := SentinelHandler) (Effect := Check) (Resume := EngineCheckResult)).

#[local] Instance sentinel_self : StateTransition State SentinelEvents SentinelAction Check EngineCheckResult :=
  sentinel_transition self.
#[local] Instance encoder_self : ActionEncoder SentinelAction := sentinel_encoder (encoder_of svc).
(** A process that starts after [k] checks. *)
Definition handler_after (k : nat) : EffectHandler SentinelHandler Check EngineCheckResult :=
  sentinel_handler (EN := site_engine (later k site)).

(** [main], over a database, which holds the snapshots, the tables and the store. *)
Definition start_sentinel {NODE : Node} {TN : TxNode} (fuel : nat) (snapshots : gmap Z Json) (st : TransactionStorage)
    (store : VerdictStore) (blocks : BlocksConfig) (events : EventsConfig) (txs : TxConfig)
    : option (result DriverError SentinelDriver) :=
  new_driver fuel snapshots ∅ (MkSentinelHandler (ss_engine_timeout svc) store) st blocks events txs
    [ss_oracle svc; ss_consensus svc].

(** The logs of the update a step processes. *)
Definition seen {NODE : Node} (fuel : nat) (ev : DriverEvent) (d : SentinelDriver) : list (EventLog SentinelEvents) :=
  match ev with
  | Poll =>
      match next_index fuel (d_watcher d) (d_tick d) with
      | Some (Ok (Update.Logs u), _, _) => logs u
      | _ => []
      end
  | _ => []
  end.

(** The lives of the service, over its first database: the checks made before the
    process began, the driver, and the logs its machine was given. *)
Inductive lives : nat -> SentinelDriver -> list (EventLog SentinelEvents) -> Prop :=
| life_begins (NODE : Node) (TN : TxNode) fuel st blocks events txs d :
    start_sentinel fuel ∅ st ∅ blocks events txs = Some (Ok d) -> lives 0 d []
| life_goes_on (NODE : Node) (TN : TxNode) k d seen_logs fuel ev d' :
    lives k d seen_logs -> driver_step (EH := handler_after k) fuel ev d = Some (Ok d') ->
    lives k d' (seen_logs ++ seen fuel ev d)
| life_restarts (NODE : Node) (TN : TxNode) k d seen_logs fuel blocks events txs d' :
    lives k d seen_logs ->
    start_sentinel fuel (snapshots (d_state d)) (storage_of d) (verdicts (handler (d_effects d))) blocks events txs = Some (Ok d') ->
    lives (k + entropy (d_effects d)) d' seen_logs.

(** ** Messages of a history *)

Definition receives (w : World) (ms : list Incoming) : World := foldl (fun w m => receive self m w) w ms.
Abbreviation states w := (w_state w :: w_past w).

(** A message of a history: its logs were seen, its result was made. *)
Definition genuine (seen_logs : list (EventLog SentinelEvents)) (w : World) (m : Incoming) : Prop :=
  match m with
  | Message.NewBlock _ => True
  | Message.Event log => log ∈ seen_logs
  | Message.Resume r => r ∈ w_results w
  end.

Lemma receive_spec m w :
  receive self m w =
    MkWorld (run (w_state w) [m]) (states w) (w_asked w ++ effects_of (emitted (w_state w) [m])) (w_results w)
      (w_handler w) (w_tick w) (w_actions w ++ actions_of (emitted (w_state w) [m])).
Proof.
  unfold receive. cbn [run foldl emitted]. change (apply_transition (w_state w) m) with (sentinel_transition self (w_state w) m).
  destruct (sentinel_transition self (w_state w) m) as [s cs]. by rewrite app_nil_r.
Qed.

(** The history goes through every state the messages lead through. *)
Lemma receives_spec ms w :
  let w' := receives w ms in
  w_state w' = run (w_state w) ms /\ w_asked w' = w_asked w ++ effects_of (emitted (w_state w) ms) /\
  w_actions w' = w_actions w ++ actions_of (emitted (w_state w) ms) /\ w_results w' = w_results w /\
  w_handler w' = w_handler w /\ w_tick w' = w_tick w /\ states w ⊆ states w' /\
  forall k k', ms = k ++ k' -> run (w_state w) k ∈ states w'.
Proof.
  cbn zeta. induction ms as [|m ms IH] using rev_ind.
  - cbn. rewrite !app_nil_r. split_and!; try done. intros k k' [-> ->]%eq_sym%app_nil. set_solver.
  - destruct IH as (Hs & Ha & Hac & Hr & Hh & Ht & Hp & Hk). unfold receives in *. rewrite foldl_app. cbn [foldl].
    set (w' := foldl _ w ms) in *. rewrite receive_spec. cbn [w_state w_past w_asked w_results w_handler w_tick w_actions].
    rewrite run_app, emitted_app, Ha, Hac, Hs. unfold effects_of, actions_of. rewrite !omap_app, !app_assoc.
    split_and!; try done; [rewrite <- Hs; set_solver|].
    intros k k' Hkk. destruct k' as [|x k' _] using rev_ind.
    + rewrite app_nil_r in Hkk. rewrite <- Hkk, run_app. set_solver.
    + rewrite app_assoc in Hkk. apply app_inj_tail in Hkk as [Hkk _]. rewrite <- Hs. specialize (Hk k k' Hkk). set_solver.
Qed.

(** [w'] is a continuation of the history of [w] in which no log was observed but
    those seen. *)
Definition continues (seen_logs : list (EventLog SentinelEvents)) (w w' : World) : Prop :=
  exists more, foldl (fun w h => w ← w; happen self site w h) (Some w) more = Some w' /\
    forall log, Observe log ∈ more -> log ∈ seen_logs.

Lemma continues_refl seen_logs w : continues seen_logs w w.
Proof. exists []. split; [done|]. intros log []%not_elem_of_nil. Qed.
Lemma continues_trans seen_logs w1 w2 w3 :
  continues seen_logs w1 w2 -> continues seen_logs w2 w3 -> continues seen_logs w1 w3.
Proof.
  intros (l & Hl & Hs) (l' & Hl' & Hs'). exists (l ++ l'). rewrite foldl_app, Hl. split; [done|].
  intros log [?|?]%elem_of_app; [by apply Hs|by apply Hs'].
Qed.
Lemma continues_step seen_logs w h w' :
  happen self site w h = Some w' -> (forall log, h = Observe log -> log ∈ seen_logs) -> continues seen_logs w w'.
Proof.
  intros Hh Hs. exists [h]. split; [done|]. intros log Hl. by apply Hs, eq_sym, list_elem_of_singleton.
Qed.

Lemma receive_continues seen_logs w m : genuine seen_logs w m -> continues seen_logs w (receive self m w).
Proof.
  intros Hm. destruct m as [n|log|r].
  - by apply (continues_step _ _ (Advance n)).
  - apply (continues_step _ _ (Observe log)); [done|]. by intros log' [= <-].
  - apply list_elem_of_lookup in Hm as [i Hi]. apply (continues_step _ _ (Deliver i)); [|done]. simpl. by rewrite Hi.
Qed.
Lemma receives_continues seen_logs ms w : Forall (genuine seen_logs w) ms -> continues seen_logs w (receives w ms).
Proof.
  revert w. induction ms as [|m ms IH]; intros w Hms; [apply continues_refl|]. apply Forall_cons in Hms as [Hm Hms].
  eapply continues_trans; [by apply receive_continues|]. apply IH. eapply Forall_impl; [exact Hms|].
  intros []; rewrite receive_spec; done.
Qed.

Lemma return_continues seen_logs s w : s ∈ states w ->
  exists w', continues seen_logs w w' /\ w_state w' = s /\ states w ⊆ states w' /\
    w_asked w' = w_asked w /\ w_actions w' = w_actions w /\ w_results w' = w_results w /\
    w_handler w' = w_handler w /\ w_tick w' = w_tick w.
Proof.
  intros [->|Hs]%elem_of_cons; [exists w; split_and!; try done; apply continues_refl|].
  apply list_elem_of_lookup in Hs as [i Hi]. eexists. split.
  - apply (continues_step _ _ (Return i)); [simpl; by rewrite Hi|done].
  - cbn. split_and!; try done. set_solver.
Qed.

(** ** The driver's parts along a history *)

(** The machine is at the history's state, its snapshots at states it went through. *)
Definition tracked (m : Machine) (w : World) : Prop :=
  exists sp, refines ∅ m sp /\ run ∅ (history sp) = w_state w /\
    forall n h, marks sp !! n = Some h -> run ∅ h ∈ states w.

(** Its checks were asked for, its results made, and its store is the history's. *)
Record served (k : nat) (e : Effects) (w : World) : Prop := {
  sv_running : running e ⊆ w_asked w;
  sv_ended : forall r, Some r ∈ ended e -> r ∈ w_results w;
  sv_handler : handler e = w_handler w;
  sv_tick : w_tick w = (k + entropy e)%nat
}.

Lemma update_tracked seen_logs m u m' commands w :
  tracked m w -> handle_update m u = (m', Ok commands) ->
  (forall us, u = Update.Logs us -> logs us ⊆ seen_logs) ->
  exists w', continues seen_logs w w' /\ tracked m' w' /\
    w_asked w' = w_asked w ++ effects_of commands /\ w_actions w' = w_actions w ++ actions_of commands /\
    w_results w' = w_results w /\ w_handler w' = w_handler w /\ w_tick w' = w_tick w.
Proof.
  intros (sp & Hr & Hrun & Hmk) Hu Hlogs. destruct (update_refined _ _ _ _ _ _ Hr Hu) as (sp' & ms & E & Hr' & ->).
  destruct (spec_update_moves _ _ _ _ E) as (Hof & Hh & Hm). rewrite Hrun.
  assert (Forall (genuine seen_logs w) ms) as Hg.
  { eapply Forall_impl; [exact Hof|]. intros [n|log|r]; [done| |done]. simpl. destruct u as [|us]; [done|].
    intros Hl. by apply (Hlogs us). }
  destruct Hh as [Hh|[-> [n Hn]]].
  - pose proof (receives_continues seen_logs ms w Hg) as Hc.
    destruct (receives_spec ms w) as (Hs & Ha & Hac & Hre & Hha & Ht & Hp & Hk).
    exists (receives w ms). split; [exact Hc|]. split; [|done].
    exists sp'. split; [done|]. split; [by rewrite Hh, run_app, Hrun|].
    intros n h Hn. destruct (Hm n h Hn) as [Hold|(k & k' & Hkk & ->)].
    + apply Hp. by eapply Hmk.
    + rewrite run_app, Hrun. by eapply Hk.
  - destruct (return_continues seen_logs _ w (Hmk _ _ Hn)) as (w' & Hc & Hs & Hp & Ha & Hac & Hre & Hha & Ht).
    exists w'. split; [exact Hc|]. split; [|by rewrite Ha, Hac, !app_nil_r].
    exists sp'. split; [done|]. split; [done|]. intros n' h Hn'. apply Hp.
    destruct (Hm n' h Hn') as [Hold|(k & k' & Hkk & ->)]; [by eapply Hmk|].
    apply eq_sym, app_nil in Hkk as [-> _]. rewrite app_nil_r, Hrun. set_solver.
Qed.

Lemma resume_tracked seen_logs m r m' commands w :
  tracked m w -> r ∈ w_results w -> handle_resume m r = (m', Ok commands) ->
  exists w', continues seen_logs w w' /\ tracked m' w' /\
    w_asked w' = w_asked w ++ effects_of commands /\ w_actions w' = w_actions w ++ actions_of commands /\
    w_results w' = w_results w /\ w_handler w' = w_handler w /\ w_tick w' = w_tick w.
Proof.
  intros (sp & Hr & Hrun & Hmk) Hin Hu. destruct (resume_refined _ _ _ _ _ _ Hr Hu) as [Hr' ->].
  exists (receive self (Message.Resume r) w). split; [by apply receive_continues|].
  rewrite receive_spec, Hrun. cbn [w_state w_past w_asked w_results w_handler w_tick w_actions]. split; [|done].
  exists (spec_resume sp r). split; [done|]. split; [cbn [spec_resume history]; by rewrite run_app, Hrun|].
  intros n h Hn. cbn [w_state w_past]. apply list_elem_of_further. by eapply Hmk.
Qed.

Lemma restricted_tracked m m' w :
  tracked m w -> inner m' = inner m -> (forall n j, snapshots m' !! n = Some j -> snapshots m !! n = Some j) -> tracked m' w.
Proof.
  intros (sp & Hr & Hrun & Hmk) Hi Hs. destruct (restricted_refined _ _ _ _ Hr Hi Hs) as (mk & Hr' & Hsub).
  exists (MkSpec (history sp) (spec_status sp) mk). split; [done|]. split; [done|]. intros n h Hn. by eapply Hmk, Hsub.
Qed.

(** Checks asked for may be spawned, and the store collected. *)
Lemma dispatch_served seen_logs k e e' (commands : list SentinelCommand) status (collected : bool) w w' :
  served k e w -> w_asked w' = w_asked w ++ effects_of commands -> w_results w' = w_results w ->
  w_handler w' = w_handler w -> w_tick w' = w_tick w ->
  running e' = running e ++ effects_of commands -> ended e' = ended e -> entropy e' = entropy e ->
  handler e' = (if collected then housekeep (EffectHandler := handler_after k) status (handler e) else handler e) ->
  exists w'', continues seen_logs w' w'' /\ served k e' w'' /\ states w'' = states w' /\ w_actions w'' = w_actions w'.
Proof.
  intros [Hr He Hh Ht] Ha Hre Hwh Hwt Hrun Hend Hent Hhan.
  assert (forall h, served k (MkEffectManager h (running e') (ended e') (entropy e'))
    (MkWorld (w_state w') (w_past w') (w_asked w') (w_results w') h (w_tick w') (w_actions w'))) as Hs.
  { intros h. split; cbn; [|by rewrite Hend, Hre|done|by rewrite Hwt, Hent]. rewrite Hrun, Ha. set_solver. }
  specialize (Hs (handler e')). rewrite <- Hwh in Hh. rewrite Hh in Hhan. destruct collected.
  - eexists. split; [by apply (continues_step _ _ (Collect status))|].
    change (housekeep (EffectHandler := sentinel_handler (EN := site_engine site)) status (w_handler w')) with
      (housekeep (EffectHandler := handler_after k) status (w_handler w')).
    rewrite <- Hhan. by destruct e'.
  - exists w'. split; [apply continues_refl|]. rewrite Hhan in Hs. destruct e', w'. by simplify_eq/=.
Qed.

(** What a step enqueues is what the history did. *)
Definition submits (d d' : SentinelDriver) (w : World) : Prop :=
  exists actions queued ops1 ops2,
    enqueue (apply_ops (storage_of d) ops1) (encode <$> actions) = Ok queued /\
    storage_of d' = apply_ops queued ops2 /\ Driver.quiet ops1 /\ Driver.quiet ops2 /\ actions ⊆ w_actions w.

Lemma submits_nothing d d' w : storage_of d' = storage_of d -> submits d d' w.
Proof. intros Hs. exists [], (storage_of d), [], []. split_and!; [done|done|constructor|constructor|set_solver]. Qed.

Definition input_genuine (seen_logs : list (EventLog SentinelEvents)) (w : World)
    (input : Input (Event := SentinelEvents) (Resume := EngineCheckResult)) : Prop :=
  match input with
  | InputUpdate u => forall us, u = Update.Logs us -> logs us ⊆ seen_logs
  | InputResume r => r ∈ w_results w
  end.

Lemma update_driver_tracked {NODE : Node} {TN : TxNode} seen_logs k input d d' w :
  tracked (d_state d) w -> served k (d_effects d) w -> input_genuine seen_logs w input ->
  update_driver (EH := handler_after k) input d = Ok d' ->
  exists w', continues seen_logs w w' /\ tracked (d_state d') w' /\ served k (d_effects d') w' /\ submits d d' w'.
Proof.
  intros Ht Hs Hin Hu.
  destruct (update_driver_spec _ _ _ Hu) as
    (m & commands & queued & ops1 & ops2 & Htr & Hi & Hsn & Hen & Hst & Hq1 & Hq2 & Hrun & Hend & Hent & Hhan).
  assert (exists w1, continues seen_logs w w1 /\ tracked m w1 /\
    w_asked w1 = w_asked w ++ effects_of commands /\ w_actions w1 = w_actions w ++ actions_of commands /\
    w_results w1 = w_results w /\ w_handler w1 = w_handler w /\ w_tick w1 = w_tick w)
    as (w1 & Hc1 & Ht1 & Ha & Hac & Hre & Hwh & Hwt)
    by (destruct input; [by eapply update_tracked|by eapply resume_tracked]).
  destruct (dispatch_served seen_logs k _ _ commands _ _ w w1 Hs Ha Hre Hwh Hwt Hrun Hend Hent Hhan)
    as (w2 & Hc2 & Hs2 & Hst2 & Hac2).
  exists w2. split; [by eapply continues_trans|]. split; [|split; [done|]].
  - assert (tracked (d_state d') w1) as (sp & Hr & Hrn & Hmk).
    { eapply restricted_tracked; [exact Ht1|done|]. destruct input.
      - by apply prune_lookup in Hsn as (_ & _ & Hsub).
      - by rewrite Hsn. }
    injection Hst2 as Hst2 Hp2. exists sp. rewrite Hst2, Hp2. done.
  - exists (actions_of commands), queued, ops1, ops2. split_and!; try done. rewrite Hac2, Hac. set_solver.
Qed.

(** A check that ends made its result. *)
Lemma complete_served seen_logs k e i w :
  served k e w ->
  exists w', continues seen_logs w w' /\ served k (complete (EH := handler_after k) e i) w' /\ states w' = states w.
Proof.
  intros Hs. unfold complete. destruct (running e !! i) as [c|] eqn:Ei; [|exists w; split_and!; [apply continues_refl|done|done]].
  destruct Hs as [Hr He Hh Ht]. assert (c ∈ w_asked w) as [j Hj]%list_elem_of_lookup by (by eapply Hr, list_elem_of_lookup_2).
  change (handle_effect (EffectHandler := handler_after k) (entropy e) c (handler e)) with
    (handle_effect (EffectHandler := sentinel_handler (EN := site_engine site)) (k + entropy e)%nat c (handler e)).
  rewrite <- Ht, Hh. destruct (handle_effect (w_tick w) c (w_handler w)) as [r h] eqn:E.
  exists (MkWorld (w_state w) (w_past w) (w_asked w) (w_results w ++ option_list r) h (S (w_tick w)) (w_actions w)).
  split; [|split; [|done]].
  - apply (continues_step _ _ (Perform j)); [|done]. cbn [happen]. rewrite Hj. cbn [mbind option_bind]. by rewrite E.
  - split; cbn; [| |done|by rewrite Ht, Nat.add_succ_r].
    + intros c' Hc'. apply Hr. by eapply elem_of_submseteq, submseteq_delete.
    + intros r' [Hr'|<-%list_elem_of_singleton]%elem_of_app; [apply elem_of_app; left; by apply He|].
      apply elem_of_app. right. by apply list_elem_of_singleton.
Qed.

Lemma next_resume_served k e w : served k e w ->
  served k (next_resume e).2 w /\ forall r, (next_resume e).1 = Some r -> r ∈ w_results w.
Proof.
  intros [Hr He Hh Ht]. unfold next_resume.
  assert (forall r, (Some r ∈ (first_resume (ended e)).2 \/ (first_resume (ended e)).1 = Some r) -> r ∈ w_results w) as Hf.
  { clear Hr Hh Ht. induction (ended e) as [|[x|] l IH]; intros r Hin; cbn in Hin.
    - destruct Hin as [[]%not_elem_of_nil|Hin]; discriminate Hin.
    - apply He. destruct Hin as [Hin|[= ->]]; [by apply list_elem_of_further|apply list_elem_of_here].
    - apply IH; [|done]. intros y Hy. apply He. by apply list_elem_of_further. }
  destruct (first_resume (ended e)) as [o rest]. cbn in *. split; [split; cbn; eauto|eauto].
Qed.

(** ** Every life is a history *)

Lemma driver_step_tracked {NODE : Node} {TN : TxNode} seen_logs k fuel ev d d' w :
  tracked (d_state d) w -> served k (d_effects d) w ->
  driver_step (EH := handler_after k) fuel ev d = Some (Ok d') ->
  exists w', continues (seen_logs ++ seen fuel ev d) w w' /\ tracked (d_state d') w' /\ served k (d_effects d') w' /\
    submits d d' w'.
Proof.
  intros Ht Hs Hstep. destruct ev as [|i|]; cbn [driver_step seen] in *.
  - destruct (next_index fuel (d_watcher d) (d_tick d)) as [[[u w0] tick]|]; [|done]. cbn [mbind option_bind] in Hstep.
    destruct u as [u|e].
    + injection Hstep as Hstep. destruct (update_driver_tracked (seen_logs ++ match u with Update.Logs us => logs us | _ => [] end)
        k (InputUpdate u) (MkDriver w0 tick (d_state d) (d_effects d) (d_world d)) d' w Ht Hs ltac:(intros us ->; set_solver) Hstep) as (w' & Hc & Hrest).
      exists w'. split; [by destruct u|exact Hrest].
    + destruct (unrecoverable e); [by simplify_eq|]. injection Hstep as <-. exists w. split; [apply continues_refl|].
      split; [done|]. split; [done|by apply submits_nothing].
  - injection Hstep as <-. destruct (complete_served (seen_logs ++ []) k _ i w Hs) as (w' & Hc & Hs' & Hst).
    exists w'. split; [done|]. split; [|split; [done|by apply submits_nothing]].
    injection Hst as Hst Hp. unfold tracked. by rewrite Hst, Hp.
  - destruct (next_resume_served k _ w Hs) as [Hs' Hr]. destruct (next_resume (d_effects d)) as [[r|] e]; cbn in Hs', Hr.
    + injection Hstep as Hstep.
      exact (update_driver_tracked (seen_logs ++ []) k (InputResume r) (with_effects d e) d' w Ht Hs' (Hr r eq_refl) Hstep).
    + injection Hstep as <-. exists w. split; [apply continues_refl|]. split; [done|]. split; [done|by apply submits_nothing].
Qed.

Lemma start_parts {NODE : Node} {TN : TxNode} fuel snapshots st store blocks events txs d :
  start_sentinel fuel snapshots st store blocks events txs = Some (Ok d) ->
  with_init snapshots ∅ = Ok (d_state d) /\ d_effects d = new_effects (MkSentinelHandler (ss_engine_timeout svc) store).
Proof.
  unfold start_sentinel, new_driver. intros Hn. destruct (with_init snapshots ∅) as [m|e]; [|done]. simpl in Hn.
  destruct (new_index _ _ _ _ _ _) as [[w tick]|]; [|done]. simpl in Hn. destruct w as [w|e]; [|done].
  destruct (new_queue _ _ _) as [[q|e] t]; [|done]. by injection Hn as <-.
Qed.

Lemma happened_timeout timeout hs w : happened self site timeout hs = Some w -> engine_timeout (w_handler w) = timeout.
Proof.
  revert w. induction hs as [|h hs IH] using rev_ind; intros w Hw; [by injection Hw as <-|].
  unfold happened in Hw. rewrite foldl_app in Hw. cbn [foldl] in Hw. apply bind_Some in Hw as (w0 & Hw0 & Hh).
  rewrite <- (IH w0 Hw0). destruct h; cbn [happen] in Hh.
  - injection Hh as <-. by rewrite receive_spec.
  - injection Hh as <-. by rewrite receive_spec.
  - destruct (w_asked w0 !! check); [|done]. cbn in Hh. destruct (engine_check _ _ _ _). by injection Hh as <-.
  - destruct (w_results w0 !! result); [|done]. injection Hh as <-. by rewrite receive_spec.
  - by injection Hh as <-.
  - destruct (w_past w0 !! state); [|done]. by injection Hh as <-.
Qed.

Lemma continued timeout hs seen_logs w w' :
  happened self site timeout hs = Some w -> continues seen_logs w w' ->
  exists more, happened self site timeout (hs ++ more) = Some w' /\ forall log, Observe log ∈ more -> log ∈ seen_logs.
Proof.
  intros Hw (more & Hm & Hs). exists more. split; [|done]. unfold happened. rewrite foldl_app.
  fold (happened self site timeout hs). by rewrite Hw.
Qed.

(** A history only adds states, and begins with the empty one. *)
Lemma happen_states w h w' : happen self site w h = Some w' -> states w ⊆ states w'.
Proof.
  intros Hh. destruct h; cbn [happen] in Hh.
  - injection Hh as <-. rewrite receive_spec. set_solver.
  - injection Hh as <-. rewrite receive_spec. set_solver.
  - destruct (w_asked w !! check); [|done]. cbn in Hh. destruct (engine_check _ _ _ _). by injection Hh as <-.
  - destruct (w_results w !! result); [|done]. injection Hh as <-. rewrite receive_spec. set_solver.
  - by injection Hh as <-.
  - destruct (w_past w !! state); [|done]. injection Hh as <-. set_solver.
Qed.
Lemma happened_empty timeout hs w : happened self site timeout hs = Some w -> (∅ : State) ∈ states w.
Proof.
  revert w. induction hs as [|h hs IH] using rev_ind; intros w Hw; [injection Hw as <-; apply list_elem_of_here|].
  unfold happened in Hw. rewrite foldl_app in Hw. cbn [foldl] in Hw. apply bind_Some in Hw as (w0 & Hw0 & Hh).
  by apply (happen_states _ _ _ Hh), IH.
Qed.

(** A process that starts is at a state of the history. *)
Lemma restart_tracked m m' w :
  (exists sp, anchored ∅ (snapshots m) (marks sp) /\ forall n h, marks sp !! n = Some h -> run ∅ h ∈ states w) ->
  (∅ : State) ∈ states w -> with_init (snapshots m) ∅ = Ok m' ->
  exists s, s ∈ states w /\ forall w', w_state w' = s -> states w ⊆ states w' -> tracked m' w'.
Proof.
  intros (sp & Ha & Hmk) He Hm. destruct (restart_refined _ _ _ _ Ha Hm) as (h & status & Hr & Hh).
  exists (run ∅ h). split.
  - destruct Hh as [->|[n Hn]]; [done|by eapply Hmk].
  - intros w' Hs Hsub. exists (MkSpec h status (marks sp)). split; [done|]. split; [done|].
    intros n k Hn. by eapply Hsub, Hmk.
Qed.

(** The history a life is: it observed the logs the machine was given, and no other. *)
Lemma lives_history k d seen_logs :
  lives k d seen_logs ->
  exists hs w, happened self site (ss_engine_timeout svc) hs = Some w /\ (forall log, Observe log ∈ hs -> log ∈ seen_logs) /\
    tracked (d_state d) w /\ served k (d_effects d) w.
Proof.
  induction 1 as [NODE TN fuel st blocks events txs d Hd|NODE TN k d seen_logs fuel ev d' Hl IH Hstep
    |NODE TN k d seen_logs fuel blocks events txs d' Hl IH Hd].
  - apply start_parts in Hd as [Hm He]. exists [], (fresh (ss_engine_timeout svc)). split; [done|].
    split; [intros log []%not_elem_of_nil|]. split.
    + destruct (restart_tracked (MkStateMachine None ∅) (d_state d) (fresh (ss_engine_timeout svc))) as (s & Hs%list_elem_of_singleton & Ht).
      * exists (MkSpec [] Initialized ∅). split; [by intros n|]. intros n h Hn. cbn [marks] in Hn. by apply (lookup_empty_Some (M := gmap Z)) in Hn.
      * apply list_elem_of_here.
      * exact Hm.
      * by apply Ht.
    + rewrite He. split; cbn; [done|intros r []%not_elem_of_nil|done|done].
  - destruct IH as (hs & w & Hw & Hlog & Ht & Hs).
    destruct (driver_step_tracked seen_logs k fuel ev d d' w Ht Hs Hstep) as (w' & Hc & Ht' & Hs' & _).
    destruct (continued _ _ _ _ _ Hw Hc) as (more & Hw' & Hm). exists (hs ++ more), w'. split; [done|]. split; [|done].
    intros log [Hin|Hin]%elem_of_app; [apply elem_of_app; left; by apply Hlog|by apply Hm].
  - destruct IH as (hs & w & Hw & Hlog & (sp & [_ Ha] & _ & Hmk) & [_ _ Hh Htick]). apply start_parts in Hd as [Hm He].
    destruct (restart_tracked _ _ w (ex_intro _ sp (conj Ha Hmk)) (happened_empty _ _ _ Hw) Hm) as (s & Hs & Ht).
    destruct (return_continues seen_logs s w Hs) as (w' & Hc & Hs' & Hsub & _ & _ & _ & Hh' & Ht').
    destruct (continued _ _ _ _ _ Hw Hc) as (more & Hw' & Hmore). exists (hs ++ more), w'. split; [done|].
    split; [intros log [?|?]%elem_of_app; [by apply Hlog|by apply Hmore]|]. split; [by apply Ht|].
    rewrite He. split; cbn; [set_solver|intros r []%not_elem_of_nil| |by rewrite Ht', Htick, Nat.add_0_r].
    rewrite Hh', Hh, <- (happened_timeout _ _ _ Hw). by destruct (w_handler w).
Qed.
End Lives.

(** ** What it submits *)

Section Deployed.
Context {KEC : Keccak} {SG : Signer} {SC : SentinelCrypto} {MO : MapOrder RequestState} {MOL : MapOrderLaws RequestState}.
Context {MS : MultiSendAbi} {AB : CallAbi} {LA : LogAbi} {OH : OrderHash}.
Context {EX : Executor} {SER : Serde State} {SL : SerdeLaws State} {EV : Events SentinelEvents}.
Context (svc : SentinelService) (reached : nat -> bool) (order_api : nat -> OrderApi) (blocklist : gset Z).
Context (config : PoisoningConfig) (h : nat -> History) (refund_node node : nat -> Provider).

Hypothesis histories : forall tick timestamp,
  let context := MkCheckContext LatestBlock timestamp in
  history_ok (h tick) config (refund_node tick) context /\ history_ok (h tick) config (node tick) context.

(** The deployed engine it asks. *)
Definition engine_site : Site := MkSite (deployed order_api blocklist config refund_node node) reached.

(** C3: the deployed sentinel casts the votes its engine gave it reason for. Over all
    its lives (any node, any schedule of polls, checks and results, reorganizations,
    restarts over its database at any point), a step enqueues as transactions some
    actions, in one batch, and nothing else; and each of them that commits to a vote
    or reveals one follows from a verdict of the deployed engine, as its chain was at
    one of the requests, on a transaction proposed for that very request in a log
    the indexer delivered: approvals found every call allowed and the data trusted,
    denials cite the rule by which one of the checks denied. *)
Theorem deployed_sentinel_votes {NODE : Node} {TN : TxNode} k d seen_logs fuel ev d' :
  lives svc engine_site k d seen_logs ->
  driver_step (ST := sentinel_self svc) (AE := encoder_self svc) (EH := handler_after engine_site k) fuel ev d = Some (Ok d') ->
  exists actions queued ops1 ops2,
    enqueue (apply_ops (storage_of d) ops1) (encode_sentinel_action (encoder_of svc) <$> actions) = Ok queued /\
    storage_of d' = apply_ops queued ops2 /\ Driver.quiet ops1 /\ Driver.quiet ops2 /\
    forall a, a ∈ actions ->
      vote_earned (sentinel_of svc) order_api blocklist config h refund_node node
        (Observe <$> (seen_logs ++ seen fuel ev d)) a.
Proof using MOL SL histories.
  intros Hl Hstep. destruct (lives_history _ _ _ _ _ Hl) as (hs & w & Hw & Hlog & Ht & Hs).
  destruct (driver_step_tracked svc engine_site seen_logs k fuel ev d d' w Ht Hs Hstep)
    as (w' & Hc & _ & _ & actions & queued & ops1 & ops2 & Hen & Hst & Hq1 & Hq2 & Hact).
  exists actions, queued, ops1, ops2. split_and!; try done. intros a Ha.
  destruct (continued _ _ _ _ _ _ _ Hw Hc) as (more & Hw' & Hmore).
  apply (vote_earned_mono _ _ _ _ _ _ _ (hs ++ more)).
  - intros log [Hin|Hin]%elem_of_app; apply list_elem_of_fmap_2; [apply elem_of_app; left; by apply Hlog|by apply Hmore].
  - apply happened_ruled in Hw' as [_ _ _ _ _ Hall]. rewrite Forall_forall in Hall.
    by apply (action_earned _ reached), Hall, Hact.
Qed.
End Deployed.
