(* ===== verification/ToyLives.v ===== *)
(** A life of the deployed sentinel: its node serves a proposal and the request it
    opens; the process restarts after the check, over its database. *)

From Stdlib Require Import String.
From S2P Require Import Prelude Keccak Batches Coverage Checks Cow Poisoning Engine ToyEngine.
From S2P Require Import Messages Snapshots StateMachine Node Blocks Events Watch ToyNode TxTypes TxStorage TxQueue ToyTx Driver.
From S2P Require Import Verdicts Sentinel Votes ToySentinel Rulings ToyRulings SentinelDeployment.

#[local] Existing Instances spread_keccak toy_call_abi toy_multi_send toy_log_abi toy_order_hash.

(** ** The chain *)

Definition request_logs : list Log :=
  [MkLog [7] [] 600 (Some 7) (Some 7) (Some 35) (Some 0); MkLog [8] [] 500 (Some 8) (Some 8) (Some 40) (Some 0)].
#[local] Instance toy_requesting_node : Node := {|
  RpcError := unit;
  resource_not_found _ := true;
  Node.chain_id := 100;
  node_block := node_block (Node := ToyNode.toy_node);
  node_logs _ f := Ok (filter (fun l => toy_matches f l && toy_in_blocks f l = true) request_logs);
  logs_bloom l := Z.of_nat (length l);
  bloom_contains _ _ := true;
  race t := t;
  hash_number h := h
|}.
#[local] Instance toy_sentinel_events : Events SentinelEvents := {|
  topics := [7; 8];
  decode_log tps _ :=
    match tps with
    | [7] => Some (TransactionProposedEvent (MkTransactionProposed 9 2 500 5 [] announced_transfer))
    | [8] => Some (NewRequestEvent (MkNewRequest 5 1 2 1000 3 100 20 30))
    | _ => None
    end
|}.
#[local] Instance toy_requests_serde : Serde State := {| Json := State; to_string := Some; from_str := Some |}.
#[local] Instance toy_requests_laws : SerdeLaws State.
Proof. constructor. intros s. by exists s. Qed.

(** ** The process *)

Definition toy_service : SentinelService := MkSentinelService 500 900 600 1 40 (engine_timeout_of 40 5000) ∅.
Definition toy_engine_site : Site := engine_site (fun tick => bool_decide (tick <> 0)%nat) (fun _ => toy_order_book)
  toy_blocklist ToyEngine.toy_config (fun _ => ToyEngine.toy_node) (fun _ => ToyEngine.toy_node).
Abbreviation ToyLife := (Driver (S := State) (H := SentinelHandler) (Effect := EngineCheck (T := Sentinel.SafeTransaction)) (Resume := EngineCheckResult)).
Definition toy_begin : option (result DriverError ToyLife) :=
  start_sentinel toy_service 30 ∅ empty_storage ∅ toy_blocks_config toy_events_config toy_tx_config.
Definition toy_restart (d : ToyLife) : option (result DriverError ToyLife) :=
  start_sentinel toy_service 30 (snapshots (d_state d)) (storage_of d) (verdicts (handler (d_effects d)))
    toy_blocks_config toy_events_config toy_tx_config.

(** A step of the process that starts after [k] checks, or its restart. *)
Definition toy_step (k : nat) (ev : option DriverEvent) (d : ToyLife) : option (nat * ToyLife * list (EventLog SentinelEvents)) :=
  match ev with
  | Some ev =>
      match driver_step (ST := sentinel_self toy_service) (AE := encoder_self toy_service) (EH := handler_after toy_engine_site k) 30 ev d with
      | Some (Ok d') => Some (k, d', seen 30 ev d)
      | _ => None
      end
  | None => match toy_restart d with Some (Ok d') => Some ((k + entropy (d_effects d))%nat, d', []) | _ => None end
  end.
Fixpoint toy_life (k : nat) (evs : list (option DriverEvent)) (d : ToyLife) (seen_logs : list (EventLog SentinelEvents))
    : option (nat * ToyLife * list (EventLog SentinelEvents)) :=
  match evs with
  | [] => Some (k, d, seen_logs)
  | ev :: evs => '(k, d', more) ← toy_step k ev d; toy_life k evs d' (seen_logs ++ more)
  end.

Lemma toy_life_lives evs k d seen_logs k' d' seen_logs' :
  lives toy_service toy_engine_site k d seen_logs -> toy_life k evs d seen_logs = Some (k', d', seen_logs') ->
  lives toy_service toy_engine_site k' d' seen_logs'.
Proof.
  revert k d seen_logs. induction evs as [|ev evs IH]; intros k d l Hl Hr; cbn [toy_life] in Hr; [by simplify_eq|].
  destruct (toy_step k ev d) as [[[k1 d1] more]|] eqn:Hs; [|done]. apply (IH k1 d1 (l ++ more)); [|exact Hr].
  unfold toy_step in Hs. destruct ev as [ev|].
  - destruct (driver_step 30 ev d) as [[d2|e]|] eqn:Hd; [|discriminate Hs..]. injection Hs as <- <- <-.
    exact (life_goes_on _ _ toy_requesting_node toy_tx_node k d l 30 ev d2 Hl Hd).
  - destruct (toy_restart d) as [[d2|e]|] eqn:Hd; [|discriminate Hs..]. injection Hs as <- <- <-. rewrite app_nil_r.
    exact (life_restarts _ _ toy_requesting_node toy_tx_node k d l 30 _ _ _ d2 Hl Hd).
Qed.

(** The first check does not reach the engine and its process ends; the next one is
    given the proposal again, and the check it asks for is answered before the block
    that opens the request. *)
Definition polls (n : nat) : list (option DriverEvent) := replicate n (Some Poll).
Definition toy_events_of_life : list (option DriverEvent) :=
  polls 7 ++ [Some (Complete 0); None] ++ polls 5 ++ [Some (Complete 0); Some Driver.Collect; Some Poll].

Lemma deployed_sentinel_votes_witness :
  exists d seen_logs (d' : ToyLife), lives toy_service toy_engine_site 1 d seen_logs /\ length seen_logs = 2%nat /\
    length (broadcast (d_world d)) = 0%nat /\ length (broadcast (d_world d')) = 2%nat /\
    exists actions queued ops1 ops2,
      enqueue (apply_ops (storage_of d) ops1) (encode_sentinel_action (encoder_of toy_service) <$> actions) = Ok queued /\
      storage_of d' = apply_ops queued ops2 /\ Driver.quiet ops1 /\ Driver.quiet ops2 /\
      forall a, a ∈ actions ->
        vote_earned (sentinel_of toy_service) (fun _ => toy_order_book) toy_blocklist ToyEngine.toy_config
          (fun _ => ToyEngine.toy_history) (fun _ => ToyEngine.toy_node) (fun _ => ToyEngine.toy_node)
          (Observe <$> (seen_logs ++ seen 30 Poll d)) a.
Proof.
  assert (match toy_begin with
    | Some (Ok d) =>
        match toy_life 0 toy_events_of_life d [] with
        | Some (k, d, l) =>
            match toy_step k (Some Poll) d with
            | Some (_, d', _) =>
                Nat.eqb k 1 && Nat.eqb (length l) 2 && Nat.eqb (length (broadcast (d_world d))) 0 &&
                Nat.eqb (length (broadcast (d_world d'))) 2
            | None => false
            end
        | None => false
        end
    | _ => false
    end = true) as Hok by (vm_compute; reflexivity).
  destruct toy_begin as [[d0|e]|] eqn:H0; [|discriminate Hok..].
  destruct (toy_life 0 toy_events_of_life d0 []) as [[[k d] l]|] eqn:Hl; [|discriminate Hok].
  pose proof (toy_life_lives _ _ _ _ _ _ _ (life_begins toy_service toy_engine_site toy_requesting_node toy_tx_node 30
    empty_storage toy_blocks_config toy_events_config toy_tx_config d0 H0) Hl) as Hlives.
  unfold toy_step in Hok. destruct (driver_step 30 Poll d) as [[d'|e]|] eqn:Hd; [|discriminate Hok..].
  apply andb_true_iff in Hok as [Hok Hb']. apply andb_true_iff in Hok as [Hok Hb]. apply andb_true_iff in Hok as [Hk Hn].
  apply Nat.eqb_eq in Hk, Hn, Hb, Hb'. subst k.
  exists d, l, d'. split; [exact Hlives|]. split; [exact Hn|]. split; [exact Hb|]. split; [exact Hb'|].
  pose proof (deployed_sentinel_votes toy_service (fun tick => bool_decide (tick <> 0)%nat) (fun _ => toy_order_book)
    toy_blocklist ToyEngine.toy_config (fun _ => ToyEngine.toy_history) (fun _ => ToyEngine.toy_node)
    (fun _ => ToyEngine.toy_node)) as Hvotes.
  refine (Hvotes _ toy_requesting_node toy_tx_node 1%nat d l 30%nat Poll d' Hlives Hd). intros tick timestamp. split; apply failing_node_ok.
Defined.
