(* ===== verification/Service.v ===== *)
(** The validator service's interface to the outside, [crates/validator/src/service/]:
    the actions it submits ([Action], with their encoding into transactions),
    and the effects it asks for ([Effect], [Resume]) with the handler that
    performs them over the secret store. *)

From S2P Require Import Prelude Keccak Bindings Epoch FrostLib Frost Secrets Messages TxTypes.

(** ** Actions *)

Module Action.

Inductive t :=
| KeyGenAndCommit (participants count threshold context : Z) (poap : list Z)
    (commitment : Sol.KeyGenCommitment) (expires_at : option Z)
| KeyGenSecretShare (group_id : Z) (share : Sol.KeyGenSecretShare) (expires_at : option Z)
| KeyGenComplain (group_id accused : Z) (expires_at : option Z)
| KeyGenConfirm (group_id : Z) (callback : option Sol.Callback) (expires_at : option Z)
| KeyGenComplaintResponse (group_id plaintiff secret_share : Z) (expires_at : option Z)
| CommitNonces (signature_id : Z) (nonces : Sol.SignNonces) (expires_at : Z)
| SignShare (signature_id : Z) (selection : Sol.SignSelection) (share : Sol.SignatureShare)
    (proof : list Z) (callback : Sol.Callback) (expires_at : Z)
| Sign (group_id message expires_at : Z)
| AttestTransaction (epoch : EpochId.t) (oracle oracle_data_hash chain_id safe
    safe_tx_struct_hash signature_id expires_at : Z)
| StageEpoch (proposed_epoch rollover_block group_id signature_id expires_at : Z)
| SetValidatorStaker (staker : Z).

End Action.

Record Encoder := MkEncoder { coordinator : Z; encoder_consensus : Z }.

(** [encode_action]: the transaction of an action and the block it expires at.
    The share count times its gas stays far below 2^64. *)
Definition encode_action {ABI : Abi} (self : Encoder) (action : Action.t)
    : Transaction * option Z :=
  match action with
  | Action.KeyGenAndCommit participants count threshold context poap commitment expires_at =>
      (MkTransaction (coordinator self) 0
         (abi_encode (keyGenAndCommitCall participants count threshold context poap commitment))
         250000, expires_at)
  | Action.KeyGenSecretShare group_id share expires_at =>
      let gas := 250000 + 25000 * Z.of_nat (length (Sol.share_f share)) in
      (MkTransaction (coordinator self) 0 (abi_encode (keyGenSecretShareCall group_id share)) gas,
       expires_at)
  | Action.KeyGenComplain group_id accused expires_at =>
      (MkTransaction (coordinator self) 0 (abi_encode (keyGenComplainCall group_id accused)) 300000,
       expires_at)
  | Action.KeyGenConfirm group_id callback expires_at =>
      let '(data, gas) :=
        match callback with
        | Some callback => (abi_encode (keyGenConfirmWithCallbackCall group_id callback), 300000)
        | None => (abi_encode (keyGenConfirmCall group_id), 200000)
        end in
      (MkTransaction (coordinator self) 0 data gas, expires_at)
  | Action.KeyGenComplaintResponse group_id plaintiff secret_share expires_at =>
      (MkTransaction (coordinator self) 0
         (abi_encode (keyGenComplaintResponseCall group_id plaintiff secret_share)) 300000,
       expires_at)
  | Action.CommitNonces signature_id nonces expires_at =>
      (MkTransaction (coordinator self) 0 (abi_encode (signCommitNoncesCall signature_id nonces))
         100000, Some expires_at)
  | Action.SignShare signature_id selection share proof callback expires_at =>
      (MkTransaction (coordinator self) 0
         (abi_encode (signShareWithCallbackCall signature_id selection share proof callback))
         400000, Some expires_at)
  | Action.Sign group_id message expires_at =>
      (MkTransaction (coordinator self) 0 (abi_encode (signCall group_id message)) 150000,
       Some expires_at)
  | Action.AttestTransaction epoch oracle oracle_data_hash chain_id safe safe_tx_struct_hash
      signature_id expires_at =>
      (MkTransaction (encoder_consensus self) 0
         (abi_encode (attestTransactionCall (EpochId.raw_value epoch) oracle oracle_data_hash
            chain_id safe safe_tx_struct_hash signature_id)) 250000, Some expires_at)
  | Action.StageEpoch proposed_epoch rollover_block group_id signature_id expires_at =>
      (MkTransaction (encoder_consensus self) 0
         (abi_encode (stageEpochCall proposed_epoch rollover_block group_id signature_id)) 250000,
       Some expires_at)
  | Action.SetValidatorStaker staker =>
      (MkTransaction (encoder_consensus self) 0 (abi_encode (setValidatorStakerCall staker)) 100000,
       None)
  end.

(** ** Effects *)

Module Effect.
Section Effect.
Context {FL : FrostLib}.

Inductive t :=
| KeyGenSetup (group_id count threshold : Z)
| GenerateNonces (group_id signature_id : Z) (key_share : Keygen.KeyShare)
| UseNonces (message signature_id : Z)
| ReconcileGroupSecrets (block : Z) (groups : gmap Z RetainedSecrets).

End Effect.
End Effect.

Module Resume.
Section Resume.
Context {FL : FrostLib}.

Inductive t :=
| Noop
| Setup (group_id : Z) (secrets : Keygen.Secrets)
| NonceCommitments (signature_id : Z) (nonces : Sol.SignNonces)
| Nonces (message : Z) (nonces : Sign.SigningNonces).

End Resume.
End Resume.

Section Handler.
Context {FL : FrostLib}.

(** [Handler]: the account and the store it writes to. *)
Record Handler := MkHandler { handler_account : Z; handler_secrets : SecretStore }.

(** [InternalError]: any error, by the description logged. *)
Inductive InternalError := FromFrost (e : Error) | FromStore (e : StoreError).

Definition with_secrets (h : Handler) (s : SecretStore) : Handler :=
  MkHandler (handler_account h) s.

(** [try_perform_effect]; every effect that samples reads the thread's generator
    [rng]. *)
Definition try_perform_effect (self : Handler) (rng : Rng) (effect : Effect.t)
    : Handler * result InternalError Resume.t :=
  match effect with
  | Effect.KeyGenSetup group_id count threshold =>
      match (Keygen.setup rng (handler_account self) count threshold).1 with
      | Err e => (self, Err (FromFrost e))
      | Ok secrets =>
          let '(store, stored) :=
            store_keygen_secrets (handler_secrets self) group_id (handler_account self) secrets in
          (with_secrets self store, Ok (Resume.Setup group_id stored))
      end
  | Effect.GenerateNonces group_id signature_id key_share =>
      let nonces := (Sign.generate key_share rng).1 in
      let '(store, stored) :=
        store_signing_nonces (handler_secrets self) group_id signature_id (handler_account self)
          nonces in
      (with_secrets self store,
       Ok match stored with
          | Some nonces => Resume.NonceCommitments signature_id nonces
          | None => Resume.Noop
          end)
  | Effect.UseNonces message signature_id =>
      let '(store, taken) := take_signing_nonces (handler_secrets self) signature_id in
      (with_secrets self store,
       Ok match taken with
          | Some nonces => Resume.Nonces message nonces
          | None => Resume.Noop
          end)
  | Effect.ReconcileGroupSecrets block groups =>
      match schedule_group_secrets_deletion (handler_secrets self) block groups with
      | Err e => (self, Err (FromStore e))
      | Ok (store, _) => (with_secrets self store, Ok Resume.Noop)
      end
  end.

(** [perform_effect]: a failed effect resumes as [Noop]. *)
Definition perform_effect (self : Handler) (rng : Rng) (effect : Effect.t)
    : Handler * Resume.t :=
  match try_perform_effect self rng effect with
  | (self, Ok resume) => (self, resume)
  | (self, Err _) => (self, Resume.Noop)
  end.

(** [housekeeping]: a failed collection is retried by a later block. *)
Definition housekeeping (self : Handler) (status : BlockStatus) : Handler :=
  match prune_scheduled_secrets (handler_secrets self) (safe status) with
  | Ok (store, _) => with_secrets self store
  | Err _ => self
  end.

(** What the handler is asked to do, in order: effects with the generator they
    sample from, and housekeeping. *)
Inductive HandlerOp :=
| Perform (rng : Rng) (effect : Effect.t)
| Housekeep (status : BlockStatus).

Definition handler_step (h : Handler) (op : HandlerOp) : Handler * option Resume.t :=
  match op with
  | Perform rng effect => let '(h, r) := perform_effect h rng effect in (h, Some r)
  | Housekeep status => (housekeeping h status, None)
  end.

Fixpoint handler_run (h : Handler) (ops : list HandlerOp) : Handler * list (option Resume.t) :=
  match ops with
  | [] => (h, [])
  | op :: ops =>
      let '(h, r) := handler_step h op in
      let '(h, rs) := handler_run h ops in (h, r :: rs)
  end.

(** ** The handler as a history of the store *)

#[local] Opaque store_keygen_secrets store_signing_nonces take_signing_nonces
  schedule_group_secrets_deletion prune_scheduled_secrets.

(** The store operation a handler operation performs, if it reaches it. *)
Definition store_op (h : Handler) (op : HandlerOp) : option StoreOp :=
  match op with
  | Perform rng (Effect.KeyGenSetup group_id count threshold) =>
      match (Keygen.setup rng (handler_account h) count threshold).1 with
      | Ok secrets => Some (StoreKeygen group_id (handler_account h) secrets)
      | Err _ => None
      end
  | Perform rng (Effect.GenerateNonces group_id sid key_share) =>
      Some (StoreNonces group_id sid (handler_account h) (Sign.generate key_share rng).1)
  | Perform _ (Effect.UseNonces _ sid) => Some (TakeNonces sid)
  | Perform _ (Effect.ReconcileGroupSecrets block groups) => Some (Schedule block groups)
  | Housekeep status => Some (Prune (safe status))
  end.

Lemma handler_step_store h op :
  handler_account (handler_step h op).1 = handler_account h /\
  handler_secrets (handler_step h op).1 =
    match store_op h op with
    | Some sop => (store_step (handler_secrets h) sop).1
    | None => handler_secrets h
    end.
Proof.
  destruct op as [rng [g c t|g sid ks|m sid|b gs]|status]; simpl; unfold perform_effect; simpl.
  - destruct (Keygen.setup rng (handler_account h) c t) as [[k|e] r]; simpl; [|done].
    by destruct (store_keygen_secrets (handler_secrets h) g (handler_account h) k).
  - by destruct (store_signing_nonces (handler_secrets h) g sid (handler_account h)
                   (Sign.generate ks rng).1).
  - by destruct (take_signing_nonces (handler_secrets h) sid).
  - by destruct (schedule_group_secrets_deletion (handler_secrets h) b gs) as [[s x]|e].
  - unfold housekeeping.
    by destruct (prune_scheduled_secrets (handler_secrets h) (safe status)) as [[s x]|e].
Qed.

(** The pairs handed to ceremony [sid], and the commitments published for it. *)
Definition used_nonces (sid : Z) (ops : list HandlerOp) (resumes : list (option Resume.t))
    : list Sign.SigningNonces :=
  omap (fun '(op, r) =>
    match op, r with
    | Perform _ (Effect.UseNonces _ sid'), Some (Resume.Nonces _ n) =>
        if decide (sid' = sid) then Some n else None
    | _, _ => None
    end) (zip ops resumes).

Definition published_nonces (sid : Z) (resumes : list (option Resume.t)) : list Sol.SignNonces :=
  omap (fun r => match r with
                 | Some (Resume.NonceCommitments sid' n) => if decide (sid' = sid) then Some n else None
                 | _ => None end) resumes.

Lemma handler_step_nonces h op r sid :
  (handler_step h op).2 = r ->
  let out := match store_op h op with
             | Some sop => [(store_step (handler_secrets h) sop).2]
             | None => [] end in
  used_nonces sid [op] [r] = taken_of sid out /\ published_nonces sid [r] = committed_of sid out.
Proof.
  intros <-.
  destruct op as [rng [g c t|g sid' ks|m sid'|b gs]|status]; simpl; unfold perform_effect; simpl.
  - destruct (Keygen.setup rng (handler_account h) c t) as [[k|e] r']; simpl; [|done].
    by destruct (store_keygen_secrets (handler_secrets h) g (handler_account h) k).
  - destruct (store_signing_nonces (handler_secrets h) g sid' (handler_account h)
                (Sign.generate ks rng).1) as [s [n|]];
      simpl; unfold used_nonces, published_nonces, taken_of, committed_of; simpl;
      by repeat case_decide.
  - destruct (take_signing_nonces (handler_secrets h) sid') as [s [n|]];
      simpl; unfold used_nonces, published_nonces, taken_of, committed_of; simpl;
      by repeat case_decide.
  - by destruct (schedule_group_secrets_deletion (handler_secrets h) b gs) as [[s x]|e].
  - done.
Qed.

Lemma store_op_account h h' op :
  handler_account h = handler_account h' -> store_op h op = store_op h' op.
Proof. intros H. destruct op as [rng []|]; simpl; by rewrite ?H. Qed.

Lemma used_nonces_cons sid op ops r rs :
  used_nonces sid (op :: ops) (r :: rs) = used_nonces sid [op] [r] ++ used_nonces sid ops rs.
Proof. unfold used_nonces. simpl. by repeat case_match. Qed.

Lemma published_nonces_cons sid r rs :
  published_nonces sid (r :: rs) = published_nonces sid [r] ++ published_nonces sid rs.
Proof. unfold published_nonces. simpl. by repeat case_match. Qed.

(** Running the handler is running the store on the operations it performs. *)
Lemma handler_run_store h ops sid :
  let run := handler_run h ops in
  let history := store_run (handler_secrets h) (omap (store_op h) ops) in
  handler_secrets run.1 = history.1 /\
  used_nonces sid ops run.2 = taken_of sid history.2 /\
  published_nonces sid run.2 = committed_of sid history.2.
Proof.
  revert h. induction ops as [|op ops IH]; intros h; [done|]. cbn [handler_run].
  pose proof (handler_step_store h op) as [Ha Hs].
  pose proof (handler_step_nonces h op _ sid eq_refl) as [Hu Hp].
  destruct (handler_step h op) as [h' r] eqn:E. cbn [fst snd] in *.
  pose proof (IH h') as (H1 & H2 & H3). clear IH.
  assert (omap (store_op h') ops = omap (store_op h) ops) as Hops.
  { clear -Ha. induction ops as [|o ops IH]; simpl; [done|].
    rewrite (store_op_account h' h o Ha). destruct (store_op h o); [by f_equal|done]. }
  rewrite Hops in H1, H2, H3. clear Hops.
  destruct (handler_run h' ops) as [h'' rs] eqn:E'. cbn [fst snd] in *.
  rewrite used_nonces_cons, published_nonces_cons, Hu, Hp, H1, H2, H3, Hs.
  change (omap (store_op h) (op :: ops)) with
    match store_op h op with
    | Some sop => sop :: omap (store_op h) ops
    | None => omap (store_op h) ops
    end.
  destruct (store_op h op) as [sop|]; [|done]. cbn [store_run].
  destruct (store_step (handler_secrets h) sop) as [s out]. simpl.
  destruct (store_run s (omap (store_op h) ops)) as [s' outs]. simpl.
  split; [done|]. unfold taken_of, committed_of. simpl. split; by repeat case_match.
Qed.

Lemma reconcile_resumes_noop (h : Handler) rng b gs :
  (perform_effect h rng (Effect.ReconcileGroupSecrets b gs)).2 = Resume.Noop.
Proof.
  unfold perform_effect, try_perform_effect.
  by destruct (schedule_group_secrets_deletion (handler_secrets h) b gs) as [[]|].
Qed.

#[local] Transparent store_signing_nonces take_signing_nonces.

Lemma generate_nonces_repeatable (h : Handler) rng rng' g sid ks :
  let '(h1, first) := perform_effect h rng (Effect.GenerateNonces g sid ks) in
  let '(h2, again) := perform_effect h1 rng' (Effect.GenerateNonces g sid ks) in
  again = first /\ h2 = h1 /\
  (first = Resume.Noop \/ exists c, first = Resume.NonceCommitments sid c).
Proof.
  unfold perform_effect, try_perform_effect, store_signing_nonces.
  destruct (signing_nonces (handler_secrets h) !! sid) as [row|] eqn:E; simpl.
  - rewrite E. simpl. rewrite E. split_and!; [done|done|].
    destruct (nr_nonces row); simpl; eauto.
  - rewrite !lookup_insert_eq. simpl. split_and!; [done|done|eauto].
Qed.

Lemma use_nonces_repeatable (h : Handler) rng rng' m sid :
  let '(h1, first) := perform_effect h rng (Effect.UseNonces m sid) in
  let '(h2, again) := perform_effect h1 rng' (Effect.UseNonces m sid) in
  again = Resume.Noop /\ h2 = h1 /\ (first = Resume.Noop \/ exists n, first = Resume.Nonces m n).
Proof.
  unfold perform_effect, try_perform_effect, take_signing_nonces.
  destruct (signing_nonces (handler_secrets h) !! sid) as [[g a [n|] d]|] eqn:E; simpl.
  - rewrite lookup_alter_eq, E. simpl. split_and!; [done|done|eauto].
  - rewrite E. simpl. split_and!; [done|by destruct h as [? []]|by left].
  - rewrite E. simpl. split_and!; [done|by destruct h as [? []]|by left].
Qed.

(** An effect asked for again gives the same answer. Commands are replayed
    after a reorganization or a restart, with fresh randomness: repeating a key
    generation setup resumes with the secrets of the first one, and repeating a
    nonce generation with the commitments of the first pair, or with nothing once
    the pair was used; using nonces again resumes with nothing; a key generation
    setup that fails changes no secret and resumes with nothing. *)
Theorem effects_repeatable (h : Handler) rng rng' (effect : Effect.t) :
  let '(h1, first) := perform_effect h rng effect in
  let '(h2, again) := perform_effect h1 rng' effect in
  match effect with
  | Effect.KeyGenSetup group_id _ _ =>
      (exists secrets, first = Resume.Setup group_id secrets /\
         (again = first \/ again = Resume.Noop)) \/
      (first = Resume.Noop /\ h1 = h)
  | Effect.GenerateNonces _ sid _ =>
      again = first /\ h2 = h1 /\ (first = Resume.Noop \/ exists c, first = Resume.NonceCommitments sid c)
  | Effect.UseNonces message _ =>
      again = Resume.Noop /\ h2 = h1 /\ (first = Resume.Noop \/ exists n, first = Resume.Nonces message n)
  | Effect.ReconcileGroupSecrets _ _ => first = Resume.Noop /\ again = Resume.Noop
  end.
Proof.
  destruct effect as [g c t|g sid ks|m sid|b gs].
  - unfold perform_effect, try_perform_effect.
    destruct (Keygen.setup rng (handler_account h) c t).1 as [k|e]; simpl; [|by case_match; case_match; right].
    pose proof (store_keygen_secrets_stored (handler_secrets h) g (handler_account h) k) as Hst.
    destruct (store_keygen_secrets (handler_secrets h) g (handler_account h) k) as [st stored].
    simpl in *. apply fmap_Some in Hst as (row & Hrow & ->).
    destruct (Keygen.setup rng' (handler_account h) c t).1 as [k'|e'] eqn:E';
      [|left; eexists; split; [done|by right]].
    pose proof (store_keygen_secrets_existing st g (handler_account h) k' row Hrow) as He.
    destruct (store_keygen_secrets st g (handler_account h) k') as [st' stored']. simpl in *.
    left. eexists. split; [done|]. left. by rewrite He.
  - apply generate_nonces_repeatable.
  - apply use_nonces_repeatable.
  - pose proof (reconcile_resumes_noop h rng b gs) as H1.
    destruct (perform_effect h rng _) as [h1 first].
    pose proof (reconcile_resumes_noop h1 rng' b gs) as H2.
    by destruct (perform_effect h1 rng' _).
Qed.

End Handler.
