(* ===== verification/State.v ===== *)
(** The snapshotted validator state and the transition's configuration,
    [crates/validator/src/state/mod.rs] and [config.rs]. Block deadlines are
    [u64]s and sets of addresses [gset]s; the constructors and fields are the
    source's, in its order. *)

From S2P Require Import Prelude Keccak Epoch Group Bindings FrostLib Frost Hashing.

(** Epochs key the [epochs] map. *)
#[export] Instance EpochId_countable : Countable EpochId.t.
Proof.
  apply (inj_countable' EpochId.number
    (fun n => match n with None => EpochId.Genesis | Some n => EpochId.Number n end)).
  by intros [].
Defined.

(** The complaints raised against a single accused participant. *)
Record Complaint := MkComplaint { total : Z; unresponded : gset Z }.

(** [Complaint::default]. *)
Definition default_complaint : Complaint := MkComplaint 0 ∅.

Record ConfirmationDeadlines := MkConfirmationDeadlines {
  complain : Z; response : Z; confirm : Z
}.

(** A packet a validator group signs an attestation over. *)
Inductive Packet :=
| EpochRollover (active_epoch : EpochId.t) (proposed_epoch rollover_block group_id : Z)
    (group_key : Sol.Point)
| PacketTransaction (epoch : EpochId.t) (oracle : Z) (oracle_data : bytes)
    (transaction : Sol.SafeTransaction).

(** A signing selection, and its default. *)
Record SigningSelection := MkSigningSelection {
  shares_from : gset Z; last_signer : option Z
}.
Definition default_selection : SigningSelection := MkSigningSelection ∅ None.

Section State.
Context {FL : FrostLib}.

(** An epoch the validator participates in. *)
Record Epoch := MkEpoch { ep_group : Group; ep_key_share : Keygen.KeyShare }.

Inductive KeyGenCommitment :=
| CommitmentParticipating (poap : list Z) (secrets : option Keygen.Secrets)
| CommitmentObserving.

Inductive KeyGenParticipation :=
| Participating (sharing_state : Keygen.SharingState)
| Observing (group_commitments : Keygen.GroupCommitments).

Inductive KeyGenConfirmation :=
| ConfirmationObserving
| Collecting (shares : gmap Z Scalar)
| Confirmed (key_share : Keygen.KeyShare).

(** The epoch-rollover state machine. *)
Inductive RolloverState :=
| WaitingForGenesis
| Halted
| EpochStaged (next_epoch : Z)
| EpochSkipped (next_epoch : Z)
| CollectingCommitments (next_epoch : EpochId.t) (group : Group) (secrets : KeyGenCommitment)
    (commitments : gmap Z Keygen.VerifiedCommitment) (deadline : option Z)
| CollectingShares (next_epoch : EpochId.t) (group : Group) (participation : KeyGenParticipation)
    (shared : gset Z) (shares : gmap Z Scalar) (complaints : gmap Z Complaint)
    (deadline : option Z)
| CollectingConfirmations (next_epoch : EpochId.t) (group : Group)
    (participation : KeyGenParticipation) (status : KeyGenConfirmation)
    (confirmations : gset Z) (complaints : gmap Z Complaint)
    (deadlines : option ConfirmationDeadlines)
| SigningRollover (next_epoch : Z) (group : Group) (key_share : option Keygen.KeyShare)
    (message : Z).

(** A signing session, keyed by the message the group signature attests to. *)
Inductive SigningState :=
| WaitingForRequest (key_share : Keygen.KeyShare) (group_id : Z) (responsible : option Z)
    (packet : Packet) (oracle_approved : bool) (signers : gset Z) (deadline : Z)
| WaitingForOracle (key_share : Keygen.KeyShare) (oracle group_id signature_id : Z)
    (packet : Packet) (signers : gset Z) (deadline : Z)
| CollectNonceCommitments (key_share : Keygen.KeyShare) (group_id signature_id : Z)
    (committed : gmap Z Sign.CommittedNonces) (packet : Packet) (signers : gset Z) (deadline : Z)
| CollectSigningShares (key_share : Keygen.KeyShare) (group_id signature_id : Z)
    (committed : gmap Z Sign.CommittedNonces) (selections : gmap Z SigningSelection)
    (packet : Packet) (signers : gset Z) (deadline : Z)
| WaitingForAttestation (signature_id : Z) (packet : Packet) (deadline : Z).

(** The complete snapshotted state. *)
Record State := MkState {
  rollover : RolloverState;
  active_epoch : EpochId.t;
  epochs : gmap EpochId.t Epoch;
  signing : gmap Z SigningState;
  signature_id_to_message : gmap Z Z
}.

(** [State::default]. *)
Definition default_state : State := MkState WaitingForGenesis EpochId.Genesis ∅ ∅ ∅.

(** [State { rollover, ..state }] and the other field updates. *)
Definition with_rollover (s : State) (r : RolloverState) : State :=
  MkState r (active_epoch s) (epochs s) (signing s) (signature_id_to_message s).
Definition with_active_epoch (s : State) (e : EpochId.t) : State :=
  MkState (rollover s) e (epochs s) (signing s) (signature_id_to_message s).
Definition with_epochs (s : State) (e : gmap EpochId.t Epoch) : State :=
  MkState (rollover s) (active_epoch s) e (signing s) (signature_id_to_message s).
Definition with_signing (s : State) (m : gmap Z SigningState) : State :=
  MkState (rollover s) (active_epoch s) (epochs s) m (signature_id_to_message s).
Definition with_index (s : State) (m : gmap Z Z) : State :=
  MkState (rollover s) (active_epoch s) (epochs s) (signing s) m.

(** ** Accessors *)

(** [RolloverState::next_epoch]. *)
Definition next_epoch (r : RolloverState) : option EpochId.t :=
  match r with
  | WaitingForGenesis => Some EpochId.Genesis
  | EpochSkipped next_epoch | SigningRollover next_epoch _ _ _ | EpochStaged next_epoch =>
      Some (EpochId.Number next_epoch)
  | CollectingCommitments next_epoch _ _ _ _ | CollectingShares next_epoch _ _ _ _ _ _
  | CollectingConfirmations next_epoch _ _ _ _ _ _ => Some next_epoch
  | Halted => None
  end.

(** [KeyGenParticipation::group_commitments]. *)
Definition group_commitments (p : KeyGenParticipation) : Keygen.GroupCommitments :=
  match p with
  | Participating sharing_state => Keygen.sh_group_commitments sharing_state
  | Observing group_commitments => group_commitments
  end.

(** [KeyGenConfirmation::key_share]. *)
Definition confirmed_key_share (c : KeyGenConfirmation) : option Keygen.KeyShare :=
  match c with Confirmed key_share => Some key_share | _ => None end.

(** [SigningState::deadline]. *)
Definition deadline (s : SigningState) : Z :=
  match s with
  | WaitingForRequest _ _ _ _ _ _ deadline
  | WaitingForOracle _ _ _ _ _ _ deadline
  | CollectNonceCommitments _ _ _ _ _ _ deadline
  | CollectSigningShares _ _ _ _ _ _ _ deadline
  | WaitingForAttestation _ _ deadline => deadline
  end.

(** [SigningState::signature_id]. *)
Definition signature_id (s : SigningState) : option Z :=
  match s with
  | WaitingForAttestation signature_id _ _
  | WaitingForOracle _ _ _ signature_id _ _ _
  | CollectNonceCommitments _ _ signature_id _ _ _ _
  | CollectSigningShares _ _ signature_id _ _ _ _ _ => Some signature_id
  | WaitingForRequest _ _ _ _ _ _ _ => None
  end.

(** [SigningState::packet]. *)
Definition packet (s : SigningState) : Packet :=
  match s with
  | WaitingForRequest _ _ _ packet _ _ _
  | WaitingForOracle _ _ _ _ packet _ _
  | CollectNonceCommitments _ _ _ _ packet _ _
  | CollectSigningShares _ _ _ _ _ packet _ _
  | WaitingForAttestation _ packet _ => packet
  end.

(** [Packet::epoch]. *)
Definition packet_epoch (p : Packet) : EpochId.t :=
  match p with
  | EpochRollover active_epoch _ _ _ _ => active_epoch
  | PacketTransaction epoch _ _ _ => epoch
  end.

End State.

(** ** Configuration *)

(** The part of [ValidatorConfig] the transition reads; the durations are
    [NonZeroU64]s. *)
Record ValidatorConfig := MkValidatorConfig {
  cfg_consensus : Z;
  cfg_participants : list Participant;
  oracles : gset Z;
  genesis_salt : Z;
  blocks_per_epoch : Z;
  key_gen_timeout : Z;
  signing_timeout : Z;
  oracle_timeout : Z
}.

(** [Transition]: what the transition is parameterized over. *)
Class Transition {KEC : Keccak} {EIP : Eip712} := {
  account : Z;
  genesis : ParticipantSet;
  consensus : Eip712Domain;
  config : ValidatorConfig
}.

(** The durations a [NonZeroU64] can hold. *)
Record config_ok (c : ValidatorConfig) : Prop := {
  ok_blocks_per_epoch : 1 <= blocks_per_epoch c <= u64_max;
  ok_key_gen_timeout : 1 <= key_gen_timeout c <= u64_max;
  ok_signing_timeout : 1 <= signing_timeout c <= u64_max;
  ok_oracle_timeout : 1 <= oracle_timeout c <= u64_max
}.

(** Destructs the rollover state of [s], naming the fields of each case. *)
Ltac rollover_cases s E :=
  destruct (rollover s) as
    [| |n|n|e g k cm d|e g p sh shs cs d|e g p st cf cs ds|n g k msg] eqn:E.

(** Exposes the branches of a handler without evaluating their conditions. *)
Ltac branch_open := unfold size_of, parameters; cbv beta iota zeta.
