(* ===== verification/KeyGen.v ===== *)
(** The epoch rollover and distributed key generation handlers,
    [crates/validator/src/state/keygen.rs]. One definition per handler, with its
    branches in the source's order; logging is dropped. *)

From S2P Require Import Prelude Keccak Epoch Group Bindings FrostLib Frost Hashing Secrets.
From S2P Require Import Messages Service State.

Section KeyGen.
Context {KEC : Keccak} {FL : FrostLib} {EIP : Eip712} {ABI : Abi} {TR : Transition}.

Abbreviation Commands := (list (Command.t Action.t Effect.t)).

(** ** Shared steps *)

(** [rollover_failure]: a failed epoch is skipped; a failed genesis halts. *)
Definition rollover_failure (next_epoch : EpochId.t) : RolloverState :=
  match next_epoch with
  | EpochId.Number next_epoch => EpochSkipped next_epoch
  | EpochId.Genesis => Halted
  end.

(** [fail_rollover!]. *)
Definition fail_rollover (state : State) (next_epoch : EpochId.t) : State * Commands :=
  (with_rollover state (rollover_failure next_epoch), []).

Definition start_key_gen (state : State) (next_epoch : EpochId.t)
    (participants : ParticipantSet) (deadline : option Z) : State * Commands :=
  match participate_as participants account with
  | Some (group, poap) =>
      let group_id := id group in
      let '(count, threshold) := size_of group in
      (with_rollover state
         (CollectingCommitments next_epoch group (CommitmentParticipating poap None) ∅ deadline),
       [Command.Effect (Effect.KeyGenSetup group_id count threshold)])
  | None =>
      let group := group participants in
      (with_rollover state
         (CollectingCommitments next_epoch group CommitmentObserving ∅ deadline),
       [])
  end.

Definition restart_key_gen_excluding (state : State) (next_epoch : EpochId.t)
    (excluded : gset Z) (deadline : option Z) : State * Commands :=
  let participants :=
    match next_epoch with
    | EpochId.Number number =>
        participants_set (cfg_participants config)
          (GroupEpoch.Number (cfg_consensus config) number excluded)
    | EpochId.Genesis => None
    end in
  match participants with
  | Some participants => start_key_gen state next_epoch participants deadline
  | None => (with_rollover state (rollover_failure next_epoch), [])
  end.

Definition finalize_key_gen_commitments (next_epoch : EpochId.t) (group : Group)
    (secrets : option Keygen.Secrets) (commitments : gmap Z Keygen.VerifiedCommitment)
    (deadline : option Z) : RolloverState * Commands :=
  let computed :=
    match secrets with
    | Some secrets =>
        (fun '(sharing_state, share) =>
           (Participating sharing_state,
            [Command.Action (Action.KeyGenSecretShare (id group) share deadline)]))
        <$> Keygen.generate_secret_shares secrets commitments
    | None =>
        (fun group_commitments => (Observing group_commitments, []))
        <$> Keygen.group_commitments commitments
    end in
  match computed with
  | Ok (participation, commands) =>
      (CollectingShares next_epoch group participation ∅ ∅ ∅ deadline, commands)
  | Err _ => (rollover_failure next_epoch, [])
  end.

Definition finalize_key_gen (state : State) (epoch : EpochId.t) (group : Group)
    (key_share : option Keygen.KeyShare) : State :=
  match key_share with
  | Some key_share => with_epochs state (<[epoch := MkEpoch group key_share]> (epochs state))
  | None => state
  end.

Definition key_gen_confirmation_callback (next_epoch : EpochId.t) : option Sol.Callback :=
  match next_epoch with
  | EpochId.Number number =>
      Some (Sol.MkCallback (cfg_consensus config)
              (abi_encode_u64_pair number (sat_mul number (blocks_per_epoch config))))
  | EpochId.Genesis => None
  end.

Definition confirm_key_gen (epoch : EpochId.t) (group : Group)
    (sharing_state : Keygen.SharingState) (shares : gmap Z Scalar)
    (deadlines : option ConfirmationDeadlines)
    : result Error (KeyGenConfirmation * Commands) :=
  key_share ← Keygen.finalize sharing_state shares;
  Ok (Confirmed key_share,
      [Command.Action (Action.KeyGenConfirm (id group) (key_gen_confirmation_callback epoch)
         (confirm <$> deadlines))]).

(** [block.saturating_add(self.config.key_gen_timeout.get())]. *)
Definition key_gen_deadline (block : Z) : Z := sat_add block (key_gen_timeout config).

(** [map.len() as u16]. *)
Definition len_u16 {V} (m : gmap Z V) : Z := wrap_u16 (Z.of_nat (size m)).
Definition set_len_u16 (s : gset Z) : Z := wrap_u16 (Z.of_nat (size s)).

(** ** Genesis and commitments *)

Definition handle_genesis_key_gen (state : State) (event : Coordinator.KeyGen)
    : State * Commands :=
  let genesis_group := group genesis in
  match rollover state with
  | WaitingForGenesis =>
      if decide (Coordinator.kg_gid event ≠ id genesis_group) then (state, [])
      else start_key_gen state EpochId.Genesis genesis None
  | _ => (state, [])
  end.

Definition handle_key_gen_setup (state : State) (group_id : Z) (secrets : Keygen.Secrets)
    : State * Commands :=
  match rollover state with
  | CollectingCommitments next_epoch group (CommitmentParticipating poap None) commitments
      deadline =>
      if decide (group_id = id group) then
        let '(count, _) := size_of group in
        let commands :=
          match commitments !! account with
          | Some _ => []
          | None =>
              let '(participants, count, threshold, context) := parameters group in
              [Command.Action (Action.KeyGenAndCommit participants count threshold context poap
                 (Keygen.commitment secrets) deadline)]
          end in
        if decide (len_u16 commitments ≠ count) then
          (with_rollover state
             (CollectingCommitments next_epoch group (CommitmentParticipating poap (Some secrets))
                commitments deadline), commands)
        else
          let deadline := (fun deadline => sat_add deadline (key_gen_timeout config)) <$> deadline in
          let '(rollover, finalize_commands) :=
            finalize_key_gen_commitments next_epoch group (Some secrets) commitments deadline in
          (with_rollover state rollover, commands ++ finalize_commands)
      else (state, [])
  | _ => (state, [])
  end.

Definition handle_key_gen_committed (state : State) (block : Z)
    (event : Coordinator.KeyGenCommitted) : State * Commands :=
  match rollover state with
  | CollectingCommitments next_epoch group secrets commitments deadline =>
      if decide (id group = Coordinator.kc_gid event) then
        let '(count, _) := size_of group in
        let commitments :=
          match Keygen.verify_commitment (Coordinator.kc_participant event)
                  (Coordinator.kc_commitment event) with
          | Ok commitment => <[Coordinator.kc_participant event := commitment]> commitments
          | Err _ => commitments
          end in
        let collecting :=
          (with_rollover state
             (CollectingCommitments next_epoch group secrets commitments deadline), []) in
        let finalize secrets :=
          let deadline := (fun _ => key_gen_deadline block) <$> deadline in
          let '(rollover, commands) :=
            finalize_key_gen_commitments next_epoch group secrets commitments deadline in
          (with_rollover state rollover, commands) in
        if decide (len_u16 commitments ≠ count) then collecting
        else
          match secrets with
          | CommitmentObserving => finalize None
          | CommitmentParticipating _ (Some secrets) => finalize (Some secrets)
          | CommitmentParticipating _ None => collecting
          end
      else (state, [])
  | _ => (state, [])
  end.

(** ** Secret shares *)

Definition handle_key_gen_secret_shared (state : State) (block : Z)
    (event : Coordinator.KeyGenSecretShared) : State * Commands :=
  match rollover state with
  | CollectingShares next_epoch group participation shared shares complaints deadline =>
      if decide (id group = Coordinator.ks_gid event) then
        let '(count, _) := size_of group in
        let participant := Coordinator.ks_participant event in
        let '(shared, encrypted_shares) :=
          match Keygen.verify_secret_share (group_commitments participation) participant
                  (Coordinator.ks_share event) with
          | Ok encrypted_shares => (shared ∪ {[participant]}, Some encrypted_shares)
          | Err _ => (shared, None)
          end in
        let '(shares, commands) :=
          match participation, encrypted_shares with
          | Participating sharing_state, Some encrypted_shares =>
              match Keygen.verify_encrypted_secret_share sharing_state participant
                      encrypted_shares with
              | Ok share => (<[participant := share]> shares, [])
              | Err _ =>
                  let expires_at := (fun _ => key_gen_deadline block) <$> deadline in
                  (shares,
                   [Command.Action (Action.KeyGenComplain (id group) participant expires_at)])
              end
          | _, _ => (shares, [])
          end in
        if decide (set_len_u16 shared ≠ count) then
          (with_rollover state
             (CollectingShares next_epoch group participation shared shares complaints deadline),
           commands)
        else
          let deadlines := (fun _ => MkConfirmationDeadlines
            (key_gen_deadline block)
            (sat_add block (sat_mul (key_gen_timeout config) 2))
            (sat_add block (sat_mul (key_gen_timeout config) 3))) <$> deadline in
          let confirmations status commands :=
            (with_rollover state
               (CollectingConfirmations next_epoch group participation status ∅ complaints
                  deadlines), commands) in
          match participation with
          | Participating sharing_state =>
              if decide (len_u16 shares = count) then
                match confirm_key_gen next_epoch group sharing_state shares deadlines with
                | Ok (status, confirm_commands) =>
                    confirmations status (commands ++ confirm_commands)
                | Err _ => fail_rollover state next_epoch
                end
              else confirmations (Collecting shares) commands
          | Observing _ => confirmations ConfirmationObserving commands
          end
      else (state, [])
  | _ => (state, [])
  end.

(** ** Confirmations *)

Definition handle_key_gen_confirmed (state : State) (block : Z)
    (event : Coordinator.KeyGenConfirmed) : State * Commands :=
  match rollover state with
  | CollectingConfirmations next_epoch group participation status confirmations complaints
      deadlines =>
      if decide (id group = Coordinator.kf_gid event) then
        let '(count, _) := size_of group in
        let confirmations := confirmations ∪ {[Coordinator.kf_participant event]} in
        if decide (set_len_u16 confirmations ≠ count) then
          (with_rollover state
             (CollectingConfirmations next_epoch group participation status confirmations
                complaints deadlines), [])
        else
          match next_epoch with
          | EpochId.Genesis =>
              let next_epoch := next_number block (blocks_per_epoch config) in
              let state :=
                finalize_key_gen (with_rollover state (EpochSkipped next_epoch)) EpochId.Genesis
                  group (confirmed_key_share status) in
              match participants_set (cfg_participants config)
                      (GroupEpoch.Number (cfg_consensus config) next_epoch ∅) with
              | None => (state, [])
              | Some participants =>
                  start_key_gen state (EpochId.Number next_epoch) participants
                    (Some (key_gen_deadline block))
              end
          | EpochId.Number proposed_epoch =>
              let group_id := id group in
              let key_share := confirmed_key_share status in
              let active_epoch := active_epoch state in
              let group_key := Keygen.group_key (group_commitments participation) in
              let rollover_block := sat_mul proposed_epoch (blocks_per_epoch config) in
              let message :=
                epoch_rollover_hash consensus active_epoch proposed_epoch rollover_block group_key in
              let signing :=
                match epochs state !! active_epoch with
                | Some participating_epoch =>
                    <[message :=
                        WaitingForRequest (ep_key_share participating_epoch)
                          (id (ep_group participating_epoch))
                          (Some (Coordinator.kf_participant event))
                          (EpochRollover active_epoch proposed_epoch rollover_block group_id
                             group_key)
                          false (participants (ep_group participating_epoch))
                          (sat_add block (signing_timeout config))]> (signing state)
                | None => signing state
                end in
              (with_rollover (with_signing state signing)
                 (SigningRollover proposed_epoch group key_share message), [])
          end
      else (state, [])
  | _ => (state, [])
  end.

(** [handle_sign_attested] of [sign.rs], called from here. *)
Definition handle_sign_attested (state : State) (_signature_id message : Z) : State * Commands :=
  let removed := signing state !! message in
  let state := with_signing state (delete message (signing state)) in
  let state :=
    match removed ≫= signature_id with
    | Some signature_id =>
        with_index state (delete signature_id (signature_id_to_message state))
    | None => state
    end in
  (state, []).

Definition handle_epoch_staged (state : State) (event : Consensus.EpochStaged)
    : State * Commands :=
  let unexpected := (state, []) in
  match rollover state with
  | SigningRollover next_epoch group key_share message =>
      if decide (id group = Consensus.es_groupId event) then
        let epoch := EpochId.Number next_epoch in
        let state :=
          finalize_key_gen (with_rollover state (EpochStaged next_epoch)) epoch group key_share in
        handle_sign_attested state (Consensus.es_signatureId event) message
      else unexpected
  | WaitingForGenesis =>
      (with_rollover state
         (if decide (Consensus.es_proposedEpoch event = 0) then Halted
          else EpochSkipped (Consensus.es_proposedEpoch event)), [])
  | _ => unexpected
  end.

(** ** Complaints *)

(** The rollover state with its complaints, or its collected shares, replaced
    (the fields the handlers borrow mutably). *)
Definition set_complaints (r : RolloverState) (complaints : gmap Z Complaint) : RolloverState :=
  match r with
  | CollectingShares next_epoch group participation shared shares _ deadline =>
      CollectingShares next_epoch group participation shared shares complaints deadline
  | CollectingConfirmations next_epoch group participation status confirmations _ deadlines =>
      CollectingConfirmations next_epoch group participation status confirmations complaints
        deadlines
  | _ => r
  end.

Definition set_shares (r : RolloverState) (shares : gmap Z Scalar) : RolloverState :=
  match r with
  | CollectingShares next_epoch group participation shared _ complaints deadline =>
      CollectingShares next_epoch group participation shared shares complaints deadline
  | CollectingConfirmations next_epoch group participation (Collecting _) confirmations complaints
      deadlines =>
      CollectingConfirmations next_epoch group participation (Collecting shares) confirmations
        complaints deadlines
  | _ => r
  end.

(** The borrowed fields and the deadlines of a complaint raised at [block]. *)
Definition complained_fields (r : RolloverState) (gid block : Z)
    : option (EpochId.t * Group * KeyGenParticipation * gmap Z Complaint * option Z * option Z * bool) :=
  match r with
  | CollectingShares next_epoch group participation _ _ complaints deadline =>
      if decide (id group = gid) then
        let restart_deadline := (fun _ => key_gen_deadline block) <$> deadline in
        Some (next_epoch, group, participation, complaints, restart_deadline, restart_deadline, true)
      else None
  | CollectingConfirmations next_epoch group participation _ _ complaints deadlines =>
      if decide (id group = gid) then
        let restart_deadline := (fun _ => key_gen_deadline block) <$> deadlines in
        let response_expires_at := response <$> deadlines in
        let requires_response :=
          match deadlines with
          | None => true
          | Some deadlines => bool_decide (block <= complain deadlines)
          end in
        Some (next_epoch, group, participation, complaints, restart_deadline, response_expires_at,
              requires_response)
      else None
  | _ => None
  end.

(** The complaint counted against [accused]; the counter is a [u16]. *)
Definition count_complaint (complaints : gmap Z Complaint) (accused plaintiff : Z)
    (requires_response : bool) : Complaint :=
  let complaint := default default_complaint (complaints !! accused) in
  MkComplaint (wrap_u16 (total complaint + 1))
    (if requires_response then unresponded complaint ∪ {[plaintiff]} else unresponded complaint).

Definition handle_key_gen_complained (state : State) (block : Z)
    (event : Coordinator.KeyGenComplained) : State * Commands :=
  match complained_fields (rollover state) (Coordinator.kp_gid event) block with
  | None => (state, [])
  | Some (next_epoch, group, participation, complaints, restart_deadline, response_expires_at,
          requires_response) =>
      let accused := Coordinator.kp_accused event in
      let plaintiff := Coordinator.kp_plaintiff event in
      let complaint := count_complaint complaints accused plaintiff requires_response in
      let state :=
        with_rollover state
          (set_complaints (rollover state) (<[accused := complaint]> complaints)) in
      let '(_, threshold) := size_of group in
      if decide (threshold <= total complaint) then
        restart_key_gen_excluding state next_epoch (also_exclude group {[accused]})
          restart_deadline
      else
        match participation with
        | Participating sharing_state =>
            if decide (accused = account /\ requires_response = true) then
              match Keygen.reveal_secret_share sharing_state plaintiff with
              | Ok secret_share =>
                  (state, [Command.Action (Action.KeyGenComplaintResponse (id group) plaintiff
                             secret_share response_expires_at)])
              | Err _ => (state, [])
              end
            else (state, [])
        | Observing _ => (state, [])
        end
  end.

(** The borrowed fields of a response, with the shares it may complete. *)
Definition responded_fields (r : RolloverState) (gid block : Z)
    : option (EpochId.t * Group * KeyGenParticipation * option (gmap Z Scalar)
              * gmap Z Complaint * option Z) :=
  match r with
  | CollectingShares next_epoch group participation _ shares complaints deadline =>
      if decide (id group = gid) then
        Some (next_epoch, group, participation, Some shares, complaints, deadline)
      else None
  | CollectingConfirmations next_epoch group participation status _ complaints deadlines =>
      let in_time :=
        match deadlines with
        | None => true
        | Some deadlines => bool_decide (block <= response deadlines)
        end in
      if decide (id group = gid /\ in_time = true) then
        let shares := match status with Collecting shares => Some shares | _ => None end in
        Some (next_epoch, group, participation, shares, complaints, response <$> deadlines)
      else None
  | _ => None
  end.

(** Finalizes the key share once the confirmation phase collected the last
    missing share. *)
Definition confirm_collected (state : State) : State * Commands :=
  match rollover state with
  | CollectingConfirmations next_epoch group (Participating sharing_state) (Collecting shares)
      confirmations complaints deadlines =>
      let '(count, _) := size_of group in
      if decide (len_u16 shares = count) then
        match confirm_key_gen next_epoch group sharing_state shares deadlines with
        | Ok (status, commands) =>
            (with_rollover state
               (CollectingConfirmations next_epoch group (Participating sharing_state) status
                  confirmations complaints deadlines), commands)
        | Err _ => fail_rollover state next_epoch
        end
      else (state, [])
  | _ => (state, [])
  end.

Definition handle_key_gen_complaint_responded (state : State) (block : Z)
    (event : Coordinator.KeyGenComplaintResponded) : State * Commands :=
  match responded_fields (rollover state) (Coordinator.kr_gid event) block with
  | None => (state, [])
  | Some (next_epoch, group, participation, shares, complaints, deadline) =>
      let accused := Coordinator.kr_accused event in
      let plaintiff := Coordinator.kr_plaintiff event in
      match complaints !! accused with
      | Some complaint =>
          if decide (plaintiff ∈ unresponded complaint) then
            let complaints :=
              <[accused := MkComplaint (total complaint) (unresponded complaint ∖ {[plaintiff]})]>
                complaints in
            let state := with_rollover state (set_complaints (rollover state) complaints) in
            match Keygen.verify_revealed_secret_share (group_commitments participation) plaintiff
                    accused (Coordinator.kr_secretShare event) with
            | Err _ =>
                restart_key_gen_excluding state next_epoch (also_exclude group {[accused]})
                  ((fun _ => key_gen_deadline block) <$> deadline)
            | Ok share =>
                let state :=
                  match shares with
                  | Some shares =>
                      if decide (plaintiff = account) then
                        with_rollover state
                          (set_shares (rollover state) (<[accused := share]> shares))
                      else state
                  | None => state
                  end in
                confirm_collected state
            end
          else (state, [])
      | None => (state, [])
      end
  end.

(** ** The block clock *)

Definition handle_rollover_new_block (state : State) (block : Z) : State * Commands :=
  match next_epoch (rollover state) ≫= EpochId.number with
  | None => (state, [])
  | Some target_epoch_number =>
      let next_epoch_number := next_number block (blocks_per_epoch config) in
      if decide (next_epoch_number <= target_epoch_number) then (state, [])
      else
        let state :=
          match rollover state with
          | EpochStaged _ => with_active_epoch state (EpochId.Number target_epoch_number)
          | _ => state
          end in
        match participants_set (cfg_participants config)
                (GroupEpoch.Number (cfg_consensus config) next_epoch_number ∅) with
        | Some participants =>
            start_key_gen state (EpochId.Number next_epoch_number) participants
              (Some (key_gen_deadline block))
        | None => (with_rollover state (EpochSkipped next_epoch_number), [])
        end
  end.

(** A commitment round everyone committed to, whose own setup never resumed. *)
Definition stuck_setup (r : RolloverState) (block : Z) : option EpochId.t :=
  match r with
  | CollectingCommitments next_epoch group (CommitmentParticipating _ None) commitments
      (Some deadline) =>
      if decide (deadline <= block /\ len_u16 commitments = (size_of group).1)
      then Some next_epoch else None
  | _ => None
  end.

(** The accused with complaints still unanswered. *)
Definition unresponded_accused (complaints : gmap Z Complaint) : gset Z :=
  dom (filter (fun e => unresponded e.2 ≠ ∅) complaints).

(** Who is excluded when the current round has timed out at [block]. *)
Definition timed_out (r : RolloverState) (block : Z) : option (EpochId.t * gset Z) :=
  match r with
  | CollectingCommitments next_epoch group _ commitments (Some deadline) =>
      if decide (deadline <= block)
      then Some (next_epoch, exclude_all_others group (sorted_keys commitments)) else None
  | CollectingShares next_epoch group _ shared _ _ (Some deadline) =>
      if decide (deadline <= block)
      then Some (next_epoch, exclude_all_others group (sorted_elements shared)) else None
  | CollectingConfirmations next_epoch group _ _ confirmations complaints (Some deadlines) =>
      let unresponded := unresponded_accused complaints in
      if decide (response deadlines <= block /\ unresponded ≠ ∅) then
        Some (next_epoch, also_exclude group unresponded)
      else if decide (confirm deadlines <= block) then
        Some (next_epoch, exclude_all_others group (sorted_elements confirmations))
      else None
  | _ => None
  end.

Definition handle_key_gen_timeouts (state : State) (block : Z) : State * Commands :=
  match stuck_setup (rollover state) block with
  | Some next_epoch => fail_rollover state next_epoch
  | None =>
      match timed_out (rollover state) block with
      | None => (state, [])
      | Some (next_epoch, excluded) =>
          restart_key_gen_excluding state next_epoch excluded (Some (key_gen_deadline block))
      end
  end.

End KeyGen.
