(* ===== verification/Signing.v ===== *)
(** The signing ceremony handlers, [crates/validator/src/state/sign.rs], the
    proposal handlers of [transactions.rs] and the secret reconciliation of
    [secrets.rs]. *)

From S2P Require Import Prelude Keccak Epoch Group Bindings FrostLib Frost Hashing Secrets.
From S2P Require Import Messages Service State KeyGen.

Section Signing.
Context {KEC : Keccak} {FL : FrostLib} {EIP : Eip712} {ABI : Abi} {TR : Transition}.

Abbreviation Commands := (list (Command.t Action.t Effect.t)).

(** [block.saturating_add(self.config.signing_timeout.get())]. *)
Definition signing_deadline (block : Z) : Z := sat_add block (signing_timeout config).
Definition oracle_deadline (block : Z) : Z := sat_add block (oracle_timeout config).

(** ** Packets *)

(** [Packet::attestation_callback]. *)
Definition attestation_callback (p : Packet) (consensus : Z) : Sol.Callback :=
  match p with
  | EpochRollover _ proposed_epoch rollover_block group_id _ =>
      Sol.MkCallback consensus
        (abi_encode (stageEpochCall proposed_epoch rollover_block group_id 0))
  | PacketTransaction epoch oracle oracle_data transaction =>
      Sol.MkCallback consensus
        (abi_encode (attestTransactionCall (EpochId.raw_value epoch) oracle
           (keccak256 oracle_data) (Sol.chainId transaction) (Sol.safe transaction)
           (safe_tx_struct_hash transaction) 0))
  end.

(** [Packet::attestation_action]. *)
Definition attestation_action (p : Packet) (signature_id expires_at : Z) : Action.t :=
  match p with
  | EpochRollover _ proposed_epoch rollover_block group_id _ =>
      Action.StageEpoch proposed_epoch rollover_block group_id signature_id expires_at
  | PacketTransaction epoch oracle oracle_data transaction =>
      Action.AttestTransaction epoch oracle (keccak256 oracle_data) (Sol.chainId transaction)
        (Sol.safe transaction) (safe_tx_struct_hash transaction) signature_id expires_at
  end.

(** ** Requests and the oracle *)

(** Removes the session, then puts one back: [insert] over the same key. *)
Definition put_session (state : State) (message : Z) (s : SigningState) : State :=
  with_signing state (<[message := s]> (signing state)).

Definition link (state : State) (sid message : Z) : State :=
  with_index state (<[sid := message]> (signature_id_to_message state)).

Definition handle_sign (state : State) (block : Z) (event : Coordinator.Sign)
    : State * Commands :=
  let message := Coordinator.sg_message event in
  let sid := Coordinator.sg_sid event in
  match signing state !! message with
  | Some (WaitingForRequest key_share group_id _ packet oracle_approved signers _) =>
      if decide (group_id = Coordinator.sg_gid event) then
        match packet, oracle_approved with
        | PacketTransaction _ oracle _ _, false =>
            (link (put_session state message
               (WaitingForOracle key_share oracle group_id sid packet signers
                  (oracle_deadline block))) sid message, [])
        | _, _ =>
            (link (put_session state message
               (CollectNonceCommitments key_share (Coordinator.sg_gid event) sid ∅ packet signers
                  (signing_deadline block))) sid message,
             [Command.Effect (Effect.GenerateNonces (Coordinator.sg_gid event) sid key_share)])
        end
      else (state, [])
  | _ => (state, [])
  end.

Definition handle_nonce_commitments (state : State) (sid : Z) (nonces : Sol.SignNonces)
    : State * Commands :=
  match signature_id_to_message state !! sid ≫= (fun message => signing state !! message) with
  | Some (CollectNonceCommitments _ _ sid' _ _ _ deadline) =>
      if decide (sid' = sid) then
        (state, [Command.Action (Action.CommitNonces sid nonces deadline)])
      else (state, [])
  | _ => (state, [])
  end.

Definition handle_oracle_result (state : State) (block oracle : Z) (event : Oracle.OracleResult)
    : State * Commands :=
  let request := Oracle.or_requestId event in
  match signing state !! request with
  | Some (WaitingForOracle key_share expected group_id sid packet signers _) =>
      if decide (expected = oracle) then
        if Oracle.or_approved event then
          (put_session state request
             (CollectNonceCommitments key_share group_id sid ∅ packet signers
                (signing_deadline block)),
           [Command.Effect (Effect.GenerateNonces group_id sid key_share)])
        else
          let state := with_signing state (delete request (signing state)) in
          (with_index state (delete sid (signature_id_to_message state)), [])
      else (state, [])
  | _ => (state, [])
  end.

(** ** Nonce commitments and signature shares *)

(** The commitments after a peer's: only a signer's first valid one counts. *)
Definition add_commitment (committed : gmap Z Sign.CommittedNonces) (signers : gset Z)
    (participant : Z) (nonces : Sol.SignNonces) : gmap Z Sign.CommittedNonces :=
  if decide (participant ∉ signers) then committed
  else
    match committed !! participant with
    | Some _ => committed
    | None =>
        match Sign.verify_committed_nonces participant nonces with
        | Ok nonces => <[participant := nonces]> committed
        | Err _ => committed
        end
    end.

Definition handle_sign_committed_nonces (state : State) (block : Z)
    (event : Coordinator.SignCommittedNonces) : State * Commands :=
  match signature_id_to_message state !! Coordinator.sn_sid event with
  | None => (state, [])
  | Some message =>
      match signing state !! message with
      | Some (CollectNonceCommitments key_share group_id sid committed packet signers deadline) =>
          let committed :=
            add_commitment committed signers (Coordinator.sn_participant event)
              (Coordinator.sn_nonces event) in
          if decide (size committed < size signers)%nat then
            (put_session state message
               (CollectNonceCommitments key_share group_id sid committed packet signers deadline),
             [])
          else
            (put_session state message
               (CollectSigningShares key_share group_id sid committed ∅ packet signers
                  (signing_deadline block)),
             [Command.Effect (Effect.UseNonces message sid)])
      | _ => (state, [])
      end
  end.

Definition handle_nonces (state : State) (message : Z) (nonces : Sign.SigningNonces)
    : State * Commands :=
  match signing state !! message with
  | Some (CollectSigningShares key_share _ sid committed _ packet _ deadline) =>
      match Sign.signature_share key_share nonces committed message with
      | Err _ => (state, [])
      | Ok result =>
          let callback := attestation_callback packet (cfg_consensus config) in
          (state, [Command.Action (Action.SignShare sid (Sign.selection result)
                     (Sign.share result) (Sign.inclusion result) callback deadline)])
      end
  | _ => (state, [])
  end.

(** A share published to [root]: the selection gains a participant. *)
Definition add_share (selections : gmap Z SigningSelection) (root participant : Z)
    : gmap Z SigningSelection :=
  let selection := default default_selection (selections !! root) in
  <[root := MkSigningSelection (shares_from selection ∪ {[participant]}) (Some participant)]>
    selections.

Definition handle_sign_shared (state : State) (event : Coordinator.SignShared)
    : State * Commands :=
  match signature_id_to_message state !! Coordinator.ss_sid event with
  | None => (state, [])
  | Some message =>
      match signing state !! message with
      | Some (CollectSigningShares key_share group_id sid committed selections packet signers
                deadline) =>
          (put_session state message
             (CollectSigningShares key_share group_id sid committed
                (add_share selections (Coordinator.ss_selectionRoot event)
                   (Coordinator.ss_participant event)) packet signers deadline), [])
      | _ => (state, [])
      end
  end.

Definition handle_sign_completed (state : State) (block : Z) (event : Coordinator.SignCompleted)
    : State * Commands :=
  match signature_id_to_message state !! Coordinator.sc_sid event with
  | None => (state, [])
  | Some message =>
      match signing state !! message with
      | Some (CollectSigningShares _ _ sid _ _ packet _ _) =>
          (put_session state message (WaitingForAttestation sid packet (signing_deadline block)), [])
      | _ => (state, [])
      end
  end.

(** ** Timeouts *)

(** [max_by_key] over the selections in root order: the last of the largest. *)
Definition max_by_shares (selections : list SigningSelection) : option SigningSelection :=
  foldl (fun best selection =>
    match best with
    | Some b =>
        if decide (size (shares_from selection) < size (shares_from b))%nat
        then Some b else Some selection
    | None => Some selection
    end) None selections.

(** The largest selection of at least [threshold] participants. *)
Definition canonical_selection (threshold : Z) (selections : gmap Z SigningSelection)
    : SigningSelection :=
  default default_selection
    (max_by_shares
       (filter (fun s => threshold <= Z.of_nat (size (shares_from s)))
          (sorted_values selections))).

(** What the timeout of one session does: the session that is kept, the
    signature id that is unlinked and the commands emitted. *)
Definition time_out_session (block message : Z) (s : SigningState)
    : option SigningState * option Z * Commands :=
  let next_deadline := signing_deadline block in
  if decide (block < deadline s) then (Some s, None, [])
  else
    match s with
    | WaitingForRequest key_share group_id responsible packet oracle_approved signers _ =>
        match responsible with
        | None => (None, None, [])
        | Some previously_responsible =>
            let signers := signers ∖ {[previously_responsible]} in
            if decide (Z.of_nat (size signers) < Keygen.group_threshold key_share
                       \/ account ∉ signers)
            then (None, None, [])
            else
              (Some (WaitingForRequest key_share group_id None packet oracle_approved signers
                       next_deadline), None,
               [Command.Action (Action.Sign group_id message next_deadline)])
        end
    | WaitingForOracle _ _ _ sid _ _ _ => (None, Some sid, [])
    | CollectNonceCommitments key_share group_id sid committed packet _ _ =>
        if decide (Z.of_nat (size committed) < Keygen.group_threshold key_share
                   \/ committed !! account = None)
        then (None, Some sid, [])
        else
          (Some (CollectSigningShares key_share group_id sid committed ∅ packet (dom committed)
                   next_deadline), None,
           [Command.Effect (Effect.UseNonces message sid)])
    | CollectSigningShares key_share group_id sid _ selections packet _ _ =>
        let canonical := canonical_selection (Keygen.group_threshold key_share) selections in
        let signers := shares_from canonical in
        if decide (Z.of_nat (size signers) < Keygen.group_threshold key_share
                   \/ account ∉ signers)
        then (None, Some sid, [])
        else
          (Some (WaitingForRequest key_share group_id (last_signer canonical) packet true signers
                   next_deadline), Some sid,
           if decide (last_signer canonical = Some account)
           then [Command.Action (Action.Sign group_id message next_deadline)] else [])
    | WaitingForAttestation sid packet _ =>
        (None, Some sid, [Command.Action (attestation_action packet sid next_deadline)])
    end.

(** [retain] visits the sessions in message order. *)
Definition handle_signing_timeouts (state : State) (block : Z) : State * Commands :=
  let outcomes :=
    (fun '(message, s) => time_out_session block message s) <$> sorted_entries (signing state) in
  let signing := map_imap (fun message s => (time_out_session block message s).1.1) (signing state) in
  let index :=
    foldl (fun index sid => delete sid index) (signature_id_to_message state)
      (omap (fun o => o.1.2) outcomes) in
  (with_index (with_signing state signing) index, mjoin (snd <$> outcomes)).

(** ** Transactions *)

Definition handle_transaction_proposed (state : State) (block : Z)
    (event : Consensus.TransactionProposed) : State * Commands :=
  let epoch := EpochId.from_raw (Consensus.tp_epoch event) in
  let oracle := Consensus.tp_oracle event in
  match epochs state !! epoch with
  | None => (state, [])
  | Some participating_epoch =>
      if decide (oracle ∉ oracles config) then (state, [])
      else
        let message :=
          transaction_packet_hash consensus epoch oracle (Consensus.tp_oracleData event)
            (Consensus.tp_transaction event) in
        match signing state !! message with
        | Some _ => (state, [])
        | None =>
            let packet :=
              PacketTransaction epoch oracle (Consensus.tp_oracleData event)
                (Consensus.tp_transaction event) in
            (put_session state message
               (WaitingForRequest (ep_key_share participating_epoch)
                  (id (ep_group participating_epoch)) None packet false
                  (participants (ep_group participating_epoch)) (signing_deadline block)), [])
        end
  end.

Definition handle_transaction_attested (state : State) (event : Consensus.TransactionAttested)
    : State * Commands :=
  let epoch := EpochId.from_raw (Consensus.ta_epoch event) in
  let message :=
    transaction_proposal_hash consensus epoch (Consensus.ta_oracle event)
      (Consensus.ta_oracleDataHash event) (Consensus.ta_safeTxHash event) in
  handle_sign_attested state (Consensus.ta_signatureId event) message.

(** ** Reconciliation *)

(** The oldest epoch a session or the active epoch still needs. *)
Definition oldest_epoch (state : State) : EpochId.t :=
  foldl EpochId.min (active_epoch state) ((fun s => packet_epoch (packet s)) <$> sorted_values (signing state)).

(** The in-progress key generation's group and what is kept of it. *)
Definition rollover_group (r : RolloverState) : option (Z * RetainedSecrets) :=
  match r with
  | CollectingConfirmations _ group _ (Confirmed _) _ _ _
  | SigningRollover _ group (Some _) _ => Some (id group, Nonces)
  | CollectingCommitments _ group (CommitmentParticipating _ _) _ _
  | CollectingShares _ group (Participating _) _ _ _ _
  | CollectingConfirmations _ group (Participating _) _ _ _ _ => Some (id group, All)
  | _ => None
  end.

Definition retained_groups (epochs : gmap EpochId.t Epoch) (r : RolloverState)
    : gmap Z RetainedSecrets :=
  let groups : gmap Z RetainedSecrets :=
    list_to_map ((fun e => (id (ep_group e.2), Nonces)) <$> map_to_list epochs) in
  match rollover_group r with
  | Some (group_id, kept) => <[group_id := kept]> groups
  | None => groups
  end.

Definition handle_group_reconciliation (state : State) (block : Z) : State * Commands :=
  let oldest := oldest_epoch state in
  let epochs :=
    filter (fun e => EpochId.raw_value oldest <= EpochId.raw_value e.1) (epochs state) in
  let groups := retained_groups epochs (rollover state) in
  (with_epochs state epochs, [Command.Effect (Effect.ReconcileGroupSecrets block groups)]).

End Signing.
