(* ===== verification/Validator.v ===== *)
(** The validator's state transition, [crates/validator/src/state/mod.rs]: the
    dispatch of every message to its handler, in the order the code applies
    them, and the set of states a history of messages can reach. *)

From S2P Require Import Prelude Keccak Epoch Group Bindings FrostLib Frost Hashing Secrets.
From S2P Require Import Messages Service State KeyGen Signing.

Module Event.
Inductive t :=
| Consensus (event : Consensus.ConsensusEvents)
| Coordinator (event : Coordinator.CoordinatorEvents)
| Oracle (event : Oracle.OracleResult).
End Event.

Section Validator.
Context {KEC : Keccak} {FL : FrostLib} {EIP : Eip712} {ABI : Abi} {TR : Transition}.

Abbreviation Commands := (list (Command.t Action.t Effect.t)).
Abbreviation Message := (Message.t Event.t Resume.t).

Definition apply_event (state : State) (block address : Z) (event : Event.t)
    : State * Commands :=
  match event with
  | Event.Coordinator event =>
      match event with
      | Coordinator.KeyGenEvent event => handle_genesis_key_gen state event
      | Coordinator.KeyGenCommittedEvent event => handle_key_gen_committed state block event
      | Coordinator.KeyGenSecretSharedEvent event => handle_key_gen_secret_shared state block event
      | Coordinator.KeyGenConfirmedEvent event => handle_key_gen_confirmed state block event
      | Coordinator.KeyGenComplainedEvent event => handle_key_gen_complained state block event
      | Coordinator.KeyGenComplaintRespondedEvent event =>
          handle_key_gen_complaint_responded state block event
      | Coordinator.SignEvent event => handle_sign state block event
      | Coordinator.SignCommittedNoncesEvent event => handle_sign_committed_nonces state block event
      | Coordinator.SignSharedEvent event => handle_sign_shared state event
      | Coordinator.SignCompletedEvent event => handle_sign_completed state block event
      end
  | Event.Consensus event =>
      match event with
      | Consensus.EpochStagedEvent event => handle_epoch_staged state event
      | Consensus.TransactionProposedEvent event => handle_transaction_proposed state block event
      | Consensus.TransactionAttestedEvent event => handle_transaction_attested state event
      | _ => (state, [])
      end
  | Event.Oracle event => handle_oracle_result state block address event
  end.

Definition apply_new_block (state : State) (block : Z) : State * Commands :=
  let '(state, rollover_commands) := handle_rollover_new_block state block in
  let '(state, keygen_timeout_commands) := handle_key_gen_timeouts state block in
  let '(state, signing_timeout_commands) := handle_signing_timeouts state block in
  let '(state, reconciliation_commands) := handle_group_reconciliation state block in
  (state, rollover_commands ++ keygen_timeout_commands ++ signing_timeout_commands
            ++ reconciliation_commands).

Definition apply_resume (state : State) (result : Resume.t) : State * Commands :=
  match result with
  | Resume.Noop => (state, [])
  | Resume.Setup group_id secrets => handle_key_gen_setup state group_id secrets
  | Resume.NonceCommitments signature_id nonces =>
      handle_nonce_commitments state signature_id nonces
  | Resume.Nonces message nonces => handle_nonces state message nonces
  end.

(** [apply_transition]. *)
#[export] Instance validator_transition :
    StateTransition State Event.t Action.t Effect.t Resume.t :=
  fun state message =>
    match message with
    | Message.Event log =>
        apply_event state (block_number (log_block log)) (log_address log) (log_data log)
    | Message.NewBlock block => apply_new_block state block
    | Message.Resume result => apply_resume state result
    end.

(** ** Histories *)

(** The message hash a packet is signed under. *)
Definition packet_message (p : Packet) : Z :=
  match p with
  | EpochRollover active_epoch proposed_epoch rollover_block _ group_key =>
      epoch_rollover_hash consensus active_epoch proposed_epoch rollover_block group_key
  | PacketTransaction epoch oracle oracle_data transaction =>
      transaction_packet_hash consensus epoch oracle oracle_data transaction
  end.

(** The epoch a rollover packet proposes. *)
Definition proposed_epoch (p : Packet) : option Z :=
  match p with EpochRollover _ proposed _ _ _ => Some proposed | PacketTransaction _ _ _ _ => None end.

(** The integers of a message are of the width of their fields. *)
Definition wf_message (m : Message) : Prop :=
  match m with
  | Message.NewBlock block => is_u64 block
  | Message.Event log =>
      is_u64 (block_number (log_block log)) /\
      match log_data log with
      | Event.Consensus (Consensus.EpochStagedEvent event) =>
          is_u64 (Consensus.es_proposedEpoch event)
      | Event.Consensus (Consensus.TransactionProposedEvent event) =>
          is_u64 (Consensus.tp_epoch event)
      | _ => True
      end
  | Message.Resume _ => True
  end.

(** The rollover packet the group's last confirmation puts up for signing. *)
Definition rollover_packet (state : State) (m : Message) : option Packet :=
  match m, rollover state with
  | Message.Event log,
      CollectingConfirmations (EpochId.Number proposed_epoch) group participation _ _ _ _ =>
      match log_data log with
      | Event.Coordinator (Coordinator.KeyGenConfirmedEvent _) =>
          Some (EpochRollover (active_epoch state) proposed_epoch
                  (sat_mul proposed_epoch (blocks_per_epoch config)) (id group)
                  (Keygen.group_key (group_commitments participation)))
      | _ => None
      end
  | _, _ => None
  end.

(** The packet a message puts up for signing does not collide with the packet
    of a tracked session: packets signed under one message propose one epoch. *)
Definition no_collision (state : State) (m : Message) : Prop :=
  forall q message s,
    rollover_packet state m = Some q -> signing state !! message = Some s ->
    packet_message (packet s) = packet_message q ->
    proposed_epoch (packet s) = proposed_epoch q.

Definition admissible (state : State) (m : Message) : Prop :=
  wf_message m /\ no_collision state m.

(** The states the validator can be in. *)
Inductive reachable : State -> Prop :=
| reachable_default : reachable default_state
| reachable_step state m :
    reachable state -> admissible state m -> reachable (apply_transition state m).1.

End Validator.
