(* ===== verification/Clock.v ===== *)
(** The epoch clock: where every handler leaves the rollover state machine, and
    the order between the active epoch, the resolved epochs, the signed
    rollovers and the epoch being generated. *)

From S2P Require Import Prelude Keccak Epoch Group Bindings FrostLib Frost Hashing Secrets.
From S2P Require Import Messages Service State KeyGen Signing Validator.

(** How far the target epoch has come: being generated, its rollover being
    attested, or staged onchain. *)
Inductive Stage := Open | Attesting | Staged.

#[export] Instance Stage_eq_dec : EqDecision Stage.
Proof. solve_decision. Defined.

Section Clock.
Context {KEC : Keccak} {FL : FrostLib} {EIP : Eip712} {ABI : Abi} {TR : Transition}.

(** The raw epoch a rollover state works toward; a halted machine has none. *)
Definition target (r : RolloverState) : Z := default 0 (EpochId.raw_value <$> next_epoch r).

Definition stage (r : RolloverState) : Stage :=
  match r with
  | SigningRollover _ _ _ _ => Attesting
  | EpochStaged _ => Staged
  | _ => Open
  end.

(** [r] generates epoch [e], or gave up on it: only genesis halts. *)
Definition at_epoch (r : RolloverState) (e : EpochId.t) : Prop :=
  (next_epoch r = Some e \/ (r = Halted /\ e = EpochId.Genesis)) /\ stage r = Open.

Lemma at_epoch_target r e : at_epoch r e -> target r = EpochId.raw_value e.
Proof. unfold target. intros [[->|[-> ->]] _]; done. Qed.

Lemma at_epoch_inj r e e' : at_epoch r e -> at_epoch r e' -> e = e'.
Proof.
  intros [[H|[Hr ->]] _] [[H'|[Hr' ->]] _]; subst; try done; congruence.
Qed.

(** A handler that only moves the rollover, within its epoch. *)
Record frame (s s' : State) : Prop := {
  frame_epoch : rollover s' = rollover s \/
    exists e, at_epoch (rollover s) e /\ at_epoch (rollover s') e;
  frame_active : active_epoch s' = active_epoch s;
  frame_epochs : epochs s' = epochs s;
  frame_signing : signing s' = signing s;
  frame_index : signature_id_to_message s' = signature_id_to_message s
}.

Lemma frame_refl s : frame s s.
Proof. split; [by left|done..]. Qed.
Hint Resolve frame_refl : core.

Lemma frame_trans s1 s2 s3 : frame s1 s2 -> frame s2 s3 -> frame s1 s3.
Proof.
  intros [H1 ????] [H2 ????]. split; try congruence.
  destruct H1 as [H1|(e & H1 & H1')], H2 as [H2|(e' & H2 & H2')].
  - left. congruence.
  - right. exists e'. by rewrite <- H1.
  - right. exists e. by rewrite H2.
  - right. exists e. by rewrite <- (at_epoch_inj _ _ _ H1' H2) in H2'.
Qed.

Lemma frame_rollover s r e : at_epoch (rollover s) e -> at_epoch r e -> frame s (with_rollover s r).
Proof. intros. split; try done. right. eauto. Qed.

Lemma frame_target s s' : frame s s' -> target (rollover s') = target (rollover s).
Proof.
  intros [[->|(e & H1 & H2)] _ _ _ _]; [done|].
  by rewrite (at_epoch_target _ _ H1), (at_epoch_target _ _ H2).
Qed.

Lemma frame_stage s s' : frame s s' -> stage (rollover s') = stage (rollover s).
Proof. intros [[->|(e & [_ H1] & [_ H2])] _ _ _ _]; congruence. Qed.

(** ** Where the key generation steps lead *)

Lemma at_collecting_commitments e g k cm d : at_epoch (CollectingCommitments e g k cm d) e.
Proof. split; [by left|done]. Qed.
Lemma at_collecting_shares e g p sh shs cs d : at_epoch (CollectingShares e g p sh shs cs d) e.
Proof. split; [by left|done]. Qed.
Lemma at_collecting_confirmations e g p st cf cs ds :
  at_epoch (CollectingConfirmations e g p st cf cs ds) e.
Proof. split; [by left|done]. Qed.
Lemma at_failure e : at_epoch (rollover_failure e) e.
Proof. destruct e; split; try done; [by right|by left]. Qed.
Hint Resolve at_collecting_commitments at_collecting_shares at_collecting_confirmations
  at_failure : core.

Lemma start_key_gen_state s e ps d :
  exists r, (start_key_gen s e ps d).1 = with_rollover s r /\ at_epoch r e.
Proof.
  unfold start_key_gen. destruct (participate_as ps account) as [[g poap]|]; simpl; eauto.
Qed.

Lemma restart_key_gen_state s e x d :
  exists r, (restart_key_gen_excluding s e x d).1 = with_rollover s r /\ at_epoch r e.
Proof.
  unfold restart_key_gen_excluding. case_match; [apply start_key_gen_state|]. simpl. eauto.
Qed.

Lemma finalize_commitments_state e g k cm d :
  at_epoch (finalize_key_gen_commitments e g k cm d).1 e.
Proof.
  unfold finalize_key_gen_commitments.
  destruct k as [k|]; simpl.
  - destruct (Keygen.generate_secret_shares k cm) as [[sh share]|]; simpl; auto.
  - destruct (Keygen.group_commitments cm); simpl; auto.
Qed.

Lemma restart_frame s e x d :
  at_epoch (rollover s) e -> frame s (restart_key_gen_excluding s e x d).1.
Proof.
  intros He. destruct (restart_key_gen_state s e x d) as (r & -> & Hr).
  by eapply frame_rollover.
Qed.

Lemma fail_rollover_frame s e : at_epoch (rollover s) e -> frame s (fail_rollover s e).1.
Proof. intros He. by eapply frame_rollover. Qed.

(** ** Handlers that stay within the epoch *)

(** A branch that leaves the state as it was. *)
Ltac unframed :=
  cbv iota beta; lazymatch goal with |- frame ?s (?s, _).1 => exact (frame_refl s) end.

(** Frames a step from one collecting state to another of the same epoch. *)
Ltac framed E := eapply frame_rollover; [rewrite E; by auto|by auto].

Lemma genesis_key_gen_frame s ev : frame s (handle_genesis_key_gen s ev).1.
Proof.
  unfold handle_genesis_key_gen. rollover_cases s E; try unframed. case_decide; [done|].
  destruct (start_key_gen_state s EpochId.Genesis genesis None) as (r & -> & Hr).
  eapply frame_rollover; [|exact Hr]. rewrite E. split; [by left|done].
Qed.

Lemma key_gen_setup_frame s gid sec : frame s (handle_key_gen_setup s gid sec).1.
Proof.
  unfold handle_key_gen_setup. rollover_cases s E; try unframed.
  destruct k as [poap [k|]|]; try unframed. case_decide; [|unframed]. branch_open.
  case_decide; [framed E|].
  pose proof (finalize_commitments_state e g (Some sec) cm
      ((fun deadline => sat_add deadline (key_gen_timeout config)) <$> d)) as Hr.
  destruct (finalize_key_gen_commitments _ _ _ _ _) as [r cs]. framed E.
Qed.

Lemma key_gen_committed_frame s b ev : frame s (handle_key_gen_committed s b ev).1.
Proof.
  unfold handle_key_gen_committed. rollover_cases s E; try unframed. case_decide; [|unframed]. branch_open.
  assert (forall o cm, frame s (let '(rollover, commands) :=
      finalize_key_gen_commitments e g o cm
        ((fun _ => key_gen_deadline b) <$> d) in (with_rollover s rollover, commands)).1)
    as Hfin.
  { intros o cm'. pose proof (finalize_commitments_state e g o cm'
      ((fun _ => key_gen_deadline b) <$> d)) as Hr.
    destruct (finalize_key_gen_commitments _ _ _ _ _) as [r cs]. framed E. }
  assert (forall cm, frame s (with_rollover s (CollectingCommitments e g k cm d))) as Hcol
    by (intros cm'; framed E).
  case_decide; [apply Hcol|]. destruct k as [poap [k|]|]; [apply Hfin|apply Hcol|apply Hfin].
Qed.

Lemma key_gen_secret_shared_frame s b ev : frame s (handle_key_gen_secret_shared s b ev).1.
Proof.
  unfold handle_key_gen_secret_shared. rollover_cases s E; try unframed. case_decide; [|unframed]. branch_open.
  destruct (match Keygen.verify_secret_share _ _ _ with Ok _ => _ | Err _ => _ end) as [sh' enc].
  destruct (match p with Participating _ => _ | Observing _ => _ end) as [shs' cmds].
  case_decide; [framed E|]. destruct p; [|framed E]. case_decide; [|framed E].
  destruct (confirm_key_gen _ _ _ _ _) as [[st cs']|]; [framed E|].
  apply fail_rollover_frame. rewrite E. auto.
Qed.

(** The states a complaint or its response can be registered in. *)
Definition collects (r : RolloverState) (e : EpochId.t) : Prop :=
  at_epoch r e /\ forall cs, at_epoch (set_complaints r cs) e /\
    forall shs, at_epoch (set_shares (set_complaints r cs) shs) e.

Lemma collects_shares e g p sh shs cs d : collects (CollectingShares e g p sh shs cs d) e.
Proof. split; [auto|]. intros. split; simpl; auto. Qed.

Lemma collects_confirmations e g p st cf cs ds :
  collects (CollectingConfirmations e g p st cf cs ds) e.
Proof. split; [auto|]. intros. split; simpl; [auto|]. intros. destruct st; auto. Qed.
Hint Resolve collects_shares collects_confirmations : core.

Lemma complained_fields_Some r gid b e g p cs rd re req :
  complained_fields r gid b = Some (e, g, p, cs, rd, re, req) -> collects r e.
Proof. destruct r; simpl; intros H; try done; case_decide; simplify_eq; auto. Qed.

Lemma key_gen_complained_frame s b ev : frame s (handle_key_gen_complained s b ev).1.
Proof.
  unfold handle_key_gen_complained.
  destruct (complained_fields _ _ _) as [[[[[[[e g] p] cs] rd] re] req]|] eqn:E; [|done].
  apply complained_fields_Some in E as [He Hset].
  set (cs' := <[_ := _]> cs). destruct (Hset cs') as [Hset' _]. branch_open.
  assert (frame s (with_rollover s (set_complaints (rollover s) cs'))) as Hf
    by (by eapply frame_rollover).
  case_decide; [eapply frame_trans; [exact Hf|by apply restart_frame]|].
  destruct p; [|done]. case_decide; [|done]. by case_match.
Qed.

Lemma confirm_collected_frame s : frame s (confirm_collected s).1.
Proof.
  unfold confirm_collected. rollover_cases s E; try unframed.
  destruct p as [ss|gc]; [|unframed]. destruct st as [|shs|ks]; try unframed.
  branch_open. case_decide; [|unframed].
  destruct (confirm_key_gen _ _ _ _ _) as [[st' cs']|]; [framed E|].
  apply fail_rollover_frame. rewrite E. auto.
Qed.

Lemma responded_fields_Some r gid b e g p shs cs d :
  responded_fields r gid b = Some (e, g, p, shs, cs, d) -> collects r e.
Proof. destruct r; simpl; intros H; try done; case_decide; simplify_eq; auto. Qed.

Lemma key_gen_complaint_responded_frame s b ev :
  frame s (handle_key_gen_complaint_responded s b ev).1.
Proof.
  unfold handle_key_gen_complaint_responded.
  destruct (responded_fields _ _ _) as [[[[[[e g] p] shs] cs] d]|] eqn:E; [|done].
  apply responded_fields_Some in E as [He Hset]. branch_open.
  destruct (cs !! _) as [c|]; [|done]. case_decide; [|done].
  set (cs' := <[_ := _]> cs). destruct (Hset cs') as [Hset' Hsh].
  assert (frame s (with_rollover s (set_complaints (rollover s) cs'))) as Hf
    by (by eapply frame_rollover).
  destruct (Keygen.verify_revealed_secret_share _ _ _ _) as [share|err].
  - eapply frame_trans; [|apply confirm_collected_frame].
    destruct shs as [shs|]; [|done]. case_decide; [|done].
    eapply (frame_rollover s); [exact He|]. apply Hsh.
  - eapply frame_trans; [exact Hf|]. by apply restart_frame.
Qed.

Lemma stuck_setup_Some r b e : stuck_setup r b = Some e -> at_epoch r e.
Proof. unfold stuck_setup. intros. repeat case_match; simplify_eq; auto. Qed.

Lemma timed_out_Some r b e x : timed_out r b = Some (e, x) -> at_epoch r e.
Proof. unfold timed_out. intros. repeat case_match; simplify_eq; auto. Qed.

Lemma key_gen_timeouts_frame s b : frame s (handle_key_gen_timeouts s b).1.
Proof.
  unfold handle_key_gen_timeouts. destruct (stuck_setup _ _) as [e|] eqn:E.
  - by apply fail_rollover_frame, (stuck_setup_Some _ b).
  - destruct (timed_out _ _) as [[e x]|] eqn:E'; [|done].
    by apply restart_frame, (timed_out_Some _ b _ x).
Qed.

(** ** The clock invariant *)

(** [n] is behind the rollover: below its target, or the target itself once it
    has come as far as [least]. *)
Definition behind (r : RolloverState) (n : Z) (least : Stage) : Prop :=
  n < target r \/ (n = target r /\ (stage r = Staged \/ stage r = least /\ least = Attesting)).

Record clock_ok (s : State) : Prop := {
  ck_target : 0 <= target (rollover s) <= u64_max;
  ck_started : stage (rollover s) ≠ Open -> 1 <= target (rollover s);
  ck_valid : forall e, next_epoch (rollover s) = Some e -> EpochId.valid e;
  ck_active_valid : EpochId.valid (active_epoch s);
  ck_active : EpochId.raw_value (active_epoch s) < target (rollover s) \/
              (active_epoch s = EpochId.Genesis /\ target (rollover s) = 0);
  (** Resolved epochs precede the target, which joins them when it is staged. *)
  ck_epochs : forall e ep, epochs s !! e = Some ep ->
    EpochId.valid e /\ behind (rollover s) (EpochId.raw_value e) Staged;
  (** Signed rollovers propose no epoch past the target, and the target only
      once its key generation was confirmed. *)
  ck_rollovers : forall m x a p b g k,
    signing s !! m = Some x -> packet x = EpochRollover a p b g k ->
    1 <= p /\ behind (rollover s) p Attesting
}.

Lemma valid_raw e : EpochId.valid e -> 0 <= EpochId.raw_value e <= u64_max.
Proof. destruct e; simpl; lia. Qed.

Lemma clock_ok_default : clock_ok default_state.
Proof.
  split; unfold target; simpl; try done.
  - intros e [= <-]. done.
  - by right.
Qed.

(** Framed steps keep the clock. *)
Lemma clock_ok_frame s s' : frame s s' -> clock_ok s -> clock_ok s'.
Proof.
  intros Hf [Ht Hst Hv Hav Ha He Hr].
  pose proof (frame_target _ _ Hf) as Ht'. pose proof (frame_stage _ _ Hf) as Hs'.
  destruct Hf as [Hep Hac Hes Hsi Hi]. unfold behind in *.
  split; unfold behind; rewrite ?Ht', ?Hs', ?Hac, ?Hes, ?Hsi; try done.
  destruct Hep as [->|(e & [[H1|[H1 ->]] _] & H2)]; [done| |]; intros e' He'.
  - assert (at_epoch (rollover s') e') as H2' by (split; [by left|by destruct H2]).
    rewrite <- (at_epoch_inj _ _ _ H2 H2'). by apply Hv.
  - assert (at_epoch (rollover s') e') as H2' by (split; [by left|by destruct H2]).
    by rewrite <- (at_epoch_inj _ _ _ H2 H2').
Qed.

(** Whatever a message does to the sessions, if it opens no rollover packet. *)
Lemma clock_ok_sessions s s' :
  clock_ok s -> rollover s' = rollover s -> active_epoch s' = active_epoch s ->
  epochs s' = epochs s ->
  (forall k x, signing s' !! k = Some x ->
    (exists k' y, signing s !! k' = Some y /\ packet x = packet y) \/
    proposed_epoch (packet x) = None) ->
  clock_ok s'.
Proof.
  intros [? ? ? ? ? ? Hr] Hro Ha He Hm. split; rewrite ?Hro, ?Ha, ?He; try done.
  intros k x a p b g gk Hx Hp. destruct (Hm k x Hx) as [(k' & y & Hy & He')|Hn].
  - eapply Hr; [exact Hy|]. by rewrite <- He'.
  - by rewrite Hp in Hn.
Qed.

(** ** Handlers that move the clock *)

Lemma next_number_valid b :
  config_ok config -> is_u64 b -> EpochId.valid (EpochId.Number (next_number b (blocks_per_epoch config))).
Proof.
  intros Hc Hb. destruct (ok_blocks_per_epoch _ Hc). simpl.
  pose proof (next_number_pos b (blocks_per_epoch config) ltac:(apply Hb) ltac:(lia)).
  pose proof (next_number_le b (blocks_per_epoch config)). lia.
Qed.

(** The session the last confirmation of an epoch opens. *)
Definition rollover_session (pe : Epoch) (responsible : Z) (q : Packet) (block : Z) : SigningState :=
  WaitingForRequest (ep_key_share pe) (id (ep_group pe)) (Some responsible) q false
    (participants (ep_group pe)) (sat_add block (signing_timeout config)).

(** What a confirmation does: nothing to the clock, finish genesis, or put the
    next epoch's rollover up for signing. *)
Inductive confirmed (s : State) (b participant : Z) : State -> Prop :=
| confirmed_frame s' : frame s s' -> confirmed s b participant s'
| confirmed_genesis g ks r :
    at_epoch (rollover s) EpochId.Genesis ->
    at_epoch r (EpochId.Number (next_number b (blocks_per_epoch config))) ->
    confirmed s b participant (with_rollover (finalize_key_gen s EpochId.Genesis g ks) r)
| confirmed_epoch p g part st cf cs ds ks q :
    rollover s = CollectingConfirmations (EpochId.Number p) g part st cf cs ds ->
    q = EpochRollover (active_epoch s) p (sat_mul p (blocks_per_epoch config)) (id g)
          (Keygen.group_key (group_commitments part)) ->
    confirmed s b participant
      (with_rollover
         (with_signing s
            match epochs s !! active_epoch s with
            | Some pe => <[packet_message q := rollover_session pe participant q b]> (signing s)
            | None => signing s
            end) (SigningRollover p g ks (packet_message q))).

Lemma handle_key_gen_confirmed_spec s b ev :
  confirmed s b (Coordinator.kf_participant ev) (handle_key_gen_confirmed s b ev).1.
Proof.
  unfold handle_key_gen_confirmed.
  rollover_cases s E; try (by apply confirmed_frame).
  case_decide; [|by apply confirmed_frame]. branch_open.
  case_decide; [apply confirmed_frame; framed E|].
  destruct e as [|p0].
  - assert (at_epoch (rollover s) EpochId.Genesis) as He by (rewrite E; auto).
    destruct (participants_set _ _) as [ps|].
    + destruct (start_key_gen_state
        (finalize_key_gen (with_rollover s (EpochSkipped (next_number b (blocks_per_epoch config))))
           EpochId.Genesis g (confirmed_key_share st))
        (EpochId.Number (next_number b (blocks_per_epoch config))) ps (Some (key_gen_deadline b)))
        as (r & -> & Hr).
      replace (with_rollover (finalize_key_gen _ _ _ _) r) with
        (with_rollover (finalize_key_gen s EpochId.Genesis g (confirmed_key_share st)) r)
        by (by destruct (confirmed_key_share st)).
      by apply confirmed_genesis.
    + replace (_, _).1 with
        (with_rollover (finalize_key_gen s EpochId.Genesis g (confirmed_key_share st))
           (EpochSkipped (next_number b (blocks_per_epoch config))))
        by (by destruct (confirmed_key_share st)).
      apply confirmed_genesis; [done|]. split; [by left|done].
  - eapply (confirmed_epoch _ _ _ p0 g p st cf cs ds (confirmed_key_share st)); eauto.
Qed.

(** What an observed staging does. *)
Inductive staged (s : State) : State -> Prop :=
| staged_ignored : staged s s
| staged_epoch n g ks message s' :
    rollover s = SigningRollover n g ks message ->
    s' = (handle_sign_attested
            (finalize_key_gen (with_rollover s (EpochStaged n)) (EpochId.Number n) g ks)
            0 message).1 ->
    staged s s'
| staged_joined n r :
    rollover s = WaitingForGenesis -> is_u64 n ->
    (n = 0 /\ r = Halted \/ n ≠ 0 /\ r = EpochSkipped n) -> staged s (with_rollover s r).

Lemma handle_epoch_staged_spec s ev :
  is_u64 (Consensus.es_proposedEpoch ev) -> staged s (handle_epoch_staged s ev).1.
Proof.
  intros Hn. unfold handle_epoch_staged.
  destruct (rollover s) as
    [| |n|n|e g k cm d|e g p sh shs cs d|e g p st cf cs ds|n g k msg] eqn:E;
    try (by apply staged_ignored).
  - eapply staged_joined; [done|exact Hn|]. case_decide; [by left|by right].
  - case_decide; [|by apply staged_ignored]. eapply staged_epoch; [done|].
    unfold handle_sign_attested. done.
Qed.

(** What a new block does to the rollover. *)
Inductive rolled (s : State) (b : Z) : State -> Prop :=
| rolled_not_due : rolled s b s
| rolled_over n r :
    next_epoch (rollover s) = Some (EpochId.Number n) ->
    n < next_number b (blocks_per_epoch config) ->
    at_epoch r (EpochId.Number (next_number b (blocks_per_epoch config))) ->
    rolled s b
      (with_rollover
         match rollover s with EpochStaged _ => with_active_epoch s (EpochId.Number n) | _ => s end r).

Lemma handle_rollover_new_block_spec s b : rolled s b (handle_rollover_new_block s b).1.
Proof.
  unfold handle_rollover_new_block.
  destruct (next_epoch (rollover s)) as [[|n]|] eqn:E; simpl; try apply rolled_not_due.
  case_decide as Hd; [apply rolled_not_due|].
  destruct (participants_set _ _) as [ps|].
  - destruct (start_key_gen_state
      match rollover s with EpochStaged _ => with_active_epoch s (EpochId.Number n) | _ => s end
      (EpochId.Number (next_number b (blocks_per_epoch config))) ps (Some (key_gen_deadline b)))
      as (r & -> & Hr). apply rolled_over; [done|lia|done].
  - apply rolled_over; [done|lia|]. split; [by left|done].
Qed.

(** ** The clock moves forward *)

Lemma behind_later r r' n least : behind r n least -> target r < target r' -> behind r' n least.
Proof. unfold behind. intuition lia. Qed.

Lemma active_le_target s :
  clock_ok s -> EpochId.raw_value (active_epoch s) <= target (rollover s).
Proof. intros [_ _ _ _ [Ha|[-> ->]] _ _]; [lia|done]. Qed.

Lemma target_number e : target (EpochSkipped e) = e.
Proof. done. Qed.

(** A step to a later epoch: what was behind the target still is. *)
Lemma clock_ok_later s a eps r n :
  clock_ok s -> at_epoch r (EpochId.Number n) -> EpochId.valid (EpochId.Number n) ->
  target (rollover s) < n ->
  EpochId.valid a -> EpochId.raw_value a <= target (rollover s) ->
  (forall e ep, eps !! e = Some ep ->
     EpochId.valid e /\ EpochId.raw_value e <= target (rollover s)) ->
  clock_ok (with_rollover (with_epochs (with_active_epoch s a) eps) r).
Proof.
  intros [Ht Hst Hv Hav Ha He Hr] Hat Hn Hlt Hva Hra Heps.
  pose proof (at_epoch_target _ _ Hat) as Htr. destruct Hat as [Hat Hs]. simpl in *.
  split; simpl; rewrite ?Htr, ?Hs; simpl; try lia; try done.
  - intros e Hne. destruct Hat as [Hat|[-> _]]; [|done]. rewrite Hat in Hne. by simplify_eq.
  - intros e ep Hep. destruct (Heps e ep Hep) as [Hve Hle]. split; [done|]. left. lia.
  - intros m x a' p b g k Hx Hp. destruct (Hr m x a' p b g k Hx Hp) as [Hp1 Hb]. split; [done|].
    eapply behind_later; [exact Hb|]. lia.
Qed.

Lemma epochs_le_target s e ep :
  clock_ok s -> epochs s !! e = Some ep ->
  EpochId.valid e /\ EpochId.raw_value e <= target (rollover s).
Proof.
  intros Hc He. destruct (ck_epochs _ Hc e ep He) as [Hv Hb]. split; [done|].
  unfold behind in Hb. lia.
Qed.

Lemma clock_ok_rolled s b s' :
  config_ok config -> is_u64 b -> clock_ok s -> rolled s b s' -> clock_ok s'.
Proof.
  intros Hcfg Hb Hc [|n r Hn Hlt Hat]; [done|].
  assert (target (rollover s) = n) as Htn by (unfold target; by rewrite Hn).
  pose proof (ck_valid _ Hc _ Hn) as Hvn.
  pose proof (next_number_valid b Hcfg Hb) as Hvb.
  set (a := match rollover s with EpochStaged _ => EpochId.Number n | _ => active_epoch s end).
  replace (with_rollover _ r) with
    (with_rollover (with_epochs (with_active_epoch s a) (epochs s)) r)
    by (subst a; by destruct s as [[] ? ? ? ?]).
  eapply clock_ok_later; try done; [lia| | |].
  - subst a. pose proof (ck_active_valid _ Hc). by destruct (rollover s).
  - pose proof (active_le_target _ Hc). subst a. destruct (rollover s); simpl in *; lia.
  - intros e ep He. by eapply epochs_le_target.
Qed.

(** Genesis resolves epoch 0, and targets a numbered epoch. *)
Lemma clock_ok_genesis s g ks r n :
  clock_ok s -> at_epoch (rollover s) EpochId.Genesis -> at_epoch r (EpochId.Number n) ->
  EpochId.valid (EpochId.Number n) ->
  clock_ok (with_rollover (finalize_key_gen s EpochId.Genesis g ks) r).
Proof.
  intros Hc Hg Hat Hn. pose proof (at_epoch_target _ _ Hg) as Ht. simpl in Ht.
  replace (with_rollover _ r) with
    (with_rollover (with_epochs (with_active_epoch s (active_epoch s))
       (epochs (finalize_key_gen s EpochId.Genesis g ks))) r)
    by (by destruct ks, s).
  eapply clock_ok_later; try done.
  - simpl in Hn. lia.
  - by apply ck_active_valid.
  - by apply active_le_target.
  - intros e ep He. destruct ks as [k|]; simpl in He; [|by eapply epochs_le_target].
    apply lookup_insert_Some in He as [[<- _]|[_ He]]; [simpl; lia|by eapply epochs_le_target].
Qed.

(** The staged epoch resolves: it is behind a staged target. *)
Lemma clock_ok_staged s n g ks message :
  clock_ok s -> rollover s = SigningRollover n g ks message ->
  clock_ok (finalize_key_gen (with_rollover s (EpochStaged n)) (EpochId.Number n) g ks).
Proof.
  intros [Ht Hst Hv Hav Ha He Hr] Hro. rewrite Hro in *.
  pose proof (Hv _ eq_refl) as Hvn. simpl in Hvn.
  assert (clock_ok (with_rollover s (EpochStaged n))) as Hc.
  { split; simpl; try done.
    - intros _. exact (proj1 Hvn).
    - intros e ep Hep. destruct (He e ep Hep) as [? Hb]. split; [done|]. unfold behind in *.
      simpl in *. destruct Hb as [?|[? [?|[? ?]]]]; [by left|done..].
    - intros m x a p b g' k Hx Hp. destruct (Hr m x a p b g' k Hx Hp) as [? Hb]. split; [done|].
      unfold behind in *. simpl in *. destruct Hb as [?|[? _]]; [by left|right; auto]. }
  destruct ks as [k|]; [|exact Hc]. destruct Hc as [? ? ? ? ? He' ?]. split; try done.
  simpl. intros e ep [[<- _]|[_ Hep]]%lookup_insert_Some; [|by eapply He'].
  split; [done|]. right. simpl. auto.
Qed.

Lemma clock_ok_joined s n r :
  clock_ok s -> rollover s = WaitingForGenesis -> is_u64 n ->
  (n = 0 /\ r = Halted \/ n ≠ 0 /\ r = EpochSkipped n) -> clock_ok (with_rollover s r).
Proof.
  intros Hc Hro Hn [[-> ->]|[Hn0 ->]].
  - apply (clock_ok_frame s); [|done]. apply (frame_rollover _ _ EpochId.Genesis).
    + rewrite Hro. split; [by left|done].
    + split; [by right|done].
  - replace (with_rollover s _) with
      (with_rollover (with_epochs (with_active_epoch s (active_epoch s)) (epochs s)) (EpochSkipped n))
      by (by destruct s).
    unfold is_u64 in Hn. eapply (clock_ok_later _ _ _ _ n); try done.
    + split; [by left|done].
    + simpl. lia.
    + rewrite Hro. unfold target. simpl. lia.
    + by apply ck_active_valid.
    + by apply active_le_target.
    + intros e ep He. by eapply epochs_le_target.
Qed.

(** The rollover is put up for signing: its epoch is the target. *)
Lemma clock_ok_confirmed s p g part st cf cs ds ks q m :
  clock_ok s -> rollover s = CollectingConfirmations (EpochId.Number p) g part st cf cs ds ->
  proposed_epoch q = Some p ->
  (forall k x, m !! k = Some x -> packet x = q \/ signing s !! k = Some x) ->
  clock_ok (with_rollover (with_signing s m) (SigningRollover p g ks (packet_message q))).
Proof.
  intros [Ht Hst Hv Hav Ha He Hr] Hro Hq Hm. rewrite Hro in *.
  pose proof (Hv _ eq_refl) as Hvn. simpl in Hvn.
  split; simpl; try done.
  - intros _. exact (proj1 Hvn).
  - intros e ep Hep. destruct (He e ep Hep) as [? Hb]. split; [done|]. unfold behind in *.
    simpl in *. destruct Hb as [?|[? [?|[? ?]]]]; [by left|done..].
  - intros k x a p' b g' gk Hx Hp. destruct (Hm k x Hx) as [He'|Hx'].
    + rewrite He' in Hp. subst q. simpl in Hq. simplify_eq. split; [lia|]. right. simpl. auto.
    + destruct (Hr k x a p' b g' gk Hx' Hp) as [? Hb]. split; [done|]. unfold behind in *. simpl in *.
      destruct Hb as [?|[? [?|[? ?]]]]; [by left|done..].
Qed.

(** How a message may move the clock. *)
Record forward (s s' : State) : Prop := {
  fw_target : target (rollover s) <= target (rollover s');
  fw_active : EpochId.raw_value (active_epoch s) <= EpochId.raw_value (active_epoch s')
}.

Lemma forward_refl s : forward s s.
Proof. split; lia. Qed.

Lemma forward_trans s1 s2 s3 : forward s1 s2 -> forward s2 s3 -> forward s1 s3.
Proof. intros [] []. split; lia. Qed.

Lemma forward_frame s s' : frame s s' -> forward s s'.
Proof.
  intros Hf. pose proof (frame_target _ _ Hf) as Ht. destruct Hf as [_ Ha _ _ _].
  split; [lia|]. by rewrite Ha.
Qed.

(** Sessions and epochs aside, a state is its clock. *)
Lemma forward_same s s' :
  rollover s' = rollover s -> active_epoch s' = active_epoch s -> forward s s'.
Proof. intros Hr Ha. split; rewrite ?Hr, ?Ha; lia. Qed.

Lemma forward_rolled s b s' : clock_ok s -> rolled s b s' -> forward s s'.
Proof.
  intros Hc [|n r Hn Hlt Hat]; [apply forward_refl|].
  pose proof (at_epoch_target _ _ Hat) as Ht. simpl in Ht.
  assert (target (rollover s) = n) as Htn by (unfold target; by rewrite Hn).
  pose proof (active_le_target _ Hc). split; simpl; [lia|].
  destruct (rollover s); simpl; lia.
Qed.

Lemma forward_confirmed s b p s' :
  config_ok config -> is_u64 b -> clock_ok s -> confirmed s b p s' -> forward s s'.
Proof.
  intros Hcfg Hb Hc [s1 Hf|g ks r Hg Hr|n g part st cf cs ds ks q Hro Hq].
  - by apply forward_frame.
  - pose proof (at_epoch_target _ _ Hg) as Ht. pose proof (at_epoch_target _ _ Hr) as Ht'.
    pose proof (next_number_valid b Hcfg Hb) as Hv. simpl in *.
    split; [simpl; lia|]. by destruct ks.
  - split; [|done]. rewrite Hro. done.
Qed.

Lemma forward_attested s sid m : forward s (handle_sign_attested s sid m).1.
Proof.
  unfold handle_sign_attested. apply forward_same; simpl; by case_match.
Qed.

Lemma forward_staged s s' : staged s s' -> forward s s'.
Proof.
  intros [|n g ks message s1 Hro ->|n r Hro Hn Hr].
  - apply forward_refl.
  - eapply forward_trans; [|apply forward_attested].
    split; [|by destruct ks]. rewrite Hro. by destruct ks.
  - split; [|done]. rewrite Hro. unfold is_u64 in Hn. destruct Hr as [[-> ->]|[_ ->]]; simpl; [done|].
    unfold target. simpl. lia.
Qed.

(** ** Every message moves the clock forward *)

(** A message that does not activate an epoch. *)
Definition quiet (s s' : State) : Prop := forward s s' /\ active_epoch s' = active_epoch s.

Lemma quiet_frame s s' : frame s s' -> quiet s s'.
Proof. intros Hf. split; [by apply forward_frame|apply Hf]. Qed.

Lemma quiet_same s s' :
  rollover s' = rollover s -> active_epoch s' = active_epoch s -> quiet s s'.
Proof. intros Hr Ha. split; [by apply forward_same|done]. Qed.

Lemma quiet_confirmed s b ev :
  config_ok config -> is_u64 b -> clock_ok s -> quiet s (handle_key_gen_confirmed s b ev).1.
Proof.
  intros Hcfg Hb Hc. pose proof (handle_key_gen_confirmed_spec s b ev) as Hsp.
  split; [by eapply forward_confirmed|].
  destruct Hsp as [s1 Hf|g ks r _ _|]; [apply Hf|by destruct ks|done].
Qed.

Lemma quiet_attested s sid m : quiet s (handle_sign_attested s sid m).1.
Proof. apply quiet_same; unfold handle_sign_attested; simpl; by case_match. Qed.

Lemma quiet_staged s ev :
  is_u64 (Consensus.es_proposedEpoch ev) -> quiet s (handle_epoch_staged s ev).1.
Proof.
  intros Hn. pose proof (handle_epoch_staged_spec s ev Hn) as Hsp.
  split; [by apply forward_staged|].
  destruct Hsp as [|n g ks message s1 _ ->|]; [done| |done].
  etrans; [apply quiet_attested|]. by destruct ks.
Qed.

(** The session handlers leave the clock alone. *)
Lemma sessions_quiet s m :
  match m with
  | Message.Event log =>
      match log_data log with
      | Event.Coordinator (Coordinator.SignEvent _ | Coordinator.SignCommittedNoncesEvent _
          | Coordinator.SignSharedEvent _ | Coordinator.SignCompletedEvent _)
      | Event.Oracle _ | Event.Consensus (Consensus.TransactionProposedEvent _) => True
      | _ => False
      end
  | Message.Resume (Resume.NonceCommitments _ _ | Resume.Nonces _ _) => True
  | _ => False
  end -> quiet s (apply_transition s m).1.
Proof.
  intros H.
  assert (rollover (apply_transition s m).1 = rollover s /\
          active_epoch (apply_transition s m).1 = active_epoch s) as [];
    [revert H|by apply quiet_same].
  unfold apply_transition, validator_transition.
  destruct m as [b|[[b t] i a data]|r]; simpl; [done| |].
  - destruct data as [[]|[]|]; intros H; try done; simpl;
      unfold handle_sign, handle_sign_committed_nonces, handle_sign_shared, handle_sign_completed,
        handle_oracle_result, handle_transaction_proposed; by repeat (case_match; try done).
  - destruct r; intros H; try done; simpl; unfold handle_nonce_commitments, handle_nonces;
      by repeat (case_match; try done).
Qed.

Lemma quiet_event s b a data :
  config_ok config -> clock_ok s ->
  wf_message (Message.Event (MkEventLog b 0 a data)) ->
  quiet s (apply_event s (block_number b) a data).1.
Proof.
  intros Hcfg Hc [Hb Hwf].
  pose proof (sessions_quiet s (Message.Event (MkEventLog b 0 a data))) as Hsess.
  destruct data as [ev|ev|ev]; [| |exact (Hsess I)].
  - destruct ev as [e|e|e|e|e]; [by apply quiet_same| |exact (Hsess I)| |by apply quiet_same].
    + by apply quiet_staged.
    + apply quiet_attested.
  - destruct ev as [e|e|e|e|e|e|e|e|e|e]; try exact (Hsess I); simpl.
    + apply quiet_frame, genesis_key_gen_frame.
    + apply quiet_frame, key_gen_committed_frame.
    + apply quiet_frame, key_gen_secret_shared_frame.
    + by apply quiet_confirmed.
    + apply quiet_frame, key_gen_complained_frame.
    + apply quiet_frame, key_gen_complaint_responded_frame.
Qed.

(** How block [b] activates an epoch: one staged before, at its first block. *)
Definition activates (s : State) (b : Z) (s' : State) : Prop :=
  exists n, rollover s = EpochStaged n /\ active_epoch s' = EpochId.Number n /\
    n * blocks_per_epoch config <= b.

Lemma new_block_clock s b :
  rollover (apply_new_block s b).1 =
    rollover (handle_key_gen_timeouts (handle_rollover_new_block s b).1 b).1 /\
  active_epoch (apply_new_block s b).1 =
    active_epoch (handle_key_gen_timeouts (handle_rollover_new_block s b).1 b).1.
Proof.
  unfold apply_new_block. destruct (handle_rollover_new_block s b) as [s1 c1]. simpl.
  by destruct (handle_key_gen_timeouts s1 b) as [s2 c2].
Qed.

Lemma new_block_forward s b :
  config_ok config -> is_u64 b -> clock_ok s ->
  forward s (apply_new_block s b).1 /\
  (active_epoch (apply_new_block s b).1 = active_epoch s \/ activates s b (apply_new_block s b).1).
Proof.
  intros [Hbpe _ _ _] Hb Hc. destruct (new_block_clock s b) as [Hr Ha].
  pose proof (handle_rollover_new_block_spec s b) as Hsp.
  pose proof (key_gen_timeouts_frame (handle_rollover_new_block s b).1 b) as Hf. split.
  - eapply forward_trans; [by eapply forward_rolled|].
    eapply forward_trans; [by apply forward_frame|]. by apply forward_same.
  - unfold activates. rewrite Ha. destruct Hf as [_ -> _ _ _].
    destruct Hsp as [|n r Hn Hlt Hat]; [by left|]. simpl.
    destruct (rollover s) eqn:E; try (by left). right. simpl in Hn. simplify_eq.
    exists n. split_and!; [done..|]. pose proof (ck_target _ Hc) as Ht. rewrite E in Ht.
    change (0 <= n <= u64_max) in Ht.
    pose proof (next_number_le b (blocks_per_epoch config)).
    apply next_number_gt; unfold is_u64 in *; lia.
Qed.

Lemma transition_forward s m :
  config_ok config -> wf_message m -> clock_ok s ->
  forward s (apply_transition s m).1 /\
  (active_epoch (apply_transition s m).1 = active_epoch s \/
   exists b, m = Message.NewBlock b /\ activates s b (apply_transition s m).1).
Proof.
  intros Hcfg Hwf Hc. destruct m as [b|[bl i a data]|r].
  - destruct (new_block_forward s b Hcfg Hwf Hc) as [Hf [Ha|Ha]].
    + by split; [|left].
    + by split; [|right; exists b].
  - destruct (quiet_event s bl a data Hcfg Hc Hwf). by split; [|left].
  - assert (quiet s (apply_resume s r).1) as []; [|by split; [|left]].
    destruct r as [|g k|sid n|m n].
    + by apply quiet_same.
    + apply quiet_frame, key_gen_setup_frame.
    + exact (sessions_quiet s (Message.Resume (Resume.NonceCommitments sid n)) I).
    + exact (sessions_quiet s (Message.Resume (Resume.Nonces m n)) I).
Qed.

End Clock.
