(* ===== verification/Sessions.v ===== *)
(** The invariant of the signing sessions: every session is keyed by its
    packet's message and backed by a resolved epoch, every tracked signature id
    leads to the session using it, and the commitments of a session come from
    its signers. *)

From S2P Require Import Prelude Keccak Epoch Group Bindings FrostLib Frost Hashing Secrets.
From S2P Require Import Messages Service State KeyGen Signing Validator Clock.

Section Sessions.
Context {KEC : Keccak} {FL : FrostLib} {EIP : Eip712} {ABI : Abi} {TR : Transition}.

(** The key share and group a session signs with. *)
Definition share_of (x : SigningState) : option (Keygen.KeyShare * Z) :=
  match x with
  | WaitingForRequest ks g _ _ _ _ _ | WaitingForOracle ks _ g _ _ _ _
  | CollectNonceCommitments ks g _ _ _ _ _ | CollectSigningShares ks g _ _ _ _ _ _ => Some (ks, g)
  | WaitingForAttestation _ _ _ => None
  end.

(** What each state of a session adds to its packet. *)
Definition stage_ok (x : SigningState) : Prop :=
  match x with
  | WaitingForOracle _ oracle _ _ p _ _ => exists e d t, p = PacketTransaction e oracle d t
  | CollectNonceCommitments _ _ _ committed _ signers _ => dom committed ⊆ signers
  | CollectSigningShares _ _ _ committed _ _ signers _ => dom committed = signers
  | _ => True
  end.

Record session_ok (eps : gmap EpochId.t Epoch) (m : Z) (x : SigningState) : Prop := {
  so_key : m = packet_message (packet x);
  so_epoch : exists pe, eps !! packet_epoch (packet x) = Some pe /\
    forall ks g, share_of x = Some (ks, g) -> ks = ep_key_share pe /\ g = id (ep_group pe);
  so_oracle : forall e o d t, packet x = PacketTransaction e o d t -> o ∈ oracles config;
  so_stage : stage_ok x
}.

(** Every index entry leads to a session that uses the signature id. *)
Definition index_ok (s : State) : Prop :=
  forall sid m, signature_id_to_message s !! sid = Some m ->
    exists x, signing s !! m = Some x /\ signature_id x = Some sid.

Record inv (s : State) : Prop := {
  inv_clock : clock_ok s;
  inv_session : forall m x, signing s !! m = Some x -> session_ok (epochs s) m x;
  inv_index : index_ok s
}.

Lemma inv_default : inv default_state.
Proof. split; [apply clock_ok_default|done|done]. Qed.

Lemma inv_frame s s' : frame s s' -> inv s -> inv s'.
Proof.
  intros Hf [Hc Hs Hi]. pose proof (clock_ok_frame _ _ Hf Hc). destruct Hf as [_ _ He Hsi Hix].
  split; [done| |].
  - intros m x. rewrite Hsi, He. apply Hs.
  - unfold index_ok. by rewrite Hsi, Hix.
Qed.

(** ** Moving one session *)

Lemma inv_put s m x y :
  inv s -> signing s !! m = Some x -> packet y = packet x -> signature_id y = signature_id x ->
  (share_of y = share_of x \/ share_of y = None) -> stage_ok y -> inv (put_session s m y).
Proof.
  intros [Hc Hs Hi] Hx Hp Hsid Hsh Hst. destruct (Hs m x Hx) as [Hk (pe & Hpe & Hg) Ho _].
  split.
  - apply (clock_ok_sessions s); try done. simpl.
    intros k z [[<- <-]|[_ Hz]]%lookup_insert_Some; left; eauto.
  - simpl. intros k z [[<- <-]|[_ Hz]]%lookup_insert_Some; [|by apply Hs].
    split; rewrite ?Hp; try done. exists pe. split; [done|].
    intros ks g Hks. destruct Hsh as [Hsh|Hsh]; rewrite Hsh in Hks; [by apply Hg|done].
  - intros sid k Hk'. simpl in *. destruct (Hi sid k Hk') as (z & Hz & Hzs).
    destruct (decide (k = m)) as [->|Hne].
    + exists y. rewrite lookup_insert_eq. split; [done|]. congruence.
    + exists z. by rewrite lookup_insert_ne.
Qed.

(** A session without a signature id takes one. *)
Lemma inv_open s m x y sid :
  inv s -> signing s !! m = Some x -> signature_id x = None ->
  packet y = packet x -> signature_id y = Some sid -> share_of y = share_of x -> stage_ok y ->
  inv (link (put_session s m y) sid m).
Proof.
  intros [Hc Hs Hi] Hx Hn Hp Hsid Hsh Hst. destruct (Hs m x Hx) as [Hk (pe & Hpe & Hg) Ho _].
  split.
  - apply (clock_ok_sessions s); try done. simpl.
    intros k z [[<- <-]|[_ Hz]]%lookup_insert_Some; left; eauto.
  - simpl. intros k z [[<- <-]|[_ Hz]]%lookup_insert_Some; [|by apply Hs].
    split; rewrite ?Hp; try done. exists pe. split; [done|]. intros ks g. rewrite Hsh. apply Hg.
  - intros sid' k. simpl. intros [[<- <-]|[_ Hk']]%lookup_insert_Some.
    + exists y. by rewrite lookup_insert_eq.
    + destruct (Hi sid' k Hk') as (z & Hz & Hzs).
      rewrite lookup_insert_ne; [eauto|]. intros <-. congruence.
Qed.

(** A session is dropped along with its signature id. *)
Definition drop_session (s : State) (m : Z) (x : SigningState) : State :=
  let s := with_signing s (delete m (signing s)) in
  match signature_id x with
  | Some sid => with_index s (delete sid (signature_id_to_message s))
  | None => s
  end.

Lemma inv_drop s m x : inv s -> signing s !! m = Some x -> inv (drop_session s m x).
Proof.
  intros [Hc Hs Hi] Hx.
  set (i := match signature_id x with Some sid => delete sid (signature_id_to_message s)
            | None => signature_id_to_message s end).
  replace (drop_session s m x) with (with_index (with_signing s (delete m (signing s))) i)
    by (subst i; unfold drop_session; by destruct (signature_id x)).
  split.
  - apply (clock_ok_sessions s); try done. simpl. intros k z [_ Hz]%lookup_delete_Some. left. eauto.
  - simpl. intros k z [_ Hz]%lookup_delete_Some. by apply Hs.
  - intros sid k Hk. simpl in *.
    assert (signature_id_to_message s !! sid = Some k) as Hk'
      by (subst i; destruct (signature_id x); [by apply lookup_delete_Some in Hk as [_ ?]|done]).
    destruct (Hi sid k Hk') as (z & Hz & Hzs). exists z. split; [|done].
    apply lookup_delete_Some. split; [|done]. intros <-. simplify_eq. subst i.
    rewrite Hzs in Hk. by rewrite lookup_delete_eq in Hk.
Qed.

(** A session is opened for a message without one. *)
Lemma inv_new s m y :
  inv s -> signing s !! m = None -> session_ok (epochs s) m y -> proposed_epoch (packet y) = None ->
  inv (put_session s m y).
Proof.
  intros [Hc Hs Hi] Hn Hy Hp. split.
  - apply (clock_ok_sessions s); try done. simpl.
    intros k z [[<- <-]|[_ Hz]]%lookup_insert_Some; [by right|left; eauto].
  - simpl. intros k z [[<- <-]|[_ Hz]]%lookup_insert_Some; [done|by apply Hs].
  - intros sid k Hk. simpl in *. destruct (Hi sid k Hk) as (z & Hz & Hzs). exists z.
    split; [|done]. rewrite lookup_insert_ne; [done|]. congruence.
Qed.

(** Resolved epochs are only added to, at epochs the clock has not resolved. *)
Lemma session_ok_epochs eps eps' m x :
  session_ok eps m x -> eps ⊆ eps' -> session_ok eps' m x.
Proof.
  intros [Hk (pe & Hpe & Hg) Ho Hst] Hsub. split; try done. exists pe. split; [|done].
  by eapply lookup_weaken.
Qed.

(** ** The signing handlers *)

Lemma handle_sign_inv s b ev : inv s -> inv (handle_sign s b ev).1.
Proof.
  intros Hs. unfold handle_sign.
  destruct (signing s !! Coordinator.sg_message ev) as [[ks g r p a sg d| | | |]|] eqn:E; try done.
  case_decide; [|done]. subst g.
  destruct p as [|e o dt t]; [|destruct a]; (eapply inv_open; eauto; simpl; set_solver).
Qed.

Lemma handle_oracle_result_inv s b o ev : inv s -> inv (handle_oracle_result s b o ev).1.
Proof.
  intros Hs. unfold handle_oracle_result.
  destruct (signing s !! Oracle.or_requestId ev) as [[|ks o' g sid p sg d| | |]|] eqn:E; try done.
  case_decide; [|done]. destruct (Oracle.or_approved ev).
  - eapply inv_put; eauto; simpl; set_solver.
  - apply (inv_drop s _ _ Hs E).
Qed.

Lemma handle_sign_attested_inv s sid m : inv s -> inv (handle_sign_attested s sid m).1.
Proof.
  intros Hs. unfold handle_sign_attested. destruct (signing s !! m) as [x|] eqn:E; simpl.
  - apply (inv_drop s m x Hs E).
  - by replace (with_signing s _) with s by (rewrite delete_id by done; by destruct s).
Qed.

Lemma add_commitment_dom committed signers p n :
  dom committed ⊆ signers -> dom (add_commitment committed signers p n) ⊆ signers.
Proof.
  intros Hd. unfold add_commitment. case_decide; [done|]. destruct (committed !! p); [done|].
  destruct (Sign.verify_committed_nonces p n); [|done]. rewrite dom_insert_L. set_solver.
Qed.

Lemma handle_sign_committed_nonces_inv s b ev :
  inv s -> inv (handle_sign_committed_nonces s b ev).1.
Proof.
  intros Hs. unfold handle_sign_committed_nonces.
  destruct (signature_id_to_message s !! _) as [m|]; [|done].
  destruct (signing s !! m) as [[| |ks g sid cm p sg d| |]|] eqn:E; try done.
  pose proof (so_stage _ _ _ (inv_session _ Hs _ _ E)) as Hst. simpl in Hst.
  pose proof (add_commitment_dom cm sg (Coordinator.sn_participant ev)
    (Coordinator.sn_nonces ev) Hst) as Hd.
  case_decide as Hsz; eapply inv_put; eauto; simpl; try done.
  apply subseteq_full; [done|]. rewrite size_dom. lia.
Qed.

Lemma handle_sign_shared_inv s ev : inv s -> inv (handle_sign_shared s ev).1.
Proof.
  intros Hs. unfold handle_sign_shared.
  destruct (signature_id_to_message s !! _) as [m|]; [|done].
  destruct (signing s !! m) as [[| | |ks g sid cm sl p sg d|]|] eqn:E; try done.
  eapply inv_put; eauto; simpl; try done. apply (so_stage _ _ _ (inv_session _ Hs _ _ E)).
Qed.

Lemma handle_sign_completed_inv s b ev : inv s -> inv (handle_sign_completed s b ev).1.
Proof.
  intros Hs. unfold handle_sign_completed.
  destruct (signature_id_to_message s !! _) as [m|]; [|done].
  destruct (signing s !! m) as [[| | |ks g sid cm sl p sg d|]|] eqn:E; try done.
  eapply inv_put; eauto; simpl; eauto.
Qed.

Lemma handle_nonce_commitments_state s sid n : (handle_nonce_commitments s sid n).1 = s.
Proof. unfold handle_nonce_commitments. by repeat case_match. Qed.

Lemma handle_nonces_state s m n : (handle_nonces s m n).1 = s.
Proof. unfold handle_nonces. by repeat case_match. Qed.

Lemma handle_transaction_proposed_inv s b ev : inv s -> inv (handle_transaction_proposed s b ev).1.
Proof.
  intros Hs. unfold handle_transaction_proposed.
  destruct (epochs s !! _) as [pe|] eqn:E; [|done]. case_decide as Ho; [done|].
  destruct (signing s !! _) eqn:Es; [done|]. apply inv_new; try done.
  split; simpl; try done.
  - exists pe. split; [done|]. by intros ? ? [= <- <-].
  - intros e o d t [= _ <- _ _]. by destruct (decide (Consensus.tp_oracle ev ∈ oracles config)).
Qed.

(** ** Timeouts *)

Lemma elem_of_values {V} (m : gmap Z V) k v : m !! k = Some v -> (k, v) ∈ sorted_entries m.
Proof. apply elem_of_sorted_entries. Qed.

Lemma foldl_delete_lookup {V} (l : list Z) (m : gmap Z V) k v :
  foldl (fun m k => delete k m) m l !! k = Some v <-> m !! k = Some v /\ k ∉ l.
Proof.
  revert m. induction l as [|j l IH]; intros m; simpl; [set_solver|].
  rewrite IH, lookup_delete_Some. set_solver.
Qed.

(** A timeout keeps a session's packet, epoch and signature id, or unlinks the
    signature id along with the round that used it. *)
Lemma time_out_session_spec b m x :
  stage_ok x ->
  match time_out_session b m x with
  | (Some y, i, _) =>
      packet y = packet x /\ share_of y = share_of x /\ stage_ok y /\
      ((i = None /\ signature_id y = signature_id x) \/
       (signature_id y = None /\ i = signature_id x))
  | (None, i, _) => i = signature_id x
  end.
Proof.
  intros Hst. unfold time_out_session. case_decide; [split_and!; auto|].
  destruct x as [ks g [r|] p a sg d| |ks g sid cm p sg d|ks g sid cm sl p sg d|sid p d];
    simpl in *; try done.
  - case_decide; simpl; [done|split_and!; auto].
  - case_decide; simpl; [done|split_and!; auto].
  - case_decide; simpl; [done|split_and!; auto].
Qed.

Lemma timeouts_session s b m :
  signing (handle_signing_timeouts s b).1 !! m =
    signing s !! m ≫= fun x => (time_out_session b m x).1.1.
Proof. simpl. by rewrite map_lookup_imap. Qed.

Lemma timeouts_index s b sid m :
  signature_id_to_message (handle_signing_timeouts s b).1 !! sid = Some m <->
  signature_id_to_message s !! sid = Some m /\
  forall k x, signing s !! k = Some x -> (time_out_session b k x).1.2 ≠ Some sid.
Proof.
  simpl. rewrite foldl_delete_lookup. split; intros [H1 H2]; split; try done.
  - intros k x Hx Hi. apply H2. apply list_elem_of_omap.
    exists (time_out_session b k x). split; [|done].
    apply list_elem_of_fmap. exists (k, x). split; [done|]. by apply elem_of_sorted_entries.
  - intros (o & Ho & Hi)%list_elem_of_omap. apply list_elem_of_fmap in Ho as ([k x] & -> & Hx).
    apply elem_of_sorted_entries in Hx. by apply (H2 k x).
Qed.

Lemma handle_signing_timeouts_inv s b : inv s -> inv (handle_signing_timeouts s b).1.
Proof.
  intros Hs. pose proof Hs as [Hc Hss Hi].
  assert (forall m y, signing (handle_signing_timeouts s b).1 !! m = Some y ->
    exists x, signing s !! m = Some x /\ (time_out_session b m x).1.1 = Some y) as Hback.
  { intros m y. rewrite timeouts_session. intros (x & Hx & Hy)%bind_Some. eauto. }
  split.
  - apply (clock_ok_sessions s); try done. intros m y (x & Hx & Hy)%Hback. left.
    pose proof (time_out_session_spec b m x (so_stage _ _ _ (Hss m x Hx))) as Hsp.
    destruct (time_out_session b m x) as [[[y'|] i] cs]; simplify_eq/=. exists m, x. tauto.
  - intros m y (x & Hx & Hy)%Hback. destruct (Hss m x Hx) as [Hk (pe & Hpe & Hg) Ho Hst].
    pose proof (time_out_session_spec b m x Hst) as Hsp.
    destruct (time_out_session b m x) as [[[y'|] i] cs]; simplify_eq/=.
    destruct Hsp as (Hp & Hsh & Hst' & _). split; rewrite ?Hp; try done.
    exists pe. by rewrite Hsh.
  - intros sid m (Hix & Hno)%timeouts_index. destruct (Hi sid m Hix) as (x & Hx & Hsid).
    pose proof (time_out_session_spec b m x (so_stage _ _ _ (Hss m x Hx))) as Hsp.
    specialize (Hno m x Hx). rewrite timeouts_session, Hx.
    destruct (time_out_session b m x) as [[[y'|] i] cs] eqn:E; simpl in *; rewrite ?E; simpl.
    + destruct Hsp as (_ & _ & _ & [[-> Hy]|[_ ->]]); [|by rewrite Hsid in Hno].
      exists y'. split; [done|]. congruence.
    + subst i. by rewrite Hsid in Hno.
Qed.

(** ** Epochs *)

Lemma inv_epochs s s' :
  inv s -> clock_ok s' -> signing s' = signing s ->
  signature_id_to_message s' = signature_id_to_message s -> epochs s ⊆ epochs s' -> inv s'.
Proof.
  intros [Hc Hs Hi] Hc' Hsi Hix Hsub. split; [done| |].
  - intros m x. rewrite Hsi. intros Hx. eapply session_ok_epochs; [by apply Hs|done].
  - unfold index_ok. by rewrite Hsi, Hix.
Qed.

Lemma finalize_epochs s e g ks :
  epochs s !! e = None -> epochs s ⊆ epochs (finalize_key_gen s e g ks).
Proof. intros He. destruct ks; simpl; [by apply insert_subseteq|done]. Qed.

(** An epoch that is not behind the rollover is not resolved. *)
Lemma not_behind_unresolved s e :
  clock_ok s -> ~ behind (rollover s) (EpochId.raw_value e) Staged -> epochs s !! e = None.
Proof.
  intros Hc Hn. destruct (epochs s !! e) as [ep|] eqn:E; [|done].
  by destruct (ck_epochs _ Hc e ep E).
Qed.

Lemma genesis_unresolved s :
  clock_ok s -> at_epoch (rollover s) EpochId.Genesis -> epochs s !! EpochId.Genesis = None.
Proof.
  intros Hc Hg. apply not_behind_unresolved; [done|].
  pose proof (at_epoch_target _ _ Hg) as Ht. destruct Hg as [_ Hst]. unfold behind.
  rewrite Ht, Hst. simpl. intros [?|[_ [?|[? ?]]]]; [lia|done..].
Qed.

Lemma handle_epoch_staged_inv s ev :
  is_u64 (Consensus.es_proposedEpoch ev) -> inv s -> inv (handle_epoch_staged s ev).1.
Proof.
  intros Hn Hs. destruct (handle_epoch_staged_spec s ev Hn) as [|n g ks message s' Hro ->|n r Hro Hn' Hr].
  - done.
  - apply handle_sign_attested_inv.
    assert (epochs s !! EpochId.Number n = None) as Hno.
    { apply not_behind_unresolved; [apply Hs|]. rewrite Hro. unfold behind. simpl.
      intros [?|[_ [?|[? ?]]]]; [unfold target in *; simpl in *; lia|done..]. }
    apply (inv_epochs s); try done.
    + eapply clock_ok_staged; [apply Hs|done].
    + by destruct ks.
    + by destruct ks.
    + by apply (finalize_epochs (with_rollover s (EpochStaged n))).
  - apply (inv_epochs s); try done. by eapply clock_ok_joined; [apply Hs|..].
Qed.

Lemma handle_rollover_new_block_inv s b :
  config_ok config -> is_u64 b -> inv s -> inv (handle_rollover_new_block s b).1.
Proof.
  intros Hcfg Hb Hs. pose proof (handle_rollover_new_block_spec s b) as Hr.
  assert (clock_ok (handle_rollover_new_block s b).1) as Hc
    by (eapply clock_ok_rolled; eauto; apply Hs).
  destruct Hr as [|n r Hn Hlt Hat]; [done|].
  apply (inv_epochs s); try done; by destruct (rollover s).
Qed.

(** The epochs a session needs survive the reconciliation. *)
Lemma oldest_epoch_le s m x :
  signing s !! m = Some x ->
  EpochId.raw_value (oldest_epoch s) <= EpochId.raw_value (packet_epoch (packet x)).
Proof.
  intros Hx. unfold oldest_epoch.
  assert (packet_epoch (packet x) ∈
    (fun s => packet_epoch (packet s)) <$> sorted_values (signing s)) as Hin.
  { apply list_elem_of_fmap. exists x. split; [done|]. apply elem_of_sorted_values. eauto. }
  revert Hin. generalize (active_epoch s) as a.
  assert (forall l a, EpochId.raw_value (foldl EpochId.min a l) <= EpochId.raw_value a) as Hle.
  { induction l as [|e l IH]; intros a; simpl; [lia|]. specialize (IH (EpochId.min a e)).
    rewrite EpochId.raw_value_min in IH. lia. }
  generalize ((fun s => packet_epoch (packet s)) <$> sorted_values (signing s)) as l.
  induction l as [|e l IH]; intros a Hin; [by apply not_elem_of_nil in Hin|]. simpl.
  apply elem_of_cons in Hin as [->|Hin]; [|by apply IH].
  specialize (Hle l (EpochId.min a e)). rewrite EpochId.raw_value_min in Hle. lia.
Qed.

Lemma handle_group_reconciliation_inv s b : inv s -> inv (handle_group_reconciliation s b).1.
Proof.
  intros [Hc Hs Hi]. split; [| |done].
  - destruct Hc as [? ? ? ? ? He ?]. split; try done. simpl.
    intros e ep [Hep _]%map_lookup_filter_Some. by eapply He.
  - simpl. intros m x Hx. destruct (Hs m x Hx) as [Hk (pe & Hpe & Hg) Ho Hst].
    split; try done. exists pe. split; [|done]. apply map_lookup_filter_Some. split; [done|].
    simpl. by eapply oldest_epoch_le.
Qed.

Lemma handle_key_gen_confirmed_inv s b ev :
  config_ok config -> is_u64 b -> inv s ->
  (forall q m x, rollover_packet s (Message.Event (MkEventLog (MkEventBlock b 0) 0 0
      (Event.Coordinator (Coordinator.KeyGenConfirmedEvent ev)))) = Some q ->
    signing s !! m = Some x -> packet_message (packet x) = packet_message q ->
    proposed_epoch (packet x) = proposed_epoch q) ->
  inv (handle_key_gen_confirmed s b ev).1.
Proof.
  intros Hcfg Hb Hs Hno.
  destruct (handle_key_gen_confirmed_spec s b ev)
    as [s' Hf|g ks r Hg Hr|p g part st cf cs ds ks q Hro Hq].
  - by eapply inv_frame.
  - apply (inv_epochs s); try done; [|by destruct ks|by destruct ks|].
    + eapply clock_ok_genesis; [apply Hs|done|exact Hr|]. by apply next_number_valid.
    + apply (finalize_epochs s). apply genesis_unresolved; [apply Hs|done].
  - assert (rollover_packet s (Message.Event (MkEventLog (MkEventBlock b 0) 0 0
      (Event.Coordinator (Coordinator.KeyGenConfirmedEvent ev)))) = Some q) as Hrp
      by (unfold rollover_packet; rewrite Hro; simpl; by rewrite Hq).
    pose proof Hs as [Hc Hss Hi].
    destruct (epochs s !! active_epoch s) as [pe|] eqn:Epe.
    2: { apply (inv_epochs s); try done. apply (clock_ok_confirmed s p g part st cf cs ds); try done;
         [by rewrite Hq|auto]. }
    assert (signing s !! packet_message q = None) as Hnone.
    { destruct (signing s !! packet_message q) as [x|] eqn:Ex; [|done]. exfalso.
      pose proof (so_key _ _ _ (Hss _ _ Ex)) as Hk.
      pose proof (Hno q _ x Hrp Ex (eq_sym Hk)) as Hpe. rewrite Hq in Hpe. simpl in Hpe.
      destruct (packet x) as [a p' rb gi gk|] eqn:Ep; [|done]. simpl in Hpe. simplify_eq.
      destruct (ck_rollovers _ Hc _ x a p rb gi gk Ex Ep) as [_ Hbh]. rewrite Hro in Hbh.
      unfold behind, target in Hbh. simpl in Hbh. destruct Hbh as [?|[_ [?|[? _]]]]; [lia|done..]. }
    split.
    + apply (clock_ok_confirmed s p g part st cf cs ds); try done; [by rewrite Hq|].
      intros k x [[<- <-]|[_ Hx]]%lookup_insert_Some; [by left|by right].
    + simpl. intros k x [[<- <-]|[_ Hx]]%lookup_insert_Some; [|by apply Hss].
      split; simpl; try done.
      * exists pe. split; [by rewrite Hq|]. by intros ? ? [= <- <-].
      * by rewrite Hq.
    + intros sid k Hk. simpl in *. destruct (Hi sid k Hk) as (z & Hz & Hzs). exists z.
      split; [|done]. rewrite lookup_insert_ne; [done|]. congruence.
Qed.

(** ** Every transition keeps the invariant *)

Lemma apply_new_block_inv s b :
  config_ok config -> is_u64 b -> inv s -> inv (apply_new_block s b).1.
Proof.
  intros Hcfg Hb Hs. unfold apply_new_block.
  pose proof (handle_rollover_new_block_inv s b Hcfg Hb Hs) as H1.
  destruct (handle_rollover_new_block s b) as [s1 c1].
  pose proof (inv_frame _ _ (key_gen_timeouts_frame s1 b) H1) as H2.
  destruct (handle_key_gen_timeouts s1 b) as [s2 c2].
  pose proof (handle_signing_timeouts_inv s2 b H2) as H3.
  destruct (handle_signing_timeouts s2 b) as [s3 c3].
  pose proof (handle_group_reconciliation_inv s3 b H3) as H4.
  by destruct (handle_group_reconciliation s3 b) as [s4 c4].
Qed.

Lemma apply_resume_inv s r : inv s -> inv (apply_resume s r).1.
Proof.
  intros Hs. destruct r as [|g k|sid n|m n]; simpl; [done| | |].
  - eapply inv_frame; [apply key_gen_setup_frame|done].
  - by rewrite handle_nonce_commitments_state.
  - by rewrite handle_nonces_state.
Qed.

Lemma transition_inv s m : config_ok config -> admissible s m -> inv s -> inv (apply_transition s m).1.
Proof.
  intros Hcfg [Hwf Hno] Hs. destruct m as [b|log|r].
  - by apply apply_new_block_inv.
  - destruct log as [[b t] i a data]. destruct Hwf as [Hb Hwf].
    destruct data as [ev|ev|ev]; simpl in *.
    + destruct ev; try done.
      * by apply handle_epoch_staged_inv.
      * by apply handle_transaction_proposed_inv.
      * by apply handle_sign_attested_inv.
    + destruct ev; simpl.
      * eapply inv_frame; [apply genesis_key_gen_frame|done].
      * eapply inv_frame; [apply key_gen_committed_frame|done].
      * eapply inv_frame; [apply key_gen_secret_shared_frame|done].
      * apply handle_key_gen_confirmed_inv; try done.
      * eapply inv_frame; [apply key_gen_complained_frame|done].
      * eapply inv_frame; [apply key_gen_complaint_responded_frame|done].
      * by apply handle_sign_inv.
      * by apply handle_sign_committed_nonces_inv.
      * by apply handle_sign_shared_inv.
      * by apply handle_sign_completed_inv.
    + by apply handle_oracle_result_inv.
  - by apply apply_resume_inv.
Qed.

Lemma reachable_inv s : config_ok config -> reachable s -> inv s.
Proof.
  intros Hcfg Hr. induction Hr as [|s m _ IH Hm]; [apply inv_default|]. by apply transition_inv.
Qed.

(** ** The index misses no session

    The coordinator gives a signature id to one signing request only: none that is
    still tracked comes with another. *)
Definition untracked (s : State) (m : Message.t Event.t Resume.t) : Prop :=
  match m with
  | Message.Event log =>
      match log_data log with
      | Event.Coordinator (Coordinator.SignEvent ev) => signature_id_to_message s !! Coordinator.sg_sid ev = None
      | _ => True
      end
  | _ => True
  end.

(** The states of a validator whose coordinator does so. *)
Inductive traced : State -> Prop :=
| traced_default : traced default_state
| traced_step s m : traced s -> admissible s m -> untracked s m -> traced (apply_transition s m).1.

(** A session with a signature id is found under it. *)
Definition index_full (s : State) : Prop :=
  forall m x sid, signing s !! m = Some x -> signature_id x = Some sid -> signature_id_to_message s !! sid = Some m.

Lemma index_full_same s s' :
  signing s' = signing s -> signature_id_to_message s' = signature_id_to_message s -> index_full s -> index_full s'.
Proof. unfold index_full. by intros -> ->. Qed.

Lemma index_full_frame s s' : frame s s' -> index_full s -> index_full s'.
Proof. intros [_ _ _ Hs Hi]. by apply index_full_same. Qed.

Lemma index_full_put s m x y :
  signing s !! m = Some x -> signature_id y = signature_id x -> index_full s -> index_full (put_session s m y).
Proof.
  intros Hx Hy Hf k z sid. simpl. intros [[<- <-]|[_ Hz]]%lookup_insert_Some Hsid; [|by eapply Hf].
  apply (Hf _ x); [done|congruence].
Qed.

Lemma index_full_open s m y sid :
  signature_id y = Some sid -> signature_id_to_message s !! sid = None -> index_full s ->
  index_full (link (put_session s m y) sid m).
Proof.
  intros Hy Hn Hf k z sid'. simpl. intros [[<- <-]|[Hne Hz]]%lookup_insert_Some Hsid.
  - rewrite Hy in Hsid. injection Hsid as <-. apply lookup_insert_eq.
  - pose proof (Hf _ _ _ Hz Hsid) as Hk. rewrite lookup_insert_ne; [done|]. intros <-. congruence.
Qed.

Lemma index_full_drop s m x : signing s !! m = Some x -> index_full s -> index_full (drop_session s m x).
Proof.
  intros Hx Hf k z sid Hz Hsid.
  assert (signing s !! k = Some z /\ m <> k) as [Hz' Hne]
    by (unfold drop_session in Hz; destruct (signature_id x); simpl in Hz; by apply lookup_delete_Some in Hz as [? ?]).
  pose proof (Hf _ _ _ Hz' Hsid) as Hk. unfold drop_session. destruct (signature_id x) as [sid'|] eqn:Ex; [|done].
  simpl. rewrite lookup_delete_ne; [done|]. intros ->. pose proof (Hf _ _ _ Hx Ex). congruence.
Qed.

Lemma index_full_new s m y : signature_id y = None -> index_full s -> index_full (put_session s m y).
Proof. intros Hy Hf k z sid. simpl. intros [[<- <-]|[_ Hz]]%lookup_insert_Some Hsid; [congruence|by eapply Hf]. Qed.

Lemma index_full_attested s sid m : index_full s -> index_full (handle_sign_attested s sid m).1.
Proof.
  intros Hf. unfold handle_sign_attested. destruct (signing s !! m) as [x|] eqn:E; simpl.
  - apply (index_full_drop s m x E Hf).
  - by replace (with_signing s _) with s by (rewrite delete_id by done; by destruct s).
Qed.

Lemma index_full_timeouts s b : inv s -> index_full s -> index_full (handle_signing_timeouts s b).1.
Proof.
  intros [_ Hs _] Hf m y sid Hy Hsid. rewrite timeouts_session in Hy. apply bind_Some in Hy as (x & Hx & Hy).
  assert (forall k z, signing s !! k = Some z ->
    (time_out_session b k z).1.2 = None \/ (time_out_session b k z).1.2 = signature_id z) as Hout.
  { intros k z Hz. pose proof (time_out_session_spec b k z (so_stage _ _ _ (Hs k z Hz))) as Hsp.
    destruct (time_out_session b k z) as [[[z'|] i] cs]; simpl; [tauto|by right]. }
  assert (signature_id x = Some sid /\ (time_out_session b m x).1.2 = None) as [Hxs Hxi].
  { pose proof (time_out_session_spec b m x (so_stage _ _ _ (Hs m x Hx))) as Hsp.
    destruct (time_out_session b m x) as [[[y'|] i] cs]; simplify_eq/=.
    destruct Hsp as (_ & _ & _ & [[-> He]|[He _]]); [by rewrite <- He|congruence]. }
  apply timeouts_index. split; [by eapply Hf|]. intros k z Hz Hi. destruct (Hout k z Hz) as [Hn|Hn]; [congruence|].
  rewrite Hi in Hn. pose proof (Hf _ _ _ Hz (eq_sym Hn)) as H1. pose proof (Hf _ _ _ Hx Hxs) as H2.
  rewrite H1 in H2. injection H2 as ->. assert (z = x) as -> by congruence. congruence.
Qed.

Lemma index_full_new_block s b :
  config_ok config -> is_u64 b -> inv s -> index_full s -> index_full (apply_new_block s b).1.
Proof.
  intros Hcfg Hb Hs Hf. unfold apply_new_block.
  pose proof (handle_rollover_new_block_inv s b Hcfg Hb Hs) as I1.
  assert (index_full (handle_rollover_new_block s b).1) as F1.
  { destruct (handle_rollover_new_block_spec s b) as [|n r _ _ _]; [done|]. by destruct (rollover s). }
  destruct (handle_rollover_new_block s b) as [s1 c1]. cbn [fst] in *.
  pose proof (inv_frame _ _ (key_gen_timeouts_frame s1 b) I1) as I2.
  pose proof (index_full_frame _ _ (key_gen_timeouts_frame s1 b) F1) as F2.
  destruct (handle_key_gen_timeouts s1 b) as [s2 c2]. cbn [fst] in *.
  pose proof (index_full_timeouts s2 b I2 F2) as F3.
  by destruct (handle_signing_timeouts s2 b) as [s3 c3].
Qed.

Lemma index_full_confirmed s b ev : index_full s -> index_full (handle_key_gen_confirmed s b ev).1.
Proof.
  intros Hf. destruct (handle_key_gen_confirmed_spec s b ev) as [s' Hs|g ks r _ _|p g part st cf cs ds ks q _ _].
  - by eapply index_full_frame.
  - by destruct ks.
  - destruct (epochs s !! active_epoch s) as [pe|]; [|done].
    by apply (index_full_new s (packet_message q) (rollover_session pe (Coordinator.kf_participant ev) q b)).
Qed.

Lemma index_full_staged s ev :
  is_u64 (Consensus.es_proposedEpoch ev) -> index_full s -> index_full (handle_epoch_staged s ev).1.
Proof.
  intros Hn Hf. destruct (handle_epoch_staged_spec s ev Hn) as [|n g ks message s' _ ->|n r _ _ _]; try done.
  apply index_full_attested. by destruct ks.
Qed.

Lemma index_full_sign s b ev :
  signature_id_to_message s !! Coordinator.sg_sid ev = None -> index_full s -> index_full (handle_sign s b ev).1.
Proof.
  intros Hun Hf. unfold handle_sign.
  destruct (signing s !! Coordinator.sg_message ev) as [[ks g r p a sg d| | | |]|]; try done.
  case_decide; [|done]. destruct p as [|e o dt t]; [|destruct a]; by apply index_full_open.
Qed.

Lemma index_full_session_event s b o :
  index_full s ->
  (forall ev, index_full (handle_transaction_proposed s b ev).1) /\
  (forall ev, index_full (handle_sign_committed_nonces s b ev).1) /\
  (forall ev, index_full (handle_sign_shared s ev).1) /\
  (forall ev, index_full (handle_sign_completed s b ev).1) /\
  (forall ev, index_full (handle_oracle_result s b o ev).1).
Proof.
  intros Hf. split_and!; intros ev.
  - unfold handle_transaction_proposed. destruct (epochs s !! _); [|done]. case_decide; [done|].
    destruct (signing s !! _); [done|]. by apply index_full_new.
  - unfold handle_sign_committed_nonces. destruct (signature_id_to_message s !! _) as [m'|]; [|done].
    destruct (signing s !! m') as [[]|] eqn:E; try done. case_decide; by eapply index_full_put.
  - unfold handle_sign_shared. destruct (signature_id_to_message s !! _) as [m'|]; [|done].
    destruct (signing s !! m') as [[]|] eqn:E; try done. by eapply index_full_put.
  - unfold handle_sign_completed. destruct (signature_id_to_message s !! _) as [m'|]; [|done].
    destruct (signing s !! m') as [[]|] eqn:E; try done. by eapply index_full_put.
  - unfold handle_oracle_result. destruct (signing s !! Oracle.or_requestId ev) as [[]|] eqn:E; try done.
    case_decide; [|done]. destruct (Oracle.or_approved ev); [by eapply index_full_put|].
    apply (index_full_drop s _ _ E Hf).
Qed.

Lemma index_full_resume s r : index_full s -> index_full (apply_resume s r).1.
Proof.
  intros Hf. destruct r as [|g k|sid n|m n]; simpl; [done| | |].
  - eapply index_full_frame; [apply key_gen_setup_frame|done].
  - by rewrite handle_nonce_commitments_state.
  - by rewrite handle_nonces_state.
Qed.

Lemma transition_full s m :
  config_ok config -> wf_message m -> untracked s m -> inv s -> index_full s -> index_full (apply_transition s m).1.
Proof.
  intros Hcfg Hwf Hun Hs Hf. destruct m as [b|[[b t] i a data]|r]; [by apply index_full_new_block| |].
  - destruct Hwf as [Hb Hwf]. destruct data as [ev|ev|ev]; [destruct ev|destruct ev|]; simpl in *;
      try done; try (by apply index_full_session_event).
    + by apply index_full_staged.
    + by apply (index_full_attested s (Consensus.ta_signatureId e)).
    + eapply index_full_frame; [apply genesis_key_gen_frame|done].
    + eapply index_full_frame; [apply key_gen_committed_frame|done].
    + eapply index_full_frame; [apply key_gen_secret_shared_frame|done].
    + by apply index_full_confirmed.
    + eapply index_full_frame; [apply key_gen_complained_frame|done].
    + eapply index_full_frame; [apply key_gen_complaint_responded_frame|done].
    + by apply index_full_sign.
  - by apply index_full_resume.
Qed.

Lemma traced_full s : config_ok config -> traced s -> reachable s /\ index_full s.
Proof.
  intros Hcfg Ht. induction Ht as [|s m _ [Hr Hf] Hm Hu]; [by split; [constructor|intros ? ? ?]|].
  split; [by apply reachable_step|]. apply transition_full; [done|apply Hm|done|by apply reachable_inv|done].
Qed.

End Sessions.
