(* ===== verification/Gate.v ===== *)
(** The oracle gate: over any history of messages, the validator releases key
    material for a transaction (nonces, a signature share, an attestation) only
    once the transaction's own oracle, one of those allowed, approved it. *)

From S2P Require Import Prelude Keccak Epoch Group Bindings FrostLib Frost Hashing Secrets.
From S2P Require Import Messages Service State KeyGen Signing Validator Clock Sessions.

Section Gate.
Context {KEC : Keccak} {FL : FrostLib} {EIP : Eip712} {ABI : Abi} {TR : Transition}.

Abbreviation Message := (Message.t Event.t Resume.t).
Abbreviation Commands := (list (Command.t Action.t Effect.t)).

(** The oracle [o] approved the request [m] in one message. *)
Definition approves (msg : Message) (o m : Z) : Prop :=
  match msg with
  | Message.Event log =>
      match log_data log with
      | Event.Oracle ev =>
          log_address log = o /\ Oracle.or_requestId ev = m /\ Oracle.or_approved ev = true
      | _ => False
      end
  | _ => False
  end.

(** [o] approved [m] somewhere in a history. *)
Definition approved_in (h : list Message) (o m : Z) : Prop :=
  exists msg, msg ∈ h /\ approves msg o m.

(** The packet is the one hashed into [m], and its oracle is allowed. *)
Definition allowed (m : Z) (p : Packet) : Prop :=
  m = packet_message p /\
  match p with PacketTransaction _ oracle _ _ => oracle ∈ oracles config | _ => True end.

(** What a packet needs to be signed under [m]: its oracle approved [m]. *)
Definition cleared (A : Z -> Z -> Prop) (m : Z) (p : Packet) : Prop :=
  allowed m p /\
  match p with PacketTransaction _ oracle _ _ => A oracle m | EpochRollover _ _ _ _ _ => True end.

(** A session past its request, and past its oracle, is cleared. *)
Definition session_gated (A : Z -> Z -> Prop) (m : Z) (x : SigningState) : Prop :=
  match x with
  | WaitingForRequest _ _ _ p approved _ _ => allowed m p /\ (approved = true -> cleared A m p)
  | WaitingForOracle _ oracle _ _ p _ _ =>
      exists e d t, p = PacketTransaction e oracle d t /\ allowed m p
  | CollectNonceCommitments _ _ _ _ p _ _ | CollectSigningShares _ _ _ _ _ p _ _
  | WaitingForAttestation _ p _ => cleared A m p
  end.

Definition gated (A : Z -> Z -> Prop) (s : State) : Prop :=
  forall m x, signing s !! m = Some x -> session_gated A m x.

Lemma cleared_mono (A B : Z -> Z -> Prop) m p :
  (forall o k, A o k -> B o k) -> cleared A m p -> cleared B m p.
Proof. intros H [Hal Hp]. split; [done|]. destruct p; [done|]. by apply H. Qed.

Lemma gated_mono (A B : Z -> Z -> Prop) s :
  (forall o k, A o k -> B o k) -> gated A s -> gated B s.
Proof.
  intros H Hg m x Hx. specialize (Hg m x Hx).
  destruct x; simpl in *; try (by eapply cleared_mono).
  - destruct Hg as [? Hc]. split; [done|]. intros Ha. eapply cleared_mono; eauto.
  - done.
Qed.

Lemma gated_frame A s s' : frame s s' -> gated A s -> gated A s'.
Proof. intros [_ _ _ Hs _] Hg m x. rewrite Hs. apply Hg. Qed.

Lemma gated_put A s m y : gated A s -> session_gated A m y -> gated A (put_session s m y).
Proof. intros Hg Hy k x. simpl. intros [[<- <-]|[_ Hx]]%lookup_insert_Some; [done|by apply Hg]. Qed.

(** Fewer sessions are still gated. *)
Lemma gated_sub A s s' :
  (forall m x, signing s' !! m = Some x -> signing s !! m = Some x) -> gated A s -> gated A s'.
Proof. intros H Hg m x Hx. apply Hg. by apply H. Qed.

Lemma session_gated_allowed A m x : session_gated A m x -> allowed m (packet x).
Proof. destruct x; simpl; [by intros []|by intros (? & ? & ? & -> & ?)|by intros []..]. Qed.

(** ** The handlers *)

Lemma handle_sign_gated A s b ev : gated A s -> gated A (handle_sign s b ev).1.
Proof.
  intros Hg. unfold handle_sign.
  destruct (signing s !! Coordinator.sg_message ev) as [[ks g r p a sg d| | | |]|] eqn:E; try done.
  case_decide; [|done]. pose proof (Hg _ _ E) as [Hal Hcl].
  destruct p as [|e o dt t]; [by apply gated_put|]. destruct a.
  - apply gated_put; [done|]. by apply Hcl.
  - apply gated_put; [done|]. by exists e, dt, t.
Qed.

Lemma handle_oracle_result_gated A s b o ev :
  gated A s -> (Oracle.or_approved ev = true -> A o (Oracle.or_requestId ev)) ->
  gated A (handle_oracle_result s b o ev).1.
Proof.
  intros Hg Ha. unfold handle_oracle_result.
  destruct (signing s !! Oracle.or_requestId ev) as [[|ks o' g sid p sg d| | |]|] eqn:E; try done.
  case_decide as Ho; [|done]. subst o'. destruct (Oracle.or_approved ev).
  - apply gated_put; [done|]. pose proof (Hg _ _ E) as (e & dt & t & -> & Hin). split; [done|]. by apply Ha.
  - eapply gated_sub; [|exact Hg]. simpl. by intros m x [_ ?]%lookup_delete_Some.
Qed.

Lemma handle_sign_attested_gated A s sid m : gated A s -> gated A (handle_sign_attested s sid m).1.
Proof.
  intros Hg. eapply gated_sub; [|exact Hg]. unfold handle_sign_attested.
  destruct (signing s !! m ≫= signature_id); simpl; by intros k x [_ ?]%lookup_delete_Some.
Qed.

Lemma handle_sign_committed_nonces_gated A s b ev :
  gated A s -> gated A (handle_sign_committed_nonces s b ev).1.
Proof.
  intros Hg. unfold handle_sign_committed_nonces.
  destruct (signature_id_to_message s !! _) as [m|]; [|done].
  destruct (signing s !! m) as [[| |ks g sid cm p sg d| |]|] eqn:E; try done.
  case_decide; apply gated_put; try done; apply (Hg _ _ E).
Qed.

Lemma handle_sign_shared_gated A s ev : gated A s -> gated A (handle_sign_shared s ev).1.
Proof.
  intros Hg. unfold handle_sign_shared.
  destruct (signature_id_to_message s !! _) as [m|]; [|done].
  destruct (signing s !! m) as [[| | |ks g sid cm sl p sg d|]|] eqn:E; try done.
  apply gated_put; [done|]. apply (Hg _ _ E).
Qed.

Lemma handle_sign_completed_gated A s b ev : gated A s -> gated A (handle_sign_completed s b ev).1.
Proof.
  intros Hg. unfold handle_sign_completed.
  destruct (signature_id_to_message s !! _) as [m|]; [|done].
  destruct (signing s !! m) as [[| | |ks g sid cm sl p sg d|]|] eqn:E; try done.
  apply gated_put; [done|]. apply (Hg _ _ E).
Qed.

Lemma handle_transaction_proposed_gated A s b ev :
  gated A s -> gated A (handle_transaction_proposed s b ev).1.
Proof.
  intros Hg. unfold handle_transaction_proposed.
  destruct (epochs s !! _) as [pe|]; [|done]. case_decide as Ho; [done|].
  destruct (signing s !! _); [done|]. apply gated_put; [done|]. split; [|done].
  split; [done|]. by destruct (decide (Consensus.tp_oracle ev ∈ oracles config)).
Qed.

Lemma time_out_session_gated A b m x :
  session_gated A m x ->
  match (time_out_session b m x).1.1 with Some y => session_gated A m y | None => True end.
Proof.
  intros Hg. unfold time_out_session. case_decide; [done|].
  destruct x as [ks g [r|] p a sg d| |ks g sid cm p sg d|ks g sid cm sl p sg d|sid p d];
    simpl in *; try done; case_decide; try done.
  by split; [destruct Hg|].
Qed.

Lemma handle_signing_timeouts_gated A s b : gated A s -> gated A (handle_signing_timeouts s b).1.
Proof.
  intros Hg m y. rewrite timeouts_session. intros (x & Hx & Hy)%bind_Some.
  pose proof (time_out_session_gated A b m x (Hg m x Hx)) as H. by rewrite Hy in H.
Qed.

Lemma handle_epoch_staged_gated A s ev : gated A s -> gated A (handle_epoch_staged s ev).1.
Proof.
  intros Hg. unfold handle_epoch_staged. destruct (rollover s); try done.
  case_decide; [|done]. apply handle_sign_attested_gated. by destruct key_share.
Qed.

Lemma handle_key_gen_confirmed_gated A s b ev :
  gated A s -> gated A (handle_key_gen_confirmed s b ev).1.
Proof.
  intros Hg. destruct (handle_key_gen_confirmed_spec s b ev) as [s' Hf|g ks r Hgen Hr|p g part st cf cs ds ks q Hro Hq].
  - by eapply gated_frame.
  - by destruct ks.
  - destruct (epochs s !! active_epoch s); [|done].
    apply (gated_put A s); [done|]. split; [|done]. split; [done|]. by rewrite Hq.
Qed.

Lemma handle_rollover_new_block_gated A s b :
  gated A s -> gated A (handle_rollover_new_block s b).1.
Proof.
  intros Hg. destruct (handle_rollover_new_block_spec s b) as [|n r]; [done|].
  by destruct (rollover s).
Qed.

Lemma apply_new_block_gated A s b : gated A s -> gated A (apply_new_block s b).1.
Proof.
  intros Hg. unfold apply_new_block.
  pose proof (handle_rollover_new_block_gated A s b Hg) as H1.
  destruct (handle_rollover_new_block s b) as [s1 c1].
  pose proof (gated_frame A _ _ (key_gen_timeouts_frame s1 b) H1) as H2.
  destruct (handle_key_gen_timeouts s1 b) as [s2 c2].
  pose proof (handle_signing_timeouts_gated A s2 b H2) as H3.
  by destruct (handle_signing_timeouts s2 b) as [s3 c3].
Qed.

Lemma transition_gated (A : Z -> Z -> Prop) s msg :
  (forall o m, approves msg o m -> A o m) -> gated A s -> gated A (apply_transition s msg).1.
Proof.
  intros Ha Hg. destruct msg as [b|[[b t] i a data]|r].
  - by apply apply_new_block_gated.
  - destruct data as [ev|ev|ev]; simpl in *.
    + destruct ev; try done.
      * by apply handle_epoch_staged_gated.
      * by apply handle_transaction_proposed_gated.
      * by apply handle_sign_attested_gated.
    + destruct ev; simpl.
      * eapply gated_frame; [apply genesis_key_gen_frame|done].
      * eapply gated_frame; [apply key_gen_committed_frame|done].
      * eapply gated_frame; [apply key_gen_secret_shared_frame|done].
      * by apply handle_key_gen_confirmed_gated.
      * eapply gated_frame; [apply key_gen_complained_frame|done].
      * eapply gated_frame; [apply key_gen_complaint_responded_frame|done].
      * by apply handle_sign_gated.
      * by apply handle_sign_committed_nonces_gated.
      * by apply handle_sign_shared_gated.
      * by apply handle_sign_completed_gated.
    + apply handle_oracle_result_gated; auto.
  - destruct r as [|g k|sid n|m n]; [done| | |].
    + eapply gated_frame; [apply key_gen_setup_frame|done].
    + change (gated A (handle_nonce_commitments s sid n).1).
      by rewrite handle_nonce_commitments_state.
    + change (gated A (handle_nonces s m n).1). by rewrite handle_nonces_state.
Qed.

(** After any history, every session past the gate was approved in it. *)
Lemma run_gated h : gated (approved_in h) (run default_state h).
Proof.
  induction h as [|msg h IH] using rev_ind; [done|]. rewrite run_app. apply (transition_gated (approved_in (h ++ [msg]))).
  - intros o m Hm. exists msg. split; [set_solver|done].
  - eapply gated_mono; [|exact IH]. intros o m (msg' & Hin & Hm). exists msg'.
    split; [set_solver|done].
Qed.

(** ** What is released *)

(** The commands that use or publish signing material. *)
Definition signs (c : Command.t Action.t Effect.t) : bool :=
  match c with
  | Command.Effect (Effect.GenerateNonces _ _ _) | Command.Effect (Effect.UseNonces _ _)
  | Command.Action (Action.CommitNonces _ _ _) | Command.Action (Action.SignShare _ _ _ _ _ _)
  | Command.Action (Action.AttestTransaction _ _ _ _ _ _ _ _) => true
  | _ => false
  end.

(** The session a command works for, in the state before or after it. *)
Definition works_for (s s' : State) (c : Command.t Action.t Effect.t) (m : Z) (p : Packet) : Prop :=
  match c with
  | Command.Effect (Effect.GenerateNonces g sid ks) =>
      exists cm sg d, signing s' !! m = Some (CollectNonceCommitments ks g sid cm p sg d)
  | Command.Effect (Effect.UseNonces m' sid) =>
      m' = m /\ exists ks g cm sl sg d,
        signing s' !! m = Some (CollectSigningShares ks g sid cm sl p sg d)
  | Command.Action (Action.CommitNonces sid _ d) =>
      exists ks g cm sg, signing s !! m = Some (CollectNonceCommitments ks g sid cm p sg d)
  | Command.Action (Action.SignShare sid _ _ _ callback d) =>
      callback = attestation_callback p (cfg_consensus config) /\
      exists ks g cm sl sg, signing s !! m = Some (CollectSigningShares ks g sid cm sl p sg d)
  | Command.Action (Action.AttestTransaction e o dh ch sf th sid d) =>
      attestation_action p sid d = Action.AttestTransaction e o dh ch sf th sid d /\
      exists d', signing s !! m = Some (WaitingForAttestation sid p d')
  | _ => False
  end.

Definition silent (cs : Commands) : Prop := Forall (fun c => signs c = false) cs.

Lemma silent_app cs cs' : silent cs -> silent cs' -> silent (cs ++ cs').
Proof. apply Forall_app_2. Qed.

Ltac silence := repeat first [constructor | done | split_match; simplify_eq/=].

Lemma start_key_gen_silent s e ps d : silent (start_key_gen s e ps d).2.
Proof.
  unfold start_key_gen. destruct (participate_as _ _) as [[g poap]|]; by repeat constructor.
Qed.

Lemma restart_key_gen_silent s e x d : silent (restart_key_gen_excluding s e x d).2.
Proof.
  unfold restart_key_gen_excluding. case_match; [apply start_key_gen_silent|constructor].
Qed.

Lemma finalize_commitments_silent e g k cm d : silent (finalize_key_gen_commitments e g k cm d).2.
Proof.
  unfold finalize_key_gen_commitments. destruct k as [k|]; simpl.
  - destruct (Keygen.generate_secret_shares k cm) as [[]|]; by repeat constructor.
  - destruct (Keygen.group_commitments cm); constructor.
Qed.

Lemma confirm_key_gen_silent e g sh shs ds st cs :
  confirm_key_gen e g sh shs ds = Ok (st, cs) -> silent cs.
Proof. unfold confirm_key_gen. intros. result_simpl. by repeat constructor. Qed.

Lemma silent_rollover s (rc : RolloverState * Commands) :
  silent rc.2 ->
  silent (let '(rollover, commands) := rc in (with_rollover s rollover, commands)).2.
Proof. by destruct rc. Qed.

Lemma key_gen_setup_silent s gid sec : silent (handle_key_gen_setup s gid sec).2.
Proof.
  unfold handle_key_gen_setup. rollover_cases s E; try constructor.
  destruct k as [poap [k|]|]; try constructor. case_decide; [|constructor]. branch_open.
  case_decide; [simpl; case_match; by repeat constructor|].
  pose proof (finalize_commitments_silent e g (Some sec) cm
    ((fun deadline => sat_add deadline (key_gen_timeout config)) <$> d)) as Hf.
  destruct (finalize_key_gen_commitments _ _ _ _ _) as [r cs]. simpl in *.
  apply silent_app; [case_match; by repeat constructor|done].
Qed.

Lemma key_gen_committed_silent s b ev : silent (handle_key_gen_committed s b ev).2.
Proof.
  unfold handle_key_gen_committed. rollover_cases s E; try constructor.
  case_decide; [|constructor]. branch_open. case_decide; [constructor|].
  destruct k as [poap [k|]|]; try constructor;
    apply silent_rollover, finalize_commitments_silent.
Qed.

Lemma key_gen_secret_shared_silent s b ev : silent (handle_key_gen_secret_shared s b ev).2.
Proof.
  unfold handle_key_gen_secret_shared. rollover_cases s E; try constructor.
  case_decide; [|constructor]. branch_open.
  destruct (match Keygen.verify_secret_share _ _ _ with Ok _ => _ | Err _ => _ end) as [sh' enc].
  assert (silent (match p with
    | Participating sharing_state =>
        match enc with
        | Some encrypted_shares =>
            match Keygen.verify_encrypted_secret_share sharing_state
                    (Coordinator.ks_participant ev) encrypted_shares with
            | Ok share => (<[Coordinator.ks_participant ev:=share]> shs, [])
            | Err _ => (shs, [Command.Action (Action.KeyGenComplain (id g)
                 (Coordinator.ks_participant ev) ((fun _ => key_gen_deadline b) <$> d))])
            end
        | None => (shs, [])
        end
    | Observing _ => (shs, [])
    end).2) as Hc by (repeat case_match; by repeat constructor).
  destruct (match p with Participating _ => _ | Observing _ => _ end) as [shs' cmds].
  case_decide; [done|]. destruct p; [|done]. case_decide; [|done].
  destruct (confirm_key_gen _ _ _ _ _) as [[st cs']|] eqn:Ec; [|constructor].
  simpl. apply silent_app; [done|]. by eapply confirm_key_gen_silent.
Qed.

Lemma key_gen_confirmed_silent s b ev : silent (handle_key_gen_confirmed s b ev).2.
Proof.
  unfold handle_key_gen_confirmed. rollover_cases s E; try constructor.
  case_decide; [|constructor]. branch_open. case_decide; [constructor|].
  destruct e; [|constructor]. case_match; [apply start_key_gen_silent|constructor].
Qed.

Lemma epoch_staged_silent s ev : silent (handle_epoch_staged s ev).2.
Proof.
  unfold handle_epoch_staged. rollover_cases s E; try constructor. case_decide; constructor.
Qed.

Lemma key_gen_complained_silent s b ev : silent (handle_key_gen_complained s b ev).2.
Proof.
  unfold handle_key_gen_complained.
  destruct (complained_fields _ _ _) as [[[[[[[e g] p] cs] rd] re] req]|]; [|constructor]. branch_open.
  case_decide; [apply restart_key_gen_silent|].
  destruct p; [|constructor]. case_decide; [|constructor]. case_match; by repeat constructor.
Qed.

Lemma confirm_collected_silent s : silent (confirm_collected s).2.
Proof.
  unfold confirm_collected. rollover_cases s E; try constructor.
  destruct p; [|constructor]. destruct st; try constructor. branch_open. case_decide; [|constructor].
  destruct (confirm_key_gen _ _ _ _ _) as [[st' cs']|] eqn:Ec; [|constructor].
  by eapply confirm_key_gen_silent.
Qed.

Lemma key_gen_complaint_responded_silent s b ev :
  silent (handle_key_gen_complaint_responded s b ev).2.
Proof.
  unfold handle_key_gen_complaint_responded.
  destruct (responded_fields _ _ _) as [[[[[[e g] p] shs] cs] d]|]; [|constructor]. branch_open.
  destruct (cs !! _); [|constructor]. case_decide; [|constructor].
  destruct (Keygen.verify_revealed_secret_share _ _ _ _); [|apply restart_key_gen_silent].
  apply confirm_collected_silent.
Qed.

Lemma rollover_new_block_silent s b : silent (handle_rollover_new_block s b).2.
Proof.
  unfold handle_rollover_new_block. case_match; [|constructor]. case_decide; [constructor|].
  case_match; [apply start_key_gen_silent|constructor].
Qed.

Lemma key_gen_timeouts_silent s b : silent (handle_key_gen_timeouts s b).2.
Proof.
  unfold handle_key_gen_timeouts. case_match; [constructor|].
  destruct (timed_out _ _) as [[e x]|]; [apply restart_key_gen_silent|constructor].
Qed.

(** ** Every signing command works for a session it finds *)

(** A step whose signing commands all work for a session. *)
Definition accounted (s : State) (r : State * Commands) : Prop :=
  forall c, c ∈ r.2 -> signs c = true -> exists m p, works_for s r.1 c m p.

Lemma accounted_silent s r : silent r.2 -> accounted s r.
Proof.
  intros Hs c Hc Hsg. eapply Forall_forall in Hs; [|exact Hc]. simpl in Hs. congruence.
Qed.

Lemma handle_sign_accounted s b ev : accounted s (handle_sign s b ev).
Proof.
  unfold handle_sign.
  destruct (signing s !! Coordinator.sg_message ev) as [[ks g r p a sg d| | | |]|] eqn:E;
    try (apply accounted_silent; constructor).
  case_decide; [|apply accounted_silent; constructor].
  destruct p as [|e o dt t]; [|destruct a; [|apply accounted_silent; constructor]];
    intros c Hc%list_elem_of_singleton Hsg; subst c; eexists _, _; simpl; rewrite lookup_insert_eq;
    by eauto.
Qed.

Lemma handle_nonce_commitments_accounted s sid n : accounted s (handle_nonce_commitments s sid n).
Proof.
  unfold handle_nonce_commitments.
  destruct (signature_id_to_message s !! sid) as [m|] eqn:Ei; simpl;
    [|apply accounted_silent; constructor].
  destruct (signing s !! m) as [[| |ks g sid' cm p sg d| |]|] eqn:E;
    try (apply accounted_silent; constructor).
  case_decide as Hd; [|apply accounted_silent; constructor]. subst sid'.
  intros c Hc%list_elem_of_singleton Hsg; subst c. exists m, p. simpl. by eauto.
Qed.

Lemma handle_oracle_result_accounted s b o ev : accounted s (handle_oracle_result s b o ev).
Proof.
  unfold handle_oracle_result.
  destruct (signing s !! Oracle.or_requestId ev) as [[|ks o' g sid p sg d| | |]|] eqn:E;
    try (apply accounted_silent; constructor).
  case_decide; [|apply accounted_silent; constructor].
  destruct (Oracle.or_approved ev); [|apply accounted_silent; constructor].
  intros c Hc%list_elem_of_singleton Hsg; subst c. eexists _, _. simpl. rewrite lookup_insert_eq.
  by eauto.
Qed.

Lemma handle_sign_committed_nonces_accounted s b ev :
  accounted s (handle_sign_committed_nonces s b ev).
Proof.
  unfold handle_sign_committed_nonces.
  destruct (signature_id_to_message s !! _) as [m|]; [|apply accounted_silent; constructor].
  destruct (signing s !! m) as [[| |ks g sid cm p sg d| |]|] eqn:E;
    try (apply accounted_silent; constructor).
  case_decide; [apply accounted_silent; constructor|].
  intros c Hc%list_elem_of_singleton Hsg; subst c. eexists m, _. simpl. rewrite lookup_insert_eq.
  split; [done|]. by eauto 10.
Qed.

Lemma handle_nonces_accounted s m n : accounted s (handle_nonces s m n).
Proof.
  unfold handle_nonces.
  destruct (signing s !! m) as [[| | |ks g sid cm sl p sg d|]|] eqn:E;
    try (apply accounted_silent; constructor).
  destruct (Sign.signature_share _ _ _ _) as [res|]; [|apply accounted_silent; constructor].
  intros c Hc%list_elem_of_singleton Hsg; subst c. exists m, p. simpl. split; [done|]. by eauto 10.
Qed.

Lemma time_out_session_accounted b m x c :
  c ∈ (time_out_session b m x).2 -> signs c = true ->
  (exists ks g sid cm p d, c = Command.Effect (Effect.UseNonces m sid) /\
     (time_out_session b m x).1.1 = Some (CollectSigningShares ks g sid cm ∅ p (dom cm) d)) \/
  (exists sid p d d', x = WaitingForAttestation sid p d /\
     c = Command.Action (attestation_action p sid d')).
Proof.
  unfold time_out_session. case_decide; [by intros ?%not_elem_of_nil|].
  destruct x as [ks g [r|] p a sg d| |ks g sid cm p sg d|ks g sid cm sl p sg d|sid p d];
    simpl; try (by intros ?%not_elem_of_nil).
  - case_decide; [by intros ?%not_elem_of_nil|].
    by intros ->%list_elem_of_singleton.
  - case_decide; [by intros ?%not_elem_of_nil|].
    intros ->%list_elem_of_singleton _. left. by eauto 10.
  - case_decide; [by intros ?%not_elem_of_nil|]. simpl. case_decide; [|by intros ?%not_elem_of_nil].
    by intros ->%list_elem_of_singleton.
  - intros ->%list_elem_of_singleton _. right. by eauto 10.
Qed.

Lemma handle_signing_timeouts_accounted s b : accounted s (handle_signing_timeouts s b).
Proof.
  intros c Hc Hsg. simpl in Hc. apply list_elem_of_join in Hc as (cs & Hcs & Hin).
  apply list_elem_of_fmap in Hin as (o & -> & Ho). apply list_elem_of_fmap in Ho as ([m x] & -> & Hx).
  apply elem_of_sorted_entries in Hx.
  destruct (time_out_session_accounted b m x c Hcs Hsg)
    as [(ks & g & sid & cm & p & d & -> & Hy)|(sid & p & d & d' & -> & ->)].
  - exists m, p. split; [done|]. rewrite timeouts_session, Hx. simpl. rewrite Hy. by eauto 10.
  - exists m, p. destruct p; [done|]. simpl. split; [done|]. eauto.
Qed.

Lemma works_for_signing s1 s1' s2 s2' c m p :
  signing s2 = signing s1 -> signing s2' = signing s1' ->
  works_for s1 s1' c m p -> works_for s2 s2' c m p.
Proof. intros H H'. destruct c as [[]|[]]; simpl; by rewrite ?H, ?H'. Qed.

Lemma rollover_new_block_signing s b : signing (handle_rollover_new_block s b).1 = signing s.
Proof.
  destruct (handle_rollover_new_block_spec s b) as [|n r]; [done|]. by destruct (rollover s).
Qed.

Lemma apply_new_block_accounted s b : accounted s (apply_new_block s b).
Proof.
  unfold apply_new_block.
  pose proof (rollover_new_block_silent s b) as C1.
  pose proof (rollover_new_block_signing s b) as S1.
  destruct (handle_rollover_new_block s b) as [s1 c1].
  pose proof (key_gen_timeouts_silent s1 b) as C2.
  pose proof (frame_signing _ _ (key_gen_timeouts_frame s1 b)) as S2.
  destruct (handle_key_gen_timeouts s1 b) as [s2 c2].
  pose proof (handle_signing_timeouts_accounted s2 b) as C3.
  destruct (handle_signing_timeouts s2 b) as [s3 c3].
  unfold silent in *. rewrite Forall_forall in C1, C2. cbn [fst snd] in *.
  intros c Hc Hsg. unfold handle_group_reconciliation in Hc. cbn [fst snd] in Hc.
  rewrite !elem_of_app, list_elem_of_singleton in Hc.
  destruct Hc as [Hc|[Hc|[Hc| ->]]];
    [by rewrite (C1 c Hc) in Hsg|by rewrite (C2 c Hc) in Hsg| |done].
  destruct (C3 c Hc Hsg) as (m & p & Hw). exists m, p.
  eapply works_for_signing; [| |exact Hw]; [congruence|done].
Qed.

Lemma transition_accounted s msg : accounted s (apply_transition s msg).
Proof.
  destruct msg as [b|[[b t] i a data]|r].
  - apply apply_new_block_accounted.
  - destruct data as [ev|ev|ev].
    + destruct ev as [ev|ev|ev|ev|ev]; try (apply accounted_silent; constructor).
      * apply accounted_silent, epoch_staged_silent.
      * apply accounted_silent. change (silent (handle_transaction_proposed s b ev).2).
        unfold handle_transaction_proposed. by repeat (case_match; try constructor).
    + destruct ev as [ev|ev|ev|ev|ev|ev|ev|ev|ev|ev].
      * apply accounted_silent. change (silent (handle_genesis_key_gen s ev).2).
        unfold handle_genesis_key_gen. rollover_cases s E; try constructor.
        case_decide; [constructor|apply start_key_gen_silent].
      * apply accounted_silent, key_gen_committed_silent.
      * apply accounted_silent, key_gen_secret_shared_silent.
      * apply accounted_silent, key_gen_confirmed_silent.
      * apply accounted_silent, key_gen_complained_silent.
      * apply accounted_silent, key_gen_complaint_responded_silent.
      * apply handle_sign_accounted.
      * apply handle_sign_committed_nonces_accounted.
      * apply accounted_silent. change (silent (handle_sign_shared s ev).2).
        unfold handle_sign_shared. by repeat (case_match; try constructor).
      * apply accounted_silent. change (silent (handle_sign_completed s b ev).2).
        unfold handle_sign_completed. by repeat (case_match; try constructor).
    + apply handle_oracle_result_accounted.
  - destruct r as [|g k|sid n|m n].
    + apply accounted_silent. constructor.
    + apply accounted_silent, key_gen_setup_silent.
    + apply handle_nonce_commitments_accounted.
    + apply handle_nonces_accounted.
Qed.

(** A command's session is gated by the history up to and including it. *)
Lemma works_for_cleared (A : Z -> Z -> Prop) s s' c m p :
  gated A s -> gated A s' -> works_for s s' c m p -> cleared A m p.
Proof.
  intros Hg Hg'. destruct c as [[]|[]]; simpl; try done.
  - intros (ks & g & cm & sg & Hx). apply (Hg _ _ Hx).
  - intros (_ & ks & g & cm & sl & sg & Hx). apply (Hg _ _ Hx).
  - intros (_ & d' & Hx). apply (Hg _ _ Hx).
  - intros (cm & sg & d & Hx). apply (Hg' _ _ Hx).
  - intros (_ & ks & g & cm & sl & sg & d & Hx). apply (Hg' _ _ Hx).
Qed.

(** What a message releases is accounted for by the history up to it. *)
Lemma signs_cleared (h : list Message) (msg : Message) c :
  c ∈ (apply_transition (run default_state h) msg).2 -> signs c = true ->
  exists m p,
    works_for (run default_state h) (run default_state (h ++ [msg])) c m p /\
    cleared (approved_in (h ++ [msg])) m p.
Proof.
  intros Hc Hs. destruct (transition_accounted _ _ _ Hc Hs) as (m & p & Hw).
  exists m, p. rewrite run_app. split; [done|].
  eapply works_for_cleared; [|apply (run_gated (h ++ [msg]))|rewrite run_app; exact Hw].
  eapply gated_mono; [|apply run_gated]. intros o k (x & Hin & Hx).
  exists x. split; [set_solver|done].
Qed.

End Gate.
