(* ===== verification/Rounds.v ===== *)
(** The invariant of the key generation rounds: which group is being generated,
    who took part so far and what complaints stand, for a contract that only
    accepts events of the group's participants. From it, restarts strictly
    shrink the group and the complaint counters never overflow. *)

From S2P Require Import Prelude Keccak Merkle Epoch Group Bindings FrostLib Frost Hashing.
From S2P Require Import Secrets Messages Service State KeyGen Signing Validator.

Section Rounds.
Context {KEC : Keccak} {FL : FrostLib} {EIP : Eip712} {ABI : Abi} {TR : Transition}.

Abbreviation Message := (Message.t Event.t Resume.t).

(** The configured genesis set is the one the service derived on startup. *)
Definition genesis_ok : Prop :=
  participants_set (cfg_participants config) (GroupEpoch.Genesis (genesis_salt config))
    = Some genesis.

(** The default participants of a numbered epoch. *)
Definition epoch_addresses (n : Z) : gset Z :=
  default_addresses (cfg_participants config) (GroupEpoch.Number (cfg_consensus config) n ∅).

(** [g] is the group the code derives for epoch [e], with its exclusions. *)
Definition group_for (e : EpochId.t) (g : Group) : Prop :=
  group_ok g /\
  match e with
  | EpochId.Genesis => g = group genesis
  | EpochId.Number n => participants g = epoch_addresses n ∖ excluded g
  end.

(** Complaints stay short of the threshold, so their [u16] counter is exact. *)
Definition complaints_ok (g : Group) (cs : gmap Z Complaint) : Prop :=
  forall a c, cs !! a = Some c ->
    a ∈ participants g /\ 0 <= total c < threshold g /\ Z.of_nat (size (unresponded c)) <= total c.

Definition rollover_ok (r : RolloverState) : Prop :=
  match r with
  | CollectingCommitments e g secrets cm _ =>
      group_for e g /\ dom cm ⊆ participants g /\
      (dom cm = participants g -> exists poap, secrets = CommitmentParticipating poap None)
  | CollectingShares e g _ shared _ cs _ =>
      group_for e g /\ shared ⊂ participants g /\ complaints_ok g cs
  | CollectingConfirmations e g _ _ confirmations cs _ =>
      group_for e g /\ confirmations ⊂ participants g /\ complaints_ok g cs
  | _ => True
  end.

(** The group a rollover state is generating. *)
Definition generating (r : RolloverState) : option Group :=
  match r with
  | CollectingCommitments _ g _ _ _ | CollectingShares _ g _ _ _ _ _
  | CollectingConfirmations _ g _ _ _ _ _ => Some g
  | _ => None
  end.

(** The coordinator only emits a group's events for its participants. *)
Definition contract_event (r : RolloverState) (ev : Coordinator.CoordinatorEvents) : Prop :=
  forall g, generating r = Some g ->
  match ev with
  | Coordinator.KeyGenCommittedEvent ev =>
      Coordinator.kc_gid ev = id g -> Coordinator.kc_participant ev ∈ participants g
  | Coordinator.KeyGenSecretSharedEvent ev =>
      Coordinator.ks_gid ev = id g -> Coordinator.ks_participant ev ∈ participants g
  | Coordinator.KeyGenConfirmedEvent ev =>
      Coordinator.kf_gid ev = id g -> Coordinator.kf_participant ev ∈ participants g
  | Coordinator.KeyGenComplainedEvent ev =>
      Coordinator.kp_gid ev = id g -> Coordinator.kp_accused ev ∈ participants g
  | _ => True
  end.

Definition contract_message (s : State) (m : Message) : Prop :=
  match m with
  | Message.Event log =>
      match log_data log with
      | Event.Coordinator ev => contract_event (rollover s) ev
      | _ => True
      end
  | _ => True
  end.

(** ** Groups *)

Lemma group_for_nonempty e g : group_for e g -> exists a, a ∈ participants g.
Proof.
  intros [Hg _]. destruct (decide (participants g = ∅)) as [He|Hne].
  - pose proof (ok_two _ Hg) as H2. rewrite (ok_count _ Hg), He, size_empty in H2. lia.
  - by apply set_choose_L in Hne.
Qed.

(** A full round is one as large as the group: the [u16] lengths are exact. *)
Lemma full_round e g (X : gset Z) :
  group_for e g -> X ⊆ participants g -> wrap_u16 (Z.of_nat (size X)) = count g <-> X = participants g.
Proof.
  intros [Hg _] HX. pose proof (subseteq_size_le _ _ HX) as Hsz.
  pose proof (ok_u16 _ Hg). pose proof (ok_count _ Hg) as Hc.
  rewrite wrap_u16_small by (unfold is_u16; lia). split.
  - intros Heq. apply subseteq_full; [done|]. lia.
  - intros ->. done.
Qed.

Lemma not_full_round e g (X : gset Z) :
  group_for e g -> X ⊆ participants g -> wrap_u16 (Z.of_nat (size X)) ≠ count g -> X ⊂ participants g.
Proof.
  intros Hg HX Hne. split; [done|]. intros Hsub. apply Hne. apply (full_round e); [done..|].
  set_solver.
Qed.

Lemma len_u16_dom {V} (m : gmap Z V) : len_u16 m = wrap_u16 (Z.of_nat (size (dom m))).
Proof. unfold len_u16. by rewrite size_dom. Qed.

Lemma empty_strict e g : group_for e g -> ∅ ⊂ participants g.
Proof. intros Hg. destruct (group_for_nonempty e g Hg) as [a Ha]. set_solver. Qed.

(** Sets built for a numbered epoch make its groups. *)
Lemma group_for_number n excl ps :
  participants_set (cfg_participants config) (GroupEpoch.Number (cfg_consensus config) n excl)
    = Some ps ->
  group_for (EpochId.Number n) (group ps) /\ excluded (group ps) = excl.
Proof.
  intros Hps. pose proof (group_ok_group _ _ _ Hps) as Hg.
  apply participants_set_Some in Hps as (-> & _ & _). by split; [split|].
Qed.

Lemma group_for_genesis : genesis_ok -> group_for EpochId.Genesis (group genesis).
Proof. intros Hg. split; [|done]. by eapply group_ok_group. Qed.

Lemma start_key_gen_ok s e ps d :
  group_for e (group ps) -> rollover_ok (rollover (start_key_gen s e ps d).1).
Proof.
  intros Hg. unfold start_key_gen.
  assert (dom (∅ : gmap Z Keygen.VerifiedCommitment) ⊂ participants (group ps)) as Hsub
    by (rewrite dom_empty_L; by eapply empty_strict).
  destruct (participate_as ps account) as [[g poap]|] eqn:E; simpl.
  - apply participate_as_Some in E as (_ & -> & _). split_and!; [done|set_solver|]. by eauto.
  - split_and!; [done|set_solver|]. intros Heq. rewrite Heq in Hsub. set_solver.
Qed.

Lemma rollover_failure_ok e : rollover_ok (rollover_failure e).
Proof. by destruct e. Qed.

Lemma restart_ok s e x d : rollover_ok (rollover (restart_key_gen_excluding s e x d).1).
Proof.
  unfold restart_key_gen_excluding. destruct e as [|n]; [done|].
  destruct (participants_set _ _) as [ps|] eqn:E; [|done].
  apply start_key_gen_ok. by apply (group_for_number n x).
Qed.

Lemma finalize_commitments_ok e g k cm d :
  group_for e g -> rollover_ok (finalize_key_gen_commitments e g k cm d).1.
Proof.
  intros Hg. unfold finalize_key_gen_commitments.
  assert (rollover_ok (rollover_failure e)) by apply rollover_failure_ok.
  destruct k as [k|]; simpl.
  - destruct (Keygen.generate_secret_shares k cm) as [[sh share]|]; simpl; [|done].
    split_and!; [done|by eapply empty_strict|done].
  - destruct (Keygen.group_commitments cm); simpl; [|done].
    split_and!; [done|by eapply empty_strict|done].
Qed.

(** ** The rounds *)

(** A branch that leaves the rollover as it was. *)
Ltac kept E Hr :=
  cbv iota beta;
  lazymatch goal with
  | |- rollover_ok (rollover (_, _).1) => solve [simpl; rewrite E; exact Hr]
  end.

Lemma genesis_key_gen_ok s ev :
  genesis_ok -> rollover_ok (rollover s) -> rollover_ok (rollover (handle_genesis_key_gen s ev).1).
Proof.
  intros Hg Hr. unfold handle_genesis_key_gen. rollover_cases s E; try kept E Hr.
  case_decide; [kept E Hr|]. by apply start_key_gen_ok, group_for_genesis.
Qed.

(** The handlers other than the key generation's leave the rollover alone. *)

Lemma key_gen_setup_ok s gid sec :
  rollover_ok (rollover s) -> rollover_ok (rollover (handle_key_gen_setup s gid sec).1).
Proof.
  intros Hr. unfold handle_key_gen_setup. rollover_cases s E; try kept E Hr.
  destruct k as [poap [k|]|]; try kept E Hr. case_decide; [|kept E Hr]. branch_open.
  destruct Hr as (Hg & Hcm & Hfull). rewrite len_u16_dom.
  case_decide as Hne.
  - simpl. split_and!; try done. intros Heq. exfalso. apply Hne.
    by apply (full_round e).
  - pose proof (finalize_commitments_ok e g (Some sec) cm
      ((fun deadline => sat_add deadline (key_gen_timeout config)) <$> d) Hg) as Hf.
    by destruct (finalize_key_gen_commitments _ _ _ _ _).
Qed.

Lemma key_gen_committed_ok s b ev :
  contract_event (rollover s) (Coordinator.KeyGenCommittedEvent ev) ->
  rollover_ok (rollover s) -> rollover_ok (rollover (handle_key_gen_committed s b ev).1).
Proof.
  intros Hct Hr. unfold handle_key_gen_committed. rollover_cases s E; try kept E Hr.
  case_decide as Hid; [|kept E Hr]. branch_open.
  specialize (Hct g eq_refl (eq_sym Hid)). destruct Hr as (Hg & Hcm & Hfull).
  set (cm' := match Keygen.verify_commitment _ _ with Ok _ => _ | Err _ => cm end).
  assert (dom cm' ⊆ participants g) as Hcm'.
  { subst cm'. case_match; [|done]. rewrite dom_insert_L. set_solver. }
  assert (forall o, rollover_ok (rollover (let '(rollover, commands) :=
      finalize_key_gen_commitments e g o cm' ((fun _ => key_gen_deadline b) <$> d) in
      (with_rollover s rollover, commands : list (Command.t Action.t Effect.t))).1)) as Hfin.
  { intros o. pose proof (finalize_commitments_ok e g o cm'
      ((fun _ => key_gen_deadline b) <$> d) Hg). by destruct (finalize_key_gen_commitments _ _ _ _ _). }
  rewrite len_u16_dom. case_decide as Hne.
  - simpl. split_and!; try done. intros Heq. exfalso. apply Hne. by apply (full_round e).
  - destruct k as [poap [k|]|]; [apply Hfin| |apply Hfin]. simpl. split_and!; try done. eauto.
Qed.

Lemma key_gen_secret_shared_ok s b ev :
  contract_event (rollover s) (Coordinator.KeyGenSecretSharedEvent ev) ->
  rollover_ok (rollover s) -> rollover_ok (rollover (handle_key_gen_secret_shared s b ev).1).
Proof.
  intros Hct Hr. unfold handle_key_gen_secret_shared. rollover_cases s E; try kept E Hr.
  case_decide as Hid; [|kept E Hr]. branch_open.
  specialize (Hct g eq_refl (eq_sym Hid)). destruct Hr as (Hg & [Hsh _] & Hcs).
  assert (exists sh' enc, match Keygen.verify_secret_share (group_commitments p)
      (Coordinator.ks_participant ev) (Coordinator.ks_share ev) with
    | Ok encrypted_shares => (sh ∪ {[Coordinator.ks_participant ev]}, Some encrypted_shares)
    | Err _ => (sh, None) end = (sh', enc) /\ sh' ⊆ participants g) as (sh' & enc & -> & Hsh').
  { case_match; eexists _, _; (split; [done|set_solver]). }
  destruct (match p with Participating _ => _ | Observing _ => _ end) as [shs' cmds].
  unfold set_len_u16. case_decide as Hne.
  { simpl. split_and!; [done|by eapply not_full_round|done]. }
  assert (∅ ⊂ participants g) as Hemp by (by eapply empty_strict).
  destruct p; [|done]. case_decide; [|done].
  destruct (confirm_key_gen _ _ _ _ _) as [[st cs']|]; [done|]. apply rollover_failure_ok.
Qed.

Lemma key_gen_confirmed_ok s b ev :
  contract_event (rollover s) (Coordinator.KeyGenConfirmedEvent ev) ->
  rollover_ok (rollover s) -> rollover_ok (rollover (handle_key_gen_confirmed s b ev).1).
Proof.
  intros Hct Hr. unfold handle_key_gen_confirmed. rollover_cases s E; try kept E Hr.
  case_decide as Hid; [|kept E Hr]. branch_open.
  specialize (Hct g eq_refl (eq_sym Hid)). destruct Hr as (Hg & [Hcf _] & Hcs).
  unfold set_len_u16. case_decide as Hne.
  { simpl. split_and!; [done|eapply not_full_round; [done|set_solver|done]|done]. }
  destruct e as [|n]; [|done].
  destruct (participants_set _ _) as [ps|] eqn:Eps.
  - apply start_key_gen_ok. by apply (group_for_number _ ∅).
  - by destruct (confirmed_key_share st).
Qed.

Lemma epoch_staged_ok s ev :
  rollover_ok (rollover s) -> rollover_ok (rollover (handle_epoch_staged s ev).1).
Proof.
  intros Hr. unfold handle_epoch_staged. rollover_cases s E; try kept E Hr.
  - simpl. by case_decide.
  - case_decide; [|kept E Hr]. unfold handle_sign_attested.
    destruct k; simpl; by destruct (signing s !! msg ≫= signature_id).
Qed.

(** The complaint counter is exact: short of the threshold, it cannot wrap. *)
Lemma count_complaint_exact g cs accused plaintiff req :
  group_ok g -> complaints_ok g cs -> accused ∈ participants g ->
  let c := count_complaint cs accused plaintiff req in
  total c = total (default default_complaint (cs !! accused)) + 1 /\
  Z.of_nat (size (unresponded c)) <= total c.
Proof.
  intros Hg Hcs Ha. pose proof (group_threshold_range _ Hg) as Ht. pose proof (ok_u16 _ Hg) as Hu.
  unfold count_complaint.
  assert (0 <= total (default default_complaint (cs !! accused)) < threshold g /\
    Z.of_nat (size (unresponded (default default_complaint (cs !! accused))))
      <= total (default default_complaint (cs !! accused))) as [Hb Hs].
  { destruct (cs !! accused) as [c|] eqn:E; [by apply (Hcs accused c E)|].
    assert (size (unresponded (default default_complaint None)) = 0%nat) as -> by apply size_empty.
    simpl. lia. }
  simpl. rewrite wrap_u16_small by (unfold is_u16; lia). split; [done|].
  destruct req; [|lia].
  assert (forall X : gset Z, size (X ∪ {[plaintiff]}) <= S (size X))%nat as Hsz.
  { intros X. rewrite size_union_alt. pose proof (subseteq_size_le ({[plaintiff]} ∖ X) {[plaintiff]}).
    rewrite size_singleton in *. set_solver by lia. }
  specialize (Hsz (unresponded (default default_complaint (cs !! accused)))). lia.
Qed.

Lemma complaints_ok_insert g cs a c :
  complaints_ok g cs -> a ∈ participants g -> 0 <= total c < threshold g ->
  Z.of_nat (size (unresponded c)) <= total c -> complaints_ok g (<[a := c]> cs).
Proof. intros Hcs Ha Hc Hs a' c' [[<- <-]|[_ H]]%lookup_insert_Some; [done|by apply Hcs]. Qed.

Lemma key_gen_complained_ok s b ev :
  contract_event (rollover s) (Coordinator.KeyGenComplainedEvent ev) ->
  rollover_ok (rollover s) -> rollover_ok (rollover (handle_key_gen_complained s b ev).1).
Proof.
  intros Hct Hr. unfold handle_key_gen_complained.
  destruct (complained_fields _ _ _) as [[[[[[[e g] p] cs] rd] re] req]|] eqn:E; [|done]. branch_open.
  case_decide as Hth; [apply restart_ok|].
  assert (rollover_ok (set_complaints (rollover s)
    (<[Coordinator.kp_accused ev :=
         count_complaint cs (Coordinator.kp_accused ev) (Coordinator.kp_plaintiff ev) req]> cs)))
    as Hok.
  { assert (forall e g, group_for e g -> id g = Coordinator.kp_gid ev ->
      generating (rollover s) = Some g -> complaints_ok g cs ->
      total (count_complaint cs (Coordinator.kp_accused ev) (Coordinator.kp_plaintiff ev) req)
        < threshold g ->
      complaints_ok g (<[Coordinator.kp_accused ev := count_complaint cs (Coordinator.kp_accused ev)
        (Coordinator.kp_plaintiff ev) req]> cs)) as Hins.
    { intros e' g' [Hg _] Hid Hgen Hcs Hlt. specialize (Hct g' Hgen (eq_sym Hid)).
      destruct (count_complaint_exact g' cs _ (Coordinator.kp_plaintiff ev) req Hg Hcs Hct) as [Ht Hs].
      apply complaints_ok_insert; try done. split; [lia|done]. }
    destruct (rollover s) as [| | | | |e0 g0 p0 sh shs cs0 d|e0 g0 p0 st cf cs0 ds|] eqn:Er;
      try done; simpl in E; case_decide; simplify_eq/=; destruct Hr as (Hg & Hsh & Hcs);
      split_and!; try done; apply (Hins e); try done; simpl in Hth; lia. }
  destruct p; [|done]. case_decide; [|done]. by case_match.
Qed.

Lemma confirm_collected_ok s :
  rollover_ok (rollover s) -> rollover_ok (rollover (confirm_collected s).1).
Proof.
  intros Hr. unfold confirm_collected. rollover_cases s E; try kept E Hr.
  destruct p; [|kept E Hr]. destruct st; try kept E Hr. branch_open. case_decide; [|kept E Hr].
  destruct (confirm_key_gen _ _ _ _ _) as [[st' cs']|]; [done|]. apply rollover_failure_ok.
Qed.

Lemma set_shares_ok r shs : rollover_ok r -> rollover_ok (set_shares r shs).
Proof. destruct r as [| | | | | |e g p [] cf cs ds|]; done. Qed.

Lemma key_gen_complaint_responded_ok s b ev :
  rollover_ok (rollover s) -> rollover_ok (rollover (handle_key_gen_complaint_responded s b ev).1).
Proof.
  intros Hr. unfold handle_key_gen_complaint_responded.
  destruct (responded_fields _ _ _) as [[[[[[e g] p] shs] cs] d]|] eqn:E; [|done]. branch_open.
  destruct (cs !! _) as [c|] eqn:Ec; [|done]. case_decide as Hin; [|done].
  set (cs' := <[_ := _]> cs).
  assert (rollover_ok (set_complaints (rollover s) cs')) as Hok.
  { assert (forall g, complaints_ok g cs -> complaints_ok g cs') as Hins.
    { intros g' Hcs. destruct (Hcs _ _ Ec) as (Ha & Ht & Hs).
      apply complaints_ok_insert; try done. simpl.
      pose proof (subseteq_size_le (unresponded c ∖ {[Coordinator.kr_plaintiff ev]}) (unresponded c)
        ltac:(set_solver)). lia. }
    destruct (rollover s) as [| | | | |e0 g0 p0 sh shs0 cs0 d0|e0 g0 p0 st cf cs0 ds|] eqn:Er;
      try done; simpl in E; case_decide; simplify_eq/=; destruct Hr as (Hg & Hsh & Hcs);
      split_and!; try done; by apply Hins. }
  destruct (Keygen.verify_revealed_secret_share _ _ _ _); [|apply restart_ok].
  apply confirm_collected_ok. destruct shs; [|done]. case_decide; [|done]. by apply set_shares_ok.
Qed.

Lemma key_gen_timeouts_ok s b :
  rollover_ok (rollover s) -> rollover_ok (rollover (handle_key_gen_timeouts s b).1).
Proof.
  intros Hr. unfold handle_key_gen_timeouts. case_match; [apply rollover_failure_ok|].
  destruct (timed_out _ _) as [[e x]|]; [apply restart_ok|done].
Qed.

Lemma rollover_new_block_ok s b :
  rollover_ok (rollover s) -> rollover_ok (rollover (handle_rollover_new_block s b).1).
Proof.
  intros Hr. unfold handle_rollover_new_block. case_match; [|done]. case_decide; [done|].
  destruct (participants_set _ _) as [ps|] eqn:E; [|done].
  apply start_key_gen_ok. by apply (group_for_number _ ∅).
Qed.

Lemma sessions_rollover s m : 
  match m with
  | Message.Event log =>
      match log_data log with
      | Event.Coordinator (Coordinator.SignEvent _ | Coordinator.SignCommittedNoncesEvent _
          | Coordinator.SignSharedEvent _ | Coordinator.SignCompletedEvent _)
      | Event.Oracle _
      | Event.Consensus (Consensus.TransactionProposedEvent _
          | Consensus.TransactionAttestedEvent _) => True
      | _ => False
      end
  | Message.Resume (Resume.NonceCommitments _ _ | Resume.Nonces _ _) => True
  | _ => False
  end -> rollover (apply_transition s m).1 = rollover s.
Proof.
  destruct m as [b|[[b t] i a data]|r]; [done| |].
  - destruct data as [ev|ev|ev]; [destruct ev as [ev|ev|ev|ev|ev]
      |destruct ev as [ev|ev|ev|ev|ev|ev|ev|ev|ev|ev]|]; try done; intros _.
    + change (rollover (handle_transaction_proposed s b ev).1 = rollover s).
      unfold handle_transaction_proposed. by repeat case_match.
    + change (rollover (handle_transaction_attested s ev).1 = rollover s).
      unfold handle_transaction_attested, handle_sign_attested. simpl. by case_match.
    + change (rollover (handle_sign s b ev).1 = rollover s).
      unfold handle_sign. by repeat case_match.
    + change (rollover (handle_sign_committed_nonces s b ev).1 = rollover s).
      unfold handle_sign_committed_nonces. by repeat case_match.
    + change (rollover (handle_sign_shared s ev).1 = rollover s).
      unfold handle_sign_shared. by repeat case_match.
    + change (rollover (handle_sign_completed s b ev).1 = rollover s).
      unfold handle_sign_completed. by repeat case_match.
    + change (rollover (handle_oracle_result s b a ev).1 = rollover s).
      unfold handle_oracle_result. by repeat case_match.
  - destruct r as [|g k|sid n|m n]; try done; intros _.
    + change (rollover (handle_nonce_commitments s sid n).1 = rollover s).
      unfold handle_nonce_commitments. by repeat case_match.
    + change (rollover (handle_nonces s m n).1 = rollover s).
      unfold handle_nonces. by repeat case_match.
Qed.

Lemma transition_rollover_ok s m :
  genesis_ok -> contract_message s m -> rollover_ok (rollover s) ->
  rollover_ok (rollover (apply_transition s m).1).
Proof.
  intros Hgen Hct Hr. destruct m as [b|[[b t] i a data]|r].
  - change (rollover_ok (rollover (apply_new_block s b).1)). unfold apply_new_block.
    pose proof (rollover_new_block_ok s b Hr) as H1.
    destruct (handle_rollover_new_block s b) as [s1 c1].
    pose proof (key_gen_timeouts_ok s1 b H1) as H2.
    by destruct (handle_key_gen_timeouts s1 b) as [s2 c2].
  - destruct data as [ev|ev|ev]; [destruct ev as [ev|ev|ev|ev|ev]
      |destruct ev as [ev|ev|ev|ev|ev|ev|ev|ev|ev|ev]|];
      try (by rewrite sessions_rollover); try done.
    + by apply epoch_staged_ok.
    + by apply genesis_key_gen_ok.
    + by apply key_gen_committed_ok.
    + by apply key_gen_secret_shared_ok.
    + by apply key_gen_confirmed_ok.
    + by apply key_gen_complained_ok.
    + by apply key_gen_complaint_responded_ok.
  - destruct r as [|gid sec|sid n|m n]; try (by rewrite sessions_rollover); try done.
    by apply key_gen_setup_ok.
Qed.

(** ** Restarts shrink the group *)

(** The timeout of a round excludes at least one participant of its group. *)
Lemma timed_out_excludes r b e x :
  rollover_ok r -> stuck_setup r b = None -> timed_out r b = Some (e, x) ->
  exists g, generating r = Some g /\ group_for e g /\ excluded g ⊆ x /\
    exists a, a ∈ participants g /\ a ∈ x.
Proof.
  intros Hr Hst Ht.
  assert (forall g (X : gset Z) l, (forall a, a ∈ l <-> a ∈ X) -> X ⊂ participants g ->
    excluded g ⊆ exclude_all_others g l /\
    exists a, a ∈ participants g /\ a ∈ exclude_all_others g l) as Hex.
  { intros g X l Hl [HX HnX]. split.
    - intros a Ha. apply elem_of_exclude_all_others. by left.
    - destruct (decide (participants g ∖ X = ∅)) as [He|Hne].
      + exfalso. apply HnX. intros a Ha. destruct (decide (a ∈ X)); [done|set_solver].
      + apply set_choose_L in Hne as [a Ha]. exists a. split; [set_solver|].
        apply elem_of_exclude_all_others. right. rewrite Hl. set_solver. }
  destruct r as [| | | |e0 g k cm [d|]|e0 g p sh shs cs [d|]|e0 g p st cf cs [d|]|]; try done;
    simpl in Ht; simpl in Hr.
  - case_decide as Hd; simplify_eq. exists g. destruct Hr as (Hg & Hcm & Hfull).
    split; [done|]. split; [done|]. apply (Hex g (dom cm)).
    { intros a. by rewrite elem_of_sorted_keys, elem_of_dom. }
    split; [done|]. intros Hsub. assert (dom cm = participants g) as Heq by set_solver.
    destruct (Hfull Heq) as [poap ->]. simpl in Hst. case_decide as Hn; [done|]. apply Hn.
    split; [done|]. rewrite len_u16_dom. by apply (full_round e).
  - case_decide as Hd; simplify_eq. exists g. destruct Hr as (Hg & Hsh & _).
    split; [done|]. split; [done|]. apply (Hex g sh); [|done]. intros a. apply elem_of_sorted_elements.
  - destruct Hr as (Hg & Hcf & Hcs). case_decide as Hd; [|case_decide]; simplify_eq; exists g;
      (split; [done|]); (split; [done|]).
    + unfold also_exclude. split; [set_solver|].
      destruct Hd as [_ Hne]. apply set_choose_L in Hne as [a Ha]. exists a. split; [|set_solver].
      unfold unresponded_accused in Ha. apply elem_of_dom in Ha as [c Hc].
      apply map_lookup_filter_Some in Hc as [Hc _]. by apply (Hcs a c).
    + apply (Hex g cf); [|done]. intros a. apply elem_of_sorted_elements.
Qed.

(** Histories the contract can produce. *)
Inductive honest : State -> Prop :=
| honest_default : honest default_state
| honest_step state m :
    honest state -> contract_message state m -> honest (apply_transition state m).1.

Lemma honest_ok s : genesis_ok -> honest s -> rollover_ok (rollover s).
Proof.
  intros Hg Hs. induction Hs as [|s m _ IH Hm]; [done|]. by apply transition_rollover_ok.
Qed.

Lemma size_lt (X Y : gset Z) : X ⊂ Y -> (size X < size Y)%nat.
Proof. apply subset_size. Qed.

(** A restart for an epoch excluding a participant makes a smaller group. *)
Lemma restart_shrinks s g n x d :
  group_for (EpochId.Number n) g -> excluded g ⊆ x ->
  (exists a, a ∈ participants g /\ a ∈ x) ->
  let r := rollover (restart_key_gen_excluding s (EpochId.Number n) x d).1 in
  r = EpochSkipped n \/
  exists g', generating r = Some g' /\ group_ok g' /\ next_epoch r = Some (EpochId.Number n) /\
    participants g' ⊂ participants g.
Proof.
  intros [Hg Hp] Hx (a & Ha & Hax). unfold restart_key_gen_excluding.
  destruct (participants_set _ _) as [ps|] eqn:E; [right|by left].
  pose proof (group_for_number n x ps E) as [[Hok Hps] Hex]. rewrite Hex in Hps.
  exists (group ps). unfold start_key_gen.
  assert (participants (group ps) ⊂ participants g) as Hsub.
  { rewrite Hps, Hp in *. split; [set_solver|]. intros Hs. assert (a ∈ epoch_addresses n ∖ x) by set_solver.
    set_solver. }
  destruct (participate_as ps account) as [[g' poap]|] eqn:Ep; [|done].
  apply participate_as_Some in Ep as (_ & -> & _). done.
Qed.

(** A deadline of the round has passed at [block]: that of its stage, or that of the
    answers to complaints of which some still stands. *)
Definition overdue (r : RolloverState) (block : Z) : Prop :=
  match r with
  | CollectingCommitments _ _ _ _ (Some deadline) | CollectingShares _ _ _ _ _ _ (Some deadline) => deadline <= block
  | CollectingConfirmations _ _ _ _ _ complaints (Some deadlines) =>
      confirm deadlines <= block \/
      (response deadlines <= block /\ exists accused c, complaints !! accused = Some c /\ unresponded c <> ∅)
  | _ => False
  end.

Lemma unresponded_standing cs :
  unresponded_accused cs <> ∅ <-> exists accused c, cs !! accused = Some c /\ unresponded c <> ∅.
Proof.
  unfold unresponded_accused. split.
  - intros (a & Ha)%set_choose_L. apply elem_of_dom in Ha as [c Hc].
    apply map_lookup_filter_Some in Hc as [Hc Hu]. by exists a, c.
  - intros (a & c & Hc & Hu) He. assert (a ∈ dom (filter (fun e : Z * Complaint => unresponded e.2 <> ∅) cs)) as Ha.
    { apply elem_of_dom. exists c. by apply map_lookup_filter_Some. }
    rewrite He in Ha. by apply not_elem_of_empty in Ha.
Qed.

Lemma timed_out_overdue r b : is_Some (timed_out r b) <-> overdue r b.
Proof.
  destruct r as [| | | |e0 g k cm [d|]|e0 g p sh shs cs [d|]|e0 g p st cf cs [d|]|]; simpl;
    try (split; [by intros []|done]).
  - case_decide; split; [done|by eexists|by intros []|done].
  - case_decide; split; [done|by eexists|by intros []|done].
  - rewrite <- unresponded_standing. case_decide as H1; [|case_decide]; split; try (by eexists); try tauto; by intros [].
Qed.

Lemma stuck_setup_overdue r b e : stuck_setup r b = Some e -> overdue r b /\ next_epoch r = Some e.
Proof. intros H. unfold stuck_setup in H. repeat case_match; simplify_eq; simpl. by destruct_and!. Qed.

Lemma timed_out_epoch r b e x : timed_out r b = Some (e, x) -> next_epoch r = Some e.
Proof. intros H. unfold timed_out in H. repeat case_match; by simplify_eq. Qed.

(** An overdue round is given up, or starts over with a smaller group; any other
    round goes on. *)
Lemma timeouts_shrink s b :
  rollover_ok (rollover s) ->
  let r := rollover (handle_key_gen_timeouts s b).1 in
  (~ overdue (rollover s) b -> r = rollover s) /\
  (overdue (rollover s) b ->
    (exists e, next_epoch (rollover s) = Some e /\ r = rollover_failure e) \/
    exists g g', generating (rollover s) = Some g /\ generating r = Some g' /\ group_ok g' /\
      next_epoch r = next_epoch (rollover s) /\ participants g' ⊂ participants g).
Proof.
  intros Hr. unfold handle_key_gen_timeouts.
  destruct (stuck_setup (rollover s) b) as [e|] eqn:Est.
  { apply stuck_setup_overdue in Est as [Ho He]. split; [done|]. intros _. left. by exists e. }
  destruct (timed_out (rollover s) b) as [[e x]|] eqn:Et.
  2: { split; [done|]. intros Ho%timed_out_overdue. rewrite Et in Ho. by destruct Ho. }
  assert (overdue (rollover s) b) as Ho by (apply timed_out_overdue; by rewrite Et).
  pose proof (timed_out_epoch _ _ _ _ Et) as Hne. split; [done|intros _].
  destruct (timed_out_excludes _ _ _ _ Hr Est Et) as (g & Hgen & Hg & Hx & Ha).
  destruct e as [|n]; [left; by exists EpochId.Genesis|].
  destruct (restart_shrinks s g n x (Some (key_gen_deadline b)) Hg Hx Ha) as [Hsk|(g' & H1 & H2 & H3 & H4)].
  - left. by exists (EpochId.Number n).
  - right. exists g, g'. split_and!; try done. by rewrite H3.
Qed.

(** The standing complaints of a round. *)
Definition complaints_of (r : RolloverState) : gmap Z Complaint :=
  match r with
  | CollectingShares _ _ _ _ _ cs _ | CollectingConfirmations _ _ _ _ _ cs _ => cs
  | _ => ∅
  end.

Lemma rollover_ok_complaints r g :
  rollover_ok r -> generating r = Some g -> complaints_ok g (complaints_of r).
Proof.
  destruct r; simpl; intros Hr Hg; simplify_eq; try (intros a c Hc; by rewrite lookup_empty in Hc);
    by destruct Hr as (_ & _ & ?).
Qed.

(** The group of a round is one the code derives. *)
Lemma rollover_ok_group r g : rollover_ok r -> generating r = Some g -> group_ok g.
Proof. destruct r; try done; intros [[Hg _] _] [= <-]; exact Hg. Qed.

End Rounds.
