(* ===== verification/Agreement.v ===== *)
(** Validators agree. What a validator knows of an epoch rollover is public but
    for its own secrets; [public] erases those. The protocol is what any validator
    makes of the messages of the chain with nothing of its own, and every validator
    follows it, whatever its effects returned in between, until it gives up a round
    by itself. Validators that follow one chain therefore agree. *)

From S2P Require Import Prelude Keccak Merkle Epoch Group Bindings FrostLib Frost Hashing.
From S2P Require Import Secrets Messages Snapshots StateMachine Service State KeyGen Signing Validator Clock Rounds.

(** ** What is public *)

Section Public.
Context {FL : FrostLib}.

Definition public_rollover (r : RolloverState) : RolloverState :=
  match r with
  | CollectingCommitments e g _ cm d => CollectingCommitments e g CommitmentObserving cm d
  | CollectingShares e g p shared _ cs d =>
      CollectingShares e g (Observing (group_commitments p)) shared ∅ cs d
  | CollectingConfirmations e g p _ cf cs ds =>
      CollectingConfirmations e g (Observing (group_commitments p)) ConfirmationObserving cf cs ds
  | SigningRollover n g _ message => SigningRollover n g None message
  | _ => r
  end.
Definition public (s : State) : State := MkState (public_rollover (rollover s)) (active_epoch s) ∅ ∅ ∅.

Lemma public_idemp s : public (public s) = public s.
Proof. unfold public. simpl. by destruct (rollover s). Qed.

Lemma public_eq s t : rollover s = rollover t -> active_epoch s = active_epoch t -> public s = public t.
Proof. unfold public. by intros -> ->. Qed.

Lemma public_rollover_eq s r t r' :
  active_epoch s = active_epoch t -> public_rollover r = public_rollover r' ->
  public (with_rollover s r) = public (with_rollover t r').
Proof. unfold public. simpl. by intros -> ->. Qed.
End Public.

Section Agreement.
Context {KEC : Keccak} {FL : FrostLib} {EIP : Eip712} {ABI : Abi} {TR : Transition}.

Abbreviation Message := (Message.t Event.t Resume.t).

(** The same deployment, seen from another account. *)
Definition as_account (a : Z) : Transition :=
  {| account := a; genesis := genesis; consensus := consensus; config := config |}.
Definition step (a : Z) (s : State) (m : Message) : State :=
  (apply_transition (StateTransition := validator_transition (TR := as_account a)) s m).1.

(** The protocol's account does not matter, its own knowledge is erased. *)
Definition protocol_step (s : State) (m : Message) : State := public (step 0 (public s) m).
Definition protocol (h : list Message) : State := foldl protocol_step default_state (chain h).

(** A validator gives up a round that goes on without it. *)
Definition is_failure (r : RolloverState) : Prop :=
  match r with Halted | EpochSkipped _ => True | _ => False end.
Definition gives_up (a : Z) (s : State) (m : Message) : Prop :=
  is_failure (rollover (step a s m)) /\ ~ is_failure (rollover (protocol_step (public s) m)).

(** A validator whose setup has not resumed has not committed. *)
Definition expecting (a : Z) (r : RolloverState) : Prop :=
  match r with
  | CollectingCommitments _ g (CommitmentParticipating _ None) cm _ => a ∈ participants g /\ cm !! a = None
  | _ => True
  end.
Definition owned (a : Z) (s : State) (m : Message) : Prop :=
  match m with
  | Message.Event log =>
      match log_data log, rollover s with
      | Event.Coordinator (Coordinator.KeyGenCommittedEvent ev),
          CollectingCommitments _ g (CommitmentParticipating _ None) _ _ =>
          Coordinator.kc_gid ev = id g -> Coordinator.kc_participant ev <> a
      | _, _ => True
      end
  | _ => True
  end.

(** Histories of a validator that the contract can produce, in which its own
    commitment follows its setup and it never gives up by itself. *)
Inductive steady (a : Z) : list Message -> State -> Prop :=
| steady_nil : steady a [] default_state
| steady_snoc h s m :
    steady a h s -> contract_message s m -> owned a s m -> ~ gives_up a s m ->
    steady a (h ++ [m]) (step a s m).

(** ** Where rounds start *)

Lemma start_public a b s t e ps d :
  active_epoch s = active_epoch t ->
  public (start_key_gen (TR := as_account a) s e ps d).1 = public (start_key_gen (TR := as_account b) t e ps d).1.
Proof.
  intros Ha. unfold start_key_gen.
  destruct (participate_as ps (account (Transition := as_account a))) as [[g p]|] eqn:E;
  destruct (participate_as ps (account (Transition := as_account b))) as [[g' p']|] eqn:E';
    try apply participate_as_Some in E as (_ & -> & _); try apply participate_as_Some in E' as (_ & -> & _);
    by apply public_rollover_eq.
Qed.

Lemma restart_public a b s t e x d :
  active_epoch s = active_epoch t ->
  public (restart_key_gen_excluding (TR := as_account a) s e x d).1 =
  public (restart_key_gen_excluding (TR := as_account b) t e x d).1.
Proof.
  intros Ha. unfold restart_key_gen_excluding. change (config (Transition := as_account a)) with config.
  change (config (Transition := as_account b)) with config.
  destruct (match e with EpochId.Number _ => _ | EpochId.Genesis => None end); [by apply start_public|].
  by apply public_rollover_eq.
Qed.

Lemma start_expecting a s e ps d : expecting a (rollover (start_key_gen (TR := as_account a) s e ps d).1).
Proof.
  unfold start_key_gen. destruct (participate_as ps (account (Transition := as_account a))) as [[g p]|] eqn:E; [|done].
  apply participate_as_Some in E as (Ha & -> & _). simpl. split; [done|]. apply lookup_empty.
Qed.
Lemma failure_expecting a e : expecting a (rollover_failure e).
Proof. by destruct e. Qed.
Lemma restart_expecting a s e x d : expecting a (rollover (restart_key_gen_excluding (TR := as_account a) s e x d).1).
Proof.
  unfold restart_key_gen_excluding. destruct (match e with EpochId.Number _ => _ | EpochId.Genesis => None end).
  - apply start_expecting.
  - apply failure_expecting.
Qed.

(** A round a validator expects to commit to is not full. *)
Lemma expecting_not_full a e g p cm d :
  let r := CollectingCommitments e g (CommitmentParticipating p None) cm d in
  rollover_ok r -> expecting a r -> len_u16 cm ≠ count g.
Proof.
  intros r (Hg & Hcm & _) [Ha Hn] Hlen. rewrite len_u16_dom in Hlen.
  apply (full_round e) in Hlen; [|done..]. rewrite <- Hlen in Ha. apply elem_of_dom in Ha as [v Hv]. congruence.
Qed.

(** ** One step *)

(** The state [s'] a validator reaches where the protocol reaches [t']. *)
Definition follows (s' t' : State) : Prop :=
  public s' = public t' \/ (is_failure (rollover s') /\ ~ is_failure (public_rollover (rollover t'))).

(** A branch that leaves the state as it was, on both sides. *)
Ltac idle E :=
  cbn [fst]; first [exact (eq_sym (public_idemp _)) | left; exact (eq_sym (public_idemp _))
    | split; [left; exact (eq_sym (public_idemp _))|cbn [fst]; rewrite E; done] ].

Lemma follows_eq s' t' : public s' = public t' -> follows s' t'.
Proof. by left. Qed.

Lemma genesis_follows a b s ev :
  public (handle_genesis_key_gen (TR := as_account a) s ev).1 =
  public (handle_genesis_key_gen (TR := as_account b) (public s) ev).1.
Proof.
  unfold handle_genesis_key_gen. cbn [public rollover].
  rollover_cases s E; cbn [public_rollover]; try exact (eq_sym (public_idemp s)).
  change (genesis (Transition := as_account a)) with genesis. change (genesis (Transition := as_account b)) with genesis.
  case_decide; [exact (eq_sym (public_idemp s))|]. by apply start_public.
Qed.

Lemma genesis_expecting a s ev :
  expecting a (rollover s) -> expecting a (rollover (handle_genesis_key_gen (TR := as_account a) s ev).1).
Proof.
  intros He. unfold handle_genesis_key_gen. destruct (rollover s) eqn:E; try (cbn [fst]; rewrite E; done).
  case_decide; [cbn [fst]; by rewrite E|]. apply start_expecting.
Qed.

Lemma generated_commitments secrets cm sh share :
  Keygen.generate_secret_shares secrets cm = Ok (sh, share) ->
  Keygen.group_commitments cm = Ok (Keygen.sh_group_commitments sh).
Proof.
  unfold Keygen.generate_secret_shares. intros Hg. apply bind_Ok in Hg as ([peers mine] & _ & Hg).
  unfold err_unexpected in Hg. rewrite map_err_Ok in Hg. apply bind_Ok in Hg as ([s2 packages] & _ & Hg).
  case_decide; [done|]. apply bind_Ok in Hg as (gc & Hgc & Hg). apply bind_Ok in Hg as (key & Hk & Hg).
  apply bind_Ok in Hg as (shares & _ & Hg). injection Hg as <- <-.
  unfold Keygen.group_commitments, err_unexpected. rewrite Hgc. cbn. by rewrite Hk.
Qed.

Lemma finalize_follows s t e g secrets cm d :
  active_epoch s = active_epoch t ->
  follows (with_rollover s (finalize_key_gen_commitments e g secrets cm d).1)
    (with_rollover t (finalize_key_gen_commitments e g None cm d).1).
Proof.
  intros Ha. unfold finalize_key_gen_commitments. destruct secrets as [k|]; [|left; by apply public_rollover_eq].
  destruct (Keygen.generate_secret_shares k cm) as [[sh share]|err] eqn:E; cbn [fmap result_fmap].
  - rewrite (generated_commitments _ _ _ _ E). left. by apply public_rollover_eq.
  - destruct (Keygen.group_commitments cm); cbn [fmap result_fmap]; [right|left; by apply public_rollover_eq].
    split; [by destruct e|]. by intros [].
Qed.

Lemma setup_follows a s gid secrets :
  rollover_ok (rollover s) -> expecting a (rollover s) ->
  public (handle_key_gen_setup (TR := as_account a) s gid secrets).1 = public s /\
  expecting a (rollover (handle_key_gen_setup (TR := as_account a) s gid secrets).1).
Proof.
  intros Hok He. unfold handle_key_gen_setup. rollover_cases s E; try (split; [done|cbn [fst]; by rewrite E]).
  destruct k as [poap [k|]|]; try (split; [done|cbn [fst]; rewrite E; done]).
  case_decide; [|split; [done|cbn [fst]; by rewrite E]]. branch_open.
  pose proof (expecting_not_full _ _ _ _ _ _ Hok He). rewrite decide_True by done. split; [|done].
  unfold public. simpl. by rewrite E.
Qed.

(** Failures and rounds past the commitments expect nothing. *)
Lemma finalize_expecting a e g secrets cm d : expecting a (finalize_key_gen_commitments e g secrets cm d).1.
Proof.
  unfold finalize_key_gen_commitments. destruct secrets as [k|].
  - destruct (Keygen.generate_secret_shares k cm) as [[? ?]|]; [done|apply failure_expecting].
  - destruct (Keygen.group_commitments cm); [done|apply failure_expecting].
Qed.

Lemma committed_follows a b s blk ev :
  rollover_ok (rollover s) -> expecting a (rollover s) ->
  contract_event (rollover s) (Coordinator.KeyGenCommittedEvent ev) ->
  (forall e g p cm d, rollover s = CollectingCommitments e g (CommitmentParticipating p None) cm d ->
    Coordinator.kc_gid ev = id g -> Coordinator.kc_participant ev <> a) ->
  follows (handle_key_gen_committed (TR := as_account a) s blk ev).1
    (handle_key_gen_committed (TR := as_account b) (public s) blk ev).1 /\
  expecting a (rollover (handle_key_gen_committed (TR := as_account a) s blk ev).1).
Proof.
  intros Hok He Hct Hown. unfold handle_key_gen_committed. cbn [public rollover].
  rollover_cases s E; cbn [public_rollover]; try idle E.
  case_decide as Hid; [|idle E]. branch_open. specialize (Hct g eq_refl (eq_sym Hid)).
  change (key_gen_deadline (TR := as_account a)) with (key_gen_deadline (TR := TR)).
  change (key_gen_deadline (TR := as_account b)) with (key_gen_deadline (TR := TR)).
  set (cm' := match Keygen.verify_commitment _ _ with Ok _ => _ | Err _ => cm end).
  set (d' := (fun _ => key_gen_deadline blk) <$> d).
  assert (forall o, let '(r, c) := finalize_key_gen_commitments e g o cm' d' in
    follows (with_rollover s r, c).1 (let '(r, c) := finalize_key_gen_commitments e g None cm' d' in (with_rollover (public s) r, c)).1 /\
    expecting a (rollover (with_rollover s r, c).1)) as Hfin.
  { intros o. pose proof (finalize_follows s (public s) e g o cm' d' eq_refl) as Hf.
    pose proof (finalize_expecting a e g o cm' d') as Hx.
    by destruct (finalize_key_gen_commitments e g o _ _), (finalize_key_gen_commitments e g None _ _). }
  destruct k as [poap [k|]|].
  - case_decide; [split; [left; by apply public_rollover_eq|done]|].
    specialize (Hfin (Some k)). by destruct (finalize_key_gen_commitments e g (Some k) _ _).
  - specialize (Hown _ _ _ _ _ eq_refl (eq_sym Hid)). destruct He as [Ha Hn].
    assert (dom cm' ⊆ participants g /\ cm' !! a = None) as [Hsub Hn'].
    { destruct Hok as (_ & Hcm & _). subst cm'. case_match; [|done]. rewrite dom_insert_L, lookup_insert_ne by done.
      split; [set_solver|done]. }
    case_decide as Hl; [split; [left; by apply public_rollover_eq|by split]|]. exfalso.
    rewrite len_u16_dom in Hl. apply (full_round e) in Hl; [|apply Hok|done].
    rewrite <- Hl in Ha. apply elem_of_dom in Ha as [v Hv]. congruence.
  - case_decide; [split; [left; by apply public_rollover_eq|done]|].
    specialize (Hfin None). by destruct (finalize_key_gen_commitments e g None _ _).
Qed.

Lemma shared_follows a b s blk ev :
  follows (handle_key_gen_secret_shared (TR := as_account a) s blk ev).1
    (handle_key_gen_secret_shared (TR := as_account b) (public s) blk ev).1 /\
  (expecting a (rollover s) -> expecting a (rollover (handle_key_gen_secret_shared (TR := as_account a) s blk ev).1)).
Proof.
  unfold handle_key_gen_secret_shared. cbn [public rollover].
  rollover_cases s E; cbn [public_rollover]; try idle E.
  case_decide as Hid; [|idle E]. branch_open. cbn [group_commitments].
  destruct (match Keygen.verify_secret_share _ _ _ with Ok _ => _ | Err _ => _ end) as [sh' enc].
  destruct (match p with Participating _ => _ | Observing _ => _ end) as [shs' cmds].
  case_decide; [split; [left; by apply public_rollover_eq|done]|].
  destruct p as [st|gc]; [|split; [left; by apply public_rollover_eq|done]].
  case_decide; [|split; [left; by apply public_rollover_eq|done]].
  destruct (confirm_key_gen _ _ _ _ _) as [[status c]|]; [split; [left; by apply public_rollover_eq|done]|].
  split; [right; split; [by destruct e|by intros []]|intros _; apply failure_expecting].
Qed.

Lemma public_attested s sid message : public (handle_sign_attested s sid message).1 = public s.
Proof. unfold handle_sign_attested. cbn zeta. by destruct (signing s !! message ≫= signature_id). Qed.
Lemma rollover_attested s sid message : rollover (handle_sign_attested s sid message).1 = rollover s.
Proof. unfold handle_sign_attested. cbn zeta. by destruct (signing s !! message ≫= signature_id). Qed.

Lemma finalize_public s e g share : public (finalize_key_gen s e g share) = public s.
Proof. by destruct share. Qed.
Lemma finalize_rollover s e g share : rollover (finalize_key_gen s e g share) = rollover s.
Proof. by destruct share. Qed.
Lemma finalize_active s e g share : active_epoch (finalize_key_gen s e g share) = active_epoch s.
Proof. by destruct share. Qed.

Lemma staged_follows a s ev :
  public (handle_epoch_staged s ev).1 = public (handle_epoch_staged (public s) ev).1 /\
  (expecting a (rollover s) -> expecting a (rollover (handle_epoch_staged s ev).1)).
Proof.
  unfold handle_epoch_staged. cbn [public rollover].
  rollover_cases s E; cbn [public_rollover]; try (split; [exact (eq_sym (public_idemp s))|cbn [fst]; by rewrite E]).
  - split; [by apply public_rollover_eq|]. simpl. by case_decide.
  - case_decide; [|split; [exact (eq_sym (public_idemp s))|cbn [fst]; by rewrite E]].
    split; [|by rewrite rollover_attested, finalize_rollover]. rewrite !public_attested, !finalize_public.
    by apply public_rollover_eq.
Qed.

Lemma confirmed_follows a b s blk ev :
  public (handle_key_gen_confirmed (TR := as_account a) s blk ev).1 =
  public (handle_key_gen_confirmed (TR := as_account b) (public s) blk ev).1 /\
  (expecting a (rollover s) -> expecting a (rollover (handle_key_gen_confirmed (TR := as_account a) s blk ev).1)).
Proof.
  unfold handle_key_gen_confirmed. cbn [public rollover].
  rollover_cases s E; cbn [public_rollover]; try (split; [exact (eq_sym (public_idemp s))|cbn [fst]; by rewrite E]).
  case_decide as Hid; [|split; [exact (eq_sym (public_idemp s))|cbn [fst]; by rewrite E]]. branch_open.
  cbn [group_commitments active_epoch epochs signing].
  case_decide; [split; [by apply public_rollover_eq|done]|].
  destruct e as [|n].
  - change (config (Transition := as_account a)) with config. change (config (Transition := as_account b)) with config.
    change (key_gen_deadline (TR := as_account a)) with (key_gen_deadline (TR := TR)).
    change (key_gen_deadline (TR := as_account b)) with (key_gen_deadline (TR := TR)).
    destruct (participants_set _ _) as [ps|].
    + split; [apply start_public; by rewrite !finalize_active|intros _; apply start_expecting].
    + split; [cbn [fst]; rewrite !finalize_public; by apply public_rollover_eq|].
      intros _. cbn [fst]. by rewrite finalize_rollover.
  - split; [|done]. by apply public_rollover_eq.
Qed.

Lemma public_set_complaints r cs : public_rollover (set_complaints r cs) = set_complaints (public_rollover r) cs.
Proof. by destruct r. Qed.
Lemma set_complaints_expecting a r cs : expecting a r -> expecting a (set_complaints r cs).
Proof. by destruct r. Qed.
Lemma public_set_shares r shares : public_rollover (set_shares r shares) = public_rollover r.
Proof. by destruct r as [| | | | | |? ? ? [] ? ? ?|]. Qed.
Lemma set_shares_expecting a r shares : expecting a r -> expecting a (set_shares r shares).
Proof. by destruct r as [| | | | | |? ? ? [] ? ? ?|]. Qed.

(** The complaints' borrowed fields are public but for the participation. *)
Lemma complained_fields_public a b r gid blk :
  complained_fields (TR := as_account b) (public_rollover r) gid blk =
  (fun '(e, g, p, cs, rd, re, req) => (e, g, Observing (group_commitments p), cs, rd, re, req))
    <$> complained_fields (TR := as_account a) r gid blk.
Proof. destruct r; try done; simpl; by case_decide. Qed.

Lemma complained_follows a b s blk ev :
  public (handle_key_gen_complained (TR := as_account a) s blk ev).1 =
  public (handle_key_gen_complained (TR := as_account b) (public s) blk ev).1 /\
  (expecting a (rollover s) -> expecting a (rollover (handle_key_gen_complained (TR := as_account a) s blk ev).1)).
Proof.
  unfold handle_key_gen_complained. change (rollover (public s)) with (public_rollover (rollover s)).
  rewrite (complained_fields_public a b).
  destruct (complained_fields _ _ _) as [[[[[[[e g] p] cs] rd] re] req]|];
    cbn [fmap option_fmap option_map]; [|split; [exact (eq_sym (public_idemp s))|done]]. branch_open.
  set (cs' := <[Coordinator.kp_accused ev := _]> cs).
  assert (public (with_rollover s (set_complaints (rollover s) cs')) =
    public (with_rollover (public s) (set_complaints (public_rollover (rollover s)) cs'))) as Heq.
  { unfold public. simpl. rewrite !public_set_complaints. by destruct (rollover s). }
  case_decide; [split; [by apply restart_public|intros _; apply restart_expecting]|].
  assert (expecting a (rollover s) -> expecting a (rollover (with_rollover s (set_complaints (rollover s) cs')))) as Hx
    by apply set_complaints_expecting.
  destruct p as [st|gc]; [|done]. case_decide; [|done]. by destruct (Keygen.reveal_secret_share _ _).
Qed.

Definition borrowed (f : EpochId.t * Group * KeyGenParticipation * option (gmap Z Scalar) * gmap Z Complaint * option Z)
    : EpochId.t * Group * Keygen.GroupCommitments * gmap Z Complaint * option Z :=
  let '(e, g, p, _, cs, d) := f in (e, g, group_commitments p, cs, d).
Lemma responded_fields_public r gid blk :
  borrowed <$> responded_fields (public_rollover r) gid blk = borrowed <$> responded_fields r gid blk.
Proof. destruct r; try done; simpl; by case_decide. Qed.

(** Completing one's shares shows nothing, unless it fails. *)
Lemma confirm_collected_follows a s t : public s = public t -> follows (confirm_collected (TR := as_account a) s).1 t.
Proof.
  intros Hp. unfold confirm_collected. rollover_cases s E; try by left.
  destruct p; [|by left]. destruct st; [by left| |by left]. branch_open. case_decide; [|by left].
  assert (public_rollover (rollover t) = public_rollover (rollover s)) as Ht by (unfold public in Hp; by injection Hp).
  destruct (confirm_key_gen _ _ _ _ _) as [[st' c]|].
  - left. rewrite <- Hp. unfold public. simpl. by rewrite E.
  - right. rewrite Ht, E. split; [by destruct e|by intros []].
Qed.
Lemma confirm_collected_expecting a s :
  expecting a (rollover s) -> expecting a (rollover (confirm_collected (TR := as_account a) s).1).
Proof.
  intros He. unfold confirm_collected. destruct (rollover s) as [| | | | | |e g p st cf cs ds|] eqn:E;
    try (cbn [fst]; rewrite E; done).
  destruct p; [|cbn [fst]; by rewrite E]. destruct st; try (cbn [fst]; rewrite E; done). branch_open.
  case_decide; [|cbn [fst]; by rewrite E].
  destruct (confirm_key_gen _ _ _ _ _) as [[st' c]|]; [done|apply failure_expecting].
Qed.
Definition observing (r : RolloverState) : Prop :=
  match r with CollectingConfirmations _ _ (Participating _) _ _ _ _ => False | _ => True end.
Lemma confirm_collected_observing b s : observing (rollover s) -> confirm_collected (TR := as_account b) s = (s, []).
Proof. unfold confirm_collected. by destruct (rollover s) as [| | | | | |? ? [] ? ? ? ?|]. Qed.

(** A share revealed to oneself, put among the shares collected. *)
Definition completed (a plaintiff accused : Z) (share : Scalar) (shares : option (gmap Z Scalar)) (s : State) : State :=
  match shares with
  | Some shares => if decide (plaintiff = a) then with_rollover s (set_shares (rollover s) (<[accused := share]> shares)) else s
  | None => s
  end.
Lemma completed_public a plaintiff accused share shares s : public (completed a plaintiff accused share shares s) = public s.
Proof. unfold completed. destruct shares; [|done]. case_decide; [|done]. unfold public. simpl. by rewrite public_set_shares. Qed.
Lemma completed_expecting a c plaintiff accused share shares s :
  expecting a (rollover s) -> expecting a (rollover (completed c plaintiff accused share shares s)).
Proof. unfold completed. destruct shares; [|done]. case_decide; [|done]. apply set_shares_expecting. Qed.
Lemma completed_observing a plaintiff accused share shares s :
  observing (rollover s) -> observing (rollover (completed a plaintiff accused share shares s)).
Proof.
  unfold completed. destruct shares; [|done]. case_decide; [|done]. simpl.
  by destruct (rollover s) as [| | | | | |? ? [] [] ? ? ?|].
Qed.

Lemma responded_follows a b s blk ev :
  follows (handle_key_gen_complaint_responded (TR := as_account a) s blk ev).1
    (handle_key_gen_complaint_responded (TR := as_account b) (public s) blk ev).1 /\
  (expecting a (rollover s) ->
    expecting a (rollover (handle_key_gen_complaint_responded (TR := as_account a) s blk ev).1)).
Proof.
  unfold handle_key_gen_complaint_responded. change (rollover (public s)) with (public_rollover (rollover s)).
  pose proof (responded_fields_public (rollover s) (Coordinator.kr_gid ev) blk) as Hf.
  assert (follows s (public s)) as Hsame by (left; by rewrite public_idemp).
  destruct (responded_fields (rollover s) _ _) as [[[[[[e g] p] shs] cs] d]|],
    (responded_fields (public_rollover _) _ _) as [[[[[[e' g'] p'] shs'] cs'] d']|]; try done.
  cbn [fmap option_fmap option_map borrowed] in Hf. injection Hf as -> -> Hgc -> ->.
  destruct (cs !! _) as [c|]; [|done]. case_decide as Hin; [|done]. rewrite Hgc.
  set (cs' := <[_ := _]> cs).
  set (s1 := with_rollover s (set_complaints (rollover s) cs')).
  set (t1 := with_rollover (public s) (set_complaints (public_rollover (rollover s)) cs')).
  assert (public s1 = public t1) as Hp1.
  { unfold public. simpl. rewrite !public_set_complaints. by destruct (rollover s). }
  assert (expecting a (rollover s) -> expecting a (rollover s1)) as Hx1 by apply set_complaints_expecting.
  destruct (Keygen.verify_revealed_secret_share _ _ _ _) as [share|err];
    [|split; [left; by apply restart_public|intros _; apply restart_expecting]].
  change (match shs with Some _ => _ | None => s1 end) with (completed a (Coordinator.kr_plaintiff ev) (Coordinator.kr_accused ev) share shs s1).
  change (match shs' with Some _ => _ | None => t1 end) with (completed b (Coordinator.kr_plaintiff ev) (Coordinator.kr_accused ev) share shs' t1).
  rewrite (confirm_collected_observing b).
  - split; [apply confirm_collected_follows; cbn [fst]; by rewrite !completed_public|].
    intros He. by apply confirm_collected_expecting, completed_expecting, Hx1.
  - apply completed_observing. simpl. by destruct (rollover s).
Qed.

(** ** The clock of rounds *)

Lemma rolled_follows a b s blk :
  public (handle_rollover_new_block (TR := as_account a) s blk).1 =
  public (handle_rollover_new_block (TR := as_account b) (public s) blk).1 /\
  (expecting a (rollover s) -> expecting a (rollover (handle_rollover_new_block (TR := as_account a) s blk).1)).
Proof.
  unfold handle_rollover_new_block. change (rollover (public s)) with (public_rollover (rollover s)).
  assert (next_epoch (public_rollover (rollover s)) = next_epoch (rollover s)) as -> by (by destruct (rollover s)).
  change (config (Transition := as_account a)) with config. change (config (Transition := as_account b)) with config.
  change (key_gen_deadline (TR := as_account a)) with (key_gen_deadline (TR := TR)).
  change (key_gen_deadline (TR := as_account b)) with (key_gen_deadline (TR := TR)).
  destruct (next_epoch (rollover s) ≫= EpochId.number) as [n|]; [|split; [exact (eq_sym (public_idemp s))|done]].
  case_decide; [split; [exact (eq_sym (public_idemp s))|done]|].
  assert (active_epoch (match rollover s with EpochStaged _ => with_active_epoch s (EpochId.Number n) | _ => s end) =
    active_epoch (match public_rollover (rollover s) with EpochStaged _ => with_active_epoch (public s) (EpochId.Number n) | _ => public s end))
    as Ha by (by destruct (rollover s)).
  destruct (participants_set _ _) as [ps|]; [split; [by apply start_public|intros _; apply start_expecting]|].
  split; [by apply public_rollover_eq|done].
Qed.

Lemma timed_out_public r blk : timed_out (public_rollover r) blk = timed_out r blk.
Proof. by destruct r. Qed.
Lemma stuck_setup_none a r blk : rollover_ok r -> expecting a r -> stuck_setup r blk = None.
Proof.
  intros Hok He. destruct r as [| | | |e g [p [k|]|] cm [d|]| | |]; try done. simpl.
  rewrite decide_False; [done|]. intros [_ Hl]. by eapply expecting_not_full.
Qed.

Lemma timeouts_follow a b s t blk :
  rollover_ok (rollover s) -> expecting a (rollover s) -> rollover_ok (rollover t) -> expecting b (rollover t) ->
  public s = public t ->
  public (handle_key_gen_timeouts (TR := as_account a) s blk).1 =
  public (handle_key_gen_timeouts (TR := as_account b) t blk).1 /\
  expecting a (rollover (handle_key_gen_timeouts (TR := as_account a) s blk).1).
Proof.
  intros Hs He Ht He' Hp. unfold handle_key_gen_timeouts. rewrite !(stuck_setup_none _ _ _ Hs He), (stuck_setup_none _ _ _ Ht He').
  assert (timed_out (rollover t) blk = timed_out (rollover s) blk) as ->.
  { rewrite <- (timed_out_public (rollover t)), <- (timed_out_public (rollover s)).
    unfold public in Hp. by injection Hp as <- _. }
  destruct (timed_out (rollover s) blk) as [[e x]|]; [|done].
  split; [apply restart_public; unfold public in Hp; by injection Hp|apply restart_expecting].
Qed.

Lemma public_ok a r : rollover_ok r -> expecting a r -> rollover_ok (public_rollover r).
Proof.
  intros Hok He. destruct r as [| | | |e g k cm d| | |]; try done. destruct Hok as (Hg & Hcm & Hfull).
  simpl. split_and!; [done..|]. intros Hf. destruct (Hfull Hf) as [p ->]. destruct He as [Ha Hn].
  rewrite <- Hf in Ha. apply elem_of_dom in Ha as [v Hv]. congruence.
Qed.
Lemma public_expecting a r : expecting a (public_rollover r).
Proof. by destruct r. Qed.

Lemma new_block_follows a s blk :
  rollover_ok (rollover s) -> expecting a (rollover s) ->
  public (step a s (Message.NewBlock blk)) = public (step 0 (public s) (Message.NewBlock blk)) /\
  expecting a (rollover (step a s (Message.NewBlock blk))).
Proof.
  intros Hok He. unfold step, apply_transition, validator_transition, apply_new_block.
  destruct (rolled_follows a 0 s blk) as [Hp Hx]. specialize (Hx He).
  destruct (rolled_follows 0 0 (public s) blk) as [_ Hx']. specialize (Hx' (public_expecting 0 _)).
  pose proof (rollover_new_block_ok (TR := as_account a) s blk Hok) as H1.
  pose proof (rollover_new_block_ok (TR := as_account 0) (public s) blk (public_ok a _ Hok He)) as H2.
  destruct (handle_rollover_new_block (TR := as_account a) s blk) as [s1 c1].
  destruct (handle_rollover_new_block (TR := as_account 0) (public s) blk) as [t1 d1].
  destruct (timeouts_follow a 0 s1 t1 blk H1 Hx H2 Hx' Hp) as [Hp2 Hx2].
  by destruct (handle_key_gen_timeouts (TR := as_account a) s1 blk), (handle_key_gen_timeouts (TR := as_account 0) t1 blk).
Qed.

(** Sessions are no part of the protocol. *)
Lemma sessions_follow a s m :
  match m with
  | Message.Event log =>
      match log_data log with
      | Event.Coordinator (Coordinator.SignEvent _ | Coordinator.SignCommittedNoncesEvent _
          | Coordinator.SignSharedEvent _ | Coordinator.SignCompletedEvent _)
      | Event.Oracle _ | Event.Consensus (Consensus.TransactionProposedEvent _) => True
      | _ => False
      end
  | Message.Resume (Resume.NonceCommitments _ _ | Resume.Nonces _ _) => True
  | _ => False
  end -> public (step a s m) = public s /\ (expecting a (rollover s) -> expecting a (rollover (step a s m))).
Proof.
  intros Hm. destruct (sessions_quiet (TR := as_account a) s m Hm) as [_ Hact].
  assert (rollover (step a s m) = rollover s) as Hr.
  { apply (sessions_rollover (TR := as_account a)). by destruct m as [|[? ? ? [[]|[]|]]|[]]. }
  split; [by apply public_eq|by rewrite Hr].
Qed.

(** A step of a validator is one of the protocol for a message of the chain, and
    shows nothing for its own. *)
Lemma step_follows a s m :
  rollover_ok (rollover s) -> expecting a (rollover s) -> contract_message s m -> owned a s m ->
  (if decide (is_chain m) then follows (step a s m) (step 0 (public s) m) else public (step a s m) = public s) /\
  expecting a (rollover (step a s m)).
Proof.
  intros Hok He Hct Hown.
  assert (forall m', public (step a s m') = public s /\ (expecting a (rollover s) -> expecting a (rollover (step a s m'))) ->
    public (step 0 (public s) m') = public (public s) /\ (expecting 0 (rollover (public s)) -> expecting 0 (rollover (step 0 (public s) m'))) ->
    follows (step a s m') (step 0 (public s) m') /\ expecting a (rollover (step a s m'))) as Hsess.
  { intros m' [Hp Hx] [Hq _]. split; [left|by apply Hx]. by rewrite Hp, Hq, public_idemp. }
  assert (forall s' t', public s' = public t' /\ (expecting a (rollover s) -> expecting a (rollover s')) ->
    follows s' t' /\ expecting a (rollover s')) as Hpub by (intros s' t' [Hp Hx]; split; [by left|by apply Hx]).
  assert (forall s' t', follows s' t' /\ (expecting a (rollover s) -> expecting a (rollover s')) ->
    follows s' t' /\ expecting a (rollover s')) as Hfol by (intros s' t' [Hp Hx]; split; [done|by apply Hx]).
  destruct m as [b|[[b t] i ad data]|r].
  - rewrite decide_True by done. apply Hpub. by destruct (new_block_follows a s b Hok He).
  - rewrite decide_True by done. destruct data as [[ev|ev|ev|ev|ev]|[ev|ev|ev|ev|ev|ev|ev|ev|ev|ev]|ev];
      try (by apply Hsess; apply sessions_follow).
    + apply Hpub. split; [exact (eq_sym (public_idemp s))|done].
    + apply Hpub. exact (staged_follows a s ev).
    + apply Hpub. split; [|intros He'; assert (rollover (step a s (Message.Event (MkEventLog (MkEventBlock b t) i ad
        (Event.Consensus (Consensus.TransactionAttestedEvent ev))))) = rollover s) as -> by exact (rollover_attested s _ _); done].
      etrans; [exact (public_attested s _ _)|]. symmetry. etrans; [exact (public_attested (public s) _ _)|apply public_idemp].
    + apply Hpub. split; [exact (eq_sym (public_idemp s))|done].
    + apply Hpub. split; [exact (genesis_follows a 0 s ev)|].
      exact (genesis_expecting a s ev).
    + apply (committed_follows a 0 s b ev); try done. intros e g p cm d Hr Hid.
      unfold owned in Hown. simpl in Hown. rewrite Hr in Hown. by apply Hown.
    + apply Hfol. exact (shared_follows a 0 s b ev).
    + apply Hpub. exact (confirmed_follows a 0 s b ev).
    + apply Hpub. exact (complained_follows a 0 s b ev).
    + apply Hfol. exact (responded_follows a 0 s b ev).
  - rewrite decide_False by (intros []). destruct r as [|gid sec|sid n|m n].
    + done.
    + by apply setup_follows.
    + destruct (sessions_follow a s (Message.Resume (Resume.NonceCommitments sid n)) I) as [? Hx]. split; [done|by apply Hx].
    + destruct (sessions_follow a s (Message.Resume (Resume.Nonces m n)) I) as [? Hx]. split; [done|by apply Hx].
Qed.

(** ** Histories *)

Lemma next_epoch_public r : next_epoch (public_rollover r) = next_epoch r.
Proof. by destruct r. Qed.
Lemma generating_public r : generating (public_rollover r) = generating r.
Proof. by destruct r. Qed.

Lemma protocol_snoc h m : protocol (h ++ [m]) =
  if decide (is_chain m) then protocol_step (protocol h) m else protocol h.
Proof.
  unfold protocol. rewrite chain_app, foldl_app. unfold chain at 1 2. cbn [filter list_filter].
  by destruct (decide (is_chain m)).
Qed.

(** A steady validator shows the state of the protocol. *)
Lemma steady_follows a h s :
  genesis_ok -> steady a h s ->
  rollover_ok (rollover s) /\ expecting a (rollover s) /\ public s = protocol h.
Proof.
  intros Hg. induction 1 as [|h s m _ (Hok & He & Hp) Hct Hown Hn]; [done|].
  destruct (step_follows a s m Hok He Hct Hown) as [Hf Hx].
  split; [exact (transition_rollover_ok (TR := as_account a) s m Hg Hct Hok)|]. split; [done|].
  rewrite protocol_snoc, <- Hp. destruct (decide (is_chain m)); [|by rewrite Hf].
  destruct Hf as [->|Hf]; [unfold protocol_step; by rewrite public_idemp|].
  exfalso. apply Hn. unfold gives_up, protocol_step. by rewrite public_idemp.
Qed.

(** C5: validators agree. Two validators of one deployment that saw the same messages
    of the chain, each with its own results of effects in between, in any order, are
    in the same state but for their secrets and sessions, as long as each committed
    after its own setup and gave up no round that goes on without it: they have the
    same active epoch, are at the same step of the same group's generation, with
    the same commitments, complaints and deadlines, and expect the same message to
    be signed for the rollover. *)
Theorem validators_agree a b h k s t :
  genesis_ok -> steady a h s -> steady b k t -> chain h = chain k ->
  public s = public t /\ active_epoch s = active_epoch t /\
  next_epoch (rollover s) = next_epoch (rollover t) /\ generating (rollover s) = generating (rollover t) /\
  (forall n g share message, rollover s = SigningRollover n g share message ->
    exists share', rollover t = SigningRollover n g share' message) /\
  (forall e g p cf st cs ds, rollover s = CollectingConfirmations e g p st cf cs ds ->
    exists p' st', rollover t = CollectingConfirmations e g p' st' cf cs ds /\
      Keygen.group_key (group_commitments p') = Keygen.group_key (group_commitments p)).
Proof.
  intros Hg Hs Ht Hc. destruct (steady_follows a h s Hg Hs) as (_ & _ & Hps).
  destruct (steady_follows b k t Hg Ht) as (_ & _ & Hpt).
  assert (public s = public t) as Hp by (rewrite Hps, Hpt; unfold protocol; by rewrite Hc).
  split; [done|]. unfold public in Hp. injection Hp as Hr Ha. split; [done|].
  split; [by rewrite <- next_epoch_public, Hr, next_epoch_public|].
  split; [by rewrite <- generating_public, Hr, generating_public|]. split.
  - intros n g share message E. rewrite E in Hr. destruct (rollover t); try discriminate Hr.
    injection Hr as <- <- <-. by eexists.
  - intros e g p cf st cs ds E. rewrite E in Hr. destruct (rollover t); try discriminate Hr.
    injection Hr as <- <- Hgc <- <- <-. eexists _, _. split; [done|]. by rewrite Hgc.
Qed.
End Agreement.
