(* ===== verification/Retention.v ===== *)
(** What a new block keeps: the sessions that are not expired or go on with a
    quorum, the groups those sessions and the key generation in progress need,
    and, through the secret store, the nonces they committed to. *)

From S2P Require Import Prelude Keccak Epoch Group Bindings FrostLib Frost Hashing Secrets.
From S2P Require Import Messages Service State KeyGen Signing Validator Clock Sessions.

Section Retention.
Context {KEC : Keccak} {FL : FrostLib} {EIP : Eip712} {ABI : Abi} {TR : Transition}.

(** ** Retained groups *)

Lemma list_to_map_Nonces (l : list Z) g :
  (list_to_map ((fun x => (x, Nonces)) <$> l) : gmap Z RetainedSecrets) !! g =
    if decide (g ∈ l) then Some Nonces else None.
Proof.
  induction l as [|x l IH]; [done|]. rewrite fmap_cons. cbn [list_to_map foldr].
  change (foldr _ _ _) with (list_to_map ((fun x => (x, Nonces)) <$> l) : gmap Z RetainedSecrets).
  simpl. destruct (decide (x = g)) as [->|Hne].
  - rewrite lookup_insert_eq, decide_True; [done|by left].
  - rewrite lookup_insert_ne, IH by done. repeat case_decide; set_solver.
Qed.

(** Every epoch's group is retained, with at least its nonces. *)
Lemma retained_epoch (eps : gmap EpochId.t Epoch) r e ep :
  eps !! e = Some ep -> is_Some (retained_groups eps r !! id (ep_group ep)).
Proof.
  intros He. unfold retained_groups.
  assert (is_Some ((list_to_map ((fun e => (id (ep_group e.2), Nonces)) <$> map_to_list eps)
    : gmap Z RetainedSecrets) !! id (ep_group ep))) as Hin.
  { replace ((fun e => (id (ep_group e.2), Nonces)) <$> map_to_list eps) with
      ((fun x => (x, Nonces)) <$> ((fun e => id (ep_group e.2)) <$> map_to_list eps))
      by (by rewrite <- list_fmap_compose).
    rewrite list_to_map_Nonces, decide_True; [eauto|].
    apply list_elem_of_fmap. exists (e, ep). split; [done|]. by apply elem_of_map_to_list. }
  destruct (rollover_group r) as [[g k]|]; [|done].
  destruct (decide (g = id (ep_group ep))) as [->|Hne].
  - rewrite lookup_insert_eq. eauto.
  - by rewrite lookup_insert_ne.
Qed.

Lemma retained_rollover (eps : gmap EpochId.t Epoch) r g k :
  rollover_group r = Some (g, k) -> retained_groups eps r !! g = Some k.
Proof. intros H. unfold retained_groups. rewrite H. apply lookup_insert_eq. Qed.

(** ** A block's sessions *)

(** The sessions after a block are those the timeouts kept. *)
Lemma new_block_session s b m :
  signing (apply_new_block s b).1 !! m =
    signing s !! m ≫= fun x => (time_out_session b m x).1.1.
Proof.
  unfold apply_new_block.
  assert (signing (handle_rollover_new_block s b).1 = signing s) as H1.
  { destruct (handle_rollover_new_block_spec s b) as [|n r]; [done|]. by destruct (rollover s). }
  destruct (handle_rollover_new_block s b) as [s1 c1]. cbn [fst] in H1.
  pose proof (frame_signing _ _ (key_gen_timeouts_frame s1 b)) as H2.
  destruct (handle_key_gen_timeouts s1 b) as [s2 c2]. cbn [fst] in H2.
  pose proof (timeouts_session s2 b m) as H3.
  destruct (handle_signing_timeouts s2 b) as [s3 c3]. cbn [fst] in H3. simpl.
  rewrite H3. congruence.
Qed.

(** A ceremony that goes on has a quorum of signers, this validator included. *)
Definition quorate (x : SigningState) : Prop :=
  match x with
  | WaitingForRequest ks _ _ _ _ signers _ | CollectSigningShares ks _ _ _ _ _ signers _ =>
      Keygen.group_threshold ks <= Z.of_nat (size signers) /\ account ∈ signers
  | _ => False
  end.

Lemma time_out_session_live b m x y :
  config_ok config -> b < u64_max -> (time_out_session b m x).1.1 = Some y ->
  b < deadline y /\ (deadline x <= b -> quorate y).
Proof.
  intros Hcfg Hb. unfold time_out_session.
  assert (b < signing_deadline b) as Hnext.
  { apply sat_add_gt; [|done]. pose proof (ok_signing_timeout _ Hcfg). lia. }
  case_decide as Hd; [intros [= <-]; split; [done|lia]|].
  destruct x as [ks g [r|] p a sg d| |ks g sid cm p sg d|ks g sid cm sl p sg d|sid p d];
    simpl; try done.
  - case_decide as Hq; [done|]. intros [= <-]. apply Decidable.not_or in Hq as [Hsz Hacc].
    simpl. split; [done|]. intros _. split; [lia|].
    by destruct (decide (account ∈ sg ∖ {[r]})).
  - case_decide as Hq; [done|]. intros [= <-]. apply Decidable.not_or in Hq as [Hsz Hacc].
    simpl. split; [done|]. intros _. rewrite size_dom. split; [lia|].
    apply elem_of_dom. by destruct (cm !! account).
  - case_decide as Hq; [done|]. intros [= <-]. apply Decidable.not_or in Hq as [Hsz Hacc].
    simpl. split; [done|]. intros _. split; [lia|].
    by destruct (decide (account ∈ shares_from (canonical_selection (Keygen.group_threshold ks) sl))).
Qed.

(** ** A block's reconciliation *)

Lemma new_block_reconciles s b :
  Command.Effect (Effect.ReconcileGroupSecrets b
    (retained_groups (epochs (apply_new_block s b).1) (rollover (apply_new_block s b).1)))
  ∈ (apply_new_block s b).2.
Proof.
  unfold apply_new_block. destruct (handle_rollover_new_block s b) as [s1 c1].
  destruct (handle_key_gen_timeouts s1 b) as [s2 c2].
  destruct (handle_signing_timeouts s2 b) as [s3 c3].
  unfold handle_group_reconciliation. cbn [fst snd epochs rollover with_epochs].
  rewrite !elem_of_app. right; right; right. by apply list_elem_of_singleton.
Qed.

Lemma live_session_retained s m x ks g :
  inv s -> signing s !! m = Some x -> share_of x = Some (ks, g) ->
  is_Some (retained_groups (epochs s) (rollover s) !! g).
Proof.
  intros Hs Hx Hsh. destruct (so_epoch _ _ _ (inv_session _ Hs m x Hx)) as (pe & Hpe & Hg).
  destruct (Hg ks g Hsh) as [_ ->]. by eapply retained_epoch.
Qed.

(** ** Canonical selections *)

Lemma NoDup_singleton_list {A} (l : list A) a :
  NoDup l -> a ∈ l -> (forall x, x ∈ l -> x = a) -> l = [a].
Proof.
  intros Hnd Ha Hall. destruct l as [|x [|y l]]; [by apply not_elem_of_nil in Ha| |].
  - by rewrite (Hall x ltac:(left)).
  - exfalso. apply NoDup_cons in Hnd as [Hx _]. apply Hx.
    rewrite (Hall x ltac:(left)), (Hall y ltac:(right; left)). left.
Qed.

Lemma filtered_selections t (sl : gmap Z SigningSelection) :
  filter (fun s => t <= Z.of_nat (size (shares_from s))) (sorted_values sl) =
  (filter (fun e : Z * SigningSelection => t <= Z.of_nat (size (shares_from e.2)))
     (sorted_entries sl)).*2.
Proof. unfold sorted_values. by rewrite filter_fmap. Qed.

Lemma NoDup_sorted_entries {V} (m : gmap Z V) : NoDup (sorted_entries m).
Proof.
  apply (NoDup_fmap_1 fst). rewrite sorted_entries_keys. apply NoDup_sorted_elements.
Qed.

(** One root can gather a majority of shares when no one shares twice. *)
Lemma canonical_selection_is U t (sl : gmap Z SigningSelection) root sel :
  (forall r s, sl !! r = Some s -> shares_from s ⊆ U) ->
  (forall r s r' s', sl !! r = Some s -> sl !! r' = Some s' -> r ≠ r' ->
     shares_from s ## shares_from s') ->
  Z.of_nat (size U) < 2 * t ->
  sl !! root = Some sel -> t <= Z.of_nat (size (shares_from sel)) ->
  canonical_selection t sl = sel.
Proof.
  intros HU Hdisj Ht Hsel Hsz. unfold canonical_selection. rewrite filtered_selections.
  rewrite (NoDup_singleton_list _ (root, sel)); [done| | |].
  - apply NoDup_filter, NoDup_sorted_entries.
  - apply list_elem_of_filter. split; [done|]. by apply elem_of_sorted_entries.
  - intros [r s] [Hs Hin]%list_elem_of_filter. apply elem_of_sorted_entries in Hin. simpl in Hs.
    destruct (decide (r = root)) as [->|Hne]; [congruence|]. exfalso.
    destruct (quorum_intersection U (shares_from s) (shares_from sel)) as (a & H1 & H2);
      [by eapply HU|by eapply HU|lia|].
    by apply (Hdisj r s root sel Hin Hsel Hne a).
Qed.

Lemma canonical_selection_none t (sl : gmap Z SigningSelection) :
  (forall r s, sl !! r = Some s -> Z.of_nat (size (shares_from s)) < t) ->
  canonical_selection t sl = default_selection.
Proof.
  intros Hall. unfold canonical_selection. rewrite filter_none; [done|].
  apply Forall_forall. intros s Hs. apply elem_of_sorted_values in Hs as [r Hr].
  specialize (Hall r s Hr). lia.
Qed.

End Retention.
