(* ===== verification/Deployment.v ===== *)
(** The deployed validator: its startup ([crates/validator/src/main.rs]), the
    assembly of its parts ([service/mod.rs]), and what it guarantees when the
    driver runs it. *)

From S2P Require Import Prelude Keccak Merkle Epoch Group Bindings FrostLib Frost Hashing.
From S2P Require Import Secrets Messages Snapshots StateMachine Node Blocks Events Watch.
From S2P Require Import TxTypes TxStorage TxQueue Driver Service State KeyGen Signing.
From S2P Require Import Validator Clock Sessions Gate Rounds.

Section Deployment.
Context {NODE : Node} {KEC : Keccak} {FL : FrostLib} {EIP : Eip712} {ABI : Abi}.

(** ** The service *)

Record ValidatorService := MkValidatorService {
  vs_account : Z;
  vs_secrets : SecretStore;
  vs_genesis : ParticipantSet;
  vs_consensus : Eip712Domain;
  vs_coordinator : Z;
  vs_config : ValidatorConfig
}.

(** [service::Error], without the failures of the store's database. *)
Inductive ServiceError := InvalidValidators.

(** [ValidatorService::new]. *)
Definition new_service (chain_id account : Z) (secrets : SecretStore) (coordinator : Z) (config : ValidatorConfig)
    : result ServiceError ValidatorService :=
  genesis ← ok_or (participants_set (cfg_participants config) (GroupEpoch.Genesis (genesis_salt config))) InvalidValidators;
  let consensus := ConsensusDomain_new chain_id (cfg_consensus config) in
  Ok (MkValidatorService account secrets genesis consensus coordinator config).

(** [components]: the transition, the effect handler and the action encoder. *)
Definition service_transition (s : ValidatorService) : Transition :=
  {| account := vs_account s; genesis := vs_genesis s; consensus := vs_consensus s; config := vs_config s |}.
Definition service_handler (s : ValidatorService) : Handler := MkHandler (vs_account s) (vs_secrets s).
Definition service_encoder (s : ValidatorService) : Encoder := MkEncoder (vs_coordinator s) (cfg_consensus (vs_config s)).

(** The set of events it watches. *)
Context {CE : SolEventInterface Consensus.ConsensusEvents} {CO : SolEventInterface Coordinator.CoordinatorEvents}.
Context {OR : SolEventInterface Oracle.OracleResult}.

Definition event_sets : list EventSet :=
  [ MkEventSet Consensus.ConsensusEvents CE; MkEventSet Coordinator.CoordinatorEvents CO; MkEventSet Oracle.OracleResult OR ].
Definition watched_event (e : WatcherEvents event_sets) : Event.t :=
  match e with
  | inl e => Event.Consensus e
  | inr (inl e) => Event.Coordinator e
  | inr (inr (inl e)) => Event.Oracle e
  | inr (inr (inr e)) => match e with end
  end.
#[export] Instance validator_events : Events Event.t := {|
  topics := watcher_topics event_sets;
  decode_log ts data := watched_event <$> watcher_decode event_sets ts data
|}.

(** The handler as the driver calls it: the generator of the thread an effect runs
    on is that of the effect's number. *)
Context (thread_rng : nat -> Rng).
#[export] Instance validator_effects : EffectHandler Handler Effect.t Resume.t := {|
  handle_effect n effect h := let '(h, r) := perform_effect h (thread_rng n) effect in (Some r, h);
  housekeep status h := housekeeping h status
|}.

(** ** Startup *)

Context (svc : ValidatorService).
Context {SER : Serde State} {EX : Executor} {SG : Signer} {TN : TxNode}.
#[local] Instance the_transition : Transition := service_transition svc.
#[local] Instance the_encoder : ActionEncoder Action.t := {| encode := encode_action (service_encoder svc) |}.

(** The contracts followed. *)
Definition watched : list Z := cfg_consensus config :: vs_coordinator svc :: sorted_elements (oracles config).

Abbreviation ValidatorDriver := (Driver (S := State) (H := Handler) (Effect := Effect.t) (Resume := Resume.t)).

(** Reconciling the staker: an action of its own, if the chain has another. *)
Definition reconcile_staker (staker : option Z) (current_staker : Z) (d : ValidatorDriver) : result DriverError ValidatorDriver :=
  match staker with
  | Some staker =>
      if decide (current_staker = staker) then Ok d else queue_action (Action.SetValidatorStaker staker) d
  | None => Ok d
  end.

(** [main], over the persisted snapshots and tables; none when the watcher does not
    start within [fuel]. *)
Definition start (fuel : nat) (snapshots : gmap Z Json) (st : TransactionStorage) (blocks : BlocksConfig)
    (events : EventsConfig) (txs : TxConfig) (staker : option Z) (current_staker : Z)
    : option (result DriverError ValidatorDriver) :=
  d ← new_driver fuel snapshots default_state (service_handler svc) st blocks events txs watched;
  Some (d ← d; reconcile_staker staker current_staker d).

(** ** Its machine replays the chain *)

Context {SL : SerdeLaws State}.

Lemma update_driver_reaches (d d' : ValidatorDriver) input :
  reaches default_state (d_state d) -> update_driver input d = Ok d' -> reaches default_state (d_state d').
Proof.
  intros Hr Hu. unfold update_driver in Hu. apply bind_Ok in Hu as (d1 & H1 & Hu).
  assert (d_state d1 = d_state d) as Hs1.
  { destruct input; [|by injection H1 as <-]. by apply on_queue_update in H1 as [(_ & _ & ? & _) _]. }
  apply bind_Ok in Hu as ([d2 cmds] & H2 & Hu). apply bind_Ok in Hu as (d3 & H3 & [= <-]).
  destruct (dispatch_spec _ _ _ H3) as (Hs3 & _).
  assert (d_state (if needs_housekeeping input then with_effects d3 (effects_housekeeping (d_effects d3)
    (block_status (d_watcher d))) else d3) = d_state d2) as -> by (by destruct (needs_housekeeping input)).
  rewrite <- Hs1 in Hr. unfold advance_machine in H2. destruct input as [u|r].
  - pose proof (reaches_update _ _ u Hr) as Hm. destruct (handle_update (d_state d1) u) as [m r].
    apply bind_Ok in H2 as (? & _ & H2). pose proof (reaches_prune _ _ (safe (block_status (d_watcher d))) Hm) as Hp.
    simpl in Hp. destruct (machine_prune m _) as [m' r']. by apply bind_Ok in H2 as (? & _ & [= <- <-]).
  - pose proof (reaches_resume _ _ r Hr) as Hm. destruct (handle_resume (d_state d1) r) as [m q].
    by apply bind_Ok in H2 as (? & _ & [= <- <-]).
Qed.

Lemma driver_step_reaches fuel ev (d d' : ValidatorDriver) :
  reaches default_state (d_state d) -> driver_step fuel ev d = Some (Ok d') -> reaches default_state (d_state d').
Proof.
  intros Hr Hs. destruct ev as [|i|]; cbn [driver_step] in Hs.
  - destruct (next_index fuel (d_watcher d) (d_tick d)) as [[[u w] tick]|]; [|done]. cbn [mbind option_bind] in Hs.
    destruct u as [u|e].
    + injection Hs as Hs. by eapply update_driver_reaches; [|exact Hs].
    + destruct (unrecoverable e); by simplify_eq.
  - by simplify_eq.
  - destruct (next_resume (d_effects d)) as [[x|] m]; injection Hs as Hs.
    + by eapply update_driver_reaches; [|exact Hs].
    + by simplify_eq.
Qed.

Lemma run_driver_reaches fuel schedule (d d' : ValidatorDriver) :
  reaches default_state (d_state d) -> run_driver fuel schedule d = Some (Ok d') -> reaches default_state (d_state d').
Proof.
  revert d. induction schedule as [|ev schedule IH]; intros d Hr Hd; cbn [run_driver] in Hd; [by simplify_eq|].
  destruct (driver_step fuel ev d) as [[d1|e]|] eqn:Hs; [|done|done]. cbn [mbind option_bind] in Hd.
  eapply IH; [|exact Hd]. by eapply driver_step_reaches.
Qed.

Lemma start_reaches fuel m0 st blocks events txs staker current_staker d :
  reaches default_state m0 ->
  start fuel (snapshots m0) st blocks events txs staker current_staker = Some (Ok d) ->
  reaches default_state (d_state d).
Proof.
  intros Hr Hs. unfold start in Hs.
  destruct (new_driver _ _ _ _ _ _ _ _ _) as [[d0|e]|] eqn:Hn; [|done|done]. cbn [mbind option_bind result_bind] in Hs.
  assert (reaches default_state (d_state d0)) as H0.
  { unfold new_driver in Hn. destruct (with_init (snapshots m0) default_state) as [m|e] eqn:Hm; [|done]. simpl in Hn.
    destruct (new_index _ _ _ _ _ _) as [[w tick]|]; [|done]. simpl in Hn. destruct w as [w|e]; [|done].
    destruct (new_queue _ _ _) as [[q|e] t]; [|done]. injection Hn as <-. simpl. by eapply reaches_restart. }
  injection Hs as Hs. unfold reconcile_staker in Hs. destruct staker as [k|]; [|by injection Hs as <-].
  case_decide; [by injection Hs as <-|]. unfold queue_action in Hs. destruct (queue_transactions _ _) as [r w].
  by apply bind_Ok in Hs as (? & _ & [= <-]).
Qed.

(** ** What it signs *)

(** [c] uses or publishes signing material for a packet that hashes to its session's
    message, and the oracle of a transaction approved it. *)
Definition accounted_for (h : list (Message.t Event.t Resume.t)) (msg : Message.t Event.t Resume.t)
    (c : Command.t Action.t Effect.t) : Prop :=
  exists m p, works_for (run default_state h) (run default_state (h ++ [msg])) c m p /\
    cleared (approved_in (h ++ [msg])) m p.

Lemma transition_commands (d : ValidatorDriver) input m commands c :
  reaches default_state (d_state d) -> transition_of input (d_state d) = (m, Ok commands) -> c ∈ commands ->
  emitted_in default_state m c.
Proof.
  intros Hr%reaches_sound Ht Hc. destruct input; [by eapply update_emitted|by eapply resume_emitted].
Qed.

Lemma emitted_accounted m c : emitted_in default_state m c -> signs c = true ->
  exists h msg k status,
    inner m = Some (run default_state (h ++ msg :: k), status) /\ replays (h ++ msg :: k) status /\
    accounted_for h msg c.
Proof.
  intros (h & msg & k & status & Hi & Hr & Hc) Hs. exists h, msg, k, status. split; [done|]. split; [done|].
  by apply signs_cleared.
Qed.

(** C1: the deployed validator signs what was approved on the chain it follows.
    However it was restarted over its snapshots, and whatever the schedule of
    polls, effects and results, the node, the transactions in its tables and its
    secrets, every input it processes makes the machine's transition for that
    input, keeps the state it leads to, enqueues as transactions exactly the actions
    the transition returned, in order, and spawns exactly its effects; and each of these
    that uses or publishes signing material was emitted by a message of a history
    that replays the consecutive blocks of one chain up to where its state is, for
    a packet that hashes to the message signed, which, for a transaction, an oracle
    the configuration allows approved in that history before. *)
Theorem deployed_validator_signs fuel m0 st blocks events txs staker current_staker d fuel' schedule d1 input d2 :
  reaches default_state m0 ->
  start fuel (snapshots m0) st blocks events txs staker current_staker = Some (Ok d) ->
  run_driver fuel' schedule d = Some (Ok d1) ->
  update_driver input d1 = Ok d2 ->
  exists m (commands : list (Command.t Action.t Effect.t)) queued ops1 ops2,
    transition_of input (d_state d1) = (m, Ok commands) /\ inner (d_state d2) = inner m /\
    enqueue (apply_ops (storage_of d1) ops1) (encode_action (service_encoder svc) <$> actions_of commands) = Ok queued /\
    storage_of d2 = apply_ops queued ops2 /\ Driver.quiet ops1 /\ Driver.quiet ops2 /\
    running (d_effects d2) = running (d_effects d1) ++ effects_of commands /\
    forall c, c ∈ commands -> signs c = true ->
      exists h msg k status,
        inner (d_state d2) = Some (run default_state (h ++ msg :: k), status) /\ replays (h ++ msg :: k) status /\
        accounted_for h msg c.
Proof.
  intros H0 Hs Hrun Hu. pose proof (start_reaches _ _ _ _ _ _ _ _ _ H0 Hs) as Hr.
  pose proof (run_driver_reaches _ _ _ _ Hr Hrun) as Hr1.
  destruct (update_driver_spec _ _ _ Hu) as (m & commands & queued & ops1 & ops2 & Ht & Hi & _ & He & Hq & Hq1 & Hq2 & Hrn & _).
  exists m, commands, queued, ops1, ops2. split_and!; try done. intros c Hc Hsg.
  rewrite Hi. eapply emitted_accounted; [|done]. by eapply transition_commands.
Qed.

(** The service's genesis is the one its configuration derives. *)
Lemma new_service_genesis chain_id account secrets coordinator config :
  new_service chain_id account secrets coordinator config = Ok svc -> genesis_ok.
Proof.
  unfold new_service. intros Hn. apply bind_Ok in Hn as (g & Hg%ok_or_Ok & Hn). injection Hn as Hn.
  unfold genesis_ok. simpl. by rewrite <- Hn.
Qed.
End Deployment.
