(* ===== verification/Shares.v ===== *)
(** Every pair of nonces signs once. What the validator's handler generates, keeps,
    hands out and signs with is followed through its lives: the effects performed
    in any order, however often, the collections of the store, the reorganizations
    of the machine, which forgets what it signed, and restarts over the database. *)

From S2P Require Import Prelude Keccak Merkle Epoch Group Bindings FrostLib Frost Hashing.
From S2P Require Import Secrets Messages Snapshots StateMachine Node Blocks Events Watch.
From S2P Require Import TxTypes TxStorage TxQueue Driver Service State KeyGen Signing.
From S2P Require Import Validator Clock Sessions Gate Rounds Deployment.

(** ** Signature shares come from nonces *)

Definition is_share (a : Action.t) : bool := match a with Action.SignShare _ _ _ _ _ _ => true | _ => false end.

Section Shares.
Context {KEC : Keccak} {FL : FrostLib} {EIP : Eip712} {ABI : Abi} {TR : Transition}.

Abbreviation Message := (Message.t Event.t Resume.t).
Abbreviation Commands := (list (Command.t Action.t Effect.t)).

Definition shares_in (cs : Commands) : list Action.t := filter is_share (actions_of cs).

(** The share was made with these nonces. *)
Definition signed_with (a : Action.t) (nonces : Sign.SigningNonces) : Prop :=
  match a with
  | Action.SignShare _ selection share proof _ _ =>
      exists key_share committed message result,
        Sign.signature_share key_share nonces committed message = Ok result /\
        selection = Sign.selection result /\ share = Sign.share result /\ proof = Sign.inclusion result
  | _ => False
  end.

Definition unshared (c : Command.t Action.t Effect.t) : Prop :=
  match c with Command.Action a => is_share a = false | Command.Effect _ => True end.

Lemma unshared_none cs : Forall unshared cs -> shares_in cs = [].
Proof.
  unfold shares_in, actions_of. induction 1 as [|[a|e] cs Hc _ IH]; [done| |done].
  change (filter is_share (a :: omap (fun c => match c with Command.Action a => Some a | _ => None end) cs) = []).
  rewrite filter_cons, decide_False; [exact IH|]. unfold unshared in Hc. intros Ha. by rewrite Hc in Ha.
Qed.
Lemma silent_unshared cs : silent cs -> Forall unshared cs.
Proof. intros Hs. eapply Forall_impl; [exact Hs|]. by intros [[]|]. Qed.

Lemma timeouts_unshared s b : Forall unshared (handle_signing_timeouts s b).2.
Proof.
  apply Forall_forall. intros c Hc. destruct (signs c) eqn:Hs; [|by destruct c as [[]|]]. simpl in Hc.
  apply list_elem_of_join in Hc as (cs & Hcs & Hin). apply list_elem_of_fmap in Hin as (o & -> & Ho).
  apply list_elem_of_fmap in Ho as ([m x] & -> & _).
  destruct (time_out_session_accounted b m x c Hcs Hs) as [(ks & g & sid & cm & p & d & -> & _)|(sid & p & d & d' & _ & ->)];
    [done|by destruct p].
Qed.
Lemma new_block_unshared s b : Forall unshared (apply_new_block s b).2.
Proof.
  unfold apply_new_block. pose proof (rollover_new_block_silent s b) as C1.
  destruct (handle_rollover_new_block s b) as [s1 c1]. pose proof (key_gen_timeouts_silent s1 b) as C2.
  destruct (handle_key_gen_timeouts s1 b) as [s2 c2]. pose proof (timeouts_unshared s2 b) as C3.
  destruct (handle_signing_timeouts s2 b) as [s3 c3]. unfold handle_group_reconciliation. cbn [fst snd] in *.
  rewrite !Forall_app. split_and!; [by apply silent_unshared..|done|by repeat constructor].
Qed.

(** Each branch's commands, one by one. *)
Ltac unshare := repeat first [case_match; simplify_eq/= | constructor | done].

Lemma event_unshared s b address ev : Forall unshared (apply_event s b address ev).2.
Proof.
  destruct ev as [[]|[]|ev]; cbn [apply_event]; try (by constructor);
    try (by apply silent_unshared; first
      [apply key_gen_committed_silent|apply key_gen_secret_shared_silent|apply key_gen_confirmed_silent
      |apply key_gen_complained_silent|apply key_gen_complaint_responded_silent|apply epoch_staged_silent]).
  - unfold handle_transaction_proposed. unshare.
  - rename e into event. apply silent_unshared. unfold handle_genesis_key_gen. rollover_cases s E; try constructor.
    case_decide; [constructor|apply start_key_gen_silent].
  - unfold handle_sign. unshare.
  - unfold handle_sign_committed_nonces. unshare.
  - unfold handle_sign_shared. unshare.
  - unfold handle_sign_completed. unshare.
  - unfold handle_oracle_result. unshare.
Qed.

(** The nonces a result hands to the machine. *)
Definition handed (r : Resume.t) : list Sign.SigningNonces :=
  match r with Resume.Nonces _ nonces => [nonces] | _ => [] end.

(** A result is signed with at most once, with the nonces it holds. *)
Lemma resume_shares s r :
  exists used, used ⊆+ handed r /\ Forall2 signed_with (shares_in (apply_resume s r).2) used.
Proof.
  destruct r as [|g k|sid n|m n]; cbn [apply_resume handed].
  - exists []. by split.
  - exists []. rewrite (unshared_none _ (silent_unshared _ (key_gen_setup_silent s g k))). by split.
  - exists []. rewrite unshared_none; [by split|]. unfold handle_nonce_commitments. unshare.
  - unfold handle_nonces. destruct (signing s !! m) as [[| | |ks g sid cm sl p sg d|]|]; try (by exists []; split; [apply submseteq_nil_l|]).
    destruct (Sign.signature_share ks n cm m) as [result|] eqn:E; [|by exists []; split; [apply submseteq_nil_l|]].
    exists [n]. split; [done|]. constructor; [|constructor]. by exists ks, cm, m, result.
Qed.

(** ** The store's pairs *)

Definition row_pair (e : Z * NoncesRow) : option Sign.SigningNonces := nr_nonces e.2.
Definition held (s : SecretStore) : list Sign.SigningNonces := omap row_pair (map_to_list (signing_nonces s)).

(** The nonces an effect generates, from the generator it reads. *)
Definition generated (rng : Rng) (effect : Effect.t) : list Sign.SigningNonces :=
  match effect with Effect.GenerateNonces _ _ key_share => [(Sign.generate key_share rng).1] | _ => [] end.

Lemma held_rows s s' : signing_nonces s' = signing_nonces s -> held s' = held s.
Proof. unfold held. by intros ->. Qed.

Lemma held_insert keygen rows last sid row :
  rows !! sid = None ->
  held (MkSecretStore keygen (<[sid := row]> rows) last) ≡ₚ option_list (nr_nonces row) ++ held (MkSecretStore keygen rows last).
Proof.
  intros Hn. unfold held. cbn [signing_nonces]. rewrite map_to_list_insert by done. cbn [omap list_omap].
  unfold row_pair at 1. cbn [snd]. by destruct (nr_nonces row).
Qed.

Lemma held_at s sid row :
  signing_nonces s !! sid = Some row ->
  held s ≡ₚ option_list (nr_nonces row) ++ held (MkSecretStore (keygen_secrets s) (delete sid (signing_nonces s)) (reconciliation s)).
Proof.
  intros Hr. rewrite <- held_insert by apply lookup_delete_eq. rewrite insert_delete_id by done. by destruct s.
Qed.

Lemma store_held s group sid me nonces :
  held (store_signing_nonces s group sid me nonces).1 ⊆+ held s ++ [nonces].
Proof.
  unfold store_signing_nonces. destruct (signing_nonces s !! sid) as [row|] eqn:E; cbn [fst].
  - rewrite (held_rows s) by done. by apply submseteq_inserts_r.
  - rewrite held_insert by done. cbn. destruct s. rewrite (Permutation_app_comm _ [nonces]). done.
Qed.

Lemma take_held s sid :
  held (take_signing_nonces s sid).1 ++ option_list (take_signing_nonces s sid).2 ⊆+ held s.
Proof.
  unfold take_signing_nonces. destruct (signing_nonces s !! sid) as [row|] eqn:E; cbn [mbind option_bind];
    [|by rewrite app_nil_r].
  destruct (nr_nonces row) as [n|] eqn:En; cbn [fst snd option_list]; [|by rewrite app_nil_r].
  rewrite (held_at s sid row E), En. cbn [option_list app]. rewrite Permutation_app_comm. apply submseteq_skips_l.
  rewrite (held_at _ sid (clear_nonces row)); [|cbn; by rewrite lookup_alter_eq, E]. cbn.
  by rewrite delete_alter_eq.
Qed.

Lemma scheduled_held s s' block retained b :
  schedule_group_secrets_deletion s block retained = Ok (s', b) -> held s' ≡ₚ held s.
Proof.
  unfold schedule_group_secrets_deletion. intros Hs. apply bind_Ok in Hs as (bl & _ & Hs).
  destruct (match reconciliation s with Some _ => _ | None => _ end); injection Hs as <- _; [|done].
  unfold held, reschedule_nonces. cbn [signing_nonces]. rewrite map_to_list_fmap.
  induction (map_to_list (signing_nonces s)) as [|[k row] l IH]; [done|]. cbn. unfold row_pair at 1 3. cbn.
  destruct (nr_nonces row); [by rewrite IH|exact IH].
Qed.

Lemma pruned_held s s' safe p : prune_scheduled_secrets s safe = Ok (s', p) -> held s' ⊆+ held s.
Proof.
  unfold prune_scheduled_secrets. intros Hs. apply bind_Ok in Hs as (bl & _ & Hs). injection Hs as <- _.
  unfold held. cbn [signing_nonces].
  destruct (submseteq_Permutation _ _ (map_to_list_submseteq _ _ (map_filter_subseteq
    (fun e => ¬ due bl (nr_delete_at_block e.2)) (signing_nonces s)))) as [k Hk].
  rewrite Hk, omap_app. by apply submseteq_inserts_r.
Qed.

(** ** The handler's pairs *)

#[local] Opaque store_signing_nonces take_signing_nonces schedule_group_secrets_deletion prune_scheduled_secrets.

(** What an effect hands out it takes, and what it keeps it had or generated. *)
Lemma perform_held h rng effect :
  held (handler_secrets (perform_effect h rng effect).1) ++ handed (perform_effect h rng effect).2 ⊆+
  held (handler_secrets h) ++ generated rng effect.
Proof.
  unfold perform_effect. destruct effect as [g c t|g sid ks|m sid|b gs]; cbn [try_perform_effect generated].
  - destruct (Keygen.setup rng (handler_account h) c t) as [[k|e] rng']; cbn; [|done].
    unfold store_keygen_secrets. by destruct (keygen_secrets (handler_secrets h) !! (g, handler_account h)).
  - pose proof (store_held (handler_secrets h) g sid (handler_account h) (Sign.generate ks rng).1) as Hs.
    destruct (store_signing_nonces _ _ _ _ _) as [st o]. cbn [fst] in Hs. cbn [fst snd with_secrets handler_secrets].
    destruct o; cbn [handed]; by rewrite app_nil_r.
  - pose proof (take_held (handler_secrets h) sid) as Ht.
    destruct (take_signing_nonces _ _) as [st o]. cbn [fst snd] in Ht. cbn [fst snd with_secrets handler_secrets].
    rewrite app_nil_r. by destruct o.
  - destruct (schedule_group_secrets_deletion _ _ _) as [[st x]|e] eqn:E; cbn; rewrite !app_nil_r; [|done].
    by rewrite (scheduled_held _ _ _ _ _ E).
Qed.

Lemma housekeeping_held h status : held (handler_secrets (housekeeping h status)) ⊆+ held (handler_secrets h).
Proof.
  unfold housekeeping. destruct (prune_scheduled_secrets _ _) as [[st x]|e] eqn:E; [|done].
  by eapply pruned_held.
Qed.

(** ** The effects in progress *)

Abbreviation Effects := (EffectManager (H := Handler) (Effect := Effect.t) (Resume := Resume.t)).

(** The pairs the handler holds, and those in results not collected yet. *)
Definition ended_pairs (ended : list (option Resume.t)) : list Sign.SigningNonces :=
  ended ≫= fun r => match r with Some r => handed r | None => [] end.
Definition pairs (e : Effects) : list Sign.SigningNonces := held (handler_secrets (handler e)) ++ ended_pairs (ended e).

(** What ending the task at [i] generates. *)
Definition generated_at (thread_rng : nat -> Rng) (e : Effects) (i : nat) : list Sign.SigningNonces :=
  match running e !! i with Some effect => generated (thread_rng (entropy e)) effect | None => [] end.

Lemma complete_pairs thread_rng e i :
  pairs (complete (EH := validator_effects thread_rng) e i) ⊆+ pairs e ++ generated_at thread_rng e i.
Proof.
  unfold complete, generated_at. destruct (running e !! i) as [effect|]; [|by rewrite app_nil_r].
  pose proof (perform_held (handler e) (thread_rng (entropy e)) effect) as Hp. cbn [handle_effect validator_effects].
  destruct (perform_effect _ _ _) as [h r]. cbn [fst snd] in Hp. unfold pairs. cbn [handler ended]. unfold ended_pairs.
  rewrite bind_app. cbn. rewrite app_nil_r. rewrite (Permutation_app_comm (_ (ended e))), !app_assoc.
  rewrite <- (app_assoc (held _) _ (generated _ _)), (Permutation_app_comm (_ (ended e)) (generated _ _)), app_assoc.
  by apply submseteq_skips_r.
Qed.

Lemma next_pairs e :
  pairs (next_resume e).2 ++ match (next_resume e).1 with Some r => handed r | None => [] end ⊆+ pairs e.
Proof.
  unfold next_resume, pairs. assert (ended_pairs (first_resume (ended e)).2 ++
    match (first_resume (ended e)).1 with Some r => handed r | None => [] end ⊆+ ended_pairs (ended e)) as Hf.
  { induction (ended e) as [|[r|] l IH]; [done| |exact IH]. cbn. by rewrite Permutation_app_comm. }
  destruct (first_resume (ended e)) as [r rest]. cbn [fst snd handler ended] in *. rewrite <- app_assoc.
  by apply submseteq_skips_l.
Qed.
End Shares.

(** ** Lives *)

Section Lives.
Context {KEC : Keccak} {FL : FrostLib} {EIP : Eip712} {ABI : Abi}.
Context {SER : Serde State} {SL : SerdeLaws State} {EX : Executor} {SG : Signer}.
Context {CE : SolEventInterface Consensus.ConsensusEvents} {CO : SolEventInterface Coordinator.CoordinatorEvents}.
Context {OR : SolEventInterface Oracle.OracleResult}.
Context (svc : ValidatorService) (thread_rng : nat -> Rng).

#[local] Instance self_transition : Transition := the_transition svc.
#[local] Instance self_encoder : ActionEncoder Action.t := the_encoder svc.
Abbreviation ValidatorDriver := (Driver (S := State) (H := Handler) (Effect := Effect.t) (Resume := Resume.t)).

(** The generators of a process that starts after [k] effects, and the service over
    the secrets of its database. *)
Definition rng_after (k n : nat) : Rng := thread_rng (k + n).
Definition with_store (store : SecretStore) : ValidatorService :=
  MkValidatorService (vs_account svc) store (vs_genesis svc) (vs_consensus svc) (vs_coordinator svc) (vs_config svc).

(** The commands of the input a step processes. *)
Definition step_commands {NODE : Node} (fuel : nat) (ev : DriverEvent) (d : ValidatorDriver) : list (Command.t Action.t Effect.t) :=
  match ev with
  | Poll =>
      match next_index fuel (d_watcher d) (d_tick d) with
      | Some (Ok u, _, _) => match handle_update (d_state d) u with (_, Ok commands) => commands | _ => [] end
      | _ => []
      end
  | Complete _ => []
  | Collect =>
      match next_resume (d_effects d) with
      | (Some r, _) => match handle_resume (d_state d) r with (_, Ok commands) => commands | _ => [] end
      | (None, _) => []
      end
  end.
(** The pairs a step generates. *)
Definition step_generated (k : nat) (ev : DriverEvent) (d : ValidatorDriver) : list Sign.SigningNonces :=
  match ev with Complete i => generated_at (rng_after k) (d_effects d) i | _ => [] end.

(** The lives of the service, over its first database: the effects performed before
    the process began, the driver, the pairs of nonces generated and the signature
    shares among its commands. *)
Inductive lives : nat -> ValidatorDriver -> list Sign.SigningNonces -> list Action.t -> Prop :=
| life_begins (NODE : Node) (TN : TxNode) fuel st blocks events txs staker current_staker d :
    start (with_store empty_store) fuel ∅ st blocks events txs staker current_staker = Some (Ok d) -> lives 0 d [] []
| life_goes_on (NODE : Node) (TN : TxNode) k d gen shares fuel ev d' :
    lives k d gen shares -> driver_step (EH := validator_effects (rng_after k)) fuel ev d = Some (Ok d') ->
    lives k d' (gen ++ step_generated k ev d) (shares ++ shares_in (step_commands fuel ev d))
| life_restarts (NODE : Node) (TN : TxNode) k d gen shares fuel blocks events txs staker current_staker d' :
    lives k d gen shares ->
    start (with_store (handler_secrets (handler (d_effects d)))) fuel (snapshots (d_state d)) (storage_of d)
      blocks events txs staker current_staker = Some (Ok d') ->
    lives (k + entropy (d_effects d)) d' gen shares.

(** Every pair is held, in a result, or used, once. *)
Definition accounted_pairs (e : EffectManager (H := Handler) (Effect := Effect.t) (Resume := Resume.t)) (gen : list Sign.SigningNonces) (shares : list Action.t) : Prop :=
  exists used, pairs e ++ used ⊆+ gen /\ Forall2 signed_with shares used.

Lemma start_effects {NODE : Node} {TN : TxNode} store fuel snapshots st blocks events txs staker current_staker d :
  start (with_store store) fuel snapshots st blocks events txs staker current_staker = Some (Ok d) ->
  d_effects d = new_effects (MkHandler (vs_account svc) store).
Proof.
  unfold start. intros Hs. destruct (new_driver _ _ _ _ _ _ _ _ _) as [[d0|e]|] eqn:Hn; [|done|done].
  cbn [mbind option_bind result_bind] in Hs. assert (d_effects d0 = new_effects (MkHandler (vs_account svc) store)) as H0.
  { unfold new_driver in Hn. destruct (with_init _ _) as [m|e]; [|done]. simpl in Hn.
    destruct (new_index _ _ _ _ _ _) as [[w tick]|]; [|done]. simpl in Hn. destruct w as [w|e]; [|done].
    destruct (new_queue _ _ _) as [[q|e] t]; [|done]. by injection Hn as <-. }
  injection Hs as Hs. unfold reconcile_staker in Hs. destruct staker as [s|]; [|by injection Hs as <-].
  case_decide; [by injection Hs as <-|]. unfold queue_action in Hs. destruct (queue_transactions _ _) as [r w].
  by apply bind_Ok in Hs as (? & _ & [= <-]).
Qed.

(** What blocks and events make the machine ask for signs nothing. *)
Lemma update_unshared m u m' commands :
  sound default_state m -> handle_update m u = (m', Ok commands) -> Forall unshared commands.
Proof.
  intros Hs Hu. destruct (inner m) as [[state status]|] eqn:Hin; [|unfold handle_update in Hu; by rewrite Hin in Hu].
  destruct (sound_refines _ _ _ _ Hs Hin) as (sp & Hm & _).
  destruct (update_refined _ _ _ _ _ _ Hm Hu) as (sp' & ms & E & _ & ->).
  destruct (spec_update_moves _ _ _ _ E) as (Hof & _ & _). apply Forall_forall.
  intros c (h & msg & k & -> & Hc)%emitted_from. apply Forall_app in Hof as [_ [Hmsg _]%Forall_cons].
  destruct msg as [b|log|r]; [| |done].
  - by eapply Forall_forall in Hc; [|apply new_block_unshared].
  - by eapply Forall_forall in Hc; [|apply event_unshared].
Qed.

Lemma update_pairs {NODE : Node} {TN : TxNode} k input d d' :
  update_driver (EH := validator_effects (rng_after k)) input d = Ok d' -> pairs (d_effects d') ⊆+ pairs (d_effects d).
Proof.
  intros Hu.
  destruct (update_driver_spec _ _ _ Hu) as (m & cs & queued & ops1 & ops2 & _ & _ & _ & _ & _ & _ & _ & _ & Hend & _ & Hhan).
  unfold pairs. rewrite Hend, Hhan. apply submseteq_skips_r. destruct (needs_housekeeping input); [|done].
  apply housekeeping_held.
Qed.

(** A step enqueues its commands' actions, and none but an input's step has any. *)
Definition enqueues_commands {NODE : Node} (fuel : nat) (ev : DriverEvent) (d d' : ValidatorDriver) : Prop :=
  exists queued ops1 ops2,
    enqueue (apply_ops (storage_of d) ops1) (encode_action (service_encoder svc) <$> actions_of (step_commands fuel ev d)) = Ok queued /\
    storage_of d' = apply_ops queued ops2 /\ Driver.quiet ops1 /\ Driver.quiet ops2.

Lemma step_accounted {NODE : Node} {TN : TxNode} k fuel ev d d' gen shares :
  sound default_state (d_state d) -> accounted_pairs (d_effects d) gen shares ->
  driver_step (EH := validator_effects (rng_after k)) fuel ev d = Some (Ok d') ->
  accounted_pairs (d_effects d') (gen ++ step_generated k ev d) (shares ++ shares_in (step_commands fuel ev d)) /\
  enqueues_commands fuel ev d d'.
Proof.
  intros Hm (used & Hsub & Hall) Hs.
  assert (forall d', storage_of d' = storage_of d -> step_commands fuel ev d = [] -> enqueues_commands fuel ev d d') as Hidle.
  { intros d1 Hst Hc. exists (storage_of d), [], []. rewrite Hc. split_and!; [done|done|constructor|constructor]. }
  destruct ev as [|i|]; cbn [driver_step step_generated step_commands] in *.
  - rewrite app_nil_r. destruct (next_index fuel (d_watcher d) (d_tick d)) as [[[u w] tick]|] eqn:En; [|done].
    cbn [mbind option_bind] in Hs. destruct u as [u|e].
    + injection Hs as Hu. pose proof (update_pairs k _ _ _ Hu) as Hp.
      destruct (update_driver_spec _ _ _ Hu) as (m & cs & queued & ops1 & ops2 & Ht & _ & _ & Hq & Hst & Hq1 & Hq2 & _).
      cbn [transition_of d_state] in Ht. split.
      * rewrite Ht. rewrite unshared_none by (by eapply update_unshared). rewrite app_nil_r. exists used.
        split; [|done]. etransitivity; [by apply submseteq_skips_r|done].
      * exists queued, ops1, ops2. unfold step_commands. rewrite En, Ht. done.
    + destruct (unrecoverable e); [by simplify_eq|]. injection Hs as <-. rewrite app_nil_r.
      split; [by exists used|]. by apply Hidle.
  - injection Hs as <-. rewrite app_nil_r. split; [|by apply Hidle]. exists used. split; [|done]. cbn [with_effects d_effects].
    etransitivity; [apply submseteq_skips_r, complete_pairs|]. fold (step_generated k (Complete i) d).
    rewrite <- app_assoc, (Permutation_app_comm _ used), app_assoc. by apply submseteq_skips_r.
  - rewrite app_nil_r. pose proof (next_pairs (d_effects d)) as Hn.
    destruct (next_resume (d_effects d)) as [[r|] e] eqn:En; cbn [fst snd] in Hn.
    + injection Hs as Hu. pose proof (update_pairs k _ _ _ Hu) as Hp. cbn [with_effects d_effects] in Hp.
      destruct (update_driver_spec _ _ _ Hu) as (m & cs & queued & ops1 & ops2 & Ht & _ & _ & Hq & Hst & Hq1 & Hq2 & _).
      cbn [transition_of d_state with_effects] in Ht. rewrite Ht. split.
      * unfold handle_resume in Ht. destruct (inner (d_state d)) as [[s status]|]; [|done].
        destruct (resume_shares s r) as (more & Hmore & Hsig). change (apply_transition s (Message.Resume r)) with (apply_resume s r) in Ht.
        destruct (apply_resume s r) as [s' cs']. injection Ht as _ <-.
        exists (used ++ more). split; [|by apply Forall2_app].
        etransitivity; [by apply submseteq_skips_r|]. etransitivity; [|exact Hsub].
        rewrite (Permutation_app_comm used more), app_assoc. apply submseteq_skips_r.
        etransitivity; [by apply submseteq_skips_l|exact Hn].
      * exists queued, ops1, ops2. unfold step_commands. rewrite En, Ht. done.
    + injection Hs as <-. rewrite app_nil_r. split.
      * exists used. split; [|done]. cbn [with_effects d_effects]. rewrite app_nil_r in Hn.
        etransitivity; [by apply submseteq_skips_r|done].
      * by apply Hidle.
Qed.

Lemma lives_accounted k d gen shares :
  lives k d gen shares -> reaches default_state (d_state d) /\ accounted_pairs (d_effects d) gen shares.
Proof.
  induction 1 as [NODE TN fuel st blocks events txs staker current_staker d Hd|NODE TN k d gen shares fuel ev d' _ [Hr Ha] Hs
    |NODE TN k d gen shares fuel blocks events txs staker current_staker d' _ [Hr (used & Hsub & Hall)] Hd].
  - split; [exact (start_reaches (with_store empty_store) fuel (MkStateMachine (Some (default_state, Initialized)) ∅) _ _ _ _ _ _ d
      (reaches_start _) Hd)|].
    rewrite (start_effects _ _ _ _ _ _ _ _ _ _ Hd). by exists [].
  - split; [by eapply driver_step_reaches|]. by apply (step_accounted k fuel ev d d' gen shares (reaches_sound _ _ Hr) Ha).
  - split; [exact (start_reaches (with_store _) fuel (d_state d) _ _ _ _ _ _ d' Hr Hd)|].
    rewrite (start_effects _ _ _ _ _ _ _ _ _ _ Hd). exists used. split; [|done].
    etransitivity; [apply submseteq_skips_r|exact Hsub]. unfold pairs. cbn. by apply submseteq_skips_l, submseteq_nil_l.
Qed.

(** C2: no pair of nonces signs twice. Over all the lives of the deployed validator
    (any node, any schedule of polls, effects and results, the reorganizations after
    which its machine asks for signatures again, restarts over its database at any
    point), a step enqueues as transactions exactly the actions of its commands, and
    every signature share it ever enqueued, the step's included, was made with a
    pair of nonces that the validator generated and that made no other share. *)
Theorem nonces_sign_once {NODE : Node} {TN : TxNode} k d gen shares fuel ev d' :
  lives k d gen shares -> driver_step (EH := validator_effects (rng_after k)) fuel ev d = Some (Ok d') ->
  enqueues_commands fuel ev d d' /\
  exists used, used ⊆+ gen ++ step_generated k ev d /\
    Forall2 signed_with (shares ++ shares_in (step_commands fuel ev d)) used.
Proof.
  intros Hl Hs. destruct (lives_accounted _ _ _ _ Hl) as [Hr Ha].
  destruct (step_accounted k fuel ev d d' gen shares (reaches_sound _ _ Hr) Ha Hs) as [(used & Hsub & Hall) He].
  split; [done|]. exists used. split; [|done]. etransitivity; [|exact Hsub]. by apply submseteq_inserts_l.
Qed.
End Lives.
