(* ===== verification/Toy.v ===== *)
(** Concrete instances of the parameters, to evaluate the development on: a
    group of two elements for the curve, identity encodings, and a configuration
    of two validators with one oracle. Nothing here models code; the witnesses
    of the theorems are runs of these instances. *)

From S2P Require Import Prelude Keccak Merkle Epoch Group Bindings FrostLib Frost Hashing.
From S2P Require Import Secrets Messages Snapshots StateMachine Service State KeyGen Signing.
From S2P Require Import Validator Clock Sessions Rounds.

#[export] Existing Instance toy_keccak.

(** ** The curve of two points

    The scalars are the booleans, the points their multiples of the generator
    [true]. Every participant's share is [true]. *)

Record toy_secret := MkToySecret { ts_id : Z; ts_count : Z; ts_threshold : Z }.

Definition toy_commitment : list bool := [true].
Definition toy_proof : bool * bool := (true, true).

#[export] Instance toy_frost : FrostLib := {|
  Scalar := bool;
  ProjectivePoint := bool;
  scalar_to_bytes b := if b then 1 else 0;
  scalar_from_repr z := if decide (z = 0) then Some false
                        else if decide (z = 1) then Some true else None;
  IDENTITY := false;
  GENERATOR := true;
  point_add := xorb;
  point_mul := andb;
  point_affine p := if p : bool then (1, 1) else (0, 0);
  point_from_encoded x y := if decide (x = 1 /\ y = 1) then Some true else None;
  hash_to_field _ _ := true;
  Rng := Z;
  fill_bytes r := (r mod 2 ^ 256, r + 1);
  Identifier_derive a := a;
  Round1Secret := toy_secret;
  round1_identifier := ts_id;
  round1_commitment _ := toy_commitment;
  Round2Secret := toy_secret;
  round2_identifier := ts_id;
  round2_commitment _ := toy_commitment;
  round2_secret_share _ := true;
  compute_proof_of_knowledge _ _ _ r := (Ok toy_proof, r + 1);
  verify_proof_of_knowledge _ _ _ := Ok ();
  dkg_part1 i c t r := (Ok (MkToySecret i c t, (toy_commitment, toy_proof)), r + 1);
  dkg_part2 s peers := Ok (s, (fun _ => true) <$> peers);
  dkg_part3 s _ _ := Ok (ts_id s, true, true, true, ts_threshold s);
  sum_commitments _ := Ok toy_commitment;
  VerifyingKey_from_commitment _ := Ok true;
  VerifyingShare_from_commitment _ _ := true;
  SecretShare_verify _ _ _ := Ok ();
  LibNonces := Z;
  nonces_new _ r := (r, r + 1);
  nonces_commitments _ := (true, true);
  round2_sign _ _ _ := Ok 5;
  compute_binding_factor_list package _ := Ok ((fun _ => true) <$> package.1);
  derive_interpolating_value _ _ := Ok true;
  compute_group_commitment _ _ := Ok true
|}.

Lemma toy_frost_laws : FrostLaws.
Proof.
  constructor.
  - by intros [].
  - intros []; unfold is_u256; simpl; lia.
  - by intros [].
  - by intros [].
  - intros []; unfold is_u256; simpl; lia.
  - by intros [] [].
  - intros s p s2 shares H. by injection H as <- _.
Qed.

(** ** Encodings *)

#[export] Instance toy_eip712 : Eip712 := {|
  Eip712Domain := Z * Z;
  domain_new c a := (c, a);
  separator d := keccak256 (be_bytes 32 d.1 ++ be_bytes 32 d.2);
  safe_tx_eip712_hash_struct tx :=
    keccak256 (be_bytes 32 (stx_to tx) ++ be_bytes 32 (stx_value tx) ++ be_bytes 32 (stx_nonce tx));
  safe_tx_eip712_signing_hash tx d :=
    keccak256 (be_bytes 32 d.1 ++ be_bytes 32 (stx_to tx) ++ be_bytes 32 (stx_value tx)
                 ++ be_bytes 32 (stx_nonce tx));
  transaction_proposal_encode_type := [84; 80];
  epoch_rollover_signing_hash a p b x y d :=
    keccak256 (be_bytes 32 a ++ be_bytes 32 p ++ be_bytes 32 b ++ be_bytes 32 x ++ be_bytes 32 y)
|}.

#[export] Instance toy_abi : Abi := {|
  abi_encode call :=
    match call with
    | attestTransactionCall e o _ _ _ h sid => be_bytes 32 e ++ be_bytes 32 o ++ be_bytes 32 h
    | stageEpochCall p b g sid => be_bytes 32 p ++ be_bytes 32 b ++ be_bytes 32 g
    | _ => []
    end;
  abi_encode_u64_pair a b := be_bytes 32 a ++ be_bytes 32 b
|}.

(** ** Two validators and an oracle *)

Definition toy_config : ValidatorConfig := {|
  cfg_consensus := 100;
  cfg_participants :=
    [ {| address := 1; active_from := 0; active_before := None |};
      {| address := 2; active_from := 0; active_before := None |} ];
  oracles := {[ 7 ]};
  genesis_salt := 0;
  blocks_per_epoch := 10;
  key_gen_timeout := 5;
  signing_timeout := 5;
  oracle_timeout := 5
|}.

Lemma toy_config_ok : config_ok toy_config.
Proof. constructor; simpl; lia. Qed.

Definition toy_genesis : ParticipantSet :=
  {| addresses := {[ 1; 2 ]}; set_excluded := ∅; set_context := 0 |}.

#[export] Instance toy_transition : Transition := {|
  account := 1;
  genesis := toy_genesis;
  consensus := domain_new 1 100;
  config := toy_config
|}.

(** ** A scenario

    Genesis: the two validators generate the first group. Then a transaction is
    proposed to it, its signature is requested, and its oracle approves it. *)

Abbreviation ToyMessage := (Message.t Event.t Resume.t).

Definition toy_log (block address : Z) (event : Event.t) : ToyMessage :=
  Message.Event (MkEventLog (MkEventBlock block 0) 0 address event).
Definition toy_coordinator (block : Z) (event : Coordinator.CoordinatorEvents) : ToyMessage :=
  toy_log block 99 (Event.Coordinator event).
Definition toy_consensus (block : Z) (event : Consensus.ConsensusEvents) : ToyMessage :=
  toy_log block 100 (Event.Consensus event).

Definition toy_group : Group := group toy_genesis.
Definition toy_gid : Z := Eval vm_compute in id toy_group.

Definition toy_secrets (a : Z) : Keygen.Secrets :=
  Keygen.MkSecrets true (true, toy_proof) (MkToySecret a 2 2) toy_proof.

Definition toy_committed (a : Z) : ToyMessage :=
  toy_coordinator 2 (Coordinator.KeyGenCommittedEvent (Coordinator.Build_KeyGenCommitted
    toy_gid a (Keygen.commitment (toy_secrets a)) false)).

(** One scalar, for the other participant, encrypted with the shared secret. *)
Definition toy_shared (a : Z) : ToyMessage :=
  toy_coordinator 3 (Coordinator.KeyGenSecretSharedEvent (Coordinator.Build_KeyGenSecretShared
    toy_gid a (Sol.MkKeyGenSecretShare (Sol.MkPoint 1 1) [0]) false)).

Definition toy_confirmed (a : Z) : ToyMessage :=
  toy_coordinator 4 (Coordinator.KeyGenConfirmedEvent
    (Coordinator.Build_KeyGenConfirmed toy_gid a false)).

Definition toy_genesis_history : list ToyMessage :=
  [ toy_coordinator 1 (Coordinator.KeyGenEvent
      (Coordinator.Build_KeyGen toy_gid (group_root toy_group) 2 2 0));
    Message.Resume (Resume.Setup toy_gid (toy_secrets 1));
    toy_committed 1; toy_committed 2; toy_shared 1; toy_shared 2;
    toy_confirmed 1; toy_confirmed 2 ].

Definition toy_tx : Sol.SafeTransaction :=
  Sol.MkSafeTransaction 1 50 60 1 [] Sol.CALL 0 0 0 0 0 3.

Definition toy_message : Z :=
  Eval vm_compute in transaction_packet_hash consensus EpochId.Genesis 7 [] toy_tx.

Definition toy_proposed : ToyMessage :=
  toy_consensus 5 (Consensus.TransactionProposedEvent
    (Consensus.Build_TransactionProposed 0 50 7 0 [] toy_tx)).

Definition toy_sid : Z := 77.

Definition toy_sign : ToyMessage :=
  toy_coordinator 6 (Coordinator.SignEvent
    (Coordinator.Build_Sign 2 toy_gid toy_message toy_sid 0)).

Definition toy_oracle_result (approved : bool) : ToyMessage :=
  toy_log 7 7 (Event.Oracle (Oracle.Build_OracleResult toy_message 0 [] approved)).

(** The history up to the oracle's answer. *)
Definition toy_request_history : list ToyMessage :=
  toy_genesis_history ++ [toy_proposed; toy_sign].

(** ** Admissible histories *)

Section Histories.
Context {KEC : Keccak} {FL : FrostLib} {EIP : Eip712} {ABI : Abi} {TR : Transition}.

Abbreviation Message := (Message.t Event.t Resume.t).

(** No message of the history puts a rollover packet up for signing. *)
Fixpoint no_rollover (s : State) (h : list Message) : bool :=
  match h with
  | [] => true
  | m :: h =>
      match rollover_packet s m with None => no_rollover (apply_transition s m).1 h | _ => false end
  end.

Lemma reachable_run s h :
  reachable s -> Forall wf_message h -> no_rollover s h = true -> reachable (run s h).
Proof.
  revert s. induction h as [|m h IH]; intros s Hs Hwf Hno; [done|].
  apply Forall_cons in Hwf as [Hm Hwf]. simpl in Hno.
  destruct (rollover_packet s m) eqn:E; [done|]. apply IH; [|done..].
  apply reachable_step; [done|]. split; [done|]. intros q message x Hq. congruence.
Qed.

(** No signature id is given a second time. *)
Fixpoint signed_apart (s : State) (h : list Message) : bool :=
  match h with
  | [] => true
  | m :: h =>
      match m with
      | Message.Event log =>
          match log_data log with
          | Event.Coordinator (Coordinator.SignEvent ev) =>
              bool_decide (signature_id_to_message s !! Coordinator.sg_sid ev = None)
          | _ => true
          end
      | _ => true
      end && signed_apart (apply_transition s m).1 h
  end.

Lemma traced_run s h :
  traced s -> Forall wf_message h -> no_rollover s h = true -> signed_apart s h = true -> traced (run s h).
Proof.
  revert s. induction h as [|m h IH]; intros s Hs Hwf Hno Ha; [done|].
  apply Forall_cons in Hwf as [Hm Hwf]. simpl in Hno, Ha. apply andb_true_iff in Ha as [Hu Ha].
  destruct (rollover_packet s m) eqn:E; [done|]. apply IH; [|done..].
  apply traced_step; [done|split; [done|by intros q message x Hq; congruence]|].
  unfold untracked. destruct m as [b|log|r]; try done. destruct (log_data log) as [ev|ev|ev]; try done.
  destruct ev; try done. by apply bool_decide_eq_true in Hu.
Qed.

End Histories.

Ltac toy_wf := repeat constructor; vm_compute; congruence.

Lemma toy_request_reachable : reachable (run default_state toy_request_history).
Proof. apply reachable_run; [constructor|toy_wf|by vm_compute]. Qed.

(** ** Honest histories *)

Section Honest.
Context {KEC : Keccak} {FL : FrostLib} {EIP : Eip712} {ABI : Abi} {TR : Transition}.

#[local] Instance generating_dec (r : RolloverState) (P : Group -> Prop) :
  (forall g, Decision (P g)) -> Decision (forall g, generating r = Some g -> P g).
Proof.
  intros HP. destruct (generating r) as [g|]; [|by left].
  destruct (HP g) as [H|H]; [left; by intros _ [= <-]|right; intros Ha; by apply H, Ha].
Defined.

#[export] Instance contract_event_dec r ev : Decision (contract_event r ev).
Proof. destruct ev; apply generating_dec; intros g; apply _. Defined.

#[export] Instance contract_message_dec s m : Decision (contract_message s m).
Proof. destruct m as [b|[? ? ? []]|r]; simpl; apply _. Defined.

Fixpoint honest_history (s : State) (h : list (Message.t Event.t Resume.t)) : bool :=
  match h with
  | [] => true
  | m :: h => bool_decide (contract_message s m) && honest_history (apply_transition s m).1 h
  end.

Lemma honest_run s h : honest s -> honest_history s h = true -> honest (run s h).
Proof.
  revert s. induction h as [|m h IH]; intros s Hs Hh; [done|].
  simpl in Hh. apply andb_true_iff in Hh as [Hm%bool_decide_eq_true Hh].
  apply IH; [|done]. by apply honest_step.
Qed.

End Honest.

Lemma toy_genesis_ok : genesis_ok.
Proof. vm_compute. reflexivity. Qed.

(** ** Snapshots and machines *)

Definition toy_serde (S : Type) : Serde S := {|
  Json := S;
  to_string := Some;
  from_str := Some
|}.

Lemma toy_serde_laws (S : Type) : @SerdeLaws S (toy_serde S).
Proof. constructor. intros s. by exists s. Qed.

#[export] Instance toy_state_serde : Serde State := toy_serde State.

Definition toy_block (n : Z) : Update.t Event.t := Update.Block (BlockUpdate.New n n n 0).
Definition toy_logs (n : Z) (events : list Event.t) : Update.t Event.t :=
  Update.Logs (MkEventUpdate n n (imap (fun i e => MkEventLog (MkEventBlock n 0) (Z.of_nat i) 99 e) events)).

Definition toy_machine (updates : list (Update.t Event.t)) : StateMachine :=
  foldl (fun m u => (handle_update m u).1) (MkStateMachine (Some (default_state, Initialized)) ∅) updates.

(** Two blocks, a reorganization of the second, and its replacement. *)
Definition toy_updates : list (Update.t Event.t) :=
  [ toy_block 5;
    toy_logs 5 [Event.Coordinator (Coordinator.KeyGenEvent
      (Coordinator.Build_KeyGen toy_gid (group_root toy_group) 2 2 0))];
    toy_block 6; toy_logs 6 []; Update.Block (BlockUpdate.Uncle 6); toy_block 6 ].

Lemma toy_machine_reaches updates : reaches default_state (toy_machine updates).
Proof.
  unfold toy_machine. generalize (reaches_start default_state).
  generalize (MkStateMachine (Some (default_state, Initialized)) ∅).
  induction updates as [|u updates IH]; intros m Hm; [done|]. simpl. apply IH.
  by apply reaches_update.
Qed.
