(* ===== verification/ToyDeployment.v ===== *)
(** The deployed validator on a chain whose seventh block holds the oracle's approval
    of a transaction: it restarts over the snapshots of the blocks in which the
    group was generated and the transaction proposed, follows the node, and answers
    the approval with fresh nonces. *)

From S2P Require Import Prelude Keccak Merkle Epoch Group Bindings FrostLib Frost Hashing.
From S2P Require Import Secrets Messages Snapshots StateMachine Node Blocks Events Watch ToyNode.
From S2P Require Import TxTypes TxStorage TxQueue ToyTx Driver Service State KeyGen Signing.
From S2P Require Import Validator Clock Sessions Gate Rounds Deployment Toy.

#[local] Existing Instance toy_keccak.

(** ** The chain *)

Definition oracle_logs : list Log := [MkLog [8] [] 7 (Some 7) (Some 7) (Some 35) (Some 0)].
#[local] Instance toy_approving_node : Node := {|
  RpcError := unit;
  resource_not_found _ := true;
  chain_id := 100;
  node_block := node_block (Node := toy_node);
  node_logs _ f := Ok (filter (fun l => toy_matches f l && toy_in_blocks f l = true) oracle_logs);
  logs_bloom l := Z.of_nat (length l);
  bloom_contains _ _ := true;
  race t := t;
  hash_number h := h
|}.

#[local] Instance toy_consensus_events : SolEventInterface Consensus.ConsensusEvents :=
  {| SELECTORS := [6]; decode_raw_log _ _ := None |}.
#[local] Instance toy_coordinator_events : SolEventInterface Coordinator.CoordinatorEvents :=
  {| SELECTORS := [7]; decode_raw_log _ _ := None |}.
#[local] Instance toy_oracle_events : SolEventInterface Oracle.OracleResult :=
  {| SELECTORS := [8]; decode_raw_log _ _ := Some (Oracle.Build_OracleResult toy_message 0 [] true) |}.

(** ** The service *)

Definition toy_validator : ValidatorService :=
  MkValidatorService 1 empty_store toy_genesis (domain_new 1 100) 99 toy_config.
Lemma toy_validator_new :
  match new_service 1 1 empty_store 99 toy_config with
  | Ok s => bool_decide (addresses (vs_genesis s) = addresses toy_genesis) && (set_context (vs_genesis s) =? 0)
  | Err _ => false
  end = true.
Proof. vm_compute. reflexivity. Qed.

Definition toy_thread (n : nat) : Rng := Z.of_nat n.
#[local] Instance toy_state_laws : SerdeLaws State := toy_serde_laws State.

(** Its components, as the theorem names them. *)
#[local] Hint Extern 0 (EffectHandler _ _ _) => exact (validator_effects toy_thread) : typeclass_instances.
#[local] Hint Extern 0 (ActionEncoder _) => exact (the_encoder toy_validator) : typeclass_instances.
#[local] Hint Extern 0 Transition => exact (the_transition toy_validator) : typeclass_instances.

Definition toy_event (m : ToyMessage) : list (EventLog Event.t) := match m with Message.Event e => [e] | _ => [] end.
Definition at_block (n : Z) (ms : list ToyMessage) : Update.t Event.t :=
  Update.Logs (MkEventUpdate n n (imap (fun i e =>
    MkEventLog (MkEventBlock n 0) (Z.of_nat i) (log_address e) (log_data e)) (ms ≫= toy_event))).

(** The machine that wrote the snapshots. *)
Definition updated (m : StateMachine) (updates : list (Update.t Event.t)) : StateMachine :=
  foldl (fun m u => (handle_update m u).1) m updates.
Definition toy_opening : StateMachine := toy_machine [toy_block 2; at_block 2 (take 1 toy_genesis_history)].
Definition toy_committing : StateMachine := (handle_resume toy_opening (Resume.Setup toy_gid (toy_secrets 1))).1.
Definition toy_past : StateMachine :=
  (machine_prune (updated toy_committing [toy_block 3; at_block 3 (drop 2 toy_request_history);
    toy_block 4; at_block 4 []; toy_block 5; at_block 5 []; toy_block 6; at_block 6 []]) 5).1.

Lemma updated_reaches m updates : reaches default_state m -> reaches default_state (updated m updates).
Proof.
  revert m. induction updates as [|u updates IH]; intros m Hm; [exact Hm|]. apply IH.
  by apply reaches_update.
Qed.
Lemma toy_past_reaches : reaches default_state toy_past.
Proof.
  refine (reaches_prune default_state _ 5 (updated_reaches _ _ (reaches_resume default_state toy_opening _ _))).
  exact (toy_machine_reaches _).
Qed.

(** ** A run

    The validator's staker is not the one configured. The sixth block is indexed
    again, an effect ends, and the seventh block holds the approval. *)

Abbreviation ToyDriver := (Driver (S := State) (H := Handler) (Effect := Effect.t) (Resume := Resume.t)).

Definition toy_deployed : option (result DriverError ToyDriver) :=
  start toy_validator 30 (snapshots toy_past) empty_storage toy_blocks_config toy_events_config toy_tx_config (Some 8) 9.
Definition toy_schedule : list DriverEvent := [Poll; Poll; Poll; Complete 0; Poll].
Definition toy_approval : Input (Event := Event.t) (Resume := Resume.t) := InputUpdate (Update.Logs (MkEventUpdate 7 7
  [MkEventLog (MkEventBlock 7 35) 0 7 (Event.Oracle (Oracle.Build_OracleResult toy_message 0 [] true))])).

Definition generates (e : Effect.t) : bool := match e with Effect.GenerateNonces _ _ _ => true | _ => false end.

Lemma deployed_validator_signs_witness :
  exists d1 d2 e h msg k status,
    update_driver toy_approval d1 = Ok d2 /\ length (running (d_effects d1)) = 1%nat /\ generates e = true /\
    inner (d_state d2) = Some (run default_state (h ++ msg :: k), status) /\ replays (h ++ msg :: k) status /\
    accounted_for toy_validator h msg (Command.Effect e).
Proof.
  assert (match toy_deployed with
    | Some (Ok d) =>
        match run_driver 30 toy_schedule d with
        | Some (Ok d1) =>
            match update_driver toy_approval d1 with
            | Ok d2 => Nat.eqb (length (running (d_effects d1))) 1 && existsb generates (drop 1 (running (d_effects d2)))
            | Err _ => false
            end
        | _ => false
        end
    | _ => false
    end = true) as Hok by (vm_compute; reflexivity).
  destruct toy_deployed as [[d|e]|] eqn:Hd; [|discriminate Hok..].
  destruct (run_driver 30 toy_schedule d) as [[d1|e]|] eqn:Hr; [|discriminate Hok..].
  destruct (update_driver toy_approval d1) as [d2|e] eqn:Hu; [|discriminate Hok].
  apply andb_true_iff in Hok as [Hl Hg]. apply Nat.eqb_eq in Hl. apply existsb_exists in Hg as (e & He & Hg).
  pose proof (deployed_validator_signs toy_thread toy_validator 30 toy_past empty_storage toy_blocks_config
    toy_events_config toy_tx_config (Some 8) 9 d 30 toy_schedule d1 toy_approval d2 toy_past_reaches) as Hsigned.
  destruct (Hsigned Hd Hr Hu) as (m & commands & queued & ops1 & ops2 & _ & _ & _ & _ & _ & _ & Hrun & Hsigns).
  rewrite Hrun, drop_app_length' in He by done.
  apply list_elem_of_In, list_elem_of_omap in He as (c & Hc & Hce).
  destruct c as [|e']; [discriminate Hce|]. injection Hce as ->.
  destruct (Hsigns _ Hc) as (h & msg & k & status & Hi & Hrep & Ha); [by destruct e|].
  exists d1, d2, e, h, msg, k, status. split; [exact Hu|]. split; [exact Hl|]. split; [exact Hg|].
  split; [exact Hi|]. split; [exact Hrep|exact Ha].
Defined.
