(* ===== verification/ToyShares.v ===== *)
(** A life of the deployed validator from an empty database to a signature share: the
    blocks of its node hold the generation of the first group, a transaction, its
    oracle's approval and the nonces of both validators; then the process restarts,
    indexes the last blocks again, and is asked for the same signature. *)

From S2P Require Import Prelude Keccak Merkle Epoch Group Bindings FrostLib Frost Hashing.
From S2P Require Import Secrets Messages Snapshots StateMachine Node Blocks Events Watch ToyNode.
From S2P Require Import TxTypes TxStorage TxQueue ToyTx Driver Service State KeyGen Signing.
From S2P Require Import Validator Clock Sessions Gate Rounds Deployment Shares Toy ToyDeployment.

#[local] Existing Instance toy_keccak.

(** ** The chain *)

Definition event_of (m : ToyMessage) : list (Z * Event.t) :=
  match m with Message.Event e => [(log_address e, log_data e)] | _ => [] end.
Definition toy_committed_nonces (a : Z) : ToyMessage :=
  toy_coordinator 8 (Coordinator.SignCommittedNoncesEvent (Coordinator.Build_SignCommittedNonces toy_sid a
    (Sign.commitments (Sign.MkSigningNonces (10 : @LibNonces toy_frost))))).

(** The events, with the block each is in. *)
Definition toy_table : list (Z * (Z * Event.t)) :=
  (pair 2 <$> (take 1 toy_genesis_history ≫= event_of)) ++ (pair 4 <$> (drop 1 toy_genesis_history ≫= event_of)) ++
  (pair 6 <$> ([toy_proposed; toy_sign] ≫= event_of)) ++ (pair 7 <$> event_of (toy_oracle_result true)) ++
  (pair 8 <$> ([toy_committed_nonces 1; toy_committed_nonces 2] ≫= event_of)).
Definition selector (e : Event.t) : Z :=
  match e with Event.Consensus _ => 6 | Event.Coordinator _ => 7 | Event.Oracle _ => 8 end.
Definition toy_chain_logs : list Log :=
  imap (fun i '(n, (address, e)) =>
    MkLog [selector e] [Z.of_nat i] address (Some n) (Some n) (Some (5 * n)) (Some (Z.of_nat i))) toy_table.
Definition toy_lookup (data : bytes) : option Event.t := i ← head data; snd ∘ snd <$> toy_table !! Z.to_nat i.

#[local] Instance toy_signing_node : Node := {|
  RpcError := unit;
  resource_not_found _ := true;
  chain_id := 100;
  node_block := node_block (Node := toy_node);
  node_logs _ f := Ok (filter (fun l => toy_matches f l && toy_in_blocks f l = true) toy_chain_logs);
  logs_bloom l := Z.of_nat (length l);
  bloom_contains _ _ := true;
  race t := t;
  hash_number h := h
|}.
#[local] Instance toy_consensus_table : SolEventInterface Consensus.ConsensusEvents := {|
  SELECTORS := [6];
  decode_raw_log _ data := e ← toy_lookup data; match e with Event.Consensus e => Some e | _ => None end
|}.
#[local] Instance toy_coordinator_table : SolEventInterface Coordinator.CoordinatorEvents := {|
  SELECTORS := [7];
  decode_raw_log _ data := e ← toy_lookup data; match e with Event.Coordinator e => Some e | _ => None end
|}.
#[local] Instance toy_oracle_table : SolEventInterface Oracle.OracleResult := {|
  SELECTORS := [8];
  decode_raw_log _ data := e ← toy_lookup data; match e with Event.Oracle e => Some e | _ => None end
|}.
#[local] Instance toy_state_laws : SerdeLaws State := toy_serde_laws State.

(** ** The process *)

Definition toy_unlimited : EventsConfig := MkEventsConfig 2 3 false None ∅.
Abbreviation ToyDriver := (Driver (S := State) (H := Handler) (Effect := Effect.t) (Resume := Resume.t)).

Definition toy_begin : option (result DriverError ToyDriver) :=
  start (with_store toy_validator empty_store) 30 ∅ empty_storage toy_blocks_config toy_unlimited toy_tx_config None 0.
Definition toy_restart (d : ToyDriver) : option (result DriverError ToyDriver) :=
  start (with_store toy_validator (handler_secrets (handler (d_effects d)))) 30 (snapshots (d_state d)) (storage_of d)
    toy_blocks_config toy_unlimited toy_tx_config None 0.

Record Life := MkLife { effects_before : nat; process : ToyDriver; pairs_made : list Sign.SigningNonces; shares_made : list Action.t }.

(** A step of a life, or its restart. *)
Definition toy_step (ev : option DriverEvent) (l : Life) : option Life :=
  let '(MkLife k d gen shares) := l in
  match ev with
  | Some ev =>
      match driver_step (ST := validator_transition (TR := self_transition toy_validator)) (AE := self_encoder toy_validator)
        (EH := validator_effects (rng_after toy_thread k)) 30 ev d with
      | Some (Ok d') =>
          Some (MkLife k d' (gen ++ step_generated toy_thread k ev d)
            (shares ++ shares_in (step_commands toy_validator 30 ev d)))
      | _ => None
      end
  | None => match toy_restart d with Some (Ok d') => Some (MkLife (k + entropy (d_effects d)) d' gen shares) | _ => None end
  end.
Definition toy_life (evs : list (option DriverEvent)) (l : Life) : option Life :=
  foldl (fun l ev => l ← l; toy_step ev l) (Some l) evs.

Lemma toy_step_lives ev l l' :
  lives toy_validator toy_thread (effects_before l) (process l) (pairs_made l) (shares_made l) -> toy_step ev l = Some l' ->
  lives toy_validator toy_thread (effects_before l') (process l') (pairs_made l') (shares_made l').
Proof.
  destruct l as [k d gen shares]. intros Hl Hs. cbn [effects_before process pairs_made shares_made] in Hl.
  unfold toy_step in Hs. destruct ev as [ev|].
  - destruct (driver_step 30 ev d) as [[d2|e]|] eqn:Hd; [|discriminate Hs..]. injection Hs as <-.
    exact (life_goes_on _ _ toy_signing_node toy_tx_node k d gen shares 30 ev d2 Hl Hd).
  - destruct (toy_restart d) as [[d2|e]|] eqn:Hd; [|discriminate Hs..]. injection Hs as <-.
    exact (life_restarts _ _ toy_signing_node toy_tx_node k d gen shares 30 _ _ _ _ _ d2 Hl Hd).
Qed.
Lemma toy_signing_life_lives evs l l' :
  lives toy_validator toy_thread (effects_before l) (process l) (pairs_made l) (shares_made l) -> toy_life evs l = Some l' ->
  lives toy_validator toy_thread (effects_before l') (process l') (pairs_made l') (shares_made l').
Proof.
  revert l'. induction evs as [|ev evs IH] using rev_ind; intros l' Hl Hr; [by injection Hr as <-|].
  unfold toy_life in Hr. rewrite foldl_app in Hr. cbn [foldl] in Hr. apply bind_Some in Hr as (l1 & H1 & Hs).
  eapply toy_step_lives; [by apply IH|exact Hs].
Qed.

(** Two blocks, then what they asked for. *)
Definition round : list (option DriverEvent) :=
  replicate 2 (Some Poll) ++ replicate 5 (Some (Complete 0)) ++ replicate 5 (Some Collect).
(** The share is made; after a restart the blocks are indexed again, and the
    signature asked for again. *)
Definition toy_events_of_life : list (option DriverEvent) :=
  round ++ [Some Poll] ++ round ++ round ++ round ++ [None; Some Poll] ++ round ++ round ++ round.

Lemma nonces_sign_once_witness :
  exists d d' gen shares, lives toy_validator toy_thread 12 d gen shares /\
    length gen = 2%nat /\ length shares = 1%nat /\
    enqueues_commands toy_validator 30 Poll d d' /\
    exists used, used ⊆+ gen ++ step_generated toy_thread 12 Poll d /\
      Forall2 signed_with (shares ++ shares_in (step_commands toy_validator 30 Poll d)) used.
Proof.
  assert (match toy_begin with
    | Some (Ok d) =>
        match toy_life toy_events_of_life (MkLife 0 d [] []) with
        | Some l =>
            match toy_step (Some Poll) l with
            | Some _ => Nat.eqb (effects_before l) 12 && Nat.eqb (length (pairs_made l)) 2 && Nat.eqb (length (shares_made l)) 1
            | None => false
            end
        | None => false
        end
    | _ => false
    end = true) as Hok by (vm_compute; reflexivity).
  destruct toy_begin as [[d0|e]|] eqn:H0; [|discriminate Hok..].
  destruct (toy_life toy_events_of_life (MkLife 0 d0 [] [])) as [l|] eqn:Hl; [|discriminate Hok].
  pose proof (toy_signing_life_lives _ (MkLife 0 d0 [] []) _ (life_begins toy_validator toy_thread toy_signing_node toy_tx_node 30
    empty_storage toy_blocks_config toy_unlimited toy_tx_config None 0 d0 H0) Hl) as Hlives.
  destruct l as [k d gen shares]. cbn [effects_before process pairs_made shares_made] in Hlives, Hok. unfold toy_step in Hok.
  destruct (driver_step 30 Poll d) as [[d'|e]|] eqn:Hd; [|discriminate Hok..].
  apply andb_true_iff in Hok as [Hok Hs]. apply andb_true_iff in Hok as [Hk Hg].
  apply Nat.eqb_eq in Hk, Hg, Hs. subst k.
  exists d, d', gen, shares. split; [exact Hlives|]. split; [exact Hg|]. split; [exact Hs|].
  exact (nonces_sign_once toy_validator toy_thread 12 d gen shares 30 Poll d' Hlives Hd).
Defined.
