(* ===== verification/Guarantees.v ===== *)
(** What the validator guarantees, over every history of messages its state
    machine can be given: the properties of the whole service, assembled from
    the invariants of its parts. Each has a witness where it has hypotheses, a
    run of the instances of [Toy]. *)

From S2P Require Import Prelude Keccak Merkle Epoch Group Bindings FrostLib Frost Hashing.
From S2P Require Import Secrets Messages Snapshots StateMachine Service State KeyGen Signing.
From S2P Require Import Validator Clock Sessions Gate Rounds Retention Toy.

Section Guarantees.
Context {KEC : Keccak} {FL : FrostLib} {EIP : Eip712} {ABI : Abi} {TR : Transition}.

Abbreviation Message := (Message.t Event.t Resume.t).

(** No signing material is released for a transaction its oracle has not
    approved. Whatever the history [h], every command the next message emits that
    uses or publishes signing material (sampling, committing to or using nonces,
    submitting a signature share, attesting) works for a session whose message is
    the hash of its packet, and if that packet is a transaction then its oracle is
    one the configuration allows and approved exactly this message in the history
    so far. *)
Theorem signing_follows_approval (h : list Message) (msg : Message) c :
  c ∈ (apply_transition (run default_state h) msg).2 -> signs c = true ->
  exists m p,
    works_for (run default_state h) (run default_state (h ++ [msg])) c m p /\
    m = packet_message p /\
    forall e o d t, p = PacketTransaction e o d t ->
      o ∈ oracles config /\ approved_in (h ++ [msg]) o m.
Proof.
  intros Hc Hs. destruct (signs_cleared h msg c Hc Hs) as (m & p & Hw & [Hk Hal] & Hcl).
  exists m, p. split; [done|]. split; [done|]. by intros e o d t ->.
Qed.

(** C6: a nonce pair is used for one signature at most. However effects are
    repeated, reordered or replayed after reorgs, as long as reconciliations
    retain the ceremony's group, the handler hands out the secret nonces of a
    ceremony at most once, and every commitment it ever published for that
    ceremony is the commitment to that same pair. *)
Theorem nonces_used_once (h : Handler) (ops : list HandlerOp) group sid :
  Forall (fun op => forall sop, store_op h op = Some sop -> keeps group sid sop) ops ->
  kept_row group (signing_nonces (handler_secrets h) !! sid) ->
  let resumes := (handler_run h ops).2 in
  (length (used_nonces sid ops resumes) <= 1)%nat /\
  exists pair,
    Forall (fun n => pair = Some n) (used_nonces sid ops resumes) /\
    Forall (fun c => Sign.commitments <$> pair = Some c) (published_nonces sid resumes).
Proof.
  intros Hk Hrow resumes. destruct (handler_run_store h ops sid) as (_ & Hu & Hp).
  unfold resumes. rewrite Hu, Hp.
  destruct (store_run_single_pair group sid (omap (store_op h) ops) (handler_secrets h))
    as (Hl & Ht & Hc); [|done|eauto].
  apply Forall_forall. intros sop (op & Hin & Hop)%list_elem_of_omap.
  rewrite Forall_forall in Hk. by eapply Hk.
Qed.

(** C11: the sessions of every reachable state are consistent. A session is keyed
    by the message its packet hashes to, signs with the key share and group of a
    resolved epoch, its own packet's, holds commitments of its signers only (of
    all of them once shares are collected), and concerns an allowed oracle. Each
    tracked signature id leads to the session that uses it, and to no other; and
    when the coordinator gives no signature id a second time while it is tracked,
    every session that has one is found under it. *)
Theorem sessions_consistent s :
  config_ok config -> reachable s ->
  (forall m x, signing s !! m = Some x -> session_ok (epochs s) m x) /\
  (forall sid m, signature_id_to_message s !! sid = Some m ->
     exists x, signing s !! m = Some x /\ signature_id x = Some sid) /\
  (forall sid sid' m, signature_id_to_message s !! sid = Some m ->
     signature_id_to_message s !! sid' = Some m -> sid = sid') /\
  (traced s -> forall m x sid, signing s !! m = Some x -> signature_id x = Some sid ->
     signature_id_to_message s !! sid = Some m).
Proof.
  intros Hcfg Hr. destruct (reachable_inv s Hcfg Hr) as [_ Hs Hi]. split_and!; [done..| |].
  - intros sid sid' m H H'. apply Hi in H as (x & Hx & He). apply Hi in H' as (x' & Hx' & He').
    congruence.
  - intros Ht. by apply (traced_full s Hcfg Ht).
Qed.

(** C12: secrets outlive the sessions that need them. Every block reconciles the
    secret store with a set of groups that has the group of each resolved epoch
    and of each session going on, and the group being generated with what its
    stage still needs; when the store accepts it, no collection that follows
    removes the nonces of a ceremony of such a session, nor the key generation
    secrets of the group being generated. *)
Theorem live_secrets_retained s b :
  config_ok config -> is_u64 b -> reachable s ->
  let s' := (apply_new_block s b).1 in
  exists groups,
    Command.Effect (Effect.ReconcileGroupSecrets b groups) ∈ (apply_new_block s b).2 /\
    (forall e ep, epochs s' !! e = Some ep -> is_Some (groups !! id (ep_group ep))) /\
    (forall g k, rollover_group (rollover s') = Some (g, k) -> groups !! g = Some k) /\
    forall st st1 st2 safe pruned,
      schedule_group_secrets_deletion st b groups = Ok (st1, true) ->
      prune_scheduled_secrets st1 safe = Ok (st2, pruned) ->
      (forall m x ks g sid row, signing s' !! m = Some x -> share_of x = Some (ks, g) ->
         signing_nonces st !! sid = Some row -> nr_group_id row = g ->
         nr_nonces <$> signing_nonces st2 !! sid = Some (nr_nonces row)) /\
      (forall g me row, rollover_group (rollover s') = Some (g, All) ->
         keygen_secrets st !! (g, me) = Some row ->
         kr_secrets <$> keygen_secrets st2 !! (g, me) = Some (kr_secrets row)).
Proof.
  intros Hcfg Hb Hr s'.
  pose proof (apply_new_block_inv s b Hcfg Hb (reachable_inv s Hcfg Hr)) as Hinv.
  exists (retained_groups (epochs s') (rollover s')).
  split; [apply new_block_reconciles|]. split; [intros e ep; apply retained_epoch|].
  split; [apply retained_rollover|]. intros st st1 st2 safe pruned Hs Hp.
  destruct (prune_keeps_retained _ _ _ _ _ _ _ Hs Hp) as [Hn Hk]. split.
  - intros m x ks g sid row Hx Hsh Hrow <-. apply Hn; [done|].
    by eapply live_session_retained.
  - intros g me row Hg Hrow. apply Hk; [done|]. by apply retained_rollover.
Qed.

(** C13: no session stays past its deadline. After any block every session has a
    deadline still to come, and one that had expired goes on only if its signers
    reach its group's threshold and include this validator. *)
Theorem expired_sessions_leave s b m y :
  config_ok config -> b < u64_max ->
  signing (apply_new_block s b).1 !! m = Some y ->
  exists x, signing s !! m = Some x /\ b < deadline y /\ (deadline x <= b -> quorate y).
Proof.
  intros Hcfg Hb. rewrite new_block_session. intros (x & Hx & Hy)%bind_Some.
  exists x. split; [done|]. by eapply time_out_session_live.
Qed.

(** C14: the epoch clock only moves forward. In a reachable state the active epoch
    is behind the epoch being resolved (or both are genesis), every resolved epoch
    is valid and at most that epoch; a message lowers neither of the two, and the
    active epoch changes only when a block at or past the first block of an epoch
    staged onchain arrives, to that epoch. *)
Theorem epochs_advance s m :
  config_ok config -> reachable s -> admissible s m ->
  let s' := (apply_transition s m).1 in
  (EpochId.raw_value (active_epoch s) < target (rollover s) \/
     (active_epoch s = EpochId.Genesis /\ target (rollover s) = 0)) /\
  (forall e ep, epochs s !! e = Some ep ->
     EpochId.valid e /\ EpochId.raw_value e <= target (rollover s)) /\
  target (rollover s) <= target (rollover s') /\
  EpochId.raw_value (active_epoch s) <= EpochId.raw_value (active_epoch s') /\
  (active_epoch s' = active_epoch s \/
   exists b n, m = Message.NewBlock b /\ rollover s = EpochStaged n /\
     active_epoch s' = EpochId.Number n /\ n * blocks_per_epoch config <= b).
Proof.
  intros Hcfg Hr [Hwf Hno] s'. pose proof (inv_clock _ (reachable_inv s Hcfg Hr)) as Hc.
  destruct (transition_forward s m Hcfg Hwf Hc) as [[Ht Ha] Hact].
  split; [apply Hc|]. split; [intros e ep; by apply epochs_le_target|].
  split; [done|]. split; [done|].
  destruct Hact as [?|(b & Hm & n & Hn)]; [by left|]. right. by exists b, n.
Qed.

(** C15: key generation cannot be stalled forever by its participants. A block
    leaves a round alone as long as no deadline of it has passed. Once one has, be
    it of its stage or of the answers to a complaint that still stands, the block
    gives the epoch of the round up, or starts the round over for the same epoch with
    a strictly smaller group that is still viable: after finitely many restarts a
    round completes or its epoch is given up. *)
Theorem timed_out_rounds_shrink s b :
  genesis_ok -> honest s ->
  let before := rollover (handle_rollover_new_block s b).1 in
  let after := rollover (handle_key_gen_timeouts (handle_rollover_new_block s b).1 b).1 in
  (~ overdue before b -> after = before) /\
  (overdue before b ->
    (exists e, next_epoch before = Some e /\ after = rollover_failure e) \/
    exists g g', generating before = Some g /\ generating after = Some g' /\
      next_epoch after = next_epoch before /\
      participants g' ⊂ participants g /\ (size (participants g') < size (participants g))%nat /\
      2 <= threshold g' <= count g' /\ count g' < 2 * threshold g').
Proof.
  intros Hg Hh before after. pose proof (honest_ok s Hg Hh) as Hr.
  destruct (timeouts_shrink (handle_rollover_new_block s b).1 b (rollover_new_block_ok s b Hr)) as [Hsame Hshrink].
  split; [done|]. intros [H|(g & g' & H1 & H2 & Hok & He & Hsub)]%Hshrink; [by left|right].
  exists g, g'. split_and!; try done; [by apply size_lt|by apply group_threshold_range..].
Qed.

(** C16: complaints are counted exactly. In a history the contract can produce
    the complaints standing against a participant of the round stay below its
    threshold, so one more complaint adds exactly one to the sixteen-bit counter,
    whoever raises it, and unanswered complaints never exceed it. *)
Theorem complaints_counted s g accused plaintiff requires_response :
  genesis_ok -> honest s -> generating (rollover s) = Some g -> accused ∈ participants g ->
  let cs := complaints_of (rollover s) in
  let c := count_complaint cs accused plaintiff requires_response in
  (forall a c, cs !! a = Some c -> total c < threshold g) /\
  total c = total (default default_complaint (cs !! accused)) + 1 /\
  total c <= threshold g /\
  Z.of_nat (size (unresponded c)) <= total c.
Proof.
  intros Hg Hh Hgen Ha cs c. pose proof (honest_ok s Hg Hh) as Hr.
  pose proof (rollover_ok_complaints _ _ Hr Hgen) as Hcs.
  pose proof (rollover_ok_group _ _ Hr Hgen) as Hgr.
  assert (forall a c, cs !! a = Some c -> total c < threshold g) as Hlt
    by (intros a d Hd; apply (Hcs a d Hd)).
  destruct (count_complaint_exact g cs accused plaintiff requires_response Hgr Hcs Ha) as [Ht Hu].
  split_and!; try done. change (total c <= threshold g). unfold c. rewrite Ht.
  pose proof (group_threshold_range _ Hgr).
  destruct (cs !! accused) as [d|] eqn:E; simpl; [|lia]. pose proof (Hlt _ _ E). lia.
Qed.

(** The selection a failed round falls back to is the one the chain agrees
    on. When the shares of one signer all go to one selection, a selection that
    reached the threshold of the signers is the canonical one, whatever the order
    the roots are visited in; and when none did, the canonical one is empty and
    the session is dropped. *)
Theorem canonical_selection_unique (signers : gset Z) t (selections : gmap Z SigningSelection) :
  (forall root s, selections !! root = Some s -> shares_from s ⊆ signers) ->
  (forall root s root' s', selections !! root = Some s -> selections !! root' = Some s' ->
     root ≠ root' -> shares_from s ## shares_from s') ->
  Z.of_nat (size signers) < 2 * t ->
  (forall root s, selections !! root = Some s -> t <= Z.of_nat (size (shares_from s)) ->
     canonical_selection t selections = s) /\
  ((forall root s, selections !! root = Some s -> Z.of_nat (size (shares_from s)) < t) ->
     canonical_selection t selections = default_selection).
Proof.
  intros Hsub Hdis Ht. split; [intros root s Hs Hn|apply canonical_selection_none].
  by eapply (canonical_selection_is signers).
Qed.

End Guarantees.

(** ** The reorg-aware state machine *)

Section Machine.
Context {S Event Action Effect Resume : Type}
        {ST : StateTransition S Event Action Effect Resume} {SER : Serde S}.

(** C7: the state machine implements the replay of a history. A machine whose
    state is that of a history, and whose snapshots are those of marked prefixes,
    answers every update as the specification does: it applies exactly the
    messages the specification appends to the history (or returns to a marked
    one), returns exactly the commands they emit, and stays in correspondence; an
    update the specification refuses is an error that poisons the machine and
    leaves the snapshots alone. *)
Theorem machine_refines {SL : SerdeLaws S} (init : S) (m : StateMachine) (sp : Spec) u :
  refines init m sp ->
  match spec_update sp u with
  | Some (sp', messages) =>
      (handle_update m u).2 = Ok (emitted (run init (history sp)) messages) /\
      refines init (handle_update m u).1 sp'
  | None =>
      (exists e, (handle_update m u).2 = Err e) /\ inner (handle_update m u).1 = None /\
      snapshots (handle_update m u).1 = snapshots m
  end.
Proof.
  intros [Hin Han]. pose proof (try_update_spec init (snapshots m) sp u Han) as H.
  unfold handle_update. rewrite Hin. destruct (spec_update sp u) as [[sp' messages]|].
  - destruct H as (st' & -> & Han'). split; [done|]. by split.
  - destruct H as [e ->]. split; [by exists e|done].
Qed.

(** C8: a service's state is always a replay of one canonical chain. Whatever the
    order of updates, resumes, collections of old snapshots, failures and
    restarts, the state of a machine that has not failed is reached from the
    initial state by a history whose block and event messages are those of
    consecutive blocks, each applied exactly once and in order, with every event
    under its own block, up to the block the machine goes on from. *)
Theorem machine_replays {SL : SerdeLaws S} (init : S) (m : StateMachine) state status :
  reaches init m -> inner m = Some (state, status) ->
  exists h sc,
    state = run init h /\ chain h = script_messages sc ++ status_tail status /\ script_ok sc /\
    match status_next status with Some n => ends sc n | None => sc = [] end.
Proof.
  intros Hr Hin. destruct (reaches_sound init m Hr) as (mk & _ & _ & Hs). rewrite Hin in Hs.
  destruct Hs as (h & -> & sc & Hc & Hok & Hn). by exists h, sc.
Qed.

End Machine.
