(* ===== verification/Witnesses.v ===== *)
(** Witnesses: each property with hypotheses applied to a concrete run of the
    instances of [Toy], where its hypotheses hold by evaluation. *)

From S2P Require Import Prelude Keccak Merkle Epoch Group Bindings FrostLib Frost Hashing.
From S2P Require Import Secrets Messages Snapshots StateMachine Service State KeyGen Signing.
From S2P Require Import Validator Clock Sessions Gate Rounds Agreement Retention Toy Guarantees.

#[export] Existing Instances toy_keccak_laws toy_frost_laws.

(** Evaluations are boolean: the types of the model carry the instances, which
    are not to be evaluated. *)
Lemma exists_signing (cs : list (Command.t Action.t Effect.t)) :
  existsb signs cs = true -> exists c, c ∈ cs /\ signs c = true.
Proof. intros (c & Hc & Hs)%existsb_exists. exists c. by rewrite list_elem_of_In. Qed.

Definition present {A} (o : option A) : bool := if o then true else false.
Lemma present_Some {A} (o : option A) : present o = true -> exists x, o = Some x.
Proof. destruct o; [eauto|done]. Qed.

Definition toy_key_share : Keygen.KeyShare := Keygen.MkKeyShare (1, true, true, true, 2).

(** The oracle's approval releases the nonce generation. *)
Lemma signing_follows_approval_witness :
  exists c m p,
    works_for (run default_state toy_request_history)
      (run default_state (toy_request_history ++ [toy_oracle_result true])) c m p /\
    m = packet_message p /\
    forall e o d t, p = PacketTransaction e o d t ->
      o ∈ oracles config /\ approved_in (toy_request_history ++ [toy_oracle_result true]) o m.
Proof.
  destruct (exists_signing
    (apply_transition (run default_state toy_request_history) (toy_oracle_result true)).2)
    as (c & Hc & Hs); [vm_compute; reflexivity|].
  exists c. exact (signing_follows_approval _ _ c Hc Hs).
Defined.

(** A ceremony whose effects are all delivered twice. *)
Definition toy_handler : Handler := MkHandler 1 empty_store.
Definition toy_ceremony : list HandlerOp :=
  [ Perform 10 (Effect.GenerateNonces toy_gid toy_sid toy_key_share);
    Perform 20 (Effect.GenerateNonces toy_gid toy_sid toy_key_share);
    Perform 0 (Effect.ReconcileGroupSecrets 5 {[ toy_gid := Nonces ]});
    Housekeep (MkBlockStatus 5 3);
    Perform 0 (Effect.UseNonces toy_message toy_sid);
    Perform 30 (Effect.GenerateNonces toy_gid toy_sid toy_key_share);
    Perform 0 (Effect.UseNonces toy_message toy_sid) ].

Lemma nonces_used_once_witness :
  (Sign.lib_nonces <$> used_nonces toy_sid toy_ceremony (handler_run toy_handler toy_ceremony).2
     : list Z) = [10] /\
  (length (used_nonces toy_sid toy_ceremony (handler_run toy_handler toy_ceremony).2) <= 1)%nat /\
  exists pair,
    Forall (fun n => pair = Some n)
      (used_nonces toy_sid toy_ceremony (handler_run toy_handler toy_ceremony).2) /\
    Forall (fun c => Sign.commitments <$> pair = Some c)
      (published_nonces toy_sid (handler_run toy_handler toy_ceremony).2).
Proof.
  split; [vm_compute; reflexivity|].
  apply (nonces_used_once toy_handler toy_ceremony toy_gid toy_sid); [|exact I].
  repeat constructor; intros sop [= <-]; simpl; auto.
Defined.

(** After the oracle approved, one session collects nonce commitments. *)
Definition toy_signing_history : list ToyMessage :=
  toy_request_history ++ [toy_oracle_result true].

Lemma toy_signing_reachable : reachable (run default_state toy_signing_history).
Proof. apply reachable_run; [constructor|toy_wf|by vm_compute]. Qed.

Lemma toy_signing_traced : traced (run default_state toy_signing_history).
Proof. apply traced_run; [constructor|toy_wf|by vm_compute|by vm_compute]. Qed.

Lemma sessions_consistent_witness :
  let s := run default_state toy_signing_history in
  size (signing s) = 1%nat /\ signature_id_to_message s !! toy_sid = Some toy_message /\ traced s /\
  (forall m x, signing s !! m = Some x -> session_ok (epochs s) m x) /\
  (forall sid m, signature_id_to_message s !! sid = Some m ->
     exists x, signing s !! m = Some x /\ signature_id x = Some sid) /\
  (forall sid sid' m, signature_id_to_message s !! sid = Some m ->
     signature_id_to_message s !! sid' = Some m -> sid = sid') /\
  (traced s -> forall m x sid, signing s !! m = Some x -> signature_id x = Some sid ->
     signature_id_to_message s !! sid = Some m).
Proof.
  intros s. split; [vm_compute; reflexivity|]. split; [vm_compute; reflexivity|].
  split; [exact toy_signing_traced|].
  apply (sessions_consistent s); [apply toy_config_ok|apply toy_signing_reachable].
Defined.

(** The next block retains the group of the session. *)
Lemma live_secrets_retained_witness :
  size (signing (apply_new_block (run default_state toy_signing_history) 8).1) = 1%nat /\
  let s' := (apply_new_block (run default_state toy_signing_history) 8).1 in
  exists groups,
    Command.Effect (Effect.ReconcileGroupSecrets 8 groups)
      ∈ (apply_new_block (run default_state toy_signing_history) 8).2 /\
    (forall e ep, epochs s' !! e = Some ep -> is_Some (groups !! id (ep_group ep))) /\
    (forall g k, rollover_group (rollover s') = Some (g, k) -> groups !! g = Some k) /\
    forall st st1 st2 safe pruned,
      schedule_group_secrets_deletion st 8 groups = Ok (st1, true) ->
      prune_scheduled_secrets st1 safe = Ok (st2, pruned) ->
      (forall m x ks g sid row, signing s' !! m = Some x -> share_of x = Some (ks, g) ->
         signing_nonces st !! sid = Some row -> nr_group_id row = g ->
         nr_nonces <$> signing_nonces st2 !! sid = Some (nr_nonces row)) /\
      (forall g me row, rollover_group (rollover s') = Some (g, All) ->
         keygen_secrets st !! (g, me) = Some row ->
         kr_secrets <$> keygen_secrets st2 !! (g, me) = Some (kr_secrets row)).
Proof.
  split; [vm_compute; reflexivity|].
  refine (live_secrets_retained (run default_state toy_signing_history) 8 toy_config_ok _
            toy_signing_reachable). unfold is_u64; lia.
Defined.

(** A request no one has signed yet, at a block before its deadline. *)
Lemma expired_sessions_leave_witness :
  let s := run default_state toy_request_history in
  exists y, signing (apply_new_block s 8).1 !! toy_message = Some y /\
  exists x, signing s !! toy_message = Some x /\ 8 < deadline y /\ (deadline x <= 8 -> quorate y).
Proof.
  intros s.
  destruct (present_Some (signing (apply_new_block s 8).1 !! toy_message)) as [y E];
    [vm_compute; reflexivity|].
  exists y. split; [exact E|].
  apply (expired_sessions_leave s 8 toy_message y); [apply toy_config_ok|lia|exact E].
Defined.

(** ** The reorg-aware machine *)

(** The first block of a machine that starts over an empty database. *)
Definition toy_start : StateMachine := toy_machine [].
Definition toy_start_spec : Spec (Event := Event.t) (Resume := Resume.t) := MkSpec [] Initialized ∅.

Lemma machine_refines_witness :
  refines default_state toy_start toy_start_spec /\
  match spec_update toy_start_spec (toy_block 5) with
  | Some (sp', messages) =>
      (handle_update toy_start (toy_block 5)).2
        = Ok (emitted (run default_state (history toy_start_spec)) messages) /\
      refines default_state (handle_update toy_start (toy_block 5)).1 sp'
  | None =>
      (exists e, (handle_update toy_start (toy_block 5)).2 = Err e) /\
      inner (handle_update toy_start (toy_block 5)).1 = None /\
      snapshots (handle_update toy_start (toy_block 5)).1 = snapshots toy_start
  end.
Proof.
  assert (refines default_state toy_start toy_start_spec) as H
    by (split; [reflexivity|intros n; exact I]).
  split; [exact H|].
  exact (machine_refines (SL := toy_serde_laws State) default_state toy_start toy_start_spec
           (toy_block 5) H).
Defined.

Lemma machine_replays_witness :
  exists state status,
    inner (toy_machine toy_updates) = Some (state, status) /\
    exists h sc,
      state = run default_state h /\ chain h = script_messages sc ++ status_tail status /\
      script_ok sc /\ match status_next status with Some n => ends sc n | None => sc = [] end.
Proof.
  destruct (present_Some (inner (toy_machine toy_updates))) as [[state status] H];
    [vm_compute; reflexivity|].
  exists state, status. split; [exact H|].
  exact (machine_replays (SL := toy_serde_laws State) default_state _ state status
           (toy_machine_reaches toy_updates) H).
Defined.

(** ** Epochs, rounds and selections *)

Lemma toy_block_admissible s b : is_u64 b -> admissible s (Message.NewBlock b).
Proof. intros Hb. split; [exact Hb|]. intros q m x [=]. Qed.

Lemma epochs_advance_witness :
  let s' := (apply_transition (run default_state toy_signing_history) (Message.NewBlock 25)).1 in
  (EpochId.raw_value (active_epoch (run default_state toy_signing_history))
     < target (rollover (run default_state toy_signing_history)) \/
     (active_epoch (run default_state toy_signing_history) = EpochId.Genesis /\
      target (rollover (run default_state toy_signing_history)) = 0)) /\
  (forall e ep, epochs (run default_state toy_signing_history) !! e = Some ep ->
     EpochId.valid e /\
     EpochId.raw_value e <= target (rollover (run default_state toy_signing_history))) /\
  target (rollover (run default_state toy_signing_history)) <= target (rollover s') /\
  EpochId.raw_value (active_epoch (run default_state toy_signing_history))
    <= EpochId.raw_value (active_epoch s') /\
  (active_epoch s' = active_epoch (run default_state toy_signing_history) \/
   exists b n, Message.NewBlock (Event := Event.t) (Resume := Resume.t) 25 = Message.NewBlock b /\
     rollover (run default_state toy_signing_history) = EpochStaged n /\
     active_epoch s' = EpochId.Number n /\ n * blocks_per_epoch config <= b).
Proof.
  refine (epochs_advance (run default_state toy_signing_history) (Message.NewBlock 25)
            toy_config_ok toy_signing_reachable _).
  apply toy_block_admissible. unfold is_u64; lia.
Defined.

(** Epoch 1's round, which no one committed to before its deadline. *)
Lemma toy_genesis_honest : honest (run default_state toy_genesis_history).
Proof. apply honest_run; [constructor|vm_compute; reflexivity]. Qed.

Lemma timed_out_rounds_shrink_witness :
  let before := rollover (handle_rollover_new_block (run default_state toy_genesis_history) 9).1 in
  let after := rollover (handle_key_gen_timeouts
    (handle_rollover_new_block (run default_state toy_genesis_history) 9).1 9).1 in
  overdue before 9 /\
  ((~ overdue before 9 -> after = before) /\
  (overdue before 9 ->
    (exists e, next_epoch before = Some e /\ after = rollover_failure e) \/
    exists g g', generating before = Some g /\ generating after = Some g' /\
      next_epoch after = next_epoch before /\
      participants g' ⊂ participants g /\ (size (participants g') < size (participants g))%nat /\
      2 <= threshold g' <= count g' /\ count g' < 2 * threshold g')).
Proof.
  intros before after. split; [vm_compute; discriminate|].
  exact (timed_out_rounds_shrink (run default_state toy_genesis_history) 9 toy_genesis_ok
           toy_genesis_honest).
Defined.

(** Genesis while shares are collected: the second validator is accused. *)
Definition toy_sharing : State := run default_state (take 5 toy_genesis_history).

Lemma toy_sharing_honest : honest toy_sharing.
Proof. apply honest_run; [constructor|vm_compute; reflexivity]. Qed.

Lemma complaints_counted_witness :
  exists g, generating (rollover toy_sharing) = Some g /\
  let cs := complaints_of (rollover toy_sharing) in
  let c := count_complaint cs 2 1 true in
  (forall a c, cs !! a = Some c -> total c < threshold g) /\
  total c = total (default default_complaint (cs !! 2)) + 1 /\
  total c <= threshold g /\
  Z.of_nat (size (unresponded c)) <= total c.
Proof.
  destruct (present_Some (generating (rollover toy_sharing) ≫= fun g =>
    if decide (2 ∈ participants g) then Some g else None)) as [g H]; [vm_compute; reflexivity|].
  apply bind_Some in H as (g' & Hg & H). case_decide as Ha; [|done]. exists g'.
  split; [exact Hg|].
  exact (complaints_counted toy_sharing g' 2 1 true toy_genesis_ok toy_sharing_honest Hg Ha).
Defined.

Definition toy_selections : gmap Z SigningSelection :=
  <[10 := MkSigningSelection {[1; 2]} (Some 2)]> {[20 := MkSigningSelection {[3]} (Some 3)]}.

Lemma canonical_selection_unique_witness :
  canonical_selection 2 toy_selections = MkSigningSelection {[1; 2]} (Some 2).
Proof.
  apply (canonical_selection_unique ({[1; 2; 3]} : gset Z) 2 toy_selections) with (root := 10).
  - apply (bool_decide_unpack (map_Forall (fun _ s => shares_from s ⊆ ({[1; 2; 3]} : gset Z))
             toy_selections)). vm_compute. exact I.
  - intros root s root' s' Hs Hs' Hne. unfold toy_selections in *.
    apply lookup_insert_Some in Hs as [[<- <-]|[? Hs]];
      apply lookup_insert_Some in Hs' as [[<- <-]|[? Hs']];
      rewrite ?lookup_singleton_Some in *; destruct_and?; simplify_eq/=; set_solver.
  - vm_compute. reflexivity.
  - reflexivity.
  - vm_compute. discriminate.
Defined.

(** ** Cryptographic layer *)

Definition toy_verified : Keygen.VerifiedCommitment :=
  Keygen.MkVerifiedCommitment true (toy_commitment, toy_proof).
Definition toy_commitments : gmap Z Keygen.VerifiedCommitment :=
  <[1 := toy_verified]> {[2 := toy_verified]}.

Lemma is_ok_Ok {E A} (r : result E A) : is_ok r = true -> exists a, r = Ok a.
Proof. destruct r; [eauto|done]. Qed.

Lemma share_delivered_witness :
  exists sha share shb shareb s,
    Keygen.generate_secret_shares (toy_secrets 1) toy_commitments = Ok (sha, share) /\
    Keygen.generate_secret_shares (toy_secrets 2) toy_commitments = Ok (shb, shareb) /\
    Keygen.peer_packages_map sha !! Keygen.identifier 2 = Some s /\
    Keygen.reveal_secret_share sha 2 = Ok (scalar_to_bytes s) /\
    Keygen.verify_encrypted_secret_share shb 1 (Sol.share_f share) =
      Keygen.VerifiedShare_new (Keygen.identifier 2) 1 toy_commitment (scalar_to_bytes s) /\
    Keygen.verify_revealed_secret_share (Keygen.sh_group_commitments shb) 2 1 (scalar_to_bytes s) =
      Keygen.VerifiedShare_new (Keygen.identifier 2) 1 toy_commitment (scalar_to_bytes s).
Proof.
  destruct (is_ok_Ok (Keygen.generate_secret_shares (toy_secrets 1) toy_commitments))
    as [[sha share] Ha]; [vm_compute; reflexivity|].
  destruct (is_ok_Ok (Keygen.generate_secret_shares (toy_secrets 2) toy_commitments))
    as [[shb shareb] Hb]; [vm_compute; reflexivity|].
  exists sha, share, shb, shareb.
  destruct (Keygen.share_delivered toy_commitments 1 2
    toy_verified toy_verified (toy_secrets 1) (toy_secrets 2) sha shb share shareb) as (s & H);
    [intros a b _ _ He; exact He|reflexivity..|discriminate|reflexivity|reflexivity
    |reflexivity|reflexivity|exact Ha|exact Hb|].
  exists s. split; [exact Ha|]. split; [exact Hb|]. exact H.
Defined.

Definition toy_nonces : Sign.SigningNonces := Sign.MkSigningNonces (10 : @LibNonces toy_frost).
Definition toy_point : ProjectivePoint := true.

Definition toy_committed_nonces : gmap Z Sign.CommittedNonces :=
  <[1 := Sign.MkCommittedNonces (toy_point, toy_point)]> {[2 := Sign.MkCommittedNonces (toy_point, toy_point)]}.

Lemma signature_share_included_witness :
  exists res address,
    is_Some (toy_committed_nonces !! address) /\
    Keygen.identifier address = kp_identifier (Keygen.as_key_package toy_key_share) /\
    verify (Sol.selection_root (Sign.selection res))
      (Sign.signer_leaf address (Sol.r (Sign.share res)) (Sol.l (Sign.share res))
         (Sol.selection_r (Sign.selection res)))
      (Sign.inclusion res) = true.
Proof.
  destruct (is_ok_Ok (Sign.signature_share toy_key_share toy_nonces
    toy_committed_nonces toy_message)) as [res H]; [vm_compute; reflexivity|].
  exists res. exact (Sign.signature_share_included _ _ _ _ res H).
Defined.

Lemma published_commitments_verify_witness :
  Keygen.verify_commitment 1 (Keygen.commitment (toy_secrets 1)) =
    Ok toy_verified /\
  Sign.verify_committed_nonces 1 (Sign.commitments toy_nonces) =
    Ok (Sign.MkCommittedNonces (toy_point, toy_point)).
Proof.
  apply (Sign.published_commitments_verify 1 (toy_secrets 1) toy_nonces);
    [discriminate|reflexivity|reflexivity|discriminate|discriminate].
Defined.

(** ** Groups, trees and hashes *)

Lemma participation_proved_witness :
  (1 ∈ participants (group toy_genesis) <-> is_Some (participate_as toy_genesis 1)) /\
  forall g poap, participate_as toy_genesis 1 = Some (g, poap) ->
    g = group toy_genesis /\ verify (group_root g) 1 poap = true.
Proof.
  exact (participation_proved (cfg_participants toy_config) (GroupEpoch.Genesis 0) toy_genesis 1
           toy_genesis_ok).
Defined.

Definition toy_leaves : list Z := [11; 12; 13].

Lemma merkle_proofs_verify_witness :
  (exists r, last (build toy_leaves) = Some [r] /\ root (build toy_leaves) = r) /\
  forall i x, toy_leaves !! i = Some x ->
    length (proof (build toy_leaves) i) = (height (build toy_leaves) - 1)%nat /\
    verify (root (build toy_leaves)) x (proof (build toy_leaves) i) = true.
Proof. apply merkle_proofs_verify. discriminate. Defined.

Lemma toy_range (l : list Z) :
  forallb (fun x => bool_decide (0 <= x < 2 ^ 256)) l = true -> Forall is_u256 l.
Proof.
  intros H. apply Forall_forall. intros x Hx. rewrite forallb_forall in H.
  rewrite list_elem_of_In in Hx. apply H, bool_decide_eq_true in Hx. exact Hx.
Qed.

(** The last leaf's proof, and the same without its first sibling, of a node. *)
Lemma proof_sound_witness :
  height (build toy_leaves) = 3%nat /\
  (12 ∈ toy_leaves \/ 12 = 0 \/
   hash_broken (proof_strings 12 (proof (build toy_leaves) 1) ++ tree_strings (build toy_leaves))) /\
  let node := hash_pair 11 12 in let p := drop 1 (proof (build toy_leaves) 1) in
  (exists level, build toy_leaves !! 1%nat = Some level /\ (node ∈ level \/ node = 0)) \/
  hash_broken (proof_strings node p ++ tree_strings (build toy_leaves)).
Proof.
  assert (is_u256 12) as H12 by (unfold is_u256; lia).
  assert (Forall is_u256 toy_leaves) as Hl by (apply toy_range; reflexivity).
  assert (Forall is_u256 (proof (build toy_leaves) 1)) as Hp by (apply toy_range; vm_compute; reflexivity).
  split; [vm_compute; reflexivity|]. split.
  - destruct (proof_sound toy_leaves 12 (proof (build toy_leaves) 1)) as (Hfull & _);
      [discriminate|exact H12|exact Hl|exact Hp|vm_compute; reflexivity|].
    apply Hfull. vm_compute. reflexivity.
  - destruct (proof_sound toy_leaves (hash_pair 11 12) (drop 1 (proof (build toy_leaves) 1))) as (_ & Hshort & _);
      [discriminate|apply hash_pair_range|exact Hl|by apply Forall_drop|vm_compute; reflexivity|].
    apply Hshort. vm_compute. lia.
Defined.

Lemma group_id_binds_witness :
  Z.land (group_id 5 3 2 9) (Z.ones 64) = 0 /\
  (group_id 5 3 2 9 = group_id 5 3 2 9 ->
   (5 = 5 /\ 3 = 3 /\ 2 = 2 /\ 9 = 9) \/
   (group_buffer 5 3 2 9 <> group_buffer 5 3 2 9 /\
    keccak256 (group_buffer 5 3 2 9) / 2 ^ 64 = keccak256 (group_buffer 5 3 2 9) / 2 ^ 64)) /\
  (forall k k' e e', 0 <= k < 2 ^ 160 -> 0 <= k' < 2 ^ 160 -> is_u64 e -> is_u64 e' ->
   9 = group_context k e -> 9 = group_context k' e' -> 9 = 9 -> k = k' /\ e = e').
Proof. apply (group_id_binds 5 3 2 9 5 3 2 9); unfold is_u256, is_u16; lia. Defined.

Lemma epoch_clock_witness :
  let n := next_number 25 10 in
  EpochId.valid (EpochId.Number n) /\ n <= next_number 31 10 /\
  (n < u64_max -> (n - 1) * 10 <= 25 < n * 10) /\
  (forall e, EpochId.valid e -> EpochId.from_raw (EpochId.raw_value e) = e) /\
  (forall e e', EpochId.valid e -> EpochId.valid e' ->
     EpochId.min e e' = e <-> EpochId.raw_value e <= EpochId.raw_value e').
Proof. apply (epoch_clock 25 31 10); unfold is_u64; lia. Defined.

(** ** Agreement

    Two validators of one round: each commits after its own setup. *)
Definition failed (r : RolloverState) : bool := match r with Halted | EpochSkipped _ => true | _ => false end.
Lemma failed_spec r : failed r = true <-> is_failure r.
Proof. by destruct r. Qed.

Definition owns (a : Z) (s : State) (m : ToyMessage) : bool :=
  match m with
  | Message.Event log =>
      match log_data log, rollover s with
      | Event.Coordinator (Coordinator.KeyGenCommittedEvent ev),
          CollectingCommitments _ g (CommitmentParticipating _ None) _ _ =>
          negb (bool_decide (Coordinator.kc_gid ev = id g)) || negb (bool_decide (Coordinator.kc_participant ev = a))
      | _, _ => true
      end
  | _ => true
  end.
Lemma owns_owned a s m : owns a s m = true -> owned a s m.
Proof.
  destruct m as [|[? ? ? [| [] |]]|]; try done. simpl.
  destruct (rollover s) as [| | | |? ? [? [|]|] ? ?| | |]; try done.
  intros Ho Hid Ha. by rewrite !bool_decide_true in Ho by done.
Qed.

Fixpoint steady_history (a : Z) (s : State) (h : list ToyMessage) : bool :=
  match h with
  | [] => true
  | m :: h =>
      bool_decide (contract_message s m) && owns a s m &&
      (negb (failed (rollover (step a s m))) || failed (rollover (protocol_step (public s) m))) &&
      steady_history a (step a s m) h
  end.

Lemma steady_run a h0 s h :
  steady a h0 s -> steady_history a s h = true -> steady a (h0 ++ h) (foldl (step a) s h).
Proof.
  revert h0 s. induction h as [|m h IH]; intros h0 s Hs Hh; [by rewrite app_nil_r|].
  cbn [steady_history] in Hh. apply andb_true_iff in Hh as [[[Hct%bool_decide_eq_true Ho%owns_owned]%andb_true_iff Hf]%andb_true_iff Hh].
  replace (h0 ++ m :: h) with ((h0 ++ [m]) ++ h) by (by rewrite <- app_assoc). cbn [foldl]. apply IH; [|done].
  constructor; [done..|]. intros [H1 H2]. rewrite <- failed_spec in H1, H2. rewrite H1 in Hf. by apply H2.
Qed.

Definition toy_opened : ToyMessage := toy_coordinator 1 (Coordinator.KeyGenEvent
  (Coordinator.Build_KeyGen toy_gid (group_root toy_group) 2 2 0)).
Definition toy_setup (a : Z) : ToyMessage := Message.Resume (Resume.Setup toy_gid (toy_secrets a)).
Definition toy_after : list ToyMessage := [toy_committed 2; toy_shared 1; toy_shared 2; toy_confirmed 1].
Definition toy_round_1 : list ToyMessage := toy_opened :: toy_setup 1 :: toy_committed 1 :: toy_after.
Definition toy_round_2 : list ToyMessage := toy_opened :: toy_committed 1 :: toy_setup 2 :: toy_after.

Lemma same_chain (o c : ToyMessage) r1 r2 (l : list ToyMessage) :
  chain (o :: Message.Resume r1 :: c :: l) = chain (o :: c :: Message.Resume r2 :: l).
Proof. unfold chain. by destruct o, c. Qed.

Definition confirming (s : State) : bool :=
  match rollover s with
  | CollectingConfirmations _ _ (Participating _) _ cf _ _ => bool_decide (cf = {[1]})
  | _ => false
  end.

Lemma validators_agree_witness :
  let s := foldl (step 1) default_state toy_round_1 in
  let t := foldl (step 2) default_state toy_round_2 in
  confirming s = true /\ confirming t = true /\ public s = public t.
Proof.
  intros s t. split; [vm_compute; reflexivity|]. split; [vm_compute; reflexivity|].
  assert (steady 1 toy_round_1 s) as Hs by (apply (steady_run 1 []); [constructor|vm_compute; reflexivity]).
  assert (steady 2 toy_round_2 t) as Ht by (apply (steady_run 2 []); [constructor|vm_compute; reflexivity]).
  assert (chain toy_round_1 = chain toy_round_2) as Hc by apply same_chain.
  exact (proj1 (validators_agree 1 2 _ _ s t toy_genesis_ok Hs Ht Hc)).
Defined.

(** ** Stores *)

#[local] Instance toy_z_serde : Serde Z := toy_serde Z.

Definition toy_json (z : Z) : Json (S := Z) := z.
Definition toy_snapshots : gmap Z (Json (S := Z)) :=
  <[3 := toy_json 30]> (<[5 := toy_json 50]> {[7 := toy_json 70]}).

Lemma collection_keeps_anchors_witness :
  exists st', prune toy_snapshots 5 = Ok st' /\
    current st' = current toy_snapshots /\
    (forall uncle, 5 < uncle ->
       snd <$> reorg st' uncle = snd <$> reorg toy_snapshots uncle) /\
    st' ⊆ toy_snapshots.
Proof.
  destruct (is_ok_Ok (prune toy_snapshots 5)) as [st' H]; [vm_compute; reflexivity|].
  exists st'. split; [exact H|]. exact (collection_keeps_anchors _ 5 st' H).
Defined.

Definition toy_row : NoncesRow := MkNoncesRow toy_gid 1 (Some toy_nonces) None.
Definition toy_store : SecretStore := MkSecretStore ∅ {[toy_sid := toy_row]} None.

(** The group is dropped at block 9, and block 8 is the last safe one. *)
Lemma deletions_wait_witness :
  (forall sid row, signing_nonces toy_store !! sid = Some row ->
     not_before 9 (nr_delete_at_block row) ->
     exists row', signing_nonces (store_run toy_store [Schedule 9 ∅; Prune 8]).1 !! sid = Some row' /\
       nr_group_id row' = nr_group_id row /\
       (TakeNonces sid ∉ [Schedule 9 ∅; Prune 8] -> nr_nonces row' = nr_nonces row)) /\
  (forall key row, keygen_secrets toy_store !! key = Some row ->
     not_before 9 (kr_delete_at_block row) ->
     exists row', keygen_secrets (store_run toy_store [Schedule 9 ∅; Prune 8]).1 !! key = Some row' /\
       kr_secrets row' = kr_secrets row).
Proof.
  apply (deletions_wait 9 [Schedule 9 ∅; Prune 8] toy_store).
  repeat constructor; simpl; lia.
Defined.
